(* ===== verification/_CoqProject ===== *)
-Q . S2P
Prelude.v
Doubles.v
Text.v
Printf.v
Json.v
Frame.v
Wire.v
BoundedQueue.v
BroadcastRing.v
RingConc.v
RingWeak.v
RingIdle.v
GapTracker.v
Samples.v
Feed.v
Egress.v
EgressStream.v
EgressEcho.v
FrameStream.v
Pipeline.v
Sources.v
Ingest.v
EndToEnd.v
Cadence.v
Consumers.v
Programs.v
View.v
Deployment.v
StatsJson.v
Http.v
Page.v
Options.v
Usage.v
Platform.v
Shutdown.v
Lifecycle.v
GatewayMain.v
GatewayLoop.v
ConsumerMain.v
Generator.v
RingStress.v
Reports.v
