(* ===== verification/Prelude.v ===== *)
(** * Edge Telemetry Gateway: a verification library

    The gateway reads CAN buses, numbers the frames, and hands every connected consumer
    the same stream over TCP, announcing loss in the stream instead of hiding it. This
    library models its C++ sources (src/src/) as executable definitions and proves what
    makes them correct. What the operating system answers (sockets, poll, clocks, the
    CAN driver, files) and what other threads do in the meantime are always arguments;
    the theorems hold for every answer.

    ** How the parts fit together

    A source is drained by an ingest thread. In the queue topology ([FanOut]) one thread
    numbers the frames and pushes them to one bounded queue per consumer; in the ring
    topology ([RingIngest]) one thread per source publishes into a shared broadcast ring
    whose tickets are the sequence numbers. An egress thread per consumer pops from its
    feed (a queue or a ring cursor), finds holes in the sequence, encodes batches and
    writes them to the client's socket. A consumer program parses the stream, tracks
    loss, answers round-trip probes, and records, measures or checks what it receives.

    ** Files

    - [Prelude]: fixed-width integers ([u8] ... [u64], [s64], [fits]), little-endian
      bytes, list windows, runs of a step function and reachability, hint databases.
    - [Frame], [Wire]: frame.hpp, wire.hpp, wire.cpp. Theorems: the byte layout, round
      trips in both directions for records, headers and loss markers, and the exact
      condition of every decode error.
    - [BoundedQueue]: bounded_queue.hpp. The operations refine an abstract drop-oldest
      FIFO; under any interleaving of critical sections and relaxed counter updates,
      items are neither duplicated nor reordered and the counters add up.
    - [BroadcastRing], [RingConc]: broadcast_ring.hpp. The first has the member
      functions without interference; the second a step per memory access for any
      number of producers and readers, in sequentially consistent order: no torn reads, exact loss accounting, one writer
      per cell, per-source order, readers invisible to everyone else, producers that
      can always finish.
    - [RingWeak]: the same accesses with the relaxed, acquire and release orders of the
      source, on a memory that keeps every store as a message and a view per thread:
      what a reader may still rely on, the torn read that the orders allow, and its
      absence when a release fence follows the claim.
    - [RingIdle]: the idle wait of broadcast_ring.hpp ([wait_for_data], [wake_readers],
      [close]), with loads that answer as late as their memory orders allow: an exact
      waiter count, justified answers, a [close] that releases everyone, and the two ways
      in which a wake-up is still lost.
    - [GapTracker]: gap_tracker.hpp. The counters are the fates of the sequence numbers.
    - [Samples]: samples.hpp, samples.cpp. Decimation keeps an even spread; percentiles
      are nearest-rank values, computed in IEEE doubles.
    - [Feed]: feed.hpp. The classes [ConsumerFeed] (operations) and [FeedSpec] (what the
      egress may rely on), with the queue and the ring as instances.
    - [Egress], [EgressStream], [EgressEcho]: egress.hpp, egress.cpp. The thread loop,
      proved against [FeedSpec]: what every connection of its life carries, loss
      markers, partial writes, probe accounting.
    - [FrameStream]: frame_stream.hpp, frame_stream.cpp. The incremental parser computes
      a reference parser under any segmentation, and makes progress.
    - [Pipeline]: the egress, the parser and the tracker composed, for any connection cut
      anywhere: end-to-end loss accounting, and the runs in which a hole goes unannounced.
    - [Sources]: source.hpp, can_source.cpp, synthetic_source.cpp. The classes [Source]
      and [SourceSpec]; kernel-drop accounting across counter wraps; no tick forgotten.
    - [Ingest]: fanout.cpp, ring_ingest.cpp, proved against [SourceSpec]; the queues it
      feeds meet [FeedSpec].
    - [EndToEnd]: the sources, the ingest threads, a feed, the egress thread, the parser and
      the tracker composed, for both topologies: what a consumer receives of each source
      on a connection, and that the loss report for it adds up. The ring is the atomic one
      of [BroadcastRing].
    - [Cadence]: cadence.hpp. The monitor computes a per-id reference over measurable
      intervals; in gap-aware mode an anomaly never spans an announced loss.
    - [Consumers], [Programs]: the loop shared by record_main.cpp, probe_main.cpp and
      cadence_main.cpp against the class [Consumer], and the three programs. The history of
      a run ([history]) is computed from the connections granted and the bytes they gave;
      the recorded file is that stream byte for byte, and the exit status of the process
      ([process_status], a failed connect included) is evidence of it.
    - [Deployment]: a gateway with queues and a consumer process that reconnects at will: what
      the process captured of each source, what a recorder's file holds, and that the exit
      status accuses no sound gateway.
    - [View], [StatsJson], [Http]: view_main.cpp and http.cpp, the viewer's state, the
      JSON text of its page (it parses to exactly the state) and the page server.
    - [Page]: the HTML page of view_main.cpp as the server sends it: the paths, elements and
      JSON fields its script mentions all exist.
    - [Doubles], [Text], [Printf], [Json]: what the sources use of the C and C++
      libraries: IEEE doubles with an error bound for quotients, [strtoull] and its
      relatives, formatted output with a reader that gets the integers back, and JSON
      with a parser that inverts the printer.
    - [Options]: the command lines of the seven programs. Every well-formed configuration
      has a command line that is read back to it, and no other is ever run.
    - [Usage]: the usage texts of the seven programs, line by line: they list exactly the
      options accepted, and the defaults they state are the real ones.
    - [Platform]: tcp.cpp, rt.cpp, clock.cpp and the functions that open, bind, connect
      and accept, on a kernel whose answers are arguments; ownership triples ([holds])
      say which descriptors each call leaves open, and [logs] which interfaces, ports and
      hosts it binds or connects them to.
    - [Shutdown]: the [stop] functions: every thread is joined, and a client that stays
      connected has been written exactly what the egress's feed still held.
    - [Lifecycle]: [start], [stop] and the destructors of the four classes that own threads
      (fanout.cpp, ring_ingest.cpp, egress.cpp, http.cpp), action by action, interleaved with
      their threads: no [std::terminate], no descriptor or object used after it is gone.
    - [GatewayMain], [GatewayLoop]: main.cpp. Set-up, wiring and tear-down of the process
      without a descriptor leak, with the interfaces and ports asked for, and the ways the
      process ends: exit, hang, or termination by an exception nobody handles; the main
      thread's tap, reports and summary, and when it leaves.
    - [ConsumerMain], [Reports]: the [main] functions of the probe, the recorder, the
      cadence checker and the viewer are the shared loop for the connections the kernel's
      answers grant; what they print can be read back.
    - [Generator]: gen_main.cpp, the paced load generator: every tick is paid, every frame
      accounted for.
    - [RingStress]: ring_stress.cpp. The stress test accepts the interleaving model of the
      ring under every schedule, and only runs without a torn or misplaced frame.

    ** Conventions

    A 64-bit variable is a [Z] with its wrap-around written out by [u64]; a theorem that
    needs absence of wrap-around says so ([log_bound] bounds the frames ever published
    by 2^62, far above what a 64-bit position arithmetic needs and any machine reaches).
    A loop over answers of the environment is a fixpoint over the list of answers and
    returns [None] when the list ends first; the theorems on results are stated for the
    runs that return, and separate ones show that they do ([flush_completes],
    [read_batch_delivers], [ring_writers_finish], [idle_close_drains], [ring_ingest_publishes],
    [cadence_reference]). Loops of the code that are not structural carry fuel: 64
    doublings in [round_up_pow2] (a 64-bit word), one iteration per frame, interruption
    and lap in the ring's read loop, one per record in [decode_records], one per byte in
    the reply parser; each is shown to be enough.
    The number scanners and printers carry as much fuel as a number has bits or a text
    has characters. Percentile ranks are those of exact arithmetic for sample sizes below
    2^40 ([rank_limit]), by the error bound of the double quotient; a [Samples] holds at
    most 2^20 values.
    A system call is a step of the state monad [Sys]: it consumes the kernel's next answer
    and changes the set of open descriptors; a kernel with no answers left fails. The log of
    that state is a ghost: what was bound or connected to what, and the allocations and
    threads refused.

    ** What is not modelled

    The C++ memory orders outside the ring ([RingWeak], [RingIdle]): the statistics
    counters are sequentially consistent, and so is the ring where other components use it
    ([Feed], [Ingest], [EndToEnd], [Shutdown]), atomic in each publication and read; the torn
    reads of [RingWeak] are not in what those files say of the ring topology. Allocations
    fail only where a size asked for on the command line is allocated; smaller ones succeed.
    Loads that answer with stores not yet made (load buffering) are left out of [RingWeak]
    too. Scheduling beyond the interleavings named above; signal
    delivery (a flag that may be set before any turn); calls of [start] and [stop] that
    overlap, of which only the fault is shown ([overlapping_stops_fault]); what a browser
    does with the page; lines the programs print on a connection's events. *)

From stdpp Require Export base list numbers strings gmap.
From Stdlib Require Export ZArith Lia.

#[global] Open Scope Z_scope.

(** ** Automation *)

Create HintDb etg.
Create Rewrite HintDb etg.
Create Rewrite HintDb etg_len.

(** Case analysis on every boolean comparison of the goal and hypotheses. *)
Ltac zbool :=
  repeat match goal with
  | H : (_ <? _) = true |- _ => apply Z.ltb_lt in H
  | H : (_ <? _) = false |- _ => apply Z.ltb_ge in H
  | H : (_ <=? _) = true |- _ => apply Z.leb_le in H
  | H : (_ <=? _) = false |- _ => apply Z.leb_gt in H
  | H : (_ =? _) = true |- _ => apply Z.eqb_eq in H
  | H : (_ =? _) = false |- _ => apply Z.eqb_neq in H
  | H : (_ >? _) = _ |- _ => rewrite Z.gtb_ltb in H
  | H : _ && _ = true |- _ => apply andb_true_iff in H; destruct H
  | H : _ || _ = false |- _ => apply orb_false_iff in H; destruct H
  | H : negb _ = true |- _ => apply negb_true_iff in H
  | H : negb _ = false |- _ => apply negb_false_iff in H
  end.

(** Split on the scrutinee of every [if] of the goal. *)
Ltac split_ifs :=
  repeat (case_match; zbool; simpl in *; try done; try lia).

(** Close goals about machine arithmetic: expose [mod] and call [lia]. *)
Ltac zmod := Z.div_mod_to_equations; lia.

(** ** Machine-width unsigned and signed integers *)

(** A value of a [w]-bit unsigned type: [0 <= z < 2^w]. *)
Definition fits (w z : Z) : Prop := 0 <= z < 2 ^ w.

#[global] Instance fits_dec w z : Decision (fits w z).
Proof. unfold fits. apply _. Defined.

(** Wrap-around of the unsigned types the program uses. *)
Definition u8 (z : Z) : Z := z mod 2 ^ 8.
Definition u16 (z : Z) : Z := z mod 2 ^ 16.
Definition u32 (z : Z) : Z := z mod 2 ^ 32.
Definition u64 (z : Z) : Z := z mod 2 ^ 64.

(** [static_cast<std::int64_t>] of a 64-bit value. *)
Definition s64 (z : Z) : Z := (z + 2 ^ 63) mod 2 ^ 64 - 2 ^ 63.

Definition uint64_max : Z := 2 ^ 64 - 1.

Ltac pow_consts :=
  change (2 ^ 8) with 256 in *; change (2 ^ 16) with 65536 in *;
  change (2 ^ 32) with 4294967296 in *;
  change (2 ^ 63) with 9223372036854775808 in *;
  change (2 ^ 64) with 18446744073709551616 in *.

Lemma u8_fits z : fits 8 (u8 z).
Proof. apply Z.mod_pos_bound. lia. Qed.
Lemma u32_fits z : fits 32 (u32 z).
Proof. apply Z.mod_pos_bound. lia. Qed.
Lemma u64_fits z : fits 64 (u64 z).
Proof. apply Z.mod_pos_bound. lia. Qed.

Lemma u8_small z : fits 8 z → u8 z = z.
Proof. apply Z.mod_small. Qed.
Lemma u16_small z : fits 16 z → u16 z = z.
Proof. apply Z.mod_small. Qed.
Lemma u32_small z : fits 32 z → u32 z = z.
Proof. apply Z.mod_small. Qed.
Lemma u64_small z : fits 64 z → u64 z = z.
Proof. apply Z.mod_small. Qed.

Lemma u64_add_l a b : u64 (u64 a + b) = u64 (a + b).
Proof. apply Zplus_mod_idemp_l. Qed.
Lemma u64_add_r a b : u64 (a + u64 b) = u64 (a + b).
Proof. apply Zplus_mod_idemp_r. Qed.
Lemma u64_u64 a : u64 (u64 a) = u64 a.
Proof. apply Zmod_mod. Qed.

Lemma s64_small z : - 2 ^ 63 <= z < 2 ^ 63 → s64 z = z.
Proof. intros H. unfold s64. rewrite Z.mod_small; pow_consts; lia. Qed.

#[export] Hint Resolve u8_fits u32_fits u64_fits : etg.
#[export] Hint Rewrite u64_add_l u64_add_r u64_u64 : etg.

(** Simplify a wrap whose argument provably fits. *)
Ltac unwrap :=
  repeat match goal with
  | |- context [u64 ?z] => rewrite (u64_small z) by (unfold fits in *; pow_consts; lia)
  | |- context [u32 ?z] => rewrite (u32_small z) by (unfold fits in *; pow_consts; lia)
  | |- context [u8 ?z] => rewrite (u8_small z) by (unfold fits in *; pow_consts; lia)
  end.

(** Equalities modulo [2^64]. *)
Ltac u64_eq := unfold u64; pow_consts; zmod.

(** ** Little-endian bytes *)

(** Byte [i] of [v], as every encoding loop of the sources computes it. *)
Definition byte_of (v : Z) (i : nat) : Z := Z.land (Z.shiftr v (8 * Z.of_nat i)) 255.

Definition le_bytes (n : nat) (v : Z) : list Z := map (byte_of v) (seq 0 n).

(** [v |= byte << (8 * i)] for [i] from 0 to [n - 1]. *)
Definition or_loop (get : nat → Z) (n : nat) : Z :=
  fold_left (λ v i, Z.lor v (Z.shiftl (get i) (8 * Z.of_nat i))) (seq 0 n) 0.

Fixpoint le_value (l : list Z) : Z :=
  match l with
  | [] => 0
  | b :: t => b + 256 * le_value t
  end.

Definition is_byte (b : Z) : Prop := fits 8 b.

Lemma byte_of_div v i : byte_of v i = (v / 2 ^ (8 * Z.of_nat i)) mod 256.
Proof.
  unfold byte_of. rewrite Z.shiftr_div_pow2 by lia.
  change 255 with (Z.ones 8). by rewrite Z.land_ones by lia.
Qed.

Lemma byte_of_fits v i : is_byte (byte_of v i).
Proof. rewrite byte_of_div. apply Z.mod_pos_bound. lia. Qed.

Lemma byte_of_S v i : byte_of v (S i) = byte_of (v / 256) i.
Proof.
  rewrite !byte_of_div, Z.div_div by lia. do 2 f_equal.
  rewrite Nat2Z.inj_succ.
  replace (8 * Z.succ (Z.of_nat i)) with (8 + 8 * Z.of_nat i) by lia.
  by rewrite Z.pow_add_r by lia.
Qed.

Lemma le_bytes_S n v : le_bytes (S n) v = v mod 256 :: le_bytes n (v / 256).
Proof.
  unfold le_bytes. simpl. f_equal.
  - rewrite byte_of_div. simpl. by rewrite Z.div_1_r.
  - rewrite <- (seq_shift n 0), map_map. apply map_ext. intros. apply byte_of_S.
Qed.

Lemma length_le_bytes n v : length (le_bytes n v) = n.
Proof. unfold le_bytes. by rewrite length_map, length_seq. Qed.

Lemma le_bytes_bytes n v : Forall is_byte (le_bytes n v).
Proof.
  unfold le_bytes. apply Forall_forall. intros x Hx.
  apply list_elem_of_In, in_map_iff in Hx as (i & <- & _). apply byte_of_fits.
Qed.

Lemma le_value_bytes n v : le_value (le_bytes n v) = v mod 2 ^ (8 * Z.of_nat n).
Proof.
  revert v. induction n as [|n IH]; intros v.
  - simpl. by rewrite Z.mod_1_r.
  - rewrite le_bytes_S. simpl le_value. rewrite IH.
    replace (8 * Z.of_nat (S n)) with (8 + 8 * Z.of_nat n) by lia.
    rewrite Z.pow_add_r by lia. change (2 ^ 8) with 256.
    rewrite Z.rem_mul_r; lia.
Qed.

Lemma le_value_bound l : Forall is_byte l → 0 <= le_value l < 2 ^ (8 * Z.of_nat (length l)).
Proof.
  induction 1 as [|b l Hb _ IH]; [simpl; lia|].
  simpl le_value. simpl length.
  replace (8 * Z.of_nat (S (length l))) with (8 + 8 * Z.of_nat (length l)) by lia.
  rewrite Z.pow_add_r by lia. unfold is_byte, fits in Hb. pow_consts. lia.
Qed.

Lemma le_bytes_value l : Forall is_byte l → le_bytes (length l) (le_value l) = l.
Proof.
  induction 1 as [|b l Hb Hl IH]; [done|].
  simpl length. rewrite le_bytes_S. simpl le_value.
  unfold is_byte, fits in Hb. pow_consts. f_equal.
  - zmod.
  - replace ((b + 256 * le_value l) / 256) with (le_value l) by zmod. done.
Qed.

Lemma le_value_app l b :
  le_value (l ++ [b]) = le_value l + 2 ^ (8 * Z.of_nat (length l)) * b.
Proof.
  induction l as [|a l IH]; [simpl; lia|].
  simpl app. simpl le_value. rewrite IH. simpl length.
  replace (8 * Z.of_nat (S (length l))) with (8 + 8 * Z.of_nat (length l)) by lia.
  rewrite Z.pow_add_r by lia. pow_consts. lia.
Qed.

Lemma lor_shiftl_add a b k : 0 <= k → 0 <= a < 2 ^ k → Z.lor a (Z.shiftl b k) = a + 2 ^ k * b.
Proof.
  intros Hk Ha. rewrite <- Z.add_nocarry_lor.
  - rewrite Z.shiftl_mul_pow2 by done. lia.
  - apply Z.bits_inj'. intros i Hi. rewrite Z.land_spec, Z.bits_0.
    destruct (Z.lt_ge_cases i k) as [Hlt|Hge].
    + rewrite Z.shiftl_spec_low by done. apply andb_false_r.
    + destruct (Z.eq_dec a 0) as [->|]; [by rewrite Z.bits_0|].
      rewrite Z.bits_above_log2; [done|lia|].
      apply Z.log2_lt_pow2; [lia|]. apply Z.lt_le_trans with (2 ^ k); [lia|].
      apply Z.pow_le_mono_r; lia.
Qed.

(** The decoding loop computes the little-endian value of the bytes it visits. *)
Lemma or_loop_value get n :
  (∀ i, (i < n)%nat → is_byte (get i)) → or_loop get n = le_value (map get (seq 0 n)).
Proof.
  unfold or_loop. induction n as [|n IH]; intros Hb; [done|].
  rewrite seq_S, fold_left_app, map_app. simpl.
  rewrite IH by (intros; apply Hb; lia).
  rewrite le_value_app, length_map, length_seq.
  rewrite lor_shiftl_add; [done|lia|].
  replace n with (length (map get (seq 0 n))) at 3
    by (by rewrite length_map, length_seq).
  apply le_value_bound. apply Forall_forall. intros x Hx.
  apply list_elem_of_In, in_map_iff in Hx as (i & <- & Hi).
  apply in_seq in Hi. apply Hb. lia.
Qed.

Lemma map_nth_seq {A} (d : A) (l : list A) n :
  (n <= length l)%nat → map (λ i, nth i l d) (seq 0 n) = take n l.
Proof.
  revert l. induction n as [|n IH]; intros l Hl; [done|].
  destruct l as [|a l]; simpl in *; [lia|]. f_equal.
  rewrite <- (seq_shift n 0), map_map. rewrite <- IH by lia. done.
Qed.

#[export] Hint Resolve byte_of_fits le_bytes_bytes : etg.
#[export] Hint Rewrite length_le_bytes @length_map @length_app @length_take @length_drop
  @length_replicate @length_seq @length_insert : etg_len.

(** Reduce every [length] to arithmetic and finish. *)
Ltac len := autorewrite with etg_len in *; simpl in *; try lia.

(** ** Byte buffers *)

(** Stores of [bs] at consecutive addresses from [p], as the loops do them. *)
Definition store_bytes (buf : list Z) (p : nat) (bs : list Z) : list Z :=
  fold_left (λ b '(i, x), <[(p + i)%nat := x]> b) (combine (seq 0 (length bs)) bs) buf.

(** Bytes [p, p + n) of a buffer. *)
Definition slice {A} (p n : nat) (l : list A) : list A := take n (drop p l).

Lemma length_store_bytes buf p bs : length (store_bytes buf p bs) = length buf.
Proof.
  unfold store_bytes. generalize 0%nat as k. revert buf.
  induction bs as [|x bs IH]; intros buf k; [done|].
  simpl. rewrite IH. apply length_insert.
Qed.

Lemma take_S_insert {A} (l : list A) n x :
  (n < length l)%nat → take (S n) (<[n := x]> l) = take n l ++ [x].
Proof.
  intros Hn. rewrite (take_S_r _ _ x).
  - by rewrite take_insert_ge by lia.
  - by apply list_lookup_insert_eq.
Qed.

(** A run of in-range stores replaces exactly the bytes it covers. *)
Lemma store_bytes_spec buf p bs :
  (p + length bs <= length buf)%nat →
  store_bytes buf p bs = take p buf ++ bs ++ drop (p + length bs) buf.
Proof.
  unfold store_bytes.
  enough (∀ k, (p + k + length bs <= length buf)%nat →
    fold_left (λ b '(i, x), <[(p + i)%nat := x]> b) (combine (seq k (length bs)) bs) buf
    = take (p + k) buf ++ bs ++ drop (p + k + length bs) buf) as Hgen.
  { intros H. rewrite (Hgen 0%nat) by lia. by rewrite Nat.add_0_r. }
  revert buf. induction bs as [|x bs IH]; intros buf k Hk; simpl in *.
  { by rewrite Nat.add_0_r, take_drop. }
  rewrite IH by (rewrite length_insert; lia).
  replace (p + S k)%nat with (S (p + k)) by lia.
  rewrite take_S_insert by lia. rewrite drop_insert_lt by lia.
  rewrite <- app_assoc. simpl. do 3 f_equal. f_equal. lia.
Qed.

Lemma length_slice {A} p n (l : list A) :
  length (slice p n l) = Nat.min n (length l - p).
Proof. unfold slice. by rewrite length_take, length_drop. Qed.

Lemma slice_app_r {A} (a b : list A) p n :
  p = length a → slice p n (a ++ b) = take n b.
Proof. intros ->. unfold slice. by rewrite drop_app_length. Qed.

Lemma slice_all {A} (l : list A) n : n = length l → slice 0 n l = l.
Proof. intros ->. unfold slice. rewrite drop_0. apply firstn_all. Qed.

#[export] Hint Rewrite length_store_bytes @length_slice : etg_len.

(** ** Lists *)

(** [l] truncated to its last [n] elements. *)
Definition lastn {A} (n : nat) (l : list A) : list A := drop (length l - n) l.

Lemma length_lastn {A} n (l : list A) : length (lastn n l) = Nat.min n (length l).
Proof. unfold lastn. rewrite length_drop. lia. Qed.

Lemma lastn_all {A} n (l : list A) : (length l <= n)%nat → lastn n l = l.
Proof. intros. unfold lastn. replace (length l - n)%nat with 0%nat by lia. done. Qed.

Lemma lastn_app {A} n (l k : list A) : lastn n (lastn n l ++ k) = lastn n (l ++ k).
Proof.
  destruct (le_lt_dec (length l) n) as [H|H]; [by rewrite (lastn_all n l)|].
  unfold lastn. rewrite !drop_app, drop_drop, !length_app, !length_drop.
  f_equal; f_equal; lia.
Qed.

Lemma map_seq_from {A} (f : nat → A) n m :
  map f (seq n m) = map (λ i, f (n + i)%nat) (seq 0 m).
Proof. induction m as [|m IH]; [done|]. by rewrite !seq_S, !map_app, IH. Qed.

#[export] Hint Rewrite @length_lastn : etg_len.

(** ** Reachability of an executable transition function *)

(** A component with an executable [step] on events: states reached by any
    finite event sequence, and the invariant principle for them. *)
Section Reach.
Context {St Ev : Type} (step : St → Ev → option St).

(** Run a schedule; an event that is not enabled makes it undefined. *)
Fixpoint run (evs : list Ev) (s : St) : option St :=
  match evs with
  | [] => Some s
  | e :: evs => match step s e with Some s' => run evs s' | None => None end
  end.

Definition reachable (s0 s : St) : Prop := ∃ evs, run evs s0 = Some s.

Lemma run_app evs1 evs2 s :
  run (evs1 ++ evs2) s = match run evs1 s with Some s' => run evs2 s' | None => None end.
Proof. revert s. induction evs1; intros s; simpl; [done|]. case_match; auto. Qed.

Lemma run_snoc evs e s s' :
  run (evs ++ [e]) s = Some s' → ∃ s1, run evs s = Some s1 ∧ step s1 e = Some s'.
Proof. rewrite run_app. case_match; [|done]. simpl. case_match; naive_solver. Qed.

Lemma reachable_invariant (I : St → Prop) s0 s :
  I s0 → (∀ s e s', I s → step s e = Some s' → I s') → reachable s0 s → I s.
Proof.
  intros H0 Hstep [evs Hrun]. revert s0 H0 Hrun.
  induction evs as [|e evs IH]; simpl; intros s0 H0 Hrun; [naive_solver|].
  destruct (step s0 e) as [s1|] eqn:E; [|done]. eauto.
Qed.

(** A quantity no step decreases never decreases along a run. *)
Lemma run_monotone (f : St → Z) evs s s' :
  (∀ s e s', step s e = Some s' → f s <= f s') → run evs s = Some s' → f s <= f s'.
Proof.
  intros Hm. revert s. induction evs as [|e evs IH]; simpl; intros s Hrun.
  - simplify_eq. lia.
  - destruct (step s e) as [s1|] eqn:E; [|done].
    apply Z.le_trans with (f s1); eauto.
Qed.
End Reach.
