(* ===== verification/Doubles.v ===== *)
(** * Doubles: IEEE binary64 arithmetic

    The operations the programs of src/src use on [double], on the Standard Library's
    [spec_float], and the rounding-error model of them: a result is the exact value moved
    by at most half a unit in its last place. The model is stated in integers, scaled by
    the exponent of the exact value, so that it is used with [lia]. *)

From Stdlib Require Import SpecFloat.
From S2P Require Import Prelude.

(** ** Operations *)

(** [static_cast<double>] of an integer, product and quotient. *)
Definition double_of (z : Z) : spec_float := binary_normalize 53 1024 z 0 false.
Definition double_mul : spec_float → spec_float → spec_float := SFmul 53 1024.
Definition double_div : spec_float → spec_float → spec_float := SFdiv 53 1024.

(** A decimal literal [a / b] with both parts exactly representable: the
    correctly rounded quotient is the double nearest to it. *)
Definition double_literal (a b : Z) : spec_float := double_div (double_of a) (double_of b).

(** [static_cast<std::size_t>(std::ceil(x))] for a finite non-negative [x]. *)
Definition double_ceil (x : spec_float) : Z :=
  match x with
  | S754_finite s m e =>
      let z := if s then Z.neg m else Z.pos m in
      if 0 <=? e then z * 2 ^ e else - (- z / 2 ^ (- e))
  | _ => 0
  end.

(** ** Digits and shifts *)

Lemma digits_log2 m : 0 < m → Zdigits2 m = Z.log2 m + 1.
Proof.
  destruct m as [|p|p]; [lia| |lia]. intros _. cbn [Zdigits2].
  induction p as [p IH|p IH|]; cbn [digits2_pos]; [| |done].
  - rewrite Pos2Z.inj_succ, IH. rewrite (Pos2Z.inj_xI p), Z.log2_succ_double by lia. lia.
  - rewrite Pos2Z.inj_succ, IH. rewrite (Pos2Z.inj_xO p), Z.log2_double by lia. lia.
Qed.

Lemma digits_bounds m : 0 < m → 2 ^ (Zdigits2 m - 1) <= m < 2 ^ Zdigits2 m ∧ 1 <= Zdigits2 m.
Proof.
  intros Hm. rewrite digits_log2 by done. pose proof (Z.log2_spec m Hm). pose proof (Z.log2_nonneg m).
  rewrite Z.add_1_r, Z.sub_1_r, Z.pred_succ. split; [done|lia].
Qed.

Lemma digits_unique m d : 1 <= d → 2 ^ (d - 1) <= m < 2 ^ d → Zdigits2 m = d.
Proof.
  intros Hd Hm. assert (0 < 2 ^ (d - 1)) by (apply Z.pow_pos_nonneg; lia).
  rewrite digits_log2 by lia.
  rewrite (Z.log2_unique m (d - 1)); [lia|lia|]. by replace (Z.succ (d - 1)) with d by lia.
Qed.

(** [X / D] lies in the cell [m], in the part of it the two bits say. *)
Definition located (X D : Z) (mrs : shr_record) : Prop :=
  0 < D ∧ 0 <= shr_m mrs ∧
  match shr_r mrs, shr_s mrs with
  | false, false => X = shr_m mrs * D
  | false, true => 0 < 2 * (X - shr_m mrs * D) < D
  | true, false => 2 * (X - shr_m mrs * D) = D
  | true, true => D < 2 * (X - shr_m mrs * D) < 2 * D
  end.

Lemma shr_1_located X D mrs : located X D mrs → located X (2 * D) (shr_1 mrs).
Proof.
  destruct mrs as [m r s]. unfold located. cbn [shr_m shr_r shr_s]. intros (HD & Hm & H).
  destruct m as [|[p|p|]|]; cbn [shr_1 shr_m shr_r shr_s]; [..|lia];
    rewrite ?(Pos2Z.inj_xI p), ?(Pos2Z.inj_xO p) in H;
    split; try lia; (split; [lia|]); destruct r, s; cbn [orb]; nia.
Qed.

Lemma shr_located X D n mrs : located X D mrs → located X (D * 2 ^ Z.pos n) (SpecFloat.iter_pos shr_1 n mrs).
Proof.
  revert D mrs. induction n as [n IH|n IH|]; intros D mrs H; cbn [SpecFloat.iter_pos].
  - rewrite (Pos2Z.inj_xI n), Z.pow_add_r, Z.pow_twice_r by lia.
    replace (D * (2 ^ Z.pos n * 2 ^ Z.pos n * 2 ^ 1)) with ((2 * D) * 2 ^ Z.pos n * 2 ^ Z.pos n) by lia.
    by apply IH, IH, shr_1_located.
  - rewrite (Pos2Z.inj_xO n), Z.pow_twice_r, Z.mul_assoc. by apply IH, IH.
  - rewrite Z.pow_1_r, Z.mul_comm. by apply shr_1_located.
Qed.

(** The rounded mantissa is within half a cell. *)
Lemma round_located X D mrs :
  located X D mrs →
  let m := round_nearest_even (shr_m mrs) (loc_of_shr_record mrs) in
  2 * Z.abs (m * D - X) <= D ∧ shr_m mrs <= m <= shr_m mrs + 1.
Proof.
  destruct mrs as [m r s]. unfold located. cbn [shr_m shr_r shr_s]. intros (HD & Hm & H).
  destruct r, s; cbn [loc_of_shr_record round_nearest_even]; [| |lia|lia].
  - split; [nia|lia].
  - destruct (Z.even m); split; nia.
Qed.

(** ** Rounding *)

(** The significand keeps 53 bits: [slack] bits of the exact one are rounded off. *)
Definition slack (mx : Z) : Z := Z.max 0 (Zdigits2 mx - 53).

Lemma shr_fexp_located X D mx ex lx :
  located X D (shr_record_of_loc mx lx) → -1074 <= ex → -1074 <= Zdigits2 mx + ex - 53 →
  let r := shr_fexp 53 1024 mx ex lx in
  located X (D * 2 ^ slack mx) r.1 ∧ r.2 = ex + slack mx.
Proof.
  intros Hl He Hd. unfold shr_fexp, fexp. change (emin 53 1024) with (-1074). unfold slack.
  replace (Z.max (Zdigits2 mx + ex - 53) (-1074) - ex) with (Zdigits2 mx - 53) by lia.
  destruct (Zdigits2 mx - 53) as [|p|p] eqn:E; cbn [shr fst snd].
  - change (Z.max 0 0) with 0. by rewrite Z.pow_0_r, Z.mul_1_r, Z.add_0_r.
  - rewrite Z.max_r by lia. split; [by apply shr_located|done].
  - rewrite Z.max_l by lia. by rewrite Z.pow_0_r, Z.mul_1_r, Z.add_0_r.
Qed.

Lemma located_exact m : 0 <= m → located m 1 (shr_record_of_loc m loc_Exact).
Proof. intros H. unfold located. simpl. lia. Qed.

Lemma located_pos p : located (Z.pos p) 1 (shr_record_of_loc (Z.pos p) loc_Exact).
Proof. by apply located_exact. Qed.

(** A significand of at most 53 bits, or 2^53: the second shift is exact. *)
Lemma shr_fexp_exact m e :
  0 < m <= 2 ^ 53 → -1074 <= e → -1074 <= Zdigits2 m + e - 53 →
  ∃ m' e', shr_fexp 53 1024 m e loc_Exact = ({| shr_m := Z.pos m'; shr_r := false; shr_s := false |}, e') ∧
           e <= e' <= e + 1 ∧ Z.pos m' * 2 ^ (e' - e) = m.
Proof.
  intros Hm He Hd. destruct (Z.eq_dec m (2 ^ 53)) as [->|Hne].
  - exists 4503599627370496%positive, (e + 1). unfold shr_fexp, fexp. change (emin 53 1024) with (-1074).
    change (Zdigits2 (2 ^ 53)) with 54 in *. replace (Z.max (54 + e - 53) (-1074) - e) with 1 by lia.
    split; [done|]. split; [lia|]. by replace (e + 1 - e) with 1 by lia.
  - pose proof (digits_bounds m ltac:(lia)) as [Hb Hb1].
    assert (Zdigits2 m <= 53) as Hd53.
    { destruct (Z.le_gt_cases (Zdigits2 m) 53); [done|].
      pose proof (Z.pow_le_mono_r 2 53 (Zdigits2 m - 1)). lia. }
    unfold shr_fexp, fexp. change (emin 53 1024) with (-1074).
    destruct m as [|p|p]; [lia| |lia]. exists p, e. rewrite Z.sub_diag, Z.pow_0_r, Z.mul_1_r.
    split; [|lia]. destruct (Z.max _ _ - e) as [|q|q] eqn:E; [done|lia|done].
Qed.

Lemma located_floor X D mrs : located X D mrs → shr_m mrs * D <= X < (shr_m mrs + 1) * D.
Proof. destruct mrs as [m r s]. unfold located. cbn [shr_m shr_r shr_s]. intros (? & ? & ?). destruct r, s; lia. Qed.

(** The integer part after the first shift has the digits that are kept. *)
Lemma kept_digits X D mx lx mrs :
  located X D (shr_record_of_loc mx lx) → 0 < mx → located X (D * 2 ^ slack mx) mrs →
  0 < shr_m mrs < 2 ^ 53 ∧ Zdigits2 (shr_m mrs) = Zdigits2 mx - slack mx.
Proof.
  intros Hl Hm Hr. pose proof (located_floor _ _ _ Hl) as F1. pose proof (located_floor _ _ _ Hr) as F2.
  assert (shr_m (shr_record_of_loc mx lx) = mx) as E by (by destruct lx as [|[]]). rewrite E in F1. clear E.
  destruct Hl as (HD & _). set (q := shr_m mrs) in *. set (k := slack mx) in *.
  assert (0 <= k) as Hk by (unfold k, slack; lia).
  assert (0 < 2 ^ k) as Hp by (apply Z.pow_pos_nonneg; lia).
  assert (q * 2 ^ k <= mx < (q + 1) * 2 ^ k) as Hq by nia.
  pose proof (digits_bounds mx Hm) as [Hb Hb1].
  set (j := Zdigits2 mx - k). assert (1 <= j <= 53) as Hj by (unfold j, k, slack; lia).
  assert (2 ^ (j - 1) <= q < 2 ^ j) as Hqj.
  { replace (Zdigits2 mx - 1) with (j - 1 + k) in Hb by (unfold j; lia).
    replace (Zdigits2 mx) with (j + k) in Hb by (unfold j; lia).
    rewrite !Z.pow_add_r in Hb by lia. nia. }
  pose proof (Z.pow_le_mono_r 2 j 53). assert (0 < 2 ^ (j - 1)) by (apply Z.pow_pos_nonneg; lia).
  split; [lia|]. apply digits_unique; lia.
Qed.

Lemma digits_mono m m' : 0 < m <= m' → Zdigits2 m <= Zdigits2 m'.
Proof. intros H. rewrite !digits_log2 by lia. pose proof (Z.log2_le_mono m m'). lia. Qed.

(** The result of rounding [X / D * 2^ex], whose integer part is [mx]: a finite double
    [m * 2^e]; at the scale of [ex] it is a multiple of the cell and at most half a cell
    away. *)
Lemma round_aux_spec sx X D mx ex lx :
  located X D (shr_record_of_loc mx lx) → 0 < mx →
  -1074 <= ex → -1074 <= Zdigits2 mx + ex - 53 → Zdigits2 mx + ex <= 1000 → ex <= 900 →
  ∃ m e, binary_round_aux 53 1024 sx mx ex lx = S754_finite sx m e ∧ ex <= e ∧
    let P := Z.pos m * 2 ^ (e - ex) in
    2 * Z.abs (P * D - X) <= D * 2 ^ slack mx ∧ (2 ^ slack mx | P).
Proof.
  intros Hl Hm He Hd1 Hd2 He2. unfold binary_round_aux.
  destruct (shr_fexp_located X D mx ex lx Hl He Hd1) as [L1 L2].
  destruct (shr_fexp 53 1024 mx ex lx) as [mrs e']. simpl in L1, L2. subst e'.
  destruct (round_located _ _ _ L1) as [R1 R2].
  set (m1 := round_nearest_even _ _) in *. set (k := slack mx) in *.
  assert (0 <= k) as Hk by (unfold k, slack; lia).
  destruct (kept_digits X D mx lx mrs Hl Hm L1) as [Q1 Q2]. fold k in Q2.
  pose proof (digits_mono (shr_m mrs) m1 ltac:(lia)) as Hmono.
  destruct (shr_fexp_exact m1 (ex + k)) as (m' & e' & -> & He' & Hv); [lia..|].
  cbn [shr_m]. assert (k <= Zdigits2 mx) as Hkd by (unfold k, slack; pose proof (digits_bounds mx Hm); lia).
  assert (ex + k <= 947 ∨ k = 0) as Hek by (unfold k, slack; lia).
  change (1024 - 53) with 971. rewrite (proj2 (Z.leb_le e' 971)) by lia.
  exists m', e'. split; [done|]. split; [lia|]. cbv zeta.
  assert (Z.pos m' * 2 ^ (e' - ex) = m1 * 2 ^ k) as E.
  { rewrite <- Hv, <- Z.mul_assoc, <- Z.pow_add_r by lia. do 2 f_equal. lia. }
  rewrite E. split; [|by exists m1]. replace (m1 * 2 ^ k * D) with (m1 * (D * 2 ^ k)) by lia. done.
Qed.

(** ** Integers as doubles *)

Lemma iter_xO m d : Z.pos (Pos.iter xO m d) = Z.pos m * 2 ^ Z.pos d.
Proof.
  induction d as [|d IH] using Pos.peano_ind; [simpl; lia|].
  rewrite Pos.iter_succ, (Pos2Z.inj_xO (Pos.iter xO m d)), IH, Pos2Z.inj_succ, Z.pow_succ_r by lia. lia.
Qed.

(** The exponent [double_of] scales a number to before it rounds. *)
Definition scale_of (z : Z) : Z := Z.min 0 (Zdigits2 z - 53).

Lemma double_of_spec z :
  0 < z < 2 ^ 64 →
  ∃ m e, double_of z = S754_finite false m e ∧ scale_of z <= e ∧
    2 * Z.abs (Z.pos m * 2 ^ (e - scale_of z) - z * 2 ^ (- scale_of z)) <= 2 ^ slack z.
Proof.
  intros Hz. pose proof (digits_bounds z ltac:(lia)) as [Hb Hb1].
  assert (Zdigits2 z <= 64) as Hd.
  { rewrite digits_log2 by lia. pose proof (Z.log2_lt_pow2 z 64). lia. }
  unfold double_of, binary_normalize, binary_round, scale_of, slack in *.
  destruct z as [|p|p]; [lia| |lia]. change (Z.pos (digits2_pos p)) with (Zdigits2 (Z.pos p)).
  unfold fexp. change (emin 53 1024) with (-1074). rewrite Z.add_0_r, Z.max_l by lia. unfold shl_align.
  rewrite Z.sub_0_r. destruct (Zdigits2 (Z.pos p) - 53) as [|k|k] eqn:E.
  - destruct (round_aux_spec false (Z.pos p) 1 (Z.pos p) 0 loc_Exact (located_pos _))
      as (m & e & -> & He & H & _); [lia..|]. exists m, e. unfold slack in H. rewrite E in H.
    change (Z.min 0 0) with 0. split; [done|]. split; [done|].
    change (- 0) with 0. rewrite Z.pow_0_r. lia.
  - destruct (round_aux_spec false (Z.pos p) 1 (Z.pos p) 0 loc_Exact (located_pos _))
      as (m & e & -> & He & H & _); [lia..|]. exists m, e. unfold slack in H. rewrite E in H.
    rewrite Z.min_l by lia. split; [done|]. split; [done|].
    change (- 0) with 0. rewrite Z.pow_0_r. lia.
  - set (M := Pos.iter xO p k). assert (Z.pos M = Z.pos p * 2 ^ Z.pos k) as EM by apply iter_xO.
    assert (Zdigits2 (Z.pos M) = 53) as ED.
    { apply digits_unique; [lia|]. rewrite EM.
      assert (2 ^ (53 - 1) = 2 ^ (Zdigits2 (Z.pos p) - 1) * 2 ^ Z.pos k) as ->
        by (rewrite <- Z.pow_add_r by lia; f_equal; lia).
      assert (2 ^ 53 = 2 ^ Zdigits2 (Z.pos p) * 2 ^ Z.pos k) as ->
        by (rewrite <- Z.pow_add_r by lia; f_equal; lia).
      assert (0 < 2 ^ Z.pos k) by (apply Z.pow_pos_nonneg; lia). nia. }
    destruct (round_aux_spec false (Z.pos M) 1 (Z.pos M) (Z.neg k) loc_Exact (located_pos _))
      as (m & e & -> & He & H & _); [lia..|]. exists m, e. unfold slack in H. rewrite ED in H.
    rewrite Z.min_r, Z.max_l by lia. split; [done|]. split; [done|].
    change (- Z.neg k) with (Z.pos k). rewrite <- EM. change (Z.max 0 (53 - 53)) with 0 in H. lia.
Qed.

(** Up to 2^53 the conversion is exact. *)
Lemma double_of_exact z :
  0 < z < 2 ^ 53 →
  ∃ m e s, double_of z = S754_finite false m e ∧ 0 <= s <= 52 ∧ - s <= e ∧ Z.pos m * 2 ^ (e + s) = z * 2 ^ s.
Proof.
  intros Hz. destruct (double_of_spec z) as (m & e & E & He & H); [pow_consts; lia|].
  pose proof (digits_bounds z ltac:(lia)) as [Hb Hb1].
  assert (Zdigits2 z <= 53) as Hd.
  { rewrite digits_log2 by lia. pose proof (Z.log2_lt_pow2 z 53). lia. }
  unfold scale_of, slack in *. rewrite Z.max_l, Z.pow_0_r in H by lia. rewrite Z.min_r in H, He by lia.
  exists m, e, (- (Zdigits2 z - 53)). split; [done|]. split; [lia|]. split; [lia|].
  change (e + - (Zdigits2 z - 53)) with (e - (Zdigits2 z - 53)). lia.
Qed.

(** ** A fraction of an integer, rounded up *)

Lemma double_ceil_spec m e ex c :
  ex <= 0 → ex <= e → (c - 1) * 2 ^ (- ex) < Z.pos m * 2 ^ (e - ex) <= c * 2 ^ (- ex) →
  double_ceil (S754_finite false m e) = c.
Proof.
  intros Hex He Hc. unfold double_ceil. destruct (Z.leb_spec 0 e) as [H0|H0].
  - replace (e - ex) with (e + - ex) in Hc by lia. rewrite Z.pow_add_r in Hc by lia.
    assert (0 < 2 ^ (- ex)) by (apply Z.pow_pos_nonneg; lia). nia.
  - replace (- ex) with (- e + (e - ex)) in Hc by lia. rewrite Z.pow_add_r in Hc by lia.
    assert (0 < 2 ^ (e - ex)) by (apply Z.pow_pos_nonneg; lia).
    assert (0 < 2 ^ (- e)) by (apply Z.pow_pos_nonneg; lia).
    assert ((c - 1) * 2 ^ (- e) < Z.pos m <= c * 2 ^ (- e)) as Hr by nia.
    assert (- Z.pos m / 2 ^ (- e) = - c); [|lia]. symmetry. apply Z.div_unique with (- Z.pos m + c * 2 ^ (- e)); nia.
Qed.

(** [a / b] as a double [mp * 2^-t], closer to it than a quarter of a unit in the last
    place. *)
Record close_to (a b : Z) (mp : positive) (t : Z) : Prop := {
  ct_fraction : 0 < a <= b;
  ct_range : 41 <= t <= 100;
  ct_norm : 2 ^ 52 <= Z.pos mp <= 2 ^ t;
  ct_close : 2 ^ 55 * Z.abs (b * Z.pos mp - a * 2 ^ t) <= a * 2 ^ t
}.

(** The rounded product and the bounds that decide its ceiling; [T] is the unit. *)
Lemma fraction_product a b mp t n :
  close_to a b mp t → 0 < n < 2 ^ 40 →
  ∃ m e ex P K T X, double_mul (S754_finite false mp (- t)) (double_of n) = S754_finite false m e ∧
    ex <= 0 ∧ ex <= e ∧ T = 2 ^ (- ex) ∧ P = Z.pos m * 2 ^ (e - ex) ∧ 0 < T ∧ 0 < K ∧
    2 ^ 55 * Z.abs (b * X - a * (n * T)) <= a * (n * T) ∧ 2 * Z.abs (P - X) <= K ∧
    K * 2 ^ 52 <= X < K * 2 ^ 53 ∧ X <= n * T ∧ (K | P) ∧ (K | T).
Proof.
  intros [H1 H2 H3 H4] Hn. destruct (double_of_exact n) as (m2 & e2 & s & -> & Hs & He2 & Hm2); [pow_consts; lia|].
  assert (0 < 2 ^ (e2 + s)) as Hp by (apply Z.pow_pos_nonneg; lia).
  assert (e2 <= 40) as He40.
  { destruct (Z.le_gt_cases e2 40); [done|]. exfalso. rewrite Z.pow_add_r in Hm2, Hp by lia.
    assert (0 < 2 ^ s) by (apply Z.pow_pos_nonneg; lia).
    pose proof (Z.pow_le_mono_r 2 40 e2 ltac:(lia) ltac:(lia)). nia. }
  set (ex := - t + e2). set (X := Z.pos mp * Z.pos m2).
  assert (n * 2 ^ (- ex) = Z.pos m2 * 2 ^ t) as HU.
  { apply (Z.mul_cancel_r _ _ (2 ^ (e2 + s))); [lia|]. rewrite <- !Z.mul_assoc, <- Z.pow_add_r by (unfold ex; lia).
    replace (- ex + (e2 + s)) with (s + t) by (unfold ex; lia). rewrite Z.pow_add_r by lia.
    rewrite Z.mul_assoc, <- Hm2. lia. }
  assert (0 < 2 ^ (- ex)) as HT by (apply Z.pow_pos_nonneg; unfold ex; lia).
  assert (2 ^ 52 <= X <= n * 2 ^ (- ex)) as HX by (rewrite HU; unfold X; nia).
  pose proof (digits_bounds X ltac:(lia)) as [Hb Hb1].
  assert (Zdigits2 X <= 40 - ex) as Hd.
  { destruct (Z.le_gt_cases (Zdigits2 X) (40 - ex)); [done|].
    pose proof (Z.pow_le_mono_r 2 (40 + - ex) (Zdigits2 X - 1) ltac:(lia) ltac:(lia)) as H5.
    rewrite Z.pow_add_r in H5 by (unfold ex; lia). nia. }
  assert (53 <= Zdigits2 X) as Hd53.
  { destruct (Z.le_gt_cases 53 (Zdigits2 X)); [done|].
    pose proof (Z.pow_le_mono_r 2 (Zdigits2 X) 52 ltac:(lia) ltac:(lia)). lia. }
  change (double_mul (S754_finite false mp (- t)) (S754_finite false m2 e2))
    with (binary_round_aux 53 1024 false (Z.pos (mp * m2)) ex loc_Exact).
  destruct (round_aux_spec false X 1 (Z.pos (mp * m2)) ex loc_Exact) as (m & e & -> & He & HP & HK);
    [by apply located_pos|lia|unfold ex; lia|change (Z.pos (mp * m2)) with X; unfold ex; lia
    |change (Z.pos (mp * m2)) with X; unfold ex in *; lia|unfold ex; lia|].
  change (Z.pos (mp * m2)) with X in HP, HK. unfold slack in HP, HK. rewrite Z.max_r in HP, HK by lia.
  set (k := Zdigits2 X - 53) in *.
  exists m, e, ex, (Z.pos m * 2 ^ (e - ex)), (2 ^ k), (2 ^ (- ex)), X.
  assert (0 < 2 ^ k) by (apply Z.pow_pos_nonneg; unfold k; lia).
  split_and!; try done; try (unfold ex; lia).
  - rewrite HU. unfold X. nia.
  - lia.
  - rewrite <- Z.pow_add_r by (unfold k; lia). replace (k + 52) with (Zdigits2 X - 1) by (unfold k; lia). lia.
  - rewrite <- Z.pow_add_r by (unfold k; lia). replace (k + 53) with (Zdigits2 X) by (unfold k; lia). lia.
  - lia.
  - exists (2 ^ (- ex - k)). rewrite <- Z.pow_add_r by (unfold k; lia). f_equal. lia.
Qed.

(** The ceiling of the rounded product is the ceiling of the exact one. *)
Lemma fraction_ceil a b mp t n :
  close_to a b mp t → b <= 1000 → 0 < n < 2 ^ 40 →
  double_ceil (double_mul (S754_finite false mp (- t)) (double_of n)) = - (- (a * n) / b).
Proof.
  intros Hc Hb Hn. pose proof (ct_fraction _ _ _ _ Hc) as Hab.
  destruct (fraction_product a b mp t n Hc Hn)
    as (m & e & ex & P & K & T & X & -> & E1 & E2 & ET & EP & HT & HK & H1 & H2 & H3 & H4 & D1 & D2).
  set (c := - (- (a * n) / b)).
  assert ((c - 1) * b < a * n <= c * b) as Hcb.
  { unfold c. pose proof (Z.div_mod (- (a * n)) b). pose proof (Z.mod_pos_bound (- (a * n)) b). nia. }
  apply (double_ceil_spec _ _ ex); [done..|]. rewrite <- ET, <- EP.
  assert (0 < n * T) as HU by nia. assert (n * T <= 2 ^ 40 * T) as HU40 by nia.
  set (U := n * T) in *. set (V := c * T).
  assert ((c - 1) * T = V - T) as -> by (unfold V; lia).
  destruct (Z.eq_dec (a * n) (c * b)) as [Heq|Hne].
  - assert (a * U = b * V) as HE by (unfold U, V; nia).
    assert (2 ^ 55 * Z.abs (X - V) <= V) as Hx.
    { rewrite HE in H1. replace (b * X - b * V) with (b * (X - V)) in H1 by lia.
      rewrite Z.abs_mul in H1. rewrite (Z.abs_eq b) in H1 by lia. nia. }
    assert ((K | P - V)) as [w Hw] by (apply Z.divide_sub_r; [done|by apply Z.divide_mul_r]).
    assert (P = V) as ->; [|lia]. assert (Z.abs (P - V) < K) as Hlt by (pow_consts; lia).
    assert (w = 0) as -> by nia. lia.
  - assert (a * U <= b * V - T ∧ b * V - b * T + T <= a * U) as [L1 L2] by (unfold U, V; nia).
    assert (b * K * 2 ^ 52 <= b * X) as L3 by nia.
    assert (b * (2 * Z.abs (P - X)) <= b * K) as L4 by nia.
    assert (b * X <= b * U) as L5 by nia. assert (a * U <= b * U) as L6 by nia.
    assert (b * U <= 1000 * 2 ^ 40 * T) as L7 by nia.
    assert (b * V - b * T < b * P <= b * V) as HP; [|clear - HP Hab; nia].
    replace (b * (2 * Z.abs (P - X))) with (2 * Z.abs (b * P - b * X)) in L4 by (rewrite <- Z.mul_sub_distr_l, Z.abs_mul; lia).
    replace (b * K * 2 ^ 52) with (2 ^ 52 * (b * K)) in L3 by lia.
    set (bK := b * K) in *. set (bX := b * X) in *. set (bP := b * P) in *. set (bV := b * V) in *.
    set (bT := b * T) in *. set (bU := b * U) in *. set (aU := a * U) in *. pow_consts. lia.
Qed.

(** ** Quotients of integers *)

(** Where the remainder [r] of a division by [D] lies. *)
Lemma new_location_located q r D :
  0 <= q → 0 <= r < D → located (q * D + r) D (shr_record_of_loc q (new_location D r)).
Proof.
  intros Hq Hr. unfold new_location, new_location_even, new_location_odd, located.
  destruct (Z.even D) eqn:E; destruct (Z.eqb_spec r 0) as [->|Hne]; cbn [shr_record_of_loc shr_m shr_r shr_s]; try lia.
  - destruct (Z.compare_spec (2 * r) D); cbn [shr_record_of_loc shr_m shr_r shr_s]; lia.
  - assert (2 * r ≠ D) as Hodd.
    { intros <-. rewrite Z.even_mul in E. done. }
    destruct (Z.compare_spec (2 * r + 1) D); cbn [shr_record_of_loc shr_m shr_r shr_s]; lia.
Qed.

(** The relative error of a conversion. *)
Lemma double_of_near z :
  0 < z < 2 ^ 64 →
  ∃ m e, double_of z = S754_finite false m e ∧ -60 <= e <= 64 ∧
    2 ^ 53 * Z.abs (Z.pos m * 2 ^ (e + 60) - z * 2 ^ 60) <= z * 2 ^ 60.
Proof.
  intros Hz. destruct (double_of_spec z Hz) as (m & e & E & He & H).
  pose proof (digits_bounds z ltac:(lia)) as [Hb Hb1].
  assert (Zdigits2 z <= 64) as Hd.
  { rewrite digits_log2 by lia. pose proof (Z.log2_lt_pow2 z 64). lia. }
  exists m, e. split; [done|]. set (c := scale_of z) in *.
  assert (-52 <= c <= 0) as Hc by (unfold c, scale_of; lia).
  (* at the scale [c] *)
  assert (2 ^ 52 * 2 ^ slack z <= z * 2 ^ (- c)) as Hk.
  { rewrite <- Z.pow_add_r by (unfold slack; lia). etrans; [|apply Z.mul_le_mono_nonneg_r; [lia|apply Hb]].
    rewrite <- Z.pow_add_r by lia. apply Z.pow_le_mono_r; [lia|]. unfold slack, c, scale_of. lia. }
  assert (∀ x, c <= x → 2 ^ (x + 60) = 2 ^ (x - c) * 2 ^ (c + 60)) as Hsc.
  { intros x Hx. rewrite <- Z.pow_add_r by lia. f_equal. lia. }
  split.
  - split; [lia|]. destruct (Z.le_gt_cases e 64); [done|]. exfalso.
    pose proof (Z.pow_le_mono_r 2 (65 + - c) (e - c) ltac:(lia) ltac:(lia)) as Hp. rewrite Z.pow_add_r in Hp by lia.
    assert (0 < 2 ^ (- c)) by (apply Z.pow_pos_nonneg; lia).
    assert (z * 2 ^ (- c) < 2 ^ 64 * 2 ^ (- c)) by nia.
    assert (2 ^ (e - c) <= Z.pos m * 2 ^ (e - c)) by (assert (0 <= 2 ^ (e - c)) by (apply Z.pow_nonneg; lia); nia).
    pow_consts. lia.
  - rewrite Hsc by done. change (2 ^ 60) with (2 ^ (0 + 60)). rewrite (Hsc 0) by lia. change (0 - c) with (- c).
    assert (0 < 2 ^ (c + 60)) by (apply Z.pow_pos_nonneg; lia).
    rewrite !Z.mul_assoc, <- Z.mul_sub_distr_r, Z.abs_mul, (Z.abs_eq (2 ^ (c + 60))) by lia.
    rewrite Z.mul_assoc. apply Z.mul_le_mono_nonneg_r; [lia|].
    replace (2 ^ 53) with (2 * 2 ^ 52) by lia. pow_consts. lia.
Qed.

Lemma shift_up m s :
  0 <= s → match s with 0 => m | Z.pos _ => Z.shiftl m s | Z.neg _ => 0 end = m * 2 ^ s.
Proof. destruct s as [|p|p]; intros Hs; [lia| |lia]. by rewrite Z.shiftl_mul_pow2. Qed.

(** The relative error of a quotient. *)
(** The digits of a mantissa shifted up. *)
Lemma shifted_digits m s : 0 <= s → Zdigits2 (Z.pos m * 2 ^ s) <= Zdigits2 (Z.pos m) + s.
Proof.
  intros Hs. assert (Zdigits2 (Z.pos m * 2 ^ s) - 1 < Zdigits2 (Z.pos m) + s); [|lia].
  assert (0 < 2 ^ s) by (apply Z.pow_pos_nonneg; lia).
  pose proof (digits_bounds (Z.pos m) ltac:(lia)) as [[_ Hm] Hd].
  pose proof (digits_bounds (Z.pos m * 2 ^ s) ltac:(nia)) as [[Hx _] _].
  apply (Z.pow_lt_mono_r_iff 2); [lia|lia|]. rewrite Z.pow_add_r by lia. nia.
Qed.

(** The quotient of two mantissas, the first shifted until it has 53 digits more. *)
Lemma quotient_digits m1 m2 s q r :
  0 <= s → Zdigits2 (Z.pos m2) + 53 <= Zdigits2 (Z.pos m1) + s →
  Z.pos m1 * 2 ^ s = Z.pos m2 * q + r → 0 <= r < Z.pos m2 →
  2 ^ 52 <= q ∧ 53 <= Zdigits2 q <= Zdigits2 (Z.pos m1) + s.
Proof.
  intros Hs Hd EX Hr. pose proof (shifted_digits m1 s Hs) as Hsh.
  destruct (digits_bounds (Z.pos m1) ltac:(lia)) as [B1 D1]. destruct (digits_bounds (Z.pos m2) ltac:(lia)) as [B2 D2].
  set (X := Z.pos m1 * 2 ^ s) in *.
  assert (2 ^ 52 <= q) as Hq.
  { assert (2 ^ 52 * Z.pos m2 <= X); [|nia]. assert (2 ^ (Zdigits2 (Z.pos m2) + 52) <= X) as H.
    - unfold X. etrans; [|apply Z.mul_le_mono_nonneg_r; [apply Z.pow_nonneg; lia|apply B1]].
      rewrite <- Z.pow_add_r by lia. apply Z.pow_le_mono_r; lia.
    - rewrite Z.pow_add_r in H by lia. nia. }
  split; [done|]. pose proof (digits_bounds q ltac:(lia)) as [Bq _]. split.
  - destruct (Z.le_gt_cases 53 (Zdigits2 q)); [done|].
    pose proof (Z.pow_le_mono_r 2 (Zdigits2 q) 52 ltac:(lia) ltac:(lia)). lia.
  - etrans; [|exact Hsh]. apply digits_mono. nia.
Qed.

Lemma double_div_near m1 e1 m2 e2 :
  -60 <= e1 <= 64 → -60 <= e2 <= 64 →
  0 <= Zdigits2 (Z.pos m1) + e1 <= 70 → 0 <= Zdigits2 (Z.pos m2) + e2 <= 70 →
  ∃ m e, double_div (S754_finite false m1 e1) (S754_finite false m2 e2) = S754_finite false m e ∧ -200 <= e ∧
    2 ^ 53 * Z.abs (Z.pos m * 2 ^ (e + 200) * (Z.pos m2 * 2 ^ (e2 + 60)) - Z.pos m1 * 2 ^ (e1 + 60) * 2 ^ 200)
    <= Z.pos m1 * 2 ^ (e1 + 60) * 2 ^ 200.
Proof.
  intros He1 He2 Hd1 Hd2. unfold double_div, SFdiv, SFdiv_core_binary, fexp. change (emin 53 1024) with (-1074).
  set (d1 := Zdigits2 (Z.pos m1)) in *. set (d2 := Zdigits2 (Z.pos m2)) in *.
  rewrite (Z.max_l _ (-1074)) by lia. set (e' := Z.min _ _). set (s := e1 - e2 - e').
  assert (-150 <= e' <= 130 ∧ 0 <= s) as [He' Hs] by (unfold s, e'; lia).
  rewrite shift_up by done.
  set (X := Z.pos m1 * 2 ^ s).
  pose proof (Z_div_mod X (Z.pos m2) ltac:(lia)) as Hdm. destruct (Z.div_eucl X (Z.pos m2)) as [q r]. destruct Hdm as [EX Hr].
  destruct (quotient_digits m1 m2 s q r Hs ltac:(fold d1 d2; unfold s, e'; lia) EX Hr) as [Hq [Hd53 Hdq']].
  assert (Zdigits2 q + e' <= 1000) as Hdq by (fold d1 in Hdq'; unfold s, e' in *; lia).
  pose proof (digits_bounds q ltac:(lia)) as [Bq _].
  destruct (round_aux_spec false X (Z.pos m2) q e' (new_location (Z.pos m2) r)) as (m & e & E & He & HP & _);
    [rewrite EX, Z.mul_comm; apply new_location_located; lia|lia|lia|lia|lia|lia|].
  exists m, e. change (xorb false false) with false. split; [exact E|]. split; [lia|].
  unfold slack in HP. rewrite Z.max_r in HP by lia. set (k := Zdigits2 q - 53) in *.
  assert (2 ^ 53 * Z.abs (Z.pos m * 2 ^ (e - e') * Z.pos m2 - X) <= X) as Hrel.
  { assert (2 ^ 52 * 2 ^ k <= q) as Hk.
    { rewrite <- Z.pow_add_r by (unfold k; lia). replace (52 + k) with (Zdigits2 q - 1) by (unfold k; lia). lia. }
    assert (Z.pos m2 * (2 ^ 52 * 2 ^ k) <= X) by nia. pow_consts. nia. }
  set (W := 2 ^ (e' + 200) * 2 ^ (e2 + 60)).
  assert (0 < W) as HW by (unfold W; apply Z.mul_pos_pos; apply Z.pow_pos_nonneg; lia).
  assert (Z.pos m * 2 ^ (e + 200) * (Z.pos m2 * 2 ^ (e2 + 60)) = Z.pos m * 2 ^ (e - e') * Z.pos m2 * W) as ->.
  { replace (e + 200) with (e - e' + (e' + 200)) by lia. rewrite Z.pow_add_r by lia. unfold W. lia. }
  assert (Z.pos m1 * 2 ^ (e1 + 60) * 2 ^ 200 = X * W) as ->.
  { unfold X, W. rewrite <- !Z.mul_assoc, <- !Z.pow_add_r by lia. f_equal. f_equal. unfold s. lia. }
  rewrite <- Z.mul_sub_distr_r, Z.abs_mul, (Z.abs_eq W), Z.mul_assoc by lia. by apply Z.mul_le_mono_nonneg_r; [lia|].
Qed.

Lemma double_of_digits z m e :
  0 < z < 2 ^ 64 → -60 <= e <= 64 → 2 ^ 53 * Z.abs (Z.pos m * 2 ^ (e + 60) - z * 2 ^ 60) <= z * 2 ^ 60 →
  0 <= Zdigits2 (Z.pos m) + e <= 70.
Proof.
  intros Hz He H. destruct (digits_bounds (Z.pos m) ltac:(lia)) as [B B1].
  assert (0 < 2 ^ (e + 60)) as Hp by (apply Z.pow_pos_nonneg; lia).
  set (d := Zdigits2 (Z.pos m)) in *.
  assert (2 ^ (d - 1 + (e + 60)) <= Z.pos m * 2 ^ (e + 60) < 2 ^ (d + (e + 60))) as HB
    by (rewrite (Z.pow_add_r 2 (d - 1) (e + 60)), (Z.pow_add_r 2 d (e + 60)) by lia; nia).
  assert (2 ^ 59 <= Z.pos m * 2 ^ (e + 60) <= 2 ^ 125) as HV by (pow_consts; lia).
  split.
  - assert (59 < d + (e + 60)); [|lia]. apply (Z.pow_lt_mono_r_iff 2); lia.
  - assert (d - 1 + (e + 60) <= 125); [|lia]. apply (Z.pow_le_mono_r_iff 2); lia.
Qed.

(** The quotient of two integers, of 64 and of 53 bits. *)
Lemma double_quotient u d :
  0 < u < 2 ^ 64 → 0 < d < 2 ^ 53 →
  ∃ m e, double_div (double_of u) (double_of d) = S754_finite false m e ∧ -200 <= e ∧
    2 ^ 51 * Z.abs (Z.pos m * 2 ^ (e + 200) * d - u * 2 ^ 200) <= u * 2 ^ 200.
Proof.
  intros Hu Hd. destruct (double_of_near u Hu) as (m1 & e1 & -> & He1 & H1).
  destruct (double_of_near d) as (m2 & e2 & E2 & He2 & H2); [pow_consts; lia|].
  destruct (double_of_exact d Hd) as (m2' & e2' & s & E2' & Hs & Hse & Hv). rewrite E2 in E2'. injection E2' as <- <-.
  pose proof (double_of_digits u m1 e1 Hu He1 H1) as D1.
  pose proof (double_of_digits d m2 e2 ltac:(pow_consts; lia) He2 H2) as D2.
  destruct (double_div_near m1 e1 m2 e2 He1 He2 D1 D2) as (m & e & E & He & H). rewrite E2, E.
  exists m, e. split; [done|]. split; [done|].
  assert (Z.pos m2 * 2 ^ (e2 + 60) = d * 2 ^ 60) as Ed.
  { replace (e2 + 60) with (e2 + s + (60 - s)) by lia. rewrite Z.pow_add_r, Z.mul_assoc, Hv, <- Z.mul_assoc, <- Z.pow_add_r by lia.
    do 2 f_equal. lia. }
  rewrite Ed in H. set (Q := Z.pos m * 2 ^ (e + 200)) in *. set (M := Z.pos m1 * 2 ^ (e1 + 60)) in *.
  replace (Q * (d * 2 ^ 60)) with (2 ^ 60 * (Q * d)) in H by lia. set (R := Q * d) in *.
  pow_consts. lia.
Qed.
