(* ===== verification/Text.v ===== *)
(** * Text: character strings, and the C library's conversions between text and integers

    What the programs of src/src use of [std::string] and of [strtol], [strtoul],
    [strtoull], [atoi] and [std::to_string]. Text is a list of characters; a conversion
    is total, as in the library, and saturates or wraps where the library does. *)

From Stdlib Require Import Ascii String.
From S2P Require Import Prelude.

Definition text (s : string) : list ascii := list_ascii_of_string s.

#[export] Instance text_eq_dec : EqDecision (list ascii).
Proof. solve_decision. Defined.

(** ** Characters *)

Definition code (c : ascii) : Z := Z.of_N (N_of_ascii c).

(** [isspace] in the C locale. *)
Definition is_space (c : ascii) : bool := (code c =? 32) || ((9 <=? code c) && (code c <=? 13)).

(** The value of a digit or letter, as the conversions read it; 36 for anything else. *)
Definition digit_value (c : ascii) : Z :=
  let n := code c in
  if (48 <=? n) && (n <=? 57) then n - 48
  else if (65 <=? n) && (n <=? 90) then n - 55
  else if (97 <=? n) && (n <=? 122) then n - 87
  else 36.

Definition is_digit (base : Z) (c : ascii) : bool := digit_value c <? base.

(** ** Text to integers *)

Fixpoint skip_spaces (s : list ascii) : list ascii :=
  match s with
  | c :: s' => if is_space c then skip_spaces s' else s
  | [] => []
  end.

(** The sign: whether it is a minus, and what follows. *)
Definition take_sign (s : list ascii) : bool * list ascii :=
  match s with
  | c :: s' => if decide (c = "-"%char) then (true, s')
               else if decide (c = "+"%char) then (false, s') else (false, s)
  | [] => (false, [])
  end.

(** In base 16 an [0x] is skipped when a digit follows it. *)
Definition skip_prefix (base : Z) (s : list ascii) : list ascii :=
  match s with
  | z :: x :: d :: _ =>
      if (base =? 16) && bool_decide (z = "0"%char) && (bool_decide (x = "x"%char) || bool_decide (x = "X"%char))
         && is_digit 16 d
      then drop 2 s else s
  | _ => s
  end.

(** The value of the longest run of digits, on top of [acc]. *)
Fixpoint digits (base acc : Z) (s : list ascii) : Z :=
  match s with
  | c :: s' => if is_digit base c then digits base (base * acc + digit_value c) s' else acc
  | [] => acc
  end.

(** Sign and unbounded magnitude of the number at the head of a string. *)
Definition scan (base : Z) (s : list ascii) : bool * Z :=
  let (neg, s) := take_sign (skip_spaces s) in
  (neg, digits base 0 (skip_prefix base s)).

(** [strtoul], [strtoull]: too large a number gives the maximum, a minus sign negates
    modulo 2^64. *)
Definition strtoull (s : list ascii) (base : Z) : Z :=
  let (neg, v) := scan base s in
  if v >? uint64_max then uint64_max else if neg : bool then u64 (- v) else v.

Definition strtoul (s : list ascii) (base : Z) : Z := strtoull s base.

Definition strtol (s : list ascii) (base : Z) : Z :=
  let (neg, v) := scan base s in
  if neg : bool then Z.max (- v) (- 2 ^ 63) else Z.min v (2 ^ 63 - 1).

(** The conversion of an out-of-range value to [int]. *)
Definition s32 (z : Z) : Z := (z + 2 ^ 31) mod 2 ^ 32 - 2 ^ 31.

(** [atoi], which the library defines as the [int] of [strtol]. *)
Definition atoi (s : list ascii) : Z := s32 (strtol s 10).

(** ** Integers to text *)

Definition digit_char (d : Z) : ascii :=
  default "0"%char (String.get (Z.to_nat d) "0123456789abcdef"%string).

Fixpoint print_digits (fuel : nat) (base n : Z) (acc : list ascii) : list ascii :=
  match fuel with
  | O => acc
  | S fuel =>
      let acc := digit_char (n mod base) :: acc in
      if n / base =? 0 then acc else print_digits fuel base (n / base) acc
  end.

(** The digits of [n >= 0]; there are at most as many as bits. *)
Definition to_base (base n : Z) : list ascii := print_digits (S (Z.to_nat (Z.log2 n))) base n [].

(** [std::to_string], and printf's [%llu], [%lld], [%u], [%d]. *)
Definition to_string (n : Z) : list ascii :=
  if n <? 0 then "-"%char :: to_base 10 (- n) else to_base 10 n.

(** ** [std::string] *)

(** [rfind] of a character. *)
Fixpoint rfind (c : ascii) (s : list ascii) : option nat :=
  match s with
  | [] => None
  | x :: s =>
      match rfind c s with
      | Some i => Some (S i)
      | None => if decide (x = c) then Some O else None
      end
  end.

(** [spec.rfind(prefix, 0) == 0]. *)
Definition starts_with (p s : list ascii) : bool := bool_decide (take (length p) s = p).

(** ** Lemmas: printing and scanning are inverse *)

Lemma digit_char_value d : 0 <= d < 16 → digit_value (digit_char d) = d.
Proof.
  intros Hd. assert (d ∈ seqZ 0 16) as Hin by (apply elem_of_seqZ; lia).
  revert d Hin Hd. apply (Forall_forall (λ d, 0 <= d < 16 → digit_value (digit_char d) = d)).
  repeat constructor.
Qed.

Lemma digit_char_plain d : 0 <= d < 16 →
  is_space (digit_char d) = false ∧ digit_char d ≠ "-"%char ∧ digit_char d ≠ "+"%char ∧
  digit_char d ≠ "x"%char ∧ digit_char d ≠ "X"%char.
Proof.
  intros Hd. assert (d ∈ seqZ 0 16) as Hin by (apply elem_of_seqZ; lia).
  revert d Hin Hd. apply (Forall_forall (λ d, 0 <= d < 16 → _)).
  repeat constructor; done.
Qed.

(** A suffix at which the scan of digits stops. *)
Definition stops (base : Z) (s : list ascii) : Prop :=
  match s with c :: _ => is_digit base c = false | [] => True end.

Lemma digits_stop base acc s : stops base s → digits base acc s = acc.
Proof. destruct s as [|c s]; simpl; [done|]. by intros ->. Qed.

Definition all_digits (base : Z) (s : list ascii) : Prop := Forall (λ c, is_digit base c = true) s.

Section Print.
Context (base : Z) (Hbase : 2 <= base <= 16).

Lemma digit_char_is d : 0 <= d < base → is_digit base (digit_char d) = true.
Proof. intros Hd. unfold is_digit. rewrite digit_char_value by lia. apply Z.ltb_lt. lia. Qed.

Lemma to_base_all n : 0 <= n → all_digits base (to_base base n).
Proof.
  unfold to_base. generalize (S (Z.to_nat (Z.log2 n))) as fuel. intros fuel.
  assert (all_digits base []) as Ha by constructor. revert n Ha. generalize (@nil ascii) as acc.
  induction fuel as [|fuel IH]; intros acc n Ha Hn; cbn [print_digits]; [done|].
  assert (all_digits base (digit_char (n mod base) :: acc)) as H.
  { constructor; [|done]. apply digit_char_is. apply Z.mod_pos_bound. lia. }
  case_match; [done|]. apply IH; [done|]. apply Z.div_pos; lia.
Qed.

Lemma zeros_digits k : all_digits base (replicate k "0"%char).
Proof. apply Forall_replicate. unfold is_digit. apply Z.ltb_lt. cbv -[Z.lt]. lia. Qed.

Lemma digits_zeros k rest : digits base 0 (replicate k "0"%char ++ rest) = digits base 0 rest.
Proof.
  induction k as [|k IH]; [done|]. cbn [replicate app digits]. pose proof (zeros_digits 1) as H.
  apply Forall_cons in H as [-> _]. rewrite Z.mul_0_r. exact IH.
Qed.

Lemma print_digits_scan fuel n acc :
  0 <= n < 2 ^ Z.of_nat fuel → (0 < fuel)%nat →
  digits base 0 (print_digits fuel base n acc) = digits base n acc.
Proof.
  revert n acc. induction fuel as [|fuel IH]; intros n acc Hn Hf; [lia|]. cbn [print_digits].
  pose proof (Z.mod_pos_bound n base ltac:(lia)) as Hm.
  pose proof (Z.div_mod n base ltac:(lia)) as Hdm.
  assert (is_digit base (digit_char (n mod base)) = true) as Hd
    by (unfold is_digit; rewrite digit_char_value; lia).
  assert (∀ a, digits base a (digit_char (n mod base) :: acc) = digits base (base * a + n mod base) acc) as Hs
    by (intros a; cbn [digits]; rewrite Hd, digit_char_value by lia; done).
  case_match eqn:E; zbool; [rewrite Hs; f_equal; nia|].
  assert (0 < n / base) by (pose proof (Z.div_pos n base); lia).
  rewrite Nat2Z.inj_succ, Z.pow_succ_r in Hn by lia.
  rewrite IH; [rewrite Hs; f_equal; lia|split; [lia|]|].
  - apply Z.div_lt_upper_bound; nia.
  - destruct fuel; [|lia]. simpl in Hn. assert (n / base = 0) by (apply Z.div_small; lia). lia.
Qed.

Lemma to_base_scan n rest :
  0 <= n → stops base rest → digits base 0 (to_base base n ++ rest) = n.
Proof.
  intros Hn Hr. unfold to_base.
  assert (∀ fuel n acc, print_digits fuel base n acc ++ rest = print_digits fuel base n (acc ++ rest)) as Happ.
  { induction fuel as [|fuel IH]; intros m acc; cbn [print_digits]; [done|].
    case_match; [done|]. apply IH. }
  rewrite Happ, print_digits_scan; [by apply digits_stop| |lia].
  rewrite Nat2Z.inj_succ, Z2Nat.id by apply Z.log2_nonneg.
  destruct (decide (n = 0)) as [->|]; [simpl; lia|]. pose proof (Z.log2_spec n). lia.
Qed.

Lemma print_digits_head fuel n acc :
  0 <= n → (0 < fuel)%nat →
  ∃ d s, 0 <= d < base ∧ print_digits fuel base n acc = digit_char d :: s ∧ (0 < n → 0 < d ∨ n >= 2 ^ Z.of_nat fuel).
Proof.
  revert n acc. induction fuel as [|fuel IH]; intros n acc Hn Hf; [lia|]. cbn [print_digits].
  pose proof (Z.mod_pos_bound n base ltac:(lia)) as Hm.
  pose proof (Z.div_mod n base ltac:(lia)) as Hdm.
  case_match eqn:E; zbool.
  - exists (n mod base), acc. split; [lia|]. split; [done|]. intros. left. nia.
  - assert (0 < n / base) by (pose proof (Z.div_pos n base); lia).
    destruct fuel as [|fuel].
    + exists (n mod base), acc. simpl. split; [lia|]. split; [done|]. intros. right. nia.
    + destruct (IH (n / base) (digit_char (n mod base) :: acc)) as (d & s & H1 & H2 & H3); [lia..|].
      exists d, s. split; [done|]. split; [done|]. intros _.
      destruct (H3 ltac:(lia)) as [|Hb]; [by left|right].
      rewrite Nat2Z.inj_succ, Z.pow_succ_r by lia. nia.
Qed.

Lemma to_base_head n :
  0 <= n → ∃ d s, 0 <= d < base ∧ to_base base n = digit_char d :: s ∧ (0 < n → 0 < d).
Proof.
  intros Hn. destruct (print_digits_head (S (Z.to_nat (Z.log2 n))) n []) as (d & s & H1 & H2 & H3); [lia..|].
  exists d, s. split; [done|]. split; [done|]. intros Hp. destruct (H3 Hp) as [|Hge]; [done|].
  rewrite Nat2Z.inj_succ, Z2Nat.id in Hge by apply Z.log2_nonneg. pose proof (Z.log2_spec n). lia.
Qed.

Lemma print_digits_length k fuel n acc :
  0 <= n < base ^ Z.of_nat (S k) → (length (print_digits fuel base n acc) <= S k + length acc)%nat.
Proof.
  revert k n acc. induction fuel as [|fuel IH]; intros k n acc Hn; cbn [print_digits]; [lia|].
  case_match eqn:E; zbool; [simpl; lia|].
  rewrite Nat2Z.inj_succ, Z.pow_succ_r in Hn by lia.
  destruct k as [|k].
  - exfalso. apply E. apply Z.div_small. simpl in Hn. lia.
  - etrans; [apply (IH k)|simpl; lia]. split; [apply Z.div_pos; lia|]. apply Z.div_lt_upper_bound; lia.
Qed.
End Print.

(** The characters of a printed number. *)
Definition printed (c : ascii) : Prop := ∃ d, 0 <= d < 16 ∧ c = digit_char d.

Lemma to_base_printed base n : 2 <= base <= 16 → 0 <= n → Forall printed (to_base base n).
Proof.
  intros Hb Hn. unfold to_base. generalize (S (Z.to_nat (Z.log2 n))) as fuel.
  assert (Forall printed []) as Hnil by constructor. revert Hnil. generalize (@nil ascii) as acc.
  intros acc Hacc fuel. revert n acc Hn Hacc.
  induction fuel as [|fuel IH]; intros n acc Hn Hacc; cbn [print_digits]; [done|].
  assert (Forall printed (digit_char (n mod base) :: acc)) as Hacc'.
  { constructor; [|done]. exists (n mod base). split; [|done].
    pose proof (Z.mod_pos_bound n base). lia. }
  case_match; [done|]. apply IH; [apply Z.div_pos; lia|done].
Qed.

Lemma skip_prefix_printed base s : Forall printed s → skip_prefix base s = s.
Proof.
  destruct s as [|z [|x [|d s]]]; [done..|]. intros H. cbn [skip_prefix].
  inversion_clear H as [|? ? _ H1]. inversion_clear H1 as [|? ? (e & He & ->) _].
  destruct (digit_char_plain e He) as (_ & _ & _ & Hx & HX).
  rewrite !(bool_decide_eq_false_2 (digit_char e = _)) by done. by rewrite !andb_false_r.
Qed.

Lemma skip_prefix_10 s : skip_prefix 10 s = s.
Proof. destruct s as [|? [|? [|? ?]]]; done. Qed.

Lemma scan_front base d s :
  0 <= d < 16 → scan base (digit_char d :: s) = (false, digits base 0 (skip_prefix base (digit_char d :: s))).
Proof.
  intros Hd. destruct (digit_char_plain d Hd) as (Hs & Hm & Hp & _ & _).
  unfold scan. cbn [skip_spaces]. rewrite Hs. cbn [take_sign].
  by rewrite !decide_False by done.
Qed.

Lemma scan_print base n : 2 <= base <= 16 → 0 <= n → scan base (to_base base n) = (false, n).
Proof.
  intros Hb Hn. destruct (to_base_head base Hb n Hn) as (d & s & Hd & E & _).
  rewrite E, scan_front by lia. rewrite <- E, skip_prefix_printed by by apply to_base_printed.
  f_equal. rewrite <- (app_nil_r (to_base base n)). by apply to_base_scan.
Qed.

Lemma scan_to_string n rest :
  0 <= n → stops 10 rest → scan 10 (to_string n ++ rest) = (false, n).
Proof.
  intros Hn Hr. unfold to_string. rewrite (proj2 (Z.ltb_ge n 0)) by lia.
  destruct (to_base_head 10 ltac:(lia) n Hn) as (d & s & Hd & E & _).
  rewrite E. cbn [app]. rewrite scan_front, skip_prefix_10 by lia.
  change (digit_char d :: s ++ rest) with ((digit_char d :: s) ++ rest).
  rewrite <- E, to_base_scan; [done|lia|lia|done].
Qed.

Lemma scan_negative n : n < 0 → scan 10 (to_string n) = (true, - n).
Proof.
  intros Hn. unfold to_string. rewrite (proj2 (Z.ltb_lt n 0)) by lia.
  unfold scan. change (skip_spaces ("-"%char :: to_base 10 (- n))) with ("-"%char :: to_base 10 (- n)).
  cbn [take_sign]. rewrite decide_True by done. rewrite skip_prefix_10. f_equal.
  rewrite <- (app_nil_r (to_base 10 (- n))). apply to_base_scan; [lia|lia|done].
Qed.

Lemma strtoull_print base n : 2 <= base <= 16 → fits 64 n → strtoull (to_base base n) base = n.
Proof.
  intros Hb [H0 H1]. unfold strtoull. rewrite scan_print by lia.
  unfold uint64_max. pow_consts. case_match; zbool; lia.
Qed.

Lemma strtoull_to_string n : fits 64 n → strtoull (to_string n) 10 = n.
Proof.
  intros Hn. pose proof Hn as [H0 _]. unfold to_string. rewrite (proj2 (Z.ltb_ge n 0)) by lia.
  apply strtoull_print; [lia|done].
Qed.

Lemma strtol_to_string n rest :
  0 <= n < 2 ^ 63 → stops 10 rest → strtol (to_string n ++ rest) 10 = n.
Proof. intros Hn Hr. unfold strtol. rewrite scan_to_string by (lia || done). lia. Qed.

Lemma s32_small z : - 2 ^ 31 <= z < 2 ^ 31 → s32 z = z.
Proof. intros H. unfold s32. rewrite Z.mod_small by lia. lia. Qed.

Lemma atoi_to_string n : - 2 ^ 31 <= n < 2 ^ 31 → atoi (to_string n) = n.
Proof.
  intros Hn. unfold atoi. rewrite <- (s32_small n) at 2 by done. f_equal.
  destruct (decide (n < 0)).
  - unfold strtol. rewrite scan_negative by lia. lia.
  - rewrite <- (app_nil_r (to_string n)). apply strtol_to_string; [lia|done].
Qed.

(** A conversion never leaves its type. *)
Lemma digits_nonneg base acc s : 0 <= base → 0 <= acc → 0 <= digits base acc s.
Proof.
  intros Hb. revert acc. induction s as [|c s IH]; intros acc Ha; cbn [digits]; [done|].
  case_match; [|done]. apply IH.
  assert (0 <= digit_value c); [|nia]. unfold digit_value. repeat case_match; zbool; lia.
Qed.

Lemma scan_nonneg base s : 0 <= base → 0 <= (scan base s).2.
Proof. intros Hb. unfold scan. destruct (take_sign _). by apply digits_nonneg. Qed.

Lemma strtoull_fits s base : 0 <= base → fits 64 (strtoull s base).
Proof.
  intros Hb. pose proof (scan_nonneg base s Hb). unfold strtoull. destruct (scan base s) as [neg v].
  simpl in *. unfold uint64_max in *. case_match; [unfold fits; pow_consts; lia|].
  destruct neg; [apply u64_fits|]. unfold fits. pow_consts. zbool. lia.
Qed.

Lemma atoi_range s : - 2 ^ 31 <= atoi s < 2 ^ 31.
Proof. unfold atoi, s32. pose proof (Z.mod_pos_bound (strtol s 10 + 2 ^ 31) (2 ^ 32)). lia. Qed.

(** ** Lemmas: [rfind] *)

Lemma rfind_None c s : c ∉ s → rfind c s = None.
Proof.
  induction s as [|x s IH]; [done|]. intros [Hx Hs]%not_elem_of_cons. cbn [rfind].
  rewrite IH by done. by rewrite decide_False.
Qed.

Lemma rfind_last c s t : c ∉ t → rfind c (s ++ c :: t) = Some (length s).
Proof.
  intros Ht. induction s as [|x s IH]; cbn [app rfind length].
  - rewrite rfind_None by done. by rewrite decide_True.
  - by rewrite IH.
Qed.

Lemma rfind_Some c s i :
  rfind c s = Some i → s = take i s ++ c :: drop (S i) s ∧ c ∉ drop (S i) s.
Proof.
  revert i. induction s as [|x s IH]; intros i; cbn [rfind]; [done|].
  destruct (rfind c s) as [k|] eqn:E.
  - intros [= <-]. destruct (IH k eq_refl) as [H1 H2]. cbn [take drop app]. by rewrite <- H1.
  - case_decide; [|done]. intros [= <-]. subst. cbn [take drop app]. split; [done|].
    clear IH. induction s as [|y s IH]; [apply not_elem_of_nil|]. cbn [rfind] in E.
    destruct (rfind c s) eqn:E'; [done|]. case_decide; [done|].
    apply not_elem_of_cons. split; [done|]. by apply IH.
Qed.

Lemma to_string_no_colon n : ":"%char ∉ to_string n.
Proof.
  assert (∀ m, 0 <= m → ":"%char ∉ to_base 10 m) as Hb.
  { intros m Hm Hin. pose proof (to_base_printed 10 m ltac:(lia) Hm) as Hp.
    rewrite Forall_forall in Hp. destruct (Hp _ Hin) as (d & Hd & E).
    apply (f_equal digit_value) in E. rewrite digit_char_value in E by lia.
    change (digit_value ":"%char) with 36 in E. lia. }
  unfold to_string. case_match; zbool; [|by apply Hb].
  apply not_elem_of_cons. split; [done|]. apply Hb. lia.
Qed.

Lemma to_string_length n : 0 <= n < 10 ^ 20 → (length (to_string n) <= 20)%nat.
Proof.
  intros Hn. unfold to_string. rewrite (proj2 (Z.ltb_ge n 0)) by lia.
  etrans; [apply (print_digits_length 10 ltac:(lia) 19)|simpl; lia].
  by change (Z.of_nat 20) with 20.
Qed.
