(* ===== verification/Printf.v ===== *)
(** * Printf: formatted output

    What the programs print with: [%.Nf] of a double, padding, hexadecimal, and the bounded
    [snprintf]. The digits of a double are those of its exact value rounded half to even,
    as the C library prints them; [fixed_ratio] bounds what the two roundings, of the
    quotient and of its decimals, can do to a printed ratio of two integers. A line of a report is a list of [Item]s, whose
    integers can be read back from its text. *)

From Stdlib Require Import Ascii String SpecFloat.
From S2P Require Import Prelude Text Doubles.

(** ** Conversions *)

(** [a / b] to the nearest integer, ties to even. *)
Definition div_half_even (a b : Z) : Z :=
  let q := a / b in let r := a mod b in
  if (2 * r >? b) || ((2 * r =? b) && Z.odd q) then q + 1 else q.

(** The value of [m * 2^e] in units of [10^-n]. *)
Definition fixed_units (n : nat) (m : positive) (e : Z) : Z :=
  if 0 <=? e then Z.pos m * 2 ^ e * 10 ^ Z.of_nat n
  else div_half_even (Z.pos m * 10 ^ Z.of_nat n) (2 ^ (- e)).

(** [%0nd]. *)
Definition zero_pad (n : nat) (s : list ascii) : list ascii := replicate (n - length s) "0"%char ++ s.

(** [q] units of [10^-n] in decimal. *)
Definition decimal (n : nat) (q : Z) : list ascii :=
  to_string (q / 10 ^ Z.of_nat n) ++
  match n with
  | O => []
  | S _ => "."%char :: zero_pad n (to_string (q mod 10 ^ Z.of_nat n))
  end.

Definition sign_text (s : bool) : list ascii := if s then ["-"%char] else [].

(** [%.nf]. *)
Definition fixed (n : nat) (x : spec_float) : list ascii :=
  match x with
  | S754_zero s => sign_text s ++ decimal n 0
  | S754_finite s m e => sign_text s ++ decimal n (fixed_units n m e)
  | S754_infinity s => sign_text s ++ text "inf"
  | S754_nan => text "nan"
  end.

(** The units [%.nf] prints for a finite non-negative double. *)
Definition units (n : nat) (x : spec_float) : Z :=
  match x with S754_finite _ m e => fixed_units n m e | _ => 0 end.

(** [%-ws], [%ws]. *)
Definition pad_right (w : nat) (s : list ascii) : list ascii := s ++ replicate (w - length s) " "%char.
Definition pad_left (w : nat) (s : list ascii) : list ascii := replicate (w - length s) " "%char ++ s.

(** [%X]. *)
Definition upper (c : ascii) : ascii :=
  if (97 <=? code c) && (code c <=? 122) then ascii_of_N (Z.to_N (code c - 32)) else c.

Definition to_hex (n : Z) : list ascii := map upper (to_base 16 n).

(** [snprintf] into a buffer of [size] bytes: what fits, less the terminating null. *)
Definition snprintf (size : nat) (s : list ascii) : list ascii := take (size - 1) s.

(** ** Lemmas: rounding to decimals *)

Lemma div_half_even_near a b : 0 < b → 2 * Z.abs (div_half_even a b * b - a) <= b.
Proof.
  intros Hb. unfold div_half_even. pose proof (Z.div_mod a b ltac:(lia)) as E.
  pose proof (Z.mod_pos_bound a b Hb) as Hr. set (q := a / b) in *. set (r := a mod b) in *. clearbody q r. subst a.
  destruct (Z.gtb_spec (2 * r) b); cbn [orb].
  - replace ((q + 1) * b - (b * q + r)) with (b - r) by lia. lia.
  - destruct (Z.eqb_spec (2 * r) b); cbn [andb]; [destruct (Z.odd q)|].
    + replace ((q + 1) * b - (b * q + r)) with (b - r) by lia. lia.
    + replace (q * b - (b * q + r)) with (- r) by lia. lia.
    + replace (q * b - (b * q + r)) with (- r) by lia. lia.
Qed.

Lemma div_half_even_nonneg a b : 0 <= a → 0 < b → 0 <= div_half_even a b.
Proof. intros Ha Hb. unfold div_half_even. pose proof (Z.div_pos a b Ha Hb). case_match; lia. Qed.

(** The printed units are the exact value to within half a unit. *)
Lemma fixed_units_near n m e :
  -200 <= e →
  2 * Z.abs (fixed_units n m e * 2 ^ 200 - Z.pos m * 2 ^ (e + 200) * 10 ^ Z.of_nat n) <= 2 ^ 200.
Proof.
  intros He. unfold fixed_units. destruct (Z.leb_spec 0 e) as [H0|H0].
  - rewrite Z.pow_add_r by lia. rewrite (proj2 (Z.abs_0_iff _)); [|lia]. lia.
  - pose proof (div_half_even_near (Z.pos m * 10 ^ Z.of_nat n) (2 ^ (- e)) ltac:(apply Z.pow_pos_nonneg; lia)) as H.
    assert (2 ^ 200 = 2 ^ (- e) * 2 ^ (e + 200)) as -> by (rewrite <- Z.pow_add_r by lia; f_equal; lia).
    assert (0 < 2 ^ (e + 200)) by (apply Z.pow_pos_nonneg; lia).
    set (q := div_half_even _ _) in *. set (W := 2 ^ (e + 200)) in *. set (B := 2 ^ (- e)) in *.
    replace (q * (B * W) - Z.pos m * W * 10 ^ Z.of_nat n) with ((q * B - Z.pos m * 10 ^ Z.of_nat n) * W) by lia.
    rewrite Z.abs_mul, (Z.abs_eq W) by lia. nia.
Qed.

Lemma fixed_units_nonneg n m e : 0 <= fixed_units n m e.
Proof.
  unfold fixed_units. destruct (Z.leb_spec 0 e).
  - assert (0 < 2 ^ e) by (apply Z.pow_pos_nonneg; lia). assert (0 < 10 ^ Z.of_nat n) by (apply Z.pow_pos_nonneg; lia). nia.
  - assert (0 < 10 ^ Z.of_nat n) by (apply Z.pow_pos_nonneg; lia).
    apply div_half_even_nonneg; [nia|apply Z.pow_pos_nonneg; lia].
Qed.

Lemma units_nonneg n x : 0 <= units n x.
Proof. destruct x; simpl; try lia. apply fixed_units_nonneg. Qed.

(** The ratio of two integers, computed in doubles and printed with [n] decimals. *)
Definition ratio (u d : Z) : spec_float := double_div (double_of u) (double_of d).

(** [u / d], computed in doubles and printed with [n] decimals: the integer of units
    printed is off by at most half a unit and a relative 2^-50. *)
Definition prints_near (n : nat) (u d : Z) : Prop :=
  2 * Z.abs (units n (ratio u d) * d - u * 10 ^ Z.of_nat n) * 2 ^ 50 <= d * 2 ^ 50 + u * 10 ^ Z.of_nat n.

Lemma fixed_ratio n u d :
  0 <= u < 2 ^ 64 → 0 < d < 2 ^ 53 →
  fixed n (ratio u d) = decimal n (units n (ratio u d)) ∧
  2 * Z.abs (units n (ratio u d) * d - u * 10 ^ Z.of_nat n) * 2 ^ 50
  <= d * 2 ^ 50 + u * 10 ^ Z.of_nat n.
Proof.
  intros Hu Hd. unfold ratio. destruct (Z.eq_dec u 0) as [->|Hne].
  - destruct (double_of_exact d Hd) as (m & e & s & -> & _). cbn. split; [done|]. lia.
  - destruct (double_quotient u d ltac:(lia) Hd) as (m & e & -> & He & H). cbn [fixed sign_text units app].
    split; [done|]. pose proof (fixed_units_near n m e He) as Hn.
    set (T := 10 ^ Z.of_nat n) in *. assert (0 < T) by (apply Z.pow_pos_nonneg; lia).
    set (q := fixed_units n m e) in *. set (V := Z.pos m * 2 ^ (e + 200)) in *.
    assert (2 * Z.abs (q * d * 2 ^ 200 - V * d * T) <= d * 2 ^ 200) as H1.
    { replace (q * d * 2 ^ 200 - V * d * T) with ((q * 2 ^ 200 - V * T) * d) by lia.
      rewrite Z.abs_mul, (Z.abs_eq d) by lia. nia. }
    assert (2 ^ 51 * Z.abs (V * d * T - u * T * 2 ^ 200) <= u * T * 2 ^ 200) as H2.
    { replace (V * d * T - u * T * 2 ^ 200) with ((V * d - u * 2 ^ 200) * T) by lia.
      rewrite Z.abs_mul, (Z.abs_eq T) by lia. nia. }
    set (A := q * d) in *. set (B := V * d * T) in *. set (C := u * T) in *. pow_consts. lia.
Qed.

(** ** Lemmas: lengths *)

Lemma to_string_short k n : 0 <= n < 10 ^ Z.of_nat (S k) → (length (to_string n) <= S k)%nat.
Proof.
  intros Hn. unfold to_string. rewrite (proj2 (Z.ltb_ge n 0)) by lia.
  etrans; [apply (print_digits_length 10 ltac:(lia) k); done|simpl; lia].
Qed.

Lemma decimal_length n q :
  0 <= q → q / 10 ^ Z.of_nat n < 10 ^ 20 → (length (decimal n q) <= 21 + n)%nat.
Proof.
  intros Hq Hb. assert (0 < 10 ^ Z.of_nat n) as Hp by (apply Z.pow_pos_nonneg; lia).
  pose proof (Z.div_pos q _ Hq Hp) as H0. unfold decimal. rewrite length_app.
  pose proof (to_string_length (q / 10 ^ Z.of_nat n) ltac:(lia)) as H1. destruct n as [|n]; [simpl; lia|].
  cbn [length]. unfold zero_pad. rewrite length_app, length_replicate.
  pose proof (to_string_short n (q mod 10 ^ Z.of_nat (S n)) ltac:(by apply Z.mod_pos_bound)). lia.
Qed.

Lemma fixed_ratio_length n u d :
  0 <= u < 2 ^ 64 → 0 < d < 2 ^ 53 → (n <= 3)%nat → (length (fixed n (ratio u d)) <= 21 + n)%nat.
Proof.
  intros Hu Hd Hn. destruct (fixed_ratio n u d Hu Hd) as [-> H]. apply decimal_length; [apply units_nonneg|].
  set (q := units n (ratio u d)) in *. assert (0 < 10 ^ Z.of_nat n <= 1000) as HT.
  { split; [apply Z.pow_pos_nonneg; lia|]. change 1000 with (10 ^ 3). apply Z.pow_le_mono_r; lia. }
  apply Z.div_lt_upper_bound; [lia|]. set (T := 10 ^ Z.of_nat n) in *.
  assert (q * d <= (1 + 2 * (2 ^ 64 * T)) * d) as Hq.
  { assert (u * T <= 2 ^ 64 * T) by nia. set (UT := u * T) in *. set (Q := q * d) in *.
    assert (Q <= d + 2 * (2 ^ 64 * T)) by (pow_consts; lia). nia. }
  assert (q <= 1 + 2 * (2 ^ 64 * T)) by nia. pow_consts. nia.
Qed.

(** ** Lines of a report

    A line is literal text with integers in it. [read_back] recovers the integers, given
    the text around them; [read_printed] is that it recovers those that were printed. *)

Inductive Item :=
  | Lit (s : list ascii)
  | Dec (n : Z)                     (* [%llu], [%lld], [%u], [%zu], [%d] *)
  | Hex (width : nat) (n : Z).      (* [%0<width>X] *)

(** An item of which only the kind is known. *)
Inductive Shape := SLit (s : list ascii) | SDec | SHex.

Definition print_item (i : Item) : list ascii :=
  match i with
  | Lit s => s
  | Dec n => to_string n
  | Hex w n => zero_pad w (to_hex n)
  end.

Definition print_items (l : list Item) : list ascii := concat (map print_item l).

Definition shape (i : Item) : Shape :=
  match i with Lit s => SLit s | Dec _ => SDec | Hex _ _ => SHex end.

Definition numbers (l : list Item) : list Z :=
  concat (map (λ i, match i with Lit _ => [] | Dec n => [n] | Hex _ n => [n] end) l).

(** The digits at the front of a text, and what follows them. *)
Fixpoint read_digits (base acc : Z) (s : list ascii) : Z * list ascii :=
  match s with
  | c :: s' => if is_digit base c then read_digits base (base * acc + digit_value c) s' else (acc, s)
  | [] => (acc, [])
  end.

Definition read_dec (s : list ascii) : Z * list ascii :=
  match s with
  | c :: s' => if decide (c = "-"%char) then (- (read_digits 10 0 s').1, (read_digits 10 0 s').2)
               else read_digits 10 0 s
  | [] => (0, [])
  end.

Fixpoint read_back (shapes : list Shape) (s : list ascii) : option (list Z) :=
  match shapes with
  | [] => if bool_decide (s = []) then Some [] else None
  | SLit l :: shapes => if starts_with l s then read_back shapes (drop (length l) s) else None
  | SDec :: shapes => let (n, s) := read_dec s in cons n <$> read_back shapes s
  | SHex :: shapes => let (n, s) := read_digits 16 0 s in cons n <$> read_back shapes s
  end.

(** No text that follows an integer starts with something read as one of its digits. *)
Fixpoint separated (l : list Item) : bool :=
  match l with
  | [] => true
  | Lit _ :: l => separated l
  | Dec _ :: l =>
      separated l && match l with [] => true | Lit (c :: _) :: _ => negb (is_digit 10 c) | _ => false end
  | Hex _ n :: l =>
      separated l && (0 <=? n)
      && match l with [] => true | Lit (c :: _) :: _ => negb (is_digit 16 c) | _ => false end
  end.

Lemma read_digits_stop base acc s : stops base s → read_digits base acc s = (acc, s).
Proof. destruct s as [|c s]; simpl; [done|]. by intros ->. Qed.

Lemma read_digits_run base ds acc s :
  Forall (λ c, is_digit base c = true) ds → stops base s →
  read_digits base acc (ds ++ s) = (digits base acc ds, s).
Proof.
  intros Hd Hs. revert acc. induction Hd as [|c ds Hc _ IH]; intros acc; simpl.
  - by apply read_digits_stop.
  - rewrite Hc. apply IH.
Qed.

Lemma upper_digit c : is_digit 16 c = true → digit_value (upper c) = digit_value c.
Proof.
  intros Hc. unfold is_digit, digit_value in Hc. unfold upper.
  assert (0 <= code c < 256) as Hr by (unfold code; pose proof (N_ascii_bounded c); lia).
  destruct ((97 <=? code c) && (code c <=? 122)) eqn:E; [|done].
  assert (code (ascii_of_N (Z.to_N (code c - 32))) = code c - 32) as E2.
  { unfold code at 1. rewrite N_ascii_embedding by lia. lia. }
  unfold digit_value. rewrite E2. repeat case_match; zbool; lia.
Qed.

Lemma upper_digits ds acc : all_digits 16 ds → digits 16 acc (map upper ds) = digits 16 acc ds.
Proof.
  intros Hd. revert acc. induction Hd as [|c ds Hc _ IH]; intros acc; [done|]. cbn [map digits].
  unfold is_digit in *. rewrite upper_digit, Hc by done. apply IH.
Qed.

Lemma upper_all ds : all_digits 16 ds → all_digits 16 (map upper ds).
Proof.
  induction 1 as [|c ds Hc _ IH]; [constructor|]. cbn [map]. constructor; [|done].
  unfold is_digit in *. by rewrite upper_digit.
Qed.

Lemma read_hex w n rest :
  0 <= n → stops 16 rest → read_digits 16 0 (zero_pad w (to_hex n) ++ rest) = (n, rest).
Proof.
  intros Hn Hr. pose proof (to_base_all 16 ltac:(lia) n Hn) as Hd. unfold zero_pad.
  rewrite read_digits_run; [|apply Forall_app; split; [apply (zeros_digits 16); lia|by apply upper_all]|done].
  f_equal. rewrite (digits_zeros 16) by lia. unfold to_hex. rewrite upper_digits by done.
  rewrite <- (app_nil_r (to_base 16 n)). by apply to_base_scan.
Qed.

Lemma read_dec_print n rest : stops 10 rest → read_dec (to_string n ++ rest) = (n, rest).
Proof.
  intros Hr. assert (∀ m, 0 <= m → read_digits 10 0 (to_base 10 m ++ rest) = (m, rest)) as Hm.
  { intros m Hm. rewrite read_digits_run; [|by apply to_base_all|done]. f_equal.
    rewrite <- (app_nil_r (to_base 10 m)). by apply to_base_scan. }
  unfold to_string. destruct (Z.ltb_spec n 0) as [H|H].
  - cbn [app read_dec]. rewrite decide_True, Hm by (done || lia). f_equal. cbn [fst]. lia.
  - rewrite <- (Hm n H). destruct (to_base_head 10 ltac:(lia) n H) as (d & s & Hd & -> & _).
    cbn [app read_dec]. rewrite decide_False; [done|]. apply (digit_char_plain d). lia.
Qed.

(** A reader of the line finds the numbers that were printed. *)
Definition readable (l : list Item) : Prop := read_back (map shape l) (print_items l) = Some (numbers l).

(** What is read back from a printed line is what was printed. *)
Lemma read_printed l : separated l = true → readable l.
Proof.
  unfold readable. induction l as [|[s|n|w n] l IH]; intros H; [done|..]; cbn [separated] in H;
    unfold print_items, numbers in *; cbn [map concat print_item shape read_back].
  - unfold starts_with. rewrite take_app_length, drop_app_length, bool_decide_eq_true_2 by done. by apply IH.
  - apply andb_prop in H as [H Hs]. rewrite read_dec_print; [by rewrite IH|].
    destruct l as [|[[|c s]|n'|w n'] l]; try done. simpl. by destruct (is_digit 10 c).
  - apply andb_prop in H as [[H Hn]%andb_prop Hs]. rewrite read_hex; [by rewrite IH|lia|].
    destruct l as [|[[|c s]|n'|w' n'] l]; try done. simpl. by destruct (is_digit 16 c).
Qed.
