(* ===== verification/Json.v ===== *)
(** * Json: JSON values, their compact text and a parser for it

    The reference the viewer's /stats.json is checked against: values, the text of a value
    without white space, and a recursive-descent parser of a subset of RFC 8259 (no escapes
    in strings, no exponents, no white space), with the proof that parsing inverts printing.
    What this parser accepts any JSON parser accepts, with the same value. *)

From Stdlib Require Import Ascii String.
From S2P Require Import Prelude Text Doubles Printf.

#[local] Unset Elimination Schemes.

(** An integer, or [q] units of [10^-n] written with [n] decimals. *)
Inductive json :=
  | JBool (b : bool)
  | JInt (z : Z)
  | JDec (n : nat) (q : Z)
  | JStr (s : list ascii)
  | JArr (l : list json)
  | JObj (l : list (list ascii * json)).

#[local] Set Elimination Schemes.

(** The double quote. *)
Definition dq : ascii := Ascii false true false false false true false false.

(** ** Printing *)

(** With commas between. *)
Fixpoint commas (l : list (list ascii)) : list ascii :=
  match l with
  | [] => []
  | [x] => x
  | x :: l => x ++ ","%char :: commas l
  end.

Definition quoted (s : list ascii) : list ascii := dq :: s ++ [dq].

Fixpoint print (j : json) : list ascii :=
  match j with
  | JBool b => text (if b then "true" else "false")
  | JInt z => to_string z
  | JDec n q => decimal n q
  | JStr s => quoted s
  | JArr l => "["%char :: commas (map print l) ++ ["]"%char]
  | JObj l => "{"%char :: commas (map (λ m, quoted m.1 ++ ":"%char :: print m.2) l) ++ ["}"%char]
  end.

(** ** Parsing *)

(** A run of decimal digits: how many, their value and what follows. *)
Fixpoint digit_run10 (k : nat) (acc : Z) (s : list ascii) : nat * Z * list ascii :=
  match s with
  | c :: s' => if is_digit 10 c then digit_run10 (S k) (10 * acc + digit_value c) s' else (k, acc, s)
  | [] => (k, acc, [])
  end.

(** A number: no superfluous leading zero, at least one digit after a point. *)
Definition parse_number (s : list ascii) : option (json * list ascii) :=
  let (neg, s1) := match s with
                   | c :: s' => if decide (c = "-"%char) then (true, s') else (false, s)
                   | [] => (false, [])
                   end in
  let '(k, v, s2) := digit_run10 0 0 s1 in
  if (k =? 0)%nat || ((1 <? k)%nat && bool_decide (head s1 = Some "0"%char)) then None
  else
    match s2 with
    | c :: s3 =>
        if decide (c = "."%char) then
          let '(n, q, s4) := digit_run10 0 v s3 in
          if (n =? 0)%nat then None else Some (JDec n (if neg : bool then - q else q), s4)
        else Some (JInt (if neg : bool then - v else v), s2)
    | [] => Some (JInt (if neg : bool then - v else v), [])
    end.

(** The characters a string may hold without an escape. *)
Definition plain (c : ascii) : bool :=
  (32 <=? code c) && negb (bool_decide (c = dq)) && negb (bool_decide (c = "\"%char)).

Fixpoint parse_chars (s : list ascii) : option (list ascii * list ascii) :=
  match s with
  | [] => None
  | c :: s => if decide (c = dq) then Some ([], s)
              else if plain c then '(t, r) ← parse_chars s; Some (c :: t, r) else None
  end.

Definition parse_string (s : list ascii) : option (list ascii * list ascii) :=
  match s with
  | c :: s => if decide (c = dq) then parse_chars s else None
  | [] => None
  end.

Definition expect (c : ascii) (s : list ascii) : option (list ascii) :=
  match s with x :: s => if decide (x = c) then Some s else None | [] => None end.

Definition expect_all (p s : list ascii) : option (list ascii) :=
  if starts_with p s then Some (drop (length p) s) else None.

Fixpoint parse_value (fuel : nat) (s : list ascii) : option (json * list ascii) :=
  match fuel, s with
  | O, _ | _, [] => None
  | S fuel, c :: s' =>
      if decide (c = "["%char) then
        match expect "]" s' with
        | Some r => Some (JArr [], r)
        | None => '(l, r) ← parse_items fuel s'; Some (JArr l, r)
        end
      else if decide (c = "{"%char) then
        match expect "}" s' with
        | Some r => Some (JObj [], r)
        | None => '(l, r) ← parse_members fuel s'; Some (JObj l, r)
        end
      else if decide (c = dq) then '(t, r) ← parse_string s; Some (JStr t, r)
      else if decide (c = "t"%char) then r ← expect_all (text "true") s; Some (JBool true, r)
      else if decide (c = "f"%char) then r ← expect_all (text "false") s; Some (JBool false, r)
      else parse_number s
  end
with parse_items (fuel : nat) (s : list ascii) : option (list json * list ascii) :=
  match fuel with
  | O => None
  | S fuel =>
      '(j, r) ← parse_value fuel s;
      match expect "]" r with
      | Some r => Some ([j], r)
      | None => r ← expect "," r; '(l, r) ← parse_items fuel r; Some (j :: l, r)
      end
  end
with parse_members (fuel : nat) (s : list ascii) : option (list (list ascii * json) * list ascii) :=
  match fuel with
  | O => None
  | S fuel =>
      '(k, r) ← parse_string s; r ← expect ":" r; '(j, r) ← parse_value fuel r;
      match expect "}" r with
      | Some r => Some ([(k, j)], r)
      | None => r ← expect "," r; '(l, r) ← parse_members fuel r; Some ((k, j) :: l, r)
      end
  end.

(** The whole text is one value. *)
Definition parse_json (s : list ascii) : option json :=
  match parse_value (2 * length s + 2) s with Some (j, []) => Some j | _ => None end.

(** ** Lemmas: numbers *)

Lemma digit_run_app k acc ds rest :
  all_digits 10 ds → stops 10 rest →
  digit_run10 k acc (ds ++ rest) = (k + length ds, digits 10 acc (ds ++ rest), rest)%nat.
Proof.
  intros Hd Hr. revert k acc. induction Hd as [|c ds Hc Hd IH]; intros k acc; cbn [app digit_run10 digits length].
  - rewrite Nat.add_0_r. destruct rest as [|c rest]; [done|]. simpl in Hr |- *. by rewrite Hr.
  - rewrite Hc, IH. f_equal. f_equal. lia.
Qed.

Lemma digits_shift acc ds rest :
  all_digits 10 ds → stops 10 rest →
  digits 10 acc (ds ++ rest) = acc * 10 ^ Z.of_nat (length ds) + digits 10 0 (ds ++ rest).
Proof.
  intros Hd Hr. revert acc. induction Hd as [|c ds Hc Hd IH]; intros acc; cbn [app digits length].
  - rewrite !digits_stop by done. simpl. lia.
  - rewrite Hc. rewrite IH, (IH (10 * 0 + digit_value c)).
    rewrite Nat2Z.inj_succ, Z.pow_succ_r by lia. lia.
Qed.

(** What may follow a value. *)
Definition closes (rest : list ascii) : Prop :=
  match rest with [] => True | c :: _ => c = ","%char ∨ c = "]"%char ∨ c = "}"%char end.

Lemma closes_stops rest : closes rest → stops 10 rest.
Proof. destruct rest as [|c rest]; [done|]. by intros [->|[->| ->]]. Qed.

Lemma closes_no_point rest : closes rest → head rest ≠ Some "."%char.
Proof. destruct rest as [|c rest]; [done|]. by intros [->|[->| ->]]. Qed.

(** The digits of a number are read back, and pass the check on leading zeros. *)
Lemma digit_run_to_base n rest :
  0 <= n → stops 10 rest →
  ∃ k, digit_run10 0 0 (to_base 10 n ++ rest) = (k, n, rest) ∧ k ≠ 0%nat ∧
    (1 <? k)%nat && bool_decide (head (to_base 10 n ++ rest) = Some "0"%char) = false.
Proof.
  intros Hn Hr. exists (length (to_base 10 n)).
  rewrite digit_run_app by (done || by apply to_base_all). rewrite to_base_scan by (done || lia).
  split; [done|]. destruct (to_base_head 10 ltac:(lia) n Hn) as (d & s & Hd & E & Hp).
  split; [rewrite E; done|]. destruct (Z.eq_dec n 0) as [->|Hne]; [done|].
  rewrite E. cbn [app head]. rewrite bool_decide_eq_false_2, andb_false_r; [done|]. intros [= E0].
  pose proof (digit_char_value d ltac:(lia)) as Hv. rewrite E0 in Hv. change (digit_value "0") with 0 in Hv.
  specialize (Hp ltac:(lia)). lia.
Qed.

Lemma to_base_no_minus n rest : 0 <= n → ∃ c s, to_base 10 n ++ rest = c :: s ∧ c ≠ "-"%char ∧ is_digit 10 c = true.
Proof.
  intros Hn. destruct (to_base_head 10 ltac:(lia) n Hn) as (d & s & Hd & E & _). rewrite E.
  exists (digit_char d), (s ++ rest). split; [done|]. split; [apply (digit_char_plain d ltac:(lia))|by apply digit_char_is; lia].
Qed.

Lemma parse_number_int z rest :
  closes rest → parse_number (to_string z ++ rest) = Some (JInt z, rest).
Proof.
  intros Hc. pose proof (closes_stops _ Hc) as Hs. pose proof (closes_no_point _ Hc) as Hp. unfold to_string.
  assert (∀ n (neg : bool), 0 <= n → 
    (let '(k, v, s2) := digit_run10 0 0 (to_base 10 n ++ rest) in
     if (k =? 0)%nat || ((1 <? k)%nat && bool_decide (head (to_base 10 n ++ rest) = Some "0"%char)) then None
     else match s2 with
          | c :: s3 =>
              if decide (c = "."%char) then
                let '(n, q, s4) := digit_run10 0 v s3 in
                if (n =? 0)%nat then None else Some (JDec n (if neg then - q else q), s4)
              else Some (JInt (if neg then - v else v), s2)
          | [] => Some (JInt (if neg then - v else v), [])
          end) = Some (JInt (if neg then - n else n), rest)) as H.
  { intros n neg Hn. destruct (digit_run_to_base n rest Hn Hs) as (k & E & Hk & H0). rewrite E, H0.
    rewrite (proj2 (Nat.eqb_neq k 0)) by done. cbn [orb]. destruct rest as [|c rest]; [done|].
    rewrite decide_False; [done|]. intros ->. by apply Hp. }
  unfold parse_number. destruct (Z.ltb_spec z 0) as [Hz|Hz].
  - cbn [app]. rewrite decide_True by done. rewrite (H (- z) true) by lia. by rewrite Z.opp_involutive.
  - destruct (to_base_no_minus z rest Hz) as (c & s & E & Hm & _). rewrite E at 1. rewrite decide_False by done.
    by apply (H z false).
Qed.

Lemma parse_number_dec n q rest :
  closes rest → n ≠ 0%nat → 0 <= q → parse_number (decimal n q ++ rest) = Some (JDec n q, rest).
Proof.
  intros Hc Hn Hq. pose proof (closes_stops _ Hc) as Hs. set (T := 10 ^ Z.of_nat n).
  assert (0 < T) as HT by (apply Z.pow_pos_nonneg; lia).
  pose proof (Z.div_pos q T Hq HT) as H1. pose proof (Z.mod_pos_bound q T HT) as H2.
  set (frac := zero_pad n (to_string (q mod T))).
  assert (decimal n q ++ rest = to_base 10 (q / T) ++ "."%char :: frac ++ rest) as ->.
  { unfold decimal. fold T. unfold to_string at 1. rewrite (proj2 (Z.ltb_ge (q / T) 0)) by lia.
    destruct n as [|n]; [done|]. by rewrite <- app_assoc. }
  assert (to_string (q mod T) = to_base 10 (q mod T)) as Ef
    by (unfold to_string; by rewrite (proj2 (Z.ltb_ge (q mod T) 0)) by lia).
  assert (length frac = n) as Hl.
  { unfold frac, zero_pad. rewrite length_app, length_replicate. destruct n as [|n]; [done|].
    pose proof (to_string_short n (q mod T) H2). lia. }
  assert (all_digits 10 frac) as Hd.
  { apply Forall_app. split; [apply (zeros_digits 10); lia|]. rewrite Ef. apply to_base_all; lia. }
  destruct (digit_run_to_base (q / T) ("."%char :: frac ++ rest) H1) as (k & E & Hk & H0); [done|].
  unfold parse_number.
  destruct (to_base_no_minus (q / T) ("."%char :: frac ++ rest) H1) as (c & s & E1 & Hm & _).
  rewrite E1 at 1. rewrite decide_False by done. rewrite E, H0.
  rewrite (proj2 (Nat.eqb_neq k 0)) by done. cbn [orb]. rewrite decide_True by done.
  rewrite digit_run_app, digits_shift by done. rewrite Hl. cbn [Nat.add].
  rewrite (proj2 (Nat.eqb_neq n 0)) by done. fold T.
  unfold frac at 1, zero_pad. rewrite <- app_assoc, (digits_zeros 10), Ef, to_base_scan by (done || lia).
  do 3 f_equal. rewrite (Z.div_mod q T) at 3 by lia. lia.
Qed.

(** ** Lemmas: strings *)

Lemma parse_chars_app s rest :
  Forall (λ c, plain c = true) s → parse_chars (s ++ dq :: rest) = Some (s, rest).
Proof.
  induction 1 as [|c s Hc Hs IH]; cbn [app parse_chars]; [by rewrite decide_True|].
  rewrite decide_False, Hc, IH; [done|]. intros ->. discriminate Hc.
Qed.

Lemma parse_string_app s rest :
  Forall (λ c, plain c = true) s → parse_string (quoted s ++ rest) = Some (s, rest).
Proof.
  intros Hs. unfold quoted. cbn [app parse_string]. rewrite decide_True by done.
  rewrite <- app_assoc. by apply parse_chars_app.
Qed.

(** ** Lemmas: values *)

(** Values the printer is inverted on. *)
Fixpoint ok (j : json) : Prop :=
  match j with
  | JBool _ | JInt _ => True
  | JDec n q => n ≠ 0%nat ∧ 0 <= q
  | JStr s => Forall (λ c, plain c = true) s
  | JArr l => foldr (λ x P, ok x ∧ P) True l
  | JObj l => foldr (λ m P, (Forall (λ c, plain c = true) m.1 ∧ ok m.2) ∧ P) True l
  end.

Lemma foldr_Forall {A} (Q : A → Prop) l : foldr (λ x P, Q x ∧ P) True l ↔ Forall Q l.
Proof. induction l as [|x l IH]; simpl; [by split|]. by rewrite Forall_cons, IH. Qed.

Lemma ok_arr l : ok (JArr l) ↔ Forall ok l.
Proof. apply foldr_Forall. Qed.

Lemma ok_obj l : ok (JObj l) ↔ Forall (λ m, Forall (λ c, plain c = true) m.1 ∧ ok m.2) l.
Proof. apply foldr_Forall. Qed.

(** How a number starts, and that nothing else starts so. *)
Definition number_start (c : ascii) : Prop := is_digit 10 c = true ∨ c = "-"%char.

Lemma number_start_ne c x : number_start c → is_digit 10 x = false → x ≠ "-"%char → c ≠ x.
Proof. intros Hc Hx Hm ->. destruct Hc as [H|H]; congruence. Qed.

Lemma to_string_start z : ∃ c s, to_string z = c :: s ∧ number_start c.
Proof.
  unfold to_string. destruct (Z.ltb_spec z 0); [eexists _, _; split; [done|by right]|].
  destruct (to_base_no_minus z []) as (c & s & E & _ & Hd); [done|]. rewrite app_nil_r in E.
  exists c, s. split; [done|by left].
Qed.

(** A value that starts like a number is read as one. *)
Lemma parse_value_number fuel c s :
  number_start c → parse_value (S fuel) (c :: s) = parse_number (c :: s).
Proof.
  intros Hc. cbn [parse_value]. rewrite !decide_False; [done|..]; by apply number_start_ne.
Qed.

Lemma print_start j : ∃ c s, print j = c :: s ∧ c ≠ "]"%char.
Proof.
  assert (∀ z r, ∃ c s, to_string z ++ r = c :: s ∧ c ≠ "]"%char) as Hz.
  { intros z r. destruct (to_string_start z) as (c & s & -> & Hc). exists c, (s ++ r).
    split; [done|]. by apply (number_start_ne c). }
  destruct j as [[]|z|n q|s|l|l]; cbn [print]; try (eexists _, _; split; [done|done]).
  - rewrite <- (app_nil_r (to_string z)). apply Hz.
  - apply Hz.
Qed.

Lemma expect_same c s : expect c (c :: s) = Some s.
Proof. unfold expect. by rewrite decide_True. Qed.

Lemma expect_other c x s : x ≠ c → expect c (x :: s) = None.
Proof. intros H. unfold expect. by rewrite decide_False. Qed.

Lemma commas_cons x y l : commas (x :: y :: l) = x ++ ","%char :: commas (y :: l).
Proof. done. Qed.

(** The parser inverts the printer on a value, [P n] being that for texts of at most [n]. *)
Definition inverted (n : nat) : Prop :=
  ∀ j fuel rest, ok j → (length (print j) <= n)%nat → (2 * length (print j) <= fuel)%nat → closes rest →
  parse_value fuel (print j ++ rest) = Some (j, rest).

Lemma parse_items_print n l fuel rest :
  inverted n → Forall ok l → l ≠ [] → (length (commas (map print l)) <= n)%nat →
  (2 * length (commas (map print l)) + 1 <= fuel)%nat →
  parse_items fuel (commas (map print l) ++ "]"%char :: rest) = Some (l, rest).
Proof.
  intros Hinv Hok. revert fuel. induction Hok as [|j l Hj Hok IH]; intros fuel Hne Hn Hf; [done|].
  destruct fuel as [|fuel]; [lia|]. cbn [map parse_items] in *. destruct l as [|j' l].
  - cbn [map commas] in *. rewrite Hinv by (done || lia || (simpl; auto)). cbn [mbind option_bind].
    by rewrite expect_same.
  - cbn [map] in Hn, Hf |- *. rewrite commas_cons in *. rewrite length_app in Hn, Hf. cbn [length] in Hn, Hf.
    rewrite <- app_assoc. cbn [app]. rewrite Hinv by (done || lia || (simpl; auto)). cbn [mbind option_bind].
    rewrite expect_other, expect_same by done. cbn [mbind option_bind].
    rewrite IH by (done || (cbn [map]; lia)). done.
Qed.

Definition print_member (m : list ascii * json) : list ascii := quoted m.1 ++ ":"%char :: print m.2.

Lemma parse_members_print n l fuel rest :
  inverted n → Forall (λ m, Forall (λ c, plain c = true) m.1 ∧ ok m.2) l → l ≠ [] →
  (length (commas (map print_member l)) <= n)%nat →
  (2 * length (commas (map print_member l)) + 1 <= fuel)%nat →
  parse_members fuel (commas (map print_member l) ++ "}"%char :: rest) = Some (l, rest).
Proof.
  intros Hinv Hok. revert fuel.
  induction Hok as [|[k j] l [Hk Hj] Hok IH]; intros fuel Hne Hn Hf; [done|]. cbn [fst snd] in Hk, Hj.
  destruct fuel as [|fuel]; [lia|]. cbn [map parse_members] in *.
  assert (∀ tl, closes tl → (2 * length (print j) <= fuel)%nat → (length (print j) <= n)%nat →
    parse_string (print_member (k, j) ++ tl) = Some (k, ":"%char :: print j ++ tl) ∧
    parse_value fuel (print j ++ tl) = Some (j, tl)) as Hstep.
  { intros tl Ht H1 H2. unfold print_member. cbn [fst snd]. rewrite <- app_assoc.
    split; [by apply parse_string_app|by apply Hinv]. }
  assert (length (print_member (k, j)) = length k + 3 + length (print j))%nat as Hlen.
  { unfold print_member, quoted. cbn [fst snd length app]. rewrite !length_app. simpl. lia. }
  destruct l as [|m' l].
  - cbn [map commas] in *. destruct (Hstep ("}"%char :: rest)) as [E1 E2]; [simpl; auto|lia|lia|].
    rewrite E1. cbn [mbind option_bind]. rewrite expect_same. cbn [mbind option_bind]. rewrite E2.
    cbn [mbind option_bind]. by rewrite expect_same.
  - cbn [map] in Hn, Hf |- *. rewrite commas_cons in *. rewrite length_app in Hn, Hf. cbn [length] in Hn, Hf.
    rewrite <- app_assoc. cbn [app].
    destruct (Hstep (","%char :: commas (print_member m' :: map print_member l) ++ "}"%char :: rest))
      as [E1 E2]; [simpl; auto|lia|lia|].
    rewrite E1. cbn [mbind option_bind]. rewrite expect_same. cbn [mbind option_bind]. rewrite E2.
    cbn [mbind option_bind]. rewrite expect_other, expect_same by done. cbn [mbind option_bind].
    rewrite IH by (done || (cbn [map]; lia)). done.
Qed.

Lemma parse_print_inverted n : inverted n.
Proof.
  induction n as [|n IH].
  { intros j fuel rest _ Hl. destruct (print_start j) as (c & s & E & _). rewrite E in Hl. simpl in Hl. lia. }
  intros j fuel rest Hj Hl Hf Hc.
  assert (∃ f, fuel = S f) as [f ->].
  { destruct fuel as [|f]; [|by exists f]. destruct (print_start j) as (c & s & E & _). rewrite E in Hf. simpl in Hf. lia. }
  destruct j as [b|z|m q|s|l|l].
  - by destruct b.
  - cbn [print]. destruct (to_string_start z) as (c & s & E & Hs). pose proof (parse_number_int z rest Hc) as H.
    rewrite E in *. cbn [app] in *. by rewrite parse_value_number.
  - cbn [print]. destruct Hj as [Hm Hq]. pose proof (parse_number_dec m q rest Hc Hm Hq) as H.
    destruct (to_string_start (q / 10 ^ Z.of_nat m)) as (c & s & E & Hs). unfold decimal in *.
    rewrite E in *. cbn [app] in *. by rewrite parse_value_number.
  - cbn [print ok] in *. pose proof (parse_string_app s rest Hj) as H. unfold quoted in *. cbn [app] in *.
    cbn [parse_value]. rewrite !(decide_False (P := dq = _)) by done. rewrite decide_True by done. by rewrite H.
  - apply ok_arr in Hj. cbn [print] in *. cbn [length] in Hl, Hf. rewrite length_app in Hl, Hf. cbn [length] in Hl, Hf.
    cbn [app parse_value]. rewrite decide_True by done. rewrite <- app_assoc. cbn [app]. destruct l as [|j l].
    + cbn [map commas app]. by rewrite expect_same.
    + destruct (print_start j) as (c & s & E & Hne).
      assert (∃ t, commas (map print (j :: l)) ++ "]"%char :: rest = c :: t) as [t Et].
      { cbn [map]. destruct l; cbn [map commas]; rewrite E; eexists; done. }
      rewrite Et, expect_other by done. rewrite <- Et.
      rewrite (parse_items_print n) by (done || lia). done.
  - apply ok_obj in Hj. cbn [print] in *. cbn [length] in Hl, Hf. rewrite length_app in Hl, Hf. cbn [length] in Hl, Hf.
    cbn [app parse_value]. rewrite decide_False, decide_True by done. rewrite <- app_assoc. cbn [app]. destruct l as [|m l].
    + cbn [map commas app]. by rewrite expect_same.
    + assert (∃ t, commas (map print_member (m :: l)) ++ "}"%char :: rest = dq :: t) as [t Et].
      { cbn [map]. destruct l; cbn [map commas]; eexists; done. }
      change (map (λ m0, quoted m0.1 ++ ":"%char :: print m0.2) (m :: l)) with (map print_member (m :: l)) in *.
      rewrite Et, expect_other by done. rewrite <- Et.
      rewrite (parse_members_print n) by (done || lia). done.
Qed.

Lemma parse_print j : ok j → parse_json (print j) = Some j.
Proof.
  intros Hj. unfold parse_json. rewrite <- (app_nil_r (print j)) at 2.
  rewrite (parse_print_inverted (length (print j)) j) by (done || lia). done.
Qed.
