(* ===== verification/Frame.v ===== *)
(** * Frame: the normalised bus frame (src/src/frame.hpp)

    The [Frame] struct, its flag bits, the gap reasons, and the well-formedness
    of a value of that struct (each field within its machine width). *)

From S2P Require Import Prelude.

(** ** frame_flags *)
Definition kExtendedId : Z := Z.shiftl 1 0.
Definition kRemote : Z := Z.shiftl 1 1.
Definition kError : Z := Z.shiftl 1 2.
Definition kGap : Z := Z.shiftl 1 3.
Definition kEcho : Z := Z.shiftl 1 4.
Definition kReservedMask : Z := 0xE0.

Definition kMaxPayload : nat := 8.

(** ** GapReason

    A scoped enum over [uint8_t]: a value cast from a byte may be none of the
    three enumerators, which [unnamed_reason] stands for. *)
Inductive GapReason :=
  | kConsumerOverrun
  | kIngestLoss
  | kConsumerAbsent
  | unnamed_reason (v : Z).

#[export] Instance GapReason_eq_dec : EqDecision GapReason.
Proof. solve_decision. Defined.

Definition reason_to_u8 (r : GapReason) : Z :=
  match r with
  | kConsumerOverrun => 0
  | kIngestLoss => 1
  | kConsumerAbsent => 2
  | unnamed_reason v => v
  end.

Definition reason_of_u8 (v : Z) : GapReason :=
  if v =? 0 then kConsumerOverrun
  else if v =? 1 then kIngestLoss
  else if v =? 2 then kConsumerAbsent
  else unnamed_reason v.

Definition is_fault (r : GapReason) : bool := negb (bool_decide (r = kConsumerAbsent)).

Lemma reason_of_to r :
  match r with unnamed_reason v => ¬ (0 <= v <= 2) | _ => True end →
  reason_of_u8 (reason_to_u8 r) = r.
Proof. destruct r as [| | |v]; simpl; try done. intros. unfold reason_of_u8. split_ifs. Qed.

(** ** Frame *)
Record Frame := mkFrame {
  f_seq : Z;
  f_t_kernel_ns : Z;
  f_t_ingest_ns : Z;
  f_can_id : Z;
  f_src_id : Z;
  f_len : Z;
  f_flags : Z;
  f_reserved : Z;
  f_data : list Z
}.

#[export] Instance Frame_eq_dec : EqDecision Frame.
Proof. solve_decision. Defined.

(** [Frame f{}]: every field zero. *)
Definition frame_zero : Frame := mkFrame 0 0 0 0 0 0 0 0 (replicate 8 0).

#[export] Instance Frame_inhabited : Inhabited Frame := populate frame_zero.

Definition set_seq (s : Z) (f : Frame) : Frame :=
  mkFrame s (f_t_kernel_ns f) (f_t_ingest_ns f) (f_can_id f) (f_src_id f) (f_len f)
          (f_flags f) (f_reserved f) (f_data f).

(** A value the struct can hold. *)
Definition frame_wf (f : Frame) : Prop :=
  fits 64 (f_seq f) ∧ fits 64 (f_t_kernel_ns f) ∧ fits 64 (f_t_ingest_ns f) ∧
  fits 32 (f_can_id f) ∧ fits 8 (f_src_id f) ∧ fits 8 (f_len f) ∧
  fits 8 (f_flags f) ∧ fits 8 (f_reserved f) ∧
  length (f_data f) = 8%nat ∧ Forall is_byte (f_data f).

#[export] Instance is_byte_dec b : Decision (is_byte b).
Proof. unfold is_byte. apply _. Defined.

#[export] Instance frame_wf_dec f : Decision (frame_wf f).
Proof. unfold frame_wf. apply _. Defined.

(** A value whose record [decode_frame] accepts: no reserved flag bit, at most eight
    payload bytes. *)
Definition frame_acceptable (f : Frame) : Prop :=
  frame_wf f ∧ Z.land (f_flags f) kReservedMask = 0 ∧ f_len f <= 8.

#[export] Instance frame_acceptable_dec f : Decision (frame_acceptable f).
Proof. unfold frame_acceptable. apply _. Defined.

(** A value that may be sent: the wire format also wants its reserved byte zero. *)
Definition frame_sendable (f : Frame) : Prop := frame_acceptable f ∧ f_reserved f = 0.

#[export] Instance frame_sendable_dec f : Decision (frame_sendable f).
Proof. unfold frame_sendable. apply _. Defined.

Lemma frame_zero_wf : frame_wf frame_zero.
Proof. apply (bool_decide_unpack _). by vm_compute. Qed.

Lemma set_seq_wf s f : fits 64 s → frame_wf f → frame_wf (set_seq s f).
Proof. unfold frame_wf. simpl. tauto. Qed.

Lemma set_seq_acceptable s f : fits 64 s → frame_acceptable f → frame_acceptable (set_seq s f).
Proof. unfold frame_acceptable. intros Hs (H1 & H2 & H3). auto using set_seq_wf. Qed.

Lemma set_seq_sendable s f : fits 64 s → frame_sendable f → frame_sendable (set_seq s f).
Proof. intros Hs [H1 H2]. split; [by apply set_seq_acceptable|done]. Qed.

Lemma sendable_acceptable f : frame_sendable f → frame_acceptable f.
Proof. by intros []. Qed.

Lemma sendable_wf f : frame_sendable f → frame_wf f.
Proof. by intros [[]]. Qed.

Lemma set_seq_id f : set_seq (f_seq f) f = f.
Proof. by destruct f. Qed.

#[export] Hint Resolve frame_zero_wf set_seq_wf set_seq_acceptable set_seq_sendable sendable_acceptable sendable_wf : etg.
