(* ===== verification/Wire.v ===== *)
(** * Wire: the binary protocol (src/src/wire.hpp, src/src/wire.cpp)

    Little-endian stores and loads, the record and header codecs, gap markers
    and echo probes. [record_layout] and [header_layout] are the field tables of
    docs/wire-format.md, against which the codecs are proved. *)

From S2P Require Import Prelude Frame.

Definition kVersion : Z := 3.
Definition kHeaderSize : nat := 16.
Definition kRecordSize : nat := 40.
Definition kMaxCount : Z := 65535.
Definition kMagic : list Z := [0x45; 0x54; 0x47; 0x31].

Record BatchHeader := mkHeader {
  h_count : Z;
  h_payload_len : Z;
  h_record_len : Z;
  h_version : Z;
  h_header_len : Z
}.

Definition header_zero : BatchHeader := mkHeader 0 0 0 0 0.

Inductive DecodeError :=
  | kOk
  | kBadMagic
  | kUnsupportedVersion
  | kBadHeaderLen
  | kBadRecordLen
  | kInconsistentLength
  | kCountTooLarge
  | kReservedFlagSet
  | kLengthOutOfRange.

#[export] Instance DecodeError_eq_dec : EqDecision DecodeError.
Proof. solve_decision. Defined.

Definition to_string (e : DecodeError) : string :=
  match e with
  | kOk => "ok"
  | kBadMagic => "bad magic"
  | kUnsupportedVersion => "unsupported version"
  | kBadHeaderLen => "bad header length"
  | kBadRecordLen => "bad record length"
  | kInconsistentLength => "payload length disagrees with count"
  | kCountTooLarge => "batch count too large"
  | kReservedFlagSet => "reserved flag bit set"
  | kLengthOutOfRange => "payload length out of range"
  end%string.

(** ** Little-endian helpers

    [n] is [sizeof(T)]; [p] the offset of the pointer into the buffer. *)
Definition store_le (n : nat) (value : Z) (buf : list Z) (p : nat) : list Z :=
  store_bytes buf p (le_bytes n value).

Definition load_le (n : nat) (buf : list Z) (p : nat) : Z :=
  or_loop (λ i, nth (p + i) buf 0) n mod 2 ^ (8 * Z.of_nat n).

(** ** Markers and probes *)
Definition make_gap (first_missing count : Z) (reason : GapReason) (t_ingest_ns : Z) : Frame :=
  mkFrame first_missing 0 t_ingest_ns 0 (reason_to_u8 reason) 8 kGap 0 (le_bytes 8 count).

Definition is_gap (f : Frame) : bool := negb (Z.land (f_flags f) kGap =? 0).

Definition make_echo (nonce t_sent_ns : Z) : Frame :=
  mkFrame nonce 0 t_sent_ns 0 0 0 kEcho 0 (replicate 8 0).

Definition is_echo (f : Frame) : bool := negb (Z.land (f_flags f) kEcho =? 0).

Definition echo_nonce (f : Frame) : Z := f_seq f.
Definition echo_sent_ns (f : Frame) : Z := f_t_ingest_ns f.

Definition is_control (f : Frame) : bool :=
  negb (Z.land (f_flags f) (Z.lor kGap kEcho) =? 0).

Definition gap_count (f : Frame) : Z := or_loop (λ i, nth i (f_data f) 0) 8.

Definition gap_reason (f : Frame) : GapReason := reason_of_u8 (f_src_id f).

(** ** Records *)
Definition encode_frame (f : Frame) (out : list Z) : list Z :=
  let out := store_le 8 (f_seq f) out 0 in
  let out := store_le 8 (f_t_kernel_ns f) out 8 in
  let out := store_le 8 (f_t_ingest_ns f) out 16 in
  let out := store_le 4 (f_can_id f) out 24 in
  let out := store_le 1 (f_src_id f) out 28 in
  let out := store_le 1 (f_len f) out 29 in
  let out := store_le 1 (f_flags f) out 30 in
  let out := store_le 1 (f_reserved f) out 31 in
  store_bytes out 32 (map (λ i, nth i (f_data f) 0) (seq 0 kMaxPayload)).

(** Returns the error and the caller's [out], untouched on a rejection. *)
Definition decode_frame (inb : list Z) (out : Frame) : DecodeError * Frame :=
  let flags := load_le 1 inb 30 in
  if negb (Z.land flags kReservedMask =? 0) then (kReservedFlagSet, out)
  else
    let len := load_le 1 inb 29 in
    if len >? Z.of_nat kMaxPayload then (kLengthOutOfRange, out)
    else
      (kOk,
       mkFrame (load_le 8 inb 0) (load_le 8 inb 8) (load_le 8 inb 16) (load_le 4 inb 24)
               (load_le 1 inb 28) len flags (load_le 1 inb 31)
               (map (λ i, nth (32 + i) inb 0) (seq 0 kMaxPayload))).

(** ** Batch headers *)
Definition encode_header (count : Z) (out : list Z) : list Z :=
  let out := store_bytes out 0 kMagic in
  let out := store_le 1 kVersion out 4 in
  let out := store_le 1 (u8 (Z.of_nat kHeaderSize)) out 5 in
  let out := store_le 2 (u16 (Z.of_nat kRecordSize)) out 6 in
  let out := store_le 4 count out 8 in
  store_le 4 (u32 (count * u32 (Z.of_nat kRecordSize))) out 12.

Definition decode_header (inb : list Z) (out : BatchHeader) : DecodeError * BatchHeader :=
  if negb (forallb (λ i, nth i inb 0 =? nth i kMagic 0) (seq 0 (length kMagic)))
  then (kBadMagic, out)
  else
    let version := load_le 1 inb 4 in
    let header_len := load_le 1 inb 5 in
    let record_len := load_le 2 inb 6 in
    let count := load_le 4 inb 8 in
    let payload := load_le 4 inb 12 in
    if negb (version =? kVersion) then (kUnsupportedVersion, out)
    else if negb (header_len =? Z.of_nat kHeaderSize) then (kBadHeaderLen, out)
    else if negb (record_len =? Z.of_nat kRecordSize) then (kBadRecordLen, out)
    else if count >? kMaxCount then (kCountTooLarge, out)
    else if negb (payload =? u32 (count * u32 (Z.of_nat kRecordSize)))
    then (kInconsistentLength, out)
    else (kOk, mkHeader count payload record_len version header_len).

(** ** The documented layout *)

(** docs/wire-format.md, table FrameRecord. *)
Definition record_layout (f : Frame) : list Z :=
  le_bytes 8 (f_seq f) ++ le_bytes 8 (f_t_kernel_ns f) ++ le_bytes 8 (f_t_ingest_ns f) ++
  le_bytes 4 (f_can_id f) ++ [f_src_id f; f_len f; f_flags f; f_reserved f] ++ f_data f.

(** docs/wire-format.md, table BatchHeader. *)
Definition header_layout (count : Z) : list Z :=
  kMagic ++ [3; 16; 40; 0] ++ le_bytes 4 count ++ le_bytes 4 (count * 40).

(** ** Lemmas on the little-endian helpers *)

Lemma load_le_ext n buf p v :
  (∀ i, (i < n)%nat → nth (p + i) buf 0 = byte_of v i) →
  load_le n buf p = v mod 2 ^ (8 * Z.of_nat n).
Proof.
  intros H. unfold load_le. rewrite or_loop_value.
  - rewrite (map_ext_in _ (byte_of v)).
    + fold (le_bytes n v). rewrite le_value_bytes. apply Zmod_mod.
    + intros i Hi. apply in_seq in Hi. apply H. lia.
  - intros i Hi. rewrite H by done. apply byte_of_fits.
Qed.

Lemma nth_byte buf i : Forall is_byte buf → is_byte (nth i buf 0).
Proof.
  intros H. revert i. induction H; intros [|i]; simpl; try done;
    unfold is_byte, fits; lia.
Qed.

Lemma load_le_slice n buf p :
  Forall is_byte buf → (p + n <= length buf)%nat → load_le n buf p = le_value (slice p n buf).
Proof.
  intros Hb Hp. unfold load_le. rewrite or_loop_value by (intros; by apply nth_byte).
  assert (map (λ i, nth (p + i) buf 0) (seq 0 n) = slice p n buf) as ->.
  { unfold slice. rewrite <- (map_nth_seq 0) by (rewrite length_drop; lia).
    apply map_ext. intros i. symmetry. apply nth_skipn. }
  apply Z.mod_small.
  assert (Z.of_nat n = Z.of_nat (length (slice p n buf))) as -> by len.
  apply le_value_bound. unfold slice. by apply Forall_take, Forall_drop.
Qed.

Lemma le_bytes_load n buf p :
  Forall is_byte buf → (p + n <= length buf)%nat → le_bytes n (load_le n buf p) = slice p n buf.
Proof.
  intros Hb Hp. rewrite load_le_slice by done.
  assert (n = length (slice p n buf)) as Hn by len. rewrite Hn at 1.
  apply le_bytes_value. unfold slice. by apply Forall_take, Forall_drop.
Qed.

Lemma load_le_fits n buf p : fits (8 * Z.of_nat n) (load_le n buf p).
Proof. unfold load_le. apply Z.mod_pos_bound. lia. Qed.

Lemma load_le_1 buf p : is_byte (nth p buf 0) → load_le 1 buf p = nth p buf 0.
Proof.
  intros H. unfold load_le, or_loop. simpl fold_left.
  rewrite Nat.add_0_r, Z.shiftl_0_r, Z.lor_0_l. apply Z.mod_small. apply H.
Qed.

Lemma byte_of_0 v : fits 8 v → byte_of v 0 = v.
Proof.
  intros H. rewrite byte_of_div. simpl. rewrite Z.div_1_r. by apply Z.mod_small.
Qed.

(** Split a list of known length into its elements. *)
Tactic Notation "explode" integer(n) ident(l) :=
  do n (destruct l as [|? l]; [discriminate|]); destruct l; [|discriminate].

(** Check a fact for every [i < n] by evaluation. *)
Ltac each_index i :=
  intros i Hi; repeat (destruct i as [|i]; [reflexivity|]); simpl in Hi; lia.

(** ** Record codec *)

Lemma record_layout_length f : frame_wf f → length (record_layout f) = 40%nat.
Proof.
  intros (_ & _ & _ & _ & _ & _ & _ & _ & Hd & _). unfold record_layout. len.
Qed.

Lemma record_layout_bytes f : frame_wf f → Forall is_byte (record_layout f).
Proof.
  intros (_ & _ & _ & _ & ? & ? & ? & ? & _ & Hd). unfold record_layout.
  repeat (apply Forall_app; split); auto with etg.
Qed.

Lemma encode_frame_eq f out :
  frame_wf f → length out = kRecordSize → encode_frame f out = record_layout f.
Proof.
  destruct f as [sq tk ti id src ln fl rs d].
  intros (_ & _ & _ & _ & Hsrc & Hln & Hfl & Hrs & Hd & _) Hout; simpl in *.
  explode 40 out. explode 8 d.
  unfold encode_frame, record_layout, store_le, le_bytes, store_bytes.
  cbn -[byte_of].
  by rewrite (byte_of_0 src), (byte_of_0 ln), (byte_of_0 fl), (byte_of_0 rs).
Qed.

(** Reading the documented layout back gives the fields. *)
Lemma decode_layout f out :
  frame_acceptable f → decode_frame (record_layout f) out = (kOk, f).
Proof.
  intros [Hwf [Hfl Hlen]].
  pose proof Hwf as (Hsq & Htk & Hti & Hid & Hsrc & Hln & Hflg & Hrs & Hd & Hdb).
  destruct f as [sq tk ti id src ln fl rs d]; simpl in *. explode 8 d.
  set (l := record_layout _).
  assert (load_le 8 l 0 = sq) as E1.
  { rewrite (load_le_ext 8 l 0 sq) by (each_index i). by apply Z.mod_small. }
  assert (load_le 8 l 8 = tk) as E2.
  { rewrite (load_le_ext 8 l 8 tk) by (each_index i). by apply Z.mod_small. }
  assert (load_le 8 l 16 = ti) as E3.
  { rewrite (load_le_ext 8 l 16 ti) by (each_index i). by apply Z.mod_small. }
  assert (load_le 4 l 24 = id) as E4.
  { rewrite (load_le_ext 4 l 24 id) by (each_index i). by apply Z.mod_small. }
  assert (load_le 1 l 28 = src) as E5 by (by apply load_le_1).
  assert (load_le 1 l 29 = ln) as E6 by (by apply load_le_1).
  assert (load_le 1 l 30 = fl) as E7 by (by apply load_le_1).
  assert (load_le 1 l 31 = rs) as E8 by (by apply load_le_1).
  unfold decode_frame. rewrite E1, E2, E3, E4, E5, E6, E7, E8, Hfl.
  change (Z.of_nat kMaxPayload) with 8. simpl negb. cbv iota.
  destruct (Z.gtb_spec ln 8); [lia|done].
Qed.

(** An accepted record is the layout of the frame it decodes to. *)
Lemma decode_frame_ok inb out f :
  length inb = kRecordSize → Forall is_byte inb →
  decode_frame inb out = (kOk, f) → record_layout f = inb ∧ frame_acceptable f.
Proof.
  intros Hlen Hb. unfold decode_frame.
  destruct (Z.land (load_le 1 inb 30) kReservedMask =? 0) eqn:Hr; [|done].
  destruct (load_le 1 inb 29 >? _) eqn:Hl; [done|]. simpl negb. cbv iota.
  intros [= <-]. zbool. change (Z.of_nat kMaxPayload) with 8 in *.
  assert (∀ p, load_le 1 inb p = nth p inb 0) as H1.
  { intros. apply load_le_1. by apply nth_byte. }
  split; [|split; [|split; [done|simpl; lia]]].
  - unfold record_layout. simpl f_data. simpl f_seq. simpl f_t_kernel_ns. simpl f_t_ingest_ns.
    simpl f_can_id. rewrite !le_bytes_load by (try done; rewrite Hlen; compute; lia).
    simpl. rewrite !H1. clear -Hlen. explode 40 inb. reflexivity.
  - repeat split; simpl; try apply (load_le_fits 8); try apply (load_le_fits 4);
      try apply (load_le_fits 1).
    repeat (constructor; [by apply nth_byte|]). constructor.
Qed.

(** ** Header codec *)

Lemma header_layout_length count : length (header_layout count) = 16%nat.
Proof. unfold header_layout, kMagic. len. Qed.

Lemma header_layout_bytes count : Forall is_byte (header_layout count).
Proof.
  unfold header_layout, kMagic. repeat (apply Forall_app; split); auto with etg;
    repeat (constructor; [by (compute; lia || done)|]); constructor.
Qed.

Lemma encode_header_eq count out :
  0 <= count <= kMaxCount → length out = kHeaderSize →
  encode_header count out = header_layout count.
Proof.
  intros Hc Hout. unfold encode_header.
  change (u8 (Z.of_nat kHeaderSize)) with 16. change (u16 (Z.of_nat kRecordSize)) with 40.
  change (u32 (Z.of_nat kRecordSize)) with 40.
  rewrite (u32_small (count * 40)) by (unfold fits, kMaxCount in *; lia).
  explode 16 out. unfold header_layout, store_le, le_bytes, store_bytes.
  cbn -[byte_of Z.mul]. reflexivity.
Qed.

Lemma decode_header_layout count out :
  0 <= count <= kMaxCount →
  decode_header (header_layout count) out = (kOk, mkHeader count (count * 40) 40 3 16).
Proof.
  intros Hc. unfold kMaxCount in Hc. set (l := header_layout count).
  assert (load_le 4 l 8 = count) as E1.
  { rewrite (load_le_ext 4 l 8 count) by (each_index i). apply Z.mod_small. simpl; lia. }
  assert (load_le 4 l 12 = count * 40) as E2.
  { rewrite (load_le_ext 4 l 12 (count * 40)) by (each_index i).
    apply Z.mod_small. simpl; lia. }
  unfold decode_header. rewrite E1, E2.
  change (load_le 1 l 4) with 3. change (load_le 1 l 5) with 16.
  change (load_le 2 l 6) with 40. change (u32 (Z.of_nat kRecordSize)) with 40.
  rewrite (u32_small (count * 40)) by (unfold fits; lia).
  rewrite (Z.eqb_refl (count * 40)). unfold kMaxCount.
  change (forallb _ _) with true. simpl negb. cbv iota.
  destruct (Z.gtb_spec count 65535); [lia|done].
Qed.

(** A header is accepted only when it is, byte for byte, the layout of its count. *)
Lemma decode_header_ok inb out h :
  length inb = kHeaderSize → Forall is_byte inb →
  decode_header inb out = (kOk, h) →
  inb = header_layout (h_count h) ∧ 0 <= h_count h <= kMaxCount ∧
  h_payload_len h = h_count h * 40.
Proof.
  intros Hlen Hb. unfold decode_header.
  destruct (forallb _ _) eqn:Hm; [|done].
  assert (∀ p, load_le 1 inb p = nth p inb 0) as H1.
  { intros. apply load_le_1. by apply nth_byte. }
  pose proof (load_le_fits 4 inb 8) as Hc.
  pose proof (le_bytes_load 4 inb 8 Hb) as Hc2.
  pose proof (le_bytes_load 4 inb 12 Hb) as Hp2.
  pose proof (le_bytes_load 2 inb 6 Hb) as Hr2.
  rewrite Hlen in Hc2, Hp2, Hr2. rewrite !H1. simpl negb. cbv iota.
  destruct (nth 4 inb 0 =? kVersion) eqn:Hv; [|done].
  destruct (nth 5 inb 0 =? Z.of_nat kHeaderSize) eqn:Hh; [|done].
  destruct (load_le 2 inb 6 =? Z.of_nat kRecordSize) eqn:Hr; [|done].
  destruct (load_le 4 inb 8 >? kMaxCount) eqn:Hk; [done|].
  destruct (load_le 4 inb 12 =? _) eqn:Hp; [|done].
  simpl negb. cbv iota. intros [= <-]. simpl h_count. simpl h_payload_len. zbool.
  change (u32 (Z.of_nat kRecordSize)) with 40 in Hp.
  rewrite u32_small in Hp by (unfold fits, kMaxCount in *; lia).
  unfold fits in Hc. split; [|lia].
  unfold header_layout. rewrite <- Hp.
  rewrite Hc2, Hp2 by (compute; lia). rewrite Hr in Hr2.
  specialize (Hr2 ltac:(compute; lia)). clear -Hlen Hm Hv Hh Hr2.
  explode 16 inb. unfold kMagic in Hm. simpl in *. zbool. subst. unfold slice in Hr2.
  vm_compute in Hr2. injection Hr2 as -> ->. reflexivity.
Qed.

(** ** Properties *)

(** Every byte of the output span is overwritten with the documented record
    layout, whatever the span held before. *)
Theorem encode_frame_layout f out :
  frame_wf f → length out = kRecordSize →
  encode_frame f out = record_layout f ∧ length (encode_frame f out) = kRecordSize.
Proof.
  intros Hwf Hout. rewrite encode_frame_eq by done. auto using record_layout_length.
Qed.

(** C11. Record round trip: decoding an encoded frame returns that frame, for every
    frame that may be sent: no reserved flag bit, at most eight payload bytes, and the
    reserved byte zero. *)
Theorem frame_roundtrip f out prev :
  frame_sendable f → length out = kRecordSize →
  decode_frame (encode_frame f out) prev = (kOk, f).
Proof.
  intros [Hs _] Hout. rewrite encode_frame_eq by (done || apply Hs). by apply decode_layout.
Qed.

(** C12. The inverse round trip: a record that decodes re-encodes to the very same
    forty bytes, so no byte of an accepted record is lost or normalised. *)
Theorem frame_decode_encode inb prev f out :
  length inb = kRecordSize → Forall is_byte inb → length out = kRecordSize →
  decode_frame inb prev = (kOk, f) → encode_frame f out = inb.
Proof.
  intros Hlen Hb Hout Hd. destruct (decode_frame_ok _ _ _ Hlen Hb Hd) as [<- Hs].
  apply encode_frame_eq; [apply Hs|done].
Qed.

(** Exactly which records a decoder rejects and with which error: a reserved flag
    bit first, then a length above eight; a rejection leaves the caller's frame alone. *)
Theorem decode_frame_errors inb prev :
  length inb = kRecordSize → Forall is_byte inb →
  decode_frame inb prev =
    (if decide (Z.land (nth 30 inb 0) 0xE0 ≠ 0) then (kReservedFlagSet, prev)
     else if decide (8 < nth 29 inb 0) then (kLengthOutOfRange, prev)
     else (kOk, snd (decode_frame inb prev))) ∧
  (fst (decode_frame inb prev) ≠ kOk → snd (decode_frame inb prev) = prev).
Proof.
  intros Hlen Hb. unfold decode_frame.
  rewrite !load_le_1 by (by apply nth_byte).
  change kReservedMask with 0xE0. change (Z.of_nat kMaxPayload) with 8.
  destruct (Z.land (nth 30 inb 0) 224 =? 0) eqn:E; zbool; simpl negb; cbv iota.
  - rewrite decide_False by lia. destruct (Z.gtb_spec (nth 29 inb 0) 8).
    + rewrite decide_True by lia. done.
    + rewrite decide_False by lia. done.
  - rewrite decide_True by lia. done.
Qed.

(** Header round trip for every count a batch may have. *)
Theorem header_roundtrip count out prev :
  0 <= count <= kMaxCount → length out = kHeaderSize →
  decode_header (encode_header count out) prev = (kOk, mkHeader count (count * 40) 40 3 16).
Proof.
  intros Hc Hout. rewrite encode_header_eq by done. by apply decode_header_layout.
Qed.

(** An accepted header is byte for byte the encoding of its own count: the payload
    length it announces is exactly forty bytes per record and at most 2621400 bytes,
    so no accepted header can make a reader over-allocate. *)
Theorem header_decode_encode inb prev h out :
  length inb = kHeaderSize → Forall is_byte inb → length out = kHeaderSize →
  decode_header inb prev = (kOk, h) →
  encode_header (h_count h) out = inb ∧
  h_payload_len h = h_count h * Z.of_nat kRecordSize ∧ 0 <= h_payload_len h <= 2621400.
Proof.
  intros Hlen Hb Hout Hd. destruct (decode_header_ok _ _ _ Hlen Hb Hd) as (-> & Hc & Hp).
  rewrite encode_header_eq by done. unfold kMaxCount in Hc.
  change (Z.of_nat kRecordSize) with 40. split; [done|lia].
Qed.

(** ** Markers and probes *)

Lemma gap_count_value f :
  length (f_data f) = 8%nat → Forall is_byte (f_data f) → gap_count f = le_value (f_data f).
Proof.
  intros Hl Hb. unfold gap_count. rewrite or_loop_value by (intros; by apply nth_byte).
  by rewrite map_nth_seq, <- Hl, firstn_all by lia.
Qed.

Lemma gap_count_make first n r t : gap_count (make_gap first n r t) = u64 n.
Proof.
  rewrite gap_count_value by (simpl; auto with etg || apply length_le_bytes).
  apply (le_value_bytes 8).
Qed.

Lemma is_gap_make first n r t : is_gap (make_gap first n r t) = true.
Proof. done. Qed.
Lemma is_echo_make_gap first n r t : is_echo (make_gap first n r t) = false.
Proof. done. Qed.
Lemma is_echo_make n t : is_echo (make_echo n t) = true.
Proof. done. Qed.

Lemma make_gap_sendable first n r t :
  fits 64 first → fits 64 t → fits 8 (reason_to_u8 r) → frame_sendable (make_gap first n r t).
Proof.
  intros Hf Ht Hr. split; [|done]. split; [|done]. unfold frame_wf; simpl.
  repeat split; try apply Hf; try apply Ht; try apply Hr; try done; auto with etg.
Qed.

Lemma make_echo_sendable n t : fits 64 n → fits 64 t → frame_sendable (make_echo n t).
Proof.
  intros Hn Ht. split; [|done]. split; [|done]. unfold frame_wf; simpl.
  repeat split; try apply Hn; try apply Ht; try done.
  repeat (constructor; [done|]). constructor.
Qed.

Lemma is_control_or f : is_control f = is_gap f || is_echo f.
Proof.
  unfold is_control, is_gap, is_echo. rewrite <- negb_andb. f_equal.
  rewrite Z.land_lor_distr_r.
  apply eq_true_iff_eq. rewrite andb_true_iff, !Z.eqb_eq. apply Z.lor_eq_0_iff.
Qed.

#[export] Hint Resolve make_gap_sendable make_echo_sendable : etg.
#[export] Hint Rewrite gap_count_make is_gap_make is_echo_make_gap is_echo_make : etg.

(** A marker survives the wire with its meaning: after encoding and decoding, a
    consumer sees a gap (and not an echo) with the same first missing sequence, the
    same 64-bit count and the same reason. *)
Theorem gap_marker_roundtrip first n r t out prev :
  fits 64 first → fits 64 n → fits 64 t →
  r = kConsumerOverrun ∨ r = kIngestLoss ∨ r = kConsumerAbsent → length out = kRecordSize →
  ∃ f, decode_frame (encode_frame (make_gap first n r t) out) prev = (kOk, f) ∧
       is_gap f = true ∧ is_echo f = false ∧ is_control f = true ∧
       f_seq f = first ∧ gap_count f = n ∧ gap_reason f = r.
Proof.
  intros Hf Hn Ht Hr Hout.
  assert (fits 8 (reason_to_u8 r)) as Hr8 by (destruct Hr as [->|[->| ->]]; done).
  exists (make_gap first n r t).
  rewrite encode_frame_eq by (done || apply make_gap_sendable; auto).
  rewrite decode_layout by auto with etg. rewrite is_control_or. autorewrite with etg.
  rewrite u64_small by done.
  repeat split. by destruct Hr as [->|[->| ->]].
Qed.

(** The specification requires the reserved byte of a record to be zero and a
    decoder to reject one that is not; the decoder never reads it as a condition. *)
Lemma reserved_byte_accepted :
  ∃ inb f, length inb = kRecordSize ∧ Forall is_byte inb ∧ nth 31 inb 0 ≠ 0 ∧
           decode_frame inb frame_zero = (kOk, f) ∧ f_reserved f ≠ 0.
Proof.
  exists (replicate 31 0 ++ [255] ++ replicate 8 0). eexists. split; [done|].
  split; [apply (bool_decide_unpack _); by vm_compute|].
  split; [done|]. split; [reflexivity|]. done.
Qed.

(** ** Witnesses *)

Definition sample_frame : Frame :=
  mkFrame 0x0102030405060708 0x1112131415161718 0x2122232425262728 0x1ABCDEF0 2 8 1 0
          [0xDE; 0xAD; 0xBE; 0xEF; 0xCA; 0xFE; 0xBA; 0xBE].

Lemma encode_frame_layout_witness :
  frame_wf sample_frame ∧
  encode_frame sample_frame (replicate 40 7) = record_layout sample_frame.
Proof.
  split; [apply (bool_decide_unpack _); by vm_compute|].
  apply (encode_frame_layout sample_frame); [apply (bool_decide_unpack _); by vm_compute|done].
Defined.

Lemma frame_roundtrip_witness :
  decode_frame (encode_frame sample_frame (replicate 40 7)) frame_zero = (kOk, sample_frame).
Proof.
  apply (frame_roundtrip sample_frame); [apply (bool_decide_unpack _); by vm_compute|done].
Defined.

Lemma frame_decode_encode_witness :
  encode_frame sample_frame (replicate 40 0) = record_layout sample_frame.
Proof.
  apply (frame_decode_encode (record_layout sample_frame) frame_zero);
    [done|apply (bool_decide_unpack _); by vm_compute|done|by vm_compute].
Defined.

Lemma decode_frame_errors_witness :
  decode_frame (replicate 29 0 ++ [9] ++ replicate 10 0) sample_frame
  = (kLengthOutOfRange, sample_frame).
Proof.
  rewrite (proj1 (decode_frame_errors (replicate 29 0 ++ [9] ++ replicate 10 0) sample_frame
    eq_refl ltac:(apply (bool_decide_unpack _); by vm_compute))).
  reflexivity.
Defined.

Lemma header_roundtrip_witness :
  decode_header (encode_header 3 (replicate 16 0)) header_zero = (kOk, mkHeader 3 120 40 3 16).
Proof. apply (header_roundtrip 3); [unfold kMaxCount; lia|done]. Defined.

Lemma header_decode_encode_witness :
  encode_header 256 (replicate 16 0) = header_layout 256.
Proof.
  apply (header_decode_encode (header_layout 256) header_zero (mkHeader 256 10240 40 3 16));
    [done|apply (bool_decide_unpack _); by vm_compute|done|by vm_compute].
Defined.

Lemma gap_marker_roundtrip_witness :
  ∃ f, decode_frame (encode_frame (make_gap 100 50 kConsumerAbsent 9) (replicate 40 0)) frame_zero
       = (kOk, f) ∧ gap_count f = 50.
Proof.
  destruct (gap_marker_roundtrip 100 50 kConsumerAbsent 9 (replicate 40 0) frame_zero)
    as (f & H1 & _ & _ & _ & _ & H2 & _); [done|done|done|by auto|done|].
  by exists f.
Defined.
