(* ===== verification/BoundedQueue.v ===== *)
(** * BoundedQueue: the per-consumer mutex queue (src/src/bounded_queue.hpp)

    The circular buffer with its 64-bit indices and counters, [push_batch],
    [pop_batch], [close] and [stats]; the abstract drop-oldest FIFO it implements;
    and the interleaving of its critical sections with its counter updates. *)

From S2P Require Import Prelude.

Record QueueStats := mkQueueStats {
  qs_pushed : Z;
  qs_popped : Z;
  qs_dropped : Z;
  qs_size : Z;
  qs_capacity : Z
}.

Record BoundedQueue (T : Type) := mkQueue {
  buf_ : list T;
  capacity_ : Z;
  head_ : Z;
  count_ : Z;
  closed_ : bool;
  pushed_ : Z;
  popped_ : Z;
  dropped_ : Z
}.
Arguments mkQueue {T} _ _ _ _ _ _ _ _.
Arguments buf_ {T} _.
Arguments capacity_ {T} _.
Arguments head_ {T} _.
Arguments count_ {T} _.
Arguments closed_ {T} _.
Arguments pushed_ {T} _.
Arguments popped_ {T} _.
Arguments dropped_ {T} _.

(** What another thread may do to the queue while the consumer waits with the
    mutex released. *)
Inductive QueueOp (T : Type) :=
  | OpPush (items : list T)
  | OpClose.
Arguments OpPush {T} _.
Arguments OpClose {T}.

Section Queue.
Context {T : Type} `{!Inhabited T}.
Implicit Types (q : BoundedQueue T) (items : list T).

(** The constructor: capacity zero is replaced by one, the buffer holds
    value-initialised elements. *)
Definition make_queue (capacity : Z) : BoundedQueue T :=
  let c := if capacity =? 0 then 1 else capacity in
  mkQueue (replicate (Z.to_nat c) inhabitant) c 0 0 false 0 0 0.

(** One iteration of the push loop; the accumulator is [dropped]. *)
Definition push_one (acc : BoundedQueue T * Z) (item : T) : BoundedQueue T * Z :=
  let '(q, dropped) := acc in
  let '(head, count, dropped) :=
    if count_ q =? capacity_ q
    then (u64 (head_ q + 1) mod capacity_ q, u64 (count_ q - 1), u64 (dropped + 1))
    else (head_ q, count_ q, dropped) in
  (mkQueue (<[Z.to_nat (u64 (head + count) mod capacity_ q) := item]> (buf_ q))
           (capacity_ q) head (u64 (count + 1)) (closed_ q)
           (pushed_ q) (popped_ q) (dropped_ q), dropped).

(** The critical section of [push_batch]; [None] when the queue is closed. *)
Definition push_locked (items : list T) (q : BoundedQueue T) : option (BoundedQueue T * Z) :=
  if closed_ q then None else Some (fold_left push_one items (q, 0)).

(** The relaxed counter additions that follow it. *)
Definition push_count (n dropped : Z) (q : BoundedQueue T) : BoundedQueue T :=
  mkQueue (buf_ q) (capacity_ q) (head_ q) (count_ q) (closed_ q)
          (u64 (pushed_ q + n)) (popped_ q) (u64 (dropped_ q + dropped)).

Definition push_batch (items : list T) (q : BoundedQueue T) : BoundedQueue T * Z :=
  match items with
  | [] => (q, 0)
  | _ =>
      match push_locked items q with
      | None => (q, 0)
      | Some (q1, dropped) => (push_count (Z.of_nat (length items)) dropped q1, dropped)
      end
  end.

Definition close (q : BoundedQueue T) : BoundedQueue T :=
  mkQueue (buf_ q) (capacity_ q) (head_ q) (count_ q) true
          (pushed_ q) (popped_ q) (dropped_ q).

Definition closed (q : BoundedQueue T) : bool := closed_ q.

Definition stats (q : BoundedQueue T) : QueueStats :=
  mkQueueStats (pushed_ q) (popped_ q) (dropped_ q) (count_ q) (capacity_ q).

Definition apply_op (q : BoundedQueue T) (op : QueueOp T) : BoundedQueue T :=
  match op with
  | OpPush items => fst (push_batch items q)
  | OpClose => close q
  end.

(** The predicate the condition variable waits for. *)
Definition pop_ready (q : BoundedQueue T) : bool := (count_ q >? 0) || closed_ q.

(** The critical section of [pop_batch] once the predicate holds. *)
Definition pop_locked (out_size : Z) (q : BoundedQueue T) : list T * BoundedQueue T :=
  let n := if count_ q <? out_size then count_ q else out_size in
  (map (λ i, buf_ q !!! Z.to_nat (u64 (head_ q + Z.of_nat i) mod capacity_ q))
       (seq 0 (Z.to_nat n)),
   mkQueue (buf_ q) (capacity_ q) (u64 (head_ q + n) mod capacity_ q) (u64 (count_ q - n))
           (closed_ q) (pushed_ q) (popped_ q) (dropped_ q)).

Definition pop_count (n : Z) (q : BoundedQueue T) : BoundedQueue T :=
  mkQueue (buf_ q) (capacity_ q) (head_ q) (count_ q) (closed_ q)
          (pushed_ q) (u64 (popped_ q + n)) (dropped_ q).

(** [pop_batch]: [during] is what the other threads do while [wait_for] has the
    mutex released, up to the wake-up or the timeout. *)
Definition pop_batch (out_size : Z) (during : list (QueueOp T)) (q : BoundedQueue T)
  : list T * BoundedQueue T :=
  if out_size =? 0 then ([], q)
  else
    let q1 := if pop_ready q then q else fold_left apply_op during q in
    if pop_ready q1 then
      let '(out, q2) := pop_locked out_size q1 in
      (out, pop_count (Z.of_nat (length out)) q2)
    else ([], q1).

(** ** Invariant *)

(** The largest element count a vector can hold is far below [2^62]. *)
Definition capacity_limit : Z := 2 ^ 62.

Record queue_wf (q : BoundedQueue T) : Prop := {
  wf_cap : 1 <= capacity_ q < capacity_limit;
  wf_buf : length (buf_ q) = Z.to_nat (capacity_ q);
  wf_head : 0 <= head_ q < capacity_ q;
  wf_count : 0 <= count_ q <= capacity_ q;
  wf_pushed : fits 64 (pushed_ q);
  wf_popped : fits 64 (popped_ q);
  wf_dropped : fits 64 (dropped_ q)
}.

(** The accounting law the counters keep, modulo [2^64]. *)
Definition queue_conserved (q : BoundedQueue T) : Prop :=
  pushed_ q = u64 (popped_ q + dropped_ q + count_ q).

(** The frames waiting, oldest first. *)
Definition contents (q : BoundedQueue T) : list T :=
  map (λ i, buf_ q !!! Z.to_nat ((head_ q + Z.of_nat i) mod capacity_ q))
      (seq 0 (Z.to_nat (count_ q))).

Lemma length_contents q : length (contents q) = Z.to_nat (count_ q).
Proof. unfold contents. len. Qed.

Lemma make_queue_wf c : 0 <= c < capacity_limit → queue_wf (make_queue c).
Proof.
  intros Hc. unfold make_queue. unfold capacity_limit in *.
  destruct (Z.eqb_spec c 0) as [->|Hne]; constructor; simpl;
    unfold capacity_limit; rewrite ?length_replicate; try done; lia.
Qed.

(** ** The circular view *)

Definition ring_view (buf : list T) (cap head count : Z) : list T :=
  map (λ i, buf !!! Z.to_nat ((head + Z.of_nat i) mod cap)) (seq 0 (Z.to_nat count)).

Lemma ring_view_drop buf cap head count n :
  0 < cap → 0 <= n <= count →
  ring_view buf cap ((head + n) mod cap) (count - n) = drop (Z.to_nat n) (ring_view buf cap head count).
Proof.
  intros Hc Hn. unfold ring_view. rewrite skipn_map, skipn_seq, Nat.add_0_l.
  rewrite (map_seq_from _ (Z.to_nat n)).
  replace (Z.to_nat (count - n)) with (Z.to_nat count - Z.to_nat n)%nat by lia.
  apply map_ext. intros i. do 2 f_equal.
  rewrite Zplus_mod_idemp_l. f_equal. lia.
Qed.

Lemma ring_view_take buf cap head count n :
  0 <= n <= count →
  ring_view buf cap head n = take (Z.to_nat n) (ring_view buf cap head count).
Proof.
  intros Hn. unfold ring_view. rewrite firstn_map, take_seq.
  by rewrite Nat.min_l by lia.
Qed.

Lemma mod_index_ne cap head i j :
  0 < cap → 0 <= i < j → j < cap → (head + i) mod cap ≠ (head + j) mod cap.
Proof.
  intros Hc Hi Hj E.
  assert ((j - i) mod cap = 0) as H0.
  { replace (j - i) with ((head + j) - (head + i)) by lia.
    rewrite Zminus_mod, E, Z.sub_diag. apply Z.mod_0_l. lia. }
  rewrite Z.mod_small in H0; lia.
Qed.

Lemma ring_view_append buf cap head count x :
  length buf = Z.to_nat cap → 0 < cap → 0 <= count < cap →
  ring_view (<[Z.to_nat ((head + count) mod cap) := x]> buf) cap head (count + 1)
  = ring_view buf cap head count ++ [x].
Proof.
  intros Hl Hc Hn. unfold ring_view.
  replace (Z.to_nat (count + 1)) with (S (Z.to_nat count)) by lia.
  rewrite seq_S, map_app. simpl. pose proof (Z.mod_pos_bound (head + count) cap Hc). f_equal.
  - apply map_ext_in. intros i Hi. apply in_seq in Hi.
    pose proof (Z.mod_pos_bound (head + Z.of_nat i) cap Hc).
    pose proof (mod_index_ne cap head (Z.of_nat i) count Hc).
    apply list_lookup_total_insert_ne. lia.
  - do 2 f_equal. rewrite Z2Nat.id by lia.
    apply list_lookup_total_insert_eq. lia.
Qed.

Lemma contents_view q : contents q = ring_view (buf_ q) (capacity_ q) (head_ q) (count_ q).
Proof. done. Qed.

(** Two queues agree on everything [push_one] must not touch. *)
Definition same_frame (q q' : BoundedQueue T) : Prop :=
  capacity_ q' = capacity_ q ∧ closed_ q' = closed_ q ∧
  pushed_ q' = pushed_ q ∧ popped_ q' = popped_ q ∧ dropped_ q' = dropped_ q.

Lemma push_one_spec q d x :
  queue_wf q →
  let r := push_one (q, d) x in
  queue_wf (fst r) ∧ same_frame q (fst r) ∧
  contents (fst r) = lastn (Z.to_nat (capacity_ q)) (contents q ++ [x]) ∧
  snd r = if count_ q =? capacity_ q then u64 (d + 1) else d.
Proof.
  intros [Hc Hb Hh Hn H1 H2 H3]. unfold push_one, capacity_limit in *.
  assert (0 < capacity_ q) as Hpos by lia.
  rewrite (contents_view q).
  destruct (Z.eqb_spec (count_ q) (capacity_ q)) as [E|E]; simpl.
  - rewrite (u64_small (head_ q + 1)) by (unfold fits; pow_consts; lia).
    rewrite (u64_small (count_ q - 1)) by (unfold fits; pow_consts; lia).
    pose proof (Z.mod_pos_bound (head_ q + 1) (capacity_ q) Hpos) as Hm.
    set (h := (head_ q + 1) mod capacity_ q) in *.
    rewrite (u64_small (h + _)) by (unfold fits; pow_consts; lia).
    rewrite (u64_small (count_ q - 1 + 1)) by (unfold fits; pow_consts; lia).
    split; [|split; [done|split; [|done]]].
    + constructor; simpl; rewrite ?length_insert; unfold capacity_limit; done || lia.
    + rewrite contents_view. simpl. rewrite ring_view_append by (done || lia).
      unfold h. rewrite ring_view_drop by lia. unfold lastn.
      rewrite drop_app_le by (unfold ring_view; len). f_equal. f_equal.
      unfold ring_view. len.
  - rewrite (u64_small (head_ q + count_ q)) by (unfold fits; pow_consts; lia).
    rewrite (u64_small (count_ q + 1)) by (unfold fits; pow_consts; lia).
    split; [|split; [done|split; [|done]]].
    + constructor; simpl; rewrite ?length_insert; unfold capacity_limit; done || lia.
    + rewrite contents_view. simpl. rewrite ring_view_append by (done || lia).
      rewrite lastn_all; [done|]. unfold ring_view. len.
Qed.

Lemma same_frame_trans q1 q2 q3 : same_frame q1 q2 → same_frame q2 q3 → same_frame q1 q3.
Proof. unfold same_frame. intuition congruence. Qed.

#[local] Arguments push_one : simpl never.

(** The whole push loop. *)
Lemma push_loop_spec items q d :
  queue_wf q → fits 64 d →
  let r := fold_left push_one items (q, d) in
  queue_wf (fst r) ∧ same_frame q (fst r) ∧
  contents (fst r) = lastn (Z.to_nat (capacity_ q)) (contents q ++ items) ∧
  snd r = u64 (d + Z.max 0 (count_ q + Z.of_nat (length items) - capacity_ q)).
Proof.
  revert q d. induction items as [|x items IH]; intros q d Hwf Hd; simpl.
  - rewrite app_nil_r. split; [done|]. split; [done|]. destruct Hwf.
    rewrite lastn_all by (rewrite length_contents; lia).
    rewrite Z.max_l by lia. by rewrite Z.add_0_r, u64_small.
  - pose proof (push_one_spec q d x Hwf) as Hone.
    destruct (push_one (q, d) x) as [q1 d1] eqn:E. simpl in Hone.
    destruct Hone as (Hwf1 & Hsame & Hcont & ->).
    assert (count_ q1 = Z.min (capacity_ q) (count_ q + 1)) as Hcnt.
    { apply (f_equal length) in Hcont. rewrite length_contents in Hcont.
      rewrite length_lastn, length_app, length_contents in Hcont. simpl in Hcont.
      destruct Hwf, Hwf1. destruct Hsame. lia. }
    assert (fits 64 (if count_ q =? capacity_ q then u64 (d + 1) else d)) as Hd1
      by (case_match; auto with etg).
    specialize (IH q1 _ Hwf1 Hd1).
    destruct Hsame as (Hcap & Hsame). destruct (fold_left _ items _) as [q2 d2]. simpl in *.
    destruct IH as (Hwf2 & Hsame2 & Hcont2 & ->).
    split; [done|]. split; [by eapply same_frame_trans; [split; eauto|]|].
    rewrite Hcont2, Hcont, Hcap, lastn_app, <- app_assoc. split; [done|].
    rewrite Hcnt. destruct Hwf. destruct (Z.eqb_spec (count_ q) (capacity_ q)) as [Heq|Hne].
    + rewrite u64_add_l. f_equal. lia.
    + f_equal. lia.
Qed.

(** ** Abstract specification: a drop-oldest FIFO *)

Record AbsQueue := mkAbs {
  a_cap : nat;
  a_items : list T;
  a_closed : bool;
  a_pushed : Z;
  a_popped : Z;
  a_dropped : Z
}.

(** Appending keeps the newest [a_cap] items and never waits. *)
Definition abs_push (items : list T) (a : AbsQueue) : AbsQueue * Z :=
  if bool_decide (items = []) || a_closed a then (a, 0)
  else
    let d := u64 (Z.max 0 (Z.of_nat (length (a_items a)) + Z.of_nat (length items)
                           - Z.of_nat (a_cap a))) in
    (mkAbs (a_cap a) (lastn (a_cap a) (a_items a ++ items)) (a_closed a)
           (u64 (a_pushed a + Z.of_nat (length items))) (a_popped a) (u64 (a_dropped a + d)),
     d).

Definition abs_close (a : AbsQueue) : AbsQueue :=
  mkAbs (a_cap a) (a_items a) true (a_pushed a) (a_popped a) (a_dropped a).

Definition abs_op (a : AbsQueue) (op : QueueOp T) : AbsQueue :=
  match op with OpPush items => fst (abs_push items a) | OpClose => abs_close a end.

(** Taking the oldest [n] items, after the pushes that happen while waiting. *)
Definition abs_pop (n : Z) (during : list (QueueOp T)) (a : AbsQueue) : list T * AbsQueue :=
  if n =? 0 then ([], a)
  else
    let a := if bool_decide (a_items a = []) && negb (a_closed a)
             then fold_left abs_op during a else a in
    (take (Z.to_nat n) (a_items a),
     mkAbs (a_cap a) (drop (Z.to_nat n) (a_items a)) (a_closed a) (a_pushed a)
           (u64 (a_popped a + Z.min n (Z.of_nat (length (a_items a))))) (a_dropped a)).

Definition abs_of (q : BoundedQueue T) : AbsQueue :=
  mkAbs (Z.to_nat (capacity_ q)) (contents q) (closed_ q) (pushed_ q) (popped_ q) (dropped_ q).

(** ** Refinement lemmas *)

Lemma push_batch_refines items q :
  queue_wf q →
  queue_wf (fst (push_batch items q)) ∧
  abs_push items (abs_of q) = (abs_of (fst (push_batch items q)), snd (push_batch items q)).
Proof.
  intros Hwf. unfold push_batch, push_locked, abs_push.
  destruct items as [|x items]; [by rewrite bool_decide_true by done|].
  rewrite bool_decide_false by done. simpl orb.
  simpl a_closed. destruct (closed_ q) eqn:Hcl; [done|]. simpl.
  pose proof (push_loop_spec (x :: items) q 0 Hwf ltac:(done)) as H. simpl in H.
  destruct (fold_left push_one items (push_one (q, 0) x)) as [q1 d]. simpl in *.
  destruct H as (Hwf1 & (Hcap & Hclo & Hpu & Hpo & Hdr) & Hcont & ->).
  rewrite length_contents. split.
  - destruct Hwf1. constructor; simpl; auto with etg.
  - unfold abs_of. simpl. unfold push_count, contents at 2. simpl.
    fold (contents q1). rewrite Hcap, Hclo, Hpu, Hpo, Hdr, Hcont, Hcl.
    destruct Hwf. rewrite !Z2Nat.id by lia. done.
Qed.

Lemma close_refines q :
  queue_wf q → queue_wf (close q) ∧ abs_of (close q) = abs_close (abs_of q).
Proof. intros []. split; [by constructor|done]. Qed.

Lemma apply_op_refines op q :
  queue_wf q → queue_wf (apply_op q op) ∧ abs_of (apply_op q op) = abs_op (abs_of q) op.
Proof.
  intros Hwf. destruct op as [items|]; [|by apply close_refines].
  destruct (push_batch_refines items q Hwf) as [H1 H2]. simpl. by rewrite H2.
Qed.

Lemma apply_ops_refine during q :
  queue_wf q →
  queue_wf (fold_left apply_op during q) ∧
  abs_of (fold_left apply_op during q) = fold_left abs_op during (abs_of q).
Proof.
  revert q. induction during as [|op during IH]; intros q Hwf; [done|]. simpl.
  destruct (apply_op_refines op q Hwf) as [H1 H2]. rewrite <- H2. by apply IH.
Qed.

Lemma pop_ready_abs q :
  queue_wf q → pop_ready q = negb (bool_decide (a_items (abs_of q) = []) && negb (closed_ q)).
Proof.
  intros []. unfold pop_ready. simpl. rewrite negb_andb, negb_involutive. f_equal.
  destruct (contents q) as [|x l] eqn:E; apply (f_equal length) in E;
    rewrite length_contents in E; simpl in E.
  - rewrite bool_decide_true by done. simpl. rewrite Z.gtb_ltb. apply Z.ltb_ge. lia.
  - rewrite bool_decide_false by done. simpl. rewrite Z.gtb_ltb. apply Z.ltb_lt. lia.
Qed.

Lemma pop_locked_refines n q :
  queue_wf q → 0 <= n →
  let r := pop_locked n q in
  queue_wf (snd r) ∧ fst r = take (Z.to_nat n) (contents q) ∧
  contents (snd r) = drop (Z.to_nat n) (contents q) ∧ same_frame q (snd r).
Proof.
  intros [Hc Hb Hh Hn H1 H2 H3] Hpos. unfold pop_locked, capacity_limit in *.
  assert (0 < capacity_ q) as Hcap by lia.
  set (m := if count_ q <? n then count_ q else n).
  assert (m = Z.min n (count_ q)) as Hm by (unfold m; destruct (Z.ltb_spec (count_ q) n); lia).
  simpl. rewrite (u64_small (head_ q + m)) by (unfold fits; pow_consts; lia).
  rewrite (u64_small (count_ q - m)) by (unfold fits; pow_consts; lia).
  pose proof (Z.mod_pos_bound (head_ q + m) (capacity_ q) Hcap).
  split; [|split; [|split; [|done]]].
  - constructor; simpl; unfold capacity_limit; done || lia.
  - rewrite (map_ext_in _ (λ i, buf_ q !!! Z.to_nat ((head_ q + Z.of_nat i) mod capacity_ q))).
    + fold (ring_view (buf_ q) (capacity_ q) (head_ q) m).
      rewrite (ring_view_take _ _ _ (count_ q)) by lia. rewrite <- contents_view.
      rewrite <- (firstn_all (contents q)) at 2. rewrite take_take, length_contents.
      f_equal. lia.
    + intros i Hi. apply in_seq in Hi.
      by rewrite u64_small by (unfold fits; pow_consts; lia).
  - rewrite contents_view. simpl. rewrite ring_view_drop by lia. rewrite <- contents_view.
    destruct (Z.le_ge_cases n (count_ q)).
    + f_equal. lia.
    + rewrite !drop_ge; try done; rewrite length_contents; lia.
Qed.

Lemma pop_batch_refines n during q :
  queue_wf q → 0 <= n →
  queue_wf (snd (pop_batch n during q)) ∧
  abs_pop n during (abs_of q)
  = (fst (pop_batch n during q), abs_of (snd (pop_batch n during q))).
Proof.
  intros Hwf Hn. unfold pop_batch, abs_pop. destruct (Z.eqb_spec n 0) as [->|Hne]; [done|].
  pose proof (pop_ready_abs q Hwf) as Hr. change (closed_ q) with (a_closed (abs_of q)) in Hr.
  set (q1 := if pop_ready q then q else fold_left apply_op during q).
  assert (queue_wf q1 ∧ abs_of q1 = (if bool_decide (a_items (abs_of q) = []) && negb (a_closed (abs_of q))
    then fold_left abs_op during (abs_of q) else abs_of q)) as [Hwf1 <-].
  { unfold q1. rewrite Hr. destruct (bool_decide _ && _); [by apply apply_ops_refine|done]. }
  pose proof (pop_ready_abs q1 Hwf1) as Hr1. destruct (pop_ready q1) eqn:Er.
  - pose proof (pop_locked_refines n q1 Hwf1 Hn) as H.
    destruct (pop_locked n q1) as [out q2]. simpl in *.
    destruct H as (Hwf2 & -> & Hcont & Hcap & Hclo & Hpu & Hpo & Hdr). split.
    + destruct Hwf2. constructor; simpl; auto with etg.
    + unfold abs_of. simpl. change (contents (pop_count _ q2)) with (contents q2).
      rewrite Hcap, Hclo, Hpu, Hpo, Hdr, Hcont, length_take, length_contents.
      do 4 f_equal. lia.
  - symmetry in Hr1. apply negb_false_iff in Hr1. zbool. simpl in *.
    match goal with H : bool_decide _ = true |- _ => apply bool_decide_eq_true in H as Hnil end.
    split; [done|]. rewrite Hnil. simpl. rewrite take_nil, drop_nil.
    destruct Hwf1. rewrite Z.min_r, Z.add_0_r, u64_small by (done || lia).
    unfold abs_of. by rewrite Hnil.
Qed.

Lemma push_conserved items q :
  queue_wf q → queue_conserved q → queue_conserved (fst (push_batch items q)).
Proof.
  intros Hwf Hc. destruct (push_batch_refines items q Hwf) as [Hwf' H].
  unfold abs_push in H. simpl in H. destruct (bool_decide _ || _).
  { injection H as E1 E2 E3 E4 E5 E6 _. unfold queue_conserved in *.
    apply (f_equal length) in E2. rewrite !length_contents in E2.
    destruct Hwf, Hwf'. rewrite <- E4, <- E5, <- E6.
    replace (count_ (fst (push_batch items q))) with (count_ q) by lia. done. }
  injection H as E1 E2 E3 E4 E5 E6 _. unfold queue_conserved in *.
  apply (f_equal length) in E2. rewrite length_lastn, length_app, !length_contents in E2.
  destruct Hwf, Hwf'. rewrite <- E4, <- E5, <- E6, Hc. rewrite length_contents.
  u64_eq.
Qed.

(** ** Interleaving of critical sections and counter updates

    One producer and one consumer thread. Each of their calls is two steps: the
    critical section under the mutex, then the relaxed additions to the counters.
    [offered], [delivered] and [lost] are ghost history: the items accepted, the
    items handed out, and how many were overwritten. *)
Record ConcState := mkConc {
  c_q : BoundedQueue T;
  c_prod : option (Z * Z);  (* additions to pushed_ and dropped_ still to do *)
  c_cons : option Z;        (* addition to popped_ still to do *)
  c_offered : list T;
  c_delivered : list T;
  c_lost : Z
}.

Inductive ConcEvent :=
  | EvPushLocked (items : list T)
  | EvPushCount
  | EvPopLocked (n : Z)
  | EvPopCount
  | EvClose.

Definition conc_init (capacity : Z) : ConcState :=
  mkConc (make_queue capacity) None None [] [] 0.

Definition conc_step (s : ConcState) (e : ConcEvent) : option ConcState :=
  match e with
  | EvPushLocked items =>
      match c_prod s, items with
      | None, _ :: _ =>
          match push_locked items (c_q s) with
          | None => Some s
          | Some (q, d) =>
              Some (mkConc q (Some (Z.of_nat (length items), d)) (c_cons s)
                           (c_offered s ++ items) (c_delivered s)
                           (c_lost s + Z.max 0 (count_ (c_q s) + Z.of_nat (length items)
                                                - capacity_ (c_q s))))
          end
      | _, _ => None
      end
  | EvPushCount =>
      match c_prod s with
      | Some (n, d) => Some (mkConc (push_count n d (c_q s)) None (c_cons s)
                                    (c_offered s) (c_delivered s) (c_lost s))
      | None => None
      end
  | EvPopLocked n =>
      match c_cons s with
      | None =>
          if (0 <? n) && pop_ready (c_q s) then
            let '(out, q) := pop_locked n (c_q s) in
            Some (mkConc q (c_prod s) (Some (Z.of_nat (length out)))
                         (c_offered s) (c_delivered s ++ out) (c_lost s))
          else None
      | Some _ => None
      end
  | EvPopCount =>
      match c_cons s with
      | Some n => Some (mkConc (pop_count n (c_q s)) (c_prod s) None
                               (c_offered s) (c_delivered s) (c_lost s))
      | None => None
      end
  | EvClose => Some (mkConc (close (c_q s)) (c_prod s) (c_cons s)
                            (c_offered s) (c_delivered s) (c_lost s))
  end.

Definition pending_push (s : ConcState) : Z := match c_prod s with Some (n, _) => n | None => 0 end.
Definition pending_drop (s : ConcState) : Z := match c_prod s with Some (_, d) => d | None => 0 end.
Definition pending_pop (s : ConcState) : Z := match c_cons s with Some n => n | None => 0 end.

Record conc_inv (s : ConcState) : Prop := {
  ci_wf : queue_wf (c_q s);
  ci_gone : ∃ gone, c_offered s = gone ++ contents (c_q s) ∧
                    c_delivered s `sublist_of` gone ∧
                    Z.of_nat (length gone) = Z.of_nat (length (c_delivered s)) + c_lost s;
  ci_pushed : u64 (pushed_ (c_q s) + pending_push s) = u64 (Z.of_nat (length (c_offered s)));
  ci_popped : u64 (popped_ (c_q s) + pending_pop s) = u64 (Z.of_nat (length (c_delivered s)));
  ci_dropped : u64 (dropped_ (c_q s) + pending_drop s) = u64 (c_lost s)
}.

Lemma conc_init_inv c : 0 <= c < capacity_limit → conc_inv (conc_init c).
Proof. intros Hc. constructor; [by apply make_queue_wf| |done..]. by exists []. Qed.

Lemma lastn_split (n : nat) (l : list T) : l = take (length l - n) l ++ lastn n l.
Proof. unfold lastn. by rewrite take_drop. Qed.

Lemma conc_push_inv s items q d :
  conc_inv s → c_prod s = None → push_locked items (c_q s) = Some (q, d) →
  conc_inv (mkConc q (Some (Z.of_nat (length items), d)) (c_cons s)
                   (c_offered s ++ items) (c_delivered s)
                   (c_lost s + Z.max 0 (count_ (c_q s) + Z.of_nat (length items)
                                        - capacity_ (c_q s)))).
Proof.
  intros [Hwf (gone & Hoff & Hsub & Hlen) Hpu Hpo Hdr] Hprod Hpush.
  unfold push_locked in Hpush. destruct (closed_ (c_q s)); [done|]. injection Hpush as Hpush.
  pose proof (push_loop_spec items (c_q s) 0 Hwf ltac:(done)) as H. rewrite Hpush in H.
  simpl in H. destruct H as (Hwf' & (Hcap & _ & Epu & Epo & Edr) & Hcont & ->).
  unfold pending_push, pending_drop, pending_pop in *. rewrite Hprod in *.
  constructor; simpl; unfold pending_push, pending_drop, pending_pop; simpl; [done| | | |].
  - rewrite Hcont, Hoff. set (l := contents (c_q s) ++ items).
    exists (gone ++ take (length l - Z.to_nat (capacity_ (c_q s))) l).
    rewrite <- !app_assoc, <- lastn_split. split; [done|]. split.
    + by apply sublist_inserts_r.
    + rewrite length_app, length_take. unfold l. rewrite length_app, length_contents.
      destruct Hwf. lia.
  - rewrite length_app, Epu. revert Hpu. u64_eq.
  - by rewrite Epo.
  - rewrite Edr. revert Hdr. u64_eq.
Qed.

Lemma conc_pop_inv s n out q :
  conc_inv s → c_cons s = None → 0 < n → pop_locked n (c_q s) = (out, q) →
  conc_inv (mkConc q (c_prod s) (Some (Z.of_nat (length out)))
                   (c_offered s) (c_delivered s ++ out) (c_lost s)).
Proof.
  intros [Hwf (gone & Hoff & Hsub & Hlen) Hpu Hpo Hdr] Hcons Hn Hpop.
  pose proof (pop_locked_refines n (c_q s) Hwf ltac:(lia)) as H. rewrite Hpop in H. simpl in H.
  destruct H as (Hwf' & -> & Hcont & _ & _ & Epu & Epo & Edr).
  unfold pending_push, pending_drop, pending_pop in *. rewrite Hcons in *.
  constructor; simpl; unfold pending_push, pending_drop, pending_pop; simpl; [done| | | |].
  - exists (gone ++ take (Z.to_nat n) (contents (c_q s))).
    rewrite Hcont, <- app_assoc, take_drop. split; [done|]. split.
    + by apply sublist_app.
    + rewrite !length_app. lia.
  - by rewrite Epu.
  - rewrite length_app, Epo. revert Hpo. u64_eq.
  - by rewrite Edr.
Qed.

Lemma conc_step_inv s e s' : conc_inv s → conc_step s e = Some s' → conc_inv s'.
Proof.
  intros Hinv Hstep. destruct e as [items| |n| |]; simpl in Hstep.
  - destruct (c_prod s) eqn:Ep; [done|]. destruct items as [|x items]; [done|].
    destruct (push_locked (x :: items) (c_q s)) as [[q d]|] eqn:El; [|by simplify_eq].
    simplify_eq. by apply conc_push_inv.
  - destruct (c_prod s) as [[n d]|] eqn:Ep; [|done]. simplify_eq.
    destruct Hinv as [[] Hg Hpu Hpo Hdr].
    unfold pending_push, pending_drop, pending_pop in *. rewrite Ep in *.
    constructor; simpl; unfold pending_push, pending_drop, pending_pop; simpl; try done;
      [constructor; simpl; auto with etg|revert Hpu|revert Hdr]; u64_eq.
  - destruct (c_cons s) eqn:Ec; [done|]. destruct ((0 <? n) && _) eqn:En; [|done].
    destruct (pop_locked n (c_q s)) as [out q] eqn:El. simplify_eq. zbool.
    by eapply conc_pop_inv.
  - destruct (c_cons s) as [n|] eqn:Ec; [|done]. simplify_eq.
    destruct Hinv as [[] Hg Hpu Hpo Hdr].
    unfold pending_push, pending_drop, pending_pop in *. rewrite Ec in *.
    constructor; simpl; unfold pending_push, pending_drop, pending_pop; simpl; try done;
      [constructor; simpl; auto with etg|revert Hpo]; u64_eq.
  - simplify_eq. destruct Hinv as [Hwf Hg Hpu Hpo Hdr].
    constructor; [by apply close_refines|done..].
Qed.

Lemma conc_reachable_inv c s :
  0 <= c < capacity_limit → reachable conc_step (conc_init c) s → conc_inv s.
Proof.
  intros Hc. apply reachable_invariant; [by apply conc_init_inv|apply conc_step_inv].
Qed.

(** ** Properties *)

(** C8. The circular buffer implements the drop-oldest FIFO: from any well-formed
    queue, [push_batch] (closed or not, any batch size) and [pop_batch] (whatever
    other threads do while it waits) return exactly what the abstract queue returns,
    step to the state that represents the abstract result, and keep the indices,
    the buffer and the counters well-formed. *)
Theorem queue_refines_fifo q items n during :
  queue_wf q → 0 <= n →
  (queue_wf (fst (push_batch items q)) ∧
   abs_push items (abs_of q) = (abs_of (fst (push_batch items q)), snd (push_batch items q))) ∧
  (queue_wf (snd (pop_batch n during q)) ∧
   abs_pop n during (abs_of q)
   = (fst (pop_batch n during q), abs_of (snd (pop_batch n during q)))).
Proof. intros. split; [by apply push_batch_refines|by apply pop_batch_refines]. Qed.

(** C9. Accounting under interleaving. In every state one producer and one consumer can
    reach, the items delivered followed by the items waiting are, in order, a
    subsequence of the items offered (at-most-once, FIFO), exactly [lost] are missing,
    and whenever no counter update is in flight the published statistics satisfy
    [pushed == popped + dropped + size] (modulo 2^64) with [dropped] equal to the
    number overwritten. *)
Theorem queue_conc_accounting c s :
  0 <= c < capacity_limit → reachable conc_step (conc_init c) s →
  (c_delivered s ++ contents (c_q s)) `sublist_of` c_offered s ∧
  Z.of_nat (length (c_offered s))
    = Z.of_nat (length (c_delivered s)) + c_lost s + qs_size (stats (c_q s)) ∧
  (c_prod s = None → c_cons s = None →
   qs_pushed (stats (c_q s)) = u64 (qs_popped (stats (c_q s)) + qs_dropped (stats (c_q s))
                                     + qs_size (stats (c_q s))) ∧
   qs_dropped (stats (c_q s)) = u64 (c_lost s)).
Proof.
  intros Hc Hreach. destruct (conc_reachable_inv c s Hc Hreach)
    as [[Hcap Hb Hh Hn W1 W2 W3] (gone & Hoff & Hsub & Hlen) Hpu Hpo Hdr].
  assert (Z.of_nat (length (c_offered s))
          = Z.of_nat (length (c_delivered s)) + c_lost s + count_ (c_q s)) as Htot.
  { rewrite Hoff, length_app, length_contents. lia. }
  split; [|split; [done|]].
  - rewrite Hoff. by apply sublist_app.
  - intros Hp Hco. unfold pending_push, pending_drop, pending_pop in *.
    rewrite Hp, Hco, Z.add_0_r in *. rewrite u64_small in Hpu, Hpo, Hdr by done.
    simpl. rewrite Hpu, Hpo, Hdr, Htot. split; [u64_eq|done].
Qed.

(** Memory safety of the indices: in every reachable state the head and the count
    stay within the buffer, so no element access of the source is out of range. *)
Theorem queue_index_bounds c s i :
  0 <= c < capacity_limit → reachable conc_step (conc_init c) s →
  0 <= i <= count_ (c_q s) →
  0 <= u64 (head_ (c_q s) + i) mod capacity_ (c_q s) < Z.of_nat (length (buf_ (c_q s))).
Proof.
  intros Hc Hreach Hi. destruct (conc_reachable_inv c s Hc Hreach) as [[Hcap Hb Hh Hn _ _ _] _ _ _ _].
  unfold capacity_limit in *. rewrite u64_small by (unfold fits; pow_consts; lia).
  rewrite Hb, Z2Nat.id by lia. apply Z.mod_pos_bound. lia.
Qed.

End Queue.

(** ** Witnesses *)

Lemma queue_refines_fifo_witness :
  let q := fst (push_batch [1; 2; 3; 4; 5] (make_queue 3)) in
  fst (pop_batch 2 [] q) = [3; 4] ∧ queue_wf (snd (pop_batch 2 [] q)).
Proof.
  simpl. split; [by vm_compute|].
  apply (queue_refines_fifo (fst (push_batch [1; 2; 3; 4; 5] (make_queue 3))) [] 2 []); [|lia].
  constructor; vm_compute; done || lia.
Defined.

Definition conc_demo : list (ConcEvent (T := Z)) :=
  [EvPushLocked [1; 2]; EvPushCount; EvPushLocked [3; 4]; EvPopLocked 1; EvPushCount;
   EvPopCount].

Definition conc_demo_state : ConcState (T := Z) :=
  default (conc_init 3) (run conc_step conc_demo (conc_init 3)).

Lemma queue_conc_accounting_witness :
  qs_pushed (stats (c_q conc_demo_state)) = 4 ∧ qs_popped (stats (c_q conc_demo_state)) = 1 ∧
  qs_dropped (stats (c_q conc_demo_state)) = u64 (c_lost conc_demo_state) ∧
  (c_delivered conc_demo_state ++ contents (c_q conc_demo_state))
    `sublist_of` c_offered conc_demo_state.
Proof.
  assert (reachable conc_step (conc_init 3) conc_demo_state) as Hr
    by (exists conc_demo; by vm_compute).
  destruct (queue_conc_accounting 3 conc_demo_state ltac:(by vm_compute) Hr) as (H1 & _ & H2).
  destruct (H2 eq_refl eq_refl) as [_ H3]. repeat split; done.
Defined.

Lemma queue_index_bounds_witness :
  0 <= u64 (head_ (c_q conc_demo_state) + 2) mod 3 < 3.
Proof.
  apply (queue_index_bounds 3 conc_demo_state 2);
    [by vm_compute|exists conc_demo; by vm_compute|by vm_compute].
Defined.
