(* ===== verification/BroadcastRing.v ===== *)
(** * BroadcastRing: the multi-producer broadcast ring (src/src/broadcast_ring.hpp)

    The ring as data (cells, sequence words, cursors) and its member functions
    executed without interference: a publication or a read is one atomic step here and in
    the components built on this file (RingFeed, RingIngest). RingConc interleaves the
    single accesses; RingWeak also gives them the memory orders of the source. *)

From S2P Require Import Prelude Frame.

(** ** A frame as machine words

    [memcpy] of the 40-byte struct to and from five 64-bit words, on the
    little-endian targets the project supports; offsets as frame.hpp asserts. *)
Definition kFrameWords : nat := 5.

Definition frame_words (f : Frame) : list Z :=
  [f_seq f; f_t_kernel_ns f; f_t_ingest_ns f;
   f_can_id f + 2 ^ 32 * f_src_id f + 2 ^ 40 * f_len f + 2 ^ 48 * f_flags f
     + 2 ^ 56 * f_reserved f;
   le_value (f_data f)].

Definition words_frame (ws : list Z) : Frame :=
  let w3 := nth 3 ws 0 in
  mkFrame (nth 0 ws 0) (nth 1 ws 0) (nth 2 ws 0) (w3 mod 2 ^ 32)
          (w3 / 2 ^ 32 mod 2 ^ 8) (w3 / 2 ^ 40 mod 2 ^ 8) (w3 / 2 ^ 48 mod 2 ^ 8)
          (w3 / 2 ^ 56 mod 2 ^ 8) (le_bytes 8 (nth 4 ws 0)).

(** ** State *)
Record Cell := mkCell { c_seq : Z; c_words : list Z }.

#[export] Instance Cell_inhabited : Inhabited Cell := populate (mkCell 0 (replicate 5 0)).

Module ReadStatus.
Inductive t := kOk | kEmpty | kLapped.
End ReadStatus.

Record Cursor := mkCursor { next : Z; missed : Z }.

Record Ring := mkRing {
  capacity_ : Z;
  mask_ : Z;
  write_pos_ : Z;
  claim_retries_ : Z;
  inconsistent_reads_ : Z;
  ring_closed_ : bool;
  cells_ : list Cell
}.

(** [while (p < v) p <<= 1]; the fuel counts iterations, and 64 of them exhaust
    the width of [size_t]. *)
Fixpoint round_up_loop (fuel : nat) (p v : Z) : option Z :=
  if p <? v then
    match fuel with
    | O => None
    | S fuel => round_up_loop fuel (u64 (Z.shiftl p 1)) v
    end
  else Some p.

Definition round_up_pow2 (v : Z) : option Z := round_up_loop 64 1 v.

(** The constructor; [None] when rounding up does not terminate. *)
Definition make_ring (capacity : Z) : option Ring :=
  match round_up_pow2 (if capacity <? 2 then 2 else capacity) with
  | Some c => Some (mkRing c (c - 1) 0 0 0 false (replicate (Z.to_nat c) inhabitant))
  | None => None
  end.

Definition cell_index (mask pos : Z) : nat := Z.to_nat (Z.land pos mask).

Definition ring_write_position (r : Ring) : Z := write_pos_ r.
Definition ring_capacity (r : Ring) : Z := capacity_ r.
Definition inconsistent_reads (r : Ring) : Z := inconsistent_reads_ r.
Definition claim_retries (r : Ring) : Z := claim_retries_ r.

Definition oldest (capacity w : Z) : Z := if w >? capacity then w - capacity else 0.

(** [lap], given the value of [oldest()] it loads. *)
Definition lap (target : Z) (c : Cursor) : Cursor :=
  if target >? next c
  then mkCursor target (u64 (missed c + (target - next c)))
  else mkCursor (u64 (next c + 1)) (u64 (missed c + 1)).

(** The sequence word the previous occupant of the cell left behind, the word
    that claims the cell and the word that publishes it. *)
Definition expected_seq (capacity pos : Z) : Z :=
  if pos <? capacity then 0 else u64 (2 * (pos - capacity) + 2).
Definition claimed_seq (pos : Z) : Z := u64 (2 * pos + 1).
Definition published_seq (pos : Z) : Z := u64 (2 * pos + 2).

(** The words [write_at] stores: the frame with the ticket in word 0. *)
Definition ticket_words (pos : Z) (f : Frame) : list Z := pos :: tail (frame_words f).

(** ** Member functions without interference *)

Definition set_cell (r : Ring) (i : nat) (c : Cell) : Ring :=
  mkRing (capacity_ r) (mask_ r) (write_pos_ r) (claim_retries_ r) (inconsistent_reads_ r)
         (ring_closed_ r) (<[i := c]> (cells_ r)).

Definition set_write_pos (r : Ring) (w : Z) : Ring :=
  mkRing (capacity_ r) (mask_ r) w (claim_retries_ r) (inconsistent_reads_ r)
         (ring_closed_ r) (cells_ r).

(** [write_at]; [None] when the claim can never succeed because the cell does not
    hold the expected word and nobody else runs. *)
Definition write_at (pos : Z) (f : Frame) (r : Ring) : option Ring :=
  let i := cell_index (mask_ r) pos in
  if c_seq (cells_ r !!! i) =? expected_seq (capacity_ r) pos
  then Some (set_cell r i (mkCell (published_seq pos) (ticket_words pos f)))
  else None.

Definition publish (f : Frame) (r : Ring) : option (Ring * Z) :=
  let pos := write_pos_ r in
  match write_at pos f (set_write_pos r (u64 (pos + 1))) with
  | Some r' => Some (r', pos)
  | None => None
  end.

Fixpoint write_all (pos : Z) (frames : list Frame) (r : Ring) : option Ring :=
  match frames with
  | [] => Some r
  | f :: fs => match write_at pos f r with Some r' => write_all (u64 (pos + 1)) fs r' | None => None end
  end.

(** The whole call, with no other thread in between. *)
Definition publish_batch (frames : list Frame) (r : Ring) : option (Ring * Z) :=
  let base := write_pos_ r in
  match frames with
  | [] => Some (r, base)
  | _ =>
      match write_all base frames (set_write_pos r (u64 (base + Z.of_nat (length frames)))) with
      | Some r' => Some (r', base)
      | None => None
      end
  end.

Definition bump_inconsistent (r : Ring) : Ring :=
  mkRing (capacity_ r) (mask_ r) (write_pos_ r) (claim_retries_ r)
         (u64 (inconsistent_reads_ r + 1)) (ring_closed_ r) (cells_ r).

(** [try_read]: the ring changes only through [inconsistent_reads_]. The frame is
    returned on [kOk]. *)
Definition try_read (r : Ring) (c : Cursor) : ReadStatus.t * Cursor * option Frame * Ring :=
  let cell := cells_ r !!! cell_index (mask_ r) (next c) in
  let s1 := c_seq cell in
  if s1 =? 0 then (ReadStatus.kEmpty, c, None, r)
  else
    let cell_pos := (s1 - 1) / 2 in
    let target := oldest (capacity_ r) (write_pos_ r) in
    if cell_pos <? next c then (ReadStatus.kEmpty, c, None, r)
    else if cell_pos >? next c then (ReadStatus.kLapped, lap target c, None, r)
    else if negb (Z.land s1 1 =? 0) then (ReadStatus.kEmpty, c, None, r)
    else
      let words := c_words cell in
      let s2 := c_seq cell in
      if negb (s2 =? s1) then (ReadStatus.kLapped, lap target c, None, r)
      else if negb (nth 0 words 0 =? next c)
      then (ReadStatus.kLapped, lap target c, None, bump_inconsistent r)
      else (ReadStatus.kOk, mkCursor (u64 (next c + 1)) (missed c), Some (words_frame words), r).

(** [read_batch]: [room] is what is left of the output span, [fuel] bounds the
    retries after a lap. *)
Fixpoint read_loop (fuel : nat) (room : nat) (r : Ring) (c : Cursor)
  : option (list Frame * Cursor * Ring) :=
  match room with
  | O => Some ([], c, r)
  | S room' =>
      match fuel with
      | O => None
      | S fuel =>
          match try_read r c with
          | (ReadStatus.kOk, c', Some f, r') =>
              match read_loop fuel room' r' c' with
              | Some (fs, c2, r2) => Some (f :: fs, c2, r2)
              | None => None
              end
          | (ReadStatus.kLapped, c', _, r') => read_loop fuel room r' c'
          | _ => Some ([], c, r)
          end
      end
  end.

Record ReadResult := mkReadResult { rr_count : Z; rr_missed : Z }.

Definition read_batch (fuel room : nat) (r : Ring) (c : Cursor)
  : option (ReadResult * list Frame * Cursor * Ring) :=
  match read_loop fuel room r c with
  | Some (fs, c', r') =>
      Some (mkReadResult (Z.of_nat (length fs)) (u64 (missed c' - missed c)), fs, c', r')
  | None => None
  end.

Definition attach (r : Ring) : Cursor := mkCursor (oldest (capacity_ r) (write_pos_ r)) 0.

Definition ring_close (r : Ring) : Ring :=
  mkRing (capacity_ r) (mask_ r) (write_pos_ r) (claim_retries_ r) (inconsistent_reads_ r)
         true (cells_ r).

Definition ring_closed (r : Ring) : bool := ring_closed_ r.

(** ** Words and frames *)

Lemma words_frame_words f : frame_wf f → words_frame (frame_words f) = f.
Proof.
  destruct f as [sq tk ti id src ln fl rs d].
  intros (Hsq & Htk & Hti & Hid & Hsrc & Hln & Hfl & Hrs & Hd & Hb). simpl in *.
  unfold words_frame, frame_words, fits in *. simpl nth. cbn [f_seq f_t_kernel_ns f_t_ingest_ns f_can_id
    f_src_id f_len f_flags f_reserved f_data] in *.
  change (2 ^ 40) with 1099511627776. change (2 ^ 48) with 281474976710656.
  change (2 ^ 56) with 72057594037927936. pow_consts.
  f_equal; [zmod..|]. rewrite <- Hd. by apply le_bytes_value.
Qed.

Lemma words_frame_ticket pos f : frame_wf f → words_frame (ticket_words pos f) = set_seq pos f.
Proof.
  intros Hwf. rewrite <- (words_frame_words f Hwf) at 2. done.
Qed.

Lemma length_ticket_words pos f : length (ticket_words pos f) = kFrameWords.
Proof. done. Qed.

(** ** Rounding the capacity *)

Lemma pow_exponent_le k v : (k = 0 ∨ 2 ^ (k - 1) < v) → v <= 2 ^ 63 → k <= 63.
Proof.
  intros [->|Hlow] Hv; [lia|]. apply Z.nlt_ge. intros Hk.
  assert (2 ^ 63 <= 2 ^ (k - 1)) by (apply Z.pow_le_mono_r; lia). lia.
Qed.

Lemma round_up_loop_spec fuel k v :
  0 <= k → k + Z.of_nat fuel <= 64 → 1 <= v <= 2 ^ (k + Z.of_nat fuel) →
  v <= 2 ^ 63 → (k = 0 ∨ 2 ^ (k - 1) < v) →
  ∃ j, round_up_loop fuel (2 ^ k) v = Some (2 ^ j) ∧ k <= j <= 63 ∧
       v <= 2 ^ j ∧ (j = 0 ∨ 2 ^ (j - 1) < v).
Proof.
  revert k. induction fuel as [|fuel IH]; intros k Hk Hf Hv Hv63 Hlow; simpl.
  - replace (k + Z.of_nat 0) with k in Hv by lia.
    destruct (Z.ltb_spec (2 ^ k) v); [lia|]. exists k. split; [done|].
    split; [|split; [lia|done]]. split; [lia|].
    by apply (pow_exponent_le k v).
  - destruct (Z.ltb_spec (2 ^ k) v) as [Hlt|Hge].
    + assert (k < 63) as Hk63 by (apply (Z.pow_lt_mono_r_iff 2); lia).
      assert (u64 (2 ^ k ≪ 1) = 2 ^ (k + 1)) as ->.
      { rewrite Z.shiftl_mul_pow2 by lia. rewrite Z.pow_add_r by lia.
        apply u64_small. split; [lia|]. change (2 ^ 64) with (2 ^ 63 * 2 ^ 1).
        apply Z.mul_lt_mono_pos_r; [lia|]. apply Z.pow_lt_mono_r; lia. }
      destruct (IH (k + 1)) as (j & Hj); try lia.
      { by replace (k + 1 + Z.of_nat fuel) with (k + Z.of_nat (S fuel)) by lia. }
      { right. by replace (k + 1 - 1) with k by lia. }
      exists j. split; [apply Hj|]. split; [lia|apply Hj].
    + exists k. split; [done|]. split; [|split; [lia|done]]. split; [lia|].
      by apply (pow_exponent_le k v).
Qed.

Lemma round_up_pow2_spec v :
  1 <= v <= 2 ^ 63 →
  ∃ j, round_up_pow2 v = Some (2 ^ j) ∧ 0 <= j <= 63 ∧ v <= 2 ^ j ∧ (j = 0 ∨ 2 ^ (j - 1) < v).
Proof.
  intros Hv. apply (round_up_loop_spec 64 0 v); simpl; pow_consts; lia.
Qed.

(** The shape of a constructed ring. *)
Record ring_shape (cap mask : Z) (cells : list Cell) : Prop := {
  shape_pow : ∃ k, 1 <= k <= 63 ∧ cap = 2 ^ k;
  shape_mask : mask = cap - 1;
  shape_cells : length cells = Z.to_nat cap
}.

Lemma make_ring_shape capacity :
  0 <= capacity <= 2 ^ 63 →
  ∃ r, make_ring capacity = Some r ∧ ring_shape (capacity_ r) (mask_ r) (cells_ r) ∧
       Z.max 2 capacity <= capacity_ r ∧ capacity_ r < 2 * Z.max 2 capacity ∧
       write_pos_ r = 0 ∧ cells_ r = replicate (Z.to_nat (capacity_ r)) inhabitant.
Proof.
  intros Hc. unfold make_ring.
  set (v := if capacity <? 2 then 2 else capacity).
  assert (v = Z.max 2 capacity) as Hv by (unfold v; destruct (Z.ltb_spec capacity 2); lia).
  destruct (round_up_pow2_spec v) as (j & -> & Hj & Hle & Hlow); [pow_consts; lia|].
  assert (1 <= j) as Hj1.
  { destruct (Z.eq_dec j 0) as [->|]; [simpl in Hle; lia|lia]. }
  eexists. split; [done|]. simpl. rewrite <- Hv. split; [|split; [done|split; [|done]]].
  - constructor; simpl; [exists j; lia|done|by rewrite length_replicate].
  - destruct Hlow as [->|Hlow]; [lia|].
    replace j with (Z.succ (j - 1)) by lia. rewrite Z.pow_succ_r by lia. lia.
Qed.

Section Index.
Context {cap mask : Z} {cells : list Cell} (Hshape : ring_shape cap mask cells).

Lemma shape_bounds : 2 <= cap <= 2 ^ 63.
Proof.
  destruct Hshape as [(k & Hk & ->) _ _]. split.
  - change 2 with (2 ^ 1) at 1. apply Z.pow_le_mono_r; lia.
  - apply Z.pow_le_mono_r; lia.
Qed.

Lemma cell_index_mod pos : 0 <= pos → cell_index mask pos = Z.to_nat (pos mod cap).
Proof.
  intros Hp. unfold cell_index. destruct Hshape as [(k & Hk & ->) -> _]. f_equal.
  replace (2 ^ k - 1) with (Z.ones k) by (rewrite Z.ones_equiv; lia).
  apply Z.land_ones. lia.
Qed.

Lemma cell_index_lt pos : 0 <= pos → (cell_index mask pos < length cells)%nat.
Proof.
  intros Hp. rewrite cell_index_mod by done. rewrite (shape_cells _ _ _ Hshape).
  pose proof shape_bounds. pose proof (Z.mod_pos_bound pos cap). lia.
Qed.

Lemma cell_index_eq p q :
  0 <= p → 0 <= q → cell_index mask p = cell_index mask q ↔ p mod cap = q mod cap.
Proof.
  intros Hp Hq. rewrite !cell_index_mod by done. pose proof shape_bounds.
  pose proof (Z.mod_pos_bound p cap). pose proof (Z.mod_pos_bound q cap). lia.
Qed.

(** Two positions of one cell are a whole number of laps apart. *)
Lemma same_cell_lap p q : p mod cap = q mod cap → p < q → p + cap <= q.
Proof.
  intros E H. pose proof shape_bounds.
  assert ((q - p) mod cap = 0) as Hz.
  { rewrite Zminus_mod, E, Z.sub_diag. apply Z.mod_0_l. lia. }
  destruct (Z.lt_ge_cases (q - p) cap); [rewrite Z.mod_small in Hz; lia|lia].
Qed.
End Index.

(** ** The ring holds a log

    Between calls the ring holds the last [capacity] frames of everything ever
    published: position [p] of the log is in its cell with the published word. *)
Definition log_bound : Z := 2 ^ 62.

Definition stored (log : list Frame) (p : Z) : Cell :=
  mkCell (2 * p + 2) (ticket_words p (log !!! Z.to_nat p)).

Record cells_hold (cap mask : Z) (cells : list Cell) (log : list Frame) : Prop := {
  ch_shape : ring_shape cap mask cells;
  ch_live : ∀ p, 0 <= p → Z.of_nat (length log) - cap <= p < Z.of_nat (length log) →
            cells !!! cell_index mask p = stored log p;
  ch_fresh : ∀ p, Z.of_nat (length log) <= p < cap → c_seq (cells !!! cell_index mask p) = 0
}.

Definition ring_holds (r : Ring) (log : list Frame) : Prop :=
  cells_hold (capacity_ r) (mask_ r) (cells_ r) log ∧
  write_pos_ r = Z.of_nat (length log) ∧ Z.of_nat (length log) < log_bound.

(** Frames [from .. from + n) of the log as a reader receives them. *)
Definition log_window (log : list Frame) (from : Z) (n : nat) : list Frame :=
  map (λ i, set_seq (from + Z.of_nat i) (log !!! Z.to_nat (from + Z.of_nat i))) (seq 0 n).

Lemma make_ring_holds capacity r :
  0 <= capacity <= 2 ^ 63 → make_ring capacity = Some r → ring_holds r [].
Proof.
  intros Hc Hr. destruct (make_ring_shape capacity Hc) as (r' & Hr' & Hs & _ & _ & Hw & Hcells).
  assert (r' = r) as -> by congruence. split; [|by rewrite Hw].
  constructor; [done|simpl; lia|]. intros p Hp. simpl in Hp.
  pose proof (cell_index_lt Hs p ltac:(lia)) as Hi. rewrite Hcells, length_replicate in Hi.
  by rewrite Hcells, lookup_total_replicate_2.
Qed.

Lemma stored_app log f p :
  0 <= p < Z.of_nat (length log) → stored (log ++ [f]) p = stored log p.
Proof. intros Hp. unfold stored. by rewrite lookup_total_app_l by lia. Qed.

Lemma write_at_holds pos f r log :
  cells_hold (capacity_ r) (mask_ r) (cells_ r) log →
  pos = Z.of_nat (length log) → pos < log_bound →
  ∃ r', write_at pos f r = Some r' ∧ write_pos_ r' = write_pos_ r ∧
        capacity_ r' = capacity_ r ∧
        cells_hold (capacity_ r') (mask_ r') (cells_ r') (log ++ [f]).
Proof.
  intros [Hs Hlive Hfresh] -> Hb. unfold log_bound in Hb. unfold write_at.
  set (n := Z.of_nat (length log)) in *. pose proof (shape_bounds Hs) as Hcap.
  assert (c_seq (cells_ r !!! cell_index (mask_ r) n) = expected_seq (capacity_ r) n) as E.
  { unfold expected_seq. destruct (Z.ltb_spec n (capacity_ r)); [apply Hfresh; lia|].
    assert (cell_index (mask_ r) n = cell_index (mask_ r) (n - capacity_ r)) as ->.
    { apply (cell_index_eq Hs); [lia|lia|].
      rewrite <- (Z_mod_plus_full (n - capacity_ r) 1). f_equal. lia. }
    rewrite Hlive by lia. simpl. by rewrite u64_small by (unfold fits; pow_consts; lia). }
  rewrite E, Z.eqb_refl. eexists. split; [done|]. simpl. split; [done|]. split; [done|].
  assert (published_seq n = 2 * n + 2) as Hpub.
  { unfold published_seq. apply u64_small. unfold fits; pow_consts; lia. }
  constructor; simpl.
  - destruct Hs. constructor; [done..|]. by rewrite length_insert.
  - intros p Hp. rewrite length_app. simpl. intros Hw.
    destruct (decide (p = n)) as [->|Hne].
    + rewrite list_lookup_total_insert_eq by (apply (cell_index_lt Hs); lia).
      unfold stored. rewrite Hpub. unfold n. rewrite Nat2Z.id.
      by rewrite lookup_total_app_r, Nat.sub_diag by done.
    + rewrite list_lookup_total_insert_ne.
      * rewrite stored_app by lia. apply Hlive; lia.
      * rewrite (cell_index_eq Hs) by lia. intros Em.
        pose proof (same_cell_lap Hs p n ltac:(lia)). lia.
  - intros p. rewrite length_app. simpl. intros Hw.
    rewrite list_lookup_total_insert_ne; [apply Hfresh; lia|].
    rewrite (cell_index_eq Hs), !Z.mod_small by lia. lia.
Qed.

Lemma write_all_holds frames pos r log :
  cells_hold (capacity_ r) (mask_ r) (cells_ r) log →
  pos = Z.of_nat (length log) → pos + Z.of_nat (length frames) < log_bound →
  ∃ r', write_all pos frames r = Some r' ∧ write_pos_ r' = write_pos_ r ∧
        capacity_ r' = capacity_ r ∧
        cells_hold (capacity_ r') (mask_ r') (cells_ r') (log ++ frames).
Proof.
  revert pos r log. induction frames as [|f fs IH]; intros pos r log Hh Hpos Hb; simpl.
  { exists r. by rewrite app_nil_r. }
  simpl in Hb. destruct (write_at_holds pos f r log Hh Hpos) as (r1 & -> & Hw1 & Hc1 & Hh1); [lia|].
  unfold log_bound in *. rewrite u64_small by (unfold fits; pow_consts; lia).
  destruct (IH (pos + 1) r1 (log ++ [f]) Hh1) as (r2 & H2 & Hw2 & Hc2 & Hh2).
  { rewrite length_app. simpl. lia. }
  { lia. }
  exists r2. rewrite <- app_assoc in Hh2. split; [done|]. split; [congruence|].
  split; [congruence|done].
Qed.

Lemma publish_batch_holds frames r log :
  ring_holds r log → Z.of_nat (length log + length frames) < log_bound →
  ∃ r', publish_batch frames r = Some (r', Z.of_nat (length log)) ∧
        capacity_ r' = capacity_ r ∧ ring_holds r' (log ++ frames).
Proof.
  intros (Hh & Hw & Hb) Hlen. unfold publish_batch.
  destruct frames as [|f fs].
  { exists r. rewrite app_nil_r, Hw. done. }
  set (r1 := set_write_pos r _).
  destruct (write_all_holds (f :: fs) (write_pos_ r) r1 log) as (r' & Hr & Hw' & Hc' & Hh');
    [done|done|rewrite Hw; lia|].
  rewrite Hr. exists r'. rewrite Hw. split; [done|]. split; [done|].
  split; [done|]. rewrite Hw', length_app. unfold r1. simpl write_pos_. unfold log_bound in *.
  split; [|lia]. rewrite Hw, u64_small; simpl in *; unfold fits; pow_consts; lia.
Qed.

(** The three outcomes of a read, by where the cursor is. *)
Lemma try_read_empty r log c :
  ring_holds r log → next c = Z.of_nat (length log) →
  try_read r c = (ReadStatus.kEmpty, c, None, r).
Proof.
  intros ([Hs Hlive Hfresh] & Hw & Hb) Hn. unfold try_read. pose proof (shape_bounds Hs).
  set (n := Z.of_nat (length log)) in *. unfold log_bound in Hb.
  destruct (Z.lt_ge_cases n (capacity_ r)).
  - rewrite Hfresh by lia. done.
  - assert (cell_index (mask_ r) (next c) = cell_index (mask_ r) (n - capacity_ r)) as ->.
    { apply (cell_index_eq Hs); [lia|lia|].
      rewrite <- (Z_mod_plus_full (n - capacity_ r) 1). f_equal. lia. }
    rewrite Hlive by lia. simpl c_seq.
    destruct (Z.eqb_spec (2 * (n - capacity_ r) + 2) 0); [done|].
    replace ((2 * (n - capacity_ r) + 2 - 1) / 2) with (n - capacity_ r) by zmod.
    destruct (Z.ltb_spec (n - capacity_ r) (next c)); [done|lia].
Qed.

Lemma land_even p : Z.land (2 * p + 2) 1 = 0.
Proof.
  change 1 with (Z.ones 1). rewrite Z.land_ones by lia. change (2 ^ 1) with 2. zmod.
Qed.

Lemma try_read_ok r log c :
  ring_holds r log → Forall frame_wf log → 0 <= next c →
  Z.of_nat (length log) - capacity_ r <= next c < Z.of_nat (length log) →
  try_read r c = (ReadStatus.kOk, mkCursor (next c + 1) (missed c),
                  Some (set_seq (next c) (log !!! Z.to_nat (next c))), r).
Proof.
  intros ([Hs Hlive Hfresh] & Hw & Hb) Hwf H0 Hn. unfold try_read, log_bound in *.
  rewrite Hlive by lia. simpl c_seq.
  destruct (Z.eqb_spec (2 * next c + 2) 0); [lia|].
  replace ((2 * next c + 2 - 1) / 2) with (next c) by zmod.
  rewrite Z.ltb_irrefl, Z.gtb_ltb, Z.ltb_irrefl, land_even, !Z.eqb_refl. simpl negb.
  cbv iota. simpl c_words. simpl nth. rewrite ?Z.eqb_refl. simpl negb. cbv iota.
  rewrite u64_small by (unfold fits; pow_consts; lia). do 3 f_equal.
  rewrite words_frame_ticket; [done|].
  eapply Forall_forall in Hwf; [exact Hwf|].
  apply list_elem_of_lookup_total_2. lia.
Qed.

Lemma try_read_lapped r log c :
  ring_holds r log → 0 <= next c < Z.of_nat (length log) - capacity_ r →
  try_read r c
  = (ReadStatus.kLapped,
     mkCursor (Z.of_nat (length log) - capacity_ r)
              (u64 (missed c + (Z.of_nat (length log) - capacity_ r - next c))), None, r).
Proof.
  intros ([Hs Hlive Hfresh] & Hw & Hb) Hn. unfold try_read. pose proof (shape_bounds Hs) as Hc.
  set (n := Z.of_nat (length log)) in *.
  set (p := n - capacity_ r + (next c - n) mod capacity_ r).
  pose proof (Z.mod_pos_bound (next c - n) (capacity_ r) ltac:(lia)).
  assert (cell_index (mask_ r) (next c) = cell_index (mask_ r) p) as ->.
  { apply (cell_index_eq Hs); [lia|lia|]. unfold p.
    rewrite Zplus_mod_idemp_r. rewrite <- (Z_mod_plus_full (n - capacity_ r + (next c - n)) 1).
    f_equal. lia. }
  rewrite Hlive by lia. simpl c_seq.
  destruct (Z.eqb_spec (2 * p + 2) 0); [lia|].
  replace ((2 * p + 2 - 1) / 2) with p by zmod.
  destruct (Z.ltb_spec p (next c)); [lia|].
  rewrite Z.gtb_ltb. destruct (Z.ltb_spec (next c) p); [|lia].
  unfold oldest, lap. rewrite Hw. fold n. rewrite !Z.gtb_ltb.
  destruct (Z.ltb_spec (capacity_ r) n); [|lia].
  destruct (Z.ltb_spec (next c) (n - capacity_ r)); [done|lia].
Qed.

Lemma log_window_S log from n :
  log_window log from (S n) = set_seq from (log !!! Z.to_nat from) :: log_window log (from + 1) n.
Proof.
  unfold log_window. simpl. rewrite Z.add_0_r. f_equal.
  rewrite <- (seq_shift n 0), map_map. apply map_ext. intros i.
  by replace (from + Z.of_nat (S i)) with (from + 1 + Z.of_nat i) by lia.
Qed.

Lemma read_loop_live r log c room fuel :
  ring_holds r log → Forall frame_wf log → 0 <= next c →
  Z.of_nat (length log) - capacity_ r <= next c <= Z.of_nat (length log) →
  (room < fuel)%nat →
  let n := Nat.min room (Z.to_nat (Z.of_nat (length log) - next c)) in
  read_loop fuel room r c
  = Some (log_window log (next c) n, mkCursor (next c + Z.of_nat n) (missed c), r).
Proof.
  intros Hh Hwf. revert c room. induction fuel as [|fuel IH]; intros c room H0 Hn Hf; [lia|].
  destruct room as [|room].
  { simpl. destruct fuel; simpl; rewrite Z.add_0_r; by destruct c. }
  cbn [read_loop]. destruct (Z.eq_dec (next c) (Z.of_nat (length log))) as [E|E].
  { rewrite (try_read_empty r log) by done. rewrite E, Z.sub_diag. simpl.
    rewrite Z.add_0_r, <- E. by destruct c. }
  rewrite (try_read_ok r log) by (done || lia).
  rewrite (IH (mkCursor (next c + 1) (missed c)) room) by (simpl; lia). simpl next. simpl missed.
  replace (Z.to_nat (Z.of_nat (length log) - next c))
    with (S (Z.to_nat (Z.of_nat (length log) - (next c + 1)))) by lia.
  rewrite <- Nat.succ_min_distr, log_window_S. do 3 f_equal. f_equal. lia.
Qed.

(** Where a reader resumes: its own position, or the oldest frame still held. *)
Definition resume (r : Ring) (log : list Frame) (c : Cursor) : Z :=
  Z.max (next c) (Z.of_nat (length log) - capacity_ r).

Lemma read_loop_spec r log c room fuel :
  ring_holds r log → Forall frame_wf log → 0 <= next c <= Z.of_nat (length log) →
  (0 < room)%nat → (room + 1 < fuel)%nat → fits 64 (missed c) →
  let from := resume r log c in
  let n := Nat.min room (Z.to_nat (Z.of_nat (length log) - from)) in
  read_loop fuel room r c
  = Some (log_window log from n,
          mkCursor (from + Z.of_nat n) (u64 (missed c + (from - next c))), r).
Proof.
  intros Hh Hwf Hn Hroom Hf Hm. unfold resume.
  pose proof Hh as ([Hs _ _] & _). pose proof (shape_bounds Hs) as Hcap.
  destruct (Z.lt_ge_cases (next c) (Z.of_nat (length log) - capacity_ r)) as [Hlt|Hge].
  - rewrite Z.max_r by lia. destruct fuel as [|fuel]; [lia|]. destruct room as [|room]; [lia|].
    cbn [read_loop]. rewrite (try_read_lapped r log) by (done || lia).
    rewrite (read_loop_live r log) by (done || simpl; lia). done.
  - rewrite Z.max_l by lia. rewrite (read_loop_live r log) by (done || lia).
    by rewrite Z.sub_diag, Z.add_0_r, u64_small.
Qed.

(** ** Properties *)

(** The constructor terminates for every capacity up to 2^63 and rounds it up to
    the least power of two at or above [max 2 capacity], so masking a position is
    reduction modulo the capacity and always a valid cell index. *)
Theorem ring_capacity_rounding capacity :
  0 <= capacity <= 2 ^ 63 →
  ∃ r k, make_ring capacity = Some r ∧ capacity_ r = 2 ^ k ∧ 1 <= k <= 63 ∧
         Z.max 2 capacity <= capacity_ r < 2 * Z.max 2 capacity ∧
         ∀ pos, 0 <= pos → cell_index (mask_ r) pos = Z.to_nat (pos mod capacity_ r) ∧
                           (cell_index (mask_ r) pos < length (cells_ r))%nat.
Proof.
  intros Hc. destruct (make_ring_shape capacity Hc) as (r & Hr & Hs & Hlo & Hhi & _).
  destruct (shape_pow _ _ _ Hs) as (k & Hk & E). exists r, k.
  repeat split; try done; try lia; [by apply (cell_index_mod Hs)|by apply (cell_index_lt Hs)].
Qed.

(** Sequential specification of the ring. Publishing a batch returns the first
    ticket and extends the log the ring holds; a later [read_batch] with room for
    [room] frames then returns, in order and with their tickets as sequence numbers,
    exactly the frames from the reader's position (or from the oldest one still held
    when it was lapped), reports precisely how many it missed, and leaves the ring
    unchanged. [room + 2] iterations always suffice. *)
Theorem ring_publish_read r log frames c room :
  ring_holds r log → Forall frame_wf (log ++ frames) →
  Z.of_nat (length log + length frames) < log_bound →
  0 <= next c <= Z.of_nat (length log) → fits 64 (missed c) → (0 < room)%nat →
  ∃ r', publish_batch frames r = Some (r', Z.of_nat (length log)) ∧
        ring_holds r' (log ++ frames) ∧
        let from := resume r' (log ++ frames) c in
        let n := Nat.min room (Z.to_nat (Z.of_nat (length (log ++ frames)) - from)) in
        read_batch (room + 2) room r' c
        = Some (mkReadResult (Z.of_nat n) (from - next c), log_window (log ++ frames) from n,
                mkCursor (from + Z.of_nat n) (u64 (missed c + (from - next c))), r').
Proof.
  intros Hh Hwf Hlen Hn Hm Hroom.
  destruct (publish_batch_holds frames r log Hh Hlen) as (r' & Hr & Hc & Hh').
  exists r'. split; [done|]. split; [done|]. unfold read_batch.
  assert (0 <= next c <= Z.of_nat (length (log ++ frames))) as Hn'
    by (rewrite length_app; lia).
  pose proof Hh' as ([Hs _ _] & _ & Hb). pose proof (shape_bounds Hs).
  rewrite (read_loop_spec r' (log ++ frames)) by (done || lia). simpl missed.
  do 4 f_equal. f_equal.
  - unfold log_window. by rewrite length_map, length_seq.
  - unfold resume, log_bound in *.
    assert (∀ d, 0 <= d < 2 ^ 64 → u64 (u64 (missed c + d) - missed c) = d) as Hd
      by (intros d; u64_eq).
    apply Hd. pow_consts. lia.
Qed.

(** ** Witnesses *)

Lemma ring_capacity_rounding_witness :
  ∃ r, make_ring 1000 = Some r ∧ Z.max 2 1000 <= capacity_ r < 2 * Z.max 2 1000.
Proof.
  destruct (ring_capacity_rounding 1000) as (r & k & H & _ & _ & Hb & _); [lia|]. by exists r.
Defined.

Definition demo_frame (id : Z) : Frame := mkFrame 0 5 6 id 1 8 0 0 [1; 2; 3; 4; 5; 6; 7; 8].

Definition demo_ring : Ring := default (mkRing 0 0 0 0 0 false []) (make_ring 2).

Lemma demo_ring_holds : ring_holds demo_ring [].
Proof. apply (make_ring_holds 2); [lia|reflexivity]. Defined.

Lemma ring_publish_read_witness :
  ∃ r', publish_batch (map demo_frame [10; 11; 12]) demo_ring = Some (r', 0) ∧
        read_batch 7 5 r' (mkCursor 0 0)
        = Some (mkReadResult 2 1, [set_seq 1 (demo_frame 11); set_seq 2 (demo_frame 12)],
                mkCursor 3 1, r').
Proof.
  destruct (ring_publish_read demo_ring [] (map demo_frame [10; 11; 12]) (mkCursor 0 0) 5)
    as (r' & H1 & Hh & H2);
    [apply demo_ring_holds|apply (bool_decide_unpack _); by vm_compute|done|done|done|lia|].
  exists r'. split; [done|].
  assert (capacity_ r' = 2) as Hc.
  { revert H1. vm_compute. intros [= <-]. done. }
  unfold resume in H2. rewrite Hc in H2. exact H2.
Defined.
