(* ===== verification/RingConc.v ===== *)
(** * RingConc: the broadcast ring under interleaving (src/src/broadcast_ring.hpp)

    Every access [publish], [publish_batch], [write_at], [try_read], [lap] and
    [attach] make to shared memory is one step of a transition system over M
    producers and N readers, interleaved arbitrarily (sequentially consistent
    accesses; RingWeak looks at the C++ orderings). Proved for every state
    reachable in this sense: a cell has one writer at a time, no read is torn, the
    [inconsistent_reads] detector never fires, readers account for every position,
    readers never disturb writers, and writers can always finish. *)

From S2P Require Import Prelude Frame BroadcastRing.

(** ** Threads *)

(** Where a producer is inside [publish_batch]: idle; at the compare-exchange for
    frame [i] of its batch; or past it, about to store word [k] ([k = 5] is the
    publishing store of the sequence word). [publish] is the batch of one frame. *)
Inductive Producer :=
  | PIdle
  | PClaim (base : Z) (i : nat) (frames : list Frame)
  | PStore (base : Z) (i : nat) (frames : list Frame) (k : nat).

#[export] Instance Producer_eq_dec : EqDecision Producer.
Proof. solve_decision. Defined.

(** Where a reader is inside [try_read]: before the first load of the sequence
    word; copying the payload, having loaded [s1]; or inside [lap]. *)
Inductive RPhase :=
  | RIdle
  | RCopy (s1 : Z) (words : list Z)
  | RLap.

Record Reader := mkReader {
  r_phase : RPhase;
  r_cursor : Cursor;
  r_start : Z;          (* where the cursor attached *)
  r_out : list Frame    (* frames returned so far *)
}.

Record RState := mkRState {
  rs_cap : Z;
  rs_mask : Z;
  rs_wpos : Z;
  rs_cells : list Cell;
  rs_retries : Z;
  rs_incons : Z;
  rs_prods : list Producer;
  rs_readers : list Reader;
  rs_log : list Frame   (* ghost: frame of every ticket handed out *)
}.

Inductive REvent :=
  | EvPublish (a : nat) (frames : list Frame)
  | EvProd (a : nat)
  | EvRead (b : nat)
  | EvAttach (b : nat).

Definition rs_cell (s : RState) (pos : Z) : Cell := rs_cells s !!! cell_index (rs_mask s) pos.

Definition set_prod (s : RState) (a : nat) (p : Producer) : RState :=
  mkRState (rs_cap s) (rs_mask s) (rs_wpos s) (rs_cells s) (rs_retries s) (rs_incons s)
           (<[a := p]> (rs_prods s)) (rs_readers s) (rs_log s).

Definition set_rcell (s : RState) (pos : Z) (c : Cell) : RState :=
  mkRState (rs_cap s) (rs_mask s) (rs_wpos s)
           (<[cell_index (rs_mask s) pos := c]> (rs_cells s)) (rs_retries s) (rs_incons s)
           (rs_prods s) (rs_readers s) (rs_log s).

Definition set_reader (s : RState) (b : nat) (r : Reader) : RState :=
  mkRState (rs_cap s) (rs_mask s) (rs_wpos s) (rs_cells s) (rs_retries s) (rs_incons s)
           (rs_prods s) (<[b := r]> (rs_readers s)) (rs_log s).

Definition add_retry (s : RState) : RState :=
  mkRState (rs_cap s) (rs_mask s) (rs_wpos s) (rs_cells s) (u64 (rs_retries s + 1))
           (rs_incons s) (rs_prods s) (rs_readers s) (rs_log s).

Definition add_incons (s : RState) : RState :=
  mkRState (rs_cap s) (rs_mask s) (rs_wpos s) (rs_cells s) (rs_retries s)
           (u64 (rs_incons s + 1)) (rs_prods s) (rs_readers s) (rs_log s).

(** The [fetch_add] of [publish_batch]: one ticket per frame. *)
Definition take_tickets (s : RState) (a : nat) (frames : list Frame) : RState :=
  mkRState (rs_cap s) (rs_mask s) (u64 (rs_wpos s + Z.of_nat (length frames))) (rs_cells s)
           (rs_retries s) (rs_incons s) (<[a := PClaim (rs_wpos s) 0 frames]> (rs_prods s))
           (rs_readers s) (rs_log s ++ frames).

(** One shared access of producer [a]. *)
Definition prod_step (s : RState) (a : nat) (p : Producer) : option RState :=
  match p with
  | PIdle => None
  | PClaim base i frames =>
      let pos := u64 (base + Z.of_nat i) in
      let c := rs_cell s pos in
      if c_seq c =? expected_seq (rs_cap s) pos
      then Some (set_prod (set_rcell s pos (mkCell (claimed_seq pos) (c_words c))) a
                          (PStore base i frames 0))
      else Some (add_retry s)
  | PStore base i frames k =>
      let pos := u64 (base + Z.of_nat i) in
      let c := rs_cell s pos in
      if (k <? kFrameWords)%nat
      then
        let w := ticket_words pos (frames !!! i) !!! k in
        Some (set_prod (set_rcell s pos (mkCell (c_seq c) (<[k := w]> (c_words c)))) a
                       (PStore base i frames (S k)))
      else
        Some (set_prod (set_rcell s pos (mkCell (published_seq pos) (c_words c))) a
                       (if (S i <? length frames)%nat then PClaim base (S i) frames else PIdle))
  end.

(** One shared access of reader [b]. *)
Definition read_step (s : RState) (b : nat) (r : Reader) : RState :=
  let cur := r_cursor r in
  let c := rs_cell s (next cur) in
  let goto ph := set_reader s b (mkReader ph cur (r_start r) (r_out r)) in
  match r_phase r with
  | RIdle =>
      let s1 := c_seq c in
      if s1 =? 0 then goto RIdle
      else
        let cell_pos := (s1 - 1) / 2 in
        if cell_pos <? next cur then goto RIdle
        else if cell_pos >? next cur then goto RLap
        else if negb (Z.land s1 1 =? 0) then goto RIdle
        else goto (RCopy s1 [])
  | RCopy s1 words =>
      if (length words <? kFrameWords)%nat
      then goto (RCopy s1 (words ++ [c_words c !!! length words]))
      else
        let s2 := c_seq c in
        if negb (s2 =? s1) then goto RLap
        else if negb (nth 0 words 0 =? next cur)
        then add_incons (goto RLap)
        else set_reader s b
               (mkReader RIdle (mkCursor (u64 (next cur + 1)) (missed cur)) (r_start r)
                         (r_out r ++ [words_frame words]))
  | RLap =>
      set_reader s b (mkReader RIdle (lap (oldest (rs_cap s) (rs_wpos s)) cur) (r_start r) (r_out r))
  end.

(** One access of one thread, at once seen by all of them: the memory orders of the source
    are those of RingWeak. *)
Definition ring_step (s : RState) (e : REvent) : option RState :=
  match e with
  | EvPublish a frames =>
      match rs_prods s !! a, frames with
      | Some PIdle, _ :: _ =>
          if bool_decide (Forall frame_wf frames) then Some (take_tickets s a frames) else None
      | _, _ => None
      end
  | EvProd a => match rs_prods s !! a with Some p => prod_step s a p | None => None end
  | EvRead b => match rs_readers s !! b with Some r => Some (read_step s b r) | None => None end
  | EvAttach b =>
      match rs_readers s !! b with
      | Some r =>
          match r_phase r with
          | RIdle =>
              let o := oldest (rs_cap s) (rs_wpos s) in
              Some (set_reader s b (mkReader RIdle (mkCursor o 0) o []))
          | _ => None
          end
      | None => None
      end
  end.

(** [m] producers and [n] readers on a fresh ring. *)
Definition ring_init (r : Ring) (m n : nat) : RState :=
  mkRState (capacity_ r) (mask_ r) (write_pos_ r) (cells_ r) 0 0
           (replicate m PIdle) (replicate n (mkReader RIdle (mkCursor 0 0) 0 [])) [].

Definition ring_reachable (capacity : Z) (m n : nat) (s : RState) : Prop :=
  ∃ r, make_ring capacity = Some r ∧ reachable ring_step (ring_init r m n) s.

(** ** Invariant *)

(** Positions a producer holds a ticket for and has not published yet. *)
Definition owns (p : Producer) (pos : Z) : Prop :=
  match p with
  | PIdle => False
  | PClaim base i frames | PStore base i frames _ =>
      base + Z.of_nat i <= pos < base + Z.of_nat (length frames)
  end.

(** The position a producer is storing into its claimed cell. *)
Definition storing (p : Producer) (pos : Z) : Prop :=
  match p with PStore base i _ _ => pos = base + Z.of_nat i | _ => False end.

(** A producer's batch is the slice of the log its tickets name. *)
Definition batch_ok (log : list Frame) (p : Producer) : Prop :=
  match p with
  | PIdle => True
  | PClaim base i frames | PStore base i frames _ =>
      0 <= base ∧ (i < length frames)%nat ∧
      base + Z.of_nat (length frames) <= Z.of_nat (length log) ∧
      ∀ j, (j < length frames)%nat → log !!! (Z.to_nat base + j)%nat = frames !!! j
  end.

Definition seq_at (s : RState) (p : Z) : Z := c_seq (rs_cell s p).

(** What the sequence word of a cell can be, and what it says about the words. *)
Definition cell_inv (s : RState) (q : Z) : Prop :=
  length (c_words (rs_cell s q)) = kFrameWords ∧
  (seq_at s q = 0 ∨
   ∃ p, 0 <= p < Z.of_nat (length (rs_log s)) ∧ p mod rs_cap s = q mod rs_cap s ∧
        (seq_at s q = 2 * p + 1 ∨
         seq_at s q = 2 * p + 2 ∧ c_words (rs_cell s q) = ticket_words p (rs_log s !!! Z.to_nat p))).

(** A frame a reader returned is the logged frame of its own sequence number. *)
Definition out_ok (log : list Frame) (f : Frame) : Prop :=
  0 <= f_seq f < Z.of_nat (length log) ∧ f = set_seq (f_seq f) (log !!! Z.to_nat (f_seq f)).

Definition reader_inv (s : RState) (r : Reader) : Prop :=
  let n := next (r_cursor r) in
  0 <= r_start r ∧ 0 <= missed (r_cursor r) ∧
  n = r_start r + Z.of_nat (length (r_out r)) + missed (r_cursor r) ∧
  n <= Z.of_nat (length (rs_log s)) ∧
  Forall (out_ok (rs_log s)) (r_out r) ∧ Forall (λ f, r_start r <= f_seq f < n) (r_out r) ∧
  (∀ i j f g, (i < j)%nat → r_out r !! i = Some f → r_out r !! j = Some g → f_seq f < f_seq g) ∧
  match r_phase r with
  | RIdle => True
  | RCopy s1 words =>
      s1 = 2 * n + 2 ∧ (length words <= kFrameWords)%nat ∧ s1 <= seq_at s n ∧
      (seq_at s n = s1 →
       words = take (length words) (ticket_words n (rs_log s !!! Z.to_nat n)))
  | RLap => n + rs_cap s < Z.of_nat (length (rs_log s))
  end.

Record ring_inv (s : RState) : Prop := {
  ri_shape : ring_shape (rs_cap s) (rs_mask s) (rs_cells s);
  ri_wpos : rs_wpos s = Z.of_nat (length (rs_log s));
  ri_wf : Forall frame_wf (rs_log s);
  ri_batch : ∀ a p, rs_prods s !! a = Some p → batch_ok (rs_log s) p;
  ri_disj : ∀ a b pa pb pos, rs_prods s !! a = Some pa → rs_prods s !! b = Some pb →
            owns pa pos → owns pb pos → a = b;
  ri_cells : ∀ q, 0 <= q → cell_inv s q;
  ri_owned : ∀ a p pos, rs_prods s !! a = Some p → owns p pos →
             (storing p pos ∧ seq_at s pos = 2 * pos + 1) ∨
             (¬ storing p pos ∧ seq_at s pos < 2 * pos + 1);
  ri_words : ∀ a base i frames k, rs_prods s !! a = Some (PStore base i frames k) →
             let pos := base + Z.of_nat i in
             (k <= kFrameWords)%nat ∧
             take k (c_words (rs_cell s pos)) = take k (ticket_words pos (frames !!! i));
  ri_done : ∀ pos, 0 <= pos < Z.of_nat (length (rs_log s)) →
            2 * pos + 2 <= seq_at s pos ∨ ∃ a p, rs_prods s !! a = Some p ∧ owns p pos;
  ri_readers : ∀ b r, rs_readers s !! b = Some r → reader_inv s r;
  ri_incons : rs_incons s = 0
}.

Definition in_bound (s : RState) : Prop := Z.of_nat (length (rs_log s)) < log_bound.

(** ** Lemmas on cells *)

Lemma rs_cell_set s pos c q :
  ring_shape (rs_cap s) (rs_mask s) (rs_cells s) → 0 <= pos → 0 <= q →
  rs_cell (set_rcell s pos c) q
  = if decide (pos mod rs_cap s = q mod rs_cap s) then c else rs_cell s q.
Proof.
  intros Hs Hp Hq. unfold rs_cell, set_rcell. simpl.
  pose proof (cell_index_eq Hs pos q Hp Hq) as Hi. case_decide as Hd.
  - rewrite <- (proj2 Hi Hd). apply list_lookup_total_insert_eq. by apply (cell_index_lt Hs).
  - apply list_lookup_total_insert_ne. tauto.
Qed.

(** A sequence word above [2 n + 2] in the cell of [n] names a position at least one
    lap later, so the frame of [n] is out of the ring. *)
Lemma seq_above_lapped s n p :
  ring_inv s → p mod rs_cap s = n mod rs_cap s → 0 <= p < Z.of_nat (length (rs_log s)) →
  n < p → n + rs_cap s < Z.of_nat (length (rs_log s)).
Proof.
  intros Hinv E Hp Hn. pose proof (same_cell_lap (ri_shape _ Hinv) n p). lia.
Qed.

(** A published cell of position [n] holds the frame of ticket [n]. *)
Lemma published_words s n :
  ring_inv s → 0 <= n → seq_at s n = 2 * n + 2 →
  n < Z.of_nat (length (rs_log s)) ∧
  c_words (rs_cell s n) = ticket_words n (rs_log s !!! Z.to_nat n).
Proof.
  intros Hinv Hn Hseq. destruct (ri_cells _ Hinv n Hn) as [_ [H0|(p & Hp & E & [H1|[H1 Hw]])]];
    [lia|lia|]. assert (p = n) as -> by lia. split; [lia|done].
Qed.

(** ** Readers see a monotone ring *)

Lemma out_ok_app log ext f : out_ok log f → out_ok (log ++ ext) f.
Proof.
  intros [Hr Hf]. split; [rewrite length_app; lia|]. by rewrite lookup_total_app_l by lia.
Qed.

Lemma reader_inv_mono s s' r ext :
  (∀ n, 0 <= n → seq_at s n <= seq_at s' n) → rs_cap s' = rs_cap s →
  rs_log s' = rs_log s ++ ext → ring_inv s → reader_inv s r → reader_inv s' r.
Proof.
  intros Hmono Hcap Hlog Hinv (H1 & H2 & H3 & H4 & H5 & H6 & H7 & H8).
  unfold reader_inv. rewrite Hlog, Hcap, length_app.
  repeat (split; [done || lia|]). split; [|split; [done|split; [done|]]].
  - eapply Forall_impl; [exact H5|]. intros f. apply out_ok_app.
  - destruct (r_phase r) as [|s1 words|]; [done| |lia].
    destruct H8 as (-> & Hl & Hge & Hw). set (n := next (r_cursor r)) in *.
    pose proof (Hmono n ltac:(lia)). repeat (split; [done || lia|]).
    intros E. assert (seq_at s n = 2 * n + 2) as E' by lia.
    destruct (published_words s n Hinv ltac:(lia) E') as [Hlt _].
    rewrite lookup_total_app_l by lia. by apply Hw.
Qed.

(** ** Preservation: readers *)

Lemma ring_inv_readers s s' b r :
  ring_inv s → reader_inv s r → rs_incons s' = 0 →
  s' = mkRState (rs_cap s) (rs_mask s) (rs_wpos s) (rs_cells s) (rs_retries s) (rs_incons s')
                (rs_prods s) (<[b := r]> (rs_readers s)) (rs_log s) →
  ring_inv s'.
Proof.
  intros Hinv Hr Hinc ->. destruct Hinv. constructor; try done.
  intros b' r'. simpl. intros Hl. apply list_lookup_insert_Some in Hl as [(-> & -> & _)|[_ Hl]].
  - done.
  - by apply (ri_readers0 b').
Qed.

Lemma reader_inv_phase s r ph :
  reader_inv s r →
  match ph with
  | RIdle => True
  | RCopy s1 words =>
      let n := next (r_cursor r) in
      s1 = 2 * n + 2 ∧ (length words <= kFrameWords)%nat ∧ s1 <= seq_at s n ∧
      (seq_at s n = s1 →
       words = take (length words) (ticket_words n (rs_log s !!! Z.to_nat n)))
  | RLap => next (r_cursor r) + rs_cap s < Z.of_nat (length (rs_log s))
  end →
  reader_inv s (mkReader ph (r_cursor r) (r_start r) (r_out r)).
Proof. intros (H1 & H2 & H3 & H4 & H5 & H6 & H7 & _) Hph. by repeat split. Qed.

Lemma land_odd p : Z.land (2 * p + 1) 1 = 1.
Proof.
  change 1 with (Z.ones 1) at 2. rewrite Z.land_ones by lia. change (2 ^ 1) with 2. zmod.
Qed.

(** First load: the tests on [s1] separate the cases as the protocol intends. *)
Lemma read_first_inv s r :
  ring_inv s → reader_inv s r →
  let n := next (r_cursor r) in
  let s1 := seq_at s n in
  s1 ≠ 0 → n <= (s1 - 1) / 2 →
  ((s1 - 1) / 2 > n → n + rs_cap s < Z.of_nat (length (rs_log s))) ∧
  ((s1 - 1) / 2 = n → Z.land s1 1 = 0 → s1 = 2 * n + 2).
Proof.
  intros Hinv Hr n s1 Hs Hle. destruct Hr as (H1 & H2 & H3 & H4 & _).
  assert (0 <= n) as Hn by (unfold n; lia).
  destruct (ri_cells _ Hinv n Hn) as [_ [H0|(p & Hp & E & Hseq)]]; [done|].
  assert ((s1 - 1) / 2 = p) as Hcp by (unfold s1; destruct Hseq as [->|[-> _]]; zmod).
  rewrite Hcp. split.
  - intros Hgt. apply (seq_above_lapped s n p); try done. lia.
  - intros <- Hev. unfold s1 in *. destruct Hseq as [Ho|[He _]]; [|done].
    rewrite Ho, land_odd in Hev. done.
Qed.

(** Deliver: a validated copy is the frame of the reader's ticket. *)
Lemma read_deliver_inv s r words :
  ring_inv s → in_bound s → reader_inv s r →
  r_phase r = RCopy (2 * next (r_cursor r) + 2) words → length words = kFrameWords →
  seq_at s (next (r_cursor r)) = 2 * next (r_cursor r) + 2 →
  nth 0 words 0 = next (r_cursor r) ∧
  reader_inv s (mkReader RIdle (mkCursor (u64 (next (r_cursor r) + 1)) (missed (r_cursor r)))
                         (r_start r) (r_out r ++ [words_frame words])).
Proof.
  intros Hinv Hb (H1 & H2 & H3 & H4 & H5 & H6 & H7 & H8) Hph Hlen Hseq.
  rewrite Hph in H8. destruct H8 as (_ & _ & _ & Hw). specialize (Hw Hseq).
  unfold in_bound, log_bound in Hb.
  set (n := next (r_cursor r)) in *.
  destruct (published_words s n Hinv ltac:(lia) Hseq) as [Hlt _].
  rewrite Hlen, firstn_all2 in Hw by done. rewrite Hw. split; [done|].
  rewrite u64_small by (unfold fits; pow_consts; lia).
  assert (frame_wf (rs_log s !!! Z.to_nat n)) as Hwf.
  { eapply Forall_forall; [apply (ri_wf _ Hinv)|]. apply list_elem_of_lookup_total_2. lia. }
  rewrite words_frame_ticket by done. set (f := set_seq n _).
  assert (f_seq f = n) as Hf by done.
  unfold reader_inv. simpl. rewrite length_app. simpl. repeat (split; [done || lia|]).
  split; [|split; [|split; [|done]]].
  - apply Forall_app. split; [done|]. constructor; [|done]. split; [rewrite Hf; lia|]. by rewrite Hf.
  - apply Forall_app. split; [|by constructor; [rewrite Hf; lia|]].
    eapply Forall_impl; [exact H6|]. simpl. intros; lia.
  - intros i j g h Hij Hi Hj. apply lookup_app_Some in Hj as [Hj|[Hge Hj]].
    + apply lookup_lt_Some in Hj as Hlj. rewrite lookup_app_l in Hi by lia. eauto.
    + apply list_lookup_singleton_Some in Hj as [Hj0 <-].
      rewrite lookup_app_l in Hi by lia. rewrite Hf.
      eapply Forall_lookup_1 in H6; [|exact Hi]. simpl in H6. lia.
Qed.

(** Lapping skips exactly to the oldest position still in the ring. *)
Lemma lap_exact s r :
  ring_inv s → in_bound s → reader_inv s r → r_phase r = RLap →
  let n := next (r_cursor r) in
  let t := Z.of_nat (length (rs_log s)) - rs_cap s in
  n < t ∧ oldest (rs_cap s) (rs_wpos s) = t ∧
  lap t (r_cursor r) = mkCursor t (missed (r_cursor r) + (t - n)).
Proof.
  intros Hinv Hb (H1 & H2 & H3 & H4 & H5 & H6 & H7 & H8) Hph. rewrite Hph in H8.
  unfold in_bound, log_bound in Hb. pose proof (shape_bounds (ri_shape _ Hinv)).
  cbv zeta. split; [lia|]. rewrite (ri_wpos _ Hinv). unfold oldest, lap. rewrite !Z.gtb_ltb.
  destruct (Z.ltb_spec (rs_cap s) (Z.of_nat (length (rs_log s)))); [|lia]. split; [done|].
  destruct (Z.ltb_spec (next (r_cursor r)) (Z.of_nat (length (rs_log s)) - rs_cap s)); [|lia].
  f_equal. apply u64_small. unfold fits; pow_consts. lia.
Qed.

Lemma read_step_inv s b r :
  ring_inv s → in_bound s → rs_readers s !! b = Some r → ring_inv (read_step s b r).
Proof.
  intros Hinv Hb Hl. pose proof (ri_readers _ Hinv b r Hl) as Hr.
  pose proof (ri_incons _ Hinv) as Hi.
  assert (∀ r', reader_inv s r' → ring_inv (set_reader s b r')) as Hset.
  { intros r' Hr'. by apply (ring_inv_readers s _ b r'). }
  unfold read_step. destruct (r_phase r) as [|s1 words|] eqn:Hph.
  - pose proof (read_first_inv s r Hinv Hr) as Hfirst. simpl in Hfirst.
    change (c_seq (rs_cell s (next (r_cursor r)))) with (seq_at s (next (r_cursor r))).
    repeat case_match; zbool; apply Hset, reader_inv_phase; try done.
    + apply Hfirst; lia.
    + split; [apply Hfirst; lia|]. split; [apply Nat.le_0_l|]. split; [lia|done].
  - assert (reader_inv s r) as (_ & _ & _ & _ & _ & _ & _ & H8) by done. rewrite Hph in H8.
    destruct H8 as (-> & Hlen & Hge & Hw).
    change (c_seq (rs_cell s (next (r_cursor r)))) with (seq_at s (next (r_cursor r))).
    destruct (Nat.ltb_spec (length words) kFrameWords) as [Hlt|Hfull].
    + apply Hset, reader_inv_phase; [done|]. rewrite length_app. simpl.
      repeat (split; [done || lia|]). intros E.
      destruct Hr as (Hr1 & Hr2 & Hr3 & _).
      destruct (published_words s (next (r_cursor r)) Hinv ltac:(lia) E) as [_ Hcw].
      rewrite Nat.add_1_r. rewrite (take_S_r _ _ (c_words (rs_cell s (next (r_cursor r))) !!! length words)).
      * f_equal. by apply Hw.
      * rewrite Hcw. apply list_lookup_lookup_total_lt. by rewrite length_ticket_words.
    + destruct (Z.eqb_spec (seq_at s (next (r_cursor r))) (2 * next (r_cursor r) + 2)) as [E|E]; simpl negb; cbv iota.
      * destruct (read_deliver_inv s r words Hinv Hb Hr Hph ltac:(lia) E) as [Hn0 Hd].
        rewrite Hn0, Z.eqb_refl. simpl. by apply Hset.
      * apply Hset, reader_inv_phase; [done|]. destruct Hr as (Hr1 & Hr2 & Hr3 & _).
        destruct (ri_cells _ Hinv (next (r_cursor r)) ltac:(lia)) as [_ [H0|(p & Hp & Ep & Hseq)]]; [lia|].
        apply (seq_above_lapped s _ p); try done. lia.
  - destruct (lap_exact s r Hinv Hb Hr Hph) as (Hlt & -> & ->). apply Hset.
    destruct Hr as (H1 & H2 & H3 & H4 & H5 & H6 & H7 & _).
    pose proof (shape_bounds (ri_shape _ Hinv)).
    unfold reader_inv. simpl. repeat (split; [done || lia|]). split; [|done].
    eapply Forall_impl; [exact H6|]. simpl. intros; lia.
Qed.

(** ** Preservation: producers *)

Lemma expected_seq_eq s pos :
  0 <= pos < log_bound → 2 <= rs_cap s →
  expected_seq (rs_cap s) pos = if pos <? rs_cap s then 0 else 2 * (pos - rs_cap s) + 2.
Proof.
  intros Hp Hc. unfold expected_seq, log_bound in *. destruct (Z.ltb_spec pos (rs_cap s)); [done|].
  apply u64_small. unfold fits; pow_consts; lia.
Qed.

(** Another producer's ticket for the same cell is for a later lap and waits. *)
Lemma other_same_cell s a b pa pb pos q :
  ring_inv s → in_bound s → rs_prods s !! a = Some pa → rs_prods s !! b = Some pb → a ≠ b →
  owns pa pos → 0 <= pos < Z.of_nat (length (rs_log s)) →
  seq_at s pos = expected_seq (rs_cap s) pos ∨ seq_at s pos = 2 * pos + 1 →
  0 <= q → owns pb q → pos mod rs_cap s = q mod rs_cap s →
  ¬ storing pb q ∧ pos < q.
Proof.
  intros Hinv Hb Ha Hbb Hne Hown Hpos Hseq Hq Hqown E.
  assert (pos ≠ q) as Hpq by (intros ->; eauto using ri_disj).
  pose proof (ri_shape _ Hinv) as Hs. pose proof (shape_bounds Hs).
  assert (seq_at s q = seq_at s pos) as Esq.
  { unfold seq_at, rs_cell. by rewrite (proj2 (cell_index_eq Hs pos q ltac:(lia) Hq) E). }
  unfold in_bound in Hb. rewrite expected_seq_eq in Hseq by lia.
  pose proof (same_cell_lap Hs q pos (eq_sym E)).
  destruct (ri_owned _ Hinv b pb q Hbb Hqown) as [[_ Hst]|[Hns Hlt]].
  - exfalso. destruct (Z.ltb_spec pos (rs_cap s)); lia.
  - split; [done|]. destruct (Z.ltb_spec pos (rs_cap s)); lia.
Qed.

Section Update.
Context (s : RState) (a : nat) (p p' : Producer) (pos : Z) (c : Cell).
Hypothesis Hinv : ring_inv s.
Hypothesis Hb : in_bound s.
Hypothesis Ha : rs_prods s !! a = Some p.
Hypothesis Hown : owns p pos.
Hypothesis Hpos : 0 <= pos < Z.of_nat (length (rs_log s)).
Hypothesis Hold : seq_at s pos = expected_seq (rs_cap s) pos ∨ seq_at s pos = 2 * pos + 1.
Hypothesis Hlen : length (c_words c) = kFrameWords.
Hypothesis Hnew : c_seq c = 2 * pos + 1 ∨
  c_seq c = 2 * pos + 2 ∧ c_words c = ticket_words pos (rs_log s !!! Z.to_nat pos).
Hypothesis Hbatch : batch_ok (rs_log s) p'.
Hypothesis Hshrink : ∀ q, owns p' q → owns p q ∧ pos <= q.
Hypothesis Hdone : ∀ q, owns p q → owns p' q ∨ (q = pos ∧ c_seq c = 2 * pos + 2).
Hypothesis Hstoring : ∀ q, owns p' q → storing p' q ↔ (q = pos ∧ c_seq c = 2 * pos + 1).
Hypothesis Hpublished : c_seq c = 2 * pos + 2 → ¬ owns p' pos.
Hypothesis Hold_store : ∀ q, storing p q → q = pos.
Hypothesis Hwords : ∀ base i frames k, p' = PStore base i frames k →
  base + Z.of_nat i = pos ∧ (k <= kFrameWords)%nat ∧
  take k (c_words c) = take k (ticket_words pos (frames !!! i)).

Let s' : RState := set_prod (set_rcell s pos c) a p'.

Lemma update_cell q :
  0 <= q → rs_cell s' q = if decide (pos mod rs_cap s = q mod rs_cap s) then c else rs_cell s q.
Proof. intros Hq. apply rs_cell_set; [apply (ri_shape _ Hinv)|lia|done]. Qed.

Lemma update_old_le : seq_at s pos <= c_seq c.
Proof.
  pose proof (shape_bounds (ri_shape _ Hinv)). unfold in_bound in Hb.
  rewrite expected_seq_eq in Hold by lia. destruct (Z.ltb_spec pos (rs_cap s)); lia.
Qed.

Lemma update_seq_mono q : 0 <= q → seq_at s q <= seq_at s' q.
Proof.
  intros Hq. unfold seq_at. rewrite update_cell by done. case_decide as E; [|lia].
  fold (seq_at s q). pose proof update_old_le.
  assert (seq_at s q = seq_at s pos) as ->; [|done].
  unfold seq_at, rs_cell.
  by rewrite (proj2 (cell_index_eq (ri_shape _ Hinv) pos q ltac:(lia) Hq) E).
Qed.

Lemma update_owned b pb q :
  rs_prods s' !! b = Some pb → owns pb q →
  (storing pb q ∧ seq_at s' q = 2 * q + 1) ∨ (¬ storing pb q ∧ seq_at s' q < 2 * q + 1).
Proof.
  intros Hl Hq. unfold seq_at. simpl in Hl.
  apply list_lookup_insert_Some in Hl as [(<- & <- & _)|[Hne Hl]].
  - destruct (Hshrink q Hq) as [Hqp Hge]. rewrite update_cell by lia.
    pose proof (Hstoring q Hq) as Hst. case_decide as E.
    + destruct Hnew as [H1|[H2 _]].
      * destruct (decide (q = pos)) as [->|Hn].
        -- left. split; [by apply Hst|done].
        -- right. split; [rewrite Hst; tauto|lia].
      * right. split; [rewrite Hst; lia|].
        assert (q ≠ pos) by (intros ->; by apply Hpublished). lia.
    + assert (q ≠ pos) as Hn by (intros ->; done).
      right. split; [rewrite Hst; tauto|].
      destruct (ri_owned _ Hinv a p q Ha Hqp) as [[Hs _]|[_ Hs]]; [|done].
      by apply Hold_store in Hs.
  - pose proof (ri_batch _ Hinv b pb Hl) as Hbat.
    assert (0 <= q) as Hq0 by (destruct pb; simpl in Hq, Hbat; lia || done).
    rewrite update_cell by done. case_decide as E; [|by apply (ri_owned _ Hinv b)].
    right. destruct (other_same_cell s a b p pb pos q) as [? ?]; try done.
    split; [done|]. lia.
Qed.

Lemma update_words b base i frames k :
  rs_prods s' !! b = Some (PStore base i frames k) →
  let q := base + Z.of_nat i in
  (k <= kFrameWords)%nat ∧
  take k (c_words (rs_cell s' q)) = take k (ticket_words q (frames !!! i)).
Proof.
  intros Hl. simpl in Hl. cbv zeta.
  apply list_lookup_insert_Some in Hl as [(<- & Hp' & _)|[Hne Hl]].
  - destruct (Hwords base i frames k Hp') as (-> & Hk & Hw). split; [done|].
    rewrite update_cell by lia. by rewrite decide_True.
  - pose proof (ri_batch _ Hinv b _ Hl) as (H0 & Hi & Hle & _).
    pose proof (ri_words _ Hinv b base i frames k Hl) as Hw.
    rewrite update_cell by lia. case_decide as E; [|done].
    destruct (other_same_cell s a b p (PStore base i frames k) pos (base + Z.of_nat i)) as [Hns _];
      try done; simpl; lia.
Qed.

Lemma update_inv : ring_inv s'.
Proof.
  pose proof (ri_shape _ Hinv) as Hs. constructor.
  - simpl. destruct Hs. constructor; [done..|]. by rewrite length_insert.
  - apply Hinv.
  - apply Hinv.
  - intros b pb Hl. simpl in Hl.
    apply list_lookup_insert_Some in Hl as [(_ & <- & _)|[_ Hl]];
      [done|apply (ri_batch _ Hinv b pb Hl)].
  - intros b b' pb pb' q Hl Hl' Hq Hq'. simpl in Hl, Hl'.
    apply list_lookup_insert_Some in Hl as [(<- & <- & _)|[Hne Hl]];
      apply list_lookup_insert_Some in Hl' as [(<- & <- & _)|[Hne' Hl']]; try done;
      repeat match goal with H : owns p' _ |- _ => apply Hshrink in H as [H _] end;
      eapply (ri_disj _ Hinv); eauto.
  - intros q Hq. unfold cell_inv, seq_at. rewrite update_cell by done. simpl rs_log. simpl rs_cap.
    case_decide as E; [|by apply Hinv]. split; [done|]. right. exists pos. done.
  - apply update_owned.
  - intros b base i frames k. apply update_words.
  - intros q Hq. simpl in Hq. pose proof (update_seq_mono q ltac:(lia)) as Hm.
    destruct (ri_done _ Hinv q Hq) as [H|(b & pb & Hl & Ho)]; [left; lia|].
    destruct (decide (a = b)) as [<-|Hne].
    + assert (pb = p) as -> by congruence. destruct (Hdone q Ho) as [Ho'|[-> E]].
      * right. exists a, p'. split; [|done]. simpl. apply list_lookup_insert_eq.
        by eapply lookup_lt_Some.
      * left. unfold seq_at. rewrite update_cell by lia. rewrite decide_True by done. lia.
    + right. exists b, pb. split; [|done]. simpl. by rewrite list_lookup_insert_ne.
  - intros b r Hl. eapply (reader_inv_mono s s' r []); try done.
    + apply update_seq_mono.
    + by rewrite app_nil_r.
    + by apply (ri_readers _ Hinv b).
  - apply Hinv.
Qed.
End Update.

(** The position of the batch a producer works on, without wrap-around. *)
Lemma batch_pos s base i frames :
  ring_inv s → in_bound s → batch_ok (rs_log s) (PClaim base i frames) →
  u64 (base + Z.of_nat i) = base + Z.of_nat i ∧
  0 <= base + Z.of_nat i < Z.of_nat (length (rs_log s)) ∧
  rs_log s !!! Z.to_nat (base + Z.of_nat i) = frames !!! i.
Proof.
  intros Hinv Hb (H0 & Hi & Hle & Hlog). unfold in_bound, log_bound in Hb.
  split; [apply u64_small; unfold fits; pow_consts; lia|]. split; [lia|].
  rewrite Z2Nat.inj_add, Nat2Z.id by lia. by apply Hlog.
Qed.

Lemma claim_inv s a base i frames :
  ring_inv s → in_bound s → rs_prods s !! a = Some (PClaim base i frames) →
  let pos := base + Z.of_nat i in
  seq_at s pos = expected_seq (rs_cap s) pos →
  ring_inv (set_prod (set_rcell s pos (mkCell (claimed_seq pos) (c_words (rs_cell s pos)))) a
                     (PStore base i frames 0)).
Proof.
  intros Hinv Hb Ha pos Hseq. pose proof (ri_batch _ Hinv a _ Ha) as Hbat.
  destruct (batch_pos s base i frames Hinv Hb Hbat) as (_ & Hpos & _). fold pos in Hpos.
  pose proof Hbat as (H0 & Hi & Hle & _). unfold in_bound, log_bound in Hb.
  assert (claimed_seq pos = 2 * pos + 1) as Hc
    by (apply u64_small; unfold fits; pow_consts; lia).
  destruct (ri_cells _ Hinv pos) as [Hlen _]; [lia|].
  eapply update_inv; try exact Ha; try done; simpl; rewrite ?Hc; auto.
  - unfold pos. lia.
  - intros q Hq. unfold pos. lia.
  - intros q Hq. unfold pos. lia.
  - lia.
  - intros ? ? ? ? [= <- <- <- <-]. split; [done|]. split; [unfold kFrameWords; lia|done].
Qed.

Lemma store_word_inv s a base i frames k :
  ring_inv s → in_bound s → rs_prods s !! a = Some (PStore base i frames k) →
  (k < kFrameWords)%nat →
  let pos := base + Z.of_nat i in
  ring_inv (set_prod (set_rcell s pos
              (mkCell (c_seq (rs_cell s pos))
                      (<[k := ticket_words pos (frames !!! i) !!! k]> (c_words (rs_cell s pos)))))
            a (PStore base i frames (S k))).
Proof.
  intros Hinv Hb Ha Hk pos. pose proof (ri_batch _ Hinv a _ Ha) as Hbat.
  destruct (batch_pos s base i frames Hinv Hb Hbat) as (_ & Hpos & _). fold pos in Hpos.
  pose proof Hbat as (H0 & Hi & Hle & _).
  assert (owns (PStore base i frames k) pos) as Hown by (simpl; unfold pos; lia).
  assert (c_seq (rs_cell s pos) = 2 * pos + 1) as Hc.
  { destruct (ri_owned _ Hinv a _ pos Ha Hown) as [[_ H]|[H _]]; [done|]. by exfalso; apply H. }
  destruct (ri_cells _ Hinv pos) as [Hlen _]; [lia|].
  destruct (ri_words _ Hinv a base i frames k Ha) as [_ Hw]. fold pos in Hw.
  eapply update_inv; try exact Ha; try done; simpl; rewrite ?Hc, ?length_insert; auto.
  - intros q Hq. unfold pos. lia.
  - intros q Hq. unfold pos. lia.
  - lia.
  - intros ? ? ? ? [= <- <- <- <-]. split; [done|]. split; [lia|].
    rewrite take_S_insert by (rewrite Hlen; lia). rewrite Hw.
    symmetry. apply take_S_r. apply list_lookup_lookup_total_lt. by rewrite length_ticket_words.
Qed.

Lemma publish_inv s a base i frames k :
  ring_inv s → in_bound s → rs_prods s !! a = Some (PStore base i frames k) →
  (kFrameWords <= k)%nat →
  let pos := base + Z.of_nat i in
  ring_inv (set_prod (set_rcell s pos (mkCell (published_seq pos) (c_words (rs_cell s pos)))) a
              (if (S i <? length frames)%nat then PClaim base (S i) frames else PIdle)).
Proof.
  intros Hinv Hb Ha Hk pos. pose proof (ri_batch _ Hinv a _ Ha) as Hbat.
  destruct (batch_pos s base i frames Hinv Hb Hbat) as (_ & Hpos & Hlog). fold pos in Hpos, Hlog.
  pose proof Hbat as (H0 & Hi & Hle & Hall). unfold in_bound, log_bound in Hb.
  assert (published_seq pos = 2 * pos + 2) as Hc
    by (apply u64_small; unfold fits; pow_consts; lia).
  assert (owns (PStore base i frames k) pos) as Hown by (simpl; unfold pos; lia).
  assert (seq_at s pos = 2 * pos + 1) as Hold.
  { destruct (ri_owned _ Hinv a _ pos Ha Hown) as [[_ H]|[H _]]; [done|]. by exfalso; apply H. }
  destruct (ri_cells _ Hinv pos) as [Hlen _]; [lia|].
  destruct (ri_words _ Hinv a base i frames k Ha) as [Hk5 Hw]. fold pos in Hw.
  assert (c_words (rs_cell s pos) = ticket_words pos (rs_log s !!! Z.to_nat pos)) as Hfull.
  { rewrite Hlog. assert (k = kFrameWords) as -> by lia.
    rewrite <- Hlen in Hw at 1. rewrite firstn_all in Hw. rewrite Hw.
    by rewrite firstn_all2. }
  set (p' := if (S i <? length frames)%nat then PClaim base (S i) frames else PIdle).
  assert (∀ q, owns p' q ↔ pos < q < base + Z.of_nat (length frames)) as Hp'.
  { intros q. unfold p', pos. destruct (Nat.ltb_spec (S i) (length frames)); simpl; lia. }
  assert (∀ q, ¬ storing p' q) as Hns by (intros q; unfold p'; case_match; simpl; tauto).
  eapply update_inv; try exact Ha; try done; simpl; rewrite ?Hc; auto.
  - unfold p'. destruct (Nat.ltb_spec (S i) (length frames)); [|done]. by split_and!.
  - intros q Hq. apply Hp' in Hq. unfold pos in *. lia.
  - intros q Hq. rewrite Hp'. unfold pos in *. lia.
  - intros q Hq. split; [by intros ?%Hns|lia].
  - intros _ Hq%Hp'. lia.
  - intros ? ? ? ? E. exfalso. unfold p' in E. by case_match.
Qed.

Lemma prod_step_inv s a p s' :
  ring_inv s → in_bound s → rs_prods s !! a = Some p → prod_step s a p = Some s' → ring_inv s'.
Proof.
  intros Hinv Hb Ha Hstep. pose proof (ri_batch _ Hinv a _ Ha) as Hbat.
  destruct p as [|base i frames|base i frames k]; simpl in Hstep; [done| |].
  - destruct (batch_pos s base i frames Hinv Hb Hbat) as (E & _). rewrite E in Hstep.
    destruct (Z.eqb_spec (c_seq (rs_cell s (base + Z.of_nat i)))
                         (expected_seq (rs_cap s) (base + Z.of_nat i))); simplify_eq.
    + by apply claim_inv.
    + destruct Hinv. by constructor.
  - destruct (batch_pos s base i frames Hinv Hb Hbat) as (E & _). rewrite E in Hstep.
    destruct (Nat.ltb_spec k kFrameWords); simplify_eq.
    + by apply store_word_inv.
    + by eapply publish_inv.
Qed.

(** ** Preservation: tickets, and the whole step *)

Lemma batch_ok_app log ext p : batch_ok log p → batch_ok (log ++ ext) p.
Proof.
  destruct p as [|base i frames|base i frames k]; simpl; [done|..];
    intros (H0 & Hi & Hle & Hlog); rewrite length_app; repeat (split; [done || lia|]);
    intros j Hj; rewrite lookup_total_app_l by lia; auto.
Qed.

Lemma owns_logged log p q : batch_ok log p → owns p q → 0 <= q < Z.of_nat (length log).
Proof. destruct p; simpl; [done|..]; intros (H0 & Hi & Hle & _); lia. Qed.

Lemma take_tickets_inv s a frames :
  ring_inv s → in_bound (take_tickets s a frames) → rs_prods s !! a = Some PIdle →
  frames ≠ [] → Forall frame_wf frames → ring_inv (take_tickets s a frames).
Proof.
  intros Hinv Hb Ha Hne Hwf. unfold in_bound, log_bound in Hb. simpl in Hb.
  rewrite length_app in Hb. pose proof (ri_wpos _ Hinv) as Hw.
  assert (0 < length frames)%nat as Hpos by (destruct frames; simpl; [done|lia]).
  set (N := Z.of_nat (length (rs_log s))) in *.
  assert (∀ q, 0 <= q → seq_at s q <= 2 * N) as Hmax.
  { intros q Hq. destruct (ri_cells _ Hinv q Hq) as [_ [H|(p & Hp & _ & Hs)]]; lia. }
  assert (∀ b p, rs_prods (take_tickets s a frames) !! b = Some p →
    (a = b ∧ p = PClaim N 0 frames) ∨ (a ≠ b ∧ rs_prods s !! b = Some p)) as Hprods.
  { intros b p Hl. simpl in Hl. rewrite Hw in Hl.
    apply list_lookup_insert_Some in Hl as [(-> & <- & _)|[? ?]]; [by left|by right]. }
  constructor; try apply Hinv.
  - simpl. rewrite length_app, Hw. fold N. rewrite u64_small by (unfold fits; pow_consts; lia). lia.
  - simpl. apply Forall_app. split; [apply Hinv|done].
  - intros b p Hl. simpl. destruct (Hprods b p Hl) as [[-> ->]|[_ Hl']].
    + simpl. rewrite length_app. repeat (split; [lia|]). intros j Hj.
      unfold N. rewrite Nat2Z.id. rewrite lookup_total_app_r by lia. f_equal. lia.
    + apply batch_ok_app. by apply (ri_batch _ Hinv b).
  - intros b b' p p' q Hl Hl' Ho Ho'.
    destruct (Hprods b p Hl) as [[<- ->]|[Hn Hl1]], (Hprods b' p' Hl') as [[<- ->]|[Hn' Hl2]]; try done.
    + pose proof (owns_logged _ _ _ (ri_batch _ Hinv b' p' Hl2) Ho'). simpl in Ho. lia.
    + pose proof (owns_logged _ _ _ (ri_batch _ Hinv b p Hl1) Ho). simpl in Ho'. lia.
    + by eapply (ri_disj _ Hinv).
  - intros q Hq. destruct (ri_cells _ Hinv q Hq) as [Hlen Hs]. split; [done|].
    destruct Hs as [H|(p & Hp & E & Hs)]; [by left|right]. exists p. simpl. rewrite length_app.
    split; [lia|]. split; [done|]. destruct Hs as [H|[H1 H2]]; [by left|right].
    split; [done|]. rewrite lookup_total_app_l by lia. done.
  - intros b p q Hl Ho. destruct (Hprods b p Hl) as [[<- ->]|[Hn Hl1]].
    + right. split; [simpl; tauto|]. simpl in Ho.
      change (seq_at (take_tickets s a frames) q) with (seq_at s q).
      specialize (Hmax q ltac:(lia)). lia.
    + by apply (ri_owned _ Hinv b).
  - intros b base i fr k Hl. destruct (Hprods b _ Hl) as [[_ ?]|[_ Hl1]]; [done|].
    by apply (ri_words _ Hinv b).
  - intros q Hq. simpl in Hq. rewrite length_app in Hq.
    change (seq_at (take_tickets s a frames) q) with (seq_at s q).
    destruct (Z.lt_ge_cases q N) as [Hlt|Hge].
    + destruct (ri_done _ Hinv q ltac:(lia)) as [H|(b & p & Hl & Ho)]; [by left|right].
      exists b, p. split; [|done]. simpl.
      rewrite list_lookup_insert_ne; [done|]. intros ->. assert (p = PIdle) by congruence.
      by subst.
    + right. exists a, (PClaim N 0 frames). split; [|simpl; lia]. simpl. rewrite Hw.
      apply list_lookup_insert_eq. by eapply lookup_lt_Some.
  - intros b r Hl. eapply (reader_inv_mono s _ r frames); try done.
    by apply (ri_readers _ Hinv b).
Qed.

Lemma attach_inv s b r :
  ring_inv s → in_bound s → rs_readers s !! b = Some r →
  let o := oldest (rs_cap s) (rs_wpos s) in
  ring_inv (set_reader s b (mkReader RIdle (mkCursor o 0) o [])).
Proof.
  intros Hinv Hb Hl o. eapply (ring_inv_readers s); [done| |apply Hinv|done].
  pose proof (shape_bounds (ri_shape _ Hinv)).
  assert (0 <= o <= Z.of_nat (length (rs_log s))) as Ho.
  { unfold o, oldest. rewrite (ri_wpos _ Hinv), Z.gtb_ltb. case_match; zbool; lia. }
  unfold reader_inv. simpl. repeat (split; [done || lia || by constructor|]). done.
Qed.

Lemma ring_step_log s e s' :
  ring_step s e = Some s' → ∃ ext, rs_log s' = rs_log s ++ ext.
Proof.
  intros Hstep. destruct e as [a frames|a|b|b]; simpl in Hstep.
  - repeat case_match; simplify_eq. by eexists.
  - exists []. rewrite app_nil_r. destruct (rs_prods s !! a) as [[| |]|]; try done; simpl in Hstep;
      repeat case_match; by simplify_eq.
  - exists []. rewrite app_nil_r. destruct (rs_readers s !! b) as [r|]; [|done].
    simplify_eq. unfold read_step. by repeat case_match.
  - exists []. rewrite app_nil_r. repeat case_match; by simplify_eq.
Qed.

Lemma in_bound_step s e s' : ring_step s e = Some s' → in_bound s' → in_bound s.
Proof.
  intros Hstep. destruct (ring_step_log s e s' Hstep) as [ext E]. unfold in_bound.
  rewrite E, length_app. lia.
Qed.

Lemma ring_step_inv s e s' :
  ring_inv s → in_bound s' → ring_step s e = Some s' → ring_inv s'.
Proof.
  intros Hinv Hb' Hstep. pose proof (in_bound_step _ _ _ Hstep Hb') as Hb.
  destruct e as [a frames|a|b|b]; simpl in Hstep.
  - destruct (rs_prods s !! a) as [[| |]|] eqn:Ha; try done. destruct frames as [|f fs]; [done|].
    destruct (bool_decide _) eqn:Hwf; [|done]. apply bool_decide_eq_true in Hwf. simplify_eq.
    by apply take_tickets_inv.
  - destruct (rs_prods s !! a) as [p|] eqn:Ha; [|done]. by eapply prod_step_inv.
  - destruct (rs_readers s !! b) as [r|] eqn:Hl; [|done]. simplify_eq. by apply read_step_inv.
  - destruct (rs_readers s !! b) as [r|] eqn:Hl; [|done].
    destruct (r_phase r); try done. simplify_eq. by eapply attach_inv.
Qed.

Lemma ring_init_inv capacity r m n :
  0 <= capacity <= 2 ^ 63 → make_ring capacity = Some r → ring_inv (ring_init r m n).
Proof.
  intros Hc Hr. pose proof (make_ring_shape capacity Hc) as (r' & Hr' & Hs & _ & _ & Hw & Hcells).
  assert (r' = r) as -> by congruence.
  assert (∀ a p, replicate m PIdle !! a = Some p → p = PIdle) as Hidle.
  { intros a p Hl. by apply lookup_replicate in Hl as [? _]. }
  constructor; simpl; try done.
  - intros a p ->%Hidle. done.
  - intros a b pa pb pos ->%Hidle. done.
  - intros q Hq. unfold cell_inv, seq_at, rs_cell. simpl.
    pose proof (cell_index_lt Hs q Hq) as Hi. rewrite Hcells, length_replicate in Hi.
    rewrite Hcells, lookup_total_replicate_2 by done. by split; [|left].
  - intros a p pos ->%Hidle. done.
  - intros a base i frames k Hl. by apply Hidle in Hl.
  - intros. lia.
  - intros b rd Hl. apply lookup_replicate in Hl as [-> _].
    unfold reader_inv. simpl. repeat (split; [done || lia || by constructor|]). done.
Qed.

Lemma ring_reachable_inv capacity m n s :
  0 <= capacity <= 2 ^ 63 → ring_reachable capacity m n s → in_bound s → ring_inv s.
Proof.
  intros Hc (r & Hr & Hreach). revert Hreach.
  apply (reachable_invariant ring_step (λ s, in_bound s → ring_inv s)).
  - intros _. by eapply ring_init_inv.
  - intros s1 e s2 H1 Hstep Hb. eapply ring_step_inv; eauto using in_bound_step.
Qed.

(** ** Progress of the producers *)

(** Shared accesses a producer still has to make, retries aside. *)
Definition work (p : Producer) : nat :=
  match p with
  | PIdle => 0
  | PClaim _ i frames => (length frames - i) * 7
  | PStore _ i frames k => (length frames - i) * 7 - S k
  end.

Definition total_work (s : RState) : nat := sum_list (work <$> rs_prods s).

Definition all_idle (s : RState) : Prop := Forall (λ p, p = PIdle) (rs_prods s).

#[export] Instance all_idle_dec s : Decision (all_idle s).
Proof. unfold all_idle. apply _. Defined.

Lemma sum_list_insert_lt (l : list nat) a x y :
  l !! a = Some x → (y < x)%nat → (sum_list (<[a := y]> l) < sum_list l)%nat.
Proof.
  revert a. induction l as [|z l IH]; intros [|a] Hl Hlt; simplify_eq/=; [lia|].
  specialize (IH a Hl Hlt). lia.
Qed.

Lemma set_prod_work s s1 a p p' :
  rs_prods s !! a = Some p → rs_prods s1 = rs_prods s → (work p' < work p)%nat →
  (total_work (set_prod s1 a p') < total_work s)%nat.
Proof.
  intros Ha Hp Hw. unfold total_work. simpl. rewrite Hp, list_fmap_insert.
  apply sum_list_insert_lt with (work p); [|done]. by rewrite list_lookup_fmap, Ha.
Qed.

(** A claim is blocked only by an unpublished ticket one lap earlier. *)
Lemma claim_blocked s a base i frames :
  ring_inv s → in_bound s → rs_prods s !! a = Some (PClaim base i frames) →
  let pos := base + Z.of_nat i in
  seq_at s pos = expected_seq (rs_cap s) pos ∨
  ∃ b p, rs_prods s !! b = Some p ∧ owns p (pos - rs_cap s).
Proof.
  intros Hinv Hb Ha pos. pose proof (ri_batch _ Hinv a _ Ha) as Hbat.
  destruct (batch_pos s base i frames Hinv Hb Hbat) as (_ & Hpos & _). fold pos in Hpos.
  pose proof Hbat as (_ & Hi & _). pose proof (ri_shape _ Hinv) as Hs.
  pose proof (shape_bounds Hs) as Hcap. unfold in_bound in Hb.
  rewrite expected_seq_eq by lia.
  assert (seq_at s pos < 2 * pos + 1) as Hlt.
  { destruct (ri_owned _ Hinv a _ pos Ha) as [[[] _]|[_ H]]; [simpl; unfold pos; lia|done]. }
  destruct (Z.ltb_spec pos (rs_cap s)) as [Hsmall|Hbig].
  - left. destruct (ri_cells _ Hinv pos) as [_ [H|(p & Hp & E & Hseq)]]; [lia|done|].
    pose proof (same_cell_lap Hs p pos E). lia.
  - assert ((pos - rs_cap s) mod rs_cap s = pos mod rs_cap s) as Em.
    { rewrite <- (Z_mod_plus_full (pos - rs_cap s) 1). f_equal. lia. }
    assert (seq_at s (pos - rs_cap s) = seq_at s pos) as Es.
    { unfold seq_at, rs_cell. by rewrite (proj2 (cell_index_eq Hs (pos - rs_cap s) pos ltac:(lia) ltac:(lia)) Em). }
    destruct (ri_done _ Hinv (pos - rs_cap s)) as [Hd|Hd]; [lia| |by right].
    left. rewrite Es in Hd.
    destruct (ri_cells _ Hinv pos) as [_ [H|(p & Hp & E & Hseq)]]; [lia|lia|].
    pose proof (same_cell_lap Hs p pos E). lia.
Qed.

(** The position a non-idle producer is at. *)
Definition current (p : Producer) : Z :=
  match p with PIdle => 0 | PClaim base i _ | PStore base i _ _ => base + Z.of_nat i end.

Lemma some_producer_progresses s :
  ring_inv s → in_bound s → ∀ n a p,
  rs_prods s !! a = Some p → p ≠ PIdle → current p <= Z.of_nat n →
  ∃ b s', ring_step s (EvProd b) = Some s' ∧ (total_work s' < total_work s)%nat ∧
          rs_log s' = rs_log s.
Proof.
  intros Hinv Hb n. induction (lt_wf n) as [n _ IH]. intros a p Ha Hne Hcur.
  pose proof (ri_batch _ Hinv a p Ha) as Hbat.
  destruct p as [|base i frames|base i frames k]; [done| |].
  - destruct (batch_pos s base i frames Hinv Hb Hbat) as (E & Hpos & _).
    pose proof Hbat as (H0 & Hi & _).
    destruct (claim_blocked s a base i frames Hinv Hb Ha) as [Hok|(b & p & Hl & Ho)].
    + exists a. eexists. simpl. rewrite Ha. simpl. rewrite E.
      unfold seq_at in Hok. rewrite Hok, Z.eqb_refl. split; [done|]. split; [|done].
      eapply set_prod_work; [done|done|]. simpl. lia.
    + pose proof (owns_logged _ _ _ (ri_batch _ Hinv b p Hl) Ho) as Hq.
      pose proof (shape_bounds (ri_shape _ Hinv)). simpl in Hcur.
      assert (current p <= base + Z.of_nat i - rs_cap s) as Hc by (destruct p; simpl in *; lia || done).
      apply (IH (Z.to_nat (base + Z.of_nat i - rs_cap s)) ltac:(lia) b p); [done|by intros ->|lia].
  - pose proof Hbat as (H0 & Hi & _). pose proof (ri_words _ Hinv a base i frames k Ha) as [Hk _].
    exists a. cbn [ring_step]. rewrite Ha. cbn [prod_step].
    destruct (Nat.ltb_spec k kFrameWords) as [Hk'|Hk']; eexists; (split; [done|]; split; [|done]);
      (eapply set_prod_work; [done|done|]); unfold kFrameWords in *.
    + cbn [work]. lia.
    + destruct (Nat.ltb_spec (S i) (length frames)); cbn [work]; lia.
Qed.

Lemma producers_finish n s :
  ring_inv s → in_bound s → (total_work s <= n)%nat →
  ∃ bs s', run ring_step (map EvProd bs) s = Some s' ∧ all_idle s' ∧ rs_log s' = rs_log s.
Proof.
  revert s. induction n as [|n IH]; intros s Hinv Hb Hw;
    (destruct (decide (all_idle s)) as [Hall|Hnot]; [exists [], s; done|]);
    apply not_Forall_Exists in Hnot; try apply _;
    apply Exists_exists in Hnot as (p & Hp & Hne);
    apply list_elem_of_lookup in Hp as (a & Ha);
    destruct (some_producer_progresses s Hinv Hb (Z.to_nat (current p)) a p Ha Hne)
      as (b & s1 & Hstep & Hlt & Hlog); try lia.
  assert (in_bound s1) as Hb1 by (unfold in_bound in *; by rewrite Hlog).
  destruct (IH s1) as (bs & s' & Hrun & Hidle & Hlog'); [by eapply ring_step_inv|done|lia|].
  exists (b :: bs), s'. cbn [map run]. rewrite Hstep. split; [done|]. split; [done|congruence].
Qed.

(** ** Order of delivery *)

Lemma picks_sublist log out lo :
  0 <= lo → Forall (out_ok log) out → Forall (λ f, lo <= f_seq f) out →
  (∀ i j f g, (i < j)%nat → out !! i = Some f → out !! j = Some g → f_seq f < f_seq g) →
  map (set_seq 0) out `sublist_of` map (set_seq 0) (drop (Z.to_nat lo) log).
Proof.
  revert lo. induction out as [|f out IH]; intros lo Hlo Hok Hge Hinc; simpl.
  { apply sublist_nil_l. }
  apply Forall_cons in Hok as [[Hr Hf] Hok]. apply Forall_cons in Hge as [Hg Hge].
  assert (Forall (λ g, f_seq f + 1 <= f_seq g) out) as Hnext.
  { apply Forall_lookup. intros j g Hj. specialize (Hinc 0%nat (S j) f g). simpl in Hinc.
    specialize (Hinc ltac:(lia) eq_refl Hj). lia. }
  specialize (IH (f_seq f + 1) ltac:(lia) Hok Hnext).
  assert (drop (Z.to_nat lo) log
          = take (Z.to_nat (f_seq f - lo)) (drop (Z.to_nat lo) log)
            ++ (log !!! Z.to_nat (f_seq f)) :: drop (Z.to_nat (f_seq f + 1)) log) as ->.
  { rewrite <- (take_drop (Z.to_nat (f_seq f - lo)) (drop (Z.to_nat lo) log)) at 1. f_equal.
    rewrite drop_drop.
    replace (Z.to_nat lo + Z.to_nat (f_seq f - lo))%nat with (Z.to_nat (f_seq f)) by lia.
    replace (Z.to_nat (f_seq f + 1)) with (S (Z.to_nat (f_seq f))) by lia.
    apply drop_S. apply list_lookup_lookup_total_lt. lia. }
  rewrite map_app. apply sublist_inserts_l. simpl.
  assert (set_seq 0 f = set_seq 0 (log !!! Z.to_nat (f_seq f))) as -> by (by rewrite Hf at 1).
  apply sublist_skip. apply IH.
  intros i j g h Hij Hi Hj. by apply (Hinc (S i) (S j)); [lia|..].
Qed.

(** ** Properties *)

(** C6. No torn or misplaced read in a sequentially consistent execution. In every state
    reachable by interleaving the loads, stores and read-modify-writes of the producers and
    readers, one at a time and each seen by all at once (fewer than 2^62 frames published),
    every frame any reader has returned is the frame that was published under its sequence
    number, complete, and the [inconsistent_reads] detector has never fired. The weaker
    orders the source asks for do not give this on every machine:
    [RingWeak.ring_weak_reads] states what they give, [RingWeak.ring_weak_torn] is a torn
    read they allow. *)
Theorem ring_no_torn_reads capacity m n s b r :
  0 <= capacity <= 2 ^ 63 → ring_reachable capacity m n s → in_bound s →
  rs_readers s !! b = Some r →
  Forall (λ f, 0 <= f_seq f < rs_wpos s ∧
               f = set_seq (f_seq f) (rs_log s !!! Z.to_nat (f_seq f))) (r_out r) ∧
  rs_incons s = 0.
Proof.
  intros Hc Hr Hb Hl. pose proof (ring_reachable_inv _ _ _ _ Hc Hr Hb) as Hinv.
  destruct (ri_readers _ Hinv b r Hl) as (_ & _ & _ & _ & Hok & _).
  rewrite (ri_wpos _ Hinv). split; [exact Hok|apply Hinv].
Qed.

(** C7. A reader accounts for every position: its cursor is where it attached plus the
    frames it returned plus the frames it reports missed, and never passes the write
    position. When it laps, the frame it wanted is a full capacity behind, the skip
    branch of [lap] is not the one taken, and the reader resumes exactly at the oldest
    position still in the ring. *)
Theorem ring_reader_accounting capacity m n s b r :
  0 <= capacity <= 2 ^ 63 → ring_reachable capacity m n s → in_bound s →
  rs_readers s !! b = Some r →
  next (r_cursor r) = r_start r + Z.of_nat (length (r_out r)) + missed (r_cursor r) ∧
  next (r_cursor r) <= rs_wpos s ∧
  (r_phase r = RLap →
   let t := rs_wpos s - rs_cap s in
   next (r_cursor r) < t ∧
   lap (oldest (rs_cap s) (rs_wpos s)) (r_cursor r)
   = mkCursor t (missed (r_cursor r) + (t - next (r_cursor r)))).
Proof.
  intros Hc Hr Hb Hl. pose proof (ring_reachable_inv _ _ _ _ Hc Hr Hb) as Hinv.
  pose proof (ri_readers _ Hinv b r Hl) as Hrd. pose proof Hrd as (_ & _ & H3 & H4 & _).
  split; [done|]. pose proof (ri_wpos _ Hinv) as Hw. split; [by rewrite Hw|].
  intros Hph. destruct (lap_exact s r Hinv Hb Hrd Hph) as (H5 & H6 & H7).
  cbv zeta. rewrite H6, Hw. done.
Qed.

(** The claim excludes concurrent writers: in every reachable state, two different
    producers that are storing payload words are storing into different cells. *)
Theorem ring_single_writer capacity m n s a b base i frames k base' i' frames' k' :
  0 <= capacity <= 2 ^ 63 → ring_reachable capacity m n s → in_bound s →
  rs_prods s !! a = Some (PStore base i frames k) →
  rs_prods s !! b = Some (PStore base' i' frames' k') →
  a ≠ b →
  cell_index (rs_mask s) (base + Z.of_nat i) ≠ cell_index (rs_mask s) (base' + Z.of_nat i').
Proof.
  intros Hc Hr Hb Ha Hbb Hab E. apply Hab. pose proof (ring_reachable_inv _ _ _ _ Hc Hr Hb) as Hinv.
  pose proof (ri_batch _ Hinv a _ Ha) as (H0 & Hi & Hle & _).
  pose proof (ri_batch _ Hinv b _ Hbb) as (H0' & Hi' & Hle' & _).
  assert (owns (PStore base i frames k) (base + Z.of_nat i)) as Ho by (simpl; lia).
  assert (owns (PStore base' i' frames' k') (base' + Z.of_nat i')) as Ho' by (simpl; lia).
  destruct (ri_owned _ Hinv a _ _ Ha Ho) as [[_ Hs]|[Hs _]]; [|by exfalso; apply Hs].
  destruct (ri_owned _ Hinv b _ _ Hbb Ho') as [[_ Hs']|[Hs' _]]; [|by exfalso; apply Hs'].
  unfold seq_at, rs_cell in Hs, Hs'. rewrite <- E in Hs'.
  assert (base + Z.of_nat i = base' + Z.of_nat i') as Ep by lia.
  apply (ri_disj _ Hinv a b _ _ (base + Z.of_nat i) Ha Hbb Ho). by rewrite Ep.
Qed.

(** Filtering preserves the subsequence order. *)
Lemma filter_sublist {A} (P : A → Prop) `{!∀ x, Decision (P x)} (l k : list A) :
  l `sublist_of` k → filter P l `sublist_of` filter P k.
Proof.
  induction 1 as [|x l k _ IH|x l k _ IH]; rewrite ?filter_cons; [constructor| |];
    case_decide; eauto using sublist_skip, sublist_cons.
Qed.

(** Per-source FIFO. What a reader has received from one source is, in order, a
    subsequence of what was published for that source, whatever the interleaving
    across sources, and its sequence numbers only go up. *)
Theorem ring_per_source_fifo capacity m n s b r src :
  0 <= capacity <= 2 ^ 63 → ring_reachable capacity m n s → in_bound s →
  rs_readers s !! b = Some r →
  filter (λ f, f_src_id f = src) (map (set_seq 0) (r_out r))
    `sublist_of` filter (λ f, f_src_id f = src) (map (set_seq 0) (rs_log s)) ∧
  (∀ i j f g, (i < j)%nat → r_out r !! i = Some f → r_out r !! j = Some g →
              f_seq f < f_seq g).
Proof.
  intros Hc Hr Hb Hl. pose proof (ring_reachable_inv _ _ _ _ Hc Hr Hb) as Hinv.
  destruct (ri_readers _ Hinv b r Hl) as (_ & _ & _ & _ & Hok & _ & Hinc & _).
  split; [|done]. apply filter_sublist, (picks_sublist (rs_log s) (r_out r) 0); [lia|done| |done].
  eapply Forall_impl; [exact Hok|]. intros f [Hf _]. lia.
Qed.

(** Readers never block writers: a reader's step, from any state at all, leaves the
    cells, the write position, every producer and the ticket log as they were. *)
Theorem ring_readers_passive s b s' :
  ring_step s (EvRead b) = Some s' →
  rs_cells s' = rs_cells s ∧ rs_wpos s' = rs_wpos s ∧ rs_prods s' = rs_prods s ∧
  rs_log s' = rs_log s ∧ rs_retries s' = rs_retries s.
Proof.
  simpl. destruct (rs_readers s !! b) as [r|]; [|done]. intros [= <-].
  unfold read_step. by repeat case_match.
Qed.

(** C24. Writers are never deadlocked: from every reachable state the producers alone can
    run to completion, publishing every ticket they hold. A claim is only ever
    waiting for an unpublished ticket exactly one lap earlier, so the producer with
    the oldest ticket always advances. *)
Theorem ring_writers_finish capacity m n s :
  0 <= capacity <= 2 ^ 63 → ring_reachable capacity m n s → in_bound s →
  ∃ bs s', run ring_step (map EvProd bs) s = Some s' ∧ all_idle s' ∧ rs_log s' = rs_log s ∧
           ∀ pos, 0 <= pos < rs_wpos s' → 2 * pos + 2 <= seq_at s' pos.
Proof.
  intros Hc Hr Hb. pose proof (ring_reachable_inv _ _ _ _ Hc Hr Hb) as Hinv.
  destruct (producers_finish (total_work s) s Hinv Hb) as (bs & s' & Hrun & Hidle & Hlog); [lia|].
  exists bs, s'. split_and!; try done. intros pos Hpos.
  assert (in_bound s') as Hb' by (unfold in_bound in *; by rewrite Hlog).
  assert (ring_inv s') as Hinv'.
  { apply (ring_reachable_inv capacity m n); [done| |done]. destruct Hr as (r & Hmk & evs & Hev).
    exists r. split; [done|]. exists (evs ++ map EvProd bs). by rewrite run_app, Hev. }
  rewrite (ri_wpos _ Hinv') in Hpos.
  destruct (ri_done _ Hinv' pos Hpos) as [H|(a & p & Hl & Ho)]; [done|].
  eapply Forall_lookup_1 in Hidle; [|exact Hl]. simpl in Hidle. by subst.
Qed.

(** ** Witnesses *)

(** Two producers race on a two-cell ring; a reader is lapped and catches up. *)
Definition race_events : list REvent :=
  [EvPublish 0 (map demo_frame [10; 11]); EvPublish 1 (map demo_frame [12])] ++
  repeat (EvProd 0) 7 ++ [EvRead 0; EvRead 0; EvProd 1] ++ repeat (EvRead 0) 6 ++
  [EvProd 0; EvProd 1] ++ repeat (EvProd 0) 6 ++ repeat (EvRead 0) 7.

Definition race_state : RState :=
  default (ring_init demo_ring 2 1) (run ring_step race_events (ring_init demo_ring 2 1)).

Lemma race_reachable : ring_reachable 2 2 1 race_state.
Proof. exists demo_ring. split; [reflexivity|]. exists race_events. by vm_compute. Defined.

Definition race_reader : Reader := default (mkReader RIdle (mkCursor 0 0) 0 []) (rs_readers race_state !! 0%nat).

Lemma ring_no_torn_reads_witness :
  map f_can_id (r_out race_reader) = [11] ∧ rs_incons race_state = 0 ∧
  Forall (λ f, 0 <= f_seq f < rs_wpos race_state ∧
               f = set_seq (f_seq f) (rs_log race_state !!! Z.to_nat (f_seq f))) (r_out race_reader).
Proof.
  destruct (ring_no_torn_reads 2 2 1 race_state 0 race_reader) as [H1 H2];
    [lia|apply race_reachable|by vm_compute|by vm_compute|].
  split; [by vm_compute|]. by split.
Defined.

Lemma ring_reader_accounting_witness :
  missed (r_cursor race_reader) = 1 ∧
  next (r_cursor race_reader)
  = r_start race_reader + Z.of_nat (length (r_out race_reader)) + missed (r_cursor race_reader).
Proof.
  split; [by vm_compute|].
  apply (ring_reader_accounting 2 2 1 race_state 0 race_reader);
    [lia|apply race_reachable|by vm_compute|by vm_compute].
Defined.

Definition storing_events : list REvent :=
  [EvPublish 0 (map demo_frame [10]); EvPublish 1 (map demo_frame [11]);
   EvProd 0; EvProd 1; EvProd 0; EvProd 1].

Definition storing_state : RState :=
  default (ring_init demo_ring 2 1) (run ring_step storing_events (ring_init demo_ring 2 1)).

Lemma ring_single_writer_witness : cell_index (rs_mask storing_state) 0 ≠ cell_index (rs_mask storing_state) 1.
Proof.
  apply (ring_single_writer 2 2 1 storing_state 0 1 0 0 (map demo_frame [10]) 1
                            1 0 (map demo_frame [11]) 1);
    [lia| |by vm_compute|by vm_compute|by vm_compute|lia].
  exists demo_ring. split; [reflexivity|]. exists storing_events. by vm_compute.
Defined.

Lemma ring_per_source_fifo_witness :
  filter (λ f, f_src_id f = 1) (map (set_seq 0) (r_out race_reader))
    `sublist_of` filter (λ f, f_src_id f = 1) (map (set_seq 0) (rs_log race_state)).
Proof.
  apply (ring_per_source_fifo 2 2 1 race_state 0 race_reader 1);
    [lia|apply race_reachable|by vm_compute|by vm_compute].
Defined.

Lemma ring_readers_passive_witness :
  ∃ s', ring_step race_state (EvRead 0) = Some s' ∧ rs_cells s' = rs_cells race_state.
Proof.
  exists (default race_state (ring_step race_state (EvRead 0))).
  assert (ring_step race_state (EvRead 0) = Some (default race_state (ring_step race_state (EvRead 0))))
    as H by by vm_compute.
  split; [exact H|]. apply (ring_readers_passive race_state 0 _ H).
Defined.

Lemma ring_writers_finish_witness :
  ∃ bs s', run ring_step (map EvProd bs) race_state = Some s' ∧ all_idle s'.
Proof.
  destruct (ring_writers_finish 2 2 1 race_state) as (bs & s' & H1 & H2 & _);
    [lia|apply race_reachable|by vm_compute|]. by exists bs, s'.
Defined.
