(* ===== verification/RingWeak.v ===== *)
(** * RingWeak: the broadcast ring under the C++ memory orders (src/src/broadcast_ring.hpp)

    The same accesses as [RingConc], on a memory that keeps every store as a message and
    lets a load answer with any message its thread has not seen superseded. A thread knows,
    per location, the newest message it has to take into account; what a message makes its
    reader know depends on the orders of the store and of the load, and on the fences in
    between, as the C++ memory model prescribes for relaxed, acquire and release accesses
    (release sequences continued by read-modify-writes; a load only answers with a store
    that was made before it).

    The machine has a switch, [fenced]: whether a release fence follows the claim of a
    cell. The source has none. Proved of the source: a reader only ever returns words of
    its own position or of later laps of the same cell, with the right sequence number in
    front, and accounts for every position. Proved with the fence, which compiles to no
    instruction on x86-64: no read is torn and the detector never fires. And exhibited: a
    run of the source's orders that returns a frame nobody published. *)

From S2P Require Import Prelude Frame BroadcastRing RingConc.

(** ** Locations, messages and views *)

Inductive Loc := LWpos | LSeq (i : nat) | LWord (i k : nat).

#[export] Instance Loc_eq_dec : EqDecision Loc.
Proof. solve_decision. Defined.

#[export] Instance Loc_countable : Countable Loc.
Proof.
  refine (inj_countable' (λ l, match l with LWpos => inl tt | LSeq i => inr (inl i) | LWord i k => inr (inr (i, k)) end)
            (λ x, match x with inl _ => LWpos | inr (inl i) => LSeq i | inr (inr (i, k)) => LWord i k end) _).
  by intros [].
Defined.

(** The newest message of each location that has to be taken into account, by its place
    in the location's modification order. *)
Definition Times : Type := Loc → Z.

Definition bump_time (l : Loc) (t : Z) (v : Times) : Times := λ l', if decide (l' = l) then Z.max (v l) t else v l'.

Definition join (v w : Times) : Times := λ l, Z.max (v l) (w l).

(** The value stored, what an acquiring reader learns, and (ghost) the ticket of the
    producer that stored it. *)
Record Message := mkMsg { m_val : Z; m_view : Times; m_pos : Z }.

Definition init_msg : Message := mkMsg 0 (λ _, 0) (-1).

Abbreviation Memory := (gmap (Loc * Z) Message).

(** Every location starts with the value 0. *)
Definition get (mem : Memory) (l : Loc) (t : Z) : option Message :=
  match mem !! (l, t) with
  | Some m => Some m
  | None => if t =? 0 then Some init_msg else None
  end.

(** What a thread knows, what it will know after an acquire fence, and what it knew at its
    last release fence. *)
Record TView := mkTView { tv_cur : Times; tv_acq : Times; tv_rel : Times }.

Definition tv_init : TView := mkTView (λ _, 0) (λ _, 0) (λ _, 0).

Definition tv_load (acquire : bool) (l : Loc) (t : Z) (m : Message) (tv : TView) : TView :=
  mkTView (if acquire then join (bump_time l t (tv_cur tv)) (m_view m) else bump_time l t (tv_cur tv))
    (join (bump_time l t (tv_acq tv)) (m_view m)) (tv_rel tv).

Definition tv_store (l : Loc) (t : Z) (tv : TView) : TView :=
  mkTView (bump_time l t (tv_cur tv)) (bump_time l t (tv_acq tv)) (tv_rel tv).

Definition fence_acquire (tv : TView) : TView := mkTView (tv_acq tv) (tv_acq tv) (tv_rel tv).
Definition fence_release (tv : TView) : TView := mkTView (tv_cur tv) (tv_acq tv) (tv_cur tv).

(** The view of the message of a store. *)
Definition relaxed_view (l : Loc) (t : Z) (tv : TView) : Times := bump_time l t (tv_rel tv).
Definition release_view (l : Loc) (t : Z) (tv : TView) : Times := bump_time l t (tv_cur tv).

(** A load may answer with a message the thread has not seen superseded; a store goes
    after everything its thread has seen, in a free place; a read-modify-write right
    after the message it read. *)
Definition readable_msg (mem : Memory) (l : Loc) (t : Z) (tv : TView) : option Message :=
  if tv_cur tv l <=? t then get mem l t else None.

Definition free (mem : Memory) (l : Loc) (t : Z) : bool :=
  match get mem l t with Some _ => false | None => true end.

(** ** The ring *)

Record WState := mkWState {
  w_cap : Z;
  w_mask : Z;
  w_mem : Memory;
  w_retries : Z;
  w_incons : Z;
  w_prods : list (Producer * TView);
  w_readers : list (Reader * TView);
  w_log : list Frame
}.

(** [t] is the message the access reads, or the place of the one it stores. *)
Inductive WEvent :=
  | WPublish (a : nat) (frames : list Frame) (t : Z)
  | WClaim (a : nat) (t : Z)
  | WRetry (a : nat) (t : Z)
  | WStore (a : nat) (t : Z)
  | WRead (b : nat) (t : Z)
  | WAttach (b : nat) (t : Z).

Definition w_index (s : WState) (pos : Z) : nat := cell_index (w_mask s) pos.

Definition set_wprod (s : WState) (a : nat) (mem : Memory) (x : Producer * TView) : WState :=
  mkWState (w_cap s) (w_mask s) mem (w_retries s) (w_incons s) (<[a := x]> (w_prods s)) (w_readers s) (w_log s).

Definition set_wreader (s : WState) (b : nat) (incons : Z) (x : Reader * TView) : WState :=
  mkWState (w_cap s) (w_mask s) (w_mem s) (w_retries s) incons (w_prods s) (<[b := x]> (w_readers s)) (w_log s).

(** [write_pos_.fetch_add(n, relaxed)] *)
Definition weak_publish (s : WState) (a : nat) (frames : list Frame) (t : Z) (tv : TView) : option WState :=
  match readable_msg (w_mem s) LWpos t tv with
  | Some m =>
      if free (w_mem s) LWpos (t + 1) then
        let tv := tv_load false LWpos t m tv in
        let new := mkMsg (u64 (m_val m + Z.of_nat (length frames)))
                     (join (relaxed_view LWpos (t + 1) tv) (m_view m)) (-1) in
        Some (mkWState (w_cap s) (w_mask s) (<[(LWpos, t + 1) := new]> (w_mem s)) (w_retries s) (w_incons s)
                (<[a := (PClaim (m_val m) 0 frames, tv_store LWpos (t + 1) tv)]> (w_prods s)) (w_readers s)
                (w_log s ++ frames))
      else None
  | None => None
  end.

(** The successful compare-exchange (acquire), and the fence the source does not have. *)
Definition weak_claim (fenced : bool) (s : WState) (a : nat) (base : Z) (i : nat) (frames : list Frame) (t : Z)
    (tv : TView) : option WState :=
  let pos := u64 (base + Z.of_nat i) in
  let l := LSeq (w_index s pos) in
  match readable_msg (w_mem s) l t tv with
  | Some m =>
      if (m_val m =? expected_seq (w_cap s) pos) && free (w_mem s) l (t + 1) then
        let tv := tv_load true l t m tv in
        let new := mkMsg (claimed_seq pos) (join (relaxed_view l (t + 1) tv) (m_view m)) pos in
        let tv := tv_store l (t + 1) tv in
        Some (set_wprod s a (<[(l, t + 1) := new]> (w_mem s))
                (PStore base i frames 0, if fenced then fence_release tv else tv))
      else None
  | None => None
  end.

(** The failed one (relaxed): a weak compare-exchange may fail on any value. *)
Definition weak_retry (s : WState) (a : nat) (base : Z) (i : nat) (frames : list Frame) (t : Z) (tv : TView)
  : option WState :=
  let l := LSeq (w_index s (u64 (base + Z.of_nat i))) in
  match readable_msg (w_mem s) l t tv with
  | Some m =>
      let s := set_wprod s a (w_mem s) (PClaim base i frames, tv_load false l t m tv) in
      Some (mkWState (w_cap s) (w_mask s) (w_mem s) (u64 (w_retries s + 1)) (w_incons s) (w_prods s)
              (w_readers s) (w_log s))
  | None => None
  end.

(** The payload stores (relaxed) and the publishing store (release). *)
Definition weak_store (s : WState) (a : nat) (base : Z) (i : nat) (frames : list Frame) (k : nat) (t : Z) (tv : TView)
  : option WState :=
  let pos := u64 (base + Z.of_nat i) in
  let l := if (k <? kFrameWords)%nat then LWord (w_index s pos) k else LSeq (w_index s pos) in
  if (tv_cur tv l <? t) && free (w_mem s) l t then
    if (k <? kFrameWords)%nat then
      Some (set_wprod s a
              (<[(l, t) := mkMsg (ticket_words pos (frames !!! i) !!! k) (relaxed_view l t tv) pos]> (w_mem s))
              (PStore base i frames (S k), tv_store l t tv))
    else
      Some (set_wprod s a (<[(l, t) := mkMsg (published_seq pos) (release_view l t tv) pos]> (w_mem s))
              (if (S i <? length frames)%nat then PClaim base (S i) frames else PIdle, tv_store l t tv))
  else None.

(** One load of [try_read] or [lap]: the first of the sequence word (acquire), the payload
    (relaxed), the fence and the second of the sequence word (relaxed), [write_pos_]
    (relaxed). *)
Definition weak_read (s : WState) (b : nat) (r : Reader) (t : Z) (tv : TView) : option WState :=
  let cur := r_cursor r in
  let i := w_index s (next cur) in
  let goto ph tv := Some (set_wreader s b (w_incons s) (mkReader ph cur (r_start r) (r_out r), tv)) in
  match r_phase r with
  | RIdle =>
      match readable_msg (w_mem s) (LSeq i) t tv with
      | None => None
      | Some m =>
          let s1 := m_val m in
          let tv := tv_load true (LSeq i) t m tv in
          if s1 =? 0 then goto RIdle tv
          else
            let cell_pos := (s1 - 1) / 2 in
            if cell_pos <? next cur then goto RIdle tv
            else if cell_pos >? next cur then goto RLap tv
            else if negb (Z.land s1 1 =? 0) then goto RIdle tv
            else goto (RCopy s1 []) tv
      end
  | RCopy s1 words =>
      if (length words <? kFrameWords)%nat then
        match readable_msg (w_mem s) (LWord i (length words)) t tv with
        | None => None
        | Some m => goto (RCopy s1 (words ++ [m_val m])) (tv_load false (LWord i (length words)) t m tv)
        end
      else
        let tv := fence_acquire tv in
        match readable_msg (w_mem s) (LSeq i) t tv with
        | None => None
        | Some m =>
            let s2 := m_val m in
            let tv := tv_load false (LSeq i) t m tv in
            if negb (s2 =? s1) then goto RLap tv
            else if negb (nth 0 words 0 =? next cur)
            then Some (set_wreader s b (u64 (w_incons s + 1)) (mkReader RLap cur (r_start r) (r_out r), tv))
            else Some (set_wreader s b (w_incons s)
                   (mkReader RIdle (mkCursor (u64 (next cur + 1)) (missed cur)) (r_start r)
                      (r_out r ++ [words_frame words]), tv))
        end
  | RLap =>
      match readable_msg (w_mem s) LWpos t tv with
      | None => None
      | Some m =>
          Some (set_wreader s b (w_incons s)
            (mkReader RIdle (lap (oldest (w_cap s) (m_val m)) cur) (r_start r) (r_out r), tv_load false LWpos t m tv))
      end
  end.

Definition weak_attach (s : WState) (b : nat) (r : Reader) (t : Z) (tv : TView) : option WState :=
  match r_phase r with
  | RIdle =>
      match readable_msg (w_mem s) LWpos t tv with
      | None => None
      | Some m =>
          let o := oldest (w_cap s) (m_val m) in
          Some (set_wreader s b (w_incons s) (mkReader RIdle (mkCursor o 0) o [], tv_load false LWpos t m tv))
      end
  | _ => None
  end.

Definition weak_step (fenced : bool) (s : WState) (e : WEvent) : option WState :=
  match e with
  | WPublish a frames t =>
      match w_prods s !! a, frames with
      | Some (PIdle, tv), _ :: _ =>
          if bool_decide (Forall frame_wf frames) then weak_publish s a frames t tv else None
      | _, _ => None
      end
  | WClaim a t =>
      match w_prods s !! a with
      | Some (PClaim base i frames, tv) => weak_claim fenced s a base i frames t tv
      | _ => None
      end
  | WRetry a t =>
      match w_prods s !! a with
      | Some (PClaim base i frames, tv) => weak_retry s a base i frames t tv
      | _ => None
      end
  | WStore a t =>
      match w_prods s !! a with
      | Some (PStore base i frames k, tv) => weak_store s a base i frames k t tv
      | _ => None
      end
  | WRead b t => match w_readers s !! b with Some (r, tv) => weak_read s b r t tv | None => None end
  | WAttach b t => match w_readers s !! b with Some (r, tv) => weak_attach s b r t tv | None => None end
  end.

Definition weak_init (r : Ring) (m n : nat) : WState :=
  mkWState (capacity_ r) (mask_ r) ∅ 0 0 (replicate m (PIdle, tv_init))
    (replicate n (mkReader RIdle (mkCursor 0 0) 0 [], tv_init)) [].

Definition weak_reachable (fenced : bool) (capacity : Z) (m n : nat) (s : WState) : Prop :=
  ∃ r, make_ring capacity = Some r ∧ reachable (weak_step fenced) (weak_init r m n) s.

(** ** Lemmas: views and messages *)

Lemma bump_time_le l t v l' : v l' <= bump_time l t v l'.
Proof. unfold bump_time. case_decide; subst; lia. Qed.

Lemma bump_time_at l t v : t <= bump_time l t v l.
Proof. unfold bump_time. rewrite decide_True by done. lia. Qed.

Lemma bump_other l t v l' : l' ≠ l → bump_time l t v l' = v l'.
Proof. intros H. unfold bump_time. by rewrite decide_False. Qed.

Lemma join_l v w l : v l <= join v w l.
Proof. unfold join. lia. Qed.

Lemma join_r v w l : w l <= join v w l.
Proof. unfold join. lia. Qed.

(** What every thread's view satisfies, and how it grows. *)
Definition tv_ok (tv : TView) : Prop := ∀ l, 0 <= tv_cur tv l <= tv_acq tv l.

Record tv_grows (tv tv' : TView) : Prop := {
  grows_ok : tv_ok tv';
  grows_cur : ∀ l, tv_cur tv l <= tv_cur tv' l;
  grows_acq : ∀ l, tv_acq tv l <= tv_acq tv' l
}.

Lemma tv_load_grows acquire l t m tv : tv_ok tv → tv_grows tv (tv_load acquire l t m tv).
Proof.
  intros Hok. split; intros l'; cbn [tv_load tv_cur tv_acq]; pose proof (Hok l') as H;
    pose proof (bump_time_le l t (tv_cur tv) l'); pose proof (bump_time_le l t (tv_acq tv) l');
    destruct acquire; unfold join; try lia.
  all: assert (bump_time l t (tv_cur tv) l' <= bump_time l t (tv_acq tv) l') by (unfold bump_time; pose proof (Hok l); case_decide; subst; lia); lia.
Qed.

Lemma tv_store_grows l t tv : tv_ok tv → tv_grows tv (tv_store l t tv).
Proof.
  intros Hok. split; intros l'; cbn [tv_store tv_cur tv_acq]; try apply bump_time_le.
  pose proof (Hok l'). pose proof (Hok l). unfold bump_time. case_decide; subst; lia.
Qed.

Lemma fence_acquire_grows tv : tv_ok tv → tv_grows tv (fence_acquire tv).
Proof. intros Hok. split; intros l; cbn; pose proof (Hok l); lia. Qed.

Lemma fence_release_grows tv : tv_ok tv → tv_grows tv (fence_release tv).
Proof. intros Hok. split; intros l; cbn; pose proof (Hok l); lia. Qed.

Lemma tv_grows_trans a b c : tv_grows a b → tv_grows b c → tv_grows a c.
Proof. intros [H1 H2 H3] [K1 K2 K3]. split; [done|..]; intros l; etrans; eauto. Qed.

(** A load knows its message. *)
Lemma tv_load_at acquire l t m tv : t <= tv_cur (tv_load acquire l t m tv) l.
Proof.
  cbn. pose proof (bump_time_at l t (tv_cur tv)). destruct acquire; [|done]. etrans; [done|apply join_l].
Qed.

Lemma tv_load_acq acquire l t m tv l' : m_view m l' <= tv_acq (tv_load acquire l t m tv) l'.
Proof. apply join_r. Qed.

Lemma tv_acquire l t m tv l' : m_view m l' <= tv_cur (tv_load true l t m tv) l'.
Proof. apply join_r. Qed.

Lemma readable_Some mem l t tv m : readable_msg mem l t tv = Some m → tv_cur tv l <= t ∧ get mem l t = Some m.
Proof. unfold readable_msg. case_match eqn:E; [|done]. apply Z.leb_le in E. done. Qed.

Lemma free_None mem l t : free mem l t = true → get mem l t = None.
Proof. unfold free. by case_match. Qed.

Lemma get_insert mem l t m l' t' :
  get (<[(l, t) := m]> mem) l' t' = if decide (l' = l ∧ t' = t) then Some m else get mem l' t'.
Proof.
  unfold get. case_decide as E.
  - destruct E as [-> ->]. by rewrite lookup_insert_eq.
  - rewrite lookup_insert_ne; [done|]. intros [= -> ->]. by apply E.
Qed.

Lemma get_insert_at mem l t m : get (<[(l, t) := m]> mem) l t = Some m.
Proof. by rewrite get_insert, decide_True. Qed.

Lemma get_insert_new mem l t m l' t' m' :
  get (<[(l, t) := m]> mem) l' t' = Some m' → (l' = l ∧ t' = t ∧ m' = m) ∨ get mem l' t' = Some m'.
Proof. rewrite get_insert. case_decide as E; [|auto]. intros [= <-]. destruct E as [-> ->]. auto. Qed.

Lemma get_empty l t m : get ∅ l t = Some m → t = 0 ∧ m = init_msg.
Proof. unfold get. rewrite lookup_empty. case_match eqn:E; [|done]. apply Z.eqb_eq in E. intros [= <-]. done. Qed.

(** A memory that keeps all messages of another. *)
Definition mem_le (mem mem' : Memory) : Prop := ∀ l t m, get mem l t = Some m → get mem' l t = Some m.

Lemma insert_le mem l t m : get mem l t = None → mem_le mem (<[(l, t) := m]> mem).
Proof. intros Hf l' t' m' H. rewrite get_insert. case_decide as E; [|done]. destruct E as [-> ->]. congruence. Qed.

(** ** The invariant *)

Section Inv.
Context (fenced : bool) (cap mask : Z) (cells : list Cell).
Hypothesis Hs : ring_shape cap mask cells.

Local Abbreviation ci := (cell_index mask).

(** The messages of ticket [p]: the claim, the publication, the words. *)
Definition has_claim (mem : Memory) (p t : Z) : Prop :=
  ∃ m, get mem (LSeq (ci p)) t = Some m ∧ m_val m = 2 * p + 1.

Definition has_published (mem : Memory) (p t : Z) : Prop :=
  ∃ m, get mem (LSeq (ci p)) t = Some m ∧ m_val m = 2 * p + 2.

Definition has_word (mem : Memory) (p : Z) (k : nat) (t : Z) : Prop :=
  ∃ m, get mem (LWord (ci p) k) t = Some m ∧ m_pos m = p.

(** A publication makes its acquiring reader know the words. *)
Definition covers (mem : Memory) (m : Message) (p : Z) : Prop :=
  ∀ k, (k < kFrameWords)%nat → ∃ t, has_word mem p k t ∧ t <= m_view m (LWord (ci p) k).

(** What a message of a sequence word and of a payload word can be. *)
Definition seq_msg_ok (mem : Memory) (log : list Frame) (i : nat) (t : Z) (m : Message) : Prop :=
  m_val m = 0 ∧ t = 0 ∨
  ∃ p, 0 <= p < Z.of_nat (length log) ∧ ci p = i ∧
       (m_val m = 2 * p + 1 ∨ m_val m = 2 * p + 2 ∧ covers mem m p).

Definition word_msg_ok (mem : Memory) (log : list Frame) (i k : nat) (t : Z) (m : Message) : Prop :=
  t = 0 ∧ m_pos m = -1 ∨
  0 <= m_pos m < Z.of_nat (length log) ∧ ci (m_pos m) = i ∧
  m_val m = ticket_words (m_pos m) (log !!! Z.to_nat (m_pos m)) !!! k ∧
  ∃ tc, has_claim mem (m_pos m) tc ∧ (fenced = true → tc <= m_view m (LSeq i)).

Record mem_inv (mem : Memory) (log : list Frame) : Prop := {
  mi_wpos : ∃ top, 0 <= top ∧ (∀ t, is_Some (get mem LWpos t) ↔ 0 <= t <= top) ∧
            (∀ t m, get mem LWpos t = Some m → 0 <= m_val m <= Z.of_nat (length log)) ∧
            (∀ m, get mem LWpos top = Some m → m_val m = Z.of_nat (length log));
  mi_seq i t m : get mem (LSeq i) t = Some m → seq_msg_ok mem log i t m;
  mi_seq_mono i t1 t2 m1 m2 :
    get mem (LSeq i) t1 = Some m1 → get mem (LSeq i) t2 = Some m2 → t1 < t2 → m_val m1 < m_val m2;
  mi_chain p q t : has_claim mem p t → 0 <= q < p → ci q = ci p → ∃ t', has_published mem q t';
  mi_pub p t : 0 <= p → has_published mem p t → ∃ t', has_claim mem p t';
  mi_word i k t m : get mem (LWord i k) t = Some m → word_msg_ok mem log i k t m;
  mi_word_mono i k t1 t2 m1 m2 :
    get mem (LWord i k) t1 = Some m1 → get mem (LWord i k) t2 = Some m2 → t1 < t2 → m_pos m1 < m_pos m2
}.

(** A producer's tickets have no message ahead of its own progress; the cell it stores
    into is its own, and it knows everything ever stored there. *)
Definition prod_inv (mem : Memory) (p : Producer) (tv : TView) : Prop :=
  tv_ok tv ∧ (∀ q t, owns p q → ¬ storing p q → ¬ has_claim mem q t) ∧
  match p with
  | PStore base i frames k =>
      let pos := base + Z.of_nat i in
      (k <= kFrameWords)%nat ∧ (∀ t, ¬ has_published mem pos t) ∧
      (∃ tc, has_claim mem pos tc ∧ tc <= tv_cur tv (LSeq (ci pos)) ∧
             (fenced = true → tc <= tv_rel tv (LSeq (ci pos)))) ∧
      (∀ j, (j < k)%nat → ∃ t, has_word mem pos j t ∧ t <= tv_cur tv (LWord (ci pos) j)) ∧
      (∀ j t, (k <= j)%nat → ¬ has_word mem pos j t) ∧
      (∀ j t m, (j < kFrameWords)%nat → get mem (LWord (ci pos) j) t = Some m →
                t <= tv_cur tv (LWord (ci pos) j))
  | _ => True
  end.

(** Words copied for position [n]: each of [n] or of a later ticket of the cell, whose
    claim, with the fence, the reader will know of at its own. *)
Definition copied (mem : Memory) (log : list Frame) (acq : Times) (n : Z) (words : list Z) : Prop :=
  ∀ j w, words !! j = Some w → ∃ p,
    n <= p < Z.of_nat (length log) ∧ ci p = ci n ∧ w = ticket_words p (log !!! Z.to_nat p) !!! j ∧
    (fenced = true → ∃ tc, has_claim mem p tc ∧ tc <= acq (LSeq (ci n))).

(** A returned frame: its words are those of its position, or, without the fence, of
    later tickets of the cell behind the first. *)
Definition mixed (log : list Frame) (ps : list Z) : Frame :=
  words_frame (imap (λ k p, ticket_words p (log !!! Z.to_nat p) !!! k) ps).

Definition returned_ok (log : list Frame) (f : Frame) : Prop :=
  0 <= f_seq f < Z.of_nat (length log) ∧
  ∃ ps, f = mixed log ps ∧ length ps = kFrameWords ∧ ps !! 0%nat = Some (f_seq f) ∧
        Forall (λ p, f_seq f <= p < Z.of_nat (length log) ∧ ci p = ci (f_seq f)) ps ∧
        (fenced = true → Forall (λ p, p = f_seq f) ps).

Definition phase_winv (mem : Memory) (log : list Frame) (n : Z) (ph : RPhase) (tv : TView) : Prop :=
  match ph with
  | RIdle => True
  | RCopy s1 words =>
      s1 = 2 * n + 2 ∧ n < Z.of_nat (length log) ∧ (length words <= kFrameWords)%nat ∧
      (∃ t, has_published mem n t ∧ t <= tv_cur tv (LSeq (ci n))) ∧
      (∀ k, (k < kFrameWords)%nat → ∃ t, has_word mem n k t ∧ t <= tv_cur tv (LWord (ci n) k)) ∧
      copied mem log (tv_acq tv) n words
  | RLap => n + cap < Z.of_nat (length log)
  end.

Definition delivered (log : list Frame) (r : Reader) : Prop :=
  let n := next (r_cursor r) in
  0 <= r_start r ∧ 0 <= missed (r_cursor r) ∧
  n = r_start r + Z.of_nat (length (r_out r)) + missed (r_cursor r) ∧
  n <= Z.of_nat (length log) ∧
  Forall (returned_ok log) (r_out r) ∧ Forall (λ f, r_start r <= f_seq f < n) (r_out r) ∧
  (∀ i j f g, (i < j)%nat → r_out r !! i = Some f → r_out r !! j = Some g → f_seq f < f_seq g).

Definition reader_winv (mem : Memory) (log : list Frame) (r : Reader) (tv : TView) : Prop :=
  tv_ok tv ∧ delivered log r ∧ phase_winv mem log (next (r_cursor r)) (r_phase r) tv.

(** *** Memories that grow *)

Lemma has_claim_le mem mem' p t : mem_le mem mem' → has_claim mem p t → has_claim mem' p t.
Proof. intros H (m & Hg & Hv). exists m. auto. Qed.

Lemma has_published_le mem mem' p t : mem_le mem mem' → has_published mem p t → has_published mem' p t.
Proof. intros H (m & Hg & Hv). exists m. auto. Qed.

Lemma has_word_le mem mem' p k t : mem_le mem mem' → has_word mem p k t → has_word mem' p k t.
Proof. intros H (m & Hg & Hv). exists m. auto. Qed.

Lemma covers_le mem mem' m p : mem_le mem mem' → covers mem m p → covers mem' m p.
Proof. intros H Hc k Hk. destruct (Hc k Hk) as (t & Hw & Ht). exists t. eauto using has_word_le. Qed.

Hint Resolve has_claim_le has_published_le has_word_le covers_le : core.

Lemma seq_msg_ok_le mem mem' log ext i t m :
  mem_le mem mem' → seq_msg_ok mem log i t m → seq_msg_ok mem' (log ++ ext) i t m.
Proof.
  intros Hle [H|(p & Hp & E & H)]; [by left|right]. exists p. rewrite length_app. split; [lia|]. split; [done|].
  destruct H as [H|[H Hc]]; eauto.
Qed.

Lemma word_msg_ok_le mem mem' log ext i k t m :
  mem_le mem mem' → word_msg_ok mem log i k t m → word_msg_ok mem' (log ++ ext) i k t m.
Proof.
  intros Hle [H|(Hp & E & Hv & tc & Hc & Hf)]; [by left|right]. rewrite length_app.
  rewrite lookup_total_app_l by lia. split_and!; try done; [lia|lia|]. eauto.
Qed.

Lemma returned_ok_app log ext f : returned_ok log f → returned_ok (log ++ ext) f.
Proof.
  intros (Hr & ps & Hf & Hl & H0 & Hps & Hfen). split; [rewrite length_app; lia|].
  exists ps. split_and!; try done.
  - rewrite Hf. unfold mixed. f_equal. apply imap_ext. intros k p Hk.
    eapply Forall_lookup_1 in Hps; [|done]. by rewrite lookup_total_app_l by lia.
  - eapply Forall_impl; [exact Hps|]. intros p [??]. rewrite length_app. split; [lia|done].
Qed.

Lemma phase_winv_le mem mem' log ext n ph tv :
  mem_le mem mem' → 0 <= n → phase_winv mem log n ph tv → phase_winv mem' (log ++ ext) n ph tv.
Proof.
  intros Hle Hn. destruct ph as [|s1 words|]; simpl; [done| |rewrite length_app; lia].
  intros (-> & Hlt & Hlen & (t & Hp & Ht) & Hw & Hc). rewrite length_app.
  split_and!; try done; [lia|eauto|..].
  - intros k Hk. destruct (Hw k Hk) as (t' & ? & ?). eauto.
  - intros j w Hj. destruct (Hc j w Hj) as (p & Hp' & E & Hv & Hf). exists p. rewrite length_app.
    rewrite lookup_total_app_l by lia. split_and!; try done; [lia|lia|].
    intros Hfen. destruct (Hf Hfen) as (tc & ? & ?). eauto.
Qed.

Lemma reader_winv_le mem mem' log ext r tv :
  mem_le mem mem' → reader_winv mem log r tv → reader_winv mem' (log ++ ext) r tv.
Proof.
  intros Hle (Hok & Hd & Hph). pose proof Hd as (H1 & H2 & H3 & H4 & H5 & H6 & H7).
  split; [done|]. split; [|eapply phase_winv_le; eauto; lia].
  unfold delivered. rewrite length_app. split_and!; try done; [lia|].
  eapply Forall_impl; [exact H5|]. intros f. apply returned_ok_app.
Qed.

(** *** What the messages say about the tickets of a cell *)

Lemma same_cell p q : 0 <= p → 0 <= q → ci p = ci q → p < q → p + cap <= q.
Proof. intros Hp Hq E. apply (same_cell_lap Hs). by apply (cell_index_eq Hs). Qed.

Lemma lap_back_cell p : cap <= p → ci (p - cap) = ci p.
Proof.
  intros Hp. pose proof (shape_bounds Hs). apply (cell_index_eq Hs); [lia|lia|].
  rewrite <- (Z_mod_plus_full (p - cap) 1). f_equal. lia.
Qed.

Lemma expected_small pos :
  0 <= pos < log_bound → expected_seq cap pos = if pos <? cap then 0 else 2 * (pos - cap) + 2.
Proof.
  intros Hp. pose proof (shape_bounds Hs). unfold expected_seq, log_bound in *. destruct (Z.ltb_spec pos cap); [done|].
  apply u64_small. unfold fits; pow_consts; lia.
Qed.

Section Facts.
Context (mem : Memory) (log : list Frame).
Hypothesis Hm : mem_inv mem log.

(** A message of a sequence word that is not the initial one is of a claimed ticket. *)
Lemma seq_ticket i t m :
  get mem (LSeq i) t = Some m → m_val m ≠ 0 →
  ∃ q, 0 <= q < Z.of_nat (length log) ∧ ci q = i ∧ (m_val m = 2 * q + 1 ∨ m_val m = 2 * q + 2) ∧
       ∃ t', has_claim mem q t'.
Proof.
  intros Hg Hv. destruct (mi_seq _ _ Hm i t m Hg) as [[? _]|(q & Hq & <- & H)]; [done|].
  exists q. split_and!; [lia|lia|done|tauto|]. destruct H as [H|[H _]]; [exists t; by exists m|].
  apply (mi_pub _ _ Hm q t); [lia|]. by exists m.
Qed.

Lemma claim_logged p t : 0 <= p → has_claim mem p t → p < Z.of_nat (length log).
Proof.
  intros Hp (m & Hg & Hv). destruct (mi_seq _ _ Hm _ t m Hg) as [[? _]|(q & Hq & _ & H)]; lia.
Qed.

(** No later lap starts before a ticket is published. *)
Lemma unpublished_last pos q t :
  0 <= pos → 0 <= q → (∀ t, ¬ has_published mem pos t) → has_claim mem q t → ci q = ci pos → q <= pos.
Proof.
  intros Hp Hq Hn Hc E. apply Z.nlt_ge. intros Hlt.
  destruct (mi_chain _ _ Hm q pos t Hc) as (t' & H); [lia|done|]. by apply (Hn t').
Qed.

Lemma unclaimed_unpublished pos : 0 <= pos → (∀ t, ¬ has_claim mem pos t) → ∀ t, ¬ has_published mem pos t.
Proof. intros H0 Hn t Hp. destruct (mi_pub _ _ Hm pos t H0 Hp) as (t' & Hc). by apply (Hn t'). Qed.

Lemma unclaimed_last pos q t :
  0 <= pos → 0 <= q → (∀ t, ¬ has_claim mem pos t) → has_claim mem q t → ci q = ci pos → q + cap <= pos.
Proof.
  intros Hp Hq Hn Hc E.
  pose proof (unpublished_last pos q t Hp Hq (unclaimed_unpublished pos Hp Hn) Hc E).
  assert (q ≠ pos) by (intros ->; by apply (Hn t)). apply same_cell; [done..|lia].
Qed.

(** Two claimed and unpublished tickets are for different cells. *)
Lemma one_writer p q t t' :
  0 <= p → 0 <= q → has_claim mem p t → has_claim mem q t' → (∀ t, ¬ has_published mem p t) →
  (∀ t, ¬ has_published mem q t) → ci p = ci q → p = q.
Proof.
  intros Hp Hq Cp Cq Np Nq E. pose proof (unpublished_last p q t' Hp Hq Np Cq (eq_sym E)).
  pose proof (unpublished_last q p t Hq Hp Nq Cp E). lia.
Qed.

(** The message a claim replaces is the last of its cell. *)
Lemma expected_last pos t m :
  0 <= pos < log_bound → (∀ t, ¬ has_claim mem pos t) →
  get mem (LSeq (ci pos)) t = Some m → m_val m = expected_seq cap pos →
  ∀ t' m', get mem (LSeq (ci pos)) t' = Some m' → t' <= t ∧ m_val m' <= 2 * pos.
Proof.
  intros Hp Hn Hg Hv t' m' Hg'. rewrite expected_small in Hv by done.
  assert (m_val m' <= m_val m ∧ m_val m' <= 2 * pos) as [Hle Hle'].
  { destruct (Z.eq_dec (m_val m') 0) as [E|E]; [rewrite E, Hv; case_match; zbool; lia|].
    destruct (seq_ticket _ t' m' Hg' E) as (q & Hq & Eq & Hvq & t'' & Hc).
    pose proof (unclaimed_last pos q t'' ltac:(lia) ltac:(lia) Hn Hc Eq).
    pose proof (shape_bounds Hs). rewrite Hv. destruct (Z.ltb_spec pos cap); lia. }
  split; [|done]. apply Z.nlt_ge. intros Hlt. pose proof (mi_seq_mono _ _ Hm _ _ _ _ _ Hg Hg' Hlt). lia.
Qed.

(** The claim of an unpublished ticket is the last message of its cell. *)
Lemma claim_last pos tc :
  0 <= pos → has_claim mem pos tc → (∀ t, ¬ has_published mem pos t) →
  ∀ t m, get mem (LSeq (ci pos)) t = Some m → t <= tc ∧ m_val m <= 2 * pos + 1.
Proof.
  intros Hp (mc & Hg & Hv) Hn t m Hg'.
  assert (m_val m <= 2 * pos + 1) as Hle.
  { destruct (Z.eq_dec (m_val m) 0) as [E|E]; [lia|].
    destruct (seq_ticket _ t m Hg' E) as (q & Hq & Eq & Hvq & t'' & Hc).
    pose proof (unpublished_last pos q t'' Hp ltac:(lia) Hn Hc Eq) as Hqp.
    destruct (decide (q = pos)) as [->|Hne]; [|lia].
    destruct Hvq as [->|Hvq]; [lia|]. exfalso. apply (Hn t). by exists m. }
  split; [|done]. apply Z.nlt_ge. intros Hlt. pose proof (mi_seq_mono _ _ Hm _ _ _ _ _ Hg Hg' Hlt). lia.
Qed.

(** Whoever acquires the message a claim replaces knows every word of the cell. *)
Lemma expected_words pos t m l k t' m' :
  0 <= pos < log_bound → (∀ t, ¬ has_claim mem pos t) →
  get mem (LSeq (ci pos)) t = Some m → m_val m = expected_seq cap pos →
  l = LWord (ci pos) k → (k < kFrameWords)%nat → get mem l t' = Some m' → t' <= Z.max 0 (m_view m l).
Proof.
  intros Hp Hn Hg Hv -> Hk Hw. rewrite expected_small in Hv by done.
  destruct (mi_word _ _ Hm _ _ _ _ Hw) as [[-> _]|(Hq & E & _ & tc & Hc & _)]; [lia|].
  pose proof (unclaimed_last pos (m_pos m') tc ltac:(lia) ltac:(lia) Hn Hc E) as Hlap.
  pose proof (shape_bounds Hs). destruct (Z.ltb_spec pos cap); [lia|].
  destruct (mi_seq _ _ Hm _ t m Hg) as [[? _]|(p & Hpl & Ep & [?|[Hvp Hcov]])]; [lia|lia|].
  assert (p = pos - cap) as -> by lia. destruct (Hcov k Hk) as (tw & (mw & Hgw & Hpw) & Hle).
  rewrite lap_back_cell in Hgw, Hle by lia.
  destruct (Z.lt_ge_cases tw t') as [Hlt|]; [|lia].
  pose proof (mi_word_mono _ _ Hm _ _ _ _ _ _ Hgw Hw Hlt). lia.
Qed.

(** A word read at or after the one of ticket [n] is of [n] or of a later ticket. *)
Lemma word_from n k tn t m :
  0 <= n → has_word mem n k tn → tn <= t → get mem (LWord (ci n) k) t = Some m →
  n <= m_pos m ∧ word_msg_ok mem log (ci n) k t m.
Proof.
  intros Hn (mn & Hg & Hp) Hle Hg'. split; [|by apply (mi_word _ _ Hm)].
  destruct (decide (tn = t)) as [->|Hne]; [by simplify_eq; lia|].
  pose proof (mi_word_mono _ _ Hm _ _ _ _ _ _ Hg Hg' ltac:(lia)). lia.
Qed.
End Facts.

(** *** New messages *)

Lemma get_insert_other mem l t m l' t' : l' ≠ l → get (<[(l, t) := m]> mem) l' t' = get mem l' t'.
Proof. intros H. rewrite get_insert, decide_False; [done|]. tauto. Qed.

Lemma has_claim_insert mem l t m p t' :
  has_claim (<[(l, t) := m]> mem) p t' → l = LSeq (ci p) ∧ t' = t ∧ m_val m = 2 * p + 1 ∨ has_claim mem p t'.
Proof. intros (m' & [(<- & -> & ->)|Hg]%get_insert_new & Hv); [by left|right; by exists m']. Qed.

Lemma has_published_insert mem l t m p t' :
  has_published (<[(l, t) := m]> mem) p t' → l = LSeq (ci p) ∧ t' = t ∧ m_val m = 2 * p + 2 ∨ has_published mem p t'.
Proof. intros (m' & [(<- & -> & ->)|Hg]%get_insert_new & Hv); [by left|right; by exists m']. Qed.

Lemma has_word_insert mem l t m p k t' :
  has_word (<[(l, t) := m]> mem) p k t' → l = LWord (ci p) k ∧ t' = t ∧ m_pos m = p ∨ has_word mem p k t'.
Proof. intros (m' & [(<- & -> & ->)|Hg]%get_insert_new & Hv); [by left|right; by exists m']. Qed.

Lemma seq_msg_ok_grow mem mem' log i t m :
  mem_le mem mem' → seq_msg_ok mem log i t m → seq_msg_ok mem' log i t m.
Proof. intros Hle H. rewrite <- (app_nil_r log). by eapply seq_msg_ok_le. Qed.

Lemma word_msg_ok_grow mem mem' log i k t m :
  mem_le mem mem' → word_msg_ok mem log i k t m → word_msg_ok mem' log i k t m.
Proof. intros Hle H. rewrite <- (app_nil_r log). by eapply word_msg_ok_le. Qed.

Section Insert.
Context (mem : Memory) (log : list Frame) (l : Loc) (t : Z) (m : Message).
Hypothesis Hm : mem_inv mem log.
Hypothesis Hfree : get mem l t = None.

Let mem' : Memory := <[(l, t) := m]> mem.
Let Hle : mem_le mem mem' := insert_le mem l t m Hfree.

Lemma mem_inv_ticket ext t0 m0 :
  l = LWpos → t = t0 + 1 → get mem LWpos t0 = Some m0 → m_val m = m_val m0 + Z.of_nat (length ext) →
  m_val m0 = Z.of_nat (length log) ∧ mem_inv mem' (log ++ ext).
Proof.
  intros El -> Hg Hv. destruct (mi_wpos _ _ Hm) as (top & H0 & Hdom & Hval & Htop).
  assert (t0 = top) as ->.
  { pose proof (proj1 (Hdom t0) (mk_is_Some _ _ Hg)). apply Z.le_antisymm; [lia|].
    apply Z.nlt_ge. intros Hlt. destruct (proj2 (Hdom (t0 + 1))) as [x Hx]; [lia|]. subst l. congruence. }
  specialize (Htop m0 Hg). split; [done|].
  assert (∀ l' t', l' ≠ LWpos → get mem' l' t' = get mem l' t') as Hother
    by (intros; subst l; by apply get_insert_other).
  assert (∀ p t', has_claim mem' p t' → has_claim mem p t') as Hcl.
  { intros p t' H. apply has_claim_insert in H as [(? & _)|H]; [by subst l|done]. }
  split.
  - exists (top + 1). split; [lia|]. unfold mem'. rewrite length_app, <- El. split; [|split].
    + intros t'. rewrite get_insert. case_decide as E; [destruct E as [_ ->]; split; [lia|by eexists]|].
      rewrite El, Hdom in *. split; [lia|]. intros H. assert (t' ≠ top + 1) by tauto. lia.
    + intros t' m' [(_ & -> & ->)|H]%get_insert_new; [lia|]. rewrite El in H. specialize (Hval t' m' H). lia.
    + intros m' H. rewrite get_insert_at in H. injection H as <-. lia.
  - intros i t' m'. rewrite Hother by done. intros H%(mi_seq _ _ Hm). by eapply seq_msg_ok_le.
  - intros i t1 t2 m1 m2. rewrite !Hother by done. apply (mi_seq_mono _ _ Hm).
  - intros p q t' Hc%Hcl Hq E. destruct (mi_chain _ _ Hm p q t' Hc Hq E) as (t'' & H). eauto.
  - intros p t' Hp0 [(? & _)|H]%has_published_insert; [by subst l|].
    destruct (mi_pub _ _ Hm p t' Hp0 H) as (t'' & H'). eauto.
  - intros i k t' m'. rewrite Hother by done. intros H%(mi_word _ _ Hm). by eapply word_msg_ok_le.
  - intros i k t1 t2 m1 m2. rewrite !Hother by done. apply (mi_word_mono _ _ Hm).
Qed.

Lemma mem_inv_claim pos t0 m0 :
  l = LSeq (ci pos) → t = t0 + 1 → 0 <= pos < Z.of_nat (length log) → pos < log_bound →
  (∀ t, ¬ has_claim mem pos t) → get mem l t0 = Some m0 → m_val m0 = expected_seq cap pos →
  m_val m = 2 * pos + 1 → mem_inv mem' log.
Proof.
  intros El -> Hpos Hbd Hn Hg Hv0 Hv. rewrite El in Hg. pose proof (shape_bounds Hs) as Hcap.
  pose proof (expected_last mem log Hm pos t0 m0 ltac:(lia) Hn Hg Hv0) as Hlast.
  rewrite expected_small in Hv0 by lia.
  assert (∀ l' t', l' ≠ LSeq (ci pos) → get mem' l' t' = get mem l' t') as Hother
    by (intros; subst l; by apply get_insert_other).
  split.
  - destruct (mi_wpos _ _ Hm) as (top & H0 & H). exists top. by setoid_rewrite Hother.
  - intros i t' m' [(E & -> & ->)|H]%get_insert_new; [|eapply seq_msg_ok_grow, (mi_seq _ _ Hm); done].
    right. exists pos. rewrite El in E. injection E as ->. auto.
  - intros i t1 t2 m1 m2 H1 H2 Hlt. apply get_insert_new in H1, H2.
    destruct H1 as [(E1 & -> & ->)|H1], H2 as [(E2 & -> & ->)|H2].
    + lia.
    + rewrite E1, El in *. destruct (Hlast _ _ H2). lia.
    + rewrite E2, El in *. destruct (Hlast _ _ H1). lia.
    + by eapply (mi_seq_mono _ _ Hm).
  - intros p q t' [(E & -> & Hp)|H]%has_claim_insert Hq Eq.
    + assert (p = pos) as -> by lia.
      pose proof (same_cell q pos ltac:(lia) ltac:(lia) Eq ltac:(lia)).
      destruct (Z.ltb_spec pos cap); [lia|].
      assert (has_published mem (pos - cap) t0) as Hpub by (exists m0; by rewrite lap_back_cell by lia).
      destruct (decide (q = pos - cap)) as [->|Hne]; [eauto|].
      destruct (mi_pub _ _ Hm (pos - cap) _ ltac:(lia) Hpub) as (tc & Hc).
      destruct (mi_chain _ _ Hm _ q _ Hc) as (t'' & H'); [lia|by rewrite lap_back_cell by lia|]. eauto.
    + destruct (mi_chain _ _ Hm p q t' H Hq Eq) as (t'' & H'). eauto.
  - intros p t' Hp0 [(_ & _ & ?)|H]%has_published_insert; [lia|].
    destruct (mi_pub _ _ Hm p t' Hp0 H) as (t'' & H'). eauto.
  - intros i k t' m'. rewrite Hother by done. intros H%(mi_word _ _ Hm). by eapply word_msg_ok_grow.
  - intros i k t1 t2 m1 m2. rewrite !Hother by done. apply (mi_word_mono _ _ Hm).
Qed.

Lemma mem_inv_word pos k tc :
  l = LWord (ci pos) k → 0 <= pos < Z.of_nat (length log) →
  (∀ t, ¬ has_published mem pos t) → (∀ t, ¬ has_word mem pos k t) →
  (∀ t' m', get mem l t' = Some m' → t' < t) →
  has_claim mem pos tc → (fenced = true → tc <= m_view m (LSeq (ci pos))) →
  m_pos m = pos → m_val m = ticket_words pos (log !!! Z.to_nat pos) !!! k → mem_inv mem' log.
Proof.
  intros El Hpos Hn Hw Hlast Hc Hf Hp Hv.
  assert (∀ l' t', l' ≠ LWord (ci pos) k → get mem' l' t' = get mem l' t') as Hother
    by (intros; subst l; by apply get_insert_other).
  split.
  - destruct (mi_wpos _ _ Hm) as (top & H0 & H). exists top. by setoid_rewrite Hother.
  - intros i t' m'. rewrite Hother by done. intros H%(mi_seq _ _ Hm). by eapply seq_msg_ok_grow.
  - intros i t1 t2 m1 m2. rewrite !Hother by done. apply (mi_seq_mono _ _ Hm).
  - intros p q t' [(? & _)|H]%has_claim_insert Hq Eq; [by subst l|].
    destruct (mi_chain _ _ Hm p q t' H Hq Eq) as (t'' & H'). eauto.
  - intros p t' Hp0 [(? & _)|H]%has_published_insert; [by subst l|].
    destruct (mi_pub _ _ Hm p t' Hp0 H) as (t'' & H'). eauto.
  - intros i j t' m' [(E & -> & ->)|H]%get_insert_new; [|eapply word_msg_ok_grow, (mi_word _ _ Hm); done].
    right. rewrite El in E. injection E as -> ->. rewrite Hp. split_and!; [lia|lia|done|done|]. eauto.
  - intros i j t1 t2 m1 m2 H1 H2 Hlt. apply get_insert_new in H1, H2.
    destruct H1 as [(E1 & -> & ->)|H1], H2 as [(E2 & -> & ->)|H2].
    + lia.
    + rewrite E1 in H2. specialize (Hlast _ _ H2). lia.
    + rewrite E2, El in H1. rewrite Hp.
      destruct (mi_word _ _ Hm _ _ _ _ H1) as [[_ ->]|(Hq & E & _ & tq & Hcq & _)]; [lia|].
      pose proof (unpublished_last mem log Hm pos (m_pos m1) tq ltac:(lia) ltac:(lia) Hn Hcq E) as Hle1.
      destruct (decide (m_pos m1 = pos)) as [Ep|]; [|lia]. exfalso. apply (Hw t1). by exists m1.
    + by eapply (mi_word_mono _ _ Hm).
Qed.

Lemma mem_inv_publish pos tc :
  l = LSeq (ci pos) → 0 <= pos < Z.of_nat (length log) → (∀ t, ¬ has_published mem pos t) →
  has_claim mem pos tc → tc < t → m_val m = 2 * pos + 2 → covers mem m pos → mem_inv mem' log.
Proof.
  intros El Hpos Hn Hc Ht Hv Hcov. pose proof (claim_last mem log Hm pos tc ltac:(lia) Hc Hn) as Hlast.
  assert (∀ l' t', l' ≠ LSeq (ci pos) → get mem' l' t' = get mem l' t') as Hother
    by (intros; subst l; by apply get_insert_other).
  split.
  - destruct (mi_wpos _ _ Hm) as (top & H0 & H). exists top. by setoid_rewrite Hother.
  - intros i t' m' [(E & -> & ->)|H]%get_insert_new; [|eapply seq_msg_ok_grow, (mi_seq _ _ Hm); done].
    right. exists pos. rewrite El in E. injection E as ->. eauto 6.
  - intros i t1 t2 m1 m2 H1 H2 Hlt. apply get_insert_new in H1, H2.
    destruct H1 as [(E1 & -> & ->)|H1], H2 as [(E2 & -> & ->)|H2].
    + lia.
    + rewrite E1, El in *. destruct (Hlast _ _ H2). lia.
    + rewrite E2, El in *. destruct (Hlast _ _ H1). lia.
    + by eapply (mi_seq_mono _ _ Hm).
  - intros p q t' [(_ & _ & ?)|H]%has_claim_insert Hq Eq; [lia|].
    destruct (mi_chain _ _ Hm p q t' H Hq Eq) as (t'' & H'). eauto.
  - intros p t' Hp0 [(E & -> & Hp)|H]%has_published_insert.
    + assert (p = pos) as -> by lia. eauto.
    + destruct (mi_pub _ _ Hm p t' Hp0 H) as (t'' & H'). eauto.
  - intros i k t' m'. rewrite Hother by done. intros H%(mi_word _ _ Hm). by eapply word_msg_ok_grow.
  - intros i k t1 t2 m1 m2. rewrite !Hother by done. apply (mi_word_mono _ _ Hm).
Qed.

(** A message that is not of its tickets leaves a producer where it was. *)
Lemma prod_inv_insert p tv :
  (∀ q, owns p q → l = LSeq (ci q) → m_val m ≠ 2 * q + 1 ∧ m_val m ≠ 2 * q + 2) →
  (∀ q j, storing p q → l ≠ LWord (ci q) j) → batch_ok log p →
  prod_inv mem p tv → prod_inv mem' p tv.
Proof.
  intros Hseq Hword Hb (Hok & Hun & Hp). split; [done|]. split.
  { intros q t' Ho Hns [(El & _ & Hv)|H]%has_claim_insert; [by apply (Hseq q Ho) in El as [? _]|].
    by apply (Hun q t' Ho Hns). }
  destruct p as [|base i frames|base i frames k]; [done..|]. cbv zeta in *.
  destruct Hp as (Hk & Hnp & (tc & Hc & Htc & Hrel) & Hw & Hnw & Hall). destruct Hb as (_ & Hi & _).
  assert (owns (PStore base i frames k) (base + Z.of_nat i)) as Ho by (simpl; lia).
  split_and!; [done|..].
  - intros t' [(El & _ & Hv)|H]%has_published_insert; [by apply (Hseq _ Ho) in El as [_ ?]|by apply (Hnp t')].
  - eauto.
  - intros j Hj. destruct (Hw j Hj) as (t' & ? & ?). eauto.
  - intros j t' Hj [(El & _ & _)|H]%has_word_insert; [by apply (Hword _ j eq_refl) in El|by apply (Hnw j t')].
  - intros j t' m' Hj [(El & _ & _)|H]%get_insert_new; [by apply eq_sym, (Hword _ j eq_refl) in El|eauto].
Qed.
End Insert.
End Inv.

Record weak_inv (fenced : bool) (s : WState) : Prop := {
  wi_shape : ring_shape (w_cap s) (w_mask s) (replicate (Z.to_nat (w_cap s)) inhabitant);
  wi_wf : Forall frame_wf (w_log s);
  wi_mem : mem_inv fenced (w_mask s) (w_mem s) (w_log s);
  wi_batch a p tv : w_prods s !! a = Some (p, tv) → batch_ok (w_log s) p;
  wi_disj a b pa ta pb tb q : w_prods s !! a = Some (pa, ta) → w_prods s !! b = Some (pb, tb) →
    owns pa q → owns pb q → a = b;
  wi_prods a p tv : w_prods s !! a = Some (p, tv) → prod_inv fenced (w_mask s) (w_mem s) p tv;
  wi_readers b r tv : w_readers s !! b = Some (r, tv) →
    reader_winv fenced (w_cap s) (w_mask s) (w_mem s) (w_log s) r tv;
  wi_incons : fenced = true → w_incons s = 0
}.

Definition weak_bound (s : WState) : Prop := Z.of_nat (length (w_log s)) < log_bound.

(** ** Preservation: producers *)

Section Producers.
Context (fenced : bool) (s : WState).
Hypothesis Hinv : weak_inv fenced s.
Hypothesis Hb : weak_bound s.

(** A producer that stores one message. *)
Lemma weak_inv_prod a p tv l t m p' tv' :
  w_prods s !! a = Some (p, tv) → get (w_mem s) l t = None →
  let mem' := <[(l, t) := m]> (w_mem s) in
  mem_inv fenced (w_mask s) mem' (w_log s) → batch_ok (w_log s) p' → (∀ q, owns p' q → owns p q) →
  prod_inv fenced (w_mask s) mem' p' tv' →
  (∃ pos, owns p pos ∧ ((l = LSeq (w_index s pos) ∧ (m_val m = 2 * pos + 1 ∨ m_val m = 2 * pos + 2)) ∨
     storing p pos ∧ ∃ k, l = LWord (w_index s pos) k)) →
  weak_inv fenced (set_wprod s a mem' (p', tv')).
Proof.
  intros Ha Hfree mem' Hmem' Hbat Hown Hp' (pos & Ho & Hl).
  pose proof (insert_le (w_mem s) l t m Hfree) as Hle. fold mem' in Hle.
  pose proof Hinv as [Hs Hwf Hmem Hbatch Hdisj Hprods Hreaders Hincons].
  assert (∀ b pb tb, (<[a := (p', tv')]> (w_prods s)) !! b = Some (pb, tb) →
    (a = b ∧ pb = p' ∧ tb = tv') ∨ (a ≠ b ∧ w_prods s !! b = Some (pb, tb))) as Hlook.
  { intros b pb tb H. apply list_lookup_insert_Some in H as [(-> & [= -> ->] & _)|[? ?]]; auto. }
  split; simpl; try done.
  - intros b pb tb [(_ & -> & _)|[_ H]]%Hlook; eauto.
  - intros b c pb tb pc tc q [(<- & -> & _)|[_ H1]]%Hlook [(<- & -> & _)|[_ H2]]%Hlook O1 O2; eauto.
  - intros b pb tb [(_ & -> & ->)|[Hne H]]%Hlook; [done|].
    assert (∀ q, owns pb q → q ≠ pos) as Hq by (intros q Hq ->; eauto).
    apply (prod_inv_insert fenced (w_mask s) (w_mem s) (w_log s)); [done|..|by eapply Hbatch|by eapply Hprods].
    + intros q Hoq El. specialize (Hq q Hoq). destruct Hl as [[_ ?]|[_ [k ->]]]; [lia|done].
    + intros q j Hst ->. destruct Hl as [[? _]|[Hst' [k El]]]; [done|]. injection El as E _.
      pose proof (Hbatch _ _ _ H) as Hbb. pose proof (Hbatch _ _ _ Ha) as Hba.
      destruct pb as [|base i frames|base i frames n]; [done..|].
      destruct p as [|base' i' frames'|base' i' frames' n']; [done..|]. simpl in Hst, Hst'.
      destruct (Hprods _ _ _ H) as (_ & _ & _ & Np & (t1 & C1 & _) & _).
      destruct (Hprods _ _ _ Ha) as (_ & _ & _ & Np' & (t2 & C2 & _) & _).
      subst q pos. destruct Hbb as (? & ? & _), Hba as (? & ? & _).
      apply (Hq (base + Z.of_nat i)); [simpl; lia|].
      eapply (one_writer _ _ _ _ Hmem); eauto; lia.
  - intros b r tb H. rewrite <- (app_nil_r (w_log s)). eapply reader_winv_le; eauto.
Qed.

Lemma weak_pos base i frames :
  batch_ok (w_log s) (PClaim base i frames) →
  let pos := base + Z.of_nat i in
  u64 pos = pos ∧ 0 <= pos < Z.of_nat (length (w_log s)) ∧ pos < log_bound ∧
  w_log s !!! Z.to_nat pos = frames !!! i ∧ claimed_seq pos = 2 * pos + 1 ∧ published_seq pos = 2 * pos + 2.
Proof.
  intros (H0 & Hi & Hle & Hlog) pos. unfold weak_bound in Hb. unfold claimed_seq, published_seq, pos, log_bound in *.
  split_and!; try lia; try (apply u64_small; unfold fits; pow_consts; lia).
  rewrite Z2Nat.inj_add, Nat2Z.id by lia. by apply Hlog.
Qed.

Lemma weak_claim_inv a base i frames t tv s' :
  w_prods s !! a = Some (PClaim base i frames, tv) →
  weak_claim fenced s a base i frames t tv = Some s' → weak_inv fenced s'.
Proof.
  intros Ha. unfold weak_claim. pose proof (wi_batch _ _ Hinv _ _ _ Ha) as Hbat.
  destruct (weak_pos base i frames Hbat) as (Hu & Hpos & Hbd & _ & Hcl & _). rewrite Hu.
  set (pos := base + Z.of_nat i) in *. rewrite Hcl.
  destruct (readable_msg _ _ _ _) as [m|] eqn:Hr; [|done]. apply readable_Some in Hr as [Hcur Hg].
  destruct (_ && _) eqn:Hc; [|done]. apply andb_prop in Hc as [Hv Hf]. zbool. apply free_None in Hf.
  intros [= <-]. pose proof (wi_mem _ _ Hinv) as Hmem. pose proof (wi_shape _ _ Hinv) as Hs.
  destruct (wi_prods _ _ Hinv _ _ _ Ha) as (Hok & Hun & _).
  assert (owns (PClaim base i frames) pos) as Ho by (destruct Hbat as (_ & ? & _); simpl; unfold pos; lia).
  assert (∀ t, ¬ has_claim (w_mask s) (w_mem s) pos t) as Hn by (intros t'; apply Hun; [done|tauto]).
  set (l := LSeq (w_index s pos)) in *. set (tv1 := tv_load true l t m tv).
  assert (tv_grows tv (if fenced then fence_release (tv_store l (t + 1) tv1) else tv_store l (t + 1) tv1)) as Hgr.
  { pose proof (tv_load_grows true l t m tv Hok) as G1. fold tv1 in G1.
    pose proof (tv_grows_trans _ _ _ G1 (tv_store_grows l (t + 1) tv1 (grows_ok _ _ G1))) as G2.
    destruct fenced; [|done]. eapply tv_grows_trans; [done|]. by apply fence_release_grows, G2. }
  set (tv2 := tv_store l (t + 1) tv1) in *. set (tv3 := if fenced then fence_release tv2 else tv2) in *.
  assert (tv_cur tv3 = tv_cur tv2) as Ecur by (unfold tv3; by destruct fenced).
  eapply weak_inv_prod; try done.
  - eapply (mem_inv_claim _ _ _ _ Hs _ _ _ _ _ Hmem Hf pos t m); done.
  - destruct Hgr as [Hok3 Hg3 _]. split; [done|]. split; [|cbv zeta; fold pos; split_and!].
    + intros q t' Hq Hnst [(El & _ & Hv')|H]%has_claim_insert; [|by apply (Hun q t' Hq (λ x, x))].
      simpl in Hv', Hnst. apply Hnst. fold pos. lia.
    + unfold kFrameWords. lia.
    + intros t' [(_ & _ & Hv')|H]%has_published_insert; [simpl in Hv'; lia|].
      by apply (unclaimed_unpublished _ _ _ _ Hmem pos ltac:(lia) Hn t').
    + exists (t + 1). split; [eexists; split; [apply get_insert_at|done]|].
      assert (t + 1 <= tv_cur tv3 l) as Hc by (rewrite Ecur; apply bump_time_at).
      split; [done|]. intros Ef. unfold tv3 in *. rewrite Ef in *. exact Hc.
    + intros j Hj. lia.
    + intros j t' _ [(? & _)|(m' & Hw & Hp)]%has_word_insert; [done|].
      destruct (mi_word _ _ _ _ Hmem _ _ _ _ Hw) as [[_ ?]|(_ & _ & _ & tc & Hc & _)]; [lia|].
      rewrite Hp in Hc. by apply (Hn tc).
    + intros j t' m' Hj [(? & _)|Hw]%get_insert_new; [done|]. rewrite Ecur.
      pose proof (expected_words _ _ _ _ Hs _ _ Hmem pos t m _ j t' m' ltac:(lia) Hn Hg Hv eq_refl Hj Hw) as Hle.
      pose proof (Hok (LWord (cell_index (w_mask s) pos) j)). pose proof (Hg3 (LWord (cell_index (w_mask s) pos) j)) as Hg3'.
      rewrite Ecur in Hg3'. unfold tv2 in *. cbn [tv_store tv_cur] in *. rewrite bump_other in * by done.
      pose proof (tv_acquire l t m tv (LWord (cell_index (w_mask s) pos) j)) as Hacq. fold tv1 in Hacq. lia.
  - exists pos. split; [done|]. left. split; [done|]. left. done.
Qed.

Lemma weak_retry_inv a base i frames t tv s' :
  w_prods s !! a = Some (PClaim base i frames, tv) →
  weak_retry s a base i frames t tv = Some s' → weak_inv fenced s'.
Proof.
  intros Ha. unfold weak_retry. destruct (readable_msg _ _ _ _) as [m|] eqn:Hr; [|done]. intros [= <-].
  destruct (wi_prods _ _ Hinv _ _ _ Ha) as (Hok & Hun & _).
  pose proof Hinv as [Hs Hwf Hmem Hbatch Hdisj Hprods Hreaders Hincons].
  set (tv' := tv_load false _ t m tv).
  assert (∀ b pb tb, (<[a := (PClaim base i frames, tv')]> (w_prods s)) !! b = Some (pb, tb) →
    ∃ tb', w_prods s !! b = Some (pb, tb') ∧ (prod_inv fenced (w_mask s) (w_mem s) pb tb' →
                                             prod_inv fenced (w_mask s) (w_mem s) pb tb)) as Hlook.
  { intros b pb tb H. apply list_lookup_insert_Some in H as [(-> & [= <- <-] & _)|[? ?]]; [|eauto].
    exists tv. split; [done|]. intros _. split; [|done]. by apply tv_load_grows. }
  split; simpl; try done.
  - intros b pb tb (tb' & H & _)%Hlook. eauto.
  - intros b c pb tb pc tc q (tb' & H1 & _)%Hlook (tc' & H2 & _)%Hlook. eauto.
  - intros b pb tb (tb' & H & Hp)%Hlook. eauto.
Qed.

Lemma weak_store_inv a base i frames k t tv s' :
  w_prods s !! a = Some (PStore base i frames k, tv) →
  weak_store s a base i frames k t tv = Some s' → weak_inv fenced s'.
Proof.
  intros Ha. unfold weak_store. pose proof (wi_batch _ _ Hinv _ _ _ Ha) as Hbat.
  destruct (weak_pos base i frames Hbat) as (Hu & Hpos & Hbd & Hlog & _ & Hpb). rewrite Hu.
  set (pos := base + Z.of_nat i) in *. rewrite Hpb.
  destruct (wi_prods _ _ Hinv _ _ _ Ha) as (Hok & Hun & Hk & Hnp & (tc & Hc & Htc & Hrel) & Hw & Hnw & Hall).
  fold pos in Hnp, Hc, Htc, Hrel, Hw, Hnw, Hall.
  pose proof (wi_mem _ _ Hinv) as Hmem. pose proof (wi_shape _ _ Hinv) as Hs.
  assert (owns (PStore base i frames k) pos) as Ho by (destruct Hbat as (_ & ? & _); simpl; unfold pos; lia).
  destruct (Nat.ltb_spec k kFrameWords) as [Hlt|Hfull]; (destruct (_ && _) eqn:Hg; [|done]);
    apply andb_prop in Hg as [Ht Hf]; zbool; apply free_None in Hf; intros [= <-].
  - set (l := LWord (w_index s pos) k) in *.
    eapply weak_inv_prod; try done.
    + eapply (mem_inv_word _ _ _ _ _ _ _ Hmem Hf pos k tc); try done.
      * intros t'. by apply Hnw.
      * intros t' m' H. specialize (Hall k t' m' Hlt H). unfold l, w_index in *. lia.
      * simpl. by rewrite Hlog.
    + pose proof (tv_store_grows l t tv Hok) as [Hok' Hcur _].
      pose proof (insert_le _ _ _ (mkMsg (ticket_words pos (frames !!! i) !!! k) (relaxed_view l t tv) pos) Hf) as Hle.
      split; [done|]. split; [|cbv zeta; fold pos; split_and!].
      * intros q t' Hq Hnst [(? & _)|H]%has_claim_insert; [done|by apply (Hun q t' Hq)].
      * lia.
      * intros t' [(? & _)|H]%has_published_insert; [done|by apply (Hnp t')].
      * exists tc. split; [by eapply has_claim_le|]. split; [etrans; [done|apply Hcur]|done].
      * intros j Hj. destruct (decide (j = k)) as [->|Hne].
        -- exists t. split; [eexists; split; [apply get_insert_at|done]|apply bump_time_at].
        -- destruct (Hw j ltac:(lia)) as (t' & H1 & H2). exists t'.
           split; [by eapply has_word_le|etrans; [done|apply Hcur]].
      * intros j t' Hj [(El & _)|H]%has_word_insert; [injection El; lia|by apply (Hnw j t'); [lia|]].
      * intros j t' m' Hj [(El & -> & _)|H]%get_insert_new; [rewrite El; apply bump_time_at|].
        etrans; [by eapply Hall|apply Hcur].
    + exists pos. split; [done|]. right. split; [done|]. by exists k.
  - assert (k = kFrameWords) as -> by lia. set (l := LSeq (w_index s pos)) in *.
    set (p' := if (S i <? length frames)%nat then PClaim base (S i) frames else PIdle).
    assert (∀ q, owns p' q → pos < q ∧ owns (PStore base i frames kFrameWords) q) as Hsub.
    { intros q. unfold p', pos. destruct (Nat.ltb_spec (S i) (length frames)); simpl; lia. }
    eapply weak_inv_prod; try done.
    + eapply (mem_inv_publish _ _ _ _ _ _ _ Hmem Hf pos tc); try done.
      unfold l, w_index in *. lia.
    + destruct Hbat as (H0 & Hi & Hle & Hall'). unfold p'. destruct (Nat.ltb_spec (S i) (length frames)); done.
    + intros q Hq. by apply Hsub.
    + split; [by apply tv_store_grows|]. split.
      * intros q t' [Hlt Hq]%Hsub _ [(_ & _ & Hv)|H]%has_claim_insert; [simpl in Hv; lia|].
        apply (Hun q t' Hq); [simpl; fold pos; lia|done].
      * unfold p'. by destruct (S i <? length frames)%nat.
    + exists pos. split; [done|]. left. split; [done|]. by right.
Qed.

Lemma weak_publish_inv a frames t tv s' :
  w_prods s !! a = Some (PIdle, tv) → frames ≠ [] → Forall frame_wf frames →
  weak_publish s a frames t tv = Some s' → weak_bound s' → weak_inv fenced s'.
Proof.
  intros Ha Hne Hwf. unfold weak_publish.
  destruct (readable_msg _ _ _ _) as [m|] eqn:Hr; [|done]. apply readable_Some in Hr as [Hcur Hg].
  destruct (free _ _ _) eqn:Hf; [|done]. apply free_None in Hf. intros [= <-] Hb'.
  unfold weak_bound, log_bound in Hb'. simpl in Hb'. rewrite length_app in Hb'.
  pose proof Hinv as [Hs Hwf' Hmem Hbatch Hdisj Hprods Hreaders Hincons].
  destruct (Hprods _ _ _ Ha) as (Hok & _).
  set (tv1 := tv_load false LWpos t m tv) in *.
  destruct (mi_wpos _ _ _ _ Hmem) as (_ & _ & _ & Hval & _). specialize (Hval t m Hg).
  set (new := mkMsg _ _ _). set (N := Z.of_nat (length (w_log s))) in *.
  assert (m_val new = m_val m + Z.of_nat (length frames)) as Hv.
  { simpl. apply u64_small. unfold fits; pow_consts; lia. }
  destruct (mem_inv_ticket fenced (w_mask s) _ _ _ _ new Hmem Hf frames t m eq_refl eq_refl Hg Hv) as [Em Hmem'].
  rewrite Em. fold N. pose proof (insert_le _ _ _ new Hf) as Hle.
  assert (0 < length frames)%nat as Hpos by (destruct frames; simpl; [done|lia]).
  set (tv2 := tv_store LWpos (t + 1) tv1).
  assert (∀ b pb tb, (<[a := (PClaim N 0 frames, tv2)]> (w_prods s)) !! b = Some (pb, tb) →
    (a = b ∧ pb = PClaim N 0 frames ∧ tb = tv2) ∨ (a ≠ b ∧ w_prods s !! b = Some (pb, tb))) as Hlook.
  { intros b pb tb H. apply list_lookup_insert_Some in H as [(-> & [= -> ->] & _)|[? ?]]; auto. }
  split; simpl; try done.
  - by apply Forall_app.
  - intros b pb tb [(_ & -> & _)|[_ H]]%Hlook; [|by eapply batch_ok_app, Hbatch].
    simpl. rewrite length_app. repeat (split; [lia|]). intros j Hj.
    unfold N. rewrite Nat2Z.id. rewrite lookup_total_app_r by lia. f_equal. lia.
  - intros b c pb tb pc tc q [(<- & -> & _)|[Hn1 H1]]%Hlook [(<- & -> & _)|[Hn2 H2]]%Hlook O1 O2; eauto.
    + pose proof (owns_logged _ _ _ (Hbatch _ _ _ H2) O2). simpl in O1. lia.
    + pose proof (owns_logged _ _ _ (Hbatch _ _ _ H1) O1). simpl in O2. lia.
  - intros b pb tb [(_ & -> & ->)|[Hn H]]%Hlook.
    + split; [apply tv_store_grows, tv_load_grows, Hok|]. split; [|done].
      intros q t' Hq _ [(? & _)|Hc]%has_claim_insert; [done|].
      simpl in Hq. pose proof (claim_logged _ _ _ _ Hmem q t' ltac:(lia) Hc). lia.
    + apply (prod_inv_insert fenced (w_mask s) (w_mem s) (w_log s)); eauto; done.
  - intros b r tb H. eapply reader_winv_le; eauto.
Qed.
End Producers.

(** ** Preservation: readers *)

Lemma tv_grows_phase fenced cap mask mem log n ph tv tv' :
  tv_grows tv tv' → phase_winv fenced cap mask mem log n ph tv → phase_winv fenced cap mask mem log n ph tv'.
Proof.
  intros [_ Hcur Hacq]. destruct ph as [|s1 words|]; simpl; [done| |done].
  intros (-> & Hlt & Hlen & (t & Hp & Ht) & Hw & Hc). split_and!; try done.
  - exists t. split; [done|]. etrans; [done|apply Hcur].
  - intros k Hk. destruct (Hw k Hk) as (t' & ? & ?). exists t'. split; [done|]. etrans; [done|apply Hcur].
  - intros j w Hj. destruct (Hc j w Hj) as (p & Hp' & E & Hv & Hf). exists p. split_and!; try done; [lia|lia|].
    intros Hfen. destruct (Hf Hfen) as (tc & ? & ?). exists tc. split; [done|]. etrans; [done|apply Hacq].
Qed.

(** One choice per element of a list. *)
Lemma list_choice {A B} (P : nat → A → B → Prop) (l : list A) :
  (∀ j x, l !! j = Some x → ∃ y, P j x y) →
  ∃ ys, length ys = length l ∧ ∀ j x y, l !! j = Some x → ys !! j = Some y → P j x y.
Proof.
  revert P. induction l as [|x l IH]; intros P H; [by exists []|].
  destruct (H 0%nat x eq_refl) as [y Hy]. destruct (IH (λ j, P (S j))) as (ys & Hl & Hys).
  { intros j z Hz. by apply (H (S j)). }
  exists (y :: ys). split; [simpl; lia|]. intros [|j] z w; simpl; [congruence|apply Hys].
Qed.

Section Readers.
Context (fenced : bool) (s : WState).
Hypothesis Hinv : weak_inv fenced s.
Hypothesis Hb : weak_bound s.

Local Abbreviation N := (Z.of_nat (length (w_log s))).
Local Abbreviation rinv := (reader_winv fenced (w_cap s) (w_mask s) (w_mem s) (w_log s)).
Local Abbreviation pinv := (phase_winv fenced (w_cap s) (w_mask s) (w_mem s) (w_log s)).

Lemma weak_inv_reader b incons r tv :
  rinv r tv → (fenced = true → incons = 0) → weak_inv fenced (set_wreader s b incons (r, tv)).
Proof.
  intros Hr Hi. destruct Hinv. split; simpl; try done.
  intros b' r' tv' H. apply list_lookup_insert_Some in H as [(_ & [= <- <-] & _)|[_ H]]; eauto.
Qed.

Lemma reader_goto ph r tv tv' :
  rinv r tv → tv_grows tv tv' → pinv (next (r_cursor r)) ph tv' →
  rinv (mkReader ph (r_cursor r) (r_start r) (r_out r)) tv'.
Proof. intros (_ & Hd & _) Hg Hph. split; [apply Hg|]. done. Qed.

Lemma next_nonneg r tv : rinv r tv → 0 <= next (r_cursor r).
Proof. intros (_ & (H1 & H2 & H3 & _) & _). lia. Qed.

(** A sequence word of a later lap: the frame of [n] is out of the ring. *)
Lemma later_lapped n p : 0 <= n → n < p < N → cell_index (w_mask s) p = cell_index (w_mask s) n → n + w_cap s < N.
Proof.
  intros Hn Hp E. pose proof (same_cell _ _ _ (wi_shape _ _ Hinv) n p ltac:(lia) ltac:(lia) (eq_sym E)). lia.
Qed.

Lemma weak_first_inv r tv t m :
  rinv r tv → r_phase r = RIdle →
  let n := next (r_cursor r) in
  let l := LSeq (w_index s n) in
  readable_msg (w_mem s) l t tv = Some m → m_val m ≠ 0 → n <= (m_val m - 1) / 2 →
  let tv' := tv_load true l t m tv in
  ((m_val m - 1) / 2 > n → pinv n RLap tv') ∧
  ((m_val m - 1) / 2 = n → Z.land (m_val m) 1 = 0 → pinv n (RCopy (m_val m) []) tv').
Proof.
  intros Hr Hph n l Hm Hv Hle tv'. apply readable_Some in Hm as [Hcur Hg].
  pose proof (wi_mem _ _ Hinv) as Hmem. pose proof (next_nonneg r tv Hr) as Hn. fold n in Hn.
  destruct (mi_seq _ _ _ _ Hmem _ _ _ Hg) as [[? _]|(p & Hp & E & Hval)]; [done|].
  assert ((m_val m - 1) / 2 = p) as Hcp by (destruct Hval as [->|[-> _]]; zmod).
  rewrite Hcp. split.
  - intros Hgt. apply (later_lapped n p); [done|lia|done].
  - intros -> Hev. destruct Hval as [Ho|[He Hcov]]; [rewrite Ho, land_odd in Hev; done|].
    split_and!; try done; [lia|unfold kFrameWords; simpl; lia|..].
    + exists t. split; [by exists m|]. apply tv_load_at.
    + intros k Hk. destruct (Hcov k Hk) as (tw & Hw & Hle'). exists tw. split; [done|].
      etrans; [done|]. apply tv_acquire.
Qed.

Lemma weak_copy_inv r tv t m s1 words :
  rinv r tv → r_phase r = RCopy s1 words → (length words < kFrameWords)%nat →
  let n := next (r_cursor r) in
  let l := LWord (w_index s n) (length words) in
  readable_msg (w_mem s) l t tv = Some m →
  pinv n (RCopy s1 (words ++ [m_val m])) (tv_load false l t m tv).
Proof.
  intros Hr Hph Hlen n l Hm. apply readable_Some in Hm as [Hcur Hg].
  pose proof (wi_mem _ _ Hinv) as Hmem. pose proof (next_nonneg r tv Hr) as Hn. fold n in Hn.
  pose proof Hr as (Hok & _ & Hp). rewrite Hph in Hp. fold n in Hp.
  apply (tv_grows_phase _ _ _ _ _ _ _ _ _ (tv_load_grows false l t m tv Hok)) in Hp.
  pose proof Hr as (_ & _ & Hp0). rewrite Hph in Hp0. destruct Hp0 as (_ & _ & _ & _ & Hw0 & _). fold n in Hw0.
  destruct Hp as (-> & Hlt & _ & Hpub & Hw & Hc).
  split_and!; try done; [rewrite length_app; simpl; lia|].
  intros j w [Hj|[Hge Hj]]%lookup_app_Some; [by apply Hc|].
  apply list_lookup_singleton_Some in Hj as [Hj0 <-]. assert (j = length words) as -> by lia.
  destruct (Hw0 _ Hlen) as (tw & Htw & Hle).
  destruct (word_from _ _ _ _ Hmem n (length words) tw t m Hn Htw) as [Hpn [[_ ?]|(Hpl & E & Hv & tc & Hcl & Hf)]];
    [unfold l, w_index in *; lia|done|lia|].
  exists (m_pos m). split_and!; try done; [lia|].
  intros Hfen. exists tc. split; [done|]. etrans; [by apply Hf|]. apply (tv_load_acq false l).
Qed.

(** The second load of the sequence word: the words are of one cell, and with the fence
    all of the reader's own ticket. *)
Lemma weak_check_inv r tv t m s1 words :
  rinv r tv → r_phase r = RCopy s1 words → length words = kFrameWords →
  let n := next (r_cursor r) in
  readable_msg (w_mem s) (LSeq (w_index s n)) t (fence_acquire tv) = Some m →
  (m_val m ≠ s1 → n + w_cap s < N) ∧
  ∃ ps, length ps = kFrameWords ∧ words = imap (λ k p, ticket_words p (w_log s !!! Z.to_nat p) !!! k) ps ∧
        Forall (λ p, n <= p < N ∧ cell_index (w_mask s) p = cell_index (w_mask s) n) ps ∧
        (fenced = true → m_val m = s1 → Forall (λ p, p = n) ps).
Proof.
  intros Hr Hph Hlen n Hm. apply readable_Some in Hm as [Hcur Hg]. simpl in Hcur.
  pose proof (wi_mem _ _ Hinv) as Hmem. pose proof (next_nonneg r tv Hr) as Hn. fold n in Hn.
  pose proof Hr as (Hok & _ & Hp). rewrite Hph in Hp. fold n in Hp.
  destruct Hp as (-> & Hlt & _ & (tp & (mp & Hgp & Hvp) & Htp) & _ & Hc).
  pose proof (Hok (LSeq (cell_index (w_mask s) n))) as Hcq. unfold w_index in *. split.
  - intros Hne. destruct (decide (tp = t)) as [->|Htt]; [simplify_eq; lia|].
    pose proof (mi_seq_mono _ _ _ _ Hmem _ _ _ _ _ Hgp Hg ltac:(lia)) as Hgt.
    destruct (mi_seq _ _ _ _ Hmem _ _ _ Hg) as [[? _]|(p & Hp & E & Hval)]; [lia|].
    apply (later_lapped n p); [done|lia|done].
  - destruct (list_choice _ words Hc) as (ps & Hl & Hps). exists ps. split; [lia|].
    assert (∀ j p, ps !! j = Some p → ∃ w, words !! j = Some w) as Hw.
    { intros j p Hj. apply lookup_lt_is_Some_2. apply lookup_lt_Some in Hj. lia. }
    split; [|split].
    + apply list_eq. intros j. rewrite list_lookup_imap.
      destruct (ps !! j) as [p|] eqn:Hj; simpl.
      * destruct (Hw j p Hj) as [w Hjw]. rewrite Hjw. f_equal. by apply (Hps j w p).
      * apply lookup_ge_None in Hj. apply lookup_ge_None. lia.
    + apply Forall_lookup. intros j p Hj. destruct (Hw j p Hj) as [w Hjw]. split; by eapply (Hps j w p).
    + intros Hf Hv. apply Forall_lookup. intros j p Hj. destruct (Hw j p Hj) as [w Hjw].
      destruct (Hps j w p Hjw Hj) as (Hp & E & _ & Htc). destruct (Htc Hf) as (tc & (mc & Hgc & Hvc) & Hle).
      rewrite E in Hgc. destruct (decide (tc = t)) as [->|Hne]; [simplify_eq; lia|].
      pose proof (mi_seq_mono _ _ _ _ Hmem _ _ _ _ _ Hgc Hg ltac:(lia)). lia.
Qed.

Lemma weak_deliver_inv r ps words :
  delivered fenced (w_mask s) (w_log s) r →
  let n := next (r_cursor r) in
  n < N → length ps = kFrameWords →
  words = imap (λ k p, ticket_words p (w_log s !!! Z.to_nat p) !!! k) ps →
  Forall (λ p, n <= p < N ∧ cell_index (w_mask s) p = cell_index (w_mask s) n) ps →
  (fenced = true → Forall (λ p, p = n) ps) → nth 0 words 0 = n →
  delivered fenced (w_mask s) (w_log s)
    (mkReader RIdle (mkCursor (u64 (n + 1)) (missed (r_cursor r))) (r_start r) (r_out r ++ [words_frame words])).
Proof.
  intros (H1 & H2 & H3 & H4 & H5 & H6 & H7) n Hn Hlen Hwords Hps Hfen H0. fold n in H3, H4, H6.
  unfold weak_bound, log_bound in Hb. rewrite u64_small by (unfold fits; pow_consts; lia).
  assert (f_seq (words_frame words) = n) as Hf by done.
  destruct ps as [|p0 ps]; [done|]. assert (p0 = n) as Hp0 by (rewrite <- H0, Hwords; done).
  unfold delivered. simpl. rewrite length_app. simpl. split_and!; try done; [lia|lia|..].
  - apply Forall_app. split; [done|]. constructor; [|done]. unfold returned_ok. rewrite Hf. split; [lia|].
    exists (p0 :: ps). rewrite Hwords. split_and!; try done. simpl. by rewrite Hp0.
  - apply Forall_app. split; [|by constructor; [rewrite Hf; lia|]].
    eapply Forall_impl; [exact H6|]. simpl. intros; lia.
  - intros i j g h Hij Hi Hj. apply lookup_app_Some in Hj as [Hj|[Hge Hj]].
    + apply lookup_lt_Some in Hj as Hlj. rewrite lookup_app_l in Hi by lia. eauto.
    + apply list_lookup_singleton_Some in Hj as [Hj0 <-].
      rewrite lookup_app_l in Hi by lia. rewrite Hf.
      eapply Forall_lookup_1 in H6; [|exact Hi]. simpl in H6. lia.
Qed.

(** A load of [write_pos_] may be old, but never ahead of the tickets. *)
Lemma weak_wpos t tv m : readable_msg (w_mem s) LWpos t tv = Some m → 0 <= m_val m <= N.
Proof.
  intros [_ Hg]%readable_Some. destruct (mi_wpos _ _ _ _ (wi_mem _ _ Hinv)) as (_ & _ & _ & H & _). eauto.
Qed.

Lemma oldest_bounds v : 0 <= v <= N → 0 <= oldest (w_cap s) v <= N.
Proof.
  intros Hv. pose proof (shape_bounds (wi_shape _ _ Hinv)). unfold oldest. rewrite Z.gtb_ltb.
  case_match; zbool; lia.
Qed.

Lemma weak_lap_inv r v :
  delivered fenced (w_mask s) (w_log s) r → next (r_cursor r) + w_cap s < N → 0 <= v <= N →
  delivered fenced (w_mask s) (w_log s)
    (mkReader RIdle (lap (oldest (w_cap s) v) (r_cursor r)) (r_start r) (r_out r)).
Proof.
  intros (H1 & H2 & H3 & H4 & H5 & H6 & H7) Hlap Hv. pose proof (oldest_bounds v Hv).
  pose proof (shape_bounds (wi_shape _ _ Hinv)). unfold weak_bound, log_bound in Hb.
  assert (∃ d, 0 < d ∧ next (r_cursor r) + d <= N ∧
               lap (oldest (w_cap s) v) (r_cursor r) = mkCursor (next (r_cursor r) + d) (missed (r_cursor r) + d))
    as (d & Hd & Hle & ->).
  { unfold lap. rewrite Z.gtb_ltb. case_match; zbool; [exists (oldest (w_cap s) v - next (r_cursor r))|exists 1];
      (split; [lia|]; split; [lia|]; f_equal; unwrap; lia). }
  unfold delivered. simpl. split_and!; try done; [lia..|].
  eapply Forall_impl; [exact H6|]. simpl. intros; lia.
Qed.
End Readers.

Lemma weak_read_inv fenced s b r tv t s' :
  weak_inv fenced s → weak_bound s → w_readers s !! b = Some (r, tv) → weak_read s b r t tv = Some s' →
  weak_inv fenced s'.
Proof.
  intros Hinv Hb Hl. pose proof (wi_readers _ _ Hinv b r tv Hl) as Hr. pose proof (wi_incons _ _ Hinv) as Hi.
  pose proof Hr as (Hok & Hd & Hp). unfold weak_read. destruct (r_phase r) as [|s1 words|] eqn:Hph.
  - destruct (readable_msg _ _ _ _) as [m|] eqn:Hm; [|done].
    pose proof (weak_first_inv fenced s Hinv r tv t m Hr Hph Hm) as Hfirst. simpl in Hfirst.
    pose proof (tv_load_grows true (LSeq (w_index s (next (r_cursor r)))) t m tv Hok) as Hg.
    repeat case_match; zbool; intros [= <-]; apply weak_inv_reader; try done; apply (reader_goto _ _ _ _ tv);
      try done; apply Hfirst; lia.
  - destruct (Nat.ltb_spec (length words) kFrameWords) as [Hlt|Hfull].
    + destruct (readable_msg _ _ _ _) as [m|] eqn:Hm; [|done]. intros [= <-].
      apply weak_inv_reader; [done| |done]. apply (reader_goto _ _ _ _ tv); [done|by apply tv_load_grows|].
      by apply (weak_copy_inv fenced s Hinv r tv).
    + destruct (readable_msg _ _ _ _) as [m|] eqn:Hm; [|done].
      destruct Hp as (-> & Hn & Hlen & _).
      destruct (weak_check_inv fenced s Hinv r tv t m _ words Hr Hph ltac:(lia) Hm)
        as (Hlap & ps & Hpl & Hw & Hps & Hfen).
      pose proof (fence_acquire_grows tv Hok) as Hg1.
      pose proof (tv_load_grows false (LSeq (w_index s (next (r_cursor r)))) t m _ (grows_ok _ _ Hg1)) as Hg2.
      pose proof (tv_grows_trans _ _ _ Hg1 Hg2) as Hg.
      destruct (Z.eqb_spec (m_val m) (2 * next (r_cursor r) + 2)) as [E|E]; simpl negb; cbv iota.
      * destruct ps as [|p0 ps]; [done|]. apply Forall_cons in Hps as Hps0. destruct Hps0 as [[Hp0 Ep0] _].
        assert (nth 0 words 0 = p0) as H0 by (rewrite Hw; done).
        destruct (Z.eqb_spec (nth 0 words 0) (next (r_cursor r))) as [En|En]; simpl negb; cbv iota; intros [= <-].
        -- apply weak_inv_reader; [done| |done]. split; [apply Hg|]. split; [|done].
           apply (weak_deliver_inv fenced s Hb r (p0 :: ps)); auto.
        -- apply weak_inv_reader; [done| |].
           ++ apply (reader_goto _ _ _ _ tv); [done..|]. apply (later_lapped fenced s Hinv _ p0); [|lia|done].
              by eapply next_nonneg.
           ++ intros Hf. exfalso. specialize (Hfen Hf E). apply Forall_cons in Hfen as [? _]. lia.
      * intros [= <-]. apply weak_inv_reader; [done| |done]. apply (reader_goto _ _ _ _ tv); [done..|].
        by apply Hlap.
  - destruct (readable_msg _ _ _ _) as [m|] eqn:Hm; [|done]. intros [= <-].
    apply weak_inv_reader; [done| |done]. split; [by apply tv_load_grows|]. split; [|done].
    apply (weak_lap_inv fenced); try done. by eapply weak_wpos.
Qed.

Lemma weak_attach_inv fenced s b r tv t s' :
  weak_inv fenced s → w_readers s !! b = Some (r, tv) → weak_attach s b r t tv = Some s' → weak_inv fenced s'.
Proof.
  intros Hinv Hl. pose proof (wi_readers _ _ Hinv b r tv Hl) as (Hok & _). unfold weak_attach.
  destruct (r_phase r); try done. destruct (readable_msg _ _ _ _) as [m|] eqn:Hm; [|done]. intros [= <-].
  pose proof (oldest_bounds _ _ Hinv _ (weak_wpos _ _ Hinv _ _ _ Hm)).
  apply weak_inv_reader; [done| |apply Hinv]. split; [by apply tv_load_grows|]. split; [|done].
  unfold delivered. simpl. split_and!; try done; lia.
Qed.

Lemma weak_step_log fenced s e s' : weak_step fenced s e = Some s' → ∃ ext, w_log s' = w_log s ++ ext.
Proof.
  intros Hstep. destruct e as [a frames t|a t|a t|a t|b t|b t]; simpl in Hstep;
    [|exists []; rewrite app_nil_r..].
  - repeat case_match; try done. unfold weak_publish in Hstep. repeat case_match; simplify_eq/=. eauto.
  - repeat case_match; try done. unfold weak_claim in Hstep. by repeat case_match; simplify_eq/=.
  - repeat case_match; try done. unfold weak_retry in Hstep. by repeat case_match; simplify_eq/=.
  - repeat case_match; try done. unfold weak_store in Hstep. by repeat case_match; simplify_eq/=.
  - repeat case_match; try done. unfold weak_read in Hstep. by repeat case_match; simplify_eq/=.
  - repeat case_match; try done. unfold weak_attach in Hstep. by repeat case_match; simplify_eq/=.
Qed.

Lemma weak_bound_step fenced s e s' : weak_step fenced s e = Some s' → weak_bound s' → weak_bound s.
Proof.
  intros Hstep. destruct (weak_step_log fenced s e s' Hstep) as [ext E]. unfold weak_bound.
  rewrite E, length_app. lia.
Qed.

Lemma weak_step_inv fenced s e s' :
  weak_inv fenced s → weak_bound s' → weak_step fenced s e = Some s' → weak_inv fenced s'.
Proof.
  intros Hinv Hb' Hstep. pose proof (weak_bound_step _ _ _ _ Hstep Hb') as Hb.
  destruct e as [a frames t|a t|a t|a t|b t|b t]; simpl in Hstep.
  - destruct (w_prods s !! a) as [[[| |] tv]|] eqn:Ha; try done. destruct frames as [|f fs]; [done|].
    destruct (bool_decide _) eqn:Hwf; [|done]. apply bool_decide_eq_true in Hwf. by apply (weak_publish_inv fenced s Hinv a (f :: fs) t tv).
  - destruct (w_prods s !! a) as [[[| |] tv]|] eqn:Ha; try done. by eapply (weak_claim_inv fenced s Hinv Hb a _ _ _ _ _ _ Ha).
  - destruct (w_prods s !! a) as [[[| |] tv]|] eqn:Ha; try done. by eapply (weak_retry_inv fenced s Hinv a _ _ _ _ _ _ Ha).
  - destruct (w_prods s !! a) as [[[| |] tv]|] eqn:Ha; try done. by eapply (weak_store_inv fenced s Hinv Hb a _ _ _ _ _ _ _ Ha).
  - destruct (w_readers s !! b) as [[r tv]|] eqn:Hl; [|done]. by eapply weak_read_inv.
  - destruct (w_readers s !! b) as [[r tv]|] eqn:Hl; [|done]. by eapply weak_attach_inv.
Qed.

Lemma mem_inv_empty fenced mask : mem_inv fenced mask ∅ [].
Proof.
  split.
  - exists 0. split; [lia|]. split; [|split].
    + intros t. unfold get. rewrite lookup_empty. destruct (Z.eqb_spec t 0); split; first [lia|by eexists|by intros [? ?]].
    + intros t m [-> ->]%get_empty. done.
    + intros m [_ ->]%get_empty. done.
  - intros i t m [-> ->]%get_empty. by left.
  - intros i t1 t2 m1 m2 [-> _]%get_empty [-> _]%get_empty. lia.
  - intros p q t (m & [-> ->]%get_empty & Hv). simpl in Hv. lia.
  - intros p t Hp (m & [-> ->]%get_empty & Hv). simpl in Hv. lia.
  - intros i k t m [-> ->]%get_empty. by left.
  - intros i k t1 t2 m1 m2 [-> _]%get_empty [-> _]%get_empty. lia.
Qed.

Lemma weak_init_inv fenced capacity r m n :
  0 <= capacity <= 2 ^ 63 → make_ring capacity = Some r → weak_inv fenced (weak_init r m n).
Proof.
  intros Hc Hr. pose proof (make_ring_shape capacity Hc) as (r' & Hr' & Hs & _ & _ & Hw & Hcells).
  assert (r' = r) as -> by congruence. rewrite Hcells in Hs.
  assert (∀ a p tv, replicate m (PIdle, tv_init) !! a = Some (p, tv) → p = PIdle ∧ tv = tv_init) as Hidle.
  { intros a p tv [[= -> ->] _]%lookup_replicate. done. }
  split; simpl; try done.
  - apply mem_inv_empty.
  - intros a p tv [-> _]%Hidle. done.
  - intros a b pa ta pb tb q [-> _]%Hidle. done.
  - intros a p tv [-> ->]%Hidle. split; [by intros l|done].
  - intros b rd tv [[= -> ->] _]%lookup_replicate. split; [by intros l|]. split; [|done].
    unfold delivered. simpl. split_and!; try done; lia.
Qed.

Lemma weak_reachable_inv fenced capacity m n s :
  0 <= capacity <= 2 ^ 63 → weak_reachable fenced capacity m n s → weak_bound s → weak_inv fenced s.
Proof.
  intros Hc (r & Hr & Hreach). revert Hreach.
  apply (reachable_invariant (weak_step fenced) (λ s, weak_bound s → weak_inv fenced s)).
  - intros _. by eapply weak_init_inv.
  - intros s1 e s2 H1 Hstep Hb. eapply weak_step_inv; eauto using weak_bound_step.
Qed.

(** A frame all of whose words are of its own ticket is the published one. *)
Lemma mixed_own log p : frame_wf (log !!! Z.to_nat p) → mixed log (replicate 5 p) = set_seq p (log !!! Z.to_nat p).
Proof. intros Hwf. unfold mixed. rewrite <- words_frame_ticket by done. done. Qed.

Lemma returned_exact fenced s f :
  weak_inv fenced s → returned_ok fenced (w_mask s) (w_log s) f →
  fenced = true ∨ Z.of_nat (length (w_log s)) <= f_seq f + w_cap s →
  f = set_seq (f_seq f) (w_log s !!! Z.to_nat (f_seq f)).
Proof.
  intros Hinv (Hr & ps & Hf & Hl & H0 & Hps & Hfen) Hcase.
  assert (Forall (λ p, p = f_seq f) ps) as Hown.
  { destruct Hcase as [E|Hle]; [by apply Hfen|]. eapply Forall_impl; [exact Hps|]. simpl. intros p [Hp E].
    destruct (decide (p = f_seq f)) as [|Hne]; [done|].
    pose proof (same_cell _ _ _ (wi_shape _ _ Hinv) (f_seq f) p ltac:(lia) ltac:(lia) (eq_sym E)). lia. }
  assert (replicate 5 (f_seq f) = ps) as Hrep
    by (apply replicate_as_elem_of; split; [done|]; by apply Forall_forall).
  rewrite Hf at 1. rewrite <- Hrep.
  apply mixed_own. eapply Forall_forall; [apply (wi_wf _ _ Hinv)|]. apply list_elem_of_lookup_total_2. lia.
Qed.

(** ** Properties *)

(** C23. What the source's memory orders guarantee. Whatever the loads of a weakly ordered
    machine answer, every frame a reader returns carries the sequence number of its own
    position in front, its other words are of that position or of later laps of the same
    cell, and it is exactly the published frame as long as its cell has not been handed
    out again; sequence numbers only go up and the cursor accounts for every position,
    even when [lap] works with an outdated write position. *)
Theorem ring_weak_reads capacity m n s b r tv :
  0 <= capacity <= 2 ^ 63 → weak_reachable false capacity m n s → weak_bound s →
  w_readers s !! b = Some (r, tv) →
  next (r_cursor r) = r_start r + Z.of_nat (length (r_out r)) + missed (r_cursor r) ∧
  next (r_cursor r) <= Z.of_nat (length (w_log s)) ∧
  Forall (λ f, r_start r <= f_seq f < next (r_cursor r) ∧
    (∃ ps, f = mixed (w_log s) ps ∧ length ps = kFrameWords ∧ ps !! 0%nat = Some (f_seq f) ∧
           Forall (λ p, f_seq f <= p < Z.of_nat (length (w_log s)) ∧
                        cell_index (w_mask s) p = cell_index (w_mask s) (f_seq f)) ps) ∧
    (Z.of_nat (length (w_log s)) <= f_seq f + w_cap s →
     f = set_seq (f_seq f) (w_log s !!! Z.to_nat (f_seq f)))) (r_out r) ∧
  (∀ i j f g, (i < j)%nat → r_out r !! i = Some f → r_out r !! j = Some g → f_seq f < f_seq g).
Proof.
  intros Hc Hr Hb Hl. pose proof (weak_reachable_inv _ _ _ _ _ Hc Hr Hb) as Hinv.
  destruct (wi_readers _ _ Hinv b r tv Hl) as (_ & (_ & _ & H3 & H4 & H5 & H6 & H7) & _).
  split_and!; try done. apply Forall_forall. intros f Hf. rewrite Forall_forall in H5, H6.
  split; [by apply H6|]. pose proof (H5 f Hf) as Hok. split.
  - destruct Hok as (_ & ps & ? & ? & ? & ? & _). by exists ps.
  - intros Hle. apply (returned_exact false); auto.
Qed.

(** With a release fence after the claim no read is torn, on any machine: every frame
    returned is the frame published under its sequence number, and the
    [inconsistent_reads] detector never fires. *)
Theorem ring_weak_fenced capacity m n s b r tv :
  0 <= capacity <= 2 ^ 63 → weak_reachable true capacity m n s → weak_bound s →
  w_readers s !! b = Some (r, tv) →
  Forall (λ f, 0 <= f_seq f < Z.of_nat (length (w_log s)) ∧
               f = set_seq (f_seq f) (w_log s !!! Z.to_nat (f_seq f))) (r_out r) ∧
  w_incons s = 0.
Proof.
  intros Hc Hr Hb Hl. pose proof (weak_reachable_inv _ _ _ _ _ Hc Hr Hb) as Hinv.
  destruct (wi_readers _ _ Hinv b r tv Hl) as (_ & (_ & _ & _ & _ & H5 & _) & _).
  split; [|by apply Hinv]. eapply Forall_impl; [exact H5|]. intros f Hf. split; [apply Hf|].
  apply (returned_exact true); auto.
Qed.

(** ** A torn read of the source's orders *)

Definition torn_frame (x : Z) : Frame := mkFrame 0 (100 * x) (100 * x + 1) x 1 8 0 0 (replicate 8 x).

(** One producer publishes three frames on a ring of two cells. Its stores of the first
    two words of the third frame are seen by a reader that is copying the first one,
    and its claim is not. *)
Definition torn_prefix : list WEvent :=
  [WPublish 0 (map torn_frame [1; 2; 3]) 0; WClaim 0 0] ++ repeat (WStore 0 1) 5 ++ [WStore 0 2; WClaim 0 0] ++
  repeat (WStore 0 1) 5 ++ [WStore 0 2; WRead 0 2; WRead 0 1; WClaim 0 2; WStore 0 2; WStore 0 2] ++
  [WRead 0 2; WRead 0 1; WRead 0 1; WRead 0 1].

Definition weak_run (fenced : bool) (evs : list WEvent) : option WState :=
  run (weak_step fenced) evs (weak_init demo_ring 1 1).

Definition weak_out (s : WState) : list Frame :=
  match w_readers s !! 0%nat with Some (r, _) => r_out r | None => [] end.

(** A check of the state a run ends in. *)
Definition run_checks (fenced : bool) (evs : list WEvent) (P : WState → bool) : bool :=
  match weak_run fenced evs with Some s => P s | None => false end.

Lemma run_checks_reaches fenced evs P :
  run_checks fenced evs P = true → ∃ s, weak_run fenced evs = Some s ∧ weak_reachable fenced 2 1 1 s ∧ P s = true.
Proof.
  unfold run_checks. destruct (weak_run fenced evs) as [s|] eqn:E; [|done]. intros HP. exists s.
  split; [done|]. split; [|done]. exists demo_ring. split; [reflexivity|]. by exists evs.
Qed.

Definition torn_check (s : WState) : bool :=
  bool_decide (weak_out s = [mkFrame 0 300 101 1 1 8 0 0 (replicate 8 1)]) && (w_incons s =? 0) &&
  bool_decide (w_log s = map torn_frame [1; 2; 3]).

(** The acquire compare-exchange does not order the claim before the payload stores: with
    the source's orders a reader validates and returns a mixture of two frames that
    nobody published, and the detector does not notice. The same loads are impossible
    once a release fence follows the claim. *)
Theorem ring_weak_torn :
  (∃ s f, weak_reachable false 2 1 1 s ∧ weak_out s = [f] ∧ w_incons s = 0 ∧
          Forall (λ g, f ≠ set_seq (f_seq f) g) (w_log s)) ∧
  weak_run true torn_prefix ≠ None ∧ weak_run true (torn_prefix ++ [WRead 0 2]) = None.
Proof.
  split; [|split].
  - destruct (run_checks_reaches false (torn_prefix ++ [WRead 0 2]) torn_check) as (s & _ & Hr & HP);
      [by vm_compute|]. unfold torn_check in HP.
    apply andb_prop in HP as [[H1 H2]%andb_prop H3]. zbool.
    apply bool_decide_eq_true in H1, H3. exists s. eexists. split; [done|]. split; [exact H1|].
    split; [done|]. rewrite H3. by repeat constructor.
  - destruct (run_checks_reaches true torn_prefix (λ _, true)) as (s & -> & _); [by vm_compute|done].
  - destruct (weak_run true (torn_prefix ++ [WRead 0 2])) as [s|] eqn:E; [|done]. exfalso.
    assert (run_checks true (torn_prefix ++ [WRead 0 2]) (λ _, true) = false) as H by (by vm_compute).
    unfold run_checks in H. by rewrite E in H.
Qed.

(** ** Witnesses *)

(** The end of the torn run, and the reader there. *)
Definition weak_end (fenced : bool) (evs : list WEvent) : WState :=
  default (weak_init demo_ring 1 1) (weak_run fenced evs).

Definition weak_reader0 (s : WState) : Reader * TView :=
  default (mkReader RIdle (mkCursor 0 0) 0 [], tv_init) (w_readers s !! 0%nat).

Lemma weak_end_reachable fenced evs :
  run_checks fenced evs (λ s, bool_decide (length (w_readers s) = 1%nat)) = true →
  weak_reachable fenced 2 1 1 (weak_end fenced evs) ∧
  w_readers (weak_end fenced evs) !! 0%nat = Some (weak_reader0 (weak_end fenced evs)).
Proof.
  intros (s & Hs & Hr & Hl)%run_checks_reaches. apply bool_decide_eq_true in Hl.
  unfold weak_end, weak_reader0. rewrite Hs. simpl. split; [done|].
  destruct (w_readers s) as [|x [|]]; done.
Qed.

Definition torn_end : WState := weak_end false (torn_prefix ++ [WRead 0 2]).

Lemma ring_weak_reads_witness :
  weak_out torn_end = [mkFrame 0 300 101 1 1 8 0 0 (replicate 8 1)] ∧
  next (r_cursor (weak_reader0 torn_end).1) = 1 ∧
  Forall (λ f, ∃ ps, f = mixed (w_log torn_end) ps ∧ ps !! 0%nat = Some (f_seq f)) (r_out (weak_reader0 torn_end).1).
Proof.
  destruct (weak_end_reachable false (torn_prefix ++ [WRead 0 2])) as [Hr Hl]; [by vm_compute|].
  destruct (weak_reader0 (weak_end false (torn_prefix ++ [WRead 0 2]))) as [r tv] eqn:Er.
  destruct (ring_weak_reads 2 1 1 torn_end 0%nat r tv) as (_ & _ & H & _); [lia|exact Hr|by vm_compute|exact Hl|].
  split; [by vm_compute|]. split; [by vm_compute|]. unfold torn_end in *. rewrite Er. simpl.
  eapply Forall_impl; [exact H|]. intros f (_ & (ps & Hf & _ & H0 & _) & _). exists ps. exact (conj Hf H0).
Defined.

(** The reader copies the first frame before its cell is claimed again. *)
Definition whole_events : list WEvent :=
  [WPublish 0 (map torn_frame [1; 2; 3]) 0; WClaim 0 0] ++ repeat (WStore 0 1) 5 ++ [WStore 0 2; WClaim 0 0] ++
  repeat (WStore 0 1) 5 ++ [WStore 0 2; WRead 0 2] ++ repeat (WRead 0 1) 5 ++ [WRead 0 2; WClaim 0 2; WStore 0 2].

Definition whole_end : WState := weak_end true whole_events.

Lemma ring_weak_fenced_witness :
  weak_out whole_end = [set_seq 0 (torn_frame 1)] ∧
  Forall (λ f, f = set_seq (f_seq f) (w_log whole_end !!! Z.to_nat (f_seq f))) (r_out (weak_reader0 whole_end).1).
Proof.
  destruct (weak_end_reachable true whole_events) as [Hr Hl]; [by vm_compute|].
  destruct (weak_reader0 (weak_end true whole_events)) as [r tv] eqn:Er.
  destruct (ring_weak_fenced 2 1 1 whole_end 0%nat r tv) as [H _]; [lia|exact Hr|by vm_compute|exact Hl|].
  split; [by vm_compute|]. unfold whole_end in *. rewrite Er. simpl.
  eapply Forall_impl; [exact H|]. intros f [_ Hf]. exact Hf.
Defined.
