(* ===== verification/RingIdle.v ===== *)
(** * RingIdle: how an idle ring reader parks and is woken
      (src/src/broadcast_ring.hpp, [wait_for_data], [wake_readers], [close])

    One step per access to the shared write position, waiter count, mutex and condition
    variable, for any number of readers, producers and closing threads, interleaved in
    any order. The loads answer as the memory orders of the source allow: a load of the
    write position, whose increments are relaxed, with any value it has had that is not
    older than what its reader has already seen; the sequentially consistent load of the
    waiter count with any value since the last [fetch_add], which is sequentially
    consistent too, while the [fetch_sub] are relaxed. What a thread learns through the
    mutex or through the waiter count is not used to rule out old values, so the theorems
    hold of more runs than the C++ memory model has. Of a publication only what the idle
    path sees is kept: the tickets, and the call of [wake_readers] that ends it. The write
    position does not wrap (2^64 publications). *)

From S2P Require Import Prelude.

(** Where a reader is inside [wait_for_data (known, timeout)]. *)
Inductive WPhase :=
  | WIdle                  (* not in the call *)
  | WCheck                 (* before the first check *)
  | WRegister              (* before [waiters_.fetch_add] *)
  | WRecheck               (* registered, before the second check *)
  | WLock                  (* before taking [idle_mutex_] *)
  | WPred                  (* holding it, before the predicate *)
  | WBlock                 (* holding it, the predicate was false: about to sleep *)
  | WSleep                 (* asleep, the mutex released *)
  | WLast                  (* the timeout fired: before the last evaluation *)
  | WLeave (woken : bool)  (* before [waiters_.fetch_sub] *)
  | WDone (woken : bool).  (* returned *)

#[export] Instance WPhase_eq_dec : EqDecision WPhase.
Proof. solve_decision. Defined.

(** [w_seen]: the newest write position the reader has loaded. *)
Record Waiter := mkWaiter { w_phase : WPhase; w_known : Z; w_seen : Z }.

Inductive PPhase := PRest | PTicketed | PNotify.
Inductive CPhase := CRest | CNotify.

#[export] Instance PPhase_eq_dec : EqDecision PPhase.
Proof. solve_decision. Defined.
#[export] Instance CPhase_eq_dec : EqDecision CPhase.
Proof. solve_decision. Defined.

(** [i_old]: the values [write_pos_] had before; [i_stale]: those [waiters_] had since its
    last [fetch_add]. *)
Record IState := mkIState {
  i_wpos : Z;
  i_old : list Z;
  i_waiters : Z;
  i_stale : list Z;
  i_closed : bool;
  i_readers : list Waiter;
  i_prods : list PPhase;
  i_closers : list CPhase
}.

Inductive IEvent :=
  | ICall (b : nat) (known : Z)  (* reader [b] calls [wait_for_data] *)
  | IRead (b : nat) (v : Z)      (* reader [b] takes its next step; a load answers [v] *)
  | ITimeout (b : nat)           (* reader [b]'s wait times out *)
  | ISpurious (b : nat)          (* reader [b] wakes up without a notification *)
  | IProd (a count : nat) (v : Z) (* producer [a]; a call publishes [count], a load answers [v] *)
  | IClose (c : nat).            (* thread [c] takes its next step of [close] *)

Definition holds_mutex (w : Waiter) : bool :=
  match w_phase w with WPred | WBlock => true | _ => false end.

(** Nobody is inside a critical section of [idle_mutex_]. *)
Definition mutex_free (s : IState) : bool := negb (existsb holds_mutex (i_readers s)).

Definition set_waiter (s : IState) (b : nat) (w : Waiter) : IState :=
  mkIState (i_wpos s) (i_old s) (i_waiters s) (i_stale s) (i_closed s) (<[b := w]> (i_readers s)) (i_prods s) (i_closers s).

(** [waiters_.fetch_add(1, seq_cst)] and [waiters_.fetch_sub(1, relaxed)]. *)
Definition register_waiter (s : IState) : IState :=
  mkIState (i_wpos s) (i_old s) (u32 (i_waiters s + 1)) [] (i_closed s) (i_readers s) (i_prods s) (i_closers s).

Definition leave_waiter (s : IState) : IState :=
  mkIState (i_wpos s) (i_old s) (u32 (i_waiters s - 1)) (i_waiters s :: i_stale s) (i_closed s) (i_readers s)
    (i_prods s) (i_closers s).

(** [notify_all]: everyone asleep contends for the mutex again. *)
Definition wake (w : Waiter) : Waiter :=
  match w_phase w with WSleep => mkWaiter WLock (w_known w) (w_seen w) | _ => w end.

Definition notify_all (s : IState) : IState :=
  mkIState (i_wpos s) (i_old s) (i_waiters s) (i_stale s) (i_closed s) (map wake (i_readers s)) (i_prods s) (i_closers s).

Definition set_producer (s : IState) (a : nat) (p : PPhase) : IState :=
  mkIState (i_wpos s) (i_old s) (i_waiters s) (i_stale s) (i_closed s) (i_readers s) (<[a := p]> (i_prods s)) (i_closers s).

Definition set_closer (s : IState) (c : nat) (p : CPhase) : IState :=
  mkIState (i_wpos s) (i_old s) (i_waiters s) (i_stale s) (i_closed s) (i_readers s) (i_prods s) (<[c := p]> (i_closers s)).

(** What a load of [write_pos_] by the reader may answer, and a load of [waiters_]. *)
Definition may_read (s : IState) (w : Waiter) (v : Z) : bool :=
  (w_seen w <=? v) && bool_decide (v ∈ i_wpos s :: i_old s).

Definition may_count (s : IState) (v : Z) : bool := bool_decide (v ∈ i_waiters s :: i_stale s).

(** The statements of [wait_for_data]; [None] where the thread cannot move by itself. *)
Definition waiter_step (s : IState) (b : nat) (v : Z) (w : Waiter) : option IState :=
  let goto ph s := Some (set_waiter s b (mkWaiter ph (w_known w) (w_seen w))) in
  let load (k : bool → option IState) := if may_read s w v then k (v >? w_known w) else None in
  let seen ph s := Some (set_waiter s b (mkWaiter ph (w_known w) v)) in
  match w_phase w with
  | WIdle | WSleep | WDone _ => None
  | WCheck => load (λ ahead, if ahead then seen (WDone true) s else seen WRegister s)
  | WRegister => goto WRecheck (register_waiter s)
  | WRecheck => load (λ ahead, if ahead then seen (WDone true) (leave_waiter s) else seen WLock s)
  | WLock => if mutex_free s then goto WPred s else None
  | WPred => load (λ ahead, if ahead || i_closed s then seen (WLeave true) s else seen WBlock s)
  | WBlock => goto WSleep s
  | WLast => load (λ ahead, if mutex_free s then seen (WLeave (ahead || i_closed s)) s else None)
  | WLeave r => goto (WDone r) (leave_waiter s)
  end.

(** [publish] and [publish_batch] as the idle path sees them: the tickets (none for an
    empty batch), then [wake_readers]. *)
Definition producer_step (s : IState) (a count : nat) (v : Z) (p : PPhase) : option IState :=
  match p with
  | PRest =>
      if (count =? 0)%nat then Some s else
      Some (set_producer (mkIState (i_wpos s + Z.of_nat count) (i_wpos s :: i_old s) (i_waiters s) (i_stale s)
                            (i_closed s) (i_readers s) (i_prods s) (i_closers s)) a PTicketed)
  | PTicketed => if may_count s v then Some (set_producer s a (if v =? 0 then PRest else PNotify)) else None
  | PNotify => Some (set_producer (notify_all s) a PRest)
  end.

(** [close]: the flag under the mutex, then [notify_all]. *)
Definition closer_step (s : IState) (c : nat) (p : CPhase) : option IState :=
  match p with
  | CRest =>
      if mutex_free s
      then Some (set_closer (mkIState (i_wpos s) (i_old s) (i_waiters s) (i_stale s) true (i_readers s)
                               (i_prods s) (i_closers s)) c CNotify)
      else None
  | CNotify => Some (set_closer (notify_all s) c CRest)
  end.

Definition idle_step (s : IState) (e : IEvent) : option IState :=
  match e with
  | ICall b known =>
      match i_readers s !! b with
      | Some w => match w_phase w with
                  | WIdle | WDone _ => Some (set_waiter s b (mkWaiter WCheck known (w_seen w)))
                  | _ => None
                  end
      | None => None
      end
  | IRead b v => match i_readers s !! b with Some w => waiter_step s b v w | None => None end
  | ITimeout b =>
      match i_readers s !! b with
      | Some w => if decide (w_phase w = WSleep)
                  then Some (set_waiter s b (mkWaiter WLast (w_known w) (w_seen w))) else None
      | None => None
      end
  | ISpurious b =>
      match i_readers s !! b with
      | Some w => if decide (w_phase w = WSleep) then Some (set_waiter s b (wake w)) else None
      | None => None
      end
  | IProd a count v =>
      match i_prods s !! a with Some p => producer_step s a count v p | None => None end
  | IClose c => match i_closers s !! c with Some p => closer_step s c p | None => None end
  end.

Definition idle_init (n m k : nat) : IState :=
  mkIState 0 [] 0 [] false (replicate n (mkWaiter WIdle 0 0)) (replicate m PRest) (replicate k CRest).

Definition idle_reachable (n m k : nat) (s : IState) : Prop := reachable idle_step (idle_init n m k) s.

(** ** The invariant *)

(** The sum of [f] over a list, to count registered readers and their remaining steps. *)
Fixpoint total {A} (f : A → Z) (l : list A) : Z :=
  match l with [] => 0 | x :: l' => f x + total f l' end.

Lemma total_insert {A} (f : A → Z) l b (x y : A) :
  l !! b = Some x → total f (<[b := y]> l) = total f l - f x + f y.
Proof.
  revert b. induction l as [|z l IH]; intros [|b] H; simplify_eq/=; [lia|].
  rewrite (IH _ H). lia.
Qed.

Lemma total_map {A} (f : A → Z) g l : (∀ x, f (g x) = f x) → total f (map g l) = total f l.
Proof. intros H. induction l; simpl; [done|]. rewrite H. lia. Qed.

Lemma total_bounds {A} (f : A → Z) k l :
  (∀ x, 0 <= f x <= k) → 0 <= total f l <= k * Z.of_nat (length l).
Proof. intros H. induction l as [|x l IH]; simpl; [lia|]. specialize (H x). nia. Qed.

Lemma total_zero {A} (f : A → Z) l :
  (∀ x, 0 <= f x) → (∀ b x, l !! b = Some x → f x = 0) → total f l = 0.
Proof.
  intros H0 H. induction l as [|x l IH]; [done|]. simpl. rewrite (H 0%nat x eq_refl).
  rewrite IH; [lia|]. intros b y Hy. exact (H (S b) y Hy).
Qed.

Lemma total_pos {A} (f : A → Z) l b x :
  (∀ x, 0 <= f x) → l !! b = Some x → f x <= total f l.
Proof.
  intros H. revert b. induction l as [|y l IH]; intros [|b] Hb; simplify_eq/=.
  - enough (0 <= total f l) by lia. clear -H. induction l; simpl; [lia|]. specialize (H a). lia.
  - specialize (IH _ Hb). specialize (H y). lia.
Qed.

(** 1 while the reader is counted in [waiters_]. *)
Definition registered (w : Waiter) : Z :=
  match w_phase w with
  | WIdle | WCheck | WRegister | WDone _ => 0
  | _ => 1
  end.

(** What holds of each reader: nobody who holds the mutex on the way to sleep has missed
    the flag, a sleeper of a closed ring has a notification on its way, and a [true] result
    is justified. *)
Definition reader_ok (s : IState) (w : Waiter) : Prop :=
  match w_phase w with
  | WBlock => i_closed s = false
  | WSleep => i_closed s = true → CNotify ∈ i_closers s
  | WLeave true | WDone true => w_known w < i_wpos s ∨ i_closed s = true
  | _ => True
  end.

Record IdleInv (n : nat) (s : IState) : Prop := mkIdleInv {
  inv_len : length (i_readers s) = n;
  inv_waiters : i_waiters s = total registered (i_readers s);
  inv_stale : Forall (λ v, i_waiters s <= v) (i_stale s);
  inv_old : Forall (λ v, v <= i_wpos s) (i_old s);
  inv_ok : ∀ b w, i_readers s !! b = Some w → reader_ok s w ∧ w_seen w <= i_wpos s
}.

Lemma registered_bounds w : 0 <= registered w <= 1.
Proof. unfold registered. destruct (w_phase w); lia. Qed.

Lemma registered_wake w : registered (wake w) = registered w.
Proof. unfold wake, registered. destruct w as [ph k sn]. by destruct ph. Qed.

Lemma mutex_free_spec s b w : mutex_free s = true → i_readers s !! b = Some w → holds_mutex w = false.
Proof.
  unfold mutex_free. intros H%negb_true_iff Hb. apply not_true_iff_false. intros Hw.
  apply not_true_iff_false in H. apply H, existsb_exists. exists w. split; [|done].
  by apply list_elem_of_In, list_elem_of_lookup_2 with b.
Qed.

Lemma mutex_taken s :
  mutex_free s = false → ∃ b w, i_readers s !! b = Some w ∧ holds_mutex w = true.
Proof.
  unfold mutex_free. intros (w & Hin & Hw)%negb_false_iff%existsb_exists.
  apply list_elem_of_In, list_elem_of_lookup in Hin as [b Hb]. eauto.
Qed.

(** A value a reader loads has been published. *)
Lemma may_read_spec n s w v : IdleInv n s → may_read s w v = true → v <= i_wpos s.
Proof.
  intros Hi [_ Hv%bool_decide_eq_true]%andb_true_iff. apply elem_of_cons in Hv as [->|Hv]; [done|].
  pose proof (inv_old _ _ Hi) as Ho. rewrite Forall_forall in Ho. by apply Ho.
Qed.

(** A value a producer loads is no less than the number of readers registered. *)
Lemma may_count_spec n s v : IdleInv n s → may_count s v = true → i_waiters s <= v.
Proof.
  intros Hi Hv%bool_decide_eq_true. apply elem_of_cons in Hv as [->|Hv]; [done|].
  pose proof (inv_stale _ _ Hi) as Ho. rewrite Forall_forall in Ho. by apply Ho.
Qed.

Section Invariant.
Context (n : nat) (Hn : Z.of_nat n < 2 ^ 32).

(** Moving one reader, and the waiter count with it. *)
Lemma inv_move s s' b w w' :
  IdleInv n s → i_readers s !! b = Some w →
  i_readers s' = <[b := w']> (i_readers s) → i_waiters s' = u32 (i_waiters s + (registered w' - registered w)) →
  i_wpos s' = i_wpos s → i_old s' = i_old s → i_closed s' = i_closed s → i_closers s' = i_closers s →
  (i_stale s' = [] ∨ i_stale s' = i_stale s ∧ registered w' = registered w ∨
   i_stale s' = i_waiters s :: i_stale s ∧ registered w' <= registered w) →
  reader_ok s w' → w_seen w' <= i_wpos s → IdleInv n s'.
Proof.
  intros [Hl Hw Hst Hold Hok] Hb Er Ew Ep Eo Ec Ecs Hstale Hr Hseen.
  pose proof (total_bounds registered 1 (i_readers s') registered_bounds) as Hbd. rewrite Er in Hbd.
  rewrite length_insert, (total_insert _ _ _ _ _ Hb), Hl in Hbd.
  rewrite Hw, u32_small in Ew by (unfold fits; lia).
  constructor; rewrite ?Er, ?Ep, ?Eo.
  - by rewrite length_insert.
  - rewrite (total_insert _ _ _ _ _ Hb). lia.
  - destruct Hstale as [->|[[-> E]|[-> E]]]; [done|by rewrite Ew, E, Z.sub_diag, Z.add_0_r, <- Hw|].
    constructor; [lia|]. eapply Forall_impl; [exact Hst|]. simpl. lia.
  - done.
  - assert (∀ v, reader_ok s' v ↔ reader_ok s v) as Hsame
      by (intros v; unfold reader_ok; by rewrite Ep, Ec, Ecs).
    intros b' v. rewrite Hsame. destruct (decide (b = b')) as [<-|Hne].
    + rewrite list_lookup_insert_eq by (by eapply lookup_lt_Some). by intros [= <-].
    + rewrite list_lookup_insert_ne by done. exact (Hok b' v).
Qed.

Lemma inv_keep s b w w' :
  IdleInv n s → i_readers s !! b = Some w → reader_ok s w' → registered w' = registered w →
  w_seen w' <= i_wpos s → IdleInv n (set_waiter s b w').
Proof.
  intros Hi Hb Hr He Hs. eapply inv_move; [exact Hi|exact Hb|done| |done..|right; by left|done|done].
  pose proof (inv_waiters _ _ Hi) as Hw. pose proof (inv_len _ _ Hi).
  pose proof (total_bounds registered 1 (i_readers s) registered_bounds).
  simpl. rewrite He, Z.sub_diag, Z.add_0_r, u32_small; [done|]. unfold fits. lia.
Qed.

Lemma inv_register s b w w' :
  IdleInv n s → i_readers s !! b = Some w → reader_ok s w' → registered w' = registered w + 1 →
  w_seen w' <= i_wpos s → IdleInv n (set_waiter (register_waiter s) b w').
Proof.
  intros Hi Hb Hr He Hs. eapply inv_move; [exact Hi|exact Hb|done| |done..|by left|done|done].
  simpl. by rewrite He, Z.add_simpl_l.
Qed.

Lemma inv_leave s b w w' :
  IdleInv n s → i_readers s !! b = Some w → reader_ok s w' → registered w' = registered w - 1 →
  w_seen w' <= i_wpos s → IdleInv n (set_waiter (leave_waiter s) b w').
Proof.
  intros Hi Hb Hr He Hs. eapply inv_move; [exact Hi|exact Hb|done| |done..|right; right; split; [done|lia]|done|done].
  simpl. f_equal. lia.
Qed.

Lemma inv_waiter_step s b v w s' :
  IdleInv n s → i_readers s !! b = Some w → waiter_step s b v w = Some s' → IdleInv n s'.
Proof.
  intros Hi Hb Hs. destruct (inv_ok _ _ Hi b w Hb) as [Hw Hseen]. destruct w as [ph k sn].
  assert (∀ c : bool, (v >? k) || c = true → may_read s (mkWaiter ph k sn) v = true → k < i_wpos s ∨ c = true) as Hah.
  { intros c Ha Hv. apply (may_read_spec _ _ _ _ Hi) in Hv. apply orb_true_iff in Ha as [Ha|Ha]; [left; zbool; lia|by right]. }
  unfold waiter_step, reader_ok in *; simpl in *. destruct ph; simplify_eq/=;
    repeat (case_match; simplify_eq/=);
    first [eapply inv_keep; [done|exact Hb| |reflexivity|]
          |eapply inv_register; [done|exact Hb| |reflexivity|]
          |eapply inv_leave; [done|exact Hb| |reflexivity|]];
    simpl; try done; try (by eapply may_read_spec); unfold reader_ok; simpl; try done.
  all: try (by apply Hah).
  - by apply orb_false_iff in H0 as [_ ?].
  - intros. congruence.
  - case_match eqn:E; [by apply Hah|done].
Qed.

(** A step of another thread, which leaves every reader where it is or wakes it. *)
Lemma inv_env s s' g :
  IdleInv n s → i_waiters s' = i_waiters s → i_stale s' = i_stale s → i_readers s' = map g (i_readers s) →
  i_wpos s <= i_wpos s' → Forall (λ v, v <= i_wpos s') (i_old s') →
  (∀ w, registered (g w) = registered w ∧ w_seen (g w) = w_seen w) →
  (∀ b w, i_readers s !! b = Some w → reader_ok s w → reader_ok s' (g w)) →
  IdleInv n s'.
Proof.
  intros [Hl Hw Hst Hold Hok] Ew Es Er Hp Ho Hg Hpres. constructor; rewrite ?Er, ?Ew, ?Es; try done.
  - by rewrite length_map.
  - rewrite Hw. symmetry. apply total_map. intros w. apply Hg.
  - intros b w. rewrite list_lookup_fmap. intros (v & Hv & ->)%fmap_Some. destruct (Hok b v Hv) as [Hr Hs].
    split; [by eapply Hpres|]. rewrite (proj2 (Hg v)). lia.
Qed.

Lemma reader_ok_mono s s' w :
  i_wpos s <= i_wpos s' → i_closed s' = i_closed s → i_closers s' = i_closers s →
  reader_ok s w → reader_ok s' w.
Proof.
  intros Hp Hc Hcs. destruct w as [ph k sn]. unfold reader_ok; simpl. rewrite Hc, Hcs.
  destruct ph as [| | | | | | | | |[]|[]]; simpl; intuition lia.
Qed.

Lemma reader_ok_wake s w : reader_ok s w → reader_ok s (wake w).
Proof. destruct w as [ph k sn]. by destruct ph. Qed.

Lemma wake_keeps w : registered (wake w) = registered w ∧ w_seen (wake w) = w_seen w.
Proof. split; [apply registered_wake|]. destruct w as [ph k sn]. by destruct ph. Qed.

Lemma inv_producer_step s a count v p s' : IdleInv n s → producer_step s a count v p = Some s' → IdleInv n s'.
Proof.
  intros Hi Hs. pose proof (inv_old _ _ Hi) as Ho.
  destruct p; simpl in Hs; [case_match; simplify_eq/=; [done|]|case_match; simplify_eq/=|simplify_eq/=].
  - apply (inv_env s _ id); simpl; rewrite ?map_id; try done; [lia| |].
    + constructor; [lia|]. eapply Forall_impl; [exact Ho|]. simpl. lia.
    + intros b w _. apply reader_ok_mono; simpl; done || lia.
  - apply (inv_env s _ id); simpl; rewrite ?map_id; done.
  - apply (inv_env s _ wake); simpl; try done; try lia; auto using wake_keeps. intros b w _ Hw.
    apply (reader_ok_mono s); simpl; [lia|done|done|by apply reader_ok_wake].
Qed.

Lemma inv_closer_step s c p s' :
  i_closers s !! c = Some p → IdleInv n s → closer_step s c p = Some s' → IdleInv n s'.
Proof.
  intros Hc Hi Hs. pose proof (inv_old _ _ Hi) as Ho.
  destruct p; simpl in Hs; [case_match eqn:Hm; [|done]|]; simplify_eq/=.
  - apply (inv_env s _ id); simpl; rewrite ?map_id; try done; try lia; auto. intros b [ph k sn] Hb.
    pose proof (mutex_free_spec _ _ _ Hm Hb) as Hh. unfold holds_mutex in Hh. simpl in Hh.
    assert (CNotify ∈ <[c := CNotify]> (i_closers s)).
    { apply list_elem_of_lookup. exists c. apply list_lookup_insert_eq. by eapply lookup_lt_Some. }
    unfold reader_ok. destruct ph as [| | | | | | | | |[]|[]]; simpl in *; auto; discriminate.
  - apply (inv_env s _ wake); simpl; try done; try lia; auto using wake_keeps. intros b [ph k sn] _.
    unfold reader_ok, wake. by destruct ph as [| | | | | | | | |[]|[]].
Qed.

Lemma inv_idle_step s e s' : IdleInv n s → idle_step s e = Some s' → IdleInv n s'.
Proof.
  intros Hi. destruct e as [b k|b v|b|b|a count v|c]; simpl; intros Hs.
  1-4: case_match eqn:Hb; [|done]; destruct (inv_ok _ _ Hi _ _ Hb) as [_ Hseen].
  - destruct w as [ph k' sn]. destruct ph; simplify_eq/=; (eapply inv_keep; [done|exact Hb|done|done|done]).
  - eauto using inv_waiter_step.
  - case_decide as Hph; simplify_eq/=. eapply inv_keep; [done|exact Hb|done| |done]. unfold registered. by rewrite Hph.
  - case_decide as Hph; simplify_eq/=. eapply inv_keep; [done|exact Hb| |apply wake_keeps|by rewrite (proj2 (wake_keeps _))].
    unfold reader_ok, wake. by rewrite Hph.
  - case_match; [|done]. eauto using inv_producer_step.
  - case_match eqn:Hc; [|done]. eauto using inv_closer_step.
Qed.

Lemma idle_invariant m k s : idle_reachable n m k s → IdleInv n s.
Proof.
  apply reachable_invariant; [|eauto using inv_idle_step]. constructor; simpl.
  - apply length_replicate.
  - symmetry. apply total_zero; [intros; apply registered_bounds|].
    by intros b w [-> _]%lookup_replicate.
  - done.
  - done.
  - by intros b w [-> _]%lookup_replicate.
Qed.
End Invariant.

(** ** After [close]: every wait returns *)

Definition in_call (w : Waiter) : Prop :=
  match w_phase w with WIdle | WDone _ => False | _ => True end.

(** An upper bound on the steps a reader of a closed ring still takes. *)
Definition rank (w : Waiter) : Z :=
  match w_phase w with
  | WIdle | WDone _ => 0
  | WLeave _ => 1
  | WPred | WLast => 2
  | WLock => 3
  | WRecheck => 4
  | WRegister => 5
  | WCheck => 6
  | WBlock | WSleep => 6
  end.

Lemma rank_bounds w : 0 <= rank w <= 6.
Proof. unfold rank. destruct (w_phase w); lia. Qed.

(** The ring is closed and the notification has gone out. *)
Definition close_finished (s : IState) : Prop := i_closed s = true ∧ CNotify ∉ i_closers s.

Lemma closed_awake n s b w :
  IdleInv n s → close_finished s → i_readers s !! b = Some w →
  w_phase w ≠ WSleep ∧ w_phase w ≠ WBlock.
Proof.
  intros Hi [Hc Hq] Hb. destruct (inv_ok _ _ Hi b w Hb) as [Hw _]. unfold reader_ok in Hw.
  split; intros E; rewrite E in Hw; [by apply Hq, Hw|congruence].
Qed.

Section Drain.
Context (n : nat).

(** A reader that is not kept out of the mutex takes a step and gets closer to returning. *)
Lemma drain_step s b w :
  IdleInv n s → close_finished s → i_readers s !! b = Some w → in_call w →
  holds_mutex w = true ∨ mutex_free s = true →
  ∃ s', idle_step s (IRead b (i_wpos s)) = Some s' ∧ close_finished s' ∧
        total rank (i_readers s') < total rank (i_readers s).
Proof.
  intros Hi Hcl Hb Hin Hm. destruct (closed_awake _ _ _ _ Hi Hcl Hb) as [Hns Hnb].
  assert (∀ ph s0, i_readers s0 = i_readers s → i_closed s0 = i_closed s →
            i_closers s0 = i_closers s → ∀ sn, rank (mkWaiter ph (w_known w) sn) < rank w →
            ∃ s', Some (set_waiter s0 b (mkWaiter ph (w_known w) sn)) = Some s' ∧ close_finished s' ∧
                  total rank (i_readers s') < total rank (i_readers s)) as Hgo.
  { intros ph s0 Er Ec Es sn Hr. eexists. split; [reflexivity|].
    unfold close_finished in *. simpl. rewrite Er, Ec, Es. split; [done|].
    rewrite (total_insert _ _ _ _ _ Hb). lia. }
  assert (may_read s w (i_wpos s) = true) as Hnew.
  { destruct (inv_ok _ _ Hi b w Hb) as [_ Hs]. unfold may_read. apply andb_true_iff. split; [by apply Z.leb_le|].
    apply bool_decide_eq_true. by left. }
  cbn [idle_step]. rewrite Hb. unfold waiter_step. rewrite Hnew. destruct w as [ph k sn].
  unfold holds_mutex, in_call, rank in *. simpl in *. rewrite (proj1 Hcl), orb_true_r.
  destruct ph; try done; try (destruct Hm as [|Hm]; [done|]); try rewrite Hm;
    try case_match; apply Hgo; simpl; done || lia.
Qed.

Lemma drain_progress s b w :
  IdleInv n s → close_finished s → i_readers s !! b = Some w → in_call w →
  ∃ b' s', idle_step s (IRead b' (i_wpos s)) = Some s' ∧ close_finished s' ∧
           total rank (i_readers s') < total rank (i_readers s).
Proof.
  intros Hi Hcl Hb Hin. destruct (mutex_free s) eqn:Hm.
  - exists b. eapply drain_step; eauto.
  - destruct (mutex_taken _ Hm) as (b' & w' & Hb' & Hh). exists b'.
    eapply drain_step; eauto. unfold holds_mutex, in_call in *. by destruct (w_phase w').
Qed.

#[export] Instance in_call_dec w : Decision (in_call w).
Proof. unfold in_call. destruct (w_phase w); apply _. Defined.

Lemma drain_all s :
  Z.of_nat n < 2 ^ 32 → IdleInv n s → close_finished s →
  ∃ bs s', run idle_step (map (λ x, IRead x.1 x.2) bs) s = Some s' ∧
           Z.of_nat (length bs) <= total rank (i_readers s) ∧
           Forall (λ w, ¬ in_call w) (i_readers s').
Proof.
  intros Hn. remember (Z.to_nat (total rank (i_readers s))) as f eqn:Hf.
  revert s Hf. induction f as [f IH] using lt_wf_ind. intros s Hf Hi Hcl.
  destruct (decide (Forall (λ w, ¬ in_call w) (i_readers s))) as [Hall|Hex].
  { exists [], s. split; [done|]. split; [|done]. apply total_bounds with 6, rank_bounds. }
  apply not_Forall_Exists in Hex; [|apply _]. apply Exists_exists in Hex as (w & Hw & Hnn).
  apply list_elem_of_lookup in Hw as [b Hb]. apply dec_stable in Hnn.
  destruct (drain_progress s b w) as (b' & s1 & Hs & Hcl1 & Hlt); [done..|].
  pose proof (total_bounds rank 6 (i_readers s1) rank_bounds).
  destruct (IH (Z.to_nat (total rank (i_readers s1)))) with s1 as (bs & s' & Hr & Hl & Hd);
    [lia|done|by eapply inv_idle_step|done|].
  exists ((b', i_wpos s) :: bs), s'. cbn [map run fst snd]. rewrite Hs. split; [done|]. split; [simpl; lia|done].
Qed.
End Drain.

(** ** The theorems *)

(** A producer whose ticket is taken notifies whenever a reader is registered, whatever
    its load of the count answers. *)
Lemma registered_is_notified n s b w a count v s' :
  IdleInv n s → i_readers s !! b = Some w → registered w = 1 →
  i_prods s !! a = Some PTicketed → idle_step s (IProd a count v) = Some s' →
  i_prods s' !! a = Some PNotify.
Proof.
  intros Hi Hb Hr Ha. cbn [idle_step]. rewrite Ha. cbn [producer_step].
  destruct (may_count s v) eqn:Hv; [|done]. intros [= <-].
  simpl. rewrite list_lookup_insert_eq by (by eapply lookup_lt_Some). f_equal.
  pose proof (total_pos registered _ _ _ (λ w, proj1 (registered_bounds w)) Hb) as Hp.
  rewrite <- (inv_waiters _ _ Hi) in Hp. apply (may_count_spec _ _ _ Hi) in Hv. case_match; zbool; [lia|done].
Qed.

(** C25. In every interleaving of readers, producers and closing threads, with loads that
    answer as late as the memory orders of the source allow, and with timeouts and
    spurious wakeups at any point, [waiters_] is exactly the number of readers between
    their [fetch_add] and their [fetch_sub] (it never wraps below zero); a producer that
    has taken its ticket therefore notifies whenever one of them is registered;
    [wait_for_data] answers [true] only when the write position has passed [known] or the
    ring is closed; and once [close] has returned no reader is asleep. *)
Theorem idle_wait_sound n m k s :
  Z.of_nat n < 2 ^ 32 → idle_reachable n m k s →
  i_waiters s = total registered (i_readers s) ∧
  (∀ a count v b w s', i_readers s !! b = Some w → registered w = 1 → i_prods s !! a = Some PTicketed →
            idle_step s (IProd a count v) = Some s' → i_prods s' !! a = Some PNotify) ∧
  (∀ b w, i_readers s !! b = Some w → w_phase w = WDone true →
          w_known w < i_wpos s ∨ i_closed s = true) ∧
  (close_finished s → ∀ b w, i_readers s !! b = Some w → w_phase w ≠ WSleep).
Proof.
  intros Hn Hr. pose proof (idle_invariant n Hn m k s Hr) as Hi.
  split; [apply (inv_waiters _ _ Hi)|].
  split; [eauto using registered_is_notified|].
  split; [|intros Hc b w Hb; by apply (closed_awake n s b w)].
  intros b w Hb Hw. destruct (inv_ok _ _ Hi b w Hb) as [H _]. unfold reader_ok in H. by rewrite Hw in H.
Qed.

(** Shutdown does not wait out a timeout: from every reachable state in which [close]
    has run to its end, the readers' own steps, at most six of each and without any
    timeout, publication or further notification, bring every pending [wait_for_data] to
    its return. *)
Theorem idle_close_drains n m k s :
  Z.of_nat n < 2 ^ 32 → idle_reachable n m k s → close_finished s →
  ∃ bs s', run idle_step (map (λ x, IRead x.1 x.2) bs) s = Some s' ∧
           Z.of_nat (length bs) <= 6 * Z.of_nat n ∧
           Forall (λ w, ¬ in_call w) (i_readers s').
Proof.
  intros Hn Hr Hc. pose proof (idle_invariant n Hn m k s Hr) as Hi.
  destruct (drain_all n s Hn Hi Hc) as (bs & s' & Hrun & Hl & Hd). exists bs, s'.
  split; [done|]. split; [|done].
  pose proof (total_bounds rank 6 (i_readers s) rank_bounds) as Hb.
  rewrite (inv_len _ _ Hi) in Hb. lia.
Qed.

(** ** A wakeup can still be lost

    The producer does not take [idle_mutex_] around its ticket, so the ticket and the
    notification can both fall between the reader's evaluation of the predicate and its
    going to sleep: it is then asleep with data available and every producer at rest, and
    only the timeout (or the next publication) ends its wait. *)
Definition lost_events : list IEvent :=
  [ICall 0 0; IRead 0 0; IRead 0 0; IRead 0 0; IRead 0 0; IRead 0 0; (* ... predicate false *)
   IProd 0 1 0; IProd 0 1 1; IProd 0 1 0;                            (* ticket, load, notify *)
   IRead 0 0].                                                       (* sleeps *)

Definition lost_state : IState :=
  default (idle_init 1 1 1) (run idle_step lost_events (idle_init 1 1 1)).

Lemma idle_wakeup_can_be_lost :
  idle_reachable 1 1 1 lost_state ∧
  i_readers lost_state = [mkWaiter WSleep 0 0] ∧ 0 < i_wpos lost_state ∧ i_prods lost_state = [PRest].
Proof.
  split; [exists lost_events; by vm_compute|]. by vm_compute.
Qed.

(** And the check after registering, which is there to catch a publication that falls
    between the first check and the wait, does not have to see one: the increment of
    [write_pos_] is relaxed and the load of it is not sequentially consistent, so nothing
    orders them with the accesses to [waiters_]. Here the producer has finished, and
    found no waiter, before the call even begins; every load of the reader answers with the
    old position, and it goes to sleep. *)
Definition missed_events : list IEvent :=
  [IProd 0 1 0; IProd 0 1 0;                              (* ticket, no waiter *)
   ICall 0 0; IRead 0 0; IRead 0 0; IRead 0 0; IRead 0 0; IRead 0 0; IRead 0 0].

Lemma idle_recheck_can_miss :
  ∃ s1 s2, run idle_step (take 2 missed_events) (idle_init 1 1 0) = Some s1 ∧
    i_wpos s1 = 1 ∧ i_prods s1 = [PRest] ∧ i_readers s1 = [mkWaiter WIdle 0 0] ∧
    run idle_step (drop 2 missed_events) s1 = Some s2 ∧ i_readers s2 = [mkWaiter WSleep 0 0].
Proof. do 2 eexists. split; [vm_compute; reflexivity|]. by vm_compute. Qed.

(** With loads that answer with the newest position it would see it: the first check of
    such a call already returns. *)
Lemma newest_check_returns s b w :
  i_readers s !! b = Some w → w_phase w = WCheck ∨ w_phase w = WRecheck →
  w_known w < i_wpos s → w_seen w <= i_wpos s →
  ∃ s' w', idle_step s (IRead b (i_wpos s)) = Some s' ∧ i_readers s' !! b = Some w' ∧ w_phase w' = WDone true.
Proof.
  intros Hb Hph Hk Hs. cbn [idle_step]. rewrite Hb. unfold waiter_step.
  assert (may_read s w (i_wpos s) = true) as ->.
  { unfold may_read. apply andb_true_iff. split; [by apply Z.leb_le|]. apply bool_decide_eq_true. by left. }
  assert (i_wpos s >? w_known w = true) as -> by (rewrite Z.gtb_ltb; by apply Z.ltb_lt).
  destruct Hph as [-> | ->]; eexists _, _; (split; [done|]); simpl; split;
    try (apply list_lookup_insert_eq; by eapply lookup_lt_Some); done.
Qed.

(** ** Witnesses *)

(** Two readers park, a third thread closes: one reader is on its way out, the other has
    just been woken and waits for the mutex. *)
Definition closing_events : list IEvent :=
  [ICall 0 0; ICall 1 0] ++ replicate 6 (IRead 0 0) ++ replicate 6 (IRead 1 0)
  ++ [IProd 0 3 0; IClose 0; IClose 0; IRead 0 0].

Definition closing_state : IState :=
  default (idle_init 2 1 1) (run idle_step closing_events (idle_init 2 1 1)).

Lemma closing_reachable : idle_reachable 2 1 1 closing_state.
Proof. exists closing_events. by vm_compute. Qed.

Lemma closing_finished : close_finished closing_state.
Proof.
  split; [by vm_compute|]. apply (bool_decide_unpack _). by vm_compute.
Qed.

Lemma idle_wait_sound_witness :
  i_waiters closing_state = 2 ∧
  map w_phase (i_readers closing_state) = [WPred; WLock] ∧
  ∃ s', idle_step closing_state (IProd 0 0 2) = Some s' ∧ i_prods s' !! 0%nat = Some PNotify.
Proof.
  split; [by vm_compute|]. split; [by vm_compute|].
  destruct (idle_wait_sound 2 1 1 closing_state) as (_ & H & _); [lia|apply closing_reachable|].
  eexists. split; [vm_compute; reflexivity|].
  apply (H 0%nat 0%nat 2 1%nat (mkWaiter WLock 0 0)); by vm_compute.
Defined.

Lemma idle_close_drains_witness :
  ∃ bs s', run idle_step (map (λ x, IRead x.1 x.2) bs) closing_state = Some s' ∧
           Forall (λ w, ¬ in_call w) (i_readers s').
Proof.
  destruct (idle_close_drains 2 1 1 closing_state) as (bs & s' & H & _ & Hd);
    [lia|apply closing_reachable|apply closing_finished|]. by exists bs, s'.
Defined.
