(* ===== verification/GapTracker.v ===== *)
(** * GapTracker: consumer-side loss accounting (src/src/gap_tracker.hpp)

    The tracker every consumer runs over the records it receives. [fates] is the
    specification: it assigns each sequence number a stream covers exactly one
    fate, and the counters are proved to be the number of each. *)

From S2P Require Import Prelude Frame Wire.

Record TrackerStats := mkTrackerStats {
  gs_frames : Z;
  gs_markers : Z;
  gs_reported_lost : Z;
  gs_silent_jumps : Z;
  gs_silent_lost : Z;
  gs_overrun_markers : Z;
  gs_ingest_markers : Z;
  gs_absent_markers : Z;
  gs_absent_frames : Z;
  gs_echoes : Z
}.

Record GapTracker := mkTracker { gt_s : TrackerStats; gt_next : Z; gt_have : bool }.

Definition tracker_init : GapTracker := mkTracker (mkTrackerStats 0 0 0 0 0 0 0 0 0 0) 0 false.

(** ** Operations *)

(** The counters a gap marker of [n] frames with reason [reason] touches. *)
Definition count_marker (n : Z) (reason : GapReason) (s : TrackerStats) : TrackerStats :=
  let s := mkTrackerStats (gs_frames s) (u64 (gs_markers s + 1)) (gs_reported_lost s)
             (gs_silent_jumps s) (gs_silent_lost s) (gs_overrun_markers s)
             (gs_ingest_markers s) (gs_absent_markers s) (gs_absent_frames s) (gs_echoes s) in
  match reason with
  | kConsumerAbsent =>
      mkTrackerStats (gs_frames s) (gs_markers s) (gs_reported_lost s) (gs_silent_jumps s)
        (gs_silent_lost s) (gs_overrun_markers s) (gs_ingest_markers s)
        (u64 (gs_absent_markers s + 1)) (u64 (gs_absent_frames s + n)) (gs_echoes s)
  | kIngestLoss =>
      mkTrackerStats (gs_frames s) (gs_markers s) (u64 (gs_reported_lost s + n))
        (gs_silent_jumps s) (gs_silent_lost s) (gs_overrun_markers s)
        (u64 (gs_ingest_markers s + 1)) (gs_absent_markers s) (gs_absent_frames s) (gs_echoes s)
  | _ =>
      mkTrackerStats (gs_frames s) (gs_markers s) (u64 (gs_reported_lost s + n))
        (gs_silent_jumps s) (gs_silent_lost s) (u64 (gs_overrun_markers s + 1))
        (gs_ingest_markers s) (gs_absent_markers s) (gs_absent_frames s) (gs_echoes s)
  end.

Definition count_echo (s : TrackerStats) : TrackerStats :=
  mkTrackerStats (gs_frames s) (gs_markers s) (gs_reported_lost s) (gs_silent_jumps s)
    (gs_silent_lost s) (gs_overrun_markers s) (gs_ingest_markers s) (gs_absent_markers s)
    (gs_absent_frames s) (u64 (gs_echoes s + 1)).

Definition count_jump (n : Z) (s : TrackerStats) : TrackerStats :=
  mkTrackerStats (gs_frames s) (gs_markers s) (gs_reported_lost s)
    (u64 (gs_silent_jumps s + 1)) (u64 (gs_silent_lost s + n)) (gs_overrun_markers s)
    (gs_ingest_markers s) (gs_absent_markers s) (gs_absent_frames s) (gs_echoes s).

Definition count_frame (s : TrackerStats) : TrackerStats :=
  mkTrackerStats (u64 (gs_frames s + 1)) (gs_markers s) (gs_reported_lost s)
    (gs_silent_jumps s) (gs_silent_lost s) (gs_overrun_markers s) (gs_ingest_markers s)
    (gs_absent_markers s) (gs_absent_frames s) (gs_echoes s).

(** Returns whether the record was a real frame. *)
Definition observe (t : GapTracker) (f : Frame) : GapTracker * bool :=
  if is_echo f then (mkTracker (count_echo (gt_s t)) (gt_next t) (gt_have t), false)
  else if is_gap f then
    let n := gap_count f in
    (mkTracker (count_marker n (gap_reason f) (gt_s t)) (u64 (f_seq f + n)) true, false)
  else
    let s := if gt_have t && (f_seq f >? gt_next t)
             then count_jump (u64 (f_seq f - gt_next t)) (gt_s t) else gt_s t in
    (mkTracker (count_frame s) (u64 (f_seq f + 1)) true, true).

Definition tracker_reset (t : GapTracker) : GapTracker := mkTracker (gt_s t) (gt_next t) false.

Definition total_lost (t : GapTracker) : Z :=
  u64 (gs_reported_lost (gt_s t) + gs_silent_lost (gt_s t)).

Definition observe_all (t : GapTracker) (l : list Frame) : GapTracker :=
  fold_left (λ t f, (observe t f).1) l t.

(** ** Specification: the fate of every sequence number *)

Inductive Fate := Received | ReportedLost | Absent | SilentLost.

#[export] Instance Fate_eq_dec : EqDecision Fate.
Proof. solve_decision. Defined.

Definition marker_fate (f : Frame) : Fate :=
  if is_fault (gap_reason f) then ReportedLost else Absent.

(** Where the stream is expected to resume after a record. *)
Definition resume_at (e : option Z) (f : Frame) : option Z :=
  if is_echo f then e else Some (f_seq f + if is_gap f then gap_count f else 1).

(** The fates a single record decides, in sequence order. *)
Definition record_fates (e : option Z) (f : Frame) : list Fate :=
  if is_echo f then []
  else if is_gap f then replicate (Z.to_nat (gap_count f)) (marker_fate f)
  else replicate (Z.to_nat (f_seq f - default (f_seq f) e)) SilentLost ++ [Received].

Fixpoint fates (e : option Z) (l : list Frame) : list Fate :=
  match l with
  | [] => []
  | f :: l => record_fates e f ++ fates (resume_at e f) l
  end.

(** A record continues a stream expected at [e]: it does not go back, a marker
    names exactly the expected sequence, and the 64-bit space is not exhausted. *)
Definition continues (e : option Z) (f : Frame) : bool :=
  is_echo f ||
  (match e with
   | None => true
   | Some n => if is_gap f then f_seq f =? n else n <=? f_seq f
   end && (f_seq f + (if is_gap f then gap_count f else 1) <? 2 ^ 64)).

Fixpoint forward (e : option Z) (l : list Frame) : bool :=
  match l with
  | [] => true
  | f :: l => continues e f && forward (resume_at e f) l
  end.

(** No silent jump: every real frame is the expected one. *)
Fixpoint explained (e : option Z) (l : list Frame) : bool :=
  match l with
  | [] => true
  | f :: l =>
      (is_echo f || match e with None => true | Some n => f_seq f =? n end) &&
      explained (resume_at e f) l
  end.

Definition resume_all (e : option Z) (l : list Frame) : option Z := fold_left resume_at l e.

Definition fate_count (x : Fate) (l : list Fate) : Z := Z.of_nat (length (filter (x =.) l)).

(** ** Lemmas *)

Lemma fate_count_app x l k : fate_count x (l ++ k) = fate_count x l + fate_count x k.
Proof. unfold fate_count. rewrite filter_app, length_app. lia. Qed.

Lemma fate_count_replicate x n y :
  fate_count x (replicate n y) = if decide (x = y) then Z.of_nat n else 0.
Proof.
  unfold fate_count. induction n as [|n IH]; simpl; [by case_decide|].
  rewrite filter_cons. case_decide; simpl in *; lia.
Qed.

Lemma fate_count_total l :
  fate_count Received l + fate_count ReportedLost l + fate_count Absent l + fate_count SilentLost l
  = Z.of_nat (length l).
Proof.
  induction l as [|x l IH]; [done|]. change (x :: l) with ([x] ++ l).
  rewrite !fate_count_app, length_app. destruct x; simpl; unfold fate_count in *; simpl; lia.
Qed.

Lemma fate_count_one x y : fate_count x [y] = if decide (x = y) then 1 else 0.
Proof. apply (fate_count_replicate x 1 y). Qed.

#[export] Hint Rewrite fate_count_app fate_count_replicate fate_count_one : etg.

Lemma observe_all_app t l k : observe_all t (l ++ k) = observe_all (observe_all t l) k.
Proof. apply fold_left_app. Qed.

Lemma explained_app e l k : explained e (l ++ k) = explained e l && explained (resume_all e l) k.
Proof.
  revert e. induction l as [|f l IH]; intros e; [done|]. simpl. by rewrite IH, andb_assoc.
Qed.

Lemma forward_app e l k : forward e (l ++ k) = forward e l && forward (resume_all e l) k.
Proof.
  revert e. induction l as [|f l IH]; intros e; [done|]. simpl. by rewrite IH, andb_assoc.
Qed.

Lemma resume_all_app e l k : resume_all e (l ++ k) = resume_all (resume_all e l) k.
Proof. apply fold_left_app. Qed.

Lemma gap_count_nonneg f : frame_wf f → 0 <= gap_count f < 2 ^ 64.
Proof.
  intros (_ & _ & _ & _ & _ & _ & _ & _ & Hl & Hb). rewrite gap_count_value by done.
  pose proof (le_value_bound _ Hb) as H. by rewrite Hl in H.
Qed.

(** The tracker state that corresponds to fates [fs] observed from [start]. *)
Record tracks (t : GapTracker) (e : option Z) (fs : list Fate) : Prop := {
  tk_frames : gs_frames (gt_s t) = fate_count Received fs;
  tk_reported : gs_reported_lost (gt_s t) = fate_count ReportedLost fs;
  tk_absent : gs_absent_frames (gt_s t) = fate_count Absent fs;
  tk_silent : gs_silent_lost (gt_s t) = fate_count SilentLost fs;
  tk_jumps : 0 <= gs_silent_jumps (gt_s t) <= gs_silent_lost (gt_s t);
  tk_jump_iff : gs_silent_jumps (gt_s t) = 0 ↔ gs_silent_lost (gt_s t) = 0;
  tk_have : gt_have t = bool_decide (is_Some e);
  tk_next : match e with
            | Some n => gt_next t = n ∧ Z.of_nat (length fs) <= n < 2 ^ 64
            | None => fs = []
            end
}.

Lemma tracker_init_tracks : tracks tracker_init None [].
Proof. by constructor. Qed.

Lemma u64_id z : 0 <= z < 2 ^ 64 → u64 z = z.
Proof. apply u64_small. Qed.

(** Evaluate the counters on both sides and compare. *)
Ltac tally :=
  simpl; constructor; simpl;
  autorewrite with etg; simpl;
  repeat match goal with
  | H : _ (gt_s _) = fate_count _ _ |- _ => rewrite H; clear H
  end;
  rewrite ?length_app, ?length_replicate; simpl;
  rewrite ?Z2Nat.id by lia; rewrite ?u64_id by lia; try done; try lia.

(** One record moves the counters by exactly the fates it decides. *)
Lemma observe_tracks t e fs f :
  frame_wf f → continues e f = true → tracks t e fs →
  tracks (observe t f).1 (resume_at e f) (fs ++ record_fates e f).
Proof.
  intros Hwf Hc [H1 H2 H3 H4 H5 H6 H7 H8]. rewrite H4 in H5, H6. pose proof (gap_count_nonneg f Hwf) as Hg.
  pose proof (fate_count_total fs) as Htot.
  assert (∀ x, 0 <= fate_count x fs) as Hpos by (intros; unfold fate_count; lia).
  pose proof (Hpos Received). pose proof (Hpos ReportedLost).
  pose proof (Hpos Absent). pose proof (Hpos SilentLost). clear Hpos.
  assert (0 <= f_seq f) as Hs by apply Hwf.
  unfold continues in Hc. unfold observe, resume_at, record_fates.
  destruct (is_echo f); [rewrite app_nil_r; tally|]. simpl in Hc.
  apply andb_true_iff in Hc as [Hc Hlim]. apply Z.ltb_lt in Hlim.
  assert (Z.of_nat (length fs) <= f_seq f) as Hle.
  { destruct e; [|by subst; simpl; lia]. destruct H8. destruct (is_gap f); zbool; lia. }
  destruct (is_gap f) eqn:Eg; simpl fst.
  - unfold marker_fate, count_marker, is_fault. destruct (gap_reason f); tally.
  - destruct e as [n|]; simpl in H7; rewrite H7; simpl in *; [|subst fs; rewrite Z.sub_diag; tally].
    destruct H8 as [-> H8]. zbool. destruct (Z.gtb_spec (f_seq f) n) as [Hgt|Hle'].
    + rewrite (u64_id (f_seq f - n)) by lia. tally.
    + assert (f_seq f = n) as -> by lia. rewrite Z.sub_diag. tally.
Qed.

Lemma observe_all_tracks l t e fs :
  Forall frame_wf l → forward e l = true → tracks t e fs →
  tracks (observe_all t l) (resume_all e l) (fs ++ fates e l).
Proof.
  intros Hwf. revert t e fs. induction Hwf as [|f l Hf _ IH]; intros t e fs Hfw Ht; simpl in *.
  - by rewrite app_nil_r.
  - zbool. rewrite app_assoc. apply IH; [done|]. by apply observe_tracks.
Qed.

Lemma marker_not_silent n f : fate_count SilentLost (replicate n (marker_fate f)) = 0.
Proof. rewrite fate_count_replicate. unfold marker_fate. by destruct (is_fault _). Qed.

Lemma explained_fates e l :
  Forall frame_wf l → forward e l = true →
  explained e l = true ↔ fate_count SilentLost (fates e l) = 0.
Proof.
  intros Hwf. revert e. induction Hwf as [|f l Hf _ IH]; intros e Hfw; simpl in *; [done|].
  zbool. rewrite fate_count_app, andb_true_iff, IH by done.
  pose proof (gap_count_nonneg f Hf). unfold continues in *.
  assert (fate_count SilentLost (record_fates e f) = 0 ↔
          is_echo f || match e with None => true | Some n => f_seq f =? n end = true) as <-.
  { unfold record_fates. destruct (is_echo f); simpl in *; [done|].
    destruct (is_gap f).
    - rewrite marker_not_silent. destruct e; zbool; [|done]. split; [|done].
      intros _. by apply Z.eqb_eq.
    - autorewrite with etg. simpl. destruct e; simpl; zbool; [rewrite Z.eqb_eq|]; lia. }
  assert (∀ k, 0 <= fate_count SilentLost k) as Hp by (intros; unfold fate_count; lia).
  pose proof (Hp (record_fates e f)). pose proof (Hp (fates (resume_at e f) l)). lia.
Qed.

Lemma received_real e l :
  fate_count Received (fates e l)
  = Z.of_nat (length (filter (λ f, is_control f = false) l)).
Proof.
  revert e. induction l as [|f l IH]; intros e; [done|]. simpl fates.
  rewrite fate_count_app, IH, filter_cons, is_control_or. unfold record_fates, marker_fate.
  destruct (is_echo f), (is_gap f); simpl; try done; autorewrite with etg; simpl;
    try (by destruct (is_fault _)). lia.
Qed.

(** The span of sequence numbers from the first one a stream names. *)
Fixpoint first_seq (l : list Frame) : Z :=
  match l with
  | [] => 0
  | f :: l => if is_echo f then first_seq l else f_seq f
  end.

Lemma fates_length a l b :
  Forall frame_wf l → forward (Some a) l = true → resume_all (Some a) l = Some b →
  Z.of_nat (length (fates (Some a) l)) = b - a.
Proof.
  intros Hwf. revert a. induction Hwf as [|f l Hf _ IH]; intros a Hfw Hr; simpl in *.
  { simplify_eq. lia. }
  zbool. pose proof (gap_count_nonneg f Hf). rewrite length_app.
  unfold continues, record_fates, resume_at in *. destruct (is_echo f); [by apply IH|].
  simpl in *. destruct (is_gap f); zbool; rewrite Nat2Z.inj_add, (IH _ ltac:(done) Hr);
    len.
Qed.

Lemma fates_length_none l b :
  Forall frame_wf l → forward None l = true → resume_all None l = Some b →
  Z.of_nat (length (fates None l)) = b - first_seq l.
Proof.
  induction 1 as [|f l Hf Hl IH]; intros Hfw Hr; simpl in *; [done|].
  zbool. pose proof (gap_count_nonneg f Hf). rewrite length_app.
  unfold continues, record_fates, resume_at in *. destruct (is_echo f); [by apply IH|].
  simpl in *. destruct (is_gap f); zbool;
    rewrite Nat2Z.inj_add, (fates_length _ _ b) by done; len.
Qed.

(** ** Properties *)

(** C15. The tracker's counters are exactly the number of sequence numbers with each
    fate: over any forward stream, [frames] counts the real frames, [reported_lost]
    what fault markers cover, [absent_frames] what absence markers cover and
    [silent_lost] what was skipped without a marker; together they account for every
    sequence number from the first one seen to the next one expected, and nothing
    wraps around. *)
Theorem tracker_classifies l n :
  Forall frame_wf l → forward None l = true → resume_all None l = Some n →
  let s := gt_s (observe_all tracker_init l) in
  gs_frames s = Z.of_nat (length (filter (λ f, is_control f = false) l)) ∧
  gs_reported_lost s = fate_count ReportedLost (fates None l) ∧
  gs_absent_frames s = fate_count Absent (fates None l) ∧
  gs_silent_lost s = fate_count SilentLost (fates None l) ∧
  gs_frames s + gs_reported_lost s + gs_absent_frames s + gs_silent_lost s = n - first_seq l ∧
  total_lost (observe_all tracker_init l) = gs_reported_lost s + gs_silent_lost s ∧
  gt_next (observe_all tracker_init l) = n.
Proof.
  intros Hwf Hfw Hn s.
  destruct (observe_all_tracks l _ _ _ Hwf Hfw tracker_init_tracks) as [H1 H2 H3 H4 _ _ _ H8].
  rewrite Hn in H8. destruct H8 as [H8 H9]. simpl app in *. fold s in H1, H2, H3, H4.
  pose proof (fates_length_none _ _ Hwf Hfw Hn) as Hlen.
  pose proof (fate_count_total (fates None l)) as Htot.
  assert (∀ x, 0 <= fate_count x (fates None l)) as Hp by (intros; unfold fate_count; lia).
  pose proof (Hp Received). pose proof (Hp Absent). pose proof (Hp ReportedLost).
  pose proof (Hp SilentLost).
  split_and!; try done; [by rewrite H1, received_real|lia|].
  unfold total_lost. fold s. rewrite u64_id; [done|]. lia.
Qed.

(** Silent jumps are falsifiable evidence: over any forward stream the tracker reports
    zero silent jumps exactly when every real frame and every marker carries the
    sequence number the records before it announced. *)
Theorem tracker_silent_iff l :
  Forall frame_wf l → forward None l = true →
  gs_silent_jumps (gt_s (observe_all tracker_init l)) = 0 ↔ explained None l = true.
Proof.
  intros Hwf Hfw. rewrite explained_fates by done.
  destruct (observe_all_tracks l _ _ _ Hwf Hfw tracker_init_tracks) as [_ _ _ H4 _ H6 _ _].
  simpl app in *. by rewrite H6, H4.
Qed.

(** ** Witnesses *)

Definition tracked_frame (s : Z) : Frame := mkFrame s 1 2 0x123 0 0 0 0 (replicate 8 0).

Definition tracked_stream : list Frame :=
  [make_echo 9000000 5; tracked_frame 10; tracked_frame 11; make_gap 12 3 kConsumerOverrun 7;
   tracked_frame 15; make_echo 9000001 8; make_gap 16 100 kConsumerAbsent 9; tracked_frame 116;
   tracked_frame 120].

Lemma tracker_classifies_witness :
  let s := gt_s (observe_all tracker_init tracked_stream) in
  gs_frames s = 5 ∧ gs_silent_lost s = 3 ∧
  gs_frames s + gs_reported_lost s + gs_absent_frames s + gs_silent_lost s = 121 - 10.
Proof.
  destruct (tracker_classifies tracked_stream 121) as (H1 & _ & _ & _ & H5 & _);
    [by apply (bool_decide_unpack _); vm_compute|by vm_compute|by vm_compute|].
  split; [by vm_compute|]. split; [by vm_compute|exact H5].
Defined.

Lemma tracker_silent_iff_witness :
  gs_silent_jumps (gt_s (observe_all tracker_init (take 8 tracked_stream))) = 0.
Proof.
  apply (tracker_silent_iff (take 8 tracked_stream));
    [by apply (bool_decide_unpack _); vm_compute|by vm_compute|by vm_compute].
Defined.
