(* ===== verification/Samples.v ===== *)
(** * Samples: the bounded sample buffer and nearest-rank percentiles
      (src/src/samples.hpp, src/src/samples.cpp)

    [add] and [decimate] are the buffer operations; [samples_at] records at which
    arrival each retained value came, which is what the decimation theorem is
    about. Doubles are IEEE binary64 values of the Standard Library's
    [spec_float], so the index computation of [nearest_rank] runs as in the code. *)

From stdpp Require Import sorting.
From Stdlib Require Import SpecFloat.
From S2P Require Import Prelude Doubles.

(** ** Percentiles *)

Definition p50_ : spec_float := double_literal 50 100.
Definition p90_ : spec_float := double_literal 90 100.
Definition p99_ : spec_float := double_literal 99 100.
Definition p999_ : spec_float := double_literal 999 1000.

Definition rank_index (size : Z) (p : spec_float) : Z :=
  let idx := double_ceil (double_mul p (double_of size)) in
  let idx := if idx =? 0 then 1 else idx in
  if idx >? size then size else idx.

Definition nearest_rank (sorted : list Z) (p : spec_float) : Z :=
  match sorted with
  | [] => 0
  | _ => nth (Z.to_nat (rank_index (Z.of_nat (length sorted)) p - 1)) sorted 0
  end.

Record Percentiles := mkPercentiles {
  pc_count : Z;
  pc_min : Z;
  pc_max : Z;
  pc_mean : spec_float;
  pc_p50 : Z;
  pc_p90 : Z;
  pc_p99 : Z;
  pc_p999 : Z
}.

(** [Percentiles p;] *)
Definition percentiles_zero : Percentiles := mkPercentiles 0 0 0 (S754_zero false) 0 0 0 0.

(** Sorts the caller's vector in place: the sorted vector is returned too. The
    64-bit sum of the mean is exact as long as it fits, its overflow being
    undefined in the source. *)
Definition percentiles_of (values : list Z) : Percentiles * list Z :=
  match values with
  | [] => (percentiles_zero, [])
  | _ =>
      let v := merge_sort Z.le values in
      (mkPercentiles (Z.of_nat (length v)) (default 0 (head v)) (default 0 (last v))
         (double_div (double_of (fold_left Z.add v 0)) (double_of (Z.of_nat (length v))))
         (nearest_rank v p50_) (nearest_rank v p90_) (nearest_rank v p99_)
         (nearest_rank v p999_), v)
  end.

(** ** The buffer *)

Record Samples := mkSamples {
  values_ : list Z;
  s_capacity_ : Z;
  total_ : Z;
  stride_ : Z;
  seen_ : Z
}.

Definition make_samples (capacity : Z) : Samples :=
  mkSamples [] (if capacity =? 0 then 1 else capacity) 0 1 0.

(** [for (i = 0; i < size; i += 2) values_[out++] = values_[i]]. *)
Fixpoint every_second {A} (l : list A) : list A :=
  match l with
  | a :: _ :: l => a :: every_second l
  | l => l
  end.

Definition decimate (s : Samples) : Samples :=
  mkSamples (every_second (values_ s)) (s_capacity_ s) (total_ s) (u64 (stride_ s * 2)) (seen_ s).

Definition add (s : Samples) (value : Z) : Samples :=
  let s := mkSamples (values_ s) (s_capacity_ s) (u64 (total_ s + 1)) (stride_ s)
             (u64 (seen_ s + 1)) in
  if seen_ s <? stride_ s then s
  else
    let s := mkSamples (values_ s ++ [value]) (s_capacity_ s) (total_ s) (stride_ s) 0 in
    if Z.of_nat (length (values_ s)) >=? s_capacity_ s then decimate s else s.

Definition compute (s : Samples) : Percentiles :=
  let p := (percentiles_of (values_ s)).1 in
  mkPercentiles (total_ s) (pc_min p) (pc_max p) (pc_mean p) (pc_p50 p) (pc_p90 p) (pc_p99 p)
    (pc_p999 p).

(** The lines [write_csv] writes after its header line. *)
Definition csv_values (s : Samples) : list Z := values_ s.

(** ** Percentile lemmas *)

(** The four reported percentiles: the double used, the fraction it stands for and
    the field it is reported in. *)
Inductive percentile : spec_float → Z → Z → (Percentiles → Z) → Prop :=
  | at_p50 : percentile p50_ 50 100 pc_p50
  | at_p90 : percentile p90_ 90 100 pc_p90
  | at_p99 : percentile p99_ 99 100 pc_p99
  | at_p999 : percentile p999_ 999 1000 pc_p999.

(** The smallest integer not below [a * n / b]. *)
Definition ceil_frac (a b n : Z) : Z := - (- (a * n) / b).

(** Buffers whose index arithmetic is exact: any that fits in memory. *)
Definition rank_limit : Z := 2 ^ 40 - 1.

(** The doubles of the four fractions. *)
Lemma percentile_close p a b field :
  percentile p a b field → ∃ mp t, p = S754_finite false mp (- t) ∧ close_to a b mp t ∧ b <= 1000.
Proof.
  destruct 1; eexists _, 53; (split; [vm_compute; reflexivity|]); (split; [|lia]); constructor; simpl; lia.
Qed.

Lemma percentile_fraction p a b field : percentile p a b field → 0 < a <= b.
Proof. destruct 1; lia. Qed.

Lemma ceil_frac_bounds a b n : 0 < b → 0 < a <= b → 0 < n → 1 <= ceil_frac a b n <= n.
Proof. intros. unfold ceil_frac. Z.div_mod_to_equations. nia. Qed.

(** The IEEE product never moves the index. *)
Lemma rank_index_exact p a b field n :
  percentile p a b field → 0 < n <= rank_limit → rank_index n p = ceil_frac a b n.
Proof.
  intros Hp Hn. destruct (percentile_close _ _ _ _ Hp) as (mp & t & -> & Hc & Hb). unfold rank_limit in Hn.
  unfold rank_index. rewrite (fraction_ceil a b) by (done || lia). fold (ceil_frac a b n).
  pose proof (percentile_fraction _ _ _ _ Hp). pose proof (ceil_frac_bounds a b n).
  destruct (Z.eqb_spec (ceil_frac a b n) 0); [lia|]. destruct (Z.gtb_spec (ceil_frac a b n) n); lia.
Qed.

(** In a sorted list the element at index [i] has more than [i] elements at or
    below it and at most [i] strictly below it. *)
Lemma sorted_rank (l : list Z) (i : nat) (v : Z) :
  StronglySorted Z.le l → l !! i = Some v →
  Z.of_nat i < Z.of_nat (length (filter (λ x, x <= v) l)) ∧
  Z.of_nat (length (filter (λ x, x < v) l)) <= Z.of_nat i.
Proof.
  intros Hs. revert i. induction Hs as [|a l Hs IH Hall]; intros i Hi; [done|].
  rewrite !filter_cons. destruct i as [|i]; simpl in Hi.
  - simplify_eq. rewrite decide_True by lia. rewrite decide_False by lia.
    split; [simpl; lia|]. enough (filter (λ x, x < v) l = []) as -> by done.
    clear Hs IH. induction Hall as [|b l Hb _ IH]; [done|].
    rewrite filter_cons, decide_False by lia. done.
  - destruct (IH i Hi) as [H1 H2].
    eapply Forall_lookup_1 in Hall; [|exact Hi]. rewrite decide_True by lia.
    case_decide; simpl; lia.
Qed.

Lemma merge_sort_sorted (l : list Z) : StronglySorted Z.le (merge_sort Z.le l).
Proof. apply StronglySorted_merge_sort; [apply _|]. intros x y. lia. Qed.

Lemma filter_length_perm (P : Z → Prop) `{!∀ x, Decision (P x)} (l k : list Z) :
  l ≡ₚ k → length (filter P l) = length (filter P k).
Proof. intros Hp. by rewrite Hp. Qed.

(** The nearest-rank value of a sorted vector is the element whose rank is the
    exact ceiling of [a n / b]. *)
Lemma nearest_rank_spec (l : list Z) a b p field :
  0 < Z.of_nat (length l) <= rank_limit → percentile p a b field → StronglySorted Z.le l →
  let n := Z.of_nat (length l) in let v := nearest_rank l p in
  v ∈ l ∧ Z.of_nat (length (filter (λ x, x < v) l)) < ceil_frac a b n ∧
  ceil_frac a b n <= Z.of_nat (length (filter (λ x, x <= v) l)).
Proof.
  intros Hn Hp Hs n v. pose proof (percentile_fraction _ _ _ _ Hp) as Hab.
  pose proof (ceil_frac_bounds a b n ltac:(lia) Hab ltac:(lia)) as Hc.
  assert (rank_index n p = ceil_frac a b n) as Hr by (eapply rank_index_exact; [exact Hp|unfold n; lia]).
  assert (l !! Z.to_nat (ceil_frac a b n - 1) = Some v) as Hv.
  { unfold v, nearest_rank. destruct l as [|x l]; [simpl in Hn; lia|].
    fold n. rewrite Hr. rewrite nth_lookup.
    destruct (lookup_lt_is_Some_2 (x :: l) (Z.to_nat (ceil_frac a b n - 1))) as [y Hy]; [lia|].
    by rewrite Hy. }
  split; [by eapply list_elem_of_lookup_2|]. destruct (sorted_rank _ _ _ Hs Hv). lia.
Qed.

(** ** Decimation lemmas *)

(** Arrival indices [ks] are spread with stride [s] up to time [e]: neighbours are
    at least [s] and less than [2 s] apart, and the last is less than [s] before [e]. *)
Fixpoint spaced (s : Z) (ks : list Z) (e : Z) : Prop :=
  match ks with
  | [] => True
  | a :: t =>
      match t with
      | [] => 0 <= e - a < s
      | b :: _ => s <= b - a < s + s
      end ∧ spaced s t e
  end.

(** The retained values are the inputs that arrived at [ks]. *)
Definition picked (inputs ks vals : list Z) : Prop :=
  Forall2 (λ k v, 0 <= k ∧ inputs !! Z.to_nat k = Some v) ks vals.

Lemma spaced_snoc s ks e k : 0 < s → spaced s ks e → k = e + s → spaced s (ks ++ [k]) k.
Proof.
  intros Hs H ->. induction ks as [|a ks IH]; simpl in *; [lia|].
  destruct H as [H1 H2]. split; [|by apply IH]. destruct ks; simpl in *; lia.
Qed.

(** Induction two elements at a time, the shape of [every_second]. *)
Lemma list_pair_ind {A} (P : list A → Prop) :
  P [] → (∀ a, P [a]) → (∀ a b l, P l → P (a :: b :: l)) → ∀ l, P l.
Proof. intros H0 H1 H2. fix IH 1. intros [|a [|b l]]; [done|done|]. apply H2, IH. Qed.

Lemma spaced_every_second s ks e :
  0 < s → spaced s ks e → last ks = Some e → spaced (s + s) (every_second ks) e.
Proof.
  intros Hs. induction ks as [|a|a b ks IH] using list_pair_ind; intros H Hl; simpl in *;
    [done|lia|].
  destruct H as [H1 [H2 H3]]. destruct ks as [|c ks]; [injection Hl as ->; simpl; lia|].
  split; [|by apply IH]. destruct ks as [|d ks]; simpl in *; lia.
Qed.

Lemma head_every_second {A} (l : list A) : head (every_second l) = head l.
Proof. by destruct l as [|a [|b l]]. Qed.

Lemma picked_every_second inputs ks vals :
  picked inputs ks vals → picked inputs (every_second ks) (every_second vals).
Proof.
  unfold picked. revert vals.
  induction ks as [|k|k k' ks IH] using list_pair_ind; intros vals H;
    repeat (apply Forall2_cons_inv_l in H as (? & ? & ? & H & ->)); simpl; eauto.
  - apply Forall2_nil_inv_l in H as ->. constructor.
  - apply Forall2_nil_inv_l in H as ->. by constructor; [|constructor].
Qed.

Lemma length_every_second {A} (l : list A) :
  (2 * length (every_second l) <= length l + 1)%nat.
Proof.
  induction l as [|a|a b l IH] using list_pair_ind; simpl; lia.
Qed.

Lemma picked_app inputs x ks vals : picked inputs ks vals → picked (inputs ++ [x]) ks vals.
Proof.
  intros H. eapply Forall2_impl; [exact H|]. intros k v [H1 H2]. split; [done|].
  by apply lookup_app_l_Some.
Qed.

Record sampled (cap : Z) (inputs : list Z) (s : Samples) : Prop := {
  sm_cap : s_capacity_ s = cap;
  sm_total : total_ s = Z.of_nat (length inputs);
  sm_pow : ∃ k, 0 <= k ∧ stride_ s = 2 ^ k;
  sm_bound : stride_ s <= 2 * Z.of_nat (length inputs) + 1;
  sm_seen : 0 <= seen_ s < stride_ s ∧ seen_ s <= Z.of_nat (length inputs);
  sm_size : 2 <= cap → Z.of_nat (length (values_ s)) < cap;
  sm_picked : ∃ ks, picked inputs ks (values_ s) ∧
                    spaced (stride_ s) ks (Z.of_nat (length inputs) - 1 - seen_ s) ∧
                    (inputs = [] ∧ ks = [] ∧ seen_ s = 0 ∧ stride_ s = 1 ∨ head ks = Some 0)
}.

Definition inputs_bound : Z := 2 ^ 62.

Lemma make_samples_sampled capacity :
  0 <= capacity → sampled (Z.max 1 capacity) [] (make_samples capacity).
Proof.
  intros Hc. unfold make_samples. constructor; simpl; try lia.
  - destruct (capacity =? 0) eqn:E; zbool; lia.
  - by exists 0.
  - exists []. split; [constructor|]. split; [done|]. by left.
Qed.

Lemma picked_snoc inputs x ks vals :
  picked inputs ks vals → picked (inputs ++ [x]) (ks ++ [Z.of_nat (length inputs)]) (vals ++ [x]).
Proof.
  intros H. apply Forall2_app; [by apply picked_app|]. constructor; [|constructor].
  split; [lia|]. rewrite Nat2Z.id. apply list_lookup_middle. done.
Qed.

(** One [add] keeps the spread, whether it skips, keeps or decimates. *)
Lemma add_sampled cap inputs s x :
  1 <= cap → Z.of_nat (length inputs) + 1 < inputs_bound → sampled cap inputs s →
  sampled cap (inputs ++ [x]) (add s x).
Proof.
  unfold inputs_bound. intros Hcap Hb [H1 H2 (p & Hp & H3) H4 H5 H6 (ks & H7 & H8 & H9)].
  unfold add. simpl. rewrite H1. rewrite !u64_small by (unfold fits; pow_consts; lia).
  set (n := Z.of_nat (length inputs)) in *.
  assert (Z.of_nat (length (inputs ++ [x])) = n + 1) as Hn by (rewrite length_app; simpl; lia).
  destruct (Z.ltb_spec (seen_ s + 1) (stride_ s)) as [Hlt|Hge].
  - constructor; simpl; rewrite ?Hn; try lia; eauto.
    exists ks. split; [by apply picked_app|].
    split; [by replace (n + 1 - 1 - (seen_ s + 1)) with (n - 1 - seen_ s) by lia|].
    right. by destruct H9 as [(? & ? & ? & ?)|?]; [lia|].
  - assert (seen_ s + 1 = stride_ s) as Hs by lia.
    pose proof (picked_snoc inputs x ks (values_ s) H7) as Hpk.
    pose proof (spaced_snoc (stride_ s) ks _ n ltac:(lia) H8 ltac:(lia)) as Hsp.
    assert (head (ks ++ [n]) = Some 0) as Hhd.
    { destruct H9 as [(Hi & -> & _)|H9]; [unfold n; by rewrite Hi|by destruct ks]. }
    assert (Z.of_nat (length (values_ s ++ [x])) = Z.of_nat (length (values_ s)) + 1) as Hlv
      by (rewrite length_app; simpl; lia).
    destruct (Z.geb_spec (Z.of_nat (length (values_ s ++ [x]))) cap) as [Hfull|Hroom].
    + unfold decimate. simpl. rewrite u64_small by (unfold fits; pow_consts; lia).
      pose proof (length_every_second (values_ s ++ [x])) as Hle.
      constructor; simpl; rewrite ?Hn; try done; try lia.
      * exists (p + 1). split; [lia|]. rewrite Z.pow_add_r by lia. lia.
      * exists (every_second (ks ++ [n])). split; [by apply picked_every_second|].
        split; [|right; by rewrite head_every_second].
        replace (n + 1 - 1 - 0) with n by lia.
        replace (stride_ s * 2) with (stride_ s + stride_ s) by lia.
        apply spaced_every_second; [lia|done|]. by rewrite last_snoc.
    + constructor; simpl; rewrite ?Hn; try done; try lia; eauto.
      exists (ks ++ [n]). split; [done|]. split; [|by right].
      by replace (n + 1 - 1 - 0) with n by lia.
Qed.

Lemma add_all_sampled cap inputs more s :
  1 <= cap → Z.of_nat (length (inputs ++ more)) < inputs_bound → sampled cap inputs s →
  sampled cap (inputs ++ more) (fold_left add more s).
Proof.
  intros Hc. revert inputs s. induction more as [|x more IH]; intros inputs s Hb Hs; simpl.
  - by rewrite app_nil_r.
  - replace (inputs ++ x :: more) with ((inputs ++ [x]) ++ more) in * by (by rewrite <- app_assoc).
    apply IH; [done|]. apply add_sampled; [done| |done].
    rewrite !length_app in Hb. simpl in Hb. lia.
Qed.

(** ** Properties *)

(** Systematic decimation. Whatever is offered, the buffer never holds its full
    capacity at rest, [total] counts every sample, the stride is a power of two, and
    the retained values are inputs taken across the whole run: the first input is
    always among them, neighbours are at least one stride and less than two strides
    apart, and the newest is less than two strides old. *)
Theorem samples_spread capacity inputs :
  0 <= capacity → Z.of_nat (length inputs) < inputs_bound → inputs ≠ [] →
  let s := fold_left add inputs (make_samples capacity) in
  total_ s = Z.of_nat (length inputs) ∧
  (2 <= capacity → Z.of_nat (length (values_ s)) < capacity) ∧
  (∃ k, 0 <= k ∧ stride_ s = 2 ^ k) ∧ 0 <= seen_ s < stride_ s ∧
  ∃ ks, picked inputs ks (values_ s) ∧ head ks = Some 0 ∧
        spaced (stride_ s) ks (Z.of_nat (length inputs) - 1 - seen_ s).
Proof.
  intros Hc Hb Hne s.
  destruct (add_all_sampled (Z.max 1 capacity) [] inputs (make_samples capacity))
    as [H1 H2 H3 H4 H5 H6 (ks & H7 & H8 & H9)];
    [lia|done|by apply make_samples_sampled|]. simpl app in *. fold s in H1, H2, H3, H4, H5, H6, H7, H8, H9.
  split_and!; try done; try lia. exists ks. destruct H9 as [[? _]|?]; done.
Qed.

(** C27. Nearest rank, in doubles. For every buffer of up to [rank_limit] samples, each
    percentile [percentiles_of] reports is one of the samples, and its rank is exactly
    the ceiling of [p n]: fewer than that many samples are below it and at least that
    many are at or below it. The IEEE product [p * n] never moves the index. *)
Theorem percentiles_rank values p a b field :
  0 < Z.of_nat (length values) <= rank_limit → percentile p a b field →
  let v := field (percentiles_of values).1 in
  let rank := ceil_frac a b (Z.of_nat (length values)) in
  v ∈ values ∧ Z.of_nat (length (filter (λ x, x < v) values)) < rank ∧
  rank <= Z.of_nat (length (filter (λ x, x <= v) values)).
Proof.
  intros Hn Hp v rank. pose proof (merge_sort_Permutation Z.le values) as Hperm.
  pose proof (merge_sort_sorted values) as Hsort.
  assert (v = nearest_rank (merge_sort Z.le values) p) as Hv.
  { unfold v, percentiles_of. destruct values; [simpl in Hn; lia|]. by destruct Hp. }
  rewrite <- (Permutation_length Hperm) in Hn.
  pose proof (nearest_rank_spec _ a b p field Hn Hp Hsort) as H. cbv zeta in H.
  rewrite <- Hv, !(filter_length_perm _ _ _ Hperm), (Permutation_length Hperm) in H.
  destruct H as (H1 & H2 & H3). by rewrite Hperm in H1.
Qed.

(** ** Witnesses *)

Definition sample_inputs : list Z := [9; 3; 7; 1; 8; 2; 6; 4; 5; 0].

Lemma samples_spread_witness :
  let s := fold_left add sample_inputs (make_samples 4) in
  values_ s = [9; 2] ∧ stride_ s = 4 ∧
  ∃ ks, picked sample_inputs ks (values_ s) ∧ head ks = Some 0 ∧
        spaced (stride_ s) ks (Z.of_nat (length sample_inputs) - 1 - seen_ s).
Proof.
  split; [by vm_compute|]. split; [by vm_compute|].
  apply (samples_spread 4 sample_inputs); [lia|by vm_compute|done].
Defined.

Lemma percentiles_rank_witness :
  pc_p90 (percentiles_of sample_inputs).1 = 8 ∧ 8 ∈ sample_inputs.
Proof.
  assert (pc_p90 (percentiles_of sample_inputs).1 = 8) as E by by vm_compute.
  split; [exact E|]. rewrite <- E.
  apply (percentiles_rank sample_inputs p90_ 90 100 pc_p90); [unfold rank_limit; simpl; lia|constructor].
Defined.
