(* ===== verification/Feed.v ===== *)
(** * Feed: what an egress thread needs from whatever feeds it (src/src/feed.hpp)

    [ConsumerFeed] is the abstract class of the source, [FeedSpec] what every
    implementation promises to the egress: frames of the published log, unaltered, in
    order, never twice, whatever the other threads do meanwhile. [QueueFeed] and
    [RingFeed] are the two implementations, each with its instance. A read of the ring is
    atomic here, between publications of the other threads that are atomic too. *)

From S2P Require Import Prelude Frame Wire BoundedQueue BroadcastRing.

Record FeedStats := mkFeedStats {
  fs_delivered : Z;
  fs_dropped : Z;
  fs_backlog : Z;
  fs_capacity : Z
}.

(** [E] describes what the other threads do to the feed during one call, up to its
    return. *)
Class ConsumerFeed (F E : Type) := {
  feed_pop : nat → E → F → list Frame * F;
  feed_close : F → F;
  feed_closed : F → bool;
  feed_stats : F → FeedStats;
  feed_topology : string
}.

(** ** The contract *)

(** The frame a consumer receives for position [p] of the published log. *)
Definition log_frame (log : list Frame) (p : Z) : Frame := set_seq p (log !!! Z.to_nat p).

(** [out] is a run of log frames at increasing positions, all in [pos, pos'). *)
Fixpoint delivers (log : list Frame) (pos : Z) (out : list Frame) (pos' : Z) : Prop :=
  match out with
  | [] => pos <= pos' <= Z.of_nat (length log)
  | f :: out =>
      pos <= f_seq f < Z.of_nat (length log) ∧ f = log_frame log (f_seq f) ∧
      delivers log (f_seq f + 1) out pos'
  end.

(** A frame of the bus: its record is one a decoder accepts, and it is neither a loss
    marker nor a probe. *)
Definition bus_frame (f : Frame) : Prop := frame_sendable f ∧ is_control f = false.

#[export] Instance bus_frame_dec f : Decision (bus_frame f).
Proof. unfold bus_frame. apply _. Defined.

Lemma set_seq_bus s f : fits 64 s → bus_frame f → bus_frame (set_seq s f).
Proof. intros Hs [H1 H2]. split; [auto with etg|done]. Qed.

(** A log a gateway can have published: bus frames, and fewer than the position
    arithmetic allows. *)
Definition good_log (log : list Frame) : Prop :=
  Forall bus_frame log ∧ Z.of_nat (length log) < log_bound.

Class FeedSpec (F E : Type) `{!ConsumerFeed F E} := {
  feed_at : F → list Frame → Z → Prop;
  feed_env_ok : E → F → list Frame → Prop;
  feed_added : E → F → list Frame;
  feed_at_good f log pos : feed_at f log pos → good_log log ∧ 0 <= pos <= Z.of_nat (length log);
  feed_pop_spec n e f log pos :
    feed_at f log pos → feed_env_ok e f log →
    ∃ pos', feed_at (feed_pop n e f).2 (log ++ feed_added e f) pos' ∧
            (length (feed_pop n e f).1 <= n)%nat ∧
            delivers (log ++ feed_added e f) pos (feed_pop n e f).1 pos';
  feed_close_spec f log pos : feed_at f log pos → feed_at (feed_close f) log pos
}.

(** Consecutive sequence numbers from [n]. *)
Fixpoint stamped (n : Z) (l : list Frame) : Prop :=
  match l with
  | [] => True
  | f :: l => f_seq f = n ∧ stamped (n + 1) l
  end.

#[export] Instance stamped_dec n l : Decision (stamped n l).
Proof. revert n. induction l; intros n; simpl; apply _. Defined.

(** A feed whose batches never skip a position. *)
Class FeedContiguous (F E : Type) `{FeedSpec F E} :=
  feed_pop_contiguous n e f log pos :
    feed_at f log pos → feed_env_ok e f log →
    ∃ from, stamped from (feed_pop n e f).1.

(** ** Lemmas on the contract *)

Lemma log_frame_seq log p : f_seq (log_frame log p) = p.
Proof. done. Qed.

Lemma log_frame_app log more p :
  0 <= p < Z.of_nat (length log) → log_frame (log ++ more) p = log_frame log p.
Proof. intros Hp. unfold log_frame. by rewrite lookup_total_app_l by lia. Qed.

Lemma log_frame_bus log p :
  good_log log → 0 <= p < Z.of_nat (length log) → bus_frame (log_frame log p).
Proof.
  intros [Hs Hb] Hp. unfold log_bound in Hb. apply set_seq_bus.
  - unfold fits. pow_consts. lia.
  - eapply Forall_forall in Hs; [exact Hs|]. apply list_elem_of_lookup_total_2. lia.
Qed.

Lemma delivers_app log pos out pos' out' pos'' more :
  0 <= pos → delivers log pos out pos' → delivers (log ++ more) pos' out' pos'' →
  delivers (log ++ more) pos (out ++ out') pos''.
Proof.
  revert pos. induction out as [|f out IH]; intros pos Hpos; simpl.
  - intros H H'. destruct out' as [|g out']; simpl in *; [lia|].
    destruct H' as (? & ? & ?). split; [lia|done].
  - intros (H1 & H2 & H3) H'. rewrite length_app.
    split; [lia|]. split; [rewrite log_frame_app by lia; done|]. apply IH; [lia|done|done].
Qed.

Lemma delivers_pos log pos out pos' : delivers log pos out pos' → pos <= pos' <= Z.of_nat (length log).
Proof.
  revert pos. induction out as [|f out IH]; intros pos; simpl; [done|].
  intros (H1 & _ & H3). specialize (IH _ H3). lia.
Qed.

Lemma delivers_forall log pos out pos' :
  0 <= pos → delivers log pos out pos' →
  Forall (λ f, pos <= f_seq f < pos' ∧ f = log_frame log (f_seq f)) out.
Proof.
  revert pos. induction out as [|f out IH]; intros pos Hp; simpl; [constructor|].
  intros (H1 & H2 & H3). pose proof (delivers_pos _ _ _ _ H3). constructor; [split; [lia|done]|].
  eapply Forall_impl; [apply (IH (f_seq f + 1)); [lia|done]|]. simpl. intros g [? ?]. split; [lia|done].
Qed.

Lemma delivers_bus log pos out pos' :
  good_log log → 0 <= pos → delivers log pos out pos' → Forall bus_frame out.
Proof.
  intros Hg Hp Hd. pose proof (delivers_pos _ _ _ _ Hd).
  eapply Forall_impl; [by eapply delivers_forall|]. simpl. intros f [H1 ->].
  apply log_frame_bus; [done|]. lia.
Qed.

(** A delivery is still one after more has been published. *)
Lemma delivers_extend log more pos out pos' :
  0 <= pos → delivers log pos out pos' → delivers (log ++ more) pos out pos'.
Proof.
  intros H0 H. rewrite <- (app_nil_r out). eapply delivers_app; [done|exact H|].
  simpl. pose proof (delivers_pos _ _ _ _ H). rewrite length_app. lia.
Qed.

Lemma stamped_app n l k : stamped n (l ++ k) ↔ stamped n l ∧ stamped (n + Z.of_nat (length l)) k.
Proof.
  revert n. induction l as [|f l IH]; intros n.
  - simpl. rewrite Z.add_0_r. tauto.
  - cbn [app stamped]. rewrite IH.
    replace (n + Z.of_nat (length (f :: l))) with (n + 1 + Z.of_nat (length l)) by (simpl; lia).
    tauto.
Qed.

Lemma stamped_lookup n l i f : stamped n l → l !! i = Some f → f_seq f = n + Z.of_nat i.
Proof.
  revert n i. induction l as [|g l IH]; intros n i; [done|]. intros [H1 H2] Hi.
  destruct i as [|i]; simpl in Hi; [simplify_eq; lia|].
  rewrite (IH (n + 1) i H2 Hi). lia.
Qed.

Lemma stamped_drop n l k : stamped n l → stamped (n + Z.of_nat (Nat.min k (length l))) (drop k l).
Proof.
  intros H. rewrite <- (take_drop k l) in H. apply stamped_app in H as [_ H].
  by rewrite length_take in H.
Qed.

Lemma stamped_take n l k : stamped n l → stamped n (take k l).
Proof. intros H. rewrite <- (take_drop k l) in H. by apply stamped_app in H as [H _]. Qed.

(** A stamped piece of a stamped log is delivered as it is. *)
Lemma stamped_delivers log pre l :
  stamped 0 log → log = pre ++ l → ∀ k, (k <= length l)%nat →
  delivers log (Z.of_nat (length pre)) (take k l) (Z.of_nat (length pre + k)).
Proof.
  intros Hs. revert pre. induction l as [|f l IH]; intros pre E k Hk.
  - rewrite take_nil. simpl in *. subst. rewrite length_app in *. simpl. lia.
  - destruct k as [|k]; simpl in *; [subst; rewrite length_app; simpl; lia|].
    assert (log !! length pre = Some f) as Hf by (subst; by apply list_lookup_middle).
    assert (f_seq f = Z.of_nat (length pre)) as Hq
      by (rewrite (stamped_lookup _ _ _ _ Hs Hf); lia).
    assert (length log = (length pre + S (length l))%nat) as Hl by (subst; by rewrite length_app).
    split; [lia|]. split.
    + unfold log_frame. replace (Z.to_nat (f_seq f)) with (length pre) by lia.
      rewrite (list_lookup_total_correct _ _ _ Hf). by rewrite set_seq_id.
    + specialize (IH (pre ++ [f])). rewrite length_app in IH. simpl in IH.
      replace (f_seq f + 1) with (Z.of_nat (length pre + 1)) by lia.
      replace (length pre + S k)%nat with (length pre + 1 + k)%nat by lia.
      apply IH; [|lia]. by rewrite <- app_assoc.
Qed.

Lemma delivers_weaken log pos0 pos out pos' :
  pos0 <= pos → delivers log pos out pos' → delivers log pos0 out pos'.
Proof. destruct out; simpl; [lia|]. intros ? (? & ? & ?). split; [lia|done]. Qed.

(** ** QueueFeed *)

Module QueueFeed.
Definition t : Type := BoundedQueue Frame.

(** What the other threads do before the mutex is taken, and while the consumer waits
    (or, when it does not have to wait, before the call returns). *)
Record Env := mkEnv { before : list (QueueOp Frame); during : list (QueueOp Frame) }.

Definition pop (n : nat) (e : Env) (q : t) : list Frame * t :=
  let q := fold_left apply_op (before e) q in
  let '(out, q') := pop_batch (Z.of_nat n) (during e) q in
  (out, if (Z.of_nat n =? 0) || pop_ready q then fold_left apply_op (during e) q' else q').

Definition stats (q : t) : FeedStats :=
  let s := BoundedQueue.stats q in
  mkFeedStats (qs_popped s) (qs_dropped s) (qs_size s) (qs_capacity s).

#[global] Instance feed : ConsumerFeed t Env := {
  feed_pop := pop;
  feed_close := close;
  feed_closed := closed;
  feed_stats := stats;
  feed_topology := "queue"
}.

(** The queue holds a suffix of the log, none of it before [pos]. *)
Definition holds (q : t) (log : list Frame) (pos : Z) : Prop :=
  queue_wf q ∧ good_log log ∧ stamped 0 log ∧
  ∃ pre, log = pre ++ contents q ∧ 0 <= pos <= Z.of_nat (length pre).

Definition accepted (op : QueueOp Frame) (q : t) : list Frame :=
  match op with
  | OpPush items => if closed_ q then [] else items
  | OpClose => []
  end.

(** The producer pushes decodable frames numbered on from what it pushed before. *)
Fixpoint ops_ok (ops : list (QueueOp Frame)) (q : t) (n : Z) : Prop :=
  match ops with
  | [] => True
  | op :: ops =>
      let items := accepted op q in
      stamped n items ∧ Forall bus_frame items ∧
      n + Z.of_nat (length items) < log_bound ∧
      ops_ok ops (apply_op q op) (n + Z.of_nat (length items))
  end.

#[global] Instance ops_ok_dec ops q n : Decision (ops_ok ops q n).
Proof. revert q n. induction ops; intros q n; simpl; apply _. Defined.

Definition env_ok (e : Env) (q : t) (log : list Frame) : Prop :=
  ops_ok (before e ++ during e) q (Z.of_nat (length log)).

Lemma apply_op_contents op q :
  queue_wf q →
  ∃ dropped, contents q ++ accepted op q = dropped ++ contents (apply_op q op).
Proof.
  intros Hwf. destruct op as [items|]; [|by exists []; rewrite app_nil_r].
  destruct (push_batch_refines items q Hwf) as [_ H]. cbn [apply_op accepted].
  destruct (push_batch items q) as [q' d] eqn:Eq. unfold abs_push in H. simpl in *.
  destruct items as [|x items].
  { injection Eq as <- <-. exists []. destruct (closed_ q); by rewrite app_nil_r. }
  rewrite bool_decide_false in H by done. simpl in H.
  destruct (closed_ q) eqn:Ec; injection H as _ Hc _ _ _ _ _; rewrite <- Hc.
  - exists []. by rewrite app_nil_r.
  - eexists. apply lastn_split.
Qed.

Lemma op_holds op q log pos :
  holds q log pos → ops_ok [op] q (Z.of_nat (length log)) →
  holds (apply_op q op) (log ++ accepted op q) pos.
Proof.
  intros (Hwf & [Hs Hb] & Hst & pre & E & Hp) (H1 & H2 & H3 & _). split_and!.
  - by apply apply_op_refines.
  - split; [by apply Forall_app|]. rewrite length_app. lia.
  - apply stamped_app. by rewrite Z.add_0_l.
  - destruct (apply_op_contents op q Hwf) as [d Hd]. exists (pre ++ d).
    rewrite <- app_assoc, <- Hd, E, app_assoc. split; [done|]. rewrite length_app. lia.
Qed.

(** Everything the other threads get into the queue. *)
Fixpoint all_accepted (ops : list (QueueOp Frame)) (q : t) : list Frame :=
  match ops with
  | [] => []
  | op :: ops => accepted op q ++ all_accepted ops (apply_op q op)
  end.

Definition added (e : Env) (q : t) : list Frame := all_accepted (before e ++ during e) q.

Lemma ops_hold ops q log pos :
  holds q log pos → ops_ok ops q (Z.of_nat (length log)) →
  holds (fold_left apply_op ops q) (log ++ all_accepted ops q) pos.
Proof.
  revert q log. induction ops as [|op ops IH]; intros q log Hh Hok; simpl in *.
  { by rewrite app_nil_r. }
  destruct Hok as (H1 & H2 & H3 & H4). rewrite app_assoc. apply IH.
  - by apply op_holds.
  - by rewrite length_app, Nat2Z.inj_add.
Qed.

Lemma ops_ok_app a b q n :
  ops_ok (a ++ b) q n ↔
  ops_ok a q n ∧ ops_ok b (fold_left apply_op a q) (n + Z.of_nat (length (all_accepted a q))).
Proof.
  revert q n. induction a as [|op a IH]; intros q n; simpl; [rewrite Z.add_0_r; tauto|].
  rewrite IH, length_app, Nat2Z.inj_add, Z.add_assoc. tauto.
Qed.

Lemma all_accepted_app a b q :
  all_accepted (a ++ b) q = all_accepted a q ++ all_accepted b (fold_left apply_op a q).
Proof. revert q. induction a as [|op a IH]; intros q; simpl; [done|]. by rewrite IH, app_assoc. Qed.

(** What is accepted depends on the queue only through its being closed. *)
Lemma accepted_closed ops q q' :
  queue_wf q → queue_wf q' → closed_ q = closed_ q' →
  all_accepted ops q = all_accepted ops q' ∧
  ∀ n, ops_ok ops q n → ops_ok ops q' n.
Proof.
  revert q q'. induction ops as [|op ops IH]; intros q q' Hwf Hwf' E; simpl; [done|].
  assert (accepted op q = accepted op q') as Ea by (destruct op; simpl; by rewrite ?E).
  assert (∀ q, queue_wf q → closed_ (apply_op q op) = match op with OpClose => true | _ => closed_ q end)
    as Hc.
  { intros q0 H0. destruct (apply_op_refines op q0 H0) as [_ H].
    apply (f_equal a_closed) in H. simpl in H. rewrite H. destruct op; [|done].
    unfold abs_op, abs_push. by destruct (_ || _). }
  destruct (IH (apply_op q op) (apply_op q' op)) as [H1 H2];
    [by apply apply_op_refines|by apply apply_op_refines|rewrite !Hc by done; by destruct op|].
  rewrite Ea, H1. split; [done|]. intros n (? & ? & ? & ?). split_and!; auto.
Qed.

(** Taking the oldest frames of a queue that holds a suffix of the log. *)
Lemma take_holds n q q' log pos :
  holds q log pos → queue_wf q' → contents q' = drop n (contents q) →
  ∃ pos' from, holds q' log pos' ∧ delivers log pos (take n (contents q)) pos' ∧
               stamped from (take n (contents q)).
Proof.
  intros (Hwf & Hg & Hst & pre & E & Hp) Hwf' Ec.
  exists (Z.of_nat (length pre + Nat.min n (length (contents q)))), (Z.of_nat (length pre)).
  pose proof (stamped_delivers _ _ _ Hst E (Nat.min n (length (contents q))) ltac:(lia)) as Hd.
  rewrite <- take_take, firstn_all in Hd. split; [|split].
  - split_and!; try done. exists (pre ++ take n (contents q)). rewrite Ec, <- app_assoc, take_drop.
    split; [done|]. rewrite length_app, length_take. lia.
  - eapply delivers_weaken; [|exact Hd]. lia.
  - apply stamped_take. rewrite E in Hst. apply stamped_app in Hst as [_ Hst].
    by rewrite Z.add_0_l in Hst.
Qed.

(** The outcome of [pop_batch] in terms of the state it finds once it has the lock. *)
Lemma pop_cases n ops (q : t) :
  queue_wf q →
  let q1 := if (Z.of_nat n =? 0) || pop_ready q then q else fold_left apply_op ops q in
  let r := pop_batch (Z.of_nat n) ops q in
  queue_wf r.2 ∧ r.1 = take n (contents q1) ∧ contents r.2 = drop n (contents q1) ∧
  closed_ r.2 = closed_ q1.
Proof.
  intros Hwf q1 r. destruct (pop_batch_refines (Z.of_nat n) ops q Hwf ltac:(lia)) as [Hwf' H].
  fold r in Hwf', H. destruct r as [out q']. simpl in *. unfold abs_pop in H. unfold q1.
  destruct (Z.eqb_spec (Z.of_nat n) 0) as [En|En]; simpl.
  { injection H as <- _ E1 E2 _ _ _. assert (n = 0%nat) as -> by lia. by rewrite E1, E2. }
  rewrite (pop_ready_abs q Hwf).
  assert ((if bool_decide (a_items (abs_of q) = []) && negb (a_closed (abs_of q))
           then fold_left abs_op ops (abs_of q) else abs_of q)
          = abs_of (if negb (bool_decide (a_items (abs_of q) = []) && negb (closed_ q))
                    then q else fold_left apply_op ops q)) as Ea.
  { simpl. destruct (bool_decide _ && _); simpl; [|done]. by destruct (apply_ops_refine ops q Hwf). }
  rewrite Ea in H. simpl in H. rewrite Nat2Z.id in H. injection H as <- _ Ec Ecl _ _ _. done.
Qed.

Lemma pop_full n e q log pos :
  holds q log pos → env_ok e q log →
  ∃ pos' from, holds (pop n e q).2 (log ++ added e q) pos' ∧ (length (pop n e q).1 <= n)%nat ∧
    delivers (log ++ added e q) pos (pop n e q).1 pos' ∧ stamped from (pop n e q).1.
Proof.
  intros Hh Hok. unfold env_ok in Hok. apply ops_ok_app in Hok as [Hok1 Hok2].
  pose proof (ops_hold _ _ _ _ Hh Hok1) as Hh1. unfold added. rewrite all_accepted_app, app_assoc.
  rewrite <- Nat2Z.inj_add, <- length_app in Hok2. unfold pop.
  set (q1 := fold_left apply_op (before e) q) in *.
  set (log1 := log ++ all_accepted (before e) q) in *.
  pose proof Hh1 as (Hwf1 & _). pose proof (pop_cases n (during e) q1 Hwf1) as Hp. cbv zeta in Hp.
  destruct (pop_batch (Z.of_nat n) (during e) q1) as [out q']. simpl in *.
  destruct (_ || pop_ready q1); destruct Hp as (Hwf' & -> & Ec & Ecl).
  - destruct (take_holds n q1 q' log1 pos Hh1 Hwf' Ec) as (pos' & from & K1 & K2 & K3).
    destruct (accepted_closed (during e) q1 q' Hwf1 Hwf' (eq_sym Ecl)) as [Ha Ho].
    exists pos', from. rewrite Ha. split; [apply ops_hold; auto|].
    split; [rewrite length_take; lia|]. split; [|done].
    apply delivers_extend; [|done]. destruct Hh as (_ & _ & _ & pre & _ & Hp). lia.
  - pose proof (ops_hold _ _ _ _ Hh1 Hok2) as Hh2.
    destruct (take_holds n _ q' _ pos Hh2 Hwf' Ec) as (pos' & from & K1 & K2 & K3).
    exists pos', from. split_and!; try done. rewrite length_take. lia.
Qed.

#[global] Program Instance feed_spec : FeedSpec t Env := {
  feed_at := holds;
  feed_env_ok := env_ok;
  feed_added := added
}.
Next Obligation.
  intros q log pos (_ & Hg & _ & pre & E & Hp). split; [done|].
  apply (f_equal length) in E. rewrite length_app in E. lia.
Qed.
Next Obligation.
  intros n e q log pos Hh Hok.
  destruct (pop_full n e q log pos Hh Hok) as (pos' & _ & H1 & H2 & H3 & _). by exists pos'.
Qed.
Next Obligation.
  intros q log pos (H1 & H2 & H3 & H4). split_and!; try done. by apply close_refines.
Qed.

#[global] Instance env_ok_dec e q log : Decision (feed_env_ok (F:=t) (E:=Env) e q log).
Proof. simpl. unfold env_ok. apply _. Defined.

#[global] Instance feed_contiguous : FeedContiguous t Env.
Proof.
  intros n e q log pos Hh Hok.
  destruct (pop_full n e q log pos Hh Hok) as (_ & from & _ & _ & _ & H). by exists from.
Qed.
End QueueFeed.

(** ** RingFeed *)

Module RingFeed.
(** What another thread does to the shared ring between two accesses. *)
Inductive RingOp := ROpPublish (frames : list Frame) | ROpClose.

Definition apply_rop (r : Ring) (op : RingOp) : Ring :=
  match op with
  | ROpPublish frames => match publish_batch frames r with Some (r', _) => r' | None => r end
  | ROpClose => ring_close r
  end.

Record t := mkRingFeed {
  ring_ : Ring;
  cursor_ : Cursor;
  delivered_ : Z;
  missed_ : Z;
  position_ : Z
}.

Definition make (r : Ring) : t := mkRingFeed r (attach r) 0 0 0.

(** Interference during one [pop_batch]: before each [try_read] of the first
    [read_batch], while parked in [wait_for_data], before each [try_read] of the second.
    What is left when a loop ends happens before the call goes on. *)
Record Env := mkEnv {
  first_reads : list (list RingOp);
  waiting : list RingOp;
  second_reads : list (list RingOp)
}.

(** [read_batch] with what the other threads do before each iteration. *)
Fixpoint read_loop_env (fuel room : nat) (env : list (list RingOp)) (r : Ring) (c : Cursor)
  : option (list Frame * Cursor * Ring) :=
  match room with
  | O => Some ([], c, fold_left apply_rop (concat env) r)
  | S room' =>
      match fuel with
      | O => None
      | S fuel =>
          let r := fold_left apply_rop (default [] (head env)) r in
          match try_read r c with
          | (ReadStatus.kOk, c', Some f, r') =>
              match read_loop_env fuel room' (tail env) r' c' with
              | Some (fs, c2, r2) => Some (f :: fs, c2, r2)
              | None => None
              end
          | (ReadStatus.kLapped, c', _, r') => read_loop_env fuel room (tail env) r' c'
          | _ => Some ([], c, fold_left apply_rop (concat (tail env)) r)
          end
      end
  end.

(** Each iteration reads a frame, laps, or stops, and the cursor laps at most once per
    interruption and once at the start. *)
Definition read_fuel (room : nat) (env : list (list RingOp)) : nat := room + length env + 2.

Definition read_batch_env (room : nat) (env : list (list RingOp)) (r : Ring) (c : Cursor)
  : list Frame * Cursor * Ring :=
  default ([], c, r) (read_loop_env (read_fuel room env) room env r c).

Definition publish_stats (count : Z) (f : t) : t :=
  mkRingFeed (ring_ f) (cursor_ f) (u64 (delivered_ f + count)) (missed (cursor_ f))
             (next (cursor_ f)).

Definition on_ring (g : Ring → Ring) (f : t) : t :=
  mkRingFeed (g (ring_ f)) (cursor_ f) (delivered_ f) (missed_ f) (position_ f).

Definition pop (n : nat) (e : Env) (f : t) : list Frame * t :=
  let later := on_ring (fold_left apply_rop (waiting e ++ concat (second_reads e))) in
  let '(out, c, r) := read_batch_env n (first_reads e) (ring_ f) (cursor_ f) in
  let f := mkRingFeed r c (delivered_ f) (missed_ f) (position_ f) in
  match out with
  | _ :: _ => (out, later (publish_stats (Z.of_nat (length out)) f))
  | [] =>
      if ring_closed (ring_ f) then ([], later f)
      else
        let r := fold_left apply_rop (waiting e) (ring_ f) in
        let '(out, c, r) := read_batch_env n (second_reads e) r (cursor_ f) in
        let f := mkRingFeed r c (delivered_ f) (missed_ f) (position_ f) in
        (out, publish_stats (Z.of_nat (length out)) f)
  end.

Definition stats (f : t) : FeedStats :=
  let pos := position_ f in
  let w := ring_write_position (ring_ f) in
  mkFeedStats (delivered_ f) (missed_ f) (if w >? pos then w - pos else 0)
              (ring_capacity (ring_ f)).

Definition feed_close_ring (f : t) : t := on_ring ring_close f.

#[global] Instance feed : ConsumerFeed t Env := {
  feed_pop := pop;
  feed_close := feed_close_ring;
  feed_closed := λ f, ring_closed (ring_ f);
  feed_stats := stats;
  feed_topology := "ring"
}.

Definition holds (f : t) (log : list Frame) (pos : Z) : Prop :=
  ring_holds (ring_ f) log ∧ good_log log ∧ next (cursor_ f) = pos ∧
  0 <= pos <= Z.of_nat (length log).

Definition published (op : RingOp) : list Frame :=
  match op with ROpPublish frames => frames | ROpClose => [] end.

Definition all_published (ops : list RingOp) : list Frame := concat (map published ops).

(** Every frame the producers publish is decodable, and the log stays in range. *)
Definition added (e : Env) (f : t) : list Frame :=
  all_published (concat (first_reads e)) ++
  all_published (waiting e ++ concat (second_reads e)).

Definition env_ok (e : Env) (f : t) (log : list Frame) : Prop :=
  Forall bus_frame (added e f) ∧ Z.of_nat (length log + length (added e f)) < log_bound.

Lemma all_published_app a b : all_published (a ++ b) = all_published a ++ all_published b.
Proof. unfold all_published. by rewrite map_app, concat_app. Qed.

Lemma close_holds r log : ring_holds r log → ring_holds (ring_close r) log.
Proof. done. Qed.

Lemma good_log_app log more :
  good_log log → Forall bus_frame more → Z.of_nat (length log + length more) < log_bound →
  good_log (log ++ more).
Proof. intros [H1 _] H2 H3. split; [by apply Forall_app|]. by rewrite length_app. Qed.

Lemma rops_hold ops r log :
  ring_holds r log → Z.of_nat (length log + length (all_published ops)) < log_bound →
  ring_holds (fold_left apply_rop ops r) (log ++ all_published ops) ∧
  capacity_ (fold_left apply_rop ops r) = capacity_ r.
Proof.
  revert r log. induction ops as [|op ops IH]; intros r log Hh Hb; simpl.
  { unfold all_published. simpl. by rewrite app_nil_r. }
  change (all_published (op :: ops)) with (published op ++ all_published ops) in *.
  rewrite length_app in Hb. rewrite app_assoc.
  assert (ring_holds (apply_rop r op) (log ++ published op) ∧
          capacity_ (apply_rop r op) = capacity_ r) as [Hh1 <-].
  { destruct op as [frames|]; simpl in *; [|by rewrite app_nil_r].
    destruct (publish_batch_holds frames r log Hh) as (r' & -> & Hc & H); [lia|done]. }
  apply IH; [done|]. rewrite length_app; lia.
Qed.

Lemma good_wf log : good_log log → Forall frame_wf log.
Proof. intros [H _]. eapply Forall_impl; [exact H|]. intros f [Hf _]. by apply sendable_wf. Qed.

(** Iterations the loop still needs: one per frame and per interruption, one to find
    the ring empty, and one more when the cursor is behind the oldest frame. *)
Definition enough (room : nat) (env : list (list RingOp)) (r : Ring) (c : Cursor)
    (log : list Frame) : Z :=
  Z.of_nat room + Z.of_nat (length env)
  + if next c <? Z.of_nat (length log) - capacity_ r then 2 else 1.

(** The loop delivers log frames whatever is published between its reads. *)
Lemma read_loop_env_holds fuel room env r c log :
  ring_holds r log → good_log log → Forall bus_frame (all_published (concat env)) →
  Z.of_nat (length log + length (all_published (concat env))) < log_bound →
  0 <= next c <= Z.of_nat (length log) → enough room env r c log <= Z.of_nat fuel →
  let log' := log ++ all_published (concat env) in
  ∃ out c' r',
    read_loop_env fuel room env r c = Some (out, c', r') ∧
    ring_holds r' log' ∧ (length out <= room)%nat ∧ delivers log' (next c) out (next c').
Proof.
  revert room env r c log. induction fuel as [|fuel IH];
    intros room env r c log Hh Hg Hs Hb Hc Hf log'; unfold enough in Hf.
  { destruct (_ <? _); lia. }
  destruct room as [|room].
  { exists [], c, (fold_left apply_rop (concat env) r). split; [done|].
    split; [by apply rops_hold|]. split; [done|]. simpl. unfold log'. rewrite length_app. lia. }
  cbn [read_loop_env].
  assert (concat env = default [] (head env) ++ concat (tail env)) as Ee by by destruct env.
  set (ops := default [] (head env)) in *.
  assert (all_published (concat env) = all_published ops ++ all_published (concat (tail env))) as Ep
    by by rewrite Ee, all_published_app.
  rewrite Ep in Hs, Hb. unfold log'. rewrite Ep, app_assoc. clear log'.
  rewrite Forall_app in Hs. destruct Hs as [Hs1 Hs2]. rewrite length_app in Hb.
  destruct (rops_hold ops r log Hh ltac:(lia)) as [Hh1 Hcap1].
  set (r1 := fold_left apply_rop ops r) in *. set (log1 := log ++ all_published ops) in *.
  assert (good_log log1) as Hg1 by (apply good_log_app; [done|done|lia]).
  pose proof (good_wf _ Hg1) as Hwf1.
  assert (Z.of_nat (length log1) = Z.of_nat (length log) + Z.of_nat (length (all_published ops)))
    as Hl1 by (unfold log1; rewrite length_app; lia).
  pose proof Hh1 as ([Hsh _ _] & Hw & Hlb). pose proof (shape_bounds Hsh) as Hcap.
  assert (env = [] ∧ log1 = log ∧ tail env = [] ∨ length env = S (length (tail env))) as Henv.
  { destruct env; [left|right; done]. split_and!; try done. unfold log1, ops. apply app_nil_r. }
  destruct (Z.lt_ge_cases (next c) (Z.of_nat (length log1) - capacity_ r1)) as [Hlap|Hlive].
  - rewrite (try_read_lapped r1 log1) by (done || lia). set (c1 := mkCursor _ _).
    destruct (IH (S room) (tail env) r1 c1 log1) as (out & c' & r' & E1 & E2 & E3 & E4);
      try done; [lia|simpl; lia| |].
    { unfold enough. simpl next. rewrite Z.ltb_irrefl.
      destruct Henv as [(-> & El & _)|Henv]; [|case_match; lia].
      rewrite El, Hcap1 in Hlap. destruct (Z.ltb_spec (next c) (Z.of_nat (length log) - capacity_ r));
        simpl in *; lia. }
    exists out, c', r'. split_and!; try done. eapply delivers_weaken; [|exact E4]. simpl. lia.
  - destruct (Z.eq_dec (next c) (Z.of_nat (length log1))) as [Hend|Hend].
    { rewrite (try_read_empty r1 log1) by done.
      exists [], c, (fold_left apply_rop (concat (tail env)) r1).
      split_and!; try done; [apply rops_hold; [done|lia]|simpl; lia|simpl; rewrite length_app; lia]. }
    rewrite (try_read_ok r1 log1) by (done || lia).
    set (c1 := mkCursor (next c + 1) (missed c)).
    destruct (IH room (tail env) r1 c1 log1) as (out & c' & r' & E1 & E2 & E3 & E4);
      try done; [lia|simpl; lia| |].
    { unfold enough. simpl next.
      destruct (Z.ltb_spec (next c + 1) (Z.of_nat (length log1) - capacity_ r1)); [lia|].
      destruct Henv as [(-> & El & _)|Henv]; case_match; simpl in *; lia. }
    rewrite E1. eexists _, c', r'. split_and!; try done; [simpl; lia|]. simpl.
    rewrite length_app. split; [lia|]. split; [|exact E4]. rewrite log_frame_app by lia. done.
Qed.

Lemma read_batch_env_holds room env r c log :
  ring_holds r log → good_log log → Forall bus_frame (all_published (concat env)) →
  Z.of_nat (length log + length (all_published (concat env))) < log_bound →
  0 <= next c <= Z.of_nat (length log) →
  let log' := log ++ all_published (concat env) in
  ∃ out c' r', read_batch_env room env r c = (out, c', r') ∧
    ring_holds r' log' ∧ (length out <= room)%nat ∧ delivers log' (next c) out (next c').
Proof.
  intros H1 H2 H3 H4 H5 log'.
  destruct (read_loop_env_holds (read_fuel room env) room env r c log)
    as (out & c' & r' & E & H); try done.
  - unfold enough, read_fuel. case_match; lia.
  - exists out, c', r'. unfold read_batch_env. by rewrite E.
Qed.

Lemma pop_holds n e f log pos :
  holds f log pos → env_ok e f log →
  ∃ pos', holds (pop n e f).2 (log ++ added e f) pos' ∧ (length (pop n e f).1 <= n)%nat ∧
          delivers (log ++ added e f) pos (pop n e f).1 pos'.
Proof.
  intros (Hh & Hg & <- & Hp) [Hs Hb]. unfold added in *. rewrite Forall_app in Hs.
  rewrite length_app in Hb. destruct Hs as [Hs1 Hs2]. rewrite app_assoc. unfold pop.
  destruct (read_batch_env_holds n (first_reads e) (ring_ f) (cursor_ f) log)
    as (out & c' & r' & -> & H1 & H2 & H3); [done|done|done|lia|done|].
  set (log1 := log ++ all_published (concat (first_reads e))) in *.
  assert (length log1 = length log + length (all_published (concat (first_reads e))))%nat as Hl1
    by apply length_app.
  assert (good_log log1) as Hg1 by (apply good_log_app; [done|done|lia]).
  pose proof (delivers_pos _ _ _ _ H3) as Hp1.
  (* nothing read after the first batch: the rest is published before the call returns *)
  set (rest := waiting e ++ concat (second_reads e)) in *.
  assert (good_log (log1 ++ all_published rest)) as Hgr by (apply good_log_app; [done|done|lia]).
  assert (ring_holds (fold_left apply_rop rest r') (log1 ++ all_published rest)) as Hrest
    by (apply rops_hold; [done|lia]).
  assert (delivers (log1 ++ all_published rest) (next (cursor_ f)) out (next c')) as Hd
    by (by apply delivers_extend; [lia|]).
  assert (0 <= next c' <= Z.of_nat (length (log1 ++ all_published rest))) as Hpr
    by (rewrite length_app; lia).
  assert (out ≠ [] ∨ out = []) as [Hne| -> ] by (destruct out; auto).
  { destruct out as [|x out]; [done|]. exists (next c'). by split. }
  simpl. destruct (ring_closed r'); [exists (next c'); by split|].
  unfold rest in *. rewrite all_published_app in *. rewrite app_assoc in *.
  rewrite Forall_app in Hs2. rewrite length_app in Hb. destruct Hs2 as [Hs2 Hs3].
  destruct (rops_hold (waiting e) r' log1 H1) as [Hw _]; [lia|].
  set (log2 := log1 ++ all_published (waiting e)) in *.
  assert (length log2 = length log1 + length (all_published (waiting e)))%nat as Hl2
    by apply length_app.
  destruct (read_batch_env_holds n (second_reads e) (fold_left apply_rop (waiting e) r') c' log2)
    as (out & c2 & r2 & -> & K1 & K2 & K3); [done| |done|lia|lia|].
  { apply good_log_app; [done|done|lia]. }
  pose proof (delivers_pos _ _ _ _ K3) as Hp2. exists (next c2). simpl.
  split; [split_and!; try done; lia|]. split; [done|]. eapply delivers_weaken; [|exact K3]. lia.
Qed.

#[global] Program Instance feed_spec : FeedSpec t Env := {
  feed_at := holds;
  feed_env_ok := env_ok;
  feed_added := added
}.
Next Obligation. by intros f log pos (_ & Hg & _ & Hp). Qed.
Next Obligation. intros n e f log pos Hh Hok. by apply pop_holds. Qed.
Next Obligation. by intros f log pos (H1 & H2 & H3 & H4). Qed.

#[global] Instance env_ok_dec e f log : Decision (feed_env_ok (F:=t) (E:=Env) e f log).
Proof. simpl. unfold env_ok. apply _. Defined.
End RingFeed.

(** ** A consumer's whole run on a feed *)

Section Run.
Context {F E : Type} `{!ConsumerFeed F E, !FeedSpec F E}.

(** Successive calls of [pop_batch]: the span size and the interference of each. *)
Fixpoint pops (calls : list (nat * E)) (f : F) : list (list Frame) * F :=
  match calls with
  | [] => ([], f)
  | (n, e) :: calls =>
      let '(out, f) := feed_pop n e f in
      let '(outs, f) := pops calls f in
      (out :: outs, f)
  end.

Fixpoint pops_ok (calls : list (nat * E)) (f : F) (log : list Frame) : Prop :=
  match calls with
  | [] => True
  | (n, e) :: calls =>
      feed_env_ok e f log ∧ pops_ok calls (feed_pop n e f).2 (log ++ feed_added e f)
  end.

Fixpoint pops_added (calls : list (nat * E)) (f : F) : list Frame :=
  match calls with
  | [] => []
  | (n, e) :: calls => feed_added e f ++ pops_added calls (feed_pop n e f).2
  end.

#[global] Instance pops_ok_dec `{!∀ e f log, Decision (feed_env_ok e f log)} calls f log :
  Decision (pops_ok calls f log).
Proof. revert f log. induction calls as [|[n e] calls IH]; intros f log; simpl; apply _. Defined.

Lemma pops_cons n e calls f :
  pops ((n, e) :: calls) f
  = ((feed_pop n e f).1 :: (pops calls (feed_pop n e f).2).1, (pops calls (feed_pop n e f).2).2).
Proof. simpl. destruct (feed_pop n e f) as [out f1]. simpl. by destruct (pops calls f1). Qed.

Lemma pops_deliver calls f log pos :
  feed_at f log pos → pops_ok calls f log →
  ∃ pos', feed_at (pops calls f).2 (log ++ pops_added calls f) pos' ∧
          delivers (log ++ pops_added calls f) pos (concat (pops calls f).1) pos'.
Proof.
  revert f log pos. induction calls as [|[n e] calls IH]; intros f log pos Hf Hok.
  { exists pos. simpl. rewrite app_nil_r. destruct (feed_at_good _ _ _ Hf) as [_ H]. split; [done|lia]. }
  destruct Hok as [H1 H2]. destruct (feed_at_good _ _ _ Hf) as [_ Hpos].
  destruct (feed_pop_spec n e f log pos Hf H1) as (p1 & K1 & K2 & K3).
  destruct (IH _ _ _ K1 H2) as (p2 & J1 & J2). exists p2. rewrite pops_cons. simpl.
  rewrite <- app_assoc in J1, J2. split; [done|]. rewrite app_assoc in J2 |- *.
  eapply delivers_app; [lia|exact K3|exact J2].
Qed.
End Run.

(** ** Properties *)

(** Either feed delivers the published log: over any sequence of [pop_batch] calls and
    any interference by the other threads, the frames a consumer is given are frames of
    the log, each carrying its position as its sequence number, at strictly increasing
    positions, none before the position the feed was at and none twice; and every batch
    fits the caller's span. *)
Theorem feed_delivers_log {F E} `{!ConsumerFeed F E, !FeedSpec F E} (calls : list (nat * E))
    (f : F) log pos :
  feed_at f log pos → pops_ok calls f log →
  let log' := log ++ pops_added calls f in
  let out := concat (pops calls f).1 in
  (∃ pos', feed_at (pops calls f).2 log' pos' ∧ delivers log' pos out pos') ∧
  (∀ i j g h, (i < j)%nat → out !! i = Some g → out !! j = Some h → f_seq g < f_seq h) ∧
  Forall bus_frame out.
Proof.
  intros Hf Hok log' out. destruct (feed_at_good _ _ _ Hf) as [_ Hpos].
  destruct (pops_deliver calls f log pos Hf Hok) as (pos' & H1 & H2).
  fold log' out in H1, H2. split; [by exists pos'|].
  split; [|eapply delivers_bus; [apply (feed_at_good _ _ _ H1)| |exact H2]; lia].
  clear Hf H1. destruct Hpos as [Hpos _]. revert pos Hpos H2. induction out as [|x out IH];
    intros pos Hpos H i j g h Hij Hi Hj; [done|]. simpl in H. destruct H as (Hx & _ & H).
  destruct j as [|j]; [lia|]. simpl in Hj. destruct i as [|i]; simpl in Hi.
  - simplify_eq. apply delivers_forall in H as Hall; [|lia].
    eapply Forall_lookup_1 in Hall; [|exact Hj]. destruct Hall. lia.
  - eapply (IH (f_seq x + 1)); [lia|exact H| |exact Hi|exact Hj]. lia.
Qed.

(** ** Witnesses *)

(** Two cells; a publish between two reads of one batch laps the reader inside it. *)
Definition lapping_calls : list (nat * RingFeed.Env) :=
  [(8%nat, RingFeed.mkEnv [[RingFeed.ROpPublish (map demo_frame [10; 11])];
                           [RingFeed.ROpPublish (map demo_frame [12; 13; 14])]] [] [])].

Lemma feed_delivers_log_witness :
  map f_seq (concat (pops lapping_calls (RingFeed.make demo_ring)).1) = [0; 3; 4] ∧
  Forall bus_frame (concat (pops lapping_calls (RingFeed.make demo_ring)).1).
Proof.
  split; [by vm_compute|].
  apply (feed_delivers_log lapping_calls (RingFeed.make demo_ring) [] 0).
  - split; [apply demo_ring_holds|]. split; [by split; [constructor|]|done].
  - split; [|done]. split; [apply (bool_decide_unpack _); by vm_compute|by vm_compute].
Defined.
