(* ===== verification/Egress.v ===== *)
(** * Egress: one consumer's sender thread (src/src/egress.hpp, src/src/egress.cpp)

    The state of an [Egress], each member function and one iteration of [run]. What
    the operating system answers (poll, accept, send, recv, the clock) is an argument
    of each function; what goes to the consumer is returned as [NetEvent]s. *)

From S2P Require Import Prelude Frame Wire Samples Feed GapTracker.

Definition kDefaultBatch : Z := 256.
Definition kMaxBatch : Z := 4096.

Record Tuning := mkTuning { max_frames : Z; linger_us : Z; echo_ms : Z }.

(** The relaxed atomic counters. *)
Inductive Counter :=
  | frames_sent_ | batches_sent_ | bytes_sent_ | would_block_ | partial_writes_
  | connects_ | disconnects_ | echoes_sent_ | echoes_returned_ | echoes_lost_
  | lingered_ | gaps_sent_ | frames_lost_.

#[export] Instance Counter_eq_dec : EqDecision Counter.
Proof. solve_decision. Defined.

Record Egress := mkEgress {
  tuning_ : Tuning;
  client_fd_ : Z;
  pending_ : list Z;
  pending_offset_ : Z;
  outgoing_ : list Frame;
  next_seq_ : Z;
  have_seq_ : bool;
  reconnected_ : bool;
  echo_nonce_ : Z;
  echo_sent_ns_ : Z;
  echo_outstanding_ : bool;
  next_echo_ns_ : Z;
  reply_buf_ : list Z;
  rtt_ : Samples;
  connected_ : bool;
  counters_ : Counter → Z
}.

(** What the consumer's side of the connection sees. *)
Inductive NetEvent := NConnect | NBytes (bytes : list Z) | NClose.

(** ** Field updates *)

Definition set_client (fd : Z) (conn : bool) (s : Egress) : Egress :=
  mkEgress (tuning_ s) fd (pending_ s) (pending_offset_ s) (outgoing_ s) (next_seq_ s)
    (have_seq_ s) (reconnected_ s) (echo_nonce_ s) (echo_sent_ns_ s) (echo_outstanding_ s)
    (next_echo_ns_ s) (reply_buf_ s) (rtt_ s) conn (counters_ s).

Definition set_pending (p : list Z) (off : Z) (s : Egress) : Egress :=
  mkEgress (tuning_ s) (client_fd_ s) p off (outgoing_ s) (next_seq_ s) (have_seq_ s)
    (reconnected_ s) (echo_nonce_ s) (echo_sent_ns_ s) (echo_outstanding_ s) (next_echo_ns_ s)
    (reply_buf_ s) (rtt_ s) (connected_ s) (counters_ s).

Definition set_outgoing (l : list Frame) (s : Egress) : Egress :=
  mkEgress (tuning_ s) (client_fd_ s) (pending_ s) (pending_offset_ s) l (next_seq_ s)
    (have_seq_ s) (reconnected_ s) (echo_nonce_ s) (echo_sent_ns_ s) (echo_outstanding_ s)
    (next_echo_ns_ s) (reply_buf_ s) (rtt_ s) (connected_ s) (counters_ s).

Definition set_position (next : Z) (have rec : bool) (s : Egress) : Egress :=
  mkEgress (tuning_ s) (client_fd_ s) (pending_ s) (pending_offset_ s) (outgoing_ s) next have
    rec (echo_nonce_ s) (echo_sent_ns_ s) (echo_outstanding_ s) (next_echo_ns_ s) (reply_buf_ s)
    (rtt_ s) (connected_ s) (counters_ s).

Definition set_echo (nonce sent : Z) (out : bool) (due : Z) (s : Egress) : Egress :=
  mkEgress (tuning_ s) (client_fd_ s) (pending_ s) (pending_offset_ s) (outgoing_ s)
    (next_seq_ s) (have_seq_ s) (reconnected_ s) nonce sent out due (reply_buf_ s) (rtt_ s)
    (connected_ s) (counters_ s).

Definition set_reply (b : list Z) (s : Egress) : Egress :=
  mkEgress (tuning_ s) (client_fd_ s) (pending_ s) (pending_offset_ s) (outgoing_ s)
    (next_seq_ s) (have_seq_ s) (reconnected_ s) (echo_nonce_ s) (echo_sent_ns_ s)
    (echo_outstanding_ s) (next_echo_ns_ s) b (rtt_ s) (connected_ s) (counters_ s).

Definition set_rtt (r : Samples) (s : Egress) : Egress :=
  mkEgress (tuning_ s) (client_fd_ s) (pending_ s) (pending_offset_ s) (outgoing_ s)
    (next_seq_ s) (have_seq_ s) (reconnected_ s) (echo_nonce_ s) (echo_sent_ns_ s)
    (echo_outstanding_ s) (next_echo_ns_ s) (reply_buf_ s) r (connected_ s) (counters_ s).

(** [counter.fetch_add(n)]. *)
Definition bump (c : Counter) (n : Z) (s : Egress) : Egress :=
  mkEgress (tuning_ s) (client_fd_ s) (pending_ s) (pending_offset_ s) (outgoing_ s)
    (next_seq_ s) (have_seq_ s) (reconnected_ s) (echo_nonce_ s) (echo_sent_ns_ s)
    (echo_outstanding_ s) (next_echo_ns_ s) (reply_buf_ s) (rtt_ s) (connected_ s)
    (λ c', if decide (c' = c) then u64 (counters_ s c + n) else counters_ s c').

(** ** Construction *)

(** The constructor: no client, nothing pending, every counter zero. *)
Definition make_egress (t : Tuning) : Egress :=
  mkEgress t (-1) [] 0 [] 0 false false 0 0 false 0 [] (make_samples (Z.shiftl 1 14)) false
    (λ _, 0).

(** [create], with what [tcp::listen_on] and [eventfd] return: a descriptor, or a
    negative number and the error text. *)
Definition create (t : Tuning) (listen eventfd : Z * string) : string + Egress :=
  if (max_frames t =? 0) || (max_frames t >? kMaxBatch)
  then inl "batch size must be between 1 and 4096"%string
  else if listen.1 <? 0 then inl listen.2
  else if eventfd.1 <? 0 then inl ("eventfd: " +:+ eventfd.2)%string
  else inr (make_egress t).

(** ** Echo probes *)

Definition maybe_send_echo (now : Z) (s : Egress) : Egress :=
  if (echo_ms (tuning_ s) =? 0) || (client_fd_ s <? 0) then s
  else if now <? next_echo_ns_ s then s
  else
    let s := if echo_outstanding_ s then bump echoes_lost_ 1 s else s in
    let nonce := u64 (echo_nonce_ s + 1) in
    let s := set_echo nonce now true (u64 (now + u64 (echo_ms (tuning_ s) * 1000000))) s in
    bump echoes_sent_ 1 (set_outgoing (outgoing_ s ++ [make_echo nonce now]) s).

(** The body of the record loop of [drain_replies]; [now] is the clock when a reply
    is accepted. *)
Definition take_reply (now : Z) (s : Egress) (rec : list Z) : Egress :=
  match decode_frame rec frame_zero with
  | (kOk, f) =>
      if negb (is_echo f) || negb (echo_outstanding_ s) || negb (echo_nonce f =? echo_nonce_ s)
      then s
      else
        let rtt := s64 (s64 now - s64 (echo_sent_ns_ s)) in
        let s := set_rtt (add (rtt_ s) rtt) s in
        bump echoes_returned_ 1
          (set_echo (echo_nonce_ s) (echo_sent_ns_ s) false (next_echo_ns_ s) s)
  | _ => s
  end.

(** The records of the batch at offset [off + 16] of the buffer. *)
Definition reply_records (buf : list Z) (off : nat) (count : Z) : list (list Z) :=
  map (λ i, slice (off + kHeaderSize + i * kRecordSize) kRecordSize buf) (seq 0 (Z.to_nat count)).

(** [while (size - off >= header)]: returns the offset consumed, or [None] when the
    bytes are out of sync and the buffer is cleared. Each iteration consumes at least
    a header, so the buffer's length is enough fuel. *)
Fixpoint reply_loop (fuel : nat) (now : Z) (off : nat) (s : Egress) : Egress * option nat :=
  match fuel with
  | O => (s, Some off)
  | S fuel =>
      let buf := reply_buf_ s in
      if Z.of_nat (length buf) - Z.of_nat off <? Z.of_nat kHeaderSize then (s, Some off)
      else
        match decode_header (slice off kHeaderSize buf) header_zero with
        | (kOk, header) =>
            let need := Z.of_nat kHeaderSize + h_payload_len header in
            if Z.of_nat (length buf) - Z.of_nat off <? need then (s, Some off)
            else
              let s := fold_left (take_reply now) (reply_records buf off (h_count header)) s in
              reply_loop fuel now (off + Z.to_nat need) s
        | _ => (set_reply [] s, None)
        end
  end.

(** The [recv] loop: the chunks the socket yields before it would block or is closed. *)
Definition take_chunk (s : Egress) (chunk : list Z) : Egress :=
  let b := reply_buf_ s ++ chunk in
  set_reply (if Z.of_nat (length b) >? 64 * 1024 then [] else b) s.

Definition drain_replies (chunks : list (list Z)) (now : Z) (s : Egress) : Egress :=
  if client_fd_ s <? 0 then s
  else
    let s := fold_left take_chunk chunks s in
    match reply_loop (S (length (reply_buf_ s))) now 0 s with
    | (s, Some off) => if (0 <? off)%nat then set_reply (drop off (reply_buf_ s)) s else s
    | (s, None) => s
    end.

(** ** The connection *)

Definition drop_client (s : Egress) : Egress * list NetEvent :=
  if client_fd_ s <? 0 then (s, [])
  else
    let s := set_client (-1) false s in
    let s := set_reply [] (set_pending [] 0 s) in
    let s := set_echo (echo_nonce_ s) (echo_sent_ns_ s) false (next_echo_ns_ s) s in
    let s := set_position (next_seq_ s) (have_seq_ s) true s in
    (bump disconnects_ 1 s, [NClose]).

(** One [poll] of [wait_for_client] and what [accept_nonblocking] then returns. *)
Record WaitAnswer := mkWait {
  w_rc : Z;
  w_eintr : bool;
  w_stop : bool;
  w_listen : bool;
  w_fd : Z
}.

(** [None]: still waiting when the answers end. *)
Fixpoint wait_for_client (answers : list WaitAnswer) (s : Egress)
  : option (bool * Egress * list NetEvent) :=
  if negb (client_fd_ s <? 0) then Some (true, s, [])
  else
    match answers with
    | [] => None
    | a :: answers =>
        if w_rc a <? 0 then
          if w_eintr a then wait_for_client answers s else Some (false, s, [])
        else if (w_rc a >? 0) && w_stop a then Some (false, s, [])
        else if (w_rc a >? 0) && w_listen a && (0 <=? w_fd a) then
          Some (true, bump connects_ 1 (set_client (w_fd a) true s), [NConnect])
        else wait_for_client answers s
    end.

(** [client_gone], given what [poll] returns and whether a hang-up bit is set. *)
Definition client_gone (rc : Z) (hup : bool) (s : Egress) : bool :=
  if client_fd_ s <? 0 then true else if rc <=? 0 then false else hup.

(** ** Loss markers and encoding *)

Definition note_gap (frames : list Frame) (now : Z) (s : Egress) : Egress :=
  match frames with
  | [] => s
  | front :: _ =>
      let s := set_outgoing [] s in
      let s :=
        if have_seq_ s && (f_seq front >? next_seq_ s) then
          let missing := u64 (f_seq front - next_seq_ s) in
          let reason := if reconnected_ s then kConsumerAbsent else kConsumerOverrun in
          let s := set_outgoing (outgoing_ s ++ [make_gap (next_seq_ s) missing reason now]) s in
          let s := bump gaps_sent_ 1 s in
          if is_fault reason then bump frames_lost_ missing s else s
        else s in
      let s := set_outgoing (outgoing_ s ++ frames) s in
      set_position (u64 (f_seq (List.last frames front) + 1)) true false s
  end.

(** [std::vector::resize]. *)
Definition resize (n : nat) (l : list Z) : list Z := take n l ++ replicate (n - length l) 0.

(** The encoding of one record in place, at its offset. *)
Definition encode_record (buf : list Z) (r : nat * Frame) : list Z :=
  let p := (kHeaderSize + r.1 * kRecordSize)%nat in
  take p buf ++ encode_frame r.2 (slice p kRecordSize buf) ++ drop (p + kRecordSize) buf.

(** [encode_batch]: [pending_] becomes the header and one record per frame. *)
Definition encode_batch (frames : list Frame) (s : Egress) : Egress :=
  let buf := resize (kHeaderSize + length frames * kRecordSize) (pending_ s) in
  let buf := encode_header (u32 (Z.of_nat (length frames))) (take kHeaderSize buf)
             ++ drop kHeaderSize buf in
  set_pending (fold_left encode_record (combine (seq 0 (length frames)) frames) buf) 0 s.

(** ** Writing *)

(** One [send] and, when it would block, the [poll] that follows it. [sa_n] is the room
    in the socket when positive: [send] returns at most what it is offered. *)
Inductive SendErrno := EAgain | EIntr | EOther.

Record SendAnswer := mkSend {
  sa_n : Z;
  sa_errno : SendErrno;
  sa_poll_rc : Z;
  sa_poll_eintr : bool;
  sa_stop : bool
}.

(** [None]: still parked when the answers end. *)
Fixpoint flush_pending (answers : list SendAnswer) (s : Egress)
  : option (bool * Egress * list Z) :=
  let size := Z.of_nat (length (pending_ s)) in
  if negb (pending_offset_ s <? size) then Some (true, set_pending [] 0 s, [])
  else
    match answers with
    | [] => None
    | a :: answers =>
        let remaining := size - pending_offset_ s in
        let n := Z.min (sa_n a) remaining in
        if n >? 0 then
          let sent := slice (Z.to_nat (pending_offset_ s)) (Z.to_nat n) (pending_ s) in
          let s := set_pending (pending_ s) (u64 (pending_offset_ s + n)) s in
          let s := bump bytes_sent_ n s in
          let s := if n <? remaining then bump partial_writes_ 1 s else s in
          match flush_pending answers s with
          | Some (ok, s, more) => Some (ok, s, sent ++ more)
          | None => None
          end
        else if n <? 0 then
          match sa_errno a with
          | EAgain =>
              let s := bump would_block_ 1 s in
              if (sa_poll_rc a <? 0) && negb (sa_poll_eintr a) then Some (false, s, [])
              else if (sa_poll_rc a >? 0) && sa_stop a then Some (false, s, [])
              else flush_pending answers s
          | EIntr => flush_pending answers s
          | EOther => Some (false, s, [])
          end
        else Some (false, s, [])
    end.

(** ** Coalescing and the thread's loop *)

Section Loop.
Context {F E : Type} `{!ConsumerFeed F E}.

(** The linger loop: each entry is a clock reading before the deadline and what the
    other threads do during the [pop_batch] that follows; it ends when the clock
    passes the deadline, nothing more arrives or the batch is full. *)
Fixpoint linger (deadline : Z) (ticks : list (Z * E)) (maxf : Z) (batch : list Frame) (f : F)
  : list Frame * bool * F :=
  if Z.of_nat (length batch) >=? maxf then (batch, false, f)
  else
    match ticks with
    | [] => (batch, false, f)
    | (now, e) :: ticks =>
        if now >=? deadline then (batch, false, f)
        else
          match feed_pop (Z.to_nat (maxf - Z.of_nat (length batch))) e f with
          | ([], f) => (batch, false, f)
          | (more, f) =>
              let '(b, _, f) := linger deadline ticks maxf (batch ++ more) f in (b, true, f)
          end
    end.

Definition coalesce (now : Z) (ticks : list (Z * E)) (batch : list Frame) (s : Egress) (f : F)
  : list Frame * Egress * F :=
  if (linger_us (tuning_ s) =? 0) || (Z.of_nat (length batch) >=? max_frames (tuning_ s))
  then (batch, s, f)
  else
    let deadline := u64 (now + u64 (linger_us (tuning_ s) * 1000)) in
    let '(batch, waited, f) := linger deadline ticks (max_frames (tuning_ s)) batch f in
    (batch, if waited then bump lingered_ 1 s else s, f).

(** What the outside world answers during one iteration of [run]. *)
Record IterEnv := mkIter {
  i_wait : list WaitAnswer;
  i_flush_left : list SendAnswer;
  i_gone_rc : Z;
  i_gone_hup : bool;
  i_chunks : list (list Z);
  i_reply_now : Z;
  i_pop : E;
  i_linger_now : Z;
  i_linger : list (Z * E);
  i_gap_now : Z;
  i_echo_now : Z;
  i_flush : list SendAnswer
}.

Inductive RunStatus := Continue | Return.

(** Flush; on failure drop the client. The events are what the client saw. *)
Definition flush_or_drop (answers : list SendAnswer) (s : Egress)
  : option (bool * Egress * list NetEvent) :=
  match flush_pending answers s with
  | None => None
  | Some (true, s, bytes) => Some (true, s, [NBytes bytes])
  | Some (false, s, bytes) =>
      let '(s, ev) := drop_client s in Some (false, s, NBytes bytes :: ev)
  end.

(** The part of an iteration that has a client: what to do with a popped batch. *)
Definition send_batch (env : IterEnv) (batch : list Frame) (s : Egress)
  : option (Egress * list NetEvent) :=
  let s := note_gap batch (i_gap_now env) s in
  let s := maybe_send_echo (i_echo_now env) s in
  let s := encode_batch (outgoing_ s) s in
  match flush_or_drop (i_flush env) s with
  | None => None
  | Some (false, s, ev) => Some (s, ev)
  | Some (true, s, ev) =>
      Some (bump batches_sent_ 1 (bump frames_sent_ (Z.of_nat (length batch)) s), ev)
  end.

Definition serve (env : IterEnv) (s : Egress) (f : F)
  : option (RunStatus * Egress * F * list NetEvent) :=
  if client_gone (i_gone_rc env) (i_gone_hup env) s then
    let '(s, ev) := drop_client s in Some (Continue, s, f, ev)
  else
    let s := drain_replies (i_chunks env) (i_reply_now env) s in
    let '(batch, f) := feed_pop (Z.to_nat (max_frames (tuning_ s))) (i_pop env) f in
    let '(batch, s, f) :=
      match batch with
      | [] => (batch, s, f)
      | _ => coalesce (i_linger_now env) (i_linger env) batch s f
      end in
    match batch with
    | [] => Some (if feed_closed f then Return else Continue, s, f, [])
    | _ =>
        match send_batch env batch s with
        | None => None
        | Some (s, ev) => Some (Continue, s, f, ev)
        end
    end.

(** One iteration of [run]; [None] when the thread is still blocked in a system call
    at the end of the given answers. *)
Definition run_iter (env : IterEnv) (s : Egress) (f : F)
  : option (RunStatus * Egress * F * list NetEvent) :=
  match wait_for_client (i_wait env) s with
  | None => None
  | Some (false, s, ev) => Some (Return, s, f, ev)
  | Some (true, s, ev) =>
      match pending_ s with
      | [] =>
          match serve env s f with
          | None => None
          | Some (st, s, f, ev') => Some (st, s, f, ev ++ ev')
          end
      | _ =>
          match flush_or_drop (i_flush_left env) s with
          | None => None
          | Some (false, s, ev1) => Some (Continue, s, f, ev ++ ev1)
          | Some (true, s, ev1) =>
              match serve env s f with
              | None => None
              | Some (st, s, f, ev2) => Some (st, s, f, ev ++ ev1 ++ ev2)
              end
          end
      end
  end.

(** The whole thread: iterations until it returns. *)
Fixpoint run_loop (envs : list IterEnv) (s : Egress) (f : F)
  : option (RunStatus * Egress * F * list NetEvent) :=
  match envs with
  | [] => Some (Continue, s, f, [])
  | env :: envs =>
      match run_iter env s f with
      | None => None
      | Some (Return, s, f, ev) => Some (Return, s, f, ev)
      | Some (Continue, s, f, ev) =>
          match run_loop envs s f with
          | None => None
          | Some (st, s, f, ev') => Some (st, s, f, ev ++ ev')
          end
      end
  end.
End Loop.
Arguments IterEnv E : clear implicits.

(** ** stats *)

Record EgressStats := mkEgressStats {
  es_counter : Counter → Z;
  es_rtt_p50_ns : Z;
  es_rtt_p99_ns : Z;
  es_rtt_max_ns : Z;
  es_connected : bool
}.

Definition egress_stats (s : Egress) : EgressStats :=
  let p := compute (rtt_ s) in
  mkEgressStats (counters_ s) (pc_p50 p) (pc_p99 p) (pc_max p) (connected_ s).

(** ** Lemmas: counters *)

Lemma bump_eq c n s : counters_ (bump c n s) c = u64 (counters_ s c + n).
Proof. simpl. by rewrite decide_True. Qed.

Lemma bump_ne c c' n s : c' ≠ c → counters_ (bump c n s) c' = counters_ s c'.
Proof. intros. simpl. by rewrite decide_False. Qed.

(** Two states that differ at most in what is pending and in the given counters. *)
Record same_but (cs : list Counter) (s s' : Egress) : Prop := {
  sb_tuning : tuning_ s' = tuning_ s;
  sb_client : client_fd_ s' = client_fd_ s;
  sb_outgoing : outgoing_ s' = outgoing_ s;
  sb_next : next_seq_ s' = next_seq_ s;
  sb_have : have_seq_ s' = have_seq_ s;
  sb_rec : reconnected_ s' = reconnected_ s;
  sb_nonce : echo_nonce_ s' = echo_nonce_ s;
  sb_out : echo_outstanding_ s' = echo_outstanding_ s;
  sb_reply : reply_buf_ s' = reply_buf_ s;
  sb_rtt : rtt_ s' = rtt_ s;
  sb_counters : ∀ c, c ∉ cs → counters_ s' c = counters_ s c
}.

Lemma same_but_refl cs s : same_but cs s s.
Proof. by constructor. Qed.

Lemma same_but_trans cs s1 s2 s3 : same_but cs s1 s2 → same_but cs s2 s3 → same_but cs s1 s3.
Proof.
  intros [] []. constructor; try congruence.
  intros c Hc. rewrite <- sb_counters0 by done. by apply sb_counters1.
Qed.

Lemma same_but_bump cs c n s : c ∈ cs → same_but cs s (bump c n s).
Proof. intros Hc. constructor; try done. intros c' Hc'. apply bump_ne. intros ->. done. Qed.

Lemma same_but_pending cs p off s : same_but cs s (set_pending p off s).
Proof. by constructor. Qed.

#[export] Hint Resolve same_but_refl same_but_bump same_but_pending : etg.

(** Membership in a concrete list of counters. *)
Ltac in_counters := apply (bool_decide_unpack _); by vm_compute.

(** ** Lemmas: flush_pending *)

Definition flush_counters : list Counter := [bytes_sent_; partial_writes_; would_block_].

Definition unsent (s : Egress) : list Z := drop (Z.to_nat (pending_offset_ s)) (pending_ s).

(** The state a positive [send] leaves. *)
Definition after_send (n : Z) (s : Egress) : Egress :=
  let remaining := Z.of_nat (length (pending_ s)) - pending_offset_ s in
  let s := bump bytes_sent_ n (set_pending (pending_ s) (u64 (pending_offset_ s + n)) s) in
  if n <? remaining then bump partial_writes_ 1 s else s.

Lemma after_send_spec n s :
  let s' := after_send n s in
  pending_ s' = pending_ s ∧ pending_offset_ s' = u64 (pending_offset_ s + n) ∧
  counters_ s' bytes_sent_ = u64 (counters_ s bytes_sent_ + n) ∧ same_but flush_counters s s'.
Proof.
  unfold after_send. case_match; (split; [done|]; split; [done|]; split).
  - rewrite bump_ne by done. by rewrite bump_eq.
  - eapply same_but_trans; [|apply same_but_bump; in_counters].
    eapply same_but_trans; [apply same_but_pending|apply same_but_bump; in_counters].
  - by rewrite bump_eq.
  - eapply same_but_trans; [apply same_but_pending|apply same_but_bump; in_counters].
Qed.

(** What is a legal state to flush. *)
Definition pending_wf (s : Egress) : Prop :=
  0 <= pending_offset_ s <= Z.of_nat (length (pending_ s)) ∧ Z.of_nat (length (pending_ s)) < 2 ^ 62.

Record flushed (s : Egress) (ok : bool) (s' : Egress) (bytes : list Z) : Prop := {
  fl_bytes : ∃ rest, unsent s = bytes ++ rest ∧ if ok then rest = [] else rest ≠ [];
  fl_done : ok = true → pending_ s' = [] ∧ pending_offset_ s' = 0;
  fl_count : counters_ s' bytes_sent_ = u64 (counters_ s bytes_sent_ + Z.of_nat (length bytes));
  fl_same : same_but flush_counters s s'
}.

Lemma flushed_fail s cs :
  (∀ c, c ∈ cs → c = would_block_) →
  pending_wf s → pending_offset_ s < Z.of_nat (length (pending_ s)) →
  fits 64 (counters_ s bytes_sent_) →
  flushed s false (foldr (λ c s, bump c 1 s) s cs) [].
Proof.
  intros Hcs Hp Hlt Hf. constructor; [|done| |].
  - exists (unsent s). split; [done|]. intros E. apply (f_equal length) in E. unfold unsent in E.
    rewrite length_drop in E. unfold pending_wf in Hp. simpl in E. lia.
  - simpl. rewrite Z.add_0_r, u64_small by done. induction cs as [|c cs IH]; [done|]. simpl foldr.
    rewrite bump_ne by (rewrite (Hcs c) by set_solver; done). apply IH. set_solver.
  - induction cs as [|c cs IH]; [apply same_but_refl|]. simpl foldr.
    eapply same_but_trans; [apply IH; set_solver|].
    apply same_but_bump. rewrite (Hcs c) by set_solver. in_counters.
Qed.

Lemma flush_step_sent s n ok s' more :
  pending_wf s → 0 < n <= Z.of_nat (length (pending_ s)) - pending_offset_ s →
  flushed (after_send n s) ok s' more →
  flushed s ok s' (slice (Z.to_nat (pending_offset_ s)) (Z.to_nat n) (pending_ s) ++ more).
Proof.
  intros [Hp Hlen] Hn [(rest & H1 & H2) H3 H4 H5].
  destruct (after_send_spec n s) as (K1 & K2 & K3 & K4).
  rewrite u64_small in K2 by (unfold fits; pow_consts; lia).
  assert (unsent s = slice (Z.to_nat (pending_offset_ s)) (Z.to_nat n) (pending_ s)
                     ++ unsent (after_send n s)) as E.
  { unfold unsent, slice. rewrite K1, K2, Z2Nat.inj_add, <- drop_drop by lia. by rewrite take_drop. }
  constructor.
  - exists rest. by rewrite E, H1, app_assoc.
  - done.
  - rewrite H4, K3, length_app, length_slice. rewrite u64_add_l. f_equal. lia.
  - by eapply same_but_trans.
Qed.

Lemma flush_spec answers s ok s' bytes :
  pending_wf s → fits 64 (counters_ s bytes_sent_) →
  flush_pending answers s = Some (ok, s', bytes) → flushed s ok s' bytes.
Proof.
  revert s ok s' bytes. induction answers as [|a answers IH]; intros s ok s' bytes Hp Hf.
  all: cbn [flush_pending]; destruct (Z.ltb_spec (pending_offset_ s) (Z.of_nat (length (pending_ s))))
    as [Hlt|Hge]; simpl negb; cbv iota.
  all: try (intros [= <- <- <-]; constructor; [|done| |apply same_but_pending]).
  all: try (exists []; split; [unfold unsent; destruct Hp; rewrite drop_ge by lia; done|done]).
  all: try (simpl; by rewrite Z.add_0_r, u64_small).
  { done. }
  set (n := Z.min (sa_n a) _). rewrite Z.gtb_ltb. destruct (Z.ltb_spec 0 n) as [Hpos|Hneg].
  - fold (after_send n s). destruct (after_send_spec n s) as (K1 & K2 & K3 & K4).
    destruct (flush_pending answers _) as [[[ok1 s1] more]|] eqn:E; [|done].
    intros [= <- <- <-]. apply flush_step_sent; [done|lia|]. apply IH in E; [done| |].
    + destruct Hp. rewrite u64_small in K2 by (unfold fits; pow_consts; lia).
      split; rewrite K1, ?K2; lia.
    + rewrite K3. apply u64_fits.
  - destruct (Z.ltb_spec n 0) as [Hneg'|Hz];
      [|intros [= <- <- <-]; apply (flushed_fail s []); [set_solver|done..]].
    destruct (sa_errno a).
    + assert (flushed s false (bump would_block_ 1 s) []) as Hfail.
      { apply (flushed_fail s [would_block_]); [by intros c ->%list_elem_of_singleton|done..]. }
      destruct ((sa_poll_rc a <? 0) && _); [by intros [= <- <- <-]|].
      destruct ((sa_poll_rc a >? 0) && _); [by intros [= <- <- <-]|].
      intros E. apply IH in E as [J1 J2 J3 J4]; [|done|by rewrite bump_ne].
      constructor; try done. eapply same_but_trans; [|exact J4]. apply same_but_bump. in_counters.
    + by apply IH.
    + intros [= <- <- <-]. apply (flushed_fail s []); [set_solver|done..].
Qed.

(** Enough writable moments: nothing fails and the socket takes bytes at least as
    often as there are bytes left. *)
Definition retryable (a : SendAnswer) : Prop :=
  0 < sa_n a ∨
  (sa_n a < 0 ∧ match sa_errno a with
                | EAgain => (0 <= sa_poll_rc a ∨ sa_poll_eintr a = true) ∧
                            (sa_poll_rc a <= 0 ∨ sa_stop a = false)
                | EIntr => True
                | EOther => False
                end).

#[export] Instance retryable_dec a : Decision (retryable a).
Proof. unfold retryable. destruct (sa_errno a); apply _. Defined.

Lemma flush_finishes answers s :
  pending_wf s → Forall retryable answers →
  Z.of_nat (length (pending_ s)) - pending_offset_ s
    <= Z.of_nat (length (filter (λ a, 0 < sa_n a) answers)) →
  ∃ s' bytes, flush_pending answers s = Some (true, s', bytes).
Proof.
  intros Hp Hr. revert s Hp. induction Hr as [|a answers Ha _ IH]; intros s Hp Hn.
  all: cbn [flush_pending]; destruct (Z.ltb_spec (pending_offset_ s) (Z.of_nat (length (pending_ s))))
    as [Hlt|Hge]; simpl negb; cbv iota; [|by eauto].
  { simpl in Hn. lia. }
  rewrite filter_cons in Hn. rewrite Z.gtb_ltb. destruct Ha as [Hpos|[Hneg Ha]].
  - set (n := Z.min (sa_n a) _). destruct (Z.ltb_spec 0 n); [|lia]. rewrite decide_True in Hn by done.
    fold (after_send n s). destruct (after_send_spec n s) as (K1 & K2 & _ & _).
    destruct Hp as [Hp1 Hp2]. rewrite u64_small in K2 by (unfold fits; pow_consts; lia).
    destruct (IH (after_send n s)) as (s' & bytes & E).
    + split; rewrite K1, ?K2; lia.
    + rewrite K1, K2. simpl in Hn. lia.
    + rewrite E. eauto.
  - rewrite Z.min_l by lia. destruct (Z.ltb_spec 0 (sa_n a)); [lia|].
    rewrite decide_False in Hn by lia. destruct (Z.ltb_spec (sa_n a) 0); [|lia].
    destruct (sa_errno a); [|by apply IH|done]. destruct Ha as [H1 H2].
    destruct ((sa_poll_rc a <? 0) && negb (sa_poll_eintr a)) eqn:E1; [zbool; destruct H1; [lia|congruence]|].
    destruct ((sa_poll_rc a >? 0) && sa_stop a) eqn:E2; [zbool; destruct H2; [lia|congruence]|].
    by apply IH.
Qed.

(** ** Lemmas: encoding *)

(** The bytes of a batch as docs/wire-format.md lays them out. *)
Definition batch_bytes (frames : list Frame) : list Z :=
  header_layout (Z.of_nat (length frames)) ++ concat (map record_layout frames).

Lemma length_resize n l : length (resize n l) = n.
Proof. unfold resize. rewrite length_app, length_take, length_replicate. lia. Qed.

Lemma length_records frames :
  Forall frame_wf frames → length (concat (map record_layout frames)) = (length frames * kRecordSize)%nat.
Proof.
  induction 1 as [|f l Hf _ IH]; [done|]. cbn [map concat length].
  rewrite length_app, record_layout_length by done. unfold kRecordSize in *. lia.
Qed.

(** Encoding the records one after the other fills the space reserved for them. *)
Lemma encode_records k done frames tail :
  Forall frame_wf frames → length done = (kHeaderSize + k * kRecordSize)%nat →
  length tail = (length frames * kRecordSize)%nat →
  fold_left encode_record (combine (seq k (length frames)) frames) (done ++ tail)
  = done ++ concat (map record_layout frames).
Proof.
  intros Hwf. revert k done tail. induction Hwf as [|f l Hf _ IH]; intros k dn tl Hd Ht.
  { by destruct tl. }
  cbn [length seq combine fold_left map concat].
  unfold encode_record at 2. cbn [fst snd]. rewrite <- Hd, take_app_length.
  cbn [length] in Ht. rewrite Nat.mul_succ_l in Ht.
  assert (kRecordSize <= length tl)%nat as Hle by lia.
  assert (slice (length dn) kRecordSize (dn ++ tl) = take kRecordSize tl) as ->
    by by apply slice_app_r.
  rewrite encode_frame_eq by (done || rewrite length_take; lia).
  rewrite <- drop_drop, drop_app_length, app_assoc.
  rewrite IH; [by rewrite <- app_assoc| |].
  - rewrite length_app, record_layout_length, Hd by done. unfold kRecordSize. lia.
  - rewrite length_drop. unfold kRecordSize in *. lia.
Qed.

Lemma encode_batch_bytes frames s :
  Forall frame_wf frames → Z.of_nat (length frames) <= kMaxCount →
  pending_ (encode_batch frames s) = batch_bytes frames ∧ pending_offset_ (encode_batch frames s) = 0.
Proof.
  intros Hwf Hn. unfold encode_batch. simpl. split; [|done].
  set (buf := resize _ _). assert (length buf = (kHeaderSize + length frames * kRecordSize)%nat) as Hb
    by apply length_resize.
  unfold kMaxCount in *. rewrite u32_small by (unfold fits; pow_consts; lia).
  rewrite encode_header_eq by (unfold kMaxCount; lia || rewrite length_take, Hb; lia).
  apply encode_records; [done|by rewrite header_layout_length|].
  rewrite length_drop, Hb. lia.
Qed.

Lemma length_batch_bytes frames :
  Forall frame_wf frames →
  length (batch_bytes frames) = (kHeaderSize + length frames * kRecordSize)%nat.
Proof.
  intros Hwf. unfold batch_bytes. by rewrite length_app, header_layout_length, length_records.
Qed.

(** ** Properties *)

(** Partial writes lose nothing. For any sequence of partial, blocked and interrupted
    writes, what the socket accepted is a prefix of what was unsent; [flush_pending]
    returns true exactly when it accepted all of it, leaving nothing pending, and
    [bytes_sent] grows by exactly the number of bytes accepted. Nothing else changes but
    the back-pressure counters. *)
Theorem flush_delivers answers s ok s' bytes :
  pending_wf s → fits 64 (counters_ s bytes_sent_) →
  flush_pending answers s = Some (ok, s', bytes) →
  (∃ rest, unsent s = bytes ++ rest ∧ if ok then rest = [] else rest ≠ []) ∧
  (ok = true → pending_ s' = [] ∧ pending_offset_ s' = 0) ∧
  counters_ s' bytes_sent_ = u64 (counters_ s bytes_sent_ + Z.of_nat (length bytes)) ∧
  same_but flush_counters s s'.
Proof. intros H1 H2 H3. by destruct (flush_spec _ _ _ _ _ H1 H2 H3). Qed.

(** [flush_pending] terminates: if no write fails and the socket has room at least as
    often as there are bytes left, it returns true, however often it would block or is
    interrupted in between. *)
Theorem flush_completes answers s :
  pending_wf s → Forall retryable answers →
  Z.of_nat (length (pending_ s)) - pending_offset_ s
    <= Z.of_nat (length (filter (λ a, 0 < sa_n a) answers)) →
  ∃ s' bytes, flush_pending answers s = Some (true, s', bytes).
Proof. apply flush_finishes. Qed.

(** [encode_batch] writes exactly the documented bytes: a header for the number of
    frames, then one 40-byte record per frame, whatever the buffer held before. *)
Theorem encode_batch_layout frames s :
  Forall frame_wf frames → Z.of_nat (length frames) <= kMaxCount →
  pending_ (encode_batch frames s)
  = header_layout (Z.of_nat (length frames)) ++ concat (map record_layout frames) ∧
  pending_offset_ (encode_batch frames s) = 0 ∧
  length (pending_ (encode_batch frames s)) = (16 + length frames * 40)%nat.
Proof.
  intros H1 H2. destruct (encode_batch_bytes frames s H1 H2) as [E1 E2].
  split; [exact E1|]. split; [exact E2|]. rewrite E1. by apply length_batch_bytes.
Qed.

(** ** Witnesses *)

Definition staged_egress : Egress :=
  encode_batch [make_gap 3 2 kConsumerOverrun 9] (make_egress (mkTuning 256 0 0)).

Definition slow_socket : list SendAnswer :=
  [mkSend 10 EOther 0 false false; mkSend (-1) EAgain 1 false false; mkSend (-1) EIntr 0 false false;
   mkSend 100 EOther 0 false false].

Lemma staged_pending_wf : pending_wf staged_egress.
Proof. split; vm_compute; split; congruence. Qed.

Lemma flush_delivers_witness :
  ∃ s', flush_pending slow_socket staged_egress = Some (true, s', pending_ staged_egress) ∧
        counters_ s' bytes_sent_ = 56 ∧ counters_ s' partial_writes_ = 1 ∧ pending_ s' = [].
Proof.
  destruct (flush_pending slow_socket staged_egress) as [[[ok s'] bytes]|] eqn:E;
    [|by exfalso; revert E; vm_compute].
  pose proof (flush_delivers _ _ _ _ _ staged_pending_wf ltac:(by vm_compute) E) as (_ & H2 & _).
  revert H2 E. vm_compute. intros H2 [= <- <- <-]. eexists. split; [reflexivity|]. done.
Defined.

Lemma flush_completes_witness :
  ∃ s' bytes, flush_pending (replicate 56 (mkSend 1 EOther 0 false false)) staged_egress
              = Some (true, s', bytes).
Proof.
  apply (flush_completes (replicate 56 (mkSend 1 EOther 0 false false)) staged_egress);
    [apply staged_pending_wf|apply (bool_decide_unpack _); by vm_compute|by vm_compute].
Defined.

Lemma encode_batch_layout_witness :
  length (pending_ (encode_batch [make_echo 1 2; make_echo 2 3] (make_egress (mkTuning 1 0 0)))) = 96%nat.
Proof.
  apply (encode_batch_layout [make_echo 1 2; make_echo 2 3]);
    [apply (bool_decide_unpack _); by vm_compute|unfold kMaxCount; simpl; lia].
Defined.
