(* ===== verification/EgressStream.v ===== *)
(** * EgressStream: the record stream a consumer receives from an [Egress]

    Loss markers ([note_gap]) and probes turn the batches popped from a feed into a
    record stream. This file proves what that stream looks like to the consumer's
    [GapTracker], batch by batch and over whole runs of the thread, connections,
    disconnections and back-pressure included. *)

From S2P Require Import Prelude Frame Wire BroadcastRing Samples GapTracker Feed Egress.

(** ** Batches *)

(** Sequence numbers from [n] upwards, strictly increasing, below [2^63]. *)
Fixpoint rising (n : Z) (l : list Frame) : Prop :=
  match l with
  | [] => True
  | f :: l => n <= f_seq f < 2 ^ 63 ∧ rising (f_seq f + 1) l
  end.

#[export] Instance rising_dec n l : Decision (rising n l).
Proof. revert n. induction l; intros n; simpl; apply _. Defined.

(** The sequence number after the last frame. *)
Fixpoint after (n : Z) (l : list Frame) : Z :=
  match l with [] => n | f :: l => after (f_seq f + 1) l end.

Lemma delivers_rising log pos out pos' :
  good_log log → 0 <= pos → delivers log pos out pos' →
  rising pos out ∧ after pos out <= pos' ∧ pos <= after pos out.
Proof.
  intros [_ Hb] Hpos. unfold log_bound in Hb. revert pos Hpos.
  induction out as [|f out IH]; intros pos Hpos; simpl; [lia|].
  intros (H1 & _ & H3). destruct (IH (f_seq f + 1) ltac:(lia) H3) as (K1 & K2 & K3).
  split_and!; try done; pow_consts; lia.
Qed.

Lemma last_after n d l : l ≠ [] → f_seq (List.last l d) + 1 = after n l.
Proof.
  revert n. induction l as [|g l IH]; intros n Hne; [done|].
  destruct l as [|h l]; [done|]. apply (IH (f_seq g + 1)). done.
Qed.

Lemma stamped_rising n l : stamped n l → 0 <= n → n + Z.of_nat (length l) < 2 ^ 63 → rising n l.
Proof.
  revert n. induction l as [|f l IH]; intros n; [done|]. simpl. intros [-> H] Hn Hl.
  split; [lia|]. apply IH; [done|lia|lia].
Qed.

(** ** Streams of bus frames, markers and probes *)

Definition expects (s : Egress) : option Z := if have_seq_ s then Some (next_seq_ s) else None.

Lemma bus_not_echo f : bus_frame f → is_echo f = false ∧ is_gap f = false.
Proof. intros [_ H]. rewrite is_control_or in H. apply orb_false_iff in H. tauto. Qed.

Lemma resume_bus e f : bus_frame f → resume_at e f = Some (f_seq f + 1).
Proof. intros H. destruct (bus_not_echo f H) as [H1 H2]. unfold resume_at. by rewrite H1, H2. Qed.

(** A rising run of bus frames is a forward stream, and an explained one when its
    numbers are consecutive. *)
Lemma bus_stream l n e :
  Forall bus_frame l → rising n l → 0 <= n → (∀ m, e = Some m → m <= n) →
  forward e l = true ∧ resume_all e l = match l with [] => e | _ => Some (after n l) end.
Proof.
  intros Hb. revert n e. induction Hb as [|f l Hf _ IH]; intros n e Hr Hn He; [done|].
  destruct Hr as [H1 H2]. destruct (bus_not_echo f Hf) as [Hne Hng].
  destruct (IH (f_seq f + 1) (Some (f_seq f + 1)) H2) as [K1 K2]; [lia|intros ? [= <-]; lia|].
  simpl. unfold resume_all in *. simpl. rewrite (resume_bus e f Hf). split.
  - apply andb_true_iff. split; [|done]. unfold continues. rewrite Hne, Hng. simpl.
    apply andb_true_iff. split.
    + destruct e as [m|]; [|done]. apply Z.leb_le. specialize (He m eq_refl). lia.
    + apply Z.ltb_lt. pow_consts. lia.
  - rewrite K2. by destruct l.
Qed.

Lemma stamped_explained l n e :
  Forall bus_frame l → stamped n l → (∀ m, e = Some m → m = n) → explained e l = true.
Proof.
  intros Hb. revert n e. induction Hb as [|f l Hf _ IH]; intros n e Hs He; [done|].
  destruct Hs as [H1 H2]. simpl. rewrite (resume_bus e f Hf), (IH (n + 1) _ H2).
  - rewrite andb_true_r. apply orb_true_iff. right. destruct e as [m|]; [|done].
    apply Z.eqb_eq. rewrite (He m eq_refl). lia.
  - intros m [= <-]. lia.
Qed.

(** A consumer that has just connected expects nothing in particular. *)
Lemma stream_fresh e l :
  (forward e l = true → forward None l = true) ∧
  (explained e l = true → explained None l = true) ∧
  (Exists (λ f, is_echo f = false) l → resume_all None l = resume_all e l).
Proof.
  revert e. induction l as [|f l IH]; intros e.
  { split_and!; try done. intros H. inversion H. }
  unfold resume_all in *. simpl. destruct (is_echo f) eqn:Ef.
  - destruct (IH e) as (H1 & H2 & H3). unfold continues, resume_at. rewrite Ef. simpl.
    split_and!; try done. intros H. apply H3. inversion H; [congruence|done].
  - assert (resume_at None f = resume_at e f) as -> by (unfold resume_at; by rewrite Ef).
    unfold continues. rewrite Ef. simpl. split_and!; [| |done].
    + rewrite !andb_true_iff. tauto.
    + rewrite !andb_true_iff. tauto.
Qed.

Lemma echo_invisible e n t :
  forward e [make_echo n t] = true ∧ explained e [make_echo n t] = true ∧
  resume_all e [make_echo n t] = e.
Proof. done. Qed.

(** ** note_gap *)

Definition gap_of (frames : list Frame) (now : Z) (s : Egress) : list Frame :=
  match frames with
  | front :: _ =>
      if have_seq_ s && (f_seq front >? next_seq_ s)
      then [make_gap (next_seq_ s) (u64 (f_seq front - next_seq_ s))
              (if reconnected_ s then kConsumerAbsent else kConsumerOverrun) now]
      else []
  | [] => []
  end.

Lemma note_gap_fields frames now s :
  frames ≠ [] →
  let s' := note_gap frames now s in
  outgoing_ s' = gap_of frames now s ++ frames ∧ have_seq_ s' = true ∧ reconnected_ s' = false ∧
  next_seq_ s' = u64 (after 0 frames) ∧ tuning_ s' = tuning_ s ∧ client_fd_ s' = client_fd_ s ∧
  pending_ s' = pending_ s ∧ pending_offset_ s' = pending_offset_ s ∧
  (∀ c, c ≠ gaps_sent_ → c ≠ frames_lost_ → counters_ s' c = counters_ s c) ∧
  echo_nonce_ s' = echo_nonce_ s ∧ echo_outstanding_ s' = echo_outstanding_ s.
Proof.
  intros Hne. destruct frames as [|f l]; [done|]. unfold note_gap, gap_of.
  change (have_seq_ (set_outgoing [] s)) with (have_seq_ s).
  change (next_seq_ (set_outgoing [] s)) with (next_seq_ s).
  destruct (have_seq_ s && _).
  - change (reconnected_ (set_outgoing [] s)) with (reconnected_ s).
    rewrite <- (last_after 0 f) by done. destruct (reconnected_ s); simpl; split_and!; try done;
      intros c H1 H2; simpl; rewrite ?decide_False by done; done.
  - rewrite <- (last_after 0 f) by done. simpl. by split_and!.
Qed.

(** The markers' own counters. *)
Lemma note_gap_counts frames now s :
  frames ≠ [] →
  let s' := note_gap frames now s in
  counters_ s' gaps_sent_ =
    match gap_of frames now s with
    | [] => counters_ s gaps_sent_
    | _ => u64 (counters_ s gaps_sent_ + 1)
    end ∧
  counters_ s' frames_lost_ =
    match gap_of frames now s with
    | [g] => if is_fault (gap_reason g) then u64 (counters_ s frames_lost_ + gap_count g)
             else counters_ s frames_lost_
    | _ => counters_ s frames_lost_
    end.
Proof.
  intros Hne. destruct frames as [|f l]; [done|]. unfold note_gap, gap_of.
  change (have_seq_ (set_outgoing [] s)) with (have_seq_ s).
  change (next_seq_ (set_outgoing [] s)) with (next_seq_ s).
  change (reconnected_ (set_outgoing [] s)) with (reconnected_ s).
  destruct (have_seq_ s && _); [|done].
  rewrite gap_count_make. by destruct (reconnected_ s); simpl; rewrite ?u64_u64.
Qed.

(** The marker names exactly the hole: the stream resumes at the front of the batch. *)
Lemma gap_of_stream frames now s :
  rising (if have_seq_ s then next_seq_ s else 0) frames → (have_seq_ s = true → 0 <= next_seq_ s) →
  let e := expects s in
  forward e (gap_of frames now s) = true ∧ explained e (gap_of frames now s) = true ∧
  ∀ m f l, frames = f :: l → resume_all e (gap_of frames now s) = Some m → m = f_seq f.
Proof.
  intros Hr Hs e. unfold gap_of, e, expects. destruct frames as [|f l]; [done|].
  destruct Hr as [H1 _]. destruct (have_seq_ s) eqn:Eh; simpl; [|done]. specialize (Hs eq_refl).
  rewrite Z.gtb_ltb. destruct (Z.ltb_spec (next_seq_ s) (f_seq f)) as [Hlt|Hge].
  - unfold resume_all. simpl. unfold continues, resume_at.
    rewrite is_echo_make_gap, is_gap_make, gap_count_make, !u64_small
      by (unfold fits; pow_consts; lia). simpl. rewrite Z.eqb_refl. simpl.
    split_and!; [|done|].
    + rewrite andb_true_r. apply Z.ltb_lt. pow_consts. lia.
    + intros m f' l' [= <- <-] [= <-]. lia.
  - split_and!; try done. intros m f' l' [= <- <-] [= <-]. lia.
Qed.

Lemma gap_of_control real frames now s :
  Forall (λ f, is_control f = false → real f) (gap_of frames now s).
Proof.
  unfold gap_of. destruct frames; [constructor|]. case_match; [|constructor].
  by constructor; [|constructor].
Qed.

Lemma gap_of_sendable frames now s :
  fits 64 now → fits 64 (next_seq_ s) → Forall frame_sendable (gap_of frames now s).
Proof.
  intros Hn Hs. unfold gap_of. destruct frames; [constructor|]. case_match; [|constructor].
  constructor; [|constructor]. apply make_gap_sendable; [done|done|].
  unfold fits. destruct (reconnected_ s); simpl; lia.
Qed.

(** One batch on the wire: from what the consumer expects, a forward stream that leaves
    it expecting what the egress expects, and an explained one if the batch is
    consecutive. *)
Lemma note_gap_stream frames now s :
  frames ≠ [] → Forall bus_frame frames → fits 64 now → fits 64 (next_seq_ s) →
  rising (if have_seq_ s then next_seq_ s else 0) frames →
  let s' := note_gap frames now s in
  forward (expects s) (outgoing_ s') = true ∧
  resume_all (expects s) (outgoing_ s') = expects s' ∧
  ((∃ from, stamped from frames) → explained (expects s) (outgoing_ s') = true) ∧
  Forall frame_sendable (outgoing_ s') ∧
  (length (outgoing_ s') <= S (length frames))%nat ∧
  Exists (λ f, is_echo f = false) (outgoing_ s') ∧ fits 64 (next_seq_ s').
Proof.
  intros Hne Hb Hnow Hfit Hr s'.
  destruct (note_gap_fields frames now s Hne) as (Ho & Hh & _ & Hn & _). fold s' in Ho, Hh, Hn.
  assert (have_seq_ s = true → 0 <= next_seq_ s) as Hpos by (intros _; apply Hfit).
  destruct (gap_of_stream frames now s Hr Hpos) as (G1 & G2 & G3).
  destruct frames as [|f l]; [done|]. set (frames := f :: l) in *.
  assert (0 <= f_seq f < 2 ^ 63) as Hf.
  { destruct Hr as [H _]. destruct (have_seq_ s); [specialize (Hpos eq_refl)|]; lia. }
  assert (rising (f_seq f) frames) as Hr' by (destruct Hr as [_ Hr]; split; [lia|done]).
  set (e := resume_all (expects s) (gap_of frames now s)) in *.
  destruct (bus_stream frames (f_seq f) e) as [B1 B2]; [done|done|lia| |].
  { intros m Hm. rewrite (G3 m f l eq_refl Hm). lia. }
  assert (0 <= after 0 frames < 2 ^ 64) as Ha.
  { assert (∀ l n, 0 <= n <= 2 ^ 63 → rising n l → 0 <= after n l <= 2 ^ 63) as H.
    { clear. induction l as [|g l IH]; intros n Hn; simpl; [done|]. intros [H1 H2].
      apply IH; [lia|done]. }
    destruct Hr' as [_ Hr']. specialize (H l (f_seq f + 1) ltac:(lia) Hr').
    change (after 0 frames) with (after (f_seq f + 1) l). pow_consts. lia. }
  rewrite u64_small in Hn by apply Ha. rewrite Ho. split_and!.
  - by rewrite forward_app, G1.
  - rewrite resume_all_app. fold e. rewrite B2. unfold expects. by rewrite Hh, Hn.
  - intros [from Hst]. rewrite explained_app, G2. rewrite andb_true_l. apply (stamped_explained _ from); [done|done|].
    intros m Hm. rewrite (G3 m f l eq_refl Hm). by destruct Hst.
  - apply Forall_app. split; [by apply gap_of_sendable|]. eapply Forall_impl; [exact Hb|]. by intros ? [].
  - rewrite length_app. unfold gap_of, frames. destruct (have_seq_ s && _); simpl; lia.
  - apply Exists_app. right. constructor. inversion Hb; subst. by apply bus_not_echo.
  - rewrite Hn. apply Ha.
Qed.

(** ** maybe_send_echo *)

Lemma echo_fields now s :
  let s' := maybe_send_echo now s in
  (outgoing_ s' = outgoing_ s ∨
   outgoing_ s' = outgoing_ s ++ [make_echo (u64 (echo_nonce_ s + 1)) now]) ∧
  have_seq_ s' = have_seq_ s ∧ next_seq_ s' = next_seq_ s ∧ tuning_ s' = tuning_ s ∧
  client_fd_ s' = client_fd_ s ∧ pending_ s' = pending_ s ∧
  (∀ c, c ≠ echoes_sent_ → c ≠ echoes_lost_ → counters_ s' c = counters_ s c).
Proof.
  unfold maybe_send_echo. destruct (_ || _); [by auto 10|]. destruct (now <? _); [by auto 10|].
  destruct (echo_outstanding_ s); simpl; split_and!; try done; try (by right);
    intros c H1 H2; simpl; by rewrite !decide_False.
Qed.

(** ** What one connection carries *)

(** The bytes the current connection has received. *)
Definition conn_step (acc : list Z) (ev : NetEvent) : list Z :=
  match ev with NConnect => [] | NBytes b => acc ++ b | NClose => [] end.

Definition conn_bytes (evs : list NetEvent) : list Z := fold_left conn_step evs [].

Lemma conn_bytes_snoc evs ev : conn_bytes (evs ++ [ev]) = conn_step (conn_bytes evs) ev.
Proof. unfold conn_bytes. by rewrite fold_left_app. Qed.

(** The connections that have ended, each with the bytes it received. *)
Definition conns_step (acc : list (list Z) * list Z) (ev : NetEvent) : list (list Z) * list Z :=
  match ev with
  | NConnect => (acc.1, [])
  | NBytes b => (acc.1, acc.2 ++ b)
  | NClose => (acc.1 ++ [acc.2], [])
  end.

Definition ended_conns (evs : list NetEvent) : list (list Z) := (fold_left conns_step evs ([], [])).1.

Lemma conns_current evs : (fold_left conns_step evs ([], [])).2 = conn_bytes evs.
Proof.
  induction evs as [|ev evs IH] using rev_ind; [done|].
  rewrite conn_bytes_snoc, fold_left_app, <- IH. by destruct ev.
Qed.

Lemma ended_conns_snoc evs ev :
  ended_conns (evs ++ [ev]) = ended_conns evs ++ match ev with NClose => [conn_bytes evs] | _ => [] end.
Proof.
  unfold ended_conns. rewrite fold_left_app, <- conns_current. destruct ev; simpl; by rewrite ?app_nil_r.
Qed.

(** The bytes of a connection for which the batches [bs] were staged: all of them, or all
    but the last and a part of that. *)
Definition received_as (bytes : list Z) (bs : list (list Frame)) : Prop :=
  bytes = concat (map batch_bytes bs) ∨
  ∃ whole b part, bs = whole ++ [b] ∧ bytes = concat (map batch_bytes whole) ++ part ∧ part `prefix_of` batch_bytes b.

(** The connections so far: [past] and [cur] are the batches staged for each of those that
    have ended and for the current one. Over all of them the records are one stream, which
    leaves a consumer expecting what the egress expects, and every one that is not a marker
    or a probe satisfies [real]. *)
Record carries (contiguous : Prop) (real : Frame → Prop) (s : Egress) (evs : list NetEvent)
    (past : list (list (list Frame))) (cur : list (list Frame)) : Prop := {
  ca_ended : Forall2 received_as (ended_conns evs) past;
  ca_bytes : received_as (conn_bytes evs) cur;
  ca_batches : Forall (λ b, Forall frame_sendable b ∧
                            Z.of_nat (length b) <= max_frames (tuning_ s) + 2) (concat past ++ cur);
  ca_forward : forward None (concat (concat past ++ cur)) = true;
  ca_explained : contiguous → explained None (concat (concat past ++ cur)) = true;
  ca_real : Forall (λ f, is_control f = false → real f) (concat (concat past ++ cur));
  ca_resume : resume_all None (concat (concat past ++ cur)) = expects s
}.

(** Bytes that are such a stream by themselves, possibly cut in their last batch. *)
Definition streamed (contiguous : Prop) (real : Frame → Prop) (maxf : Z) (bytes : list Z) : Prop :=
  ∃ bs, received_as bytes bs ∧
    Forall (λ b, Forall frame_sendable b ∧ Z.of_nat (length b) <= maxf + 2) bs ∧
    forward None (concat bs) = true ∧ (contiguous → explained None (concat bs) = true) ∧
    Forall (λ f, is_control f = false → real f) (concat bs).

(** Every connection, the current one last. *)
Definition connections (evs : list NetEvent) : list (list Z) := ended_conns evs ++ [conn_bytes evs].

Lemma current_connection evs : conn_bytes evs ∈ connections evs.
Proof. apply elem_of_app. right. by apply list_elem_of_singleton. Qed.

(** A part of a stream is a stream. *)
Lemma stream_part (a b c : list Frame) :
  (forward None (a ++ b ++ c) = true → forward None b = true) ∧
  (explained None (a ++ b ++ c) = true → explained None b = true).
Proof.
  destruct (stream_fresh (resume_all None a) b) as (F1 & F2 & _).
  rewrite !forward_app, !explained_app, !andb_true_iff. tauto.
Qed.

(** What each connection got is a stream, whatever it missed of the others. *)
Lemma carries_streamed c real s evs past cur :
  carries c real s evs past cur → Forall (streamed c real (max_frames (tuning_ s))) (connections evs).
Proof.
  intros [H1 H2 H3 H4 H5 H6 _]. assert (Forall2 received_as (connections evs) (past ++ [cur])) as Hall
    by (apply Forall2_app; [done|by constructor]).
  assert (concat past ++ cur = concat (past ++ [cur])) as Ec by (rewrite concat_app; simpl; by rewrite app_nil_r).
  rewrite Ec in *. apply Forall_lookup. intros i bytes Hi.
  destruct (Forall2_lookup_l _ _ _ _ _ Hall Hi) as (bs & Hbs & Hr).
  apply list_elem_of_lookup_2, list_elem_of_split in Hbs as (l1 & l2 & Hl).
  rewrite Hl, concat_app in *. cbn [concat] in *. rewrite !concat_app in *.
  destruct (stream_part (concat (concat l1)) (concat bs) (concat (concat l2))) as [P1 P2].
  apply Forall_app in H3 as [_ H3]. apply Forall_app in H3 as [H3 _].
  apply Forall_app in H6 as [_ H6]. apply Forall_app in H6 as [H6 _].
  exists bs. split_and!; auto.
Qed.

(** What holds of the thread between two iterations. *)
Record loop_inv (contiguous : Prop) (real : Frame → Prop) (s : Egress) (evs : list NetEvent) : Prop := {
  li_tuning : 1 <= max_frames (tuning_ s) <= kMaxBatch;
  li_pending : pending_ s = [] ∧ pending_offset_ s = 0;
  li_next : fits 64 (next_seq_ s);
  li_bytes : fits 64 (counters_ s bytes_sent_);
  li_conn : ∃ past cur, carries contiguous real s evs past cur ∧
              conn_bytes evs = concat (map batch_bytes cur) ∧ (client_fd_ s < 0 → cur = [])
}.

(** Another batch is staged, and a part of it reaches the connection. *)
Lemma carries_extend c real s s' evs past cur b part :
  carries c real s evs past cur → conn_bytes evs = concat (map batch_bytes cur) →
  part `prefix_of` batch_bytes b →
  Forall (λ f, is_control f = false → real f) b → tuning_ s' = tuning_ s →
  Forall frame_sendable b → Z.of_nat (length b) <= max_frames (tuning_ s) + 2 →
  forward (expects s) b = true → (c → explained (expects s) b = true) →
  resume_all (expects s) b = expects s' →
  carries c real s' (evs ++ [NBytes part]) past (cur ++ [b]).
Proof.
  intros [H1 _ H2 H3 H4 H6 H5] Hw Hpart Hreal Ht Hs Hl Hf He Hr.
  assert (concat (concat past ++ cur ++ [b]) = concat (concat past ++ cur) ++ b) as Ec
    by (rewrite app_assoc, concat_app; simpl; by rewrite app_nil_r).
  constructor.
  - by rewrite ended_conns_snoc, app_nil_r.
  - right. exists cur, b, part. split; [done|]. split; [|done]. by rewrite conn_bytes_snoc, Hw.
  - rewrite Ht, app_assoc. apply Forall_app. split; [done|]. by constructor.
  - by rewrite Ec, forward_app, H3, H5.
  - intros Hc. rewrite Ec, explained_app, H4, H5 by done. by apply He.
  - rewrite Ec. by apply Forall_app.
  - by rewrite Ec, resume_all_app, H5.
Qed.

(** The connection ends. *)
Lemma carries_close c real s s' evs past cur :
  carries c real s evs past cur → tuning_ s' = tuning_ s → expects s' = expects s →
  carries c real s' (evs ++ [NClose]) (past ++ [cur]) [].
Proof.
  intros [H1 H2 H3 H4 H5 H6 H7] Ht Hx.
  assert (concat (past ++ [cur]) ++ [] = concat past ++ cur) as Ec
    by (rewrite concat_app, app_nil_r; simpl; by rewrite app_nil_r).
  constructor; rewrite ?Ec, ?Ht, ?Hx; try done.
  - rewrite ended_conns_snoc. apply Forall2_app; [done|]. by constructor.
  - left. by rewrite conn_bytes_snoc.
Qed.

Lemma drop_client_inv c real s evs past cur :
  1 <= max_frames (tuning_ s) <= kMaxBatch → fits 64 (next_seq_ s) →
  fits 64 (counters_ s bytes_sent_) → 0 <= client_fd_ s → carries c real s evs past cur →
  loop_inv c real (drop_client s).1 (evs ++ (drop_client s).2) ∧
  expects (drop_client s).1 = expects s.
Proof.
  intros Ht Hn Hb Hc Hca. unfold drop_client. destruct (Z.ltb_spec (client_fd_ s) 0); [lia|]. simpl.
  split; [|done]. constructor; simpl; try done. exists (past ++ [cur]), [].
  split; [by eapply carries_close|]. by rewrite conn_bytes_snoc.
Qed.

(** The state just before the flush: everything of the batch is in [pending_]. *)
(** What the batch is, once the marker is in front of it and the probe possibly behind it. *)
Lemma staged_outgoing batch gnow enow s :
  batch ≠ [] → Forall bus_frame batch →
  Z.of_nat (length batch) <= max_frames (tuning_ s) →
  fits 64 gnow → fits 64 enow → fits 64 (next_seq_ s) →
  rising (if have_seq_ s then next_seq_ s else 0) batch →
  let s1 := note_gap batch gnow s in
  let s2 := maybe_send_echo enow s1 in
  Forall frame_sendable (outgoing_ s2) ∧
  Z.of_nat (length (outgoing_ s2)) <= max_frames (tuning_ s) + 2 ∧
  forward (expects s) (outgoing_ s2) = true ∧
  ((∃ from, stamped from batch) → explained (expects s) (outgoing_ s2) = true) ∧
  Exists (λ f, is_echo f = false) (outgoing_ s2) ∧
  resume_all (expects s) (outgoing_ s2) = expects s1 ∧
  (∀ real : Frame → Prop, Forall real batch →
     Forall (λ f, is_control f = false → real f) (outgoing_ s2)).
Proof.
  intros Hne Hb Hl Hg He Hn Hr s1 s2.
  destruct (note_gap_stream batch gnow s Hne Hb Hg Hn Hr)
    as (N1 & N2 & N3 & N4 & N5 & N6 & N7). fold s1 in N1, N2, N3, N4, N5, N6, N7.
  destruct (note_gap_fields batch gnow s Hne) as (M1 & _). fold s1 in M1.
  destruct (echo_fields enow s1) as (E1 & _). fold s2 in E1.
  assert (∀ real : Frame → Prop, Forall real batch →
            Forall (λ f, is_control f = false → real f) (outgoing_ s1)) as Hreal.
  { intros real Hall. rewrite M1. apply Forall_app. split; [by apply gap_of_control|].
    eapply Forall_impl; [exact Hall|]. done. }
  destruct E1 as [->| ->]; [split_and!; try done; lia|].
  destruct (echo_invisible (expects s1) (u64 (echo_nonce_ s1 + 1)) enow) as (V1 & V2 & V3).
  split_and!.
  - apply Forall_app. split; [done|]. constructor; [|constructor].
    apply make_echo_sendable; [apply u64_fits|done].
  - rewrite length_app. simpl. lia.
  - by rewrite forward_app, N1, N2.
  - intros Hc. by rewrite explained_app, N3, N2 by done.
  - apply Exists_app. by left.
  - by rewrite resume_all_app, N2.
  - intros real Hall. apply Forall_app. split; [by apply Hreal|]. by constructor.
Qed.

Lemma staged {E} (env : IterEnv E) batch s :
  pending_ s = [] → batch ≠ [] → Forall bus_frame batch →
  Z.of_nat (length batch) <= max_frames (tuning_ s) → 1 <= max_frames (tuning_ s) <= kMaxBatch →
  fits 64 (i_gap_now env) → fits 64 (i_echo_now env) → fits 64 (next_seq_ s) →
  rising (if have_seq_ s then next_seq_ s else 0) batch →
  let s1 := note_gap batch (i_gap_now env) s in
  let s2 := maybe_send_echo (i_echo_now env) s1 in
  let s3 := encode_batch (outgoing_ s2) s2 in
  pending_ s3 = batch_bytes (outgoing_ s2) ∧ pending_offset_ s3 = 0 ∧ pending_wf s3 ∧
  tuning_ s3 = tuning_ s ∧ client_fd_ s3 = client_fd_ s ∧
  counters_ s3 bytes_sent_ = counters_ s bytes_sent_ ∧
  expects s3 = expects s1 ∧ fits 64 (next_seq_ s3) ∧
  Forall frame_sendable (outgoing_ s2) ∧
  Z.of_nat (length (outgoing_ s2)) <= max_frames (tuning_ s) + 2 ∧
  forward (expects s) (outgoing_ s2) = true ∧
  ((∃ from, stamped from batch) → explained (expects s) (outgoing_ s2) = true) ∧
  Exists (λ f, is_echo f = false) (outgoing_ s2) ∧
  resume_all (expects s) (outgoing_ s2) = expects s1 ∧ have_seq_ s3 = true ∧
  (∀ real : Frame → Prop, Forall real batch →
     Forall (λ f, is_control f = false → real f) (outgoing_ s2)) ∧
  next_seq_ s3 = u64 (after 0 batch).
Proof.
  intros Hp Hne Hb Hl Ht Hg He Hn Hr s1 s2 s3.
  destruct (note_gap_stream batch (i_gap_now env) s Hne Hb Hg Hn Hr)
    as (N1 & N2 & N3 & N4 & N5 & N6 & N7). fold s1 in N1, N2, N3, N4, N5, N6, N7.
  destruct (note_gap_fields batch (i_gap_now env) s Hne)
    as (M1 & M2 & _ & M4 & M5 & M6 & M7 & M8 & M9 & _). fold s1 in M1, M2, M4, M5, M6, M7, M8, M9.
  destruct (echo_fields (i_echo_now env) s1) as (E1 & E2 & E3 & E4 & E5 & E6 & E7).
  fold s2 in E1, E2, E3, E4, E5, E6, E7.
  destruct (staged_outgoing batch (i_gap_now env) (i_echo_now env) s Hne Hb Hl Hg He Hn Hr)
    as (P1 & P2 & P3 & P4 & P5 & P6 & P7). fold s1 s2 in P1, P2, P3, P4, P5, P6, P7.
  assert (Forall frame_wf (outgoing_ s2)) as Hwf
    by (eapply Forall_impl; [exact P1|]; apply sendable_wf).
  unfold kMaxBatch in Ht.
  destruct (encode_batch_bytes (outgoing_ s2) s2) as [B1 B2]; [done|unfold kMaxCount; lia|].
  fold s3 in B1, B2.
  assert (length (pending_ s3) = (kHeaderSize + length (outgoing_ s2) * kRecordSize)%nat) as Hlen
    by (rewrite B1; by apply length_batch_bytes).
  unfold kHeaderSize, kRecordSize in Hlen.
  split_and!; try done; try (unfold expects; simpl; by rewrite E2, E3).
  - split; rewrite ?B2, Hlen; lia.
  - simpl. by rewrite E4.
  - simpl. by rewrite E5.
  - simpl. by rewrite E7, M9.
  - simpl. by rewrite E3.
  - simpl. by rewrite E2.
  - simpl. by rewrite E3.
Qed.

(** Sending a batch keeps the invariant whether the flush completes or fails. *)
Lemma send_batch_inv {E} (env : IterEnv E) c real batch s evs s' ev :
  loop_inv c real s evs → 0 <= client_fd_ s → batch ≠ [] → Forall bus_frame batch →
  Forall real batch →
  Z.of_nat (length batch) <= max_frames (tuning_ s) →
  fits 64 (i_gap_now env) → fits 64 (i_echo_now env) →
  rising (if have_seq_ s then next_seq_ s else 0) batch →
  (c → ∃ from, stamped from batch) →
  send_batch env batch s = Some (s', ev) →
  loop_inv c real s' (evs ++ ev) ∧ expects s' = Some (u64 (after 0 batch)) ∧
  tuning_ s' = tuning_ s.
Proof.
  intros [I1 [I2 _] I3 I4 (past & cur & I5 & I6 & _)] Hcl Hne Hb Hreal Hl Hg He Hr Hc. unfold send_batch.
  destruct (staged env batch s) as
    (S1 & S2 & S3 & S4 & S5 & S6 & S7 & S8 & S9 & S10 & S11 & S12 & S13 & S14 & S15 & S17 & S16);
    try done.
  set (s1 := note_gap batch (i_gap_now env) s) in *.
  set (s2 := maybe_send_echo (i_echo_now env) s1) in *.
  set (s3 := encode_batch (outgoing_ s2) s2) in *.
  unfold flush_or_drop. destruct (flush_pending (i_flush env) s3) as [[[ok s4] bytes]|] eqn:Ef; [|done].
  destruct (flush_spec _ _ _ _ _ S3 ltac:(by rewrite S6) Ef) as [(rest & F1 & F2) F3 F4 F5].
  unfold unsent in F1. rewrite S2, S1, drop_0 in F1.
  assert (expects s4 = expects s3) as Hx4 by (unfold expects; by rewrite (sb_have _ _ _ F5), (sb_next _ _ _ F5)).
  assert (expects s3 = Some (u64 (after 0 batch))) as Hx3 by (unfold expects; by rewrite S15, S16).
  assert (fits 64 (counters_ s4 bytes_sent_)) as Hfb by (rewrite F4; apply u64_fits).
  assert (fits 64 (next_seq_ s4)) as Hfn by (by rewrite (sb_next _ _ _ F5)).
  assert (tuning_ s4 = tuning_ s) as Ht4 by (by rewrite (sb_tuning _ _ _ F5)).
  assert (client_fd_ s4 = client_fd_ s) as Hc4 by (by rewrite (sb_client _ _ _ F5)).
  assert (carries c real s4 (evs ++ [NBytes bytes]) past (cur ++ [outgoing_ s2])) as Hnew.
  { apply (carries_extend c real s); try done; [rewrite F1; by eexists|by apply S17|eauto|]. by rewrite S14, Hx4, S7. }
  destruct ok.
  - intros [= <- <-]. subst rest. rewrite app_nil_r in F1. destruct (F3 eq_refl) as [F6 F7].
    split; [|split; [|done]]; [|change (expects s4 = Some (u64 (after 0 batch))); congruence].
    constructor; simpl; try done; [by rewrite Ht4|]. exists past, (cur ++ [outgoing_ s2]).
    split; [by destruct Hnew|]. split; [|lia]. rewrite conn_bytes_snoc, I6, map_app, concat_app. cbn [conn_step map concat].
    by rewrite app_nil_r, F1.
  - destruct (drop_client s4) as [s5 ev5] eqn:Ed. intros [= <- <-].
    destruct (drop_client_inv c real s4 (evs ++ [NBytes bytes]) past (cur ++ [outgoing_ s2])) as [D1 D2];
      [by rewrite Ht4|done|done|by rewrite Hc4|done|].
    rewrite Ed in D1, D2. simpl in D1, D2. rewrite <- app_assoc in D1.
    split; [done|]. split; [congruence|]. unfold drop_client in Ed.
    destruct (client_fd_ s4 <? 0); by injection Ed as <- _.
Qed.

(** ** drain_replies touches only the reply side *)

Record send_side (s s' : Egress) : Prop := {
  ss_tuning : tuning_ s' = tuning_ s;
  ss_client : client_fd_ s' = client_fd_ s;
  ss_pending : pending_ s' = pending_ s;
  ss_offset : pending_offset_ s' = pending_offset_ s;
  ss_next : next_seq_ s' = next_seq_ s;
  ss_have : have_seq_ s' = have_seq_ s;
  ss_counters : ∀ c, c ≠ echoes_returned_ → c ≠ lingered_ → counters_ s' c = counters_ s c
}.

#[export] Instance send_side_preorder : PreOrder send_side.
Proof.
  split; [by constructor|]. intros s1 s2 s3 [] []. constructor; try congruence.
  intros c Hc Hl. rewrite <- ss_counters0 by done. by apply ss_counters1.
Qed.

Lemma take_reply_side now s rec : send_side s (take_reply now s rec).
Proof.
  unfold take_reply. destruct (decode_frame rec frame_zero) as [[] f]; try reflexivity.
  destruct (_ || _ || _); [reflexivity|]. constructor; try done.
  intros c Hc _. simpl. by rewrite decide_False.
Qed.

Lemma fold_side {A} (g : Egress → A → Egress) l s :
  (∀ s x, send_side s (g s x)) → send_side s (fold_left g l s).
Proof.
  intros H. revert s. induction l as [|x l IH]; intros s; simpl; [reflexivity|].
  etransitivity; [apply H|apply IH].
Qed.

Lemma reply_loop_side fuel now off s : send_side s (reply_loop fuel now off s).1.
Proof.
  revert off s. induction fuel as [|fuel IH]; intros off s; cbn [reply_loop]; [reflexivity|].
  destruct (_ <? _); [reflexivity|].
  destruct (decode_header _ _) as [[] h]; try by constructor.
  destruct (_ <? _); [reflexivity|]. etransitivity; [|apply IH]. apply fold_side, take_reply_side.
Qed.

Lemma drain_side chunks now s : send_side s (drain_replies chunks now s).
Proof.
  unfold drain_replies. destruct (client_fd_ s <? 0); [reflexivity|].
  assert (send_side s (fold_left take_chunk chunks s)) as H1 by (apply fold_side; by constructor).
  pose proof (reply_loop_side (S (length (reply_buf_ (fold_left take_chunk chunks s)))) now 0
                (fold_left take_chunk chunks s)) as H2.
  destruct (reply_loop _ _ _ _) as [s2 [off|]]; simpl in H2; [|by etransitivity].
  destruct (0 <? off)%nat; (etransitivity; [exact H1|]); [|done].
  etransitivity; [exact H2|]. by constructor.
Qed.

Lemma loop_inv_side c real s s' evs :
  send_side s s' → loop_inv c real s evs → loop_inv c real s' evs.
Proof.
  intros [H1 H2 H3 H4 H5 H6 H7] [I1 I2 I3 I4 (past & cur & [] & I6)]. constructor; rewrite ?H1, ?H3, ?H4, ?H5, ?H7 by done;
    try done. rewrite H2. exists past, cur. split; [|done].
  constructor; rewrite ?H1; try done. unfold expects. by rewrite H5, H6.
Qed.

(** ** Iterations of run over a feed *)

Section Loop.
Context {F E : Type} `{!ConsumerFeed F E, !FeedSpec F E}.
Implicit Types (env : IterEnv E) (f : F).

(** The [pop_batch] calls an iteration makes. *)
Fixpoint linger_calls (deadline : Z) (ticks : list (Z * E)) (maxf : Z) (batch : list Frame) (f : F)
  : list (nat * E) :=
  if Z.of_nat (length batch) >=? maxf then []
  else
    match ticks with
    | [] => []
    | (now, e) :: ticks =>
        if now >=? deadline then []
        else
          let n := Z.to_nat (maxf - Z.of_nat (length batch)) in
          (n, e) :: match feed_pop n e f with
                    | ([], _) => []
                    | (more, f) => linger_calls deadline ticks maxf (batch ++ more) f
                    end
    end.

Definition serve_calls (env : IterEnv E) (t : Tuning) (f : F) : list (nat * E) :=
  let n := Z.to_nat (max_frames t) in
  (n, i_pop env) ::
  match feed_pop n (i_pop env) f with
  | ([], _) => []
  | (batch, f) =>
      if (linger_us t =? 0) || (Z.of_nat (length batch) >=? max_frames t) then []
      else linger_calls (u64 (i_linger_now env + u64 (linger_us t * 1000))) (i_linger env)
             (max_frames t) batch f
  end.

Definition iter_calls (env : IterEnv E) (s : Egress) (f : F) : list (nat * E) :=
  match wait_for_client (i_wait env) s with
  | Some (true, s, _) =>
      if client_gone (i_gone_rc env) (i_gone_hup env) s then [] else serve_calls env (tuning_ s) f
  | _ => []
  end.

Lemma linger_pops deadline ticks maxf batch f :
  let r := linger deadline ticks maxf batch f in
  let calls := linger_calls deadline ticks maxf batch f in
  r.1.1 = batch ++ concat (pops calls f).1 ∧ r.2 = (pops calls f).2.
Proof.
  revert batch f. induction ticks as [|[now e] ticks IH]; intros batch f; cbn [linger linger_calls].
  { destruct (_ >=? _); simpl; by rewrite app_nil_r. }
  destruct (Z.of_nat (length batch) >=? maxf); [simpl; by rewrite app_nil_r|].
  destruct (now >=? deadline); [simpl; by rewrite app_nil_r|].
  rewrite pops_cons.
  destruct (feed_pop (Z.to_nat (maxf - Z.of_nat (length batch))) e f) as [[|x more] f1]; simpl.
  { by rewrite app_nil_r. }
  destruct (IH (batch ++ x :: more) f1) as [H1 H2].
  destruct (linger deadline ticks maxf (batch ++ x :: more) f1) as [[b w] f2]. simpl in *.
  rewrite H1, <- app_assoc. done.
Qed.

Lemma linger_length deadline ticks maxf batch f log pos :
  feed_at f log pos → pops_ok (linger_calls deadline ticks maxf batch f) f log →
  Z.of_nat (length batch) <= maxf → Z.of_nat (length (linger deadline ticks maxf batch f).1.1) <= maxf.
Proof.
  revert batch f log pos. induction ticks as [|[now e] ticks IH]; intros batch f log pos Hf Hok Hl;
    cbn [linger linger_calls] in *.
  { by destruct (_ >=? _). }
  destruct (Z.of_nat (length batch) >=? maxf); [done|]. destruct (now >=? deadline); [done|].
  destruct Hok as [Hok1 Hok2].
  destruct (feed_pop_spec (Z.to_nat (maxf - Z.of_nat (length batch))) e f log pos Hf Hok1)
    as (p & K1 & K2 & _).
  destruct (feed_pop (Z.to_nat (maxf - Z.of_nat (length batch))) e f) as [[|x more] f1]; simpl in *; [done|].
  assert (Z.of_nat (length (batch ++ x :: more)) <= maxf) as Hl' by (rewrite length_app; simpl; lia).
  pose proof (IH _ _ _ _ K1 Hok2 Hl') as H.
  by destruct (linger deadline ticks maxf (batch ++ x :: more) f1) as [[b w] f2].
Qed.

Definition popped (env : IterEnv E) (t : Tuning) (f : F) : list Frame :=
  concat (pops (serve_calls env t f) f).1.

Definition popped_feed (env : IterEnv E) (t : Tuning) (f : F) : F :=
  (pops (serve_calls env t f) f).2.

(** [serve] in terms of everything it popped. *)
Lemma serve_eq env s f :
  client_gone (i_gone_rc env) (i_gone_hup env) s = false →
  ∃ s2, send_side s s2 ∧
    serve env s f =
      match popped env (tuning_ s) f with
      | [] => Some (if feed_closed (popped_feed env (tuning_ s) f) then Return else Continue, s2,
                    popped_feed env (tuning_ s) f, [])
      | batch => match send_batch env batch s2 with
                 | None => None
                 | Some (s', ev) => Some (Continue, s', popped_feed env (tuning_ s) f, ev)
                 end
      end.
Proof.
  intros Hg. unfold serve. rewrite Hg. set (s1 := drain_replies _ _ s).
  pose proof (drain_side (i_chunks env) (i_reply_now env) s) as Hside. fold s1 in Hside.
  rewrite (ss_tuning _ _ Hside). unfold popped, popped_feed, serve_calls. rewrite !pops_cons.
  destruct (feed_pop (Z.to_nat (max_frames (tuning_ s))) (i_pop env) f) as [[|x batch] f1].
  { exists s1. by simpl. }
  simpl fst. simpl snd. unfold coalesce. rewrite (ss_tuning _ _ Hside).
  destruct (_ || _).
  { exists s1. split; [done|]. simpl. by rewrite app_nil_r. }
  set (deadline := u64 (_ + _)).
  destruct (linger_pops deadline (i_linger env) (max_frames (tuning_ s)) (x :: batch) f1) as [L1 L2].
  destruct (linger deadline (i_linger env) (max_frames (tuning_ s)) (x :: batch) f1) as [[b w] f2].
  simpl in L1, L2. rewrite <- L2. change (concat ((x :: batch) :: ?l)) with ((x :: batch) ++ concat l).
  simpl. rewrite <- L1. exists (if w then bump lingered_ 1 s1 else s1). split.
  - destruct w; [|done]. etransitivity; [exact Hside|]. constructor; try done.
    intros c _ Hc. simpl. by rewrite decide_False.
  - by destruct b.
Qed.

Lemma rising_weaken m n l : m <= n → rising n l → rising m l.
Proof. destruct l; simpl; [done|]. intros ? [? ?]. split; [lia|done]. Qed.

(** A frame of the log, at the position it carries. *)
Definition of_log (log : list Frame) (g : Frame) : Prop :=
  0 <= f_seq g < Z.of_nat (length log) ∧ g = log_frame log (f_seq g).

Lemma of_log_prefix log log' g : log `prefix_of` log' → of_log log g → of_log log' g.
Proof.
  intros [k ->] [H1 H2]. split; [rewrite length_app; lia|]. by rewrite log_frame_app.
Qed.

Definition contiguous_feed : Prop :=
  ∀ n (e : E) (f : F) log pos, feed_at f log pos → feed_env_ok e f log →
                               ∃ from, stamped from (feed_pop n e f).1.

(** Everything an iteration pops is a rising run of log frames that fits one batch, and
    without lingering it is one batch of the feed. *)
Lemma popped_spec env t f log pos :
  1 <= max_frames t → feed_at f log pos → pops_ok (serve_calls env t f) f log →
  let log' := log ++ pops_added (serve_calls env t f) f in
  ∃ pos', feed_at (popped_feed env t f) log' pos' ∧
    Forall bus_frame (popped env t f) ∧ Forall (of_log log') (popped env t f) ∧ rising pos (popped env t f) ∧
    pos <= after pos (popped env t f) <= pos' ∧ pos' < 2 ^ 63 ∧
    Z.of_nat (length (popped env t f)) <= max_frames t ∧
    (linger_us t = 0 ∧ contiguous_feed → ∃ from, stamped from (popped env t f)).
Proof.
  intros Ht Hf Hok log'. destruct (feed_at_good _ _ _ Hf) as [_ Hpos].
  destruct (pops_deliver _ f log pos Hf Hok) as (pos' & H1 & H2). fold log' in H1, H2.
  destruct (feed_at_good _ _ _ H1) as [Hg Hpos'].
  destruct (delivers_rising log' pos _ pos' Hg ltac:(lia) H2) as (R1 & R2 & R3).
  exists pos'. split; [done|]. split; [eapply delivers_bus; [exact Hg| |exact H2]; lia|].
  split.
  { eapply Forall_impl; [eapply delivers_forall; [|exact H2]; lia|].
    simpl. intros g [Hg1 Hg2]. split; [lia|done]. }
  split; [done|]. split; [done|].
  split; [destruct Hg as [_ Hg]; unfold log_bound in Hg; pow_consts; lia|].
  unfold popped, serve_calls in *. rewrite pops_cons. simpl fst. simpl snd.
  destruct Hok as [Hok1 Hok2]. pose proof Hok1 as Hok1'.
  destruct (feed_pop_spec (Z.to_nat (max_frames t)) (i_pop env) f log pos Hf Hok1) as (p & K1 & K2 & _).
  split.
  - destruct (feed_pop (Z.to_nat (max_frames t)) (i_pop env) f) as [[|x batch] f1]; simpl in K1, K2, Hok2.
    { simpl. lia. }
    cbn [concat]. destruct (_ || _); [simpl; rewrite app_nil_r; simpl; lia|].
    destruct (linger_pops (u64 (i_linger_now env + u64 (linger_us t * 1000))) (i_linger env)
                (max_frames t) (x :: batch) f1) as [L1 _].
    pose proof (linger_length _ _ _ _ _ _ _ K1 Hok2 ltac:(simpl; lia)) as L.
    by rewrite L1 in L.
  - intros [Hl Hc]. destruct (Hc (Z.to_nat (max_frames t)) _ _ _ _ Hf Hok1') as [from Hs].
    exists from. rewrite Hl. cbn [Z.eqb orb].
    destruct (feed_pop (Z.to_nat (max_frames t)) (i_pop env) f) as [[|x batch] f1]; simpl in *; [done|].
    by rewrite app_nil_r.
Qed.

(** The thread between two iterations, with its feed; [L] is everything published by the
    end of the run. *)
Definition thread_inv (t : Tuning) (L : list Frame) (s : Egress) (f : F) (log : list Frame)
    (evs : list NetEvent) : Prop :=
  tuning_ s = t ∧ loop_inv (linger_us t = 0 ∧ contiguous_feed) (of_log L) s evs ∧
  ∃ pos, feed_at f log pos ∧ (have_seq_ s = true → next_seq_ s <= pos).

Lemma serve_inv env t L s f log evs st s' f' ev :
  thread_inv t L s f log evs → 0 <= client_fd_ s →
  fits 64 (i_gap_now env) → fits 64 (i_echo_now env) →
  let calls := if client_gone (i_gone_rc env) (i_gone_hup env) s then []
               else serve_calls env t f in
  pops_ok calls f log → (log ++ pops_added calls f) `prefix_of` L →
  serve env s f = Some (st, s', f', ev) →
  thread_inv t L s' f' (log ++ pops_added calls f) (evs ++ ev).
Proof.
  intros (Ht & Hinv & pos & Hf & Hnext) Hcl Hg He calls Hok HL Hs. unfold calls in *. clear calls.
  destruct (client_gone _ _ s) eqn:Eg.
  - unfold serve in Hs. rewrite Eg in Hs. destruct (drop_client s) as [s1 ev1] eqn:Ed.
    injection Hs as <- <- <- <-. destruct Hinv as [I1 _ I3 I4 (past & cur & I5 & _)].
    destruct (drop_client_inv _ _ s evs past cur I1 I3 I4 Hcl I5) as [D1 D2].
    rewrite Ed in D1, D2. simpl in *. rewrite app_nil_r.
    assert (tuning_ s1 = t ∧ have_seq_ s1 = have_seq_ s ∧ next_seq_ s1 = next_seq_ s) as (E1 & E2 & E3).
    { unfold drop_client in Ed. by destruct (client_fd_ s <? 0); injection Ed as <- _. }
    split; [done|]. split; [done|]. exists pos. by rewrite E2, E3.
  - destruct (serve_eq env s f Eg) as (s2 & Hside & Heq).
    rewrite Heq in Hs. clear Heq. rewrite Ht in Hs.
    pose proof (loop_inv_side _ _ _ _ _ Hside Hinv) as Hinv2. pose proof (li_tuning _ _ _ _ Hinv) as Hmf.
    rewrite Ht in Hmf.
    destruct (popped_spec env t f log pos ltac:(lia) Hf Hok)
      as (pos' & P1 & P2 & P8 & P3 & P4 & P5 & P6 & P7).
    pose proof (ss_tuning _ _ Hside) as T2. pose proof (ss_client _ _ Hside) as C2.
    pose proof (ss_have _ _ Hside) as H2. pose proof (ss_next _ _ Hside) as N2.
    destruct (feed_at_good _ _ _ Hf) as [_ Hpos].
    destruct (popped env t f) as [|x batch] eqn:Ep.
    + injection Hs as <- <- <- <-. rewrite app_nil_r. split; [congruence|]. split; [done|].
      exists pos'. split; [done|]. rewrite H2, N2. intros Hh. specialize (Hnext Hh). simpl in P4. lia.
    + destruct (send_batch env (x :: batch) s2) as [[s3 ev3]|] eqn:Esb; [|done].
      injection Hs as <- <- <- <-.
      destruct (send_batch_inv env _ (of_log L) (x :: batch) s2 evs s3 ev3 Hinv2) as (J1 & J2 & J3);
        try done; [lia| |by rewrite T2, Ht| |].
      { eapply Forall_impl; [exact P8|]. intros g. by apply of_log_prefix. }
      { rewrite H2, N2. eapply rising_weaken; [|exact P3]. destruct (have_seq_ s); [by apply Hnext|lia]. }
      split; [congruence|]. split; [done|]. exists pos'. split; [done|].
      unfold expects in J2. intros Hh. rewrite Hh in J2. injection J2 as ->.
      change (after 0 (x :: batch)) with (after pos (x :: batch)). unfold u64.
      apply Z.le_trans with (after pos (x :: batch)); [|lia]. apply Z.mod_le; [|pow_consts; lia].
      lia.
Qed.

Lemma wait_spec answers s b s1 ev :
  wait_for_client answers s = Some (b, s1, ev) →
  (s1 = s ∧ ev = [] ∧ (b = true → 0 <= client_fd_ s)) ∨
  (b = true ∧ client_fd_ s < 0 ∧ ∃ fd, 0 <= fd ∧ s1 = bump connects_ 1 (set_client fd true s) ∧ ev = [NConnect]).
Proof.
  revert s. induction answers as [|a answers IH]; intros s; cbn [wait_for_client];
    destruct (Z.ltb_spec (client_fd_ s) 0) as [Hlt|Hge]; simpl negb; cbv iota.
  - done.
  - intros [= <- <- <-]. by left.
  - destruct (w_rc a <? 0).
    { destruct (w_eintr a); [by apply IH|]. intros [= <- <- <-]. by left. }
    destruct ((w_rc a >? 0) && w_stop a); [intros [= <- <- <-]; by left|].
    destruct ((w_rc a >? 0) && w_listen a && (0 <=? w_fd a)) eqn:Eb; [|by apply IH].
    intros [= <- <- <-]. right. split; [done|]. split; [done|]. exists (w_fd a). zbool. done.
  - intros [= <- <- <-]. by left.
Qed.

Lemma wait_inv t L answers s f log evs b s1 ev :
  thread_inv t L s f log evs → wait_for_client answers s = Some (b, s1, ev) →
  thread_inv t L s1 f log (evs ++ ev) ∧ (b = true → 0 <= client_fd_ s1).
Proof.
  intros Hinv Hw. apply wait_spec in Hw as [(-> & -> & Hc)|(-> & Hneg & fd & Hfd & -> & ->)].
  { by rewrite app_nil_r. }
  split; [|done]. destruct Hinv as (Ht & [I1 I2 I3 I4 (past & cur & I5 & _ & Hcur)] & Hf). split; [done|]. split; [|done].
  rewrite (Hcur Hneg) in I5. constructor; try done. exists past, []. rewrite conn_bytes_snoc. split; [|done].
  destruct I5. constructor; rewrite ?ended_conns_snoc, ?app_nil_r, ?conn_bytes_snoc in *; try done. by left.
Qed.

Lemma run_iter_inv env t L s f log evs st s' f' ev :
  thread_inv t L s f log evs → fits 64 (i_gap_now env) → fits 64 (i_echo_now env) →
  pops_ok (iter_calls env s f) f log →
  (log ++ pops_added (iter_calls env s f) f) `prefix_of` L →
  run_iter env s f = Some (st, s', f', ev) →
  thread_inv t L s' f' (log ++ pops_added (iter_calls env s f) f) (evs ++ ev).
Proof.
  intros Hinv Hg He Hok HL Hr. unfold run_iter in Hr. unfold iter_calls in *.
  destruct (wait_for_client (i_wait env) s) as [[[b s1] ev1]|] eqn:Ew; [|done].
  destruct (wait_inv _ _ _ _ _ _ _ _ _ _ Hinv Ew) as [Hinv1 Hc1]. destruct b.
  - destruct Hinv1 as (T1 & L1 & Hf1). destruct (li_pending _ _ _ _ L1) as [Hp _]. rewrite Hp in Hr.
    destruct (serve env s1 f) as [[[[st2 s2] f2] ev2]|] eqn:Es; [|done].
    injection Hr as <- <- <- <-. rewrite app_assoc. rewrite T1 in *.
    eapply serve_inv; [by split_and!|by apply Hc1|done|done|done|done|exact Es].
  - injection Hr as <- <- <- <-. simpl. by rewrite app_nil_r.
Qed.

(** What the rest of the world does over a run: clocks are 64-bit and the producers
    publish what a feed accepts. *)
Fixpoint loop_ok (envs : list (IterEnv E)) (s : Egress) (f : F) (log : list Frame) : Prop :=
  match envs with
  | [] => True
  | env :: envs =>
      fits 64 (i_gap_now env) ∧ fits 64 (i_echo_now env) ∧ pops_ok (iter_calls env s f) f log ∧
      match run_iter env s f with
      | Some (Continue, s', f', _) =>
          loop_ok envs s' f' (log ++ pops_added (iter_calls env s f) f)
      | _ => True
      end
  end.

#[global] Instance loop_ok_dec `{!∀ e (f : F) log, Decision (feed_env_ok e f log)} envs s f log :
  Decision (loop_ok envs s f log).
Proof.
  revert s f log. induction envs as [|env envs IH]; intros s f log; simpl; [apply _|].
  destruct (run_iter env s f) as [[[[[] s1] f1] ev1]|]; apply _.
Defined.

(** Everything published by the end of a run. *)
Fixpoint loop_log (envs : list (IterEnv E)) (s : Egress) (f : F) (log : list Frame) : list Frame :=
  match envs with
  | [] => log
  | env :: envs =>
      let log := log ++ pops_added (iter_calls env s f) f in
      match run_iter env s f with
      | Some (Continue, s', f', _) => loop_log envs s' f' log
      | _ => log
      end
  end.

Lemma loop_log_prefix envs s f log : log `prefix_of` loop_log envs s f log.
Proof.
  revert s f log. induction envs as [|env envs IH]; intros s f log; [done|]. cbn [loop_log].
  transitivity (log ++ pops_added (iter_calls env s f) f); [by eexists|].
  destruct (run_iter env s f) as [[[[[] s1] f1] ev1]|]; done.
Qed.

Lemma run_loop_inv envs t L s f log evs st s' f' ev :
  thread_inv t L s f log evs → loop_ok envs s f log → loop_log envs s f log = L →
  run_loop envs s f = Some (st, s', f', ev) → thread_inv t L s' f' L (evs ++ ev).
Proof.
  revert s f log evs ev. induction envs as [|env envs IH]; intros s f log evs ev Hinv Hok HL Hr;
    cbn [run_loop loop_ok loop_log] in *.
  { injection Hr as <- <- <- <-. subst. by rewrite app_nil_r. }
  destruct Hok as (Hg & He & Hp & Hok).
  destruct (run_iter env s f) as [[[[[] s1] f1] ev1]|] eqn:Ei; [| |done].
  - destruct (run_loop envs s1 f1) as [[[[st2 s2] f2] ev2]|] eqn:Er; [|done].
    injection Hr as <- <- <- <-. rewrite app_assoc. eapply IH; [|exact Hok|done|exact Er].
    eapply run_iter_inv; try done. rewrite <- HL. apply loop_log_prefix.
  - injection Hr as <- <- <- <-. rewrite <- HL. eapply run_iter_inv; try done. by rewrite HL.
Qed.

Lemma start_inv t L f log pos :
  1 <= max_frames t <= kMaxBatch → feed_at f log pos → thread_inv t L (make_egress t) f log [].
Proof.
  intros Ht Hf. split; [done|]. split; [|by exists pos]. constructor; try done. exists [], []. split; [|done].
  constructor; try done. by left.
Qed.

(** Every connection of a run. *)
Lemma run_streamed envs t f log pos st s' f' ev :
  1 <= max_frames t <= kMaxBatch → feed_at f log pos → loop_ok envs (make_egress t) f log →
  run_loop envs (make_egress t) f = Some (st, s', f', ev) →
  Forall (streamed (linger_us t = 0 ∧ contiguous_feed) (of_log (loop_log envs (make_egress t) f log)) (max_frames t))
    (connections ev).
Proof.
  intros Ht Hf Hok Hr. set (L := loop_log envs (make_egress t) f log).
  destruct (run_loop_inv envs t L (make_egress t) f log [] st s' f' ev) as (<- & [_ _ _ _ (past & cur & I5 & _)] & _);
    [by apply (start_inv t L f log pos)|done|done|done|].
  by eapply carries_streamed.
Qed.
End Loop.

(** ** Properties *)

(** C10. A loss marker is exact. Before a batch whose first frame is beyond the one expected,
    [note_gap] puts exactly one marker, which names the first missing sequence number and
    how many are missing, so that the stream resumes at the batch; the reason is absence
    right after a reconnect and overrun otherwise, and only overruns are added to
    [frames_lost]. Without a hole nothing is inserted and no counter moves. *)
Theorem note_gap_exact front rest now s :
  let frames := front :: rest in
  let s' := note_gap frames now s in
  fits 64 (next_seq_ s) → fits 64 (f_seq front) →
  have_seq_ s' = true ∧ reconnected_ s' = false ∧ next_seq_ s' = u64 (after 0 frames) ∧
  if have_seq_ s && (f_seq front >? next_seq_ s) then
    ∃ g, outgoing_ s' = g :: frames ∧ is_gap g = true ∧ f_seq g = next_seq_ s ∧
         f_seq g + gap_count g = f_seq front ∧
         gap_reason g = (if reconnected_ s then kConsumerAbsent else kConsumerOverrun) ∧
         counters_ s' gaps_sent_ = u64 (counters_ s gaps_sent_ + 1) ∧
         counters_ s' frames_lost_
         = (if reconnected_ s then counters_ s frames_lost_
            else u64 (counters_ s frames_lost_ + (f_seq front - next_seq_ s)))
  else
    outgoing_ s' = frames ∧ counters_ s' gaps_sent_ = counters_ s gaps_sent_ ∧
    counters_ s' frames_lost_ = counters_ s frames_lost_.
Proof.
  intros frames s' Hn Hf.
  destruct (note_gap_fields frames now s) as (Ho & Hh & Hr & Hx & _); [done|].
  destruct (note_gap_counts frames now s) as [C1 C2]; [done|]. fold s' in Ho, Hh, Hr, Hx, C1, C2.
  split; [done|]. split; [done|]. split; [done|]. unfold gap_of, frames in Ho, C1, C2.
  fold frames in Ho. destruct (have_seq_ s && (f_seq front >? next_seq_ s)) eqn:E; [|done].
  zbool. unfold fits in *. set (g := make_gap _ _ _ _) in *.
  assert (gap_count g = f_seq front - next_seq_ s) as Hg.
  { unfold g. rewrite gap_count_make, u64_u64. apply u64_small. unfold fits. lia. }
  assert (gap_reason g = if reconnected_ s then kConsumerAbsent else kConsumerOverrun) as Hgr
    by by destruct (reconnected_ s).
  exists g. split; [exact Ho|]. split; [done|]. split; [done|]. rewrite Hg.
  split; [simpl; lia|]. split; [done|]. split; [done|]. rewrite C2, Hgr, Hg.
  by destruct (reconnected_ s).
Qed.


(** ** Witnesses *)

Lemma note_gap_exact_witness :
  let s := note_gap [tracked_frame 4] 0 (make_egress (mkTuning 256 0 0)) in
  have_seq_ s = true ∧
  ∃ g, outgoing_ (note_gap [tracked_frame 9] 1 s) = [g; tracked_frame 9] ∧ gap_count g = 4 ∧
       counters_ (note_gap [tracked_frame 9] 1 s) frames_lost_ = 4.
Proof.
  intros s. split; [done|].
  destruct (note_gap_exact (tracked_frame 9) [] 1 s) as (_ & _ & _ & g & H1 & _ & H3 & H4 & _ & _ & H7);
    [by vm_compute|by vm_compute|]. exists g. split; [exact H1|].
  rewrite H3 in H4. change (next_seq_ s) with 5 in H4. change (f_seq (tracked_frame 9)) with 9 in H4.
  split; [lia|exact H7].
Defined.

(** A client connects, two frames are popped, one is lost to a full queue, one more. *)
Definition stamp (i : Z) : Frame := set_seq i (demo_frame i).

Definition demo_wait : list WaitAnswer := [mkWait 1 false false true 7].

Definition demo_iter (wait : list WaitAnswer) (ops : list (BoundedQueue.QueueOp Frame))
  : IterEnv QueueFeed.Env :=
  mkIter wait [] 0 false [] 0 (QueueFeed.mkEnv ops []) 0 [] 100 200
    [mkSend 50 EOther 0 false false; mkSend (-1) EAgain 1 false false; mkSend 9999 EOther 0 false false].

Definition demo_envs : list (IterEnv QueueFeed.Env) :=
  [demo_iter demo_wait [BoundedQueue.OpPush (map stamp [0; 1])];
   demo_iter [] [BoundedQueue.OpPush (map stamp [2; 3; 4])]].

Definition demo_tuning : Tuning := mkTuning 256 0 5.
Definition demo_queue : QueueFeed.t := BoundedQueue.make_queue 2.

Lemma demo_queue_at : feed_at demo_queue [] 0.
Proof.
  split_and!; [|by split; [constructor|]|done|by exists []].
  by apply BoundedQueue.make_queue_wf.
Qed.

Lemma demo_loop_ok : loop_ok demo_envs (make_egress demo_tuning) demo_queue [].
Proof. apply (bool_decide_unpack _). by vm_compute. Qed.

Lemma demo_tuning_ok : 1 <= max_frames demo_tuning <= kMaxBatch.
Proof. by vm_compute. Qed.

(** The client of [demo_envs] vanishes in the middle of a third batch and comes back. *)
Definition cut_envs : list (IterEnv QueueFeed.Env) :=
  demo_envs ++
  [mkIter [] [] 0 false [] 0 (QueueFeed.mkEnv [BoundedQueue.OpPush (map stamp [5; 6])] []) 0 [] 300 400
     [mkSend 60 EOther 0 false false; mkSend (-1) EOther 0 false false];
   demo_iter demo_wait [BoundedQueue.OpPush (map stamp [7; 8; 9])]].

Lemma cut_loop_ok : loop_ok cut_envs (make_egress demo_tuning) demo_queue [].
Proof. apply (bool_decide_unpack _). by vm_compute. Qed.

