(* ===== verification/EgressEcho.v ===== *)
(** * EgressEcho: accounting of the round-trip probes (src/src/egress.cpp)

    Every probe an egress ever sent is returned, written off, abandoned by a
    disconnect, or the one still outstanding, over any run of the thread and whatever
    the consumer sends back. *)

From S2P Require Import Prelude Frame Wire Samples Feed Egress EgressStream.

(** The times the consumer saw its connection closed. *)
Definition is_close (e : NetEvent) : bool := match e with NClose => true | _ => false end.

Definition closes (ev : list NetEvent) : Z := Z.of_nat (length (List.filter is_close ev)).

Lemma closes_app a b : closes (a ++ b) = closes a + closes b.
Proof. unfold closes. rewrite List.filter_app, length_app. lia. Qed.

Definition outstanding (s : Egress) : Z := if echo_outstanding_ s then 1 else 0.

(** The books after [turns] iterations and [drops] closed connections: probes returned,
    lost, given up with their connection, and the one outstanding, at most one per
    iteration; at most one is given up per closed connection. *)
Record echo_inv (turns drops : Z) (s : Egress) : Prop := {
  ei_balance : ∃ returned lost abandoned,
    0 <= returned ∧ 0 <= lost ∧ 0 <= abandoned <= drops ∧
    returned + lost + abandoned + outstanding s <= turns ∧
    counters_ s echoes_returned_ = u64 returned ∧ counters_ s echoes_lost_ = u64 lost ∧
    counters_ s echoes_sent_ = u64 (returned + lost + abandoned + outstanding s);
  ei_drops : counters_ s disconnects_ = u64 drops;
  ei_nonce : echo_nonce_ s = counters_ s echoes_sent_;
  ei_samples : total_ (rtt_ s) = counters_ s echoes_returned_
}.

(** Everything the accounting depends on. *)
Record same_echo (s s' : Egress) : Prop := {
  se_sent : counters_ s' echoes_sent_ = counters_ s echoes_sent_;
  se_returned : counters_ s' echoes_returned_ = counters_ s echoes_returned_;
  se_lost : counters_ s' echoes_lost_ = counters_ s echoes_lost_;
  se_drops : counters_ s' disconnects_ = counters_ s disconnects_;
  se_out : echo_outstanding_ s' = echo_outstanding_ s;
  se_nonce : echo_nonce_ s' = echo_nonce_ s;
  se_rtt : rtt_ s' = rtt_ s
}.

#[export] Instance same_echo_preorder : PreOrder same_echo.
Proof. split; [by constructor|]. intros s1 s2 s3 [] []. constructor; congruence. Qed.

Lemma echo_inv_same n d s s' : same_echo s s' → echo_inv n d s → echo_inv n d s'.
Proof.
  intros [H1 H2 H3 H4 H5 H6 H7] [(r & l & a & Hb) Hd Hn Hs]. constructor; [|congruence..].
  exists r, l, a. unfold outstanding in *. by rewrite H1, H2, H3, H5.
Qed.

Lemma echo_inv_later n n' d s : n <= n' → echo_inv n d s → echo_inv n' d s.
Proof.
  intros Hn [(r & l & a & Hr & Hl & Ha & Hb & Hc) Hd Hno Hs]. constructor; try done.
  exists r, l, a. split_and!; try done; try apply Ha; try apply Hc; lia.
Qed.

Lemma make_egress_echo t : echo_inv 0 0 (make_egress t).
Proof. constructor; [by exists 0, 0, 0|done..]. Qed.

(** Dropping the client abandons the outstanding probe, if there is one. *)
Lemma drop_client_echo n d s :
  echo_inv n d s → echo_inv n (d + closes (drop_client s).2) (drop_client s).1.
Proof.
  intros Hinv. unfold drop_client. destruct (client_fd_ s <? 0); [by rewrite Z.add_0_r|].
  destruct Hinv as [(r & l & a & Hr & Hl & Ha & Hb & Er & El & Es) Hd Hn Hs].
  change (closes [NClose]) with 1. constructor; simpl; [|by rewrite Hd, u64_add_l|done|done].
  exists r, l, (a + outstanding s).
  match goal with |- context [r + l + (a + outstanding s) + outstanding ?x] => change (outstanding x) with 0 end.
  change (closes [NClose]) with 1. rewrite Es.
  assert (0 <= outstanding s <= 1) by (unfold outstanding; destruct (echo_outstanding_ s); lia).
  split_and!; try done; try lia. f_equal. lia.
Qed.

Lemma maybe_send_echo_inv now n d s : echo_inv n d s → echo_inv (n + 1) d (maybe_send_echo now s).
Proof.
  intros Hinv. unfold maybe_send_echo.
  destruct (_ || _); [by apply (echo_inv_later n); [lia|]|].
  destruct (now <? _); [by apply (echo_inv_later n); [lia|]|].
  destruct Hinv as [(r & l & a & Hr & Hl & Ha & Hb & Er & El & Es) Hd Hn Hs].
  unfold outstanding in *.
  destruct (echo_outstanding_ s) eqn:Eo; constructor; simpl; try done; try (by rewrite ?Hn).
  - exists r, (l + 1), a. unfold outstanding. simpl. rewrite Es, El, !u64_add_l. split_and!; try done; try lia; f_equal; lia.
  - exists r, l, a. unfold outstanding. simpl. rewrite Es, El, !u64_add_l. split_and!; try done; try lia; f_equal; lia.
Qed.

Lemma take_reply_echo now n d s rec : echo_inv n d s → echo_inv n d (take_reply now s rec).
Proof.
  intros Hinv. unfold take_reply. destruct (decode_frame rec frame_zero) as [[] f]; try done.
  destruct (negb (is_echo f) || negb (echo_outstanding_ s) || _) eqn:E; [done|].
  apply orb_false_iff in E as [E _]. apply orb_false_iff in E as [_ Eo].
  apply negb_false_iff in Eo. destruct Hinv as [(r & l & a & Hr & Hl & Ha & Hb & Er & El & Es) Hd Hn Hs].
  unfold outstanding in *. rewrite Eo in *. constructor; simpl; try done.
  - exists (r + 1), l, a. unfold outstanding. simpl. rewrite Es, Er, !u64_add_l.
    split_and!; try done; try lia; f_equal; lia.
  - unfold add. destruct (_ <? _); simpl; [by rewrite Hs|]. destruct (_ >=? _); simpl; by rewrite Hs.
Qed.

Lemma reply_loop_echo fuel now off n d s : echo_inv n d s → echo_inv n d (reply_loop fuel now off s).1.
Proof.
  revert off s. induction fuel as [|fuel IH]; intros off s H; cbn [reply_loop]; [done|].
  destruct (_ <? _); [done|].
  destruct (decode_header _ _) as [[] h];
    try (apply (echo_inv_same n d s); [by constructor|done]).
  destruct (_ <? _); [done|]. apply IH. generalize (reply_records (reply_buf_ s) off (h_count h)) as l.
  intros l. revert s H. induction l as [|x l IHl]; intros s H; [done|]. simpl.
  apply IHl. by apply take_reply_echo.
Qed.

Lemma drain_echo chunks now n d s : echo_inv n d s → echo_inv n d (drain_replies chunks now s).
Proof.
  intros H. unfold drain_replies. destruct (client_fd_ s <? 0); [done|].
  assert (echo_inv n d (fold_left take_chunk chunks s)) as H1.
  { revert s H. induction chunks as [|c l IH]; intros s H; [done|]. simpl. apply IH.
    apply (echo_inv_same n d s); [by constructor|done]. }
  pose proof (reply_loop_echo (S (length (reply_buf_ (fold_left take_chunk chunks s)))) now 0 _ _ _ H1) as H2.
  destruct (reply_loop _ _ _ _) as [s2 [off|]]; simpl in H2; [|done].
  destruct (0 <? off)%nat; [|done]. apply (echo_inv_same n d s2); [by constructor|done].
Qed.

Lemma flush_same_echo answers s ok s' bytes :
  flush_pending answers s = Some (ok, s', bytes) → same_echo s s'.
Proof.
  revert s ok bytes. induction answers as [|a answers IH]; intros s ok bytes;
    cbn [flush_pending]; destruct (negb _); try done;
    try (intros [= <- <- <-]; by constructor).
  destruct (_ >? 0).
  - match goal with |- context [flush_pending answers ?x] => assert (same_echo s x) as Hx;
      [|destruct (flush_pending answers x) as [[[ok1 s1] more]|] eqn:E; [|done]] end.
    { case_match; by constructor. }
    intros [= <- <- <-]. etransitivity; [exact Hx|]. by eapply IH.
  - destruct (_ <? 0); [|intros [= <- <- <-]; reflexivity].
    destruct (sa_errno a); [|by apply IH|intros [= <- <- <-]; reflexivity].
    destruct (_ && negb _); [intros [= <- <- <-]; by constructor|].
    destruct (_ && sa_stop a); [intros [= <- <- <-]; by constructor|].
    intros E. etransitivity; [|by eapply IH]. by constructor.
Qed.

Lemma flush_or_drop_echo answers n d s ok s' ev :
  echo_inv n d s → flush_or_drop answers s = Some (ok, s', ev) → echo_inv n (d + closes ev) s'.
Proof.
  intros Hinv H. unfold flush_or_drop in H.
  destruct (flush_pending answers s) as [[[[] s1] bytes]|] eqn:E; [| |done];
    apply flush_same_echo in E; pose proof (echo_inv_same _ _ _ _ E Hinv) as Hinv1.
  - injection H as <- <- <-. by rewrite Z.add_0_r.
  - pose proof (drop_client_echo n d s1 Hinv1) as Hd. destruct (drop_client s1). by injection H as <- <- <-.
Qed.

Lemma note_gap_same_echo frames now s : same_echo s (note_gap frames now s).
Proof.
  unfold note_gap. destruct frames as [|f l]; [reflexivity|].
  repeat case_match; by constructor.
Qed.

Section Loop.
Context {F E : Type} `{!ConsumerFeed F E}.

Lemma send_batch_echo (env : IterEnv E) batch n d s s' ev :
  echo_inv n d s → send_batch env batch s = Some (s', ev) → echo_inv (n + 1) (d + closes ev) s'.
Proof.
  intros Hinv H. unfold send_batch in H.
  pose proof (echo_inv_same _ _ _ _ (note_gap_same_echo batch (i_gap_now env) s) Hinv) as H1.
  pose proof (maybe_send_echo_inv (i_echo_now env) _ _ _ H1) as H2.
  destruct (flush_or_drop _ _) as [[[ok s1] ev1]|] eqn:Ef; [|done].
  apply (flush_or_drop_echo _ (n + 1) d) in Ef; [|by eapply echo_inv_same; [|exact H2]; constructor].
  destruct ok; injection H as <- <-; [|done]. apply (echo_inv_same _ _ s1); [by constructor|done].
Qed.

Lemma serve_echo env n d s (f : F) st s' f' ev :
  echo_inv n d s → serve env s f = Some (st, s', f', ev) → echo_inv (n + 1) (d + closes ev) s'.
Proof.
  intros Hinv H. unfold serve in H. destruct (client_gone _ _ s).
  { pose proof (drop_client_echo n d s Hinv) as Hd. destruct (drop_client s). injection H as <- <- <- <-.
    by apply (echo_inv_later n); [lia|]. }
  pose proof (drain_echo (i_chunks env) (i_reply_now env) n d s Hinv) as H1.
  destruct (feed_pop _ _ f) as [batch f1].
  match goal with H : context [match batch with [] => ?a | _ => _ end] |- _ =>
    set (r := match batch with [] => a | _ => coalesce (i_linger_now env) (i_linger env) batch
                (drain_replies (i_chunks env) (i_reply_now env) s) f1 end) in H end.
  assert (echo_inv n d r.1.2) as H2.
  { unfold r. destruct batch; [done|]. unfold coalesce. destruct (_ || _); [done|].
    destruct (linger _ _ _ _ _) as [[b []] f2]; [|done]. simpl.
    eapply echo_inv_same; [|exact H1]. by constructor. }
  destruct r as [[b s2] f2]. simpl in H2. destruct b.
  { injection H as <- <- <- <-. rewrite Z.add_0_r. by apply (echo_inv_later n); [lia|]. }
  destruct (send_batch env _ s2) as [[s3 ev3]|] eqn:Es; [|done]. injection H as <- <- <- <-.
  by eapply send_batch_echo.
Qed.

Lemma run_iter_echo env n d s (f : F) st s' f' ev :
  echo_inv n d s → run_iter env s f = Some (st, s', f', ev) → echo_inv (n + 1) (d + closes ev) s'.
Proof.
  intros Hinv H. unfold run_iter in H.
  destruct (wait_for_client (i_wait env) s) as [[[b s1] ev1]|] eqn:Ew; [|done].
  assert (echo_inv n d s1 ∧ closes ev1 = 0) as [H1 Hc].
  { apply wait_spec in Ew as [(-> & -> & _)|(_ & _ & fd & _ & -> & ->)]; [done|]. split; [|done].
    apply (echo_inv_same _ _ s); [by constructor|done]. }
  destruct b.
  2:{ injection H as <- <- <- <-. rewrite Hc, Z.add_0_r. by apply (echo_inv_later n); [lia|]. }
  destruct (pending_ s1).
  - destruct (serve env s1 f) as [[[[st2 s2] f2] ev2]|] eqn:Es; [|done].
    injection H as <- <- <- <-. rewrite closes_app, Hc. by eapply serve_echo.
  - destruct (flush_or_drop _ s1) as [[[[] s2] ev2]|] eqn:Ef; [| |done].
    + apply (flush_or_drop_echo _ n d) in Ef; [|done].
      destruct (serve env s2 f) as [[[[st3 s3] f3] ev3]|] eqn:Es; [|done].
      injection H as <- <- <- <-. apply (serve_echo env _ _ _ _ _ _ _ _ Ef) in Es.
      rewrite !closes_app, Hc. by rewrite Z.add_0_l, Z.add_assoc.
    + injection H as <- <- <- <-. rewrite !closes_app, Hc. apply (echo_inv_later n); [lia|].
      by eapply flush_or_drop_echo.
Qed.

Lemma run_loop_echo envs n d s (f : F) st s' f' ev :
  echo_inv n d s → run_loop envs s f = Some (st, s', f', ev) →
  echo_inv (n + Z.of_nat (length envs)) (d + closes ev) s'.
Proof.
  revert n d s f ev. induction envs as [|env envs IH]; intros n d s f ev Hinv H; cbn [run_loop length] in *.
  { injection H as <- <- <- <-. by rewrite !Z.add_0_r. }
  destruct (run_iter env s f) as [[[[[] s1] f1] ev1]|] eqn:Ei; [| |done];
    apply (run_iter_echo env n d) in Ei; try done.
  - destruct (run_loop envs s1 f1) as [[[[st2 s2] f2] ev2]|] eqn:Er; [|done].
    injection H as <- <- <- <-. rewrite closes_app, Z.add_assoc.
    replace (n + Z.of_nat (S (length envs))) with (n + 1 + Z.of_nat (length envs)) by lia. by eapply IH.
  - injection H as <- <- <- <-. eapply echo_inv_later; [|exact Ei]. lia.
Qed.
End Loop.

(** ** Properties *)

(** C26. Probe accounting. Over any run of the thread of fewer than 2^64 iterations on any
    feed, with any replies (late, duplicated, corrupt or foreign) and any disconnections,
    every probe sent has exactly one fate: [echoes_sent], which also numbers the probes, is
    [echoes_returned] plus [echoes_lost] plus the probes given up when a client was dropped
    plus the one outstanding, without wrap-around; at most one is given up for each time
    the consumer saw its connection closed, and [disconnects] counts those times; at most
    one probe is sent per iteration; and exactly one round-trip sample was recorded per
    returned probe. *)
Theorem echo_accounting {F E} `{!ConsumerFeed F E} (envs : list (IterEnv E)) t (f : F) st s' f' ev :
  Z.of_nat (length envs) < 2 ^ 64 →
  run_loop envs (make_egress t) f = Some (st, s', f', ev) →
  (∃ abandoned, 0 <= abandoned <= closes ev ∧
     counters_ s' echoes_sent_
     = counters_ s' echoes_returned_ + counters_ s' echoes_lost_ + abandoned + outstanding s') ∧
  counters_ s' disconnects_ = u64 (closes ev) ∧
  echo_nonce_ s' = counters_ s' echoes_sent_ ∧
  counters_ s' echoes_sent_ <= Z.of_nat (length envs) ∧
  total_ (rtt_ s') = counters_ s' echoes_returned_.
Proof.
  intros Hn H. destruct (run_loop_echo _ _ _ _ _ _ _ _ _ (make_egress_echo t) H)
    as [(r & l & a & Hr & Hl & Ha & Hb & Er & El & Es) Hd Hno Hs].
  assert (0 <= outstanding s' <= 1) by (unfold outstanding; destruct (echo_outstanding_ s'); lia).
  rewrite u64_small in Er, El, Es by (unfold fits; lia).
  split_and!; try done; [|lia]. exists a. split; [done|]. lia.
Qed.

(** ** Witnesses *)

(** One probe sent on each of two connections; the first is given up with its connection. *)
Definition echo_envs : list (IterEnv QueueFeed.Env) :=
  [demo_iter demo_wait [BoundedQueue.OpPush [stamp 0]];
   mkIter [] [] 1 true [] 0 (QueueFeed.mkEnv [] []) 0 [] 0 0 [];
   mkIter demo_wait [] 0 false [] 0 (QueueFeed.mkEnv [BoundedQueue.OpPush [stamp 1]] []) 0 [] 100 100000000000
     [mkSend 100000 EOther 0 false false]].

Lemma echo_demo :
  match run_loop echo_envs (make_egress demo_tuning) demo_queue with
  | Some (_, s, _, ev) => counters_ s echoes_sent_ = 2 ∧ echo_outstanding_ s = true ∧ closes ev = 1
  | None => False
  end.
Proof. vm_compute. split_and!; reflexivity. Qed.

Lemma echo_accounting_witness :
  ∃ st s' f' ev, run_loop echo_envs (make_egress demo_tuning) demo_queue = Some (st, s', f', ev) ∧
    counters_ s' echoes_sent_ = 2 ∧ counters_ s' disconnects_ = 1 ∧
    ∃ abandoned, 0 <= abandoned <= 1 ∧
      2 = counters_ s' echoes_returned_ + counters_ s' echoes_lost_ + abandoned + 1.
Proof.
  pose proof echo_demo as Hs.
  pose proof (λ st s' f' ev, echo_accounting echo_envs demo_tuning demo_queue st s' f' ev
                               ltac:(vm_compute; reflexivity)) as H.
  destruct (run_loop echo_envs (make_egress demo_tuning) demo_queue) as [[[[st s'] f'] ev]|];
    [|contradiction].
  destruct (H st s' f' ev eq_refl) as ((a & Ha & H1) & H2 & _). destruct Hs as (E1 & E2 & E3).
  unfold outstanding in H1. rewrite E1, E2 in H1. rewrite E3 in Ha, H2.
  exists st, s', f', ev. split; [exact eq_refl|]. split; [exact E1|]. split; [exact H2|]. exists a. split; [exact Ha|exact H1].
Defined.
