(* ===== verification/FrameStream.v ===== *)
(** * FrameStream: the consumer's incremental parser
      (src/src/frame_stream.hpp, src/src/frame_stream.cpp)

    [fill] and [read_batch] with their partial state, reading from a socket whose
    answers (how many bytes, would-block, interrupted, closed) are arguments, and
    [send_back]. [parse_one] is the reference parser on a whole byte string; the
    incremental one is proved to compute it whatever the segmentation. *)

From S2P Require Import Prelude Frame Wire Samples Egress.

Module Status.
Inductive t := kOk | kTimeout | kClosed | kProtocolError.
End Status.

Inductive StreamState := kHeader | kPayload.

Record FrameStream := mkStream {
  state_ : StreamState;
  buf_ : list Z;
  got_ : Z;
  need_ : Z;
  records_ : Z;
  last_error_ : DecodeError;
  echo_drops_ : Z
}.

Definition make_stream : FrameStream :=
  mkStream kHeader (replicate kHeaderSize 0) 0 (Z.of_nat kHeaderSize) 0 kOk 0.

(** One [read] of the socket, and the wait that follows when it would block. *)
Inductive ReadAnswer :=
  | RdSome (n : Z)               (* up to [n] of the bytes in flight *)
  | RdEof
  | RdIntr
  | RdAgainReady                 (* EAGAIN, then poll reports data or is interrupted *)
  | RdAgainTimeout               (* EAGAIN, and the deadline passes *)
  | RdFail.                      (* any other error, or poll fails *)

Definition set_buf (buf : list Z) (got : Z) (s : FrameStream) : FrameStream :=
  mkStream (state_ s) buf got (need_ s) (records_ s) (last_error_ s) (echo_drops_ s).

(** What [read] puts at [buf_ + got_]: at most what is asked for and what is there. *)
Definition read_size (n : Z) (need : Z) (net : list Z) (s : FrameStream) : nat :=
  Z.to_nat (Z.min n (Z.min (need - got_ s) (Z.of_nat (length net)))).

(** The loop of [fill]; [net] is the rest of the byte stream. Returns what is left of it
    and of the answers; [None] when the answers end first. *)
Fixpoint fill_loop (need : Z) (answers : list ReadAnswer) (s : FrameStream) (net : list Z)
  : option (Status.t * FrameStream * list Z * list ReadAnswer) :=
  if negb (got_ s <? need) then Some (Status.kOk, s, net, answers)
  else
    match answers with
    | [] => None
    | RdSome n :: answers =>
        let k := read_size n need net s in
        fill_loop need answers
          (set_buf (store_bytes (buf_ s) (Z.to_nat (got_ s)) (take k net))
                   (u64 (got_ s + Z.of_nat k)) s) (drop k net)
    | RdEof :: answers => Some (Status.kClosed, s, net, answers)
    | RdIntr :: answers => fill_loop need answers s net
    | RdAgainReady :: answers => fill_loop need answers s net
    | RdAgainTimeout :: answers => Some (Status.kTimeout, s, net, answers)
    | RdFail :: answers => Some (Status.kClosed, s, net, answers)
    end.

Definition fill (need : Z) (answers : list ReadAnswer) (s : FrameStream) (net : list Z)
  : option (Status.t * FrameStream * list Z * list ReadAnswer) :=
  let s := if Z.of_nat (length (buf_ s)) <? need
           then set_buf (resize (Z.to_nat need) (buf_ s)) (got_ s) s else s in
  fill_loop need answers s net.

(** The record loop of [read_batch]: the first undecodable record ends it. *)
Fixpoint decode_records (fuel : nat) (i : nat) (buf : list Z) : DecodeError * list Frame :=
  match fuel with
  | O => (kOk, [])
  | S fuel =>
      match decode_frame (slice (i * kRecordSize) kRecordSize buf) frame_zero with
      | (kOk, f) => let '(e, fs) := decode_records fuel (S i) buf in (e, f :: fs)
      | (e, _) => (e, [])
      end
  end.

Definition to_header (e : DecodeError) (s : FrameStream) : FrameStream :=
  mkStream kHeader (buf_ s) 0 (Z.of_nat kHeaderSize) (records_ s) e (echo_drops_ s).

(** The part of [read_batch] after the header. *)
Definition read_payload (answers : list ReadAnswer) (s : FrameStream) (net : list Z)
  : option (Status.t * list Frame * FrameStream * list Z) :=
  match fill (need_ s) answers s net with
  | None => None
  | Some (Status.kOk, s, net, _) =>
      match decode_records (Z.to_nat (records_ s)) 0 (buf_ s) with
      | (kOk, out) =>
          let e := if records_ s =? 0 then last_error_ s else kOk in
          Some (Status.kOk, out, to_header e s, net)
      | (e, out) => Some (Status.kProtocolError, out, to_header e s, net)
      end
  | Some (st, s, net, _) => Some (st, [], s, net)
  end.

Definition read_batch (answers : list ReadAnswer) (s : FrameStream) (net : list Z)
  : option (Status.t * list Frame * FrameStream * list Z) :=
  match state_ s with
  | kPayload => read_payload answers s net
  | kHeader =>
      match fill (Z.of_nat kHeaderSize) answers s net with
      | None => None
      | Some (Status.kOk, s, net, answers) =>
          match decode_header (take kHeaderSize (buf_ s)) header_zero with
          | (kOk, header) =>
              let need := h_payload_len header in
              if need =? 0 then
                Some (Status.kOk, [],
                      mkStream kHeader (buf_ s) 0 (Z.of_nat kHeaderSize) (h_count header) kOk
                        (echo_drops_ s), net)
              else
                read_payload answers
                  (mkStream kPayload (buf_ s) 0 need (h_count header) kOk (echo_drops_ s)) net
          | (e, _) =>
              Some (Status.kProtocolError, [],
                    mkStream (state_ s) (buf_ s) (got_ s) (need_ s) (records_ s) e (echo_drops_ s), net)
          end
      | Some (st, s, net, _) => Some (st, [], s, net)
      end
  end.

(** [send_back]: the bytes the socket took, and whether all of them went. [send] never
    takes more than it is offered. *)
Fixpoint send_loop (msg : list Z) (answers : list SendAnswer) : option (bool * list Z) :=
  match msg with
  | [] => Some (true, [])
  | _ =>
      match answers with
      | [] => None
      | a :: answers =>
          if sa_n a >? 0 then
            let k := Nat.min (Z.to_nat (sa_n a)) (length msg) in
            match send_loop (drop k msg) answers with
            | Some (ok, bytes) => Some (ok, take k msg ++ bytes)
            | None => None
            end
          else if sa_n a <? 0 then
            match sa_errno a with
            | EIntr => send_loop msg answers
            | _ => Some (false, [])
            end
          else Some (false, [])
      end
  end.

Definition echo_message (f : Frame) : list Z :=
  encode_header 1 (replicate kHeaderSize 0) ++ encode_frame f (replicate kRecordSize 0).

Definition send_back (f : Frame) (answers : list SendAnswer) (s : FrameStream)
  : option (bool * list Z * FrameStream) :=
  match send_loop (echo_message f) answers with
  | None => None
  | Some (true, bytes) => Some (true, bytes, s)
  | Some (false, bytes) =>
      Some (false, bytes,
            mkStream (state_ s) (buf_ s) (got_ s) (need_ s) (records_ s) (last_error_ s)
              (u64 (echo_drops_ s + 1)))
  end.

(** ** The reference parser *)

Inductive Parsed :=
  | NeedMore
  | Bad (e : DecodeError)
  | Batch (frames : list Frame) (rest : list Z).

Definition parse_one (bytes : list Z) : Parsed :=
  if (length bytes <? kHeaderSize)%nat then NeedMore
  else
    match decode_header (take kHeaderSize bytes) header_zero with
    | (kOk, h) =>
        let payload := drop kHeaderSize bytes in
        let len := Z.to_nat (h_payload_len h) in
        if (length payload <? len)%nat then NeedMore
        else
          match decode_records (Z.to_nat (h_count h)) 0 (take len payload) with
          | (kOk, fs) => Batch fs (drop len payload)
          | (e, _) => Bad e
          end
    | (e, _) => Bad e
    end.

(** ** Lemmas *)

(** The bytes already taken from the socket and not yet part of a returned batch. *)
Definition held (s : FrameStream) : list Z :=
  match state_ s with
  | kHeader => take (Z.to_nat (got_ s)) (buf_ s)
  | kPayload => header_layout (records_ s) ++ take (Z.to_nat (got_ s)) (buf_ s)
  end.

Record stream_wf (s : FrameStream) : Prop := {
  sw_got : 0 <= got_ s;
  sw_buf : Z.of_nat (length (buf_ s)) < 2 ^ 32;
  sw_state : match state_ s with
             | kHeader => got_ s <= Z.of_nat kHeaderSize <= Z.of_nat (length (buf_ s))
             | kPayload => got_ s <= need_ s ∧ got_ s <= Z.of_nat (length (buf_ s)) ∧
                           need_ s = records_ s * 40 ∧ 1 <= records_ s <= kMaxCount
             end
}.

(** Two states that differ only in the receive buffer. *)
Definition same_stream (s s' : FrameStream) : Prop :=
  state_ s' = state_ s ∧ need_ s' = need_ s ∧ records_ s' = records_ s ∧
  last_error_ s' = last_error_ s ∧ echo_drops_ s' = echo_drops_ s.

Lemma read_step_bytes k buf got net :
  (got + k <= length buf)%nat → (k <= length net)%nat →
  take (got + k) (store_bytes buf got (take k net)) = take got buf ++ take k net.
Proof.
  intros H1 H2. rewrite store_bytes_spec by (rewrite length_take; lia).
  rewrite length_take, Nat.min_l by done. rewrite app_assoc, take_app_length'; [done|].
  rewrite length_app, !length_take. lia.
Qed.

Lemma fill_loop_spec need answers s net st s' net' ans' :
  0 <= got_ s <= need → need <= Z.of_nat (length (buf_ s)) → need < 2 ^ 32 →
  fill_loop need answers s net = Some (st, s', net', ans') →
  same_stream s s' ∧ length (buf_ s') = length (buf_ s) ∧ 0 <= got_ s' <= need ∧
  take (Z.to_nat (got_ s')) (buf_ s') ++ net' = take (Z.to_nat (got_ s)) (buf_ s) ++ net ∧
  (st = Status.kOk ↔ got_ s' = need) ∧ st ≠ Status.kProtocolError.
Proof.
  revert s net. induction answers as [|a answers IH]; intros s net Hg Hn Hb; cbn [fill_loop];
    destruct (Z.ltb_spec (got_ s) need) as [Hlt|Hge]; simpl negb; cbv iota.
  - done.
  - intros [= <- <- <- <-]. split_and!; try done; try lia. split; intros; [lia|done].
  - destruct a as [n| | | | |]; try (by apply IH);
      try (intros [= <- <- <- <-]; split_and!; try done; try lia; split; intros; [done|lia]).
    set (k := read_size n need net s). intros H.
    assert (Z.of_nat k <= need - got_ s ∧ (k <= length net)%nat) as [Hk1 Hk2]
      by (unfold k, read_size; lia).
    apply IH in H.
    + destruct H as (H1 & H2 & H3 & H4 & H5 & H6). simpl in *.
      rewrite length_store_bytes in H2. split_and!; try done; try lia.
      rewrite H4. rewrite u64_small by (unfold fits; pow_consts; lia).
      rewrite Z2Nat.inj_add, Nat2Z.id by lia.
      rewrite read_step_bytes by lia. by rewrite <- app_assoc, take_drop.
    + simpl. rewrite u64_small by (unfold fits; pow_consts; lia). lia.
    + simpl. by rewrite length_store_bytes.
    + done.
  - intros [= <- <- <- <-]. split_and!; try done; try lia. split; intros; [lia|done].
Qed.

Lemma fill_spec need answers s net st s' net' ans' :
  0 <= got_ s <= need → got_ s <= Z.of_nat (length (buf_ s)) → need < 2 ^ 32 →
  Z.of_nat (length (buf_ s)) < 2 ^ 32 →
  fill need answers s net = Some (st, s', net', ans') →
  same_stream s s' ∧ need <= Z.of_nat (length (buf_ s')) < 2 ^ 32 ∧ 0 <= got_ s' <= need ∧
  take (Z.to_nat (got_ s')) (buf_ s') ++ net' = take (Z.to_nat (got_ s)) (buf_ s) ++ net ∧
  (st = Status.kOk ↔ got_ s' = need) ∧ st ≠ Status.kProtocolError.
Proof.
  intros H1 H2 H3 H4 H. unfold fill in H.
  destruct (Z.ltb_spec (Z.of_nat (length (buf_ s))) need) as [Hlt|Hge].
  - apply fill_loop_spec in H; simpl in *; [|done|rewrite length_resize; lia|done].
    destruct H as (K1 & K2 & K3 & K4 & K5 & K6). rewrite length_resize in K2.
    split_and!; try done; try lia. rewrite K4. f_equal. unfold resize.
    rewrite (take_ge (buf_ s)) by lia. by rewrite take_app_le by lia.
  - apply fill_loop_spec in H; [|done|done|done].
    destruct H as (K1 & K2 & K3 & K4 & K5 & K6). split_and!; try done; lia.
Qed.

Lemma decode_records_take n i buf :
  decode_records n i (take ((i + n) * kRecordSize) buf) = decode_records n i buf.
Proof.
  revert i. induction n as [|n IH]; intros i; [done|]. cbn [decode_records].
  assert (slice (i * kRecordSize) kRecordSize (take ((i + S n) * kRecordSize) buf)
          = slice (i * kRecordSize) kRecordSize buf) as ->.
  { unfold slice. replace ((i + S n) * kRecordSize)%nat
      with (i * kRecordSize + S n * kRecordSize)%nat by lia.
    rewrite take_drop_commute, take_take, Nat.min_l by (unfold kRecordSize; lia).
    by rewrite take_drop_commute. }
  replace (i + S n)%nat with (S i + n)%nat by lia. by rewrite IH.
Qed.

(** Decoding a batch's records gives the batch back. *)
Lemma decode_records_layout frames pre i :
  Forall frame_acceptable frames → length pre = (i * kRecordSize)%nat →
  decode_records (length frames) i (pre ++ concat (map record_layout frames)) = (kOk, frames).
Proof.
  intros H. revert pre i. induction H as [|f l Hf _ IH]; intros pre i Hpre; [done|].
  assert (length (record_layout f) = 40%nat) as Hlen by (apply record_layout_length; apply Hf).
  cbn [decode_records length map concat]. rewrite (slice_app_r _ _ (i * kRecordSize)) by done.
  rewrite take_app_length' by done. rewrite decode_layout by done. rewrite app_assoc, IH; [done|].
  rewrite length_app, Hlen, Hpre. unfold kRecordSize. lia.
Qed.

Lemma parse_batch frames rest :
  Forall frame_acceptable frames → Z.of_nat (length frames) <= kMaxCount →
  parse_one (batch_bytes frames ++ rest) = Batch frames rest.
Proof.
  intros Hs Hn. assert (Forall frame_wf frames) as Hwf by (eapply Forall_impl; [exact Hs|]; by intros ? []).
  unfold parse_one, batch_bytes. rewrite <- app_assoc.
  set (recs := concat (map record_layout frames)).
  assert (length recs = (length frames * 40)%nat) as Hr by by apply length_records.
  pose proof (header_layout_length (Z.of_nat (length frames))) as Hh.
  rewrite length_app, Hh.
  destruct (Nat.ltb_spec (16 + length (recs ++ rest)) kHeaderSize); [unfold kHeaderSize in *; lia|].
  rewrite take_app_length' by done. rewrite decode_header_layout by lia. cbn [h_payload_len h_count].
  rewrite drop_app_length' by done.
  replace (Z.to_nat (Z.of_nat (length frames) * 40)) with (length recs) by lia.
  rewrite take_app_length, drop_app_length, length_app.
  destruct (Nat.ltb_spec (length recs + length rest) (length recs)); [lia|].
  rewrite Nat2Z.id. pose proof (decode_records_layout frames [] 0 Hs eq_refl) as Hd. simpl in Hd.
  fold recs in Hd. by rewrite Hd.
Qed.

(** A batch of which some bytes are missing is waited for. *)
Lemma parse_part frames part more :
  Forall frame_acceptable frames → Z.of_nat (length frames) <= kMaxCount →
  batch_bytes frames = part ++ more → more ≠ [] → parse_one part = NeedMore.
Proof.
  intros Hs Hn E Hm. assert (Forall frame_wf frames) as Hwf by (eapply Forall_impl; [exact Hs|]; by intros ? []).
  pose proof (header_layout_length (Z.of_nat (length frames))) as Hh.
  assert (0 < length more)%nat as Hml by (destruct more; [done|simpl; lia]).
  assert (length part + length more = 16 + length frames * 40)%nat as Hl.
  { rewrite <- length_app, <- E, length_batch_bytes by done. unfold kHeaderSize, kRecordSize. lia. }
  unfold parse_one. destruct (Nat.ltb_spec (length part) kHeaderSize) as [|Hge]; [done|]. unfold kHeaderSize in Hge.
  assert (take kHeaderSize part = header_layout (Z.of_nat (length frames))) as Et.
  { transitivity (take kHeaderSize (part ++ more)); [by rewrite take_app_le by (unfold kHeaderSize; lia)|].
    rewrite <- E. unfold batch_bytes. by rewrite take_app_length'. }
  rewrite Et, decode_header_layout by lia. cbn [h_payload_len].
  destruct (Nat.ltb_spec (length (drop kHeaderSize part)) (Z.to_nat (Z.of_nat (length frames) * 40))) as [|Hlt]; [done|].
  rewrite length_drop in Hlt. unfold kHeaderSize in Hlt. lia.
Qed.

Lemma decode_records_inv n i buf fs :
  Forall is_byte buf → (((i + n) * kRecordSize) <= length buf)%nat →
  decode_records n i buf = (kOk, fs) →
  Forall frame_acceptable fs ∧ length fs = n ∧
  take (n * kRecordSize) (drop (i * kRecordSize) buf) = concat (map record_layout fs).
Proof.
  intros Hb. revert i fs. induction n as [|n IH]; intros i fs Hl H; cbn [decode_records] in H.
  { by injection H as <-. }
  destruct (decode_frame _ _) as [[] f] eqn:Ef; try done.
  destruct (decode_records n (S i) buf) as [[] fs'] eqn:Er; try done. injection H as <-.
  destruct (IH (S i) fs') as (H1 & H2 & H3); [lia|done|].
  apply decode_frame_ok in Ef as [E1 E2];
    [|unfold slice; rewrite length_take, length_drop; unfold kRecordSize in *; lia
     |unfold slice; by apply Forall_take, Forall_drop].
  split; [by constructor|]. split; [simpl; lia|]. cbn [map concat]. rewrite <- H3, E1. unfold slice.
  replace (S i * kRecordSize)%nat with (i * kRecordSize + kRecordSize)%nat by lia.
  rewrite <- drop_drop. replace (S n * kRecordSize)%nat with (kRecordSize + n * kRecordSize)%nat by lia.
  by rewrite take_take_drop.
Qed.

(** Bytes that parse are the bytes of the batch: no two encodings of one batch. *)
Lemma parse_batch_inv stream b rest :
  Forall is_byte stream → parse_one stream = Batch b rest →
  Forall frame_acceptable b ∧ Z.of_nat (length b) <= kMaxCount ∧ stream = batch_bytes b ++ rest.
Proof.
  intros Hb. unfold parse_one. destruct (Nat.ltb_spec (length stream) kHeaderSize) as [|Hlen]; [done|].
  destruct (decode_header _ _) as [e h] eqn:Eh; destruct e; try done.
  apply decode_header_ok in Eh as (E1 & E2 & E3);
    [|rewrite length_take; lia|by apply Forall_take].
  destruct (Nat.ltb_spec (length (drop kHeaderSize stream)) (Z.to_nat (h_payload_len h))) as [|Hp]; [done|].
  destruct (decode_records _ _ _) as [e fs] eqn:Er; destruct e; try done. intros [= <- <-].
  assert (Z.to_nat (h_payload_len h) = (Z.to_nat (h_count h) * kRecordSize)%nat) as El
    by (unfold kRecordSize; lia).
  apply decode_records_inv in Er as (H1 & H2 & H3);
    [|by apply Forall_take, Forall_drop|rewrite length_take; lia].
  split; [done|]. split; [lia|]. unfold batch_bytes. rewrite <- H3, H2, Z2Nat.id, <- E1 by lia.
  rewrite drop_0, take_take, El, Nat.min_id, <- app_assoc. by rewrite !take_drop.
Qed.

(** ** Refinement of the reference parser *)

(** What a call of [read_batch] did to the byte stream it reads from. *)
Definition refines_parse (stream stream' : list Z) (st : Status.t) (out : list Frame)
    (e : DecodeError) : Prop :=
  match st with
  | Status.kOk => parse_one stream = Batch out stream'
  | Status.kProtocolError => parse_one stream = Bad e ∧ e ≠ kOk
  | _ => stream' = stream ∧ out = []
  end.

Lemma read_payload_refines answers s net st out s' net' :
  stream_wf s → state_ s = kPayload → read_payload answers s net = Some (st, out, s', net') →
  stream_wf s' ∧ refines_parse (held s ++ net) (held s' ++ net') st out (last_error_ s').
Proof.
  intros [W1 W2 W3] Hst H. rewrite Hst in W3. destruct W3 as (W3 & W4 & W5 & W6).
  unfold kMaxCount in W6. unfold read_payload in H.
  destruct (fill (need_ s) answers s net) as [[[[st1 s1] net1] ans1]|] eqn:Ef; [|done].
  apply fill_spec in Ef; [|lia|lia|pow_consts; lia|done].
  destruct Ef as ((K1 & K2 & K3 & K4 & K5) & K6 & K7 & K8 & K9 & K10).
  assert (held s = header_layout (records_ s) ++ take (Z.to_nat (got_ s)) (buf_ s)) as Hh
    by (unfold held; by rewrite Hst).
  destruct st1; [|..|done].
  - assert (got_ s1 = need_ s) as Hgot by by apply K9.
    set (payload := take (Z.to_nat (got_ s1)) (buf_ s1)) in *.
    assert (length payload = Z.to_nat (records_ s * 40)) as Hlen
      by (unfold payload; rewrite length_take; lia).
    pose proof (decode_records_take (Z.to_nat (records_ s)) 0 (buf_ s1)) as Ht.
    replace ((0 + Z.to_nat (records_ s)) * kRecordSize)%nat with (Z.to_nat (got_ s1)) in Ht
      by (unfold kRecordSize; lia). fold payload in Ht.
    assert (∀ e, stream_wf (to_header e s1)) as Hwf.
    { intros e. constructor; simpl; [lia|lia|].
      unfold kHeaderSize. split; [lia|]. (* the payload is at least one record *) lia. }
    assert (parse_one (held s ++ net)
            = match decode_records (Z.to_nat (records_ s)) 0 (buf_ s1) with
              | (kOk, fs) => Batch fs net1 | (e, _) => Bad e end) as Hp.
    { rewrite Hh, <- app_assoc, <- K8. unfold parse_one.
      pose proof (header_layout_length (records_ s)) as Hhl.
      rewrite length_app, Hhl. destruct (Nat.ltb_spec (16 + length (payload ++ net1)) kHeaderSize);
        [unfold kHeaderSize in *; lia|].
      rewrite take_app_length' by done. rewrite decode_header_layout by (unfold kMaxCount; lia).
      cbn [h_payload_len h_count]. rewrite drop_app_length' by done.
      rewrite <- Hlen, take_app_length, drop_app_length, length_app.
      destruct (Nat.ltb_spec (length payload + length net1) (length payload)); [lia|].
      by rewrite Ht. }
    rewrite K3 in H. destruct (decode_records _ 0 (buf_ s1)) as [e fs] eqn:Ed.
    destruct e; injection H as <- <- <- <-; (split; [apply Hwf|]); simpl; try done.
  - injection H as <- <- <- <-. split.
    + constructor; [lia|lia|]. rewrite K1, K2, K3, Hst. unfold kMaxCount. lia.
    + split; [|done]. unfold held. rewrite K1, K3, Hst, <- !app_assoc. by rewrite K8.
  - injection H as <- <- <- <-. split.
    + constructor; [lia|lia|]. rewrite K1, K2, K3, Hst. unfold kMaxCount. lia.
    + split; [|done]. unfold held. rewrite K1, K3, Hst, <- !app_assoc. by rewrite K8.
Qed.

(** The header phase: from a state waiting for a header. *)
Lemma read_batch_refines answers s net st out s' net' :
  stream_wf s → Forall is_byte (held s ++ net) →
  read_batch answers s net = Some (st, out, s', net') →
  stream_wf s' ∧ refines_parse (held s ++ net) (held s' ++ net') st out (last_error_ s').
Proof.
  intros Hwf Hb H. unfold read_batch in H. destruct (state_ s) eqn:Hst;
    [|by eapply read_payload_refines].
  destruct Hwf as [W1 W2 W3]. rewrite Hst in W3.
  destruct (fill (Z.of_nat kHeaderSize) answers s net) as [[[[st1 s1] net1] ans1]|] eqn:Ef; [|done].
  apply fill_spec in Ef; [|unfold kHeaderSize in *; lia|lia|unfold kHeaderSize; lia|done].
  destruct Ef as ((K1 & K2 & K3 & K4 & K5) & K6 & K7 & K8 & K9 & K10).
  assert (held s = take (Z.to_nat (got_ s)) (buf_ s)) as Hh by (unfold held; by rewrite Hst).
  assert (state_ s1 = kHeader) as Hst1 by congruence.
  assert (stream_wf s1) as Hwf1 by (constructor; [lia|lia|rewrite Hst1; lia]).
  assert (held s1 ++ net1 = held s ++ net) as Hkeep by (unfold held; by rewrite Hst1, Hst).
  destruct st1; [|by injection H as <- <- <- <-|by injection H as <- <- <- <-|done].
  assert (got_ s1 = Z.of_nat kHeaderSize) as Hgot by by apply K9.
  set (hdr := take kHeaderSize (buf_ s1)) in *.
  assert (held s1 = hdr) as Hh1 by (unfold held; rewrite Hst1, Hgot; by rewrite Nat2Z.id).
  assert (length hdr = 16%nat) as Hlen by (unfold hdr; rewrite length_take; unfold kHeaderSize in *; lia).
  assert (Forall is_byte hdr) as Hbh.
  { rewrite <- Hkeep, Hh1 in Hb. by apply Forall_app in Hb as [Hb _]. }
  assert (take kHeaderSize (held s ++ net) = hdr ∧ drop kHeaderSize (held s ++ net) = net1) as [Ht Hd].
  { rewrite <- Hkeep, Hh1. by rewrite take_app_length', drop_app_length'. }
  destruct (decode_header hdr header_zero) as [e h] eqn:Edh.
  destruct e; try (injection H as <- <- <- <-; split;
    [destruct Hwf1 as [A1 A2 A3]; by constructor|]; simpl; split; [|done];
    unfold parse_one; rewrite Ht, Edh; rewrite <- Hkeep, Hh1, length_app, Hlen;
    destruct (Nat.ltb_spec (16 + length net1) kHeaderSize); [unfold kHeaderSize in *; lia|done]).
  destruct (decode_header_ok hdr header_zero h Hlen Hbh Edh) as (E1 & E2 & E3).
  destruct (Z.eqb_spec (h_payload_len h) 0) as [Hz|Hnz].
  - injection H as <- <- <- <-. split.
    + constructor; simpl; lia.
    + simpl. unfold parse_one. rewrite Ht, Hd, Edh.
      rewrite <- Hkeep, Hh1, length_app, Hlen.
      destruct (Nat.ltb_spec (16 + length net1) kHeaderSize); [unfold kHeaderSize in *; lia|].
      rewrite Hz. replace (h_count h) with 0 by lia. simpl. unfold held. simpl. done.
  - apply read_payload_refines in H; [| |done].
    + destruct H as [H1 H2]. split; [done|].
      replace (held s ++ net) with (held (mkStream kPayload (buf_ s1) 0 (h_payload_len h) (h_count h)
                                            kOk (echo_drops_ s1)) ++ net1); [done|].
      unfold held at 1. cbn [state_ records_ got_ buf_]. change (Z.to_nat 0) with 0%nat. rewrite take_0, app_nil_r, <- E1, <- Hh1. done.
    + unfold kMaxCount in *. constructor; simpl; [lia|lia|]. unfold kMaxCount. lia.
Qed.

(** ** Progress *)

Definition yields_data (a : ReadAnswer) : Prop :=
  match a with RdSome n => 1 <= n | _ => False end.

#[export] Instance yields_data_dec a : Decision (yields_data a).
Proof. destruct a; simpl; apply _. Defined.

(** Neither closed, failed nor timed out. *)
Definition keeps_going (a : ReadAnswer) : Prop :=
  match a with RdSome n => 1 <= n | RdIntr | RdAgainReady => True | _ => False end.

#[export] Instance keeps_going_dec a : Decision (keeps_going a).
Proof. destruct a; simpl; apply _. Defined.

Definition data_reads (answers : list ReadAnswer) : Z :=
  Z.of_nat (length (filter yields_data answers)).

Lemma fill_loop_progress need answers s net :
  Forall keeps_going answers → 0 <= got_ s <= need → need < 2 ^ 32 →
  need - got_ s <= Z.of_nat (length net) → need - got_ s <= data_reads answers →
  ∃ s' net' ans', fill_loop need answers s net = Some (Status.kOk, s', net', ans') ∧
    Forall keeps_going ans' ∧ data_reads answers - (need - got_ s) <= data_reads ans'.
Proof.
  intros Hk. revert s net. induction Hk as [|a answers Ha Hall IH]; intros s net Hg Hb Hn Hd;
    cbn [fill_loop]; destruct (Z.ltb_spec (got_ s) need) as [Hlt|Hge]; simpl negb; cbv iota.
  - unfold data_reads in Hd. simpl in Hd. lia.
  - exists s, net, []. split; [done|]. split; [done|]. unfold data_reads. simpl. lia.
  - unfold data_reads in Hd |- *. rewrite filter_cons in Hd |- *.
    destruct a as [n| | | | |]; simpl in Ha; try done.
    + rewrite decide_True in Hd |- * by done. set (k := read_size n need net s).
      assert (1 <= Z.of_nat k <= need - got_ s ∧ (k <= length net)%nat) as [Hk1 Hk2]
        by (unfold k, read_size; lia).
      set (s1 := set_buf _ _ s).
      assert (got_ s1 = got_ s + Z.of_nat k) as Hg1
        by (unfold s1; simpl; apply u64_small; unfold fits; pow_consts; lia).
      destruct (IH s1 (drop k net)) as (s' & net' & ans' & H1 & H2 & H3);
        [lia|lia|rewrite length_drop; lia|unfold data_reads; simpl in Hd; lia|].
      exists s', net', ans'. split; [done|]. split; [done|]. unfold data_reads in H3. simpl. lia.
    + rewrite decide_False in Hd |- * by (simpl; tauto). by apply IH.
    + rewrite decide_False in Hd |- * by (simpl; tauto). apply IH; [done|done|done|]. unfold data_reads. done.
  - exists s, net, (a :: answers). split; [done|]. split; [by constructor|]. lia.
Qed.

Lemma fill_progress need answers s net :
  Forall keeps_going answers → 0 <= got_ s <= need → need < 2 ^ 32 →
  need - got_ s <= Z.of_nat (length net) → need - got_ s <= data_reads answers →
  ∃ s' net' ans', fill need answers s net = Some (Status.kOk, s', net', ans') ∧
    Forall keeps_going ans' ∧ data_reads answers - (need - got_ s) <= data_reads ans'.
Proof.
  intros. unfold fill. case_match; [|by apply fill_loop_progress].
  by apply (fill_loop_progress need answers (set_buf (resize (Z.to_nat need) (buf_ s)) (got_ s) s)).
Qed.

Lemma payload_progress answers s net :
  stream_wf s → state_ s = kPayload → Forall keeps_going answers →
  need_ s - got_ s <= Z.of_nat (length net) → need_ s - got_ s <= data_reads answers →
  ∃ st out s' net', read_payload answers s net = Some (st, out, s', net') ∧
                    (st = Status.kOk ∨ st = Status.kProtocolError).
Proof.
  intros [W1 W2 W3] Hst Hk Hn Hd. rewrite Hst in W3. unfold kMaxCount in *. unfold read_payload.
  destruct (fill_progress (need_ s) answers s net) as (s1 & net1 & ans1 & -> & _);
    [done|lia|pow_consts; lia|done|done|].
  destruct (decode_records _ 0 (buf_ s1)) as [[] fs]; eauto 10.
Qed.

Lemma parse_header_ok bytes out rest :
  parse_one bytes = Batch out rest →
  ∃ h, (kHeaderSize <= length bytes)%nat ∧ decode_header (take kHeaderSize bytes) header_zero = (kOk, h) ∧
       (kHeaderSize + Z.to_nat (h_payload_len h) <= length bytes)%nat.
Proof.
  unfold parse_one. destruct (Nat.ltb_spec (length bytes) kHeaderSize); [done|].
  destruct (decode_header _ _) as [[] h]; try done. intros H1. exists h. split; [done|].
  split; [done|]. rewrite length_drop in H1.
  destruct (Nat.ltb_spec (length bytes - kHeaderSize) (Z.to_nat (h_payload_len h))); [done|lia].
Qed.

(** A call that is not interrupted returns the batch once all of it has arrived. *)
Lemma read_batch_progress answers s net out rest :
  stream_wf s → Forall is_byte (held s ++ net) → Forall keeps_going answers →
  parse_one (held s ++ net) = Batch out rest →
  Z.of_nat (length net) <= data_reads answers →
  ∃ s' net', read_batch answers s net = Some (Status.kOk, out, s', net') ∧ held s' ++ net' = rest.
Proof.
  intros Hwf Hb Hk Hp Hd.
  enough (∃ st o s' net', read_batch answers s net = Some (st, o, s', net') ∧
            (st = Status.kOk ∨ st = Status.kProtocolError)) as (st & o & s' & net' & H & Hs).
  { destruct (read_batch_refines _ _ _ _ _ _ _ Hwf Hb H) as [_ Hr].
    destruct Hs as [-> | ->]; simpl in Hr; [|destruct Hr; congruence].
    rewrite Hp in Hr. injection Hr as <- ->. eauto. }
  destruct (parse_header_ok _ _ _ Hp) as (h & L1 & L2 & L3). rewrite length_app in L1, L3.
  pose proof Hwf as [W1 W2 W3]. unfold read_batch. destruct (state_ s) eqn:Hst.
  - assert (Z.of_nat (length (held s)) = got_ s) as Hhl.
    { unfold held. rewrite Hst, length_take. lia. }
    destruct (fill_progress (Z.of_nat kHeaderSize) answers s net) as (s1 & net1 & ans1 & Ef & Hk1 & Hd1);
      [done|lia|unfold kHeaderSize; lia|lia|lia|].
    rewrite Ef. apply fill_spec in Ef; [|lia|lia|unfold kHeaderSize; lia|done].
    destruct Ef as ((K1 & K2 & K3 & K4 & K5) & K6 & K7 & K8 & K9 & K10).
    assert (got_ s1 = Z.of_nat kHeaderSize) as Hgot by by apply K9.
    assert (held s = take (Z.to_nat (got_ s)) (buf_ s)) as Hh by (unfold held; by rewrite Hst).
    rewrite <- Hh, Hgot, Nat2Z.id in K8.
    assert (length (take kHeaderSize (buf_ s1)) = kHeaderSize) as Hlen by (rewrite length_take; lia).
    assert (take kHeaderSize (held s ++ net) = take kHeaderSize (buf_ s1)) as Ht
      by (rewrite <- K8, take_app_length' by done; done).
    assert (Forall is_byte (take kHeaderSize (buf_ s1))) as Hbb
      by (rewrite <- Ht; by apply Forall_take).
    rewrite Ht in L2. rewrite L2.
    destruct (decode_header_ok _ _ _ Hlen Hbb L2) as (E1 & E2 & E3). unfold kMaxCount in *.
    apply (f_equal length) in K8. rewrite !length_app, Hlen in K8.
    destruct (Z.eqb_spec (h_payload_len h) 0) as [Hz|Hz]; [by eauto 10|].
    apply payload_progress; simpl; [|done|done|lia|lia].
    constructor; simpl; [lia|lia|]. unfold kMaxCount. lia.
  - destruct W3 as (V1 & V2 & V3 & V4).
    assert (held s = header_layout (records_ s) ++ take (Z.to_nat (got_ s)) (buf_ s)) as Hh
      by (unfold held; by rewrite Hst).
    pose proof (header_layout_length (records_ s)) as Hhl.
    rewrite Hh, <- app_assoc, take_app_length' in L2 by done.
    rewrite decode_header_layout in L2 by lia. injection L2 as <-. simpl in L3.
    rewrite Hh, length_app, Hhl, length_take in L3. unfold kHeaderSize in L3.
    apply payload_progress; [done|done|done|lia|lia].
Qed.

(** ** A consumer's successive calls *)

Fixpoint reads (calls : list (list ReadAnswer)) (s : FrameStream) (net : list Z)
  : option (list (Status.t * list Frame) * FrameStream * list Z) :=
  match calls with
  | [] => Some ([], s, net)
  | answers :: calls =>
      match read_batch answers s net with
      | None => None
      | Some (st, out, s, net) =>
          match reads calls s net with
          | None => None
          | Some (rs, s, net) => Some ((st, out) :: rs, s, net)
          end
      end
  end.

Definition is_ok (r : Status.t * list Frame) : bool :=
  match r.1 with Status.kOk => true | _ => false end.

(** The batches handed to the consumer. *)
Definition received (rs : list (Status.t * list Frame)) : list (list Frame) :=
  map snd (filter (λ r, is_ok r = true) rs).

Definition accepted_batch (b : list Frame) : Prop :=
  Forall frame_acceptable b ∧ Z.of_nat (length b) <= kMaxCount.

(** A batch an egress may write. *)
Definition sendable_batch (b : list Frame) : Prop :=
  Forall frame_sendable b ∧ Z.of_nat (length b) <= kMaxCount.

Lemma sendable_accepted bs : Forall sendable_batch bs → Forall accepted_batch bs.
Proof.
  intros Hs. eapply Forall_impl; [exact Hs|]. intros b [H1 H2]. split; [|done].
  eapply Forall_impl; [exact H1|]. apply sendable_acceptable.
Qed.

(** What the encoder leaves in its buffer is the layout of the batch. *)
Lemma encoded_batches e bs :
  Forall sendable_batch bs → concat (map (λ b, pending_ (encode_batch b e)) bs) = concat (map batch_bytes bs).
Proof.
  intros Hs. f_equal. apply map_ext_Forall. eapply Forall_impl; [exact Hs|]. intros b [H1 H2].
  apply encode_batch_bytes; [|done]. eapply Forall_impl; [exact H1|]. apply sendable_wf.
Qed.

Lemma batch_bytes_bytes b : Forall frame_acceptable b → Forall is_byte (batch_bytes b).
Proof.
  intros H. unfold batch_bytes. apply Forall_app. split; [apply header_layout_bytes|].
  induction H as [|f l Hf _ IH]; [constructor|]. cbn [map concat]. apply Forall_app.
  split; [apply record_layout_bytes; apply Hf|done].
Qed.

(** A stream of batches cut anywhere is some of them whole, and bytes that are waited on. *)
Lemma cut_batches bs got :
  Forall accepted_batch bs → got `prefix_of` concat (map batch_bytes bs) →
  ∃ k tail, got = concat (map batch_bytes (take k bs)) ++ tail ∧ Forall is_byte tail ∧ parse_one tail = NeedMore.
Proof.
  intros Hbs. revert got. induction Hbs as [|b bs [Hs Hn] Hbs IH]; intros got Hp; cbn [map concat] in *.
  { apply prefix_nil_inv in Hp as ->. by exists 0%nat, []. }
  destruct (decide (batch_bytes b `prefix_of` got)) as [[got' ->]|Hnp].
  - apply prefix_app_inv in Hp. destruct (IH got' Hp) as (k & tail & -> & Ht).
    exists (S k), tail. split; [|done]. cbn [take map concat]. by rewrite <- app_assoc.
  - exists 0%nat, got. split; [done|].
    assert (∃ more, batch_bytes b = got ++ more ∧ more ≠ []) as (more & E & Hm).
    { destruct (prefix_weak_total got (batch_bytes b) _ Hp ltac:(by eexists)) as [[more E]|]; [|done].
      exists more. split; [done|]. intros ->. apply Hnp. rewrite E, app_nil_r. done. }
    split; [|by eapply parse_part]. pose proof (batch_bytes_bytes b Hs) as Hb. rewrite E in Hb.
    by apply Forall_app in Hb as [? _].
Qed.

Lemma reads_batches calls s net rs s' net' bs tail :
  stream_wf s → Forall accepted_batch bs → Forall is_byte tail → parse_one tail = NeedMore →
  held s ++ net = concat (map batch_bytes bs) ++ tail →
  reads calls s net = Some (rs, s', net') →
  ∃ k, received rs = take k bs ∧ Forall (λ r, r.1 ≠ Status.kProtocolError) rs ∧
       held s' ++ net' = concat (map batch_bytes (drop k bs)) ++ tail.
Proof.
  intros Hwf Hbs Ht Hpt. revert s net bs Hwf Hbs rs.
  induction calls as [|answers calls IH]; intros s net bs Hwf Hbs rs E H; cbn [reads] in H.
  { injection H as <- <- <-. exists 0%nat. by rewrite drop_0. }
  destruct (read_batch answers s net) as [[[[st out] s1] net1]|] eqn:Er; [|done].
  destruct (reads calls s1 net1) as [[[rs1 s2] net2]|] eqn:Ers; [|done].
  injection H as <- <- <-.
  assert (Forall is_byte (held s ++ net)) as Hb.
  { rewrite E. apply Forall_app. split; [|done]. clear -Hbs.
    induction Hbs as [|b bs [Hb _] _ IH]; [constructor|]. cbn [map concat]. apply Forall_app.
    split; [by apply batch_bytes_bytes|done]. }
  destruct (read_batch_refines _ _ _ _ _ _ _ Hwf Hb Er) as [Hwf1 Hr]. rewrite E in Hr.
  assert (parse_one (concat (map batch_bytes bs) ++ tail)
          = match bs with [] => NeedMore | b :: bs => Batch b (concat (map batch_bytes bs) ++ tail) end) as Hp.
  { destruct Hbs as [|b bs [Hb1 Hb2] _]; [done|]. cbn [map concat]. rewrite <- app_assoc.
    by apply parse_batch. }
  destruct st; simpl in Hr.
  - rewrite Hp in Hr. destruct Hbs as [|b bs Hb1 Hbs]; [done|]. injection Hr as <- Hr.
    destruct (IH s1 net1 bs Hwf1 Hbs rs1 (eq_sym Hr) Ers) as (k & K1 & K2 & K3).
    exists (S k). split; [unfold received in *; rewrite filter_cons_True by done; simpl; by rewrite K1|].
    split; [by constructor|done].
  - destruct Hr as [Hr _]. destruct (IH s1 net1 bs Hwf1 Hbs rs1) as (k & K1 & K2 & K3); [congruence|done|].
    exists k. split; [unfold received in *; by rewrite filter_cons_False|]. split; [by constructor|done].
  - destruct Hr as [Hr _]. destruct (IH s1 net1 bs Hwf1 Hbs rs1) as (k & K1 & K2 & K3); [congruence|done|].
    exists k. split; [unfold received in *; by rewrite filter_cons_False|]. split; [by constructor|done].
  - rewrite Hp in Hr. destruct bs; by destruct Hr.
Qed.

(** With data to read, every call returns a batch. *)
Lemma reads_all calls s net bs tail n :
  stream_wf s → Forall accepted_batch bs → Forall is_byte tail →
  held s ++ net = concat (map batch_bytes bs) ++ tail → Z.of_nat (length (held s ++ net)) <= n →
  length calls = length bs →
  Forall (λ answers, Forall keeps_going answers ∧ n <= data_reads answers) calls →
  ∃ s' net', reads calls s net = Some (map (pair Status.kOk) bs, s', net') ∧ held s' ++ net' = tail.
Proof.
  intros Hwf Hbs Ht. revert s net bs Hwf Hbs.
  induction calls as [|answers calls IH]; intros s net bs Hwf Hbs E Hn Hl Hc; cbn [reads].
  { destruct bs; [|done]. by exists s, net. }
  destruct bs as [|b bs]; [done|]. inversion_clear Hbs as [|? ? Hb Hbs']. inversion_clear Hc as [|? ? [Hk Hd] Hc'].
  assert (Forall is_byte (held s ++ net)) as Hbytes.
  { rewrite E. apply Forall_app. split; [|done]. apply Forall_concat, Forall_map.
    constructor; [by apply batch_bytes_bytes, Hb|]. eapply Forall_impl; [exact Hbs'|]. intros y [Hy _]. by apply batch_bytes_bytes. }
  destruct (read_batch_progress answers s net b (concat (map batch_bytes bs) ++ tail)) as (s1 & net1 & Er & E1);
    [done|done|done| |rewrite length_app in Hn; lia|].
  { rewrite E. cbn [map concat]. rewrite <- app_assoc. destruct Hb as [Hb1 Hb2]. by apply parse_batch. }
  rewrite Er. destruct (read_batch_refines _ _ _ _ _ _ _ Hwf Hbytes Er) as [Hwf1 _].
  destruct (IH s1 net1 bs Hwf1 Hbs' E1) as (s2 & net2 & -> & E2); [|by injection Hl|done|by exists s2, net2].
  rewrite E1. rewrite E in Hn. cbn [map concat] in Hn. rewrite !length_app in *. lia.
Qed.

(** ** send_back *)

Lemma send_loop_spec msg answers ok bytes :
  send_loop msg answers = Some (ok, bytes) →
  ∃ rest, msg = bytes ++ rest ∧ if ok then rest = [] else rest ≠ [].
Proof.
  revert msg ok bytes. induction answers as [|a answers IH]; intros msg ok bytes H.
  { destruct msg; [|done]. injection H as <- <-. by exists []. }
  destruct msg as [|x msg]; [injection H as <- <-; by exists []|].
  cbn [send_loop] in H. set (m := x :: msg) in *.
  destruct (sa_n a >? 0).
  - destruct (send_loop _ answers) as [[ok1 b1]|] eqn:E; [|done]. injection H as <- <-.
    destruct (IH _ _ _ E) as (rest & H1 & H2). exists rest. split; [|done].
    by rewrite <- app_assoc, <- H1, take_drop.
  - assert (∃ rest, m = [] ++ rest ∧ rest ≠ []) as Hfail by by exists m.
    destruct (sa_n a <? 0); [|by injection H as <- <-].
    destruct (sa_errno a); [by injection H as <- <-|by apply IH|by injection H as <- <-].
Qed.

Lemma echo_message_bytes f : frame_wf f → echo_message f = batch_bytes [f].
Proof.
  intros Hf. unfold echo_message, batch_bytes. cbn [map concat length].
  rewrite encode_header_eq by (unfold kMaxCount; done || lia).
  rewrite encode_frame_eq by done. by rewrite app_nil_r.
Qed.

(** ** Properties *)

(** C13. The incremental parser computes the reference parser, whatever the segmentation.
    From any state and for any sequence of socket answers, a call of [read_batch]
    returns [kOk] exactly with the batch [parse_one] finds at the head of the byte
    stream (bytes already held, then bytes still to come), [kProtocolError] exactly
    with the error [parse_one] reports, and in every other case has lost nothing: the
    stream is as before and the next call resumes. *)
Theorem read_batch_chunking answers s net st out s' net' :
  stream_wf s → Forall is_byte (held s ++ net) →
  read_batch answers s net = Some (st, out, s', net') →
  stream_wf s' ∧
  match st with
  | Status.kOk => parse_one (held s ++ net) = Batch out (held s' ++ net')
  | Status.kProtocolError => parse_one (held s ++ net) = Bad (last_error_ s') ∧ last_error_ s' ≠ kOk
  | _ => held s' ++ net' = held s ++ net ∧ out = []
  end.
Proof. intros Hwf Hb H. exact (read_batch_refines _ _ _ _ _ _ _ Hwf Hb H). Qed.

(** Progress of the parser: when a complete batch is at the head of the stream and the
    socket yields data at least once per byte (with any interruptions in between), one
    call of [read_batch] returns that batch, and the rest of the stream is left. *)
Theorem read_batch_delivers answers s net out rest :
  stream_wf s → Forall is_byte (held s ++ net) → Forall keeps_going answers →
  parse_one (held s ++ net) = Batch out rest →
  Z.of_nat (length net) <= data_reads answers →
  ∃ s' net', read_batch answers s net = Some (Status.kOk, out, s', net') ∧ held s' ++ net' = rest.
Proof. intros. by apply read_batch_progress. Qed.

(** C14. Wire round trip. Let an egress encode batches of frames that may be sent, from
    whatever state its buffer is in, and a consumer read the bytes. In any number of calls
    and with any segmentation and time-outs, what it has received is a prefix of what was
    sent, it never reports a protocol error, and what it has not received yet is still
    ahead of it; and when the socket goes on yielding data (no time-out, no end), every
    call returns the next batch, until it has all of them. *)
Theorem stream_roundtrip (e : Egress) calls bs tail :
  Forall sendable_batch bs → Forall is_byte tail → parse_one tail = NeedMore →
  let sent := concat (map (λ b, pending_ (encode_batch b e)) bs) ++ tail in
  (∀ rs s' net', reads calls make_stream sent = Some (rs, s', net') →
     ∃ k, received rs = take k bs ∧ Forall (λ r, r.1 ≠ Status.kProtocolError) rs ∧
          held s' ++ net' = concat (map batch_bytes (drop k bs)) ++ tail) ∧
  (length calls = length bs →
   Forall (λ answers, Forall keeps_going answers ∧ Z.of_nat (length sent) <= data_reads answers) calls →
   ∃ s' net', reads calls make_stream sent = Some (map (pair Status.kOk) bs, s', net') ∧ held s' ++ net' = tail).
Proof.
  intros Hbs Ht Hp. rewrite (encoded_batches e bs Hbs). cbv zeta.
  pose proof (sendable_accepted _ Hbs) as Ha. split.
  - intros rs s' net'. by apply (reads_batches calls make_stream (concat (map batch_bytes bs) ++ tail)).
  - intros Hl Hc. by eapply (reads_all calls make_stream (concat (map batch_bytes bs) ++ tail) bs tail).
Qed.

(** [send_back] reports success exactly when the whole reply went out, and the reply is
    a well-formed batch of one record that decodes to the probe; a reply it gives up on
    is counted in [echo_drops]. *)
Theorem send_back_whole f answers s ok bytes s' :
  frame_acceptable f → send_back f answers s = Some (ok, bytes, s') →
  if ok then bytes = batch_bytes [f] ∧ parse_one bytes = Batch [f] [] ∧ s' = s
  else echo_drops_ s' = u64 (echo_drops_ s + 1) ∧ held s' = held s ∧
       ∃ rest, batch_bytes [f] = bytes ++ rest ∧ rest ≠ [].
Proof.
  intros Hs H. unfold send_back in H. rewrite echo_message_bytes in H by apply Hs.
  destruct (send_loop _ _) as [[[] b]|] eqn:E; [..|done]; injection H as <- <- <-;
    apply send_loop_spec in E as (rest & E & Hr).
  - subst rest. rewrite app_nil_r in E. subst b. split; [done|]. split; [|done].
    rewrite <- (app_nil_r (batch_bytes [f])). apply parse_batch; [by constructor|unfold kMaxCount; simpl; lia].
  - split; [done|]. split; [done|]. by exists rest.
Qed.

(** A reply can be abandoned half-way: some of its bytes are in the socket and the rest
    never follow, so the gateway's reply parser is out of step from then on. *)
Lemma send_back_half_written :
  ∃ f answers bytes s', send_back f answers make_stream = Some (false, bytes, s') ∧ bytes ≠ [].
Proof.
  exists (make_echo 1 2), [mkSend 10 EOther 0 false false; mkSend (-1) EAgain 0 false false].
  eexists _, _. split; [by vm_compute|]. done.
Qed.

(** ** Witnesses *)

Definition sample_batches : list (list Frame) :=
  [[make_gap 3 2 kConsumerOverrun 9; make_echo 1 5]; []; [make_echo 2 6]].

Definition sample_bytes : list Z := concat (map batch_bytes sample_batches).

Lemma sample_batches_ok : Forall accepted_batch sample_batches.
Proof.
  repeat constructor; try (apply (bool_decide_unpack _); by vm_compute); by vm_compute.
Qed.

Lemma sample_bytes_ok : Forall is_byte sample_bytes.
Proof. apply (bool_decide_unpack _). by vm_compute. Qed.

Lemma read_batch_chunking_witness :
  ∃ out s' net', read_batch [RdSome 7; RdIntr; RdSome 100; RdSome 100] make_stream sample_bytes
                 = Some (Status.kOk, out, s', net') ∧
                 parse_one sample_bytes = Batch out (held s' ++ net').
Proof.
  destruct (read_batch [RdSome 7; RdIntr; RdSome 100; RdSome 100] make_stream sample_bytes)
    as [[[[st out] s'] net']|] eqn:E; [|by exfalso; revert E; vm_compute].
  assert (st = Status.kOk) as ->.
  { revert E. vm_compute. by intros [= <- _ _ _]. }
  exists out, s', net'. split; [done|].
  apply (read_batch_chunking _ make_stream sample_bytes _ _ _ _) in E; [by destruct E| |apply sample_bytes_ok].
  constructor; simpl; [done|done|]. unfold kHeaderSize. lia.
Defined.

Lemma read_batch_delivers_witness :
  ∃ s' net', read_batch (replicate 200 (RdSome 1)) make_stream sample_bytes
             = Some (Status.kOk, [make_gap 3 2 kConsumerOverrun 9; make_echo 1 5], s', net') ∧
             held s' ++ net' = concat (map batch_bytes (tail sample_batches)).
Proof.
  apply (read_batch_delivers (replicate 200 (RdSome 1)) make_stream sample_bytes).
  - constructor; simpl; [done|done|]. unfold kHeaderSize. lia.
  - apply sample_bytes_ok.
  - apply (bool_decide_unpack _). by vm_compute.
  - by vm_compute.
  - by vm_compute.
Defined.

Definition sample_calls : list (list ReadAnswer) :=
  [[RdSome 20; RdAgainTimeout]; [RdSome 500]; [RdSome 30]; [RdSome 16; RdSome 500]; [RdEof]].

Lemma stream_roundtrip_witness :
  let e := make_egress (mkTuning 1 0 0) in
  let sent := concat (map (λ b, pending_ (encode_batch b e)) sample_batches) ++ [0x45] in
  (∃ rs s' net', reads sample_calls make_stream sent = Some (rs, s', net') ∧ received rs = sample_batches) ∧
  ∃ s' net', reads (replicate 3 (RdIntr :: replicate 200 (RdSome 1))) make_stream sent
             = Some (map (pair Status.kOk) sample_batches, s', net') ∧ held s' ++ net' = [0x45].
Proof.
  assert (Forall sendable_batch sample_batches) as Hs
    by (repeat constructor; try (apply (bool_decide_unpack _); by vm_compute); by vm_compute).
  assert (Forall is_byte [0x45]) as Ht by (apply (bool_decide_unpack _); by vm_compute).
  split.
  - destruct (stream_roundtrip (make_egress (mkTuning 1 0 0)) sample_calls sample_batches [0x45] Hs Ht eq_refl) as [H _].
    destruct (reads sample_calls make_stream _) as [[[rs s'] net']|] eqn:E; [|by exfalso; revert E; vm_compute].
    exists rs, s', net'. split; [done|]. destruct (H rs s' net' eq_refl) as (k & -> & _ & Hk). clear H.
    assert (length (held s' ++ net') = 1%nat) as Hl by (revert E; vm_compute; by intros [= <- <- <-]).
    rewrite Hk in Hl. destruct k as [|[|[|k]]]; [vm_compute in Hl; done..|]. by destruct k.
  - apply (stream_roundtrip (make_egress (mkTuning 1 0 0)) _ sample_batches [0x45] Hs Ht eq_refl); [done|].
    apply Forall_replicate. split; [apply (bool_decide_unpack _); by vm_compute|by vm_compute].
Defined.

Lemma send_back_whole_witness :
  ∃ bytes, send_back (make_echo 1 2) [mkSend 30 EOther 0 false false; mkSend 30 EOther 0 false false]
             make_stream = Some (true, bytes, make_stream) ∧ parse_one bytes = Batch [make_echo 1 2] [].
Proof.
  eexists. split; [by vm_compute|].
  apply (send_back_whole (make_echo 1 2)
           [mkSend 30 EOther 0 false false; mkSend 30 EOther 0 false false] make_stream true _ make_stream);
    [apply (bool_decide_unpack _); by vm_compute|by vm_compute].
Defined.
