(* ===== verification/Pipeline.v ===== *)
(** * Pipeline: from the published log to a consumer's loss report

    The egress thread ([run_loop]) on a feed, the bytes of one connection, the consumer's
    parser ([reads]) and its [GapTracker], put together: what the tracker reports is
    exactly what happened to each published frame. The last section holds the runs in
    which the gateway itself makes a consumer see a jump that no marker announces. *)

From S2P Require Import Prelude Frame Wire BroadcastRing Samples GapTracker Feed Egress EgressStream FrameStream.

(** Everything a consumer was handed over its calls, in order. *)
Definition consumer_records (rs : list (Status.t * list Frame)) : list Frame := concat (received rs).

(** ** Lemmas *)

Lemma concat_prefix {A} (bs : list (list A)) k :
  concat bs = concat (take k bs) ++ concat (drop k bs).
Proof. by rewrite <- concat_app, take_drop. Qed.

Lemma batches_sendable t bs :
  1 <= max_frames t <= kMaxBatch →
  Forall (λ b, Forall frame_sendable b ∧ Z.of_nat (length b) <= max_frames t + 2) bs →
  Forall sendable_batch bs.
Proof.
  intros Ht H. eapply Forall_impl; [exact H|]. simpl. intros b [H1 H2]. split; [done|].
  unfold kMaxBatch, kMaxCount in *. lia.
Qed.

Lemma received_prefix bytes bs : received_as bytes bs → bytes `prefix_of` concat (map batch_bytes bs).
Proof.
  intros [->|(whole & b & part & -> & -> & Hp)]; [done|]. rewrite map_app, concat_app. cbn [map concat].
  rewrite app_nil_r. by apply prefix_app.
Qed.

(** What a consumer has of a connection: some of its batches whole, and bytes that are
    waited on. *)
Lemma streamed_cut c real t conn got :
  1 <= max_frames t <= kMaxBatch → streamed c real (max_frames t) conn → got `prefix_of` conn →
  ∃ bs tail, got = concat (map batch_bytes bs) ++ tail ∧ Forall is_byte tail ∧ parse_one tail = NeedMore ∧
    Forall sendable_batch bs ∧ forward None (concat bs) = true ∧ (c → explained None (concat bs) = true) ∧
    Forall (λ g, is_control g = false → real g) (concat bs).
Proof.
  intros Ht (bs & Hr & Hb & Hf & He & Hreal) Hg.
  pose proof (batches_sendable t bs Ht Hb) as Hs.
  destruct (cut_batches bs got (sendable_accepted _ Hs)) as (k & tail & -> & Htail); [by etransitivity; [|apply received_prefix]|].
  exists (take k bs), tail. rewrite (concat_prefix bs k) in Hf, He, Hreal.
  rewrite forward_app, andb_true_iff in Hf. rewrite explained_app, andb_true_iff in He.
  apply Forall_app in Hreal as [Hreal _]. split_and!; try tauto. by apply Forall_take.
Qed.

(** What a consumer has read of a connection of a run: a forward stream of well-formed
    records, every frame among them a published one; explained by its markers when the
    batches have no holes. *)
Lemma pipeline_stream {F E} `{!ConsumerFeed F E, !FeedSpec F E} (envs : list (IterEnv E)) t
    (f : F) log pos st s' f' ev conn got calls rs cs net :
  1 <= max_frames t <= kMaxBatch → feed_at f log pos → loop_ok envs (make_egress t) f log →
  run_loop envs (make_egress t) f = Some (st, s', f', ev) → conn ∈ connections ev → got `prefix_of` conn →
  reads calls make_stream got = Some (rs, cs, net) →
  let records := consumer_records rs in
  Forall (λ r, r.1 ≠ Status.kProtocolError) rs ∧ Forall frame_wf records ∧ forward None records = true ∧
  Forall (λ g, is_control g = false → of_log (loop_log envs (make_egress t) f log) g) records ∧
  (linger_us t = 0 ∧ contiguous_feed → explained None records = true).
Proof.
  intros Ht Hf Hok Hr Hc Hgot Hrd records. pose proof (run_streamed envs t f log pos st s' f' ev Ht Hf Hok Hr) as Hall.
  rewrite Forall_forall in Hall. specialize (Hall conn Hc).
  destruct (streamed_cut _ _ t conn got Ht Hall Hgot) as (bs & tail & -> & Hb & Hp & Hs & Hfw & He & Hreal).
  destruct (reads_batches calls make_stream (concat (map batch_bytes bs) ++ tail) rs cs net bs tail)
    as (k & K1 & K2 & _); try done; [by apply sendable_accepted|].
  assert (records = concat (take k bs)) as Er by (unfold records, consumer_records; by rewrite K1).
  rewrite (concat_prefix bs k), <- Er in Hfw, He, Hreal.
  rewrite forward_app, andb_true_iff in Hfw. rewrite explained_app, andb_true_iff in He.
  apply Forall_app in Hreal as [Hreal _]. split_and!; try tauto.
  rewrite Er. apply Forall_concat, Forall_take. eapply Forall_impl; [exact Hs|]. intros b [Hb' _].
  eapply Forall_impl; [exact Hb'|]. apply sendable_wf.
Qed.

(** The counters of a tracker over a forward stream add up. *)
Lemma tracker_adds_up records n :
  Forall frame_wf records → forward None records = true → resume_all None records = Some n →
  let stats := gt_s (observe_all tracker_init records) in
  gs_frames stats = Z.of_nat (length (filter (λ g, is_control g = false) records)) ∧
  gs_frames stats + gs_reported_lost stats + gs_absent_frames stats + gs_silent_lost stats
  = n - first_seq records.
Proof.
  intros Hwf Hfw Hn stats.
  destruct (observe_all_tracks records _ _ _ Hwf Hfw tracker_init_tracks) as [H1 H2 H3 H4 _ _ _ _].
  simpl app in *. fold stats in H1, H2, H3, H4. split; [by rewrite H1, received_real|].
  rewrite H1, H2, H3, H4. rewrite <- (fates_length_none _ _ Hwf Hfw Hn).
  rewrite <- fate_count_total. lia.
Qed.

Lemma tracker_nothing_silent records :
  Forall frame_wf records → forward None records = true → explained None records = true →
  let stats := gt_s (observe_all tracker_init records) in
  gs_silent_jumps stats = 0 ∧ gs_silent_lost stats = 0.
Proof.
  intros Hwf Hfw Hex stats.
  destruct (observe_all_tracks _ _ _ _ Hwf Hfw tracker_init_tracks) as [_ _ _ H4 _ H6 _ _].
  simpl app in H4. fold stats in H4, H6. apply explained_fates in Hex; [|done|done].
  rewrite Hex in H4. split; [by apply H6|done].
Qed.

(** ** Properties *)

(** End to end, on any feed. After any run of an egress thread, and any reading of any
    part of one of its connections by its consumer: the consumer never sees a protocol error; every
    frame it was given is a published frame, unaltered, at its position; and its tracker's
    counters add up to every sequence number from the first one seen to the next one
    expected, each counted as received, reported lost, absent or silently lost, once. *)
Theorem pipeline_accounted {F E} `{!ConsumerFeed F E, !FeedSpec F E} (envs : list (IterEnv E)) t
    (f : F) log pos st s' f' ev conn got calls rs cs net n :
  1 <= max_frames t <= kMaxBatch → feed_at f log pos → loop_ok envs (make_egress t) f log →
  run_loop envs (make_egress t) f = Some (st, s', f', ev) → conn ∈ connections ev → got `prefix_of` conn →
  reads calls make_stream got = Some (rs, cs, net) →
  let records := consumer_records rs in
  let stats := gt_s (observe_all tracker_init records) in
  resume_all None records = Some n →
  Forall (λ r, r.1 ≠ Status.kProtocolError) rs ∧
  Forall (λ g, is_control g = false → of_log (loop_log envs (make_egress t) f log) g) records ∧
  gs_frames stats = Z.of_nat (length (filter (λ g, is_control g = false) records)) ∧
  gs_frames stats + gs_reported_lost stats + gs_absent_frames stats + gs_silent_lost stats
  = n - first_seq records.
Proof.
  intros Ht Hf Hok Hr Hc Hgot Hrd records stats Hn.
  destruct (pipeline_stream envs t f log pos st s' f' ev conn got calls rs cs net) as (H1 & H2 & H3 & H4 & _); try done.
  split; [done|]. split; [done|]. by apply tracker_adds_up.
Qed.

(** No silent loss in topology A. With a queue per consumer and no lingering, whatever the
    queue overwrites, however slow the consumer is and however often it reconnects, the
    tracker of a consumer reading its connection never counts a silent jump: every hole in
    the sequence numbers was announced by a marker that covers it exactly. *)
Theorem pipeline_queue_no_silent_jumps (envs : list (IterEnv QueueFeed.Env)) t (f : QueueFeed.t)
    log pos st s' f' ev conn got calls rs cs net :
  1 <= max_frames t <= kMaxBatch → linger_us t = 0 →
  feed_at f log pos → loop_ok envs (make_egress t) f log →
  run_loop envs (make_egress t) f = Some (st, s', f', ev) → conn ∈ connections ev → got `prefix_of` conn →
  reads calls make_stream got = Some (rs, cs, net) →
  let stats := gt_s (observe_all tracker_init (consumer_records rs)) in
  gs_silent_jumps stats = 0 ∧ gs_silent_lost stats = 0.
Proof.
  intros Ht Hl Hf Hok Hr Hc Hgot Hrd stats.
  destruct (pipeline_stream envs t f log pos st s' f' ev conn got calls rs cs net) as (_ & H2 & H3 & _ & H5); try done.
  apply tracker_nothing_silent; [done..|]. apply H5. split; [done|]. intros m e q lg p.
  apply QueueFeed.feed_contiguous.
Qed.

(** ** Jumps the gateway does not announce *)

(** A fast socket, a client already there after the first iteration. *)
Definition fast_socket : list SendAnswer := [mkSend 100000 EOther 0 false false].

Definition ring_iter (wait : list WaitAnswer) (e : RingFeed.Env) (flush : list SendAnswer)
  : IterEnv RingFeed.Env :=
  mkIter wait [] 0 false [] 0 e 0 [] 100 200 flush.

(** The tracker of a consumer that reads everything the connection carries. *)
Definition report {F} (r : option (RunStatus * Egress * F * list NetEvent)) (calls : nat)
  : option (list Z * TrackerStats * Z) :=
  match r with
  | Some (_, s, _, ev) =>
      match reads (replicate calls (replicate 4 (RdSome 100000))) make_stream (conn_bytes ev) with
      | Some (rs, _, _) =>
          let l := consumer_records rs in
          Some (map f_seq l, gt_s (observe_all tracker_init l), counters_ s gaps_sent_)
      | None => None
      end
  | None => None
  end.

(** Topology B: the ring laps the reader between two reads of one batch. The batch then
    skips a position, [note_gap] only looks at its first frame, and the consumer counts a
    silent jump of two frames that the ring's cursor did count as missed. *)
Lemma ring_lap_inside_batch_is_silent :
  let r := run_loop [ring_iter demo_wait
                       (RingFeed.mkEnv [[RingFeed.ROpPublish (map demo_frame [10; 11])];
                                        [RingFeed.ROpPublish (map demo_frame [12; 13; 14])]] [] [])
                       fast_socket]
             (make_egress (mkTuning 256 0 0)) (RingFeed.make demo_ring) in
  ∃ stats, report r 1 = Some ([0; 3; 4], stats, 0) ∧ gs_silent_jumps stats = 1 ∧
           gs_silent_lost stats = 2 ∧ gs_reported_lost stats = 0.
Proof. eexists. vm_compute. by split_and!. Qed.

(** Topology A with lingering: frames overwritten between the first [pop_batch] and the
    one of [coalesce] leave a hole in the middle of the batch that is sent. *)
Lemma linger_hole_is_silent :
  let env := mkIter demo_wait [] 0 false [] 0
               (QueueFeed.mkEnv [BoundedQueue.OpPush (map stamp [0; 1])] []) 1000
               [(1001, QueueFeed.mkEnv [BoundedQueue.OpPush (map stamp [2; 3; 4])] [])]
               100 200 fast_socket in
  let r := run_loop [env] (make_egress (mkTuning 256 50 0)) demo_queue in
  ∃ stats, report r 1 = Some ([0; 1; 3; 4], stats, 0) ∧ gs_silent_jumps stats = 1.
Proof. eexists. vm_compute. by split_and!. Qed.

(** A batch whose write fails is forgotten: [note_gap] has already moved past it, so the
    first batch of the next connection carries no marker for it. Frames 2 and 3 reach
    nobody and no counter of the egress mentions them. *)
Lemma failed_write_is_silent :
  let it w ops flush := mkIter w [] 0 false [] 0 (QueueFeed.mkEnv ops []) 0 [] 100 200 flush in
  let r := run_loop
             [it demo_wait [BoundedQueue.OpPush (map stamp [0; 1])] fast_socket;
              it [] [BoundedQueue.OpPush (map stamp [2; 3])] [mkSend (-1) EOther 0 false false];
              it demo_wait [BoundedQueue.OpPush (map stamp [4])] fast_socket]
             (make_egress (mkTuning 256 0 0)) demo_queue in
  ∃ stats, report r 1 = Some ([4], stats, 0) ∧ gs_markers stats = 0 ∧
           match r with
           | Some (_, s, _, _) => counters_ s frames_lost_ = 0 ∧ counters_ s frames_sent_ = 3
           | None => False
           end.
Proof. eexists. vm_compute. by split_and!. Qed.

(** ** Witnesses *)

Lemma pipeline_demo :
  match run_loop demo_envs (make_egress demo_tuning) demo_queue with
  | Some (_, _, _, ev) =>
      match reads [replicate 4 (RdSome 100000); replicate 4 (RdSome 100000)] make_stream (conn_bytes ev) with
      | Some (rs, _, _) => resume_all None (consumer_records rs) = Some 5 ∧
                           map f_seq (consumer_records rs) = [0; 1; 1; 2; 3; 4]
      | None => False
      end
  | None => False
  end.
Proof. vm_compute. by split_and!. Qed.

Lemma pipeline_accounted_witness :
  ∃ st s' f' ev rs cs net,
    run_loop demo_envs (make_egress demo_tuning) demo_queue = Some (st, s', f', ev) ∧
    reads [replicate 4 (RdSome 100000); replicate 4 (RdSome 100000)] make_stream (conn_bytes ev)
    = Some (rs, cs, net) ∧
    let stats := gt_s (observe_all tracker_init (consumer_records rs)) in
    gs_frames stats + gs_reported_lost stats + gs_absent_frames stats + gs_silent_lost stats
    = 5 - first_seq (consumer_records rs).
Proof.
  pose proof pipeline_demo as Hd.
  pose proof (λ st s' f' ev, pipeline_accounted demo_envs demo_tuning demo_queue [] 0 st s' f' ev (conn_bytes ev) (conn_bytes ev)
    [replicate 4 (RdSome 100000); replicate 4 (RdSome 100000)]) as H.
  destruct (run_loop demo_envs (make_egress demo_tuning) demo_queue) as [[[[st s'] f'] ev]|];
    [|contradiction].
  specialize (λ rs cs net, H st s' f' ev rs cs net 5 demo_tuning_ok demo_queue_at demo_loop_ok eq_refl
                (current_connection ev) (reflexivity _)).
  destruct (reads _ make_stream (conn_bytes ev)) as [[[rs cs] net]|] eqn:Er; [|contradiction].
  exists st, s', f', ev, rs, cs, net. split; [exact eq_refl|]. split; [exact Er|].
  exact (proj2 (proj2 (proj2 (H rs cs net eq_refl (proj1 Hd))))).
Defined.

Lemma pipeline_queue_no_silent_jumps_witness :
  ∃ st s' f' ev rs cs net,
    run_loop demo_envs (make_egress demo_tuning) demo_queue = Some (st, s', f', ev) ∧
    reads [replicate 4 (RdSome 100000); replicate 4 (RdSome 100000)] make_stream (conn_bytes ev)
    = Some (rs, cs, net) ∧
    gs_silent_jumps (gt_s (observe_all tracker_init (consumer_records rs))) = 0.
Proof.
  pose proof pipeline_demo as Hd.
  pose proof (λ st s' f' ev, pipeline_queue_no_silent_jumps demo_envs demo_tuning demo_queue [] 0 st s' f' ev (conn_bytes ev) (conn_bytes ev)
    [replicate 4 (RdSome 100000); replicate 4 (RdSome 100000)]) as H.
  destruct (run_loop demo_envs (make_egress demo_tuning) demo_queue) as [[[[st s'] f'] ev]|];
    [|contradiction].
  specialize (λ rs cs net, H st s' f' ev rs cs net demo_tuning_ok eq_refl demo_queue_at demo_loop_ok eq_refl
                (current_connection ev) (reflexivity _)).
  destruct (reads _ make_stream (conn_bytes ev)) as [[[rs cs] net]|] eqn:Er; [|contradiction].
  exists st, s', f', ev, rs, cs, net. split; [exact eq_refl|]. split; [exact Er|].
  exact (proj1 (H rs cs net eq_refl)).
Defined.
