(* ===== verification/Sources.v ===== *)
(** * Sources: where frames come from (src/src/source.hpp, src/src/can_source.cpp,
      src/src/synthetic_source.cpp)

    [Source] is the abstract class; [SourceSpec] what the ingest threads rely on: a
    drain yields bus frames of that source, at most as many as asked for, and counts
    them. [CanSource] and [SyntheticSource] are the two implementations; what the
    kernel returns to them is an argument. *)

From S2P Require Import Prelude Frame Wire BoundedQueue BroadcastRing Feed.

Record SourceStats := mkSourceStats {
  ss_frames : Z;
  ss_kernel_drops : Z;
  ss_read_errors : Z;
  ss_malformed : Z
}.

(** [A] is what the kernel answers to one [drain]. *)
Class Source (S A : Type) := {
  source_id : S → Z;
  drain : nat → A → S → list Frame * S;
  source_stats : S → SourceStats
}.

Class SourceSpec (S A : Type) `{!Source S A} := {
  source_wf : S → Prop;
  answer_ok : A → Prop;
  drain_spec n a s :
    source_wf s → answer_ok a →
    source_wf (drain n a s).2 ∧ source_id (drain n a s).2 = source_id s ∧
    (length (drain n a s).1 <= n)%nat ∧
    Forall (λ f, bus_frame f ∧ f_seq f = 0 ∧ f_src_id f = source_id s) (drain n a s).1 ∧
    ss_frames (source_stats (drain n a s).2)
    = u64 (ss_frames (source_stats s) + Z.of_nat (length (drain n a s).1))
}.

(** ** Clock domains *)
Definition kMaxPlausibleLatencyNs : Z := 10000000000.

Definition same_clock_domain (delay_ns : Z) : bool :=
  (delay_ns >=? 0) && (delay_ns <=? kMaxPlausibleLatencyNs).

(** ** CanSource *)

Module Can.
Definition kBatch : nat := 64.

(** linux/can.h. *)
Definition CAN_EFF_FLAG : Z := 0x80000000.
Definition CAN_RTR_FLAG : Z := 0x40000000.
Definition CAN_ERR_FLAG : Z := 0x20000000.
Definition CAN_SFF_MASK : Z := 0x7FF.
Definition CAN_EFF_MASK : Z := 0x1FFFFFFF.

Definition to_ns (tv_sec tv_nsec : Z) : Z := u64 (u64 (u64 tv_sec * 1000000000) + u64 tv_nsec).

Definition translate_flags (id : Z) : Z :=
  let f := 0 in
  let f := if negb (Z.land id CAN_EFF_FLAG =? 0) then Z.lor f kExtendedId else f in
  let f := if negb (Z.land id CAN_RTR_FLAG =? 0) then Z.lor f kRemote else f in
  if negb (Z.land id CAN_ERR_FLAG =? 0) then Z.lor f kError else f.

(** One control message of a received datagram. *)
Inductive Cmsg :=
  | CmTimestamping (tv_sec tv_nsec : Z)
  | CmOverflow (ovfl : Z)
  | CmOther.

(** One datagram: its length in bytes, its control messages, and the [can_frame]. *)
Record Msg := mkMsg {
  m_len : Z;
  m_control : list Cmsg;
  m_can_id : Z;
  m_can_dlc : Z;
  m_data : list Z
}.

(** [recvmmsg]: failure (with whether it is EAGAIN), or datagrams, and the clock. *)
Inductive Answer :=
  | RecvFail (again : bool)
  | Recv (msgs : list Msg) (t_ingest : Z).

Record t := mkCan {
  src_id_ : Z;
  stats_ : SourceStats;
  last_ovfl_ : Z;
  have_ovfl_ : bool
}.

Definition make (src_id : Z) : t := mkCan src_id (mkSourceStats 0 0 0 0) 0 false.

Definition set_stats (st : SourceStats) (s : t) : t :=
  mkCan (src_id_ s) st (last_ovfl_ s) (have_ovfl_ s).

(** The control-message loop; the accumulator is [t_kernel]. *)
Definition take_cmsg (acc : Z * t) (cm : Cmsg) : Z * t :=
  let '(t_kernel, s) := acc in
  match cm with
  | CmTimestamping sec nsec => (to_ns sec nsec, s)
  | CmOverflow ovfl =>
      let st := stats_ s in
      let st := if have_ovfl_ s
                then mkSourceStats (ss_frames st)
                       (u64 (ss_kernel_drops st + u32 (ovfl - last_ovfl_ s)))
                       (ss_read_errors st) (ss_malformed st)
                else st in
      (t_kernel, mkCan (src_id_ s) st ovfl true)
  | CmOther => (t_kernel, s)
  end.

(** [memcpy] of [len] payload bytes over a zeroed array. *)
Definition copy_payload (len : Z) (data : list Z) : list Z :=
  take (Z.to_nat len) data ++ replicate (8 - Nat.min (Z.to_nat len) (length data)) 0.

Definition frame_of (m : Msg) (t_kernel t_ingest src : Z) : Frame :=
  let flags := translate_flags (m_can_id m) in
  let mask := if negb (Z.land flags kExtendedId =? 0) then CAN_EFF_MASK else CAN_SFF_MASK in
  let len := if m_can_dlc m >? Z.of_nat kMaxPayload then Z.of_nat kMaxPayload else m_can_dlc m in
  mkFrame 0 t_kernel t_ingest (Z.land (m_can_id m) mask) src len flags 0
    (copy_payload len (m_data m)).

(** The message loop. [sizeof(struct can_frame)] is 16. *)
Fixpoint take_msgs (t_ingest : Z) (msgs : list Msg) (s : t) : list Frame * t :=
  match msgs with
  | [] => ([], s)
  | m :: msgs =>
      if m_len m <? 16 then
        let st := stats_ s in
        take_msgs t_ingest msgs
          (set_stats (mkSourceStats (ss_frames st) (ss_kernel_drops st) (ss_read_errors st)
                        (u64 (ss_malformed st + 1))) s)
      else
        let '(t_kernel, s) := fold_left take_cmsg (m_control m) (0, s) in
        let '(out, s') := take_msgs t_ingest msgs s in
        (frame_of m t_kernel t_ingest (src_id_ s) :: out, s')
  end.

Definition count_frames (n : Z) (s : t) : t :=
  let st := stats_ s in
  set_stats (mkSourceStats (u64 (ss_frames st + n)) (ss_kernel_drops st) (ss_read_errors st)
               (ss_malformed st)) s.

(** [recvmmsg] returns at most [want] datagrams. *)
Definition can_drain (n : nat) (a : Answer) (s : t) : list Frame * t :=
  let want := Nat.min n kBatch in
  if (want =? 0)%nat then ([], s)
  else
    match a with
    | RecvFail again =>
        let st := stats_ s in
        ([], if again then s
             else set_stats (mkSourceStats (ss_frames st) (ss_kernel_drops st)
                               (u64 (ss_read_errors st + 1)) (ss_malformed st)) s)
    | Recv msgs t_ingest =>
        match take want msgs with
        | [] => ([], s)
        | msgs => let '(out, s) := take_msgs t_ingest msgs s in
                  (out, count_frames (Z.of_nat (length out)) s)
        end
    end.

#[global] Instance source : Source t Answer := {
  source_id := src_id_;
  drain := can_drain;
  source_stats := stats_
}.

(** A [can_frame] as the kernel fills it: every field within its width. *)
Definition msg_ok (m : Msg) : Prop :=
  fits 32 (m_can_id m) ∧ fits 8 (m_can_dlc m) ∧ length (m_data m) = 8%nat ∧
  Forall is_byte (m_data m) ∧ Forall (λ c, match c with CmOverflow v => fits 32 v | _ => True end) (m_control m).

#[global] Instance msg_ok_dec m : Decision (msg_ok m).
Proof. unfold msg_ok. repeat apply and_dec; try apply _. apply Forall_dec. intros []; apply _. Defined.

Definition can_answer_ok (a : Answer) : Prop :=
  match a with RecvFail _ => True | Recv msgs t => Forall msg_ok msgs ∧ fits 64 t end.

#[global] Instance can_answer_ok_dec a : Decision (can_answer_ok a).
Proof. destruct a; apply _. Defined.

Definition can_wf (s : t) : Prop :=
  fits 8 (src_id_ s) ∧ fits 64 (ss_frames (stats_ s)) ∧ fits 32 (last_ovfl_ s).

(** *** Lemmas *)

Lemma masked_id id flags :
  fits 32 (Z.land id (if negb (Z.land flags kExtendedId =? 0) then CAN_EFF_MASK else CAN_SFF_MASK)).
Proof.
  unfold CAN_EFF_MASK, CAN_SFF_MASK, fits. case_match.
  - change 0x1FFFFFFF with (Z.ones 29). rewrite Z.land_ones by lia.
    pose proof (Z.mod_pos_bound id (2 ^ 29)). lia.
  - change 0x7FF with (Z.ones 11). rewrite Z.land_ones by lia.
    pose proof (Z.mod_pos_bound id (2 ^ 11)). lia.
Qed.

(** The only bits a CAN id can set are the three that describe a bus frame. *)
Lemma translate_flags_bits id :
  fits 8 (translate_flags id) ∧ Z.land (translate_flags id) kReservedMask = 0 ∧
  Z.land (translate_flags id) (Z.lor kGap kEcho) = 0.
Proof.
  unfold translate_flags. do 3 (destruct (negb _)); by vm_compute.
Qed.

Lemma copy_payload_ok len data :
  0 <= len <= 8 → length data = 8%nat → Forall is_byte data →
  length (copy_payload len data) = 8%nat ∧ Forall is_byte (copy_payload len data).
Proof.
  intros Hl Hd Hb. unfold copy_payload. split.
  - rewrite length_app, length_take, length_replicate. lia.
  - apply Forall_app. split; [by apply Forall_take|]. by apply Forall_replicate.
Qed.

Lemma frame_of_bus m tk ti src :
  msg_ok m → fits 64 tk → fits 64 ti → fits 8 src → bus_frame (frame_of m tk ti src).
Proof.
  intros (H1 & H2 & H3 & H4 & _) Htk Hti Hsrc.
  destruct (translate_flags_bits (m_can_id m)) as (F1 & F2 & F3).
  set (len := if m_can_dlc m >? Z.of_nat kMaxPayload then Z.of_nat kMaxPayload else m_can_dlc m).
  assert (0 <= len <= 8) as Hlen.
  { unfold len. unfold fits in H2. rewrite Z.gtb_ltb. change (Z.of_nat kMaxPayload) with 8.
    destruct (Z.ltb_spec 8 (m_can_dlc m)); lia. }
  destruct (copy_payload_ok len (m_data m) Hlen H3 H4) as [P1 P2].
  split; [|unfold is_control; simpl; by rewrite F3].
  split; [|done]. split; [|split; [exact F2|exact (proj2 Hlen)]].
  unfold frame_wf, frame_of. simpl f_seq. simpl f_t_kernel_ns. simpl f_t_ingest_ns. simpl f_src_id.
  simpl f_reserved. simpl f_flags. cbn [f_can_id f_len f_data]. fold len.
  split_and!; try done; try lia; try apply masked_id; try (unfold fits; lia).
Qed.

Lemma take_cmsgs_spec l tk s :
  fits 64 tk → can_wf s →
  Forall (λ c, match c with CmOverflow v => fits 32 v | _ => True end) l →
  let r := fold_left take_cmsg l (tk, s) in
  fits 64 r.1 ∧ can_wf r.2 ∧ src_id_ r.2 = src_id_ s ∧
  ss_frames (stats_ r.2) = ss_frames (stats_ s) ∧
  ss_malformed (stats_ r.2) = ss_malformed (stats_ s).
Proof.
  intros Htk Hwf Hl. revert tk s Htk Hwf. induction Hl as [|c l Hc _ IH]; intros tk s Htk Hwf; [done|].
  simpl. destruct c as [sec nsec|v|].
  - apply IH; [apply u64_fits|done].
  - destruct Hwf as (W1 & W2 & W3).
    match goal with |- context [fold_left take_cmsg l (tk, ?x)] => set (s1 := x) end.
    assert (can_wf s1 ∧ ss_frames (stats_ s1) = ss_frames (stats_ s) ∧
            ss_malformed (stats_ s1) = ss_malformed (stats_ s)) as (H1 & <- & <-)
      by (unfold can_wf, s1; simpl; by destruct (have_ovfl_ s)).
    by apply (IH tk s1).
  - by apply IH.
Qed.

Lemma take_msgs_spec ti msgs s :
  fits 64 ti → can_wf s → Forall msg_ok msgs → fits 64 (ss_malformed (stats_ s)) →
  let r := take_msgs ti msgs s in
  can_wf r.2 ∧ src_id_ r.2 = src_id_ s ∧ (length r.1 <= length msgs)%nat ∧
  Forall (λ f, bus_frame f ∧ f_seq f = 0 ∧ f_src_id f = src_id_ s) r.1 ∧
  ss_frames (stats_ r.2) = ss_frames (stats_ s) ∧
  ss_malformed (stats_ r.2)
  = u64 (ss_malformed (stats_ s) + Z.of_nat (length msgs - length r.1)).
Proof.
  intros Hti Hwf Hm. revert s Hwf. induction Hm as [|m msgs Hm _ IH]; intros s Hwf Hmal.
  { simpl. rewrite Z.add_0_r, u64_small by done. done. }
  cbn [take_msgs]. destruct (m_len m <? 16).
  - set (s1 := set_stats _ s).
    destruct (IH s1 Hwf ltac:(apply u64_fits)) as (K1 & K2 & K3 & K4 & K5 & K6).
    split_and!; try done; [simpl; lia|]. rewrite K6. simpl ss_malformed. rewrite u64_add_l. f_equal.
    simpl length. lia.
  - pose proof (take_cmsgs_spec (m_control m) 0 s ltac:(done) Hwf) as Hc.
    destruct (fold_left take_cmsg (m_control m) (0, s)) as [tk s1].
    destruct Hc as (C1 & C2 & C3 & C4 & C5); [apply Hm|]. simpl in C1, C2, C3, C4, C5.
    destruct (IH s1 C2 ltac:(by rewrite C5)) as (K1 & K2 & K3 & K4 & K5 & K6).
    destruct (take_msgs ti msgs s1) as [out s2]. simpl in *.
    rewrite K2, K5, K6, C4, C5. split_and!; try done; [lia|].
    constructor; [|by rewrite C3 in K4].
    split; [|done]. apply frame_of_bus; try done. destruct C2 as (C2 & _ & _). done.
Qed.

#[global] Program Instance source_spec : SourceSpec t Answer := {
  source_wf s := can_wf s ∧ fits 64 (ss_malformed (stats_ s));
  answer_ok := can_answer_ok
}.
Next Obligation.
  intros n a s [Hwf Hmal] Ha. simpl. unfold can_drain.
  assert (∀ s', can_wf s' → fits 64 (ss_malformed (stats_ s')) → src_id_ s' = src_id_ s →
    ss_frames (stats_ s') = ss_frames (stats_ s) →
    (can_wf s' ∧ fits 64 (ss_malformed (stats_ s'))) ∧ src_id_ s' = src_id_ s ∧ (0 <= n)%nat ∧
    Forall (λ f, bus_frame f ∧ f_seq f = 0 ∧ f_src_id f = src_id_ s) [] ∧
    ss_frames (stats_ s') = u64 (ss_frames (stats_ s) + Z.of_nat 0)) as Hnone.
  { intros s' H1 H2 H3 H4. split_and!; try done; [lia|].
    rewrite Z.add_0_r, H4, u64_small; [done|]. by destruct Hwf as (_ & ? & _). }
  destruct (Nat.min n kBatch =? 0)%nat; [by apply Hnone|].
  destruct a as [again|msgs ti]; [apply Hnone; by destruct again|].
  destruct (take (Nat.min n kBatch) msgs) as [|m l] eqn:Et; [by apply Hnone|].
  destruct Ha as [Ha Hti].
  assert (Forall msg_ok (m :: l)) as Hm by (rewrite <- Et; by apply Forall_take).
  pose proof (take_msgs_spec ti (m :: l) s Hti Hwf Hm Hmal) as H. cbv zeta in H.
  destruct (take_msgs ti (m :: l) s) as [out s1]. destruct H as (K1 & K2 & K3 & K4 & K5 & K6).
  simpl in *. apply (f_equal length) in Et. rewrite length_take in Et. simpl in Et.
  rewrite K5. destruct K1 as (K1 & _ & K7). split; [|split_and!; try done; lia].
  split; [split_and!; try done; apply u64_fits|]. simpl. rewrite K6. apply u64_fits.
Qed.

(** The overflow readings among control messages, in order. *)
Definition readings (l : list Cmsg) : list Z :=
  omap (λ c, match c with CmOverflow v => Some v | _ => None end) l.

(** Cumulative drop counts that never advance by a full turn of the 32-bit counter
    between two readings. *)
Fixpoint slow_growth (d : Z) (ds : list Z) : Prop :=
  match ds with
  | [] => True
  | e :: ds => 0 <= e - d < 2 ^ 32 ∧ slow_growth e ds
  end.

#[global] Instance slow_growth_dec d ds : Decision (slow_growth d ds).
Proof. revert d. induction ds; intros d; simpl; apply _. Defined.

Lemma overflow_delta d e : 0 <= e - d < 2 ^ 32 → u32 (u32 e - u32 d) = e - d.
Proof. intros H. unfold u32. pow_consts. zmod. Qed.

Lemma last_default {A} (x : A) l d d' : List.last (x :: l) d = List.last (x :: l) d'.
Proof. revert x. induction l as [|y l IH]; intros x; [done|]. exact (IH y). Qed.

Lemma overflow_seen l ds d tk s :
  readings l = map u32 ds → slow_growth d ds → have_ovfl_ s = true → last_ovfl_ s = u32 d →
  fits 64 (ss_kernel_drops (stats_ s)) →
  ss_kernel_drops (stats_ (fold_left take_cmsg l (tk, s)).2)
  = u64 (ss_kernel_drops (stats_ s) + (List.last ds d - d)).
Proof.
  revert ds d tk s. induction l as [|c l IH]; intros ds d tk s Hr Hg Hh Hl Hf.
  { destruct ds; [|done]. simpl. rewrite Z.sub_diag, Z.add_0_r, u64_small; done. }
  destruct c as [sec nsec|v|]; [by apply IH| |by apply IH].
  destruct ds as [|e ds]; [done|]. injection Hr as -> Hr. destruct Hg as [Hg1 Hg2].
  simpl fold_left. rewrite Hh, Hl, overflow_delta by done.
  rewrite (IH ds e); [|done|done|done|done|apply u64_fits].
  simpl stats_. simpl ss_kernel_drops. rewrite u64_add_l. f_equal.
  destruct ds as [|x ds]; [simpl; lia|]. change (List.last (e :: x :: ds) d) with (List.last (x :: ds) d).
  rewrite (last_default x ds e d). lia.
Qed.

Lemma overflow_first l ds d tk s :
  readings l = map u32 (d :: ds) → slow_growth d ds → have_ovfl_ s = false →
  fits 64 (ss_kernel_drops (stats_ s)) →
  ss_kernel_drops (stats_ (fold_left take_cmsg l (tk, s)).2)
  = u64 (ss_kernel_drops (stats_ s) + (List.last ds d - d)).
Proof.
  revert tk s. induction l as [|c l IH]; intros tk s Hr Hg Hh Hf; [done|].
  destruct c as [sec nsec|v|]; [by apply IH| |by apply IH].
  injection Hr as -> Hr. simpl fold_left. rewrite Hh.
  by rewrite (overflow_seen l ds d).
Qed.

(** The control messages one drain looks at: those of the well-formed datagrams it takes. *)
Definition controls (msgs : list Msg) : list Cmsg :=
  concat (map m_control (filter (λ m, 16 <= m_len m) msgs)).

Definition drain_controls (n : nat) (a : Answer) : list Cmsg :=
  match a with Recv msgs _ => controls (take (Nat.min n kBatch) msgs) | RecvFail _ => [] end.

(** What the overflow accounting remembers. *)
Definition ovfl_state (s : t) : Z * Z * bool := (ss_kernel_drops (stats_ s), last_ovfl_ s, have_ovfl_ s).

Lemma take_cmsg_ovfl c tk tk' s s' :
  ovfl_state s = ovfl_state s' →
  ovfl_state (take_cmsg (tk, s) c).2 = ovfl_state (take_cmsg (tk', s') c).2.
Proof.
  unfold ovfl_state. intros H. simplify_eq. destruct c; simpl; [congruence| |congruence].
  replace (have_ovfl_ s') with (have_ovfl_ s) by congruence. destruct (have_ovfl_ s); simpl; congruence.
Qed.

Lemma take_cmsgs_ovfl l tk tk' s s' :
  ovfl_state s = ovfl_state s' →
  ovfl_state (fold_left take_cmsg l (tk, s)).2 = ovfl_state (fold_left take_cmsg l (tk', s')).2.
Proof.
  revert tk tk' s s'. induction l as [|c l IH]; intros tk tk' s s' H; [done|]. cbn [fold_left].
  pose proof (take_cmsg_ovfl c tk tk' s s' H) as H1.
  destruct (take_cmsg (tk, s) c) as [k1 s1], (take_cmsg (tk', s') c) as [k2 s2]. by apply IH.
Qed.

Lemma take_msgs_ovfl ti msgs tk s :
  ovfl_state (take_msgs ti msgs s).2 = ovfl_state (fold_left take_cmsg (controls msgs) (tk, s)).2.
Proof.
  revert tk s. induction msgs as [|m msgs IH]; intros tk s; [done|]. cbn [take_msgs].
  unfold controls. rewrite filter_cons. destruct (Z.ltb_spec (m_len m) 16).
  - rewrite decide_False by lia. etrans; [apply (IH tk)|]. by apply take_cmsgs_ovfl.
  - rewrite decide_True by lia. simpl map. simpl concat. rewrite fold_left_app.
    pose proof (take_cmsgs_ovfl (m_control m) 0 tk s s eq_refl) as H1.
    destruct (fold_left take_cmsg (m_control m) (0, s)) as [k1 s1].
    destruct (fold_left take_cmsg (m_control m) (tk, s)) as [k2 s2].
    pose proof (IH k1 s1) as H2. destruct (take_msgs ti msgs s1) as [out s3]. etrans; [exact H2|].
    by apply take_cmsgs_ovfl.
Qed.

Lemma can_drain_ovfl n a tk s :
  ovfl_state (can_drain n a s).2 = ovfl_state (fold_left take_cmsg (drain_controls n a) (tk, s)).2.
Proof.
  unfold can_drain, drain_controls. destruct a as [again|msgs ti]; [by destruct (_ =? 0)%nat, again|].
  destruct (Nat.eqb_spec (Nat.min n kBatch) 0) as [->|_]; [done|].
  destruct (take (Nat.min n kBatch) msgs) as [|m l]; [done|]. rewrite <- (take_msgs_ovfl ti).
  by destruct (take_msgs ti (m :: l) s).
Qed.

(** A sequence of drains. *)
Definition drain_all (calls : list (nat * Answer)) (s : t) : t :=
  fold_left (λ s c, (can_drain c.1 c.2 s).2) calls s.

Lemma drain_all_ovfl calls tk s :
  ovfl_state (drain_all calls s)
  = ovfl_state (fold_left take_cmsg (concat (map (λ c, drain_controls c.1 c.2) calls)) (tk, s)).2.
Proof.
  revert tk s. induction calls as [|[n a] calls IH]; intros tk s; [done|].
  simpl map. simpl concat. rewrite fold_left_app. etrans; [apply (IH tk)|].
  pose proof (can_drain_ovfl n a tk s) as H. simpl.
  destruct (fold_left take_cmsg (drain_controls n a) (tk, s)) as [k1 s1]. by apply take_cmsgs_ovfl.
Qed.
End Can.

(** ** SyntheticSource *)

Module Synth.
Record Config := mkConfig {
  cfg_src_id : Z;
  period_ns : Z;
  frames_per_tick : Z;
  can_ids : list Z
}.

Record t := mkSynth { cfg_ : Config; stats_ : SourceStats; counter_ : Z; pending_ : Z }.

Definition make (cfg : Config) : t := mkSynth cfg (mkSourceStats 0 0 0 0) 0 0.

(** [open], with what [timerfd_create] and [timerfd_settime] return and their errors. *)
Definition open (cfg : Config) (timerfd settime : Z * string) : string + t :=
  match can_ids cfg with
  | [] => inl "synthetic source needs at least one CAN id"%string
  | _ =>
      if (period_ns cfg =? 0) || (frames_per_tick cfg =? 0)
      then inl "synthetic source needs a non-zero period and frames_per_tick"%string
      else if timerfd.1 <? 0 then inl ("timerfd_create: " +:+ timerfd.2)%string
      else if settime.1 <? 0 then inl ("timerfd_settime: " +:+ settime.2)%string
      else inr (make cfg)
  end.

(** The timer read: how many expirations, or a failure; and the two clocks. *)
Inductive TimerRead := Expired (n : Z) | TimerFail (again : bool).
Record Answer := mkAnswer { a_timer : TimerRead; a_kernel : Z; a_ingest : Z }.

Definition frame_at (cfg : Config) (tk ti counter : Z) : Frame :=
  mkFrame 0 tk ti (nth (Z.to_nat (counter mod Z.of_nat (length (can_ids cfg)))) (can_ids cfg) 0)
    (cfg_src_id cfg) 8 0 0 (map (byte_of counter) (seq 0 kMaxPayload)).

Definition read_timer (r : TimerRead) (s : t) : t :=
  match r with
  | Expired n => mkSynth (cfg_ s) (stats_ s) (counter_ s)
                   (u64 (pending_ s + u64 (n * frames_per_tick (cfg_ s))))
  | TimerFail again =>
      let st := stats_ s in
      if again then s
      else mkSynth (cfg_ s) (mkSourceStats (ss_frames st) (ss_kernel_drops st)
                               (u64 (ss_read_errors st + 1)) (ss_malformed st))
             (counter_ s) (pending_ s)
  end.

Definition synth_drain (n : nat) (a : Answer) (s : t) : list Frame * t :=
  let s := read_timer (a_timer a) s in
  let want := if Z.of_nat n <? pending_ s then Z.of_nat n else pending_ s in
  let out := map (λ i, frame_at (cfg_ s) (a_kernel a) (a_ingest a) (u64 (counter_ s + Z.of_nat i)))
                 (seq 0 (Z.to_nat want)) in
  let st := stats_ s in
  (out, mkSynth (cfg_ s)
          (mkSourceStats (u64 (ss_frames st + want)) (ss_kernel_drops st) (ss_read_errors st)
             (ss_malformed st))
          (u64 (counter_ s + want)) (u64 (pending_ s - want))).

#[global] Instance source : Source t Answer := {
  source_id s := cfg_src_id (cfg_ s);
  drain := synth_drain;
  source_stats := stats_
}.

Definition synth_wf (s : t) : Prop :=
  fits 8 (cfg_src_id (cfg_ s)) ∧ can_ids (cfg_ s) ≠ [] ∧ Forall (fits 32) (can_ids (cfg_ s)) ∧
  fits 64 (pending_ s).

Definition synth_answer_ok (a : Answer) : Prop := fits 64 (a_kernel a) ∧ fits 64 (a_ingest a).

#[global] Instance synth_answer_ok_dec a : Decision (synth_answer_ok a).
Proof. unfold synth_answer_ok. apply _. Defined.

Lemma frame_at_bus cfg tk ti c :
  fits 64 tk → fits 64 ti → fits 8 (cfg_src_id cfg) → can_ids cfg ≠ [] →
  Forall (fits 32) (can_ids cfg) → fits 64 c → bus_frame (frame_at cfg tk ti c).
Proof.
  intros H1 H2 H3 H4 H5 H6. split; [|done]. split; [|done]. split; [|done].
  unfold frame_wf, frame_at. simpl f_seq. simpl f_t_kernel_ns. simpl f_t_ingest_ns. simpl f_src_id.
  simpl f_reserved. simpl f_flags. simpl f_len. cbn [f_can_id f_data].
  split_and!; try done; [|by apply (le_bytes_bytes 8)].
  assert (0 < Z.of_nat (length (can_ids cfg))) as Hl by (destruct (can_ids cfg); [done|simpl; lia]).
  pose proof (Z.mod_pos_bound c _ Hl).
  destruct (nth_in_or_default (Z.to_nat (c mod Z.of_nat (length (can_ids cfg)))) (can_ids cfg) 0)
    as [Hin|E]; [|rewrite E; unfold fits; lia].
  eapply Forall_forall in H5; [exact H5|]. by apply list_elem_of_In.
Qed.

Lemma read_timer_cfg r s : cfg_ (read_timer r s) = cfg_ s ∧ counter_ (read_timer r s) = counter_ s ∧
  ss_frames (stats_ (read_timer r s)) = ss_frames (stats_ s).
Proof. destruct r as [|[]]; done. Qed.

Lemma read_timer_wf r s : synth_wf s → synth_wf (read_timer r s).
Proof.
  intros (H1 & H2 & H3 & H4). destruct r as [n|[]]; split_and!; try done. apply u64_fits.
Qed.

#[global] Program Instance source_spec : SourceSpec t Answer := {
  source_wf s := synth_wf s;
  answer_ok := synth_answer_ok
}.
Next Obligation.
  intros n a s Hwf [Ha1 Ha2]. simpl. unfold synth_drain.
  destruct (read_timer_cfg (a_timer a) s) as (E1 & _ & E3).
  pose proof (read_timer_wf (a_timer a) s Hwf) as (W1 & W2 & W3 & W4).
  set (s1 := read_timer (a_timer a) s) in *.
  set (want := if Z.of_nat n <? pending_ s1 then Z.of_nat n else pending_ s1).
  assert (0 <= want <= Z.of_nat n) as Hw.
  { unfold want. destruct W4. destruct (Z.ltb_spec (Z.of_nat n) (pending_ s1)); lia. }
  simpl. rewrite length_map, length_seq, E1, E3. rewrite E1 in W1, W2, W3.
  split; [by split_and!; simpl; try done; apply u64_fits|]. split; [done|]. split; [lia|]. split.
  - apply Forall_forall. intros f Hf. apply list_elem_of_In, in_map_iff in Hf as (i & <- & _).
    split; [|done]. by apply frame_at_bus; auto with etg.
  - by rewrite Z2Nat.id by lia.
Qed.

(** A sequence of drains and everything it produced. *)
Fixpoint drains (calls : list (nat * Answer)) (s : t) : list Frame * t :=
  match calls with
  | [] => ([], s)
  | (n, a) :: calls =>
      let '(out, s) := synth_drain n a s in
      let '(outs, s) := drains calls s in
      (out ++ outs, s)
  end.

Definition expirations (calls : list (nat * Answer)) : Z :=
  fold_right (λ c acc, match a_timer c.2 with Expired n => Z.max 0 n + acc | _ => acc end) 0 calls.

(** What a frame of the generator says about its place in the sequence. *)
Definition stamp_of (f : Frame) : Z * list Z := (f_can_id f, f_data f).
Definition stamp_at (cfg : Config) (c : Z) : Z * list Z := stamp_of (frame_at cfg 0 0 c).

Lemma drain_owed n a s :
  synth_wf s → 0 <= frames_per_tick (cfg_ s) →
  match a_timer a with Expired k => 0 <= k | _ => True end →
  pending_ s + frames_per_tick (cfg_ s) * expirations [(n, a)] < 2 ^ 64 →
  let r := synth_drain n a s in
  Z.of_nat (length r.1) + pending_ r.2 = pending_ s + frames_per_tick (cfg_ s) * expirations [(n, a)] ∧
  map stamp_of r.1 = map (λ i, stamp_at (cfg_ s) (u64 (counter_ s + Z.of_nat i))) (seq 0 (length r.1)) ∧
  counter_ r.2 = u64 (counter_ s + Z.of_nat (length r.1)) ∧ cfg_ r.2 = cfg_ s ∧ synth_wf r.2.
Proof.
  intros (W1 & W2 & W3 & W4) Hf Hk Hb. unfold synth_drain.
  destruct (read_timer_cfg (a_timer a) s) as (E1 & E2 & _).
  assert (pending_ (read_timer (a_timer a) s) = pending_ s + frames_per_tick (cfg_ s) * expirations [(n, a)]) as Ep.
  { unfold expirations in *. simpl in *. destruct (a_timer a) as [k|[]]; simpl; [|lia|lia].
    rewrite Z.max_r in Hb |- * by done. unfold fits in W4.
    rewrite (u64_small (k * _)) by (unfold fits; nia). rewrite u64_small by (unfold fits; nia). nia. }
  set (s1 := read_timer (a_timer a) s) in *.
  set (want := if Z.of_nat n <? pending_ s1 then Z.of_nat n else pending_ s1).
  assert (0 <= expirations [(n, a)]) as He.
  { unfold expirations. simpl. destruct (a_timer a); lia. }
  assert (0 <= want <= pending_ s1) as Hw.
  { unfold want. unfold fits in W4. destruct (Z.ltb_spec (Z.of_nat n) (pending_ s1)); nia. }
  cbn [fst snd pending_ counter_ cfg_].
  rewrite length_map, length_seq, map_map, E1, E2, Z2Nat.id by lia.
  rewrite (u64_small (pending_ s1 - want)) by (unfold fits; lia).
  split; [lia|]. split; [done|]. split; [done|]. split; [done|].
  split_and!; try done; simpl; unfold fits; lia.
Qed.

Lemma expirations_cons c calls : expirations (c :: calls) = expirations [c] + expirations calls.
Proof. unfold expirations. simpl. destruct (a_timer c.2); lia. Qed.

Lemma expirations_nonneg calls : 0 <= expirations calls.
Proof. unfold expirations. induction calls as [|c calls IH]; simpl; [lia|]. destruct (a_timer c.2); lia. Qed.

Lemma drains_owed calls s :
  synth_wf s → 0 <= frames_per_tick (cfg_ s) →
  Forall (λ c, match a_timer c.2 with Expired k => 0 <= k | _ => True end) calls →
  pending_ s + frames_per_tick (cfg_ s) * expirations calls < 2 ^ 64 →
  let r := drains calls s in
  Z.of_nat (length r.1) + pending_ r.2 = pending_ s + frames_per_tick (cfg_ s) * expirations calls ∧
  map stamp_of r.1 = map (λ i, stamp_at (cfg_ s) (u64 (counter_ s + Z.of_nat i))) (seq 0 (length r.1)).
Proof.
  revert s. induction calls as [|[n a] calls IH]; intros s Hwf Hf Hk Hb.
  { unfold expirations in *. simpl in *. split; [lia|done]. }
  apply Forall_cons in Hk as [Hk1 Hk]. rewrite expirations_cons in Hb |- *.
  pose proof (expirations_nonneg [(n, a)]) as H1. pose proof (expirations_nonneg calls) as H2.
  destruct (drain_owed n a s Hwf Hf Hk1) as (A1 & A2 & A3 & A4 & A5); [nia|].
  cbn [drains]. destruct (synth_drain n a s) as [out s1]. cbn [fst snd] in A1, A2, A3, A4, A5.
  destruct (IH s1 A5) as [B1 B2]; rewrite ?A4; [done|done|nia|].
  rewrite A4 in B1, B2. destruct (drains calls s1) as [outs s2]. cbn [fst snd] in B1, B2 |- *.
  rewrite length_app. split; [nia|]. rewrite map_app, seq_app, map_app, A2, B2. f_equal.
  rewrite A3, Nat.add_0_l, (map_seq_from _ (length out)). apply map_ext. intros i.
  rewrite u64_add_l. do 2 f_equal. lia.
Qed.

Lemma drains_pending calls s : synth_wf s → 0 <= pending_ (drains calls s).2.
Proof.
  revert s. induction calls as [|[n a] calls IH]; intros s Hwf; [apply Hwf|]. cbn [drains].
  assert (synth_wf (synth_drain n a s).2) as H1.
  { destruct (read_timer_cfg (a_timer a) s) as (E1 & _ & _). destruct Hwf as (W1 & W2 & W3 & _).
    unfold synth_wf, synth_drain. cbn [snd cfg_ pending_]. rewrite E1. split_and!; auto with etg. }
  destruct (synth_drain n a s) as [out s1]. specialize (IH s1 H1). by destruct (drains calls s1).
Qed.
End Synth.

(** ** Properties *)

(** C28. The kernel's [SO_RXQ_OVFL] counter is 32 bits wide and cumulative. Over any
    sequence of drains of a fresh CAN source, however the control messages are spread
    over datagrams and calls, and across any wrap of that counter, the drops counted are
    exactly the growth since the first reading, as long as fewer than 2^32 frames are
    dropped between two readings. *)
Theorem can_overflow_exact (src : Z) (calls : list (nat * Can.Answer)) (d : Z) (ds : list Z) :
  Can.readings (concat (map (λ c, Can.drain_controls c.1 c.2) calls)) = map u32 (d :: ds) →
  Can.slow_growth d ds →
  ss_kernel_drops (Can.stats_ (Can.drain_all calls (Can.make src))) = u64 (List.last ds d - d).
Proof.
  intros Hr Hg. pose proof (Can.drain_all_ovfl calls 0 (Can.make src)) as H.
  injection H as H _ _. rewrite H. by rewrite (Can.overflow_first _ ds d).
Qed.

(** C29. Nothing a tick owes is forgotten: over any sequence of drains of the synthetic
    source, with any buffer sizes and any missed expirations, the frames produced plus
    those still pending are the frames the timer has asked for, and the frames produced
    are numbered consecutively: the i-th carries the CAN id and the little-endian payload
    of counter value i. *)
Theorem synthetic_owes_every_tick (cfg : Synth.Config) (calls : list (nat * Synth.Answer)) :
  Synth.synth_wf (Synth.make cfg) → 0 <= Synth.frames_per_tick cfg →
  Forall (λ c, match Synth.a_timer c.2 with Synth.Expired k => 0 <= k | _ => True end) calls →
  Synth.frames_per_tick cfg * Synth.expirations calls < 2 ^ 64 →
  let r := Synth.drains calls (Synth.make cfg) in
  Z.of_nat (length r.1) + Synth.pending_ r.2 = Synth.frames_per_tick cfg * Synth.expirations calls ∧
  map Synth.stamp_of r.1
  = map (λ i, Synth.stamp_at cfg (Z.of_nat i)) (seq 0 (length r.1)).
Proof.
  intros Hwf Hf Hk Hb. destruct (Synth.drains_owed calls _ Hwf Hf Hk Hb) as [H1 H2].
  split; [exact H1|]. rewrite H2. apply map_ext_in. intros i Hi. apply in_seq in Hi.
  simpl Synth.counter_. simpl Synth.pending_ in H1. simpl Synth.cfg_ in *. f_equal. rewrite Z.add_0_l.
  apply u64_small. unfold fits.
  pose proof (Synth.drains_pending calls _ Hwf). lia.
Qed.

(** ** Witnesses *)

(** Three datagrams over two drains; the second carries no reading, the last one comes
    after the 32-bit counter wrapped. *)
Definition demo_msg (control : list Can.Cmsg) : Can.Msg := Can.mkMsg 16 control 0x123 2 [1; 2; 0; 0; 0; 0; 0; 0].

Definition demo_drains : list (nat * Can.Answer) :=
  [(64%nat, Can.Recv [demo_msg [Can.CmTimestamping 1 5; Can.CmOverflow 4294967290]; demo_msg []] 7);
   (64%nat, Can.RecvFail true);
   (64%nat, Can.Recv [demo_msg [Can.CmOther; Can.CmOverflow 4]] 9)].

Lemma can_overflow_exact_witness :
  ss_kernel_drops (Can.stats_ (Can.drain_all demo_drains (Can.make 1))) = 10.
Proof.
  refine (can_overflow_exact 1 demo_drains 4294967290 [4294967300] _ _);
    [vm_compute; reflexivity|apply (bool_decide_unpack _); vm_compute; exact I].
Defined.

Definition demo_config : Synth.Config := Synth.mkConfig 3 1000000 3 [0x100; 0x200].

Definition demo_ticks : list (nat * Synth.Answer) :=
  [(4%nat, Synth.mkAnswer (Synth.Expired 2) 10 20);
   (64%nat, Synth.mkAnswer (Synth.TimerFail true) 11 21);
   (2%nat, Synth.mkAnswer (Synth.Expired 1) 12 22)].

Lemma synthetic_owes_every_tick_witness :
  length (Synth.drains demo_ticks (Synth.make demo_config)).1 = 8%nat ∧
  Synth.pending_ (Synth.drains demo_ticks (Synth.make demo_config)).2 = 1 ∧
  map Synth.stamp_of (Synth.drains demo_ticks (Synth.make demo_config)).1
  = map (λ i, Synth.stamp_at demo_config (Z.of_nat i)) (seq 0 8).
Proof.
  split; [vm_compute; reflexivity|]. split; [vm_compute; reflexivity|].
  refine (proj2 (synthetic_owes_every_tick demo_config demo_ticks _ _ _ _)).
  - split_and!; try (unfold fits; simpl; lia); [done|]. repeat constructor; simpl; lia.
  - vm_compute. discriminate.
  - repeat constructor; simpl; lia.
  - vm_compute. reflexivity.
Defined.

(** The first reading sets the baseline: drops the kernel reported before it are never
    counted. *)
Lemma first_overflow_ignored :
  ss_kernel_drops (Can.stats_ (Can.drain_all
    [(64%nat, Can.Recv [demo_msg [Can.CmOverflow 1000]] 7)] (Can.make 1))) = 0.
Proof. reflexivity. Qed.
