(* ===== verification/Ingest.v ===== *)
(** * Ingest: the two ways frames reach the consumers (src/src/fanout.cpp,
      src/src/ring_ingest.cpp)

    [FanOut] is one thread that drains every source and pushes each batch to every
    consumer queue; [RingIngest] is one thread per source that publishes into the shared
    ring. Both are written against [Source]; their theorems need only [SourceSpec].
    What [poll] answers, what the kernel returns to a drain and what the consumers do to
    their queues in the meantime are arguments. *)

From S2P Require Import Prelude Frame Wire BoundedQueue BroadcastRing Feed Sources.

Definition kDrainBatch : nat := 64.

(** The sources main.cpp holds are of both kinds; the answer carries what either would
    read. *)
#[export] Instance any_source : Source (Can.t + Synth.t) (Can.Answer * Synth.Answer) := {
  source_id s := match s with inl c => source_id c | inr y => source_id y end;
  drain n a s := match s with
                 | inl c => let '(out, c) := drain n a.1 c in (out, inl c)
                 | inr y => let '(out, y) := drain n a.2 y in (out, inr y)
                 end;
  source_stats s := match s with inl c => source_stats c | inr y => source_stats y end
}.

#[export] Program Instance any_source_spec : SourceSpec (Can.t + Synth.t) (Can.Answer * Synth.Answer) := {
  source_wf s := match s with inl c => source_wf c | inr y => source_wf y end;
  answer_ok a := answer_ok (S := Can.t) a.1 ∧ answer_ok (S := Synth.t) a.2
}.
Next Obligation.
  intros n [a b] [c|y] Hwf [Ha Hb]; cbn [fst snd] in Ha, Hb.
  - pose proof (drain_spec n a c Hwf Ha) as H. cbn [drain any_source fst snd].
    destruct (drain n a c) as [out c']. exact H.
  - pose proof (drain_spec n b y Hwf Hb) as H. cbn [drain any_source fst snd].
    destruct (drain n b y) as [out y']. exact H.
Qed.

(** [batch[k].seq = base + k]. *)
Definition stamp (base : Z) (l : list Frame) : list Frame :=
  imap (λ k f, set_seq (u64 (base + Z.of_nat k)) f) l.

(** ** FanOut *)

(** What a consumer thread, or a shutdown, does to its queue. *)
Inductive SinkOp := SinkPop (n : nat) | SinkClose.

Definition apply_sink_op (q : BoundedQueue Frame) (o : SinkOp) : BoundedQueue Frame :=
  match o with SinkPop n => (pop_batch (Z.of_nat n) [] q).2 | SinkClose => close q end.

Definition sink_step (sinks : list (BoundedQueue Frame)) (o : nat * SinkOp) : list (BoundedQueue Frame) :=
  alter (λ q, apply_sink_op q o.2) o.1 sinks.

Module FanOut.
Section FanOut.
Context {S A : Type} `{!Source S A}.

Record t := mkFanOut {
  sources_ : list S;
  sinks_ : list (BoundedQueue Frame);
  next_seq_ : Z;
  frames_ : Z;
  batches_ : Z;
  poll_errors_ : Z;
  started_ : bool
}.

Record Stats := mkStats { fs_frames : Z; fs_batches : Z; fs_poll_errors : Z }.

Definition make (sources : list S) (sinks : list (BoundedQueue Frame)) : t :=
  mkFanOut sources sinks 0 0 0 0 false.

(** [create]: a null pointer is [None]; [eventfd] is the descriptor and the errno text. *)
Definition create (sources : list (option S)) (sinks : list (option (BoundedQueue Frame)))
    (eventfd : Z * string) : string + t :=
  match sources with
  | [] => inl "fan-out needs at least one source"%string
  | _ =>
      match mapM id sources with
      | None => inl "fan-out was given a null source"%string
      | Some ss =>
          match sinks with
          | [] => inl "fan-out needs at least one sink"%string
          | _ =>
              match mapM id sinks with
              | None => inl "fan-out was given a null sink"%string
              | Some qs => if eventfd.1 <? 0 then inl ("eventfd: " +:+ eventfd.2)%string
                           else inr (make ss qs)
              end
          end
      end
  end.

(** What one [poll] reports: an error (and whether it is EINTR), a timeout, or which
    sources are readable and whether the stop descriptor is. For a readable source: what
    the other threads do to the queues before it is drained, and what the kernel
    returns to the drain. *)
Inductive PollAnswer :=
  | PollFail (eintr : bool)
  | PollTimeout
  | PollReady (ready : list (option (list (nat * SinkOp) * A))) (stop : bool).

Definition set_sources (ss : list S) (f : t) : t :=
  mkFanOut ss (sinks_ f) (next_seq_ f) (frames_ f) (batches_ f) (poll_errors_ f) (started_ f).

Definition set_sinks (qs : list (BoundedQueue Frame)) (f : t) : t :=
  mkFanOut (sources_ f) qs (next_seq_ f) (frames_ f) (batches_ f) (poll_errors_ f) (started_ f).

(** The body for one produced batch: number it, push it to every queue, count it. *)
Definition distribute (out : list Frame) (f : t) : list Frame * t :=
  match out with
  | [] => ([], f)
  | _ =>
      let n := Z.of_nat (length out) in
      let base := next_seq_ f in
      let produced := stamp base out in
      (produced,
       mkFanOut (sources_ f) (map (λ q, (push_batch produced q).1) (sinks_ f)) (u64 (base + n))
         (u64 (frames_ f + n)) (u64 (batches_ f + 1)) (poll_errors_ f) (started_ f))
  end.

Definition drain_source (i : nat) (a : A) (f : t) : list Frame * t :=
  match sources_ f !! i with
  | None => ([], f)
  | Some s => let '(out, s) := drain kDrainBatch a s in
              distribute out (set_sources (<[i := s]> (sources_ f)) f)
  end.

(** The loop over the sources; also returns what was produced. *)
Fixpoint drain_ready (i : nat) (ready : list (option (list (nat * SinkOp) * A))) (f : t)
  : list Frame * t :=
  match ready with
  | [] => ([], f)
  | None :: ready => drain_ready (Datatypes.S i) ready f
  | Some (ops, a) :: ready =>
      let '(out, f) := drain_source i a (set_sinks (fold_left sink_step ops (sinks_ f)) f) in
      let '(outs, f) := drain_ready (Datatypes.S i) ready f in
      (out ++ outs, f)
  end.

Definition poll_error (f : t) : t :=
  mkFanOut (sources_ f) (sinks_ f) (next_seq_ f) (frames_ f) (batches_ f)
    (u64 (poll_errors_ f + 1)) (started_ f).

(** One turn of [run]; the flag says whether the thread returns. *)
Definition run_once (p : PollAnswer) (f : t) : list Frame * t * bool :=
  match p with
  | PollFail true => ([], f, false)
  | PollFail false => ([], poll_error f, false)
  | PollTimeout => ([], f, false)
  | PollReady ready stop => (drain_ready 0 ready f, stop)
  end.

Fixpoint run (polls : list PollAnswer) (f : t) : list Frame * t :=
  match polls with
  | [] => ([], f)
  | p :: polls =>
      let '(out, f, stop) := run_once p f in
      if stop then (out, f)
      else let '(outs, f) := run polls f in (out ++ outs, f)
  end.

Definition set_started (b : bool) (f : t) : t :=
  mkFanOut (sources_ f) (sinks_ f) (next_seq_ f) (frames_ f) (batches_ f) (poll_errors_ f) b.

Definition start (f : t) : t := if started_ f then f else set_started true f.

(** After [stop] has written the eventfd every successful [poll] reports it. *)
Definition request_stop (p : PollAnswer) : PollAnswer :=
  match p with
  | PollFail e => PollFail e
  | PollTimeout => PollReady [] true
  | PollReady ready _ => PollReady ready true
  end.

(** [stop]: the eventfd write, the turns the thread still makes, and the join. *)
Definition stop (polls : list PollAnswer) (f : t) : list Frame * t :=
  if started_ f
  then let '(out, f) := run (map request_stop polls) f in (out, set_started false f)
  else ([], f).

Definition stats (f : t) : Stats := mkStats (frames_ f) (batches_ f) (poll_errors_ f).
End FanOut.
Arguments t : clear implicits.
Arguments PollAnswer : clear implicits.
End FanOut.

(** *** What a sink holds of the stream offered to it *)

Lemma length_stamp base l : length (stamp base l) = length l.
Proof. unfold stamp. by rewrite length_imap. Qed.

Lemma stamp_stamped base l :
  0 <= base → base + Z.of_nat (length l) < 2 ^ 64 → stamped base (stamp base l).
Proof.
  unfold stamp. revert base. induction l as [|f l IH]; intros base H0 H1; [done|]. simpl in *.
  rewrite u64_small by (unfold fits; lia). split; [lia|].
  specialize (IH (base + 1)). rewrite (imap_ext _ (λ k f, set_seq (u64 (base + 1 + Z.of_nat k)) f)).
  - apply IH; lia.
  - intros i x _. simpl. do 2 f_equal. lia.
Qed.

Lemma stamp_bus base l : Forall bus_frame l → Forall bus_frame (stamp base l).
Proof.
  intros H. apply Forall_lookup. intros i f Hf. unfold stamp in Hf. rewrite list_lookup_imap in Hf.
  destruct (l !! i) as [g|] eqn:E; [|done]. injection Hf as <-.
  apply set_seq_bus; [auto with etg|]. by eapply Forall_lookup_1 in H.
Qed.

(** The queue was offered the first [k] frames of the log (all of them while it is open),
    holds the newest of those it has not handed out, and its counters add up. *)
Definition sink_ok (log : list Frame) (q : BoundedQueue Frame) : Prop :=
  ∃ k pos, (k <= length log)%nat ∧ (closed_ q = false → k = length log) ∧
    QueueFeed.holds q (take k log) pos ∧ pushed_ q = u64 (Z.of_nat k) ∧ queue_conserved q.

Lemma pop_conserved n (q : BoundedQueue Frame) :
  queue_wf q → queue_conserved q →
  queue_conserved (pop_batch (Z.of_nat n) [] q).2 ∧
  pushed_ (pop_batch (Z.of_nat n) [] q).2 = pushed_ q ∧
  closed_ (pop_batch (Z.of_nat n) [] q).2 = closed_ q.
Proof.
  intros Hwf Hc. destruct (pop_batch_refines (Z.of_nat n) [] q Hwf ltac:(lia)) as [Hwf' H].
  set (q' := (pop_batch (Z.of_nat n) [] q).2) in *. unfold abs_pop in H.
  replace (if bool_decide (a_items (abs_of q) = []) && negb (a_closed (abs_of q))
           then fold_left abs_op [] (abs_of q) else abs_of q) with (abs_of q) in H
    by (by destruct (_ && _)).
  apply (f_equal snd) in H. simpl in H. unfold queue_conserved in *.
  destruct (Z.of_nat n =? 0).
  - simpl in H. injection H as _ E2 E3 E4 E5 E6. apply (f_equal length) in E2.
    rewrite !length_contents in E2. destruct Hwf, Hwf'. rewrite <- E3, <- E4, <- E5, <- E6.
    split_and!; try done. rewrite Hc. f_equal. lia.
  - simpl in H. injection H as _ E2 E3 E4 E5 E6. apply (f_equal length) in E2.
    rewrite length_drop, !length_contents in E2. destruct Hwf, Hwf'.
    rewrite <- E3, <- E4, <- E5, <- E6. split_and!; try done. rewrite Hc, length_contents. u64_eq.
Qed.

Lemma sink_op_ok log q o : sink_ok log q → sink_ok log (apply_sink_op q o).
Proof.
  intros (k & pos & Hk & Ho & Hh & Hp & Hc). destruct o as [n|]; simpl.
  - pose proof Hh as (Hwf & _). destruct (pop_conserved n q Hwf Hc) as (C1 & C2 & C3).
    destruct (QueueFeed.pop_full n (QueueFeed.mkEnv [] []) q _ _ Hh I) as (pos' & _ & H & _).
    unfold QueueFeed.added, QueueFeed.pop in H. simpl in H. rewrite app_nil_r in H.
    destruct (pop_batch (Z.of_nat n) [] q) as [out q']. simpl in *.
    exists k, pos'. rewrite C2, C3. split_and!; try done. by destruct (_ || _).
  - exists k, pos. destruct Hh as (H1 & H2). split_and!; try done. split; [by apply close_refines|exact H2].
Qed.

Lemma sink_ops_ok log ops sinks :
  Forall (sink_ok log) sinks → Forall (sink_ok log) (fold_left sink_step ops sinks).
Proof.
  revert sinks. induction ops as [|[j o] ops IH]; intros sinks H; [done|]. simpl. apply IH.
  unfold sink_step. simpl. apply Forall_alter; [done|]. intros q _ Hq. by apply sink_op_ok.
Qed.

Lemma sink_push_ok log items q :
  items ≠ [] → stamped (Z.of_nat (length log)) items → Forall bus_frame items →
  Z.of_nat (length log + length items) < log_bound →
  sink_ok log q → sink_ok (log ++ items) (push_batch items q).1.
Proof.
  intros Hne Hst Hbus Hb (k & pos & Hk & Ho & Hh & Hp & Hc). pose proof Hh as (Hwf & _).
  destruct (closed_ q) eqn:Ec.
  - assert ((push_batch items q).1 = q) as ->.
    { unfold push_batch, push_locked. rewrite Ec. by destruct items. }
    exists k, pos. rewrite length_app, take_app_le by done. rewrite Ec. split_and!; try done. lia.
  - specialize (Ho eq_refl). subst k. rewrite take_ge in Hh by done.
    pose proof (QueueFeed.op_holds (OpPush items) q log pos Hh) as H1.
    simpl in H1. rewrite Ec in H1.
    exists (length (log ++ items)), pos. rewrite take_ge by done. split; [done|]. split; [done|].
    split; [apply H1; split_and!; try done; lia|].
    split; [|by apply push_conserved].
    destruct (push_batch_refines items q Hwf) as [_ H]. apply (f_equal fst) in H. simpl in H.
    unfold abs_push in H. simpl in H. rewrite Ec, bool_decide_false in H by done. simpl in H.
    injection H as _ _ _ H _ _. rewrite <- H, Hp, u64_add_l, length_app. f_equal. lia.
Qed.

(** *** The fan-out invariant *)

Section FanOutInv.
Context {S A : Type} `{!Source S A, !SourceSpec S A}.

(** Frames the sources say they produced. *)
Definition source_frames (ss : list S) : Z := foldr (λ s n, ss_frames (source_stats s) + n) 0 ss.

Record fan_ok (f : FanOut.t S) (log : list Frame) : Prop := {
  fan_sources : Forall source_wf (FanOut.sources_ f);
  fan_seq : FanOut.next_seq_ f = Z.of_nat (length log);
  fan_frames : FanOut.frames_ f = u64 (Z.of_nat (length log));
  fan_log : good_log log ∧ stamped 0 log;
  fan_sinks : Forall (sink_ok log) (FanOut.sinks_ f)
}.

Definition ready_ok (r : option (list (nat * SinkOp) * A)) : Prop :=
  match r with Some (_, a) => answer_ok (S := S) a | None => True end.

Definition poll_ok (p : FanOut.PollAnswer A) : Prop :=
  match p with FanOut.PollReady ready _ => Forall ready_ok ready | _ => True end.

Lemma source_frames_insert (ss : list S) i s s' n :
  ss !! i = Some s →
  ss_frames (source_stats s') = u64 (ss_frames (source_stats s) + n) →
  u64 (source_frames (<[i := s']> ss)) = u64 (source_frames ss + n).
Proof.
  intros Hi Hn. revert i Hi. induction ss as [|x ss IH]; intros [|i] Hi; simpl in *; try done.
  - injection Hi as ->. rewrite Hn, u64_add_l. f_equal. lia.
  - rewrite <- u64_add_r, IH, u64_add_r by done. f_equal. lia.
Qed.

Lemma distribute_eq out (f : FanOut.t S) :
  out ≠ [] →
  FanOut.distribute out f
  = (stamp (FanOut.next_seq_ f) out,
     FanOut.mkFanOut (FanOut.sources_ f)
       (map (λ q, (push_batch (stamp (FanOut.next_seq_ f) out) q).1) (FanOut.sinks_ f))
       (u64 (FanOut.next_seq_ f + Z.of_nat (length out)))
       (u64 (FanOut.frames_ f + Z.of_nat (length out))) (u64 (FanOut.batches_ f + 1))
       (FanOut.poll_errors_ f) (FanOut.started_ f)).
Proof. by destruct out. Qed.

Lemma distribute_ok out (f : FanOut.t S) log :
  fan_ok f log → Forall bus_frame out → Z.of_nat (length log + length out) < log_bound →
  let r := FanOut.distribute out f in
  length r.1 = length out ∧ fan_ok r.2 (log ++ r.1) ∧
  FanOut.sources_ r.2 = FanOut.sources_ f ∧ length (FanOut.sinks_ r.2) = length (FanOut.sinks_ f).
Proof.
  intros [H1 H2 H3 [H4 H5] H6] Hbus Hb. destruct (decide (out = [])) as [->|Hne].
  { simpl. rewrite app_nil_r. by split_and!. }
  rewrite distribute_eq by done. cbv zeta. cbn [fst snd FanOut.sources_ FanOut.sinks_].
  assert (stamped (Z.of_nat (length log)) (stamp (FanOut.next_seq_ f) out)) as Hst.
  { rewrite H2. apply stamp_stamped; unfold log_bound in *; lia. }
  assert (stamp (FanOut.next_seq_ f) out ≠ []) as Hne'.
  { intros E. apply (f_equal length) in E. rewrite length_stamp in E. by destruct out. }
  pose proof (stamp_bus (FanOut.next_seq_ f) out Hbus) as Hbus'.
  rewrite length_stamp, length_map. split_and!; try done.
  constructor; cbn [FanOut.sources_ FanOut.next_seq_ FanOut.frames_ FanOut.sinks_].
  - done.
  - rewrite H2, length_app, length_stamp, u64_small; [lia|]. unfold fits, log_bound in *. lia.
  - rewrite H3, u64_add_l, length_app, length_stamp. f_equal. lia.
  - split; [|by apply stamped_app]. apply RingFeed.good_log_app; [done..|]. by rewrite length_stamp.
  - apply Forall_fmap. eapply Forall_impl; [exact H6|]. intros q Hq.
    apply sink_push_ok; try done. by rewrite length_stamp.
Qed.

Lemma drain_source_ok i a (f : FanOut.t S) log :
  fan_ok f log → answer_ok (S := S) a →
  let r := FanOut.drain_source i a f in
  Z.of_nat (length (log ++ r.1)) < log_bound →
  fan_ok r.2 (log ++ r.1) ∧ length (FanOut.sinks_ r.2) = length (FanOut.sinks_ f) ∧
  u64 (source_frames (FanOut.sources_ r.2))
  = u64 (source_frames (FanOut.sources_ f) + Z.of_nat (length r.1)).
Proof.
  intros Hf Ha. unfold FanOut.drain_source. destruct (FanOut.sources_ f !! i) as [s|] eqn:Es.
  2:{ simpl. rewrite app_nil_r, Z.add_0_r. done. }
  pose proof Hf as [H1 H2 H3 H4 H5].
  pose proof (Forall_lookup_1 _ _ _ _ H1 Es) as Hs.
  destruct (drain_spec kDrainBatch a s Hs Ha) as (D1 & D2 & D3 & D4 & D5).
  destruct (drain kDrainBatch a s) as [out s']. cbn [fst snd] in *. cbv zeta.
  assert (length (FanOut.distribute out (FanOut.set_sources (<[i:=s']> (FanOut.sources_ f)) f)).1
          = length out) as El.
  { unfold FanOut.distribute. destruct out; [done|]. cbn [fst]. by rewrite length_stamp. }
  rewrite length_app, El. intros Hb.
  destruct (distribute_ok out (FanOut.set_sources (<[i:=s']> (FanOut.sources_ f)) f) log)
    as (E1 & E2 & E3 & E4).
  - constructor; try done. simpl. by apply Forall_insert.
  - eapply Forall_impl; [exact D4|]. by intros x (? & _).
  - done.
  - split; [exact E2|]. split; [exact E4|]. rewrite E3. simpl.
    by eapply source_frames_insert.
Qed.

Lemma drain_ready_ok ready i (f : FanOut.t S) log :
  fan_ok f log → Forall ready_ok ready →
  let r := FanOut.drain_ready i ready f in
  Z.of_nat (length (log ++ r.1)) < log_bound →
  fan_ok r.2 (log ++ r.1) ∧ length (FanOut.sinks_ r.2) = length (FanOut.sinks_ f) ∧
  u64 (source_frames (FanOut.sources_ r.2))
  = u64 (source_frames (FanOut.sources_ f) + Z.of_nat (length r.1)).
Proof.
  intros Hf Hr. revert i f log Hf. induction Hr as [|[[ops a]|] ready Ha _ IH]; intros i f log Hf.
  - simpl. rewrite app_nil_r, Z.add_0_r. done.
  - cbn [FanOut.drain_ready].
    assert (fan_ok (FanOut.set_sinks (fold_left sink_step ops (FanOut.sinks_ f)) f) log) as Hf1.
    { destruct Hf. constructor; try done. by apply sink_ops_ok. }
    pose proof (drain_source_ok i a _ log Hf1 Ha) as H1. cbv zeta in H1.
    destruct (FanOut.drain_source i a _) as [out f1]. cbn [fst snd] in H1.
    specialize (IH (Datatypes.S i) f1 (log ++ out)). cbv zeta in IH.
    destruct (FanOut.drain_ready (Datatypes.S i) ready f1) as [outs f2]. cbn [fst snd] in *.
    rewrite <- app_assoc in IH. intros Hb.
    destruct H1 as (A1 & A2 & A3); [rewrite !length_app in *; lia|].
    destruct (IH A1 Hb) as (B1 & B2 & B3). split; [done|]. split.
    + rewrite B2, A2. simpl. clear. induction ops as [|[j o] ops IHo] using rev_ind; [done|].
      rewrite fold_left_app. simpl. unfold sink_step. rewrite length_alter. exact IHo.
    + rewrite B3, <- u64_add_l, A3, u64_add_l, length_app. f_equal. simpl. lia.
  - by apply IH.
Qed.

Lemma run_ok polls (f : FanOut.t S) log :
  fan_ok f log → Forall poll_ok polls →
  let r := FanOut.run polls f in
  Z.of_nat (length (log ++ r.1)) < log_bound →
  fan_ok r.2 (log ++ r.1) ∧ length (FanOut.sinks_ r.2) = length (FanOut.sinks_ f) ∧
  u64 (source_frames (FanOut.sources_ r.2))
  = u64 (source_frames (FanOut.sources_ f) + Z.of_nat (length r.1)).
Proof.
  intros Hf Hp. revert f log Hf. induction Hp as [|p polls Hp _ IH]; intros f log Hf.
  { simpl. rewrite app_nil_r, Z.add_0_r. done. }
  destruct p as [[]| |ready stop]; cbn [FanOut.run FanOut.run_once].
  - specialize (IH f log Hf). by destruct (FanOut.run polls f).
  - assert (fan_ok (FanOut.poll_error f) log) as Hf1 by (by destruct Hf).
    specialize (IH _ log Hf1). by destruct (FanOut.run polls _).
  - specialize (IH f log Hf). by destruct (FanOut.run polls f).
  - pose proof (drain_ready_ok ready 0 f log Hf Hp) as H1. cbv zeta in H1.
    destruct (FanOut.drain_ready 0 ready f) as [out f1]. cbn [fst snd] in H1.
    destruct stop; [exact H1|].
    specialize (IH f1 (log ++ out)). cbv zeta in IH.
    destruct (FanOut.run polls f1) as [outs f2]. cbn [fst snd] in *. rewrite <- app_assoc in IH. intros Hb.
    destruct H1 as (A1 & A2 & A3); [rewrite !length_app in *; lia|].
    destruct (IH A1 Hb) as (B1 & B2 & B3). split; [done|]. split; [congruence|].
    rewrite B3, <- u64_add_l, A3, u64_add_l, length_app. f_equal. lia.
Qed.

Lemma make_fan_ok (ss : list S) (caps : list Z) :
  Forall source_wf ss → Forall (λ c, 0 <= c < capacity_limit) caps →
  fan_ok (FanOut.make ss (map make_queue caps)) [].
Proof.
  intros Hs Hc. constructor; try done. simpl. apply Forall_fmap. eapply Forall_impl; [exact Hc|].
  intros c Hc'. simpl. exists 0%nat, 0. split_and!; try done.
  - pose proof (make_queue_wf (T := Frame) c Hc') as Hwf. split_and!; try done. by exists [].
Qed.
End FanOutInv.

(** ** RingIngest *)

Module RingIngest.
Section RingIngest.
Context {S A : Type} `{!Source S A}.

(** [running_] is which of the threads have been started and have not returned. *)
Record t := mkRingIngest {
  sources_ : list S;
  ring_ : Ring;
  frames_ : Z;
  batches_ : Z;
  poll_errors_ : Z;
  started_ : bool;
  running_ : list bool
}.

Record Stats := mkStats { rs_frames : Z; rs_batches : Z; rs_poll_errors : Z }.

Definition make (sources : list S) (ring : Ring) : t :=
  mkRingIngest sources ring 0 0 0 false (replicate (length sources) false).

Definition create (sources : list (option S)) (ring : Ring) (eventfd : Z * string) : string + t :=
  match sources with
  | [] => inl "ring ingest needs at least one source"%string
  | _ =>
      match mapM id sources with
      | None => inl "ring ingest was given a null source"%string
      | Some ss => if eventfd.1 <? 0 then inl ("eventfd: " +:+ eventfd.2)%string
                   else inr (make ss ring)
      end
  end.

(** What one thread's [poll] reports: an error, nothing, or the kernel's answer when the
    source is readable and whether the stop descriptor is. *)
Inductive PollAnswer :=
  | PollFail (eintr : bool)
  | PollTimeout
  | PollReady (readable : option A) (stop : bool).

Definition start (x : t) : t :=
  if started_ x then x
  else mkRingIngest (sources_ x) (ring_ x) (frames_ x) (batches_ x) (poll_errors_ x) true
         (map (λ _, true) (sources_ x)).

Definition poll_error (x : t) : t :=
  mkRingIngest (sources_ x) (ring_ x) (frames_ x) (batches_ x) (u64 (poll_errors_ x + 1))
    (started_ x) (running_ x).

(** Drain, publish the batch with one claim, count it. [None]: the claim spins. *)
Definition drain_publish (i : nat) (a : A) (x : t) : option (list Frame * t) :=
  match sources_ x !! i with
  | None => Some ([], x)
  | Some s =>
      let '(out, s) := drain kDrainBatch a s in
      let ss := <[i := s]> (sources_ x) in
      match out with
      | [] => Some ([], mkRingIngest ss (ring_ x) (frames_ x) (batches_ x) (poll_errors_ x)
                          (started_ x) (running_ x))
      | _ =>
          match publish_batch out (ring_ x) with
          | None => None
          | Some (r, _) =>
              Some (out, mkRingIngest ss r (u64 (frames_ x + Z.of_nat (length out)))
                           (u64 (batches_ x + 1)) (poll_errors_ x) (started_ x) (running_ x))
          end
      end
  end.

Definition thread_returns (i : nat) (x : t) : t :=
  mkRingIngest (sources_ x) (ring_ x) (frames_ x) (batches_ x) (poll_errors_ x) (started_ x)
    (<[i := false]> (running_ x)).

(** One turn of thread [i]'s loop; a thread that is not running takes none. *)
Definition turn (i : nat) (p : PollAnswer) (x : t) : option (list Frame * t) :=
  if negb (default false (running_ x !! i)) then Some ([], x)
  else
    match p with
    | PollFail true => Some ([], x)
    | PollFail false => Some ([], poll_error x)
    | PollTimeout => Some ([], x)
    | PollReady readable stop =>
        match match readable with Some a => drain_publish i a x | None => Some ([], x) end with
        | None => None
        | Some (out, x) => Some (out, if stop then thread_returns i x else x)
        end
    end.

(** The threads take turns in any order; what each turn published, with its thread. *)
Fixpoint turns (sched : list (nat * PollAnswer)) (x : t) : option (list (nat * list Frame) * t) :=
  match sched with
  | [] => Some ([], x)
  | (i, p) :: sched =>
      match turn i p x with
      | None => None
      | Some (out, x) =>
          match turns sched x with
          | None => None
          | Some (log, x) => Some ((i, out) :: log, x)
          end
      end
  end.

(** [stop] writes the eventfd and joins: every further successful [poll] reports it. *)
Definition request_stop (c : nat * PollAnswer) : nat * PollAnswer :=
  (c.1, match c.2 with
        | PollFail e => PollFail e
        | PollTimeout => PollReady None true
        | PollReady readable _ => PollReady readable true
        end).

Definition joined (x : t) : t :=
  mkRingIngest (sources_ x) (ring_ x) (frames_ x) (batches_ x) (poll_errors_ x) false
    (replicate (length (sources_ x)) false).

(** [None] also when [sched] leaves a thread unjoined. *)
Definition stop (sched : list (nat * PollAnswer)) (x : t) : option (list (nat * list Frame) * t) :=
  if started_ x then
    match turns (map request_stop sched) x with
    | Some (log, x) => if existsb id (running_ x) then None else Some (log, joined x)
    | None => None
    end
  else Some ([], x).

Definition stats (x : t) : Stats := mkStats (frames_ x) (batches_ x) (poll_errors_ x).
End RingIngest.
Arguments t : clear implicits.
Arguments PollAnswer : clear implicits.
End RingIngest.

Section RingIngestInv.
Context {S A : Type} `{!Source S A, !SourceSpec S A}.

(** What thread [i] would publish if it ran alone, given its own polls. *)
Fixpoint alone (polls : list (RingIngest.PollAnswer A)) (running : bool) (s : S) : list Frame :=
  match polls with
  | [] => []
  | p :: polls =>
      if negb running then alone polls running s
      else match p with
           | RingIngest.PollReady readable stop =>
               let '(out, s) := match readable with
                                | Some a => drain kDrainBatch a s
                                | None => ([], s)
                                end in
               out ++ alone polls (negb stop) s
           | _ => alone polls running s
           end
  end.

Definition polls_of (i : nat) (sched : list (nat * RingIngest.PollAnswer A)) :=
  map snd (filter (λ c, c.1 = i) sched).

Definition published_by (i : nat) (log : list (nat * list Frame)) : list Frame :=
  concat (map snd (filter (λ c, c.1 = i) log)).

Definition turn_ok (c : nat * RingIngest.PollAnswer A) : Prop :=
  match c.2 with RingIngest.PollReady (Some a) _ => answer_ok (S := S) a | _ => True end.

Record ingest_ok (x : RingIngest.t S) (log : list Frame) : Prop := {
  in_sources : Forall source_wf (RingIngest.sources_ x);
  in_ring : ring_holds (RingIngest.ring_ x) log;
  in_log : good_log log;
  in_frames : RingIngest.frames_ x = u64 (Z.of_nat (length log));
  in_running : length (RingIngest.running_ x) = length (RingIngest.sources_ x)
}.

(** What a turn of thread [i] leaves of every thread. *)
Definition thread_at (x : RingIngest.t S) (i : nat) : option (bool * S) :=
  match RingIngest.running_ x !! i, RingIngest.sources_ x !! i with
  | Some b, Some s => Some (b, s)
  | _, _ => None
  end.

Lemma drain_publish_ok i a (x : RingIngest.t S) log s b :
  ingest_ok x log → answer_ok (S := S) a → thread_at x i = Some (b, s) →
  Z.of_nat (length log) + 64 < log_bound →
  ∃ x', RingIngest.drain_publish i a x = Some ((drain kDrainBatch a s).1, x') ∧
        (length (drain kDrainBatch a s).1 <= 64)%nat ∧
        ingest_ok x' (log ++ (drain kDrainBatch a s).1) ∧
        thread_at x' i = Some (b, (drain kDrainBatch a s).2) ∧
        (∀ j, j ≠ i → thread_at x' j = thread_at x j) ∧
        RingIngest.running_ x' = RingIngest.running_ x.
Proof.
  intros [H1 H2 H3 H4 H5] Ha Ht Hb. unfold thread_at in Ht.
  destruct (RingIngest.running_ x !! i) as [b'|] eqn:Eb; [|done].
  destruct (RingIngest.sources_ x !! i) as [s'|] eqn:Es; [|done]. injection Ht as -> ->.
  unfold RingIngest.drain_publish. rewrite Es.
  destruct (drain_spec kDrainBatch a s (Forall_lookup_1 _ _ _ _ H1 Es) Ha) as (D1 & _ & D3 & D4 & _).
  destruct (drain kDrainBatch a s) as [out s1]. cbn [fst snd] in *. unfold kDrainBatch in D3.
  pose proof (lookup_lt_Some _ _ _ Es) as Hi.
  assert (∀ r n m, let x' := RingIngest.mkRingIngest (<[i:=s1]> (RingIngest.sources_ x)) r n m
      (RingIngest.poll_errors_ x) (RingIngest.started_ x) (RingIngest.running_ x) in
    thread_at x' i = Some (b, s1) ∧ (∀ j, j ≠ i → thread_at x' j = thread_at x j)) as Hth.
  { intros r n m. split; unfold thread_at; simpl.
    - by rewrite Eb, list_lookup_insert_eq.
    - intros j Hj. by rewrite list_lookup_insert_ne by congruence. }
  destruct (decide (out = [])) as [->|Hne].
  { eexists. split; [done|]. split; [done|]. split; [|split; [by apply Hth|split; [by apply Hth|done]]].
    rewrite app_nil_r. constructor; simpl; try done; [by apply Forall_insert|by rewrite length_insert]. }
  destruct (publish_batch_holds out (RingIngest.ring_ x) log H2) as (r' & Er & _ & Hr); [lia|].
  assert (∀ X (a b : X), match out with [] => a | _ => b end = b) as Hm by (by destruct out).
  rewrite Er, Hm. eexists. split; [done|]. split; [done|].
  split; [|split; [by apply Hth|split; [by apply Hth|done]]].
  constructor; simpl; try done.
  - by apply Forall_insert.
  - apply RingFeed.good_log_app; [done| |lia]. eapply Forall_impl; [exact D4|]. by intros f (? & _).
  - rewrite H4, u64_add_l, length_app. f_equal. lia.
  - by rewrite length_insert.
Qed.

(** A running thread's turn: its own next step, and nothing of the others. *)
Lemma turn_step i p (x : RingIngest.t S) log :
  ingest_ok x log → turn_ok (i, p) → Z.of_nat (length log) + 64 < log_bound →
  ∃ out x', RingIngest.turn i p x = Some (out, x') ∧ (length out <= 64)%nat ∧
    ingest_ok x' (log ++ out) ∧ (∀ j, j ≠ i → thread_at x' j = thread_at x j) ∧
    (∀ b s polls, thread_at x i = Some (b, s) →
       ∃ b' s', thread_at x' i = Some (b', s') ∧ alone (p :: polls) b s = out ++ alone polls b' s').
Proof.
  intros Hx Hp Hb. unfold RingIngest.turn.
  assert (∀ b s, thread_at x i = Some (b, s) → RingIngest.running_ x !! i = Some b) as Hrun.
  { intros b s. unfold thread_at. repeat case_match; naive_solver. }
  assert (∃ r, RingIngest.running_ x !! i = r) as [r Er] by eauto.
  destruct r as [[]|]; rewrite Er; simpl negb; cbv iota.
  2,3: exists [], x; rewrite app_nil_r; split_and!; try done; [simpl; lia|]; intros b s polls Ht;
       exists b, s; split; [done|]; apply Hrun in Ht; rewrite Er in Ht; by simplify_eq.
  destruct (lookup_lt_is_Some_2 (RingIngest.sources_ x) i) as [s Es].
  { rewrite <- (in_running _ _ Hx). by eapply lookup_lt_Some. }
  assert (thread_at x i = Some (true, s)) as Ht by (unfold thread_at; by rewrite Er, Es).
  destruct p as [[]| |readable stop].
  1,3: exists [], x; rewrite app_nil_r; split_and!; try done; [simpl; lia|]; intros b s' polls E;
       rewrite Ht in E; injection E as <- <-; by exists true, s.
  { exists [], (RingIngest.poll_error x). rewrite app_nil_r. split_and!; try done; [simpl; lia|by destruct Hx|].
    intros b s' polls E. rewrite Ht in E. injection E as <- <-. by exists true, s. }
  assert (∃ out s1 x1, match readable with Some a => RingIngest.drain_publish i a x | None => Some ([], x) end
            = Some (out, x1) ∧ match readable with Some a => drain kDrainBatch a s | None => ([], s) end = (out, s1) ∧
          (length out <= 64)%nat ∧ ingest_ok x1 (log ++ out) ∧ thread_at x1 i = Some (true, s1) ∧
          (∀ j, j ≠ i → thread_at x1 j = thread_at x j)) as (out & s1 & x1 & E1 & E2 & H3 & H4 & H5 & H6).
  { destruct readable as [a|].
    - destruct (drain_publish_ok i a x log s true Hx Hp Ht Hb) as (x' & K1 & K2 & K3 & K4 & K5 & _).
      exists (drain kDrainBatch a s).1, (drain kDrainBatch a s).2, x'. split; [done|].
      split; [by destruct (drain kDrainBatch a s)|done].
    - exists [], s, x. rewrite app_nil_r. split_and!; try done. simpl. lia. }
  rewrite E1. eexists _, _. split; [done|]. split; [done|].
  assert (∀ b s' polls, thread_at x i = Some (b, s') →
    alone (RingIngest.PollReady readable stop :: polls) b s' = out ++ alone polls (negb stop) s1) as Hal.
  { intros b s' polls E. rewrite Ht in E. injection E as <- <-. cbn [alone negb]. by rewrite E2. }
  destruct stop; [|split_and!; try done; intros b s' polls E; exists true, s1; by rewrite (Hal b s' polls E)].
  unfold thread_at in H5. destruct (RingIngest.running_ x1 !! i) as [b1|] eqn:Eb1; [|done].
  destruct (RingIngest.sources_ x1 !! i) as [s2|] eqn:Es2; [|done]. injection H5 as -> ->.
  split; [|split].
  - destruct H4. constructor; try done. simpl. by rewrite length_insert.
  - intros j Hj. rewrite <- H6 by done. unfold thread_at. simpl.
    by rewrite list_lookup_insert_ne by congruence.
  - intros b s' polls E. exists false, s1. rewrite (Hal b s' polls E). split; [|done].
    unfold thread_at. simpl. rewrite list_lookup_insert_eq by (by eapply lookup_lt_Some). by rewrite Es2.
Qed.

Lemma turns_ok sched (x : RingIngest.t S) log :
  ingest_ok x log → Forall turn_ok sched →
  Z.of_nat (length log) + 64 * Z.of_nat (length sched) < log_bound →
  ∃ outs x', RingIngest.turns sched x = Some (outs, x') ∧
    ingest_ok x' (log ++ concat (map snd outs)) ∧
    ∀ i b s, thread_at x i = Some (b, s) → published_by i outs = alone (polls_of i sched) b s.
Proof.
  intros Hx Hs. revert x log Hx. induction Hs as [|[i p] sched Hp _ IH]; intros x log Hx Hb.
  { exists [], x. simpl. by rewrite app_nil_r. }
  simpl length in Hb. destruct (turn_step i p x log Hx Hp ltac:(lia)) as (out & x1 & E & H1 & H2 & H3 & H4).
  destruct (IH x1 (log ++ out) H2) as (outs & x2 & E2 & K1 & K2); [rewrite length_app; lia|].
  exists ((i, out) :: outs), x2. cbn [RingIngest.turns]. rewrite E, E2. split; [done|].
  split; [simpl; by rewrite app_assoc|]. intros j b s Ht. unfold published_by, polls_of.
  rewrite !filter_cons. simpl. destruct (decide (i = j)) as [<-|Hne].
  - destruct (H4 b s (polls_of i sched) Ht) as (b' & s' & Ht' & Ea). simpl map. simpl concat.
    fold (published_by i outs). fold (polls_of i sched). by rewrite Ea, (K2 i b' s' Ht').
  - fold (published_by j outs). fold (polls_of j sched). apply K2. by rewrite H3.
Qed.

Lemma start_ok (ss : list S) r :
  Forall source_wf ss → ring_holds r [] → ingest_ok (RingIngest.start (RingIngest.make ss r)) [].
Proof. intros H1 H2. constructor; try done. simpl. by rewrite length_map. Qed.

Lemma start_thread (ss : list S) r i s :
  ss !! i = Some s → thread_at (RingIngest.start (RingIngest.make ss r)) i = Some (true, s).
Proof.
  intros H. unfold thread_at. simpl. rewrite H. change (map (λ _, true) ss) with ((λ _, true) <$> ss).
  by rewrite list_lookup_fmap, H.
Qed.
End RingIngestInv.

(** ** Properties *)

(** C16. The fan-out thread offers every consumer queue the same stream, numbered without
    holes from 0: for any sources that meet [SourceSpec], any sequence of polls and drains
    and anything the consumers do to their queues in between, the frames distributed carry
    sequence numbers 0, 1, 2, ..., as many as the sources counted; a queue that is still
    open has been offered all of them (a closed one, a prefix), holds exactly the newest
    of those, and its counters satisfy pushed = popped + dropped + held, so that one slow
    consumer changes nothing for another. Every queue meets the feed contract the egress
    relies on. *)
Theorem fanout_offers_every_sink_the_stream {S A} `{!Source S A, !SourceSpec S A} (ss : list S)
    (caps : list Z) (polls : list (FanOut.PollAnswer A)) :
  Forall source_wf ss → Forall (λ c, 0 <= c < capacity_limit) caps → Forall (poll_ok (S := S)) polls →
  let '(log, f) := FanOut.run polls (FanOut.make ss (map make_queue caps)) in
  Z.of_nat (length log) < log_bound →
  stamped 0 log ∧ Forall bus_frame log ∧
  FanOut.fs_frames (FanOut.stats f) = Z.of_nat (length log) ∧
  FanOut.next_seq_ f = Z.of_nat (length log) ∧
  u64 (source_frames (FanOut.sources_ f)) = u64 (source_frames ss + Z.of_nat (length log)) ∧
  length (FanOut.sinks_ f) = length caps ∧
  ∀ j q, FanOut.sinks_ f !! j = Some q →
    ∃ k pos, (k <= length log)%nat ∧ (closed q = false → k = length log) ∧
      feed_at q (take k log) pos ∧
      contents q = lastn (Z.to_nat (qs_size (stats q))) (take k log) ∧
      qs_pushed (stats q) = Z.of_nat k ∧
      qs_pushed (stats q) = u64 (qs_popped (stats q) + qs_dropped (stats q) + qs_size (stats q)).
Proof.
  intros Hs Hc Hp. pose proof (run_ok polls _ [] (make_fan_ok ss caps Hs Hc) Hp) as H.
  cbv zeta in H. destruct (FanOut.run polls _) as [log f]. simpl in H. intros Hb.
  destruct (H Hb) as ([F1 F2 F3 [[F4 F5] F6] F7] & Hl & Hsum). unfold log_bound in Hb.
  assert (∀ k, (k <= length log)%nat → u64 (Z.of_nat k) = Z.of_nat k) as Hu
    by (intros k Hk; apply u64_small; unfold fits; lia).
  split_and!; try done; [by etrans; [exact F3|apply Hu]|by rewrite Hl, length_map|].
  intros j q Hq. pose proof (Forall_lookup_1 _ _ _ _ F7 Hq) as (k & pos & K1 & K2 & K3 & K4 & K5).
  exists k, pos. split_and!; try done; [|simpl; by rewrite K4, Hu].
  destruct K3 as (_ & _ & _ & pre & -> & _). simpl. rewrite <- length_contents. unfold lastn.
  rewrite length_app, Nat.add_sub. symmetry. apply drop_app_length.
Qed.

(** The ring ingest threads never stall and keep every source's order: for any
    sources that meet [SourceSpec] and any interleaving of the threads' turns, every
    publication succeeds, the ring holds exactly the concatenation of what the turns
    published, which are bus frames and as many as counted, and the frames thread i
    published are, in order, those it would have published had it run alone on its own
    polls: up to its stop, and including what was readable at that poll. *)
Theorem ring_ingest_publishes {S A} `{!Source S A, !SourceSpec S A} (ss : list S) (r : Ring)
    (sched : list (nat * RingIngest.PollAnswer A)) :
  Forall source_wf ss → ring_holds r [] → Forall (turn_ok (S := S)) sched →
  64 * Z.of_nat (length sched) < log_bound →
  ∃ log x, RingIngest.turns sched (RingIngest.start (RingIngest.make ss r)) = Some (log, x) ∧
    ring_holds (RingIngest.ring_ x) (concat (map snd log)) ∧ good_log (concat (map snd log)) ∧
    RingIngest.rs_frames (RingIngest.stats x) = u64 (Z.of_nat (length (concat (map snd log)))) ∧
    ∀ i s, ss !! i = Some s → published_by i log = alone (polls_of i sched) true s.
Proof.
  intros Hs Hr Ht Hb. destruct (turns_ok sched _ [] (start_ok ss r Hs Hr) Ht) as (log & x & E & [] & H2).
  { simpl. lia. }
  exists log, x. split_and!; try done. intros i s Hi. apply (H2 i true s). by apply start_thread.
Qed.

(** ** Witnesses *)

Definition demo_sources : list (Can.t + Synth.t) := [inl (Can.make 1); inr (Synth.make demo_config)].

Definition demo_answer (n : Z) : Can.Answer * Synth.Answer :=
  (Can.Recv [demo_msg [Can.CmTimestamping 1 5]; demo_msg []] 7, Synth.mkAnswer (Synth.Expired n) 10 20).

(** Two queues of capacity 2 and 4; the second consumer pops once and is then closed. *)
Definition demo_polls : list (FanOut.PollAnswer (Can.Answer * Synth.Answer)) :=
  [FanOut.PollTimeout;
   FanOut.PollReady [Some ([], demo_answer 1); Some ([(1%nat, SinkPop 1)], demo_answer 1)] false;
   FanOut.PollFail false;
   FanOut.PollReady [None; Some ([(1%nat, SinkClose)], demo_answer 1)] true].

Lemma demo_sources_wf : Forall source_wf demo_sources.
Proof.
  repeat constructor; simpl; try (unfold fits; simpl; lia); try done; repeat constructor; simpl; lia.
Qed.

Lemma demo_answer_ok n : answer_ok (S := Can.t + Synth.t) (demo_answer n).
Proof. split; simpl; [apply (bool_decide_unpack _); vm_compute; exact I|]. split; unfold fits; simpl; lia. Qed.

Lemma fanout_offers_every_sink_the_stream_witness :
  map qs_dropped (map stats (FanOut.sinks_ (FanOut.run demo_polls
    (FanOut.make demo_sources (map make_queue [2; 4]))).2)) = [6; 0] ∧
  (∀ q, FanOut.sinks_ (FanOut.run demo_polls
      (FanOut.make demo_sources (map make_queue [2; 4]))).2 !! 1%nat = Some q →
    ∃ k pos, (k <= 8)%nat ∧ feed_at q (take k (FanOut.run demo_polls
      (FanOut.make demo_sources (map make_queue [2; 4]))).1) pos).
Proof.
  split; [vm_compute; reflexivity|].
  pose proof (fanout_offers_every_sink_the_stream demo_sources [2; 4] demo_polls demo_sources_wf) as H.
  assert (length (FanOut.run demo_polls (FanOut.make demo_sources (map make_queue [2; 4]))).1 = 8%nat)
    as El by (vm_compute; reflexivity).
  destruct (FanOut.run demo_polls _) as [log f]. cbn [fst snd] in *.
  destruct H as (_ & _ & _ & _ & _ & _ & H).
  - repeat constructor; unfold capacity_limit; simpl; lia.
  - repeat first [apply List.Forall_nil | apply List.Forall_cons | exact I | apply demo_answer_ok].
  - rewrite El. reflexivity.
  - intros q Hq. destruct (H 1%nat q Hq) as (k & pos & H1 & _ & H2 & _). exists k, pos.
    rewrite El in H1. split; [exact H1|exact H2].
Defined.

Definition demo_sched : list (nat * RingIngest.PollAnswer (Can.Answer * Synth.Answer)) :=
  [(1%nat, RingIngest.PollReady (Some (demo_answer 1)) false);
   (0%nat, RingIngest.PollReady (Some (demo_answer 1)) true);
   (0%nat, RingIngest.PollReady (Some (demo_answer 1)) false);
   (1%nat, RingIngest.PollReady (Some (demo_answer 2)) true)].

Lemma ring_ingest_publishes_witness :
  ∃ log x, RingIngest.turns demo_sched (RingIngest.start (RingIngest.make demo_sources demo_ring))
           = Some (log, x) ∧
    ring_holds (RingIngest.ring_ x) (concat (map snd log)) ∧
    length (published_by 0 log) = 2%nat ∧ length (published_by 1 log) = 9%nat.
Proof.
  destruct (ring_ingest_publishes demo_sources demo_ring demo_sched) as (log & x & E & H1 & _ & _ & H2).
  - exact demo_sources_wf.
  - exact demo_ring_holds.
  - repeat first [apply List.Forall_nil | apply List.Forall_cons | exact I | apply demo_answer_ok].
  - vm_compute. reflexivity.
  - exists log, x. split; [exact E|]. split; [exact H1|].
    rewrite (H2 0%nat (inl (Can.make 1)) eq_refl), (H2 1%nat (inr (Synth.make demo_config)) eq_refl).
    split; vm_compute; reflexivity.
Defined.
