(* ===== verification/EndToEnd.v ===== *)
(** * EndToEnd: from the buses to a consumer's loss report, both topologies

    The ingest threads ([FanOut] or [RingIngest]), the feed of one consumer, its egress
    thread, the bytes of its connection, the consumer's parser and its tracker, composed.
    The pieces are linked by what they do to the feed they share: what the egress thread
    finds published during its calls is, in order, an initial part of what the ingest
    publishes. That discharges the assumptions the egress theorems make about their
    producers, and carries the properties of the sources through to the consumer: what it
    receives from one source is a subsequence of what that source was drained of. *)

From S2P Require Import Prelude Frame Wire BoundedQueue BroadcastRing GapTracker Samples Feed Egress EgressStream FrameStream RingConc Pipeline Sources Ingest.

(** ** Feeds that say what they are offered *)

(** [env_offered]: the frames other threads offer the feed during a call, in order.
    [offer_ok n]: what frames offered after [n] others have to satisfy. [refuses]: the
    feed has stopped accepting for good. *)
Class FedFeed (F E : Type) `{!ConsumerFeed F E, !FeedSpec F E} := {
  env_offered : E → list Frame;
  offer_ok : Z → list Frame → Prop;
  refuses : F → Prop;
  offer_ok_app n a b : offer_ok n (a ++ b) → offer_ok n a ∧ offer_ok (n + Z.of_nat (length a)) b;
  fed_call n e f log pos :
    feed_at f log pos → offer_ok (Z.of_nat (length log)) (env_offered e) → Forall bus_frame (env_offered e) →
    Z.of_nat (length log + length (env_offered e)) < log_bound →
    feed_env_ok e f log ∧
    (feed_added e f = env_offered e ∨
     feed_added e f `prefix_of` env_offered e ∧ refuses (feed_pop n e f).2);
  fed_refused n e f log pos :
    feed_at f log pos → refuses f →
    feed_env_ok e f log ∧ feed_added e f = [] ∧ refuses (feed_pop n e f).2
}.

(** ** The queue *)

Module QueueFed.
Definition offered_op (op : QueueOp Frame) : list Frame :=
  match op with OpPush items => items | OpClose => [] end.

Definition offered (ops : list (QueueOp Frame)) : list Frame := concat (map offered_op ops).

Lemma offered_app a b : offered (a ++ b) = offered a ++ offered b.
Proof. unfold offered. by rewrite map_app, concat_app. Qed.

Lemma closed_op op (q : QueueFeed.t) :
  queue_wf q → closed_ (apply_op q op) = match op with OpClose => true | _ => closed_ q end.
Proof.
  intros H. destruct (apply_op_refines op q H) as [_ E].
  apply (f_equal a_closed) in E. simpl in E. rewrite E. destruct op; [|done].
  unfold abs_op, abs_push. by destruct (_ || _).
Qed.

(** A closed queue takes nothing. *)
Lemma closed_ops ops (q : QueueFeed.t) n :
  queue_wf q → closed_ q = true → n < log_bound →
  QueueFeed.ops_ok ops q n ∧ QueueFeed.all_accepted ops q = [] ∧ closed_ (fold_left apply_op ops q) = true.
Proof.
  revert q. induction ops as [|op ops IH]; intros q Hwf Hc Hn; [done|]. simpl.
  assert (QueueFeed.accepted op q = []) as -> by (destruct op; simpl; by rewrite ?Hc).
  assert (closed_ (apply_op q op) = true) as Hc' by (rewrite closed_op by done; by destruct op).
  destruct (IH (apply_op q op)) as (H1 & H2 & H3); [by apply apply_op_refines|done|done|].
  simpl. rewrite Z.add_0_r. split_and!; done.
Qed.

(** Numbered frames are accepted until the queue is closed. *)
Lemma offered_ops ops (q : QueueFeed.t) n :
  queue_wf q → stamped n (offered ops) → Forall bus_frame (offered ops) →
  n + Z.of_nat (length (offered ops)) < log_bound →
  QueueFeed.ops_ok ops q n ∧
  (QueueFeed.all_accepted ops q = offered ops ∨
   QueueFeed.all_accepted ops q `prefix_of` offered ops ∧ closed_ (fold_left apply_op ops q) = true).
Proof.
  revert q n. induction ops as [|op ops IH]; intros q n Hwf Hst Hbus Hb; [by split; [|left]|].
  destruct (closed_ q) eqn:Hc.
  { destruct (closed_ops (op :: ops) q n Hwf Hc ltac:(lia)) as (H1 & H2 & H3).
    split; [done|]. right. rewrite H2. split; [apply prefix_nil|done]. }
  change (offered (op :: ops)) with (offered_op op ++ offered ops) in *.
  apply stamped_app in Hst as [Hs1 Hs2]. apply Forall_app in Hbus as [Hb1 Hb2]. rewrite length_app in Hb.
  assert (QueueFeed.accepted op q = offered_op op) as Ea by (destruct op; simpl; by rewrite ?Hc).
  destruct (IH (apply_op q op) (n + Z.of_nat (length (offered_op op)))) as (H1 & H2);
    [by apply apply_op_refines|done|done|lia|].
  simpl. rewrite Ea. split; [split_and!; try done; lia|]. destruct H2 as [->|[H2 H3]]; [by left|right].
  split; [by apply prefix_app|done].
Qed.

(** Where a call leaves the queue closed. *)
Lemma pop_closed n (e : QueueFeed.Env) (q : QueueFeed.t) :
  queue_wf q → closed_ (fold_left apply_op (QueueFeed.before e ++ QueueFeed.during e) q) = true →
  closed_ (QueueFeed.pop n e q).2 = true.
Proof.
  intros Hwf Hc. rewrite fold_left_app in Hc. unfold QueueFeed.pop.
  set (q1 := fold_left apply_op (QueueFeed.before e) q) in *.
  assert (queue_wf q1) as Hwf1 by (by apply apply_ops_refine).
  pose proof (QueueFeed.pop_cases n (QueueFeed.during e) q1 Hwf1) as Hp. cbv zeta in Hp.
  destruct (pop_batch (Z.of_nat n) (QueueFeed.during e) q1) as [out q']. simpl in *.
  destruct (_ || pop_ready q1); destruct Hp as (Hwf' & _ & _ & Ecl); simpl; [|by rewrite Ecl].
  revert Hwf' Ecl Hc. clearbody q1. revert q1 q' Hwf1. induction (QueueFeed.during e) as [|op ops IH];
    intros q1 q' Hwf1 Hwf' Ecl Hc; simpl in *; [by rewrite Ecl|].
  apply (IH (apply_op q1 op)); [by apply apply_op_refines|by apply apply_op_refines| |done].
  rewrite !closed_op by done. by destruct op.
Qed.

#[global] Program Instance queue_fed : FedFeed QueueFeed.t QueueFeed.Env := {
  env_offered e := offered (QueueFeed.before e ++ QueueFeed.during e);
  offer_ok := stamped;
  refuses q := closed_ q = true
}.
Next Obligation. intros n a b H. by apply stamped_app in H. Qed.
Next Obligation.
  intros n e q log pos (Hwf & _) Hs Hbus Hb. rewrite Nat2Z.inj_add in Hb.
  destruct (offered_ops _ q _ Hwf Hs Hbus Hb) as [H1 H2]. split; [done|].
  destruct H2 as [H2|[H2 H3]]; [by left|right]. split; [done|by apply pop_closed].
Qed.
Next Obligation.
  intros n e q log pos (Hwf & [_ Hb] & _) Hc.
  destruct (closed_ops (QueueFeed.before e ++ QueueFeed.during e) q _ Hwf Hc Hb) as (H1 & H2 & H3).
  split_and!; [done|done|by apply pop_closed].
Qed.
End QueueFed.

(** ** The ring *)

#[export] Program Instance ring_fed : FedFeed RingFeed.t RingFeed.Env := {
  env_offered e := RingFeed.all_published (concat (RingFeed.first_reads e)) ++
                   RingFeed.all_published (RingFeed.waiting e ++ concat (RingFeed.second_reads e));
  offer_ok _ _ := True;
  refuses _ := False
}.
Next Obligation. done. Qed.
Next Obligation. intros n e f log pos _ _ Hbus Hb. by split; [split|left]. Qed.
Next Obligation. done. Qed.

(** ** An egress thread whose feed is offered an initial part of a stream *)

Section Fed.
Context {F E : Type} `{!ConsumerFeed F E, !FeedSpec F E, !FedFeed F E}.

Definition calls_offered (calls : list (nat * E)) : list Frame := concat (map (λ c, env_offered c.2) calls).

(** The calls a run of the thread makes on its feed. *)
Fixpoint loop_calls (envs : list (IterEnv E)) (s : Egress) (f : F) : list (nat * E) :=
  match envs with
  | [] => []
  | env :: envs =>
      iter_calls env s f ++
      match run_iter env s f with
      | Some (Continue, s', f', _) => loop_calls envs s' f'
      | _ => []
      end
  end.

(** Everything the feed of a thread is offered during a run. *)
Definition loop_offered (envs : list (IterEnv E)) (s : Egress) (f : F) : list Frame :=
  calls_offered (loop_calls envs s f).

Definition clocks_ok (env : IterEnv E) : Prop := fits 64 (i_gap_now env) ∧ fits 64 (i_echo_now env).

Context (L : list Frame).
Hypothesis Hgood : good_log L.
Hypothesis Hoffer : offer_ok 0 L.

(** The feed has taken an initial part of [L] and will be offered [rest] next. *)
Definition fed (f : F) (log rest : list Frame) : Prop :=
  (∃ pos, feed_at f log pos) ∧ ((log ++ rest) `prefix_of` L ∨ refuses f ∧ log `prefix_of` L).

Lemma fed_prefix f log rest : fed f log rest → log `prefix_of` L.
Proof. intros [_ [H|[_ H]]]; [|done]. etrans; [|exact H]. by eexists. Qed.

Lemma prefix_of_good l : l `prefix_of` L → Forall bus_frame l ∧ (length l <= length L)%nat.
Proof.
  intros [k El]. destruct Hgood as [Hb _]. rewrite El in Hb |- *. apply Forall_app in Hb as [Hb _].
  rewrite length_app. split; [done|lia].
Qed.

Lemma fed_pop n e f log rest :
  fed f log (env_offered e ++ rest) →
  feed_env_ok e f log ∧ fed (feed_pop n e f).2 (log ++ feed_added e f) rest.
Proof.
  intros [[pos Hf] [Hp|[Hr Hp]]].
  - rewrite app_assoc in Hp.
    assert ((log ++ env_offered e) `prefix_of` L) as Hp' by (etrans; [|exact Hp]; by eexists).
    destruct (prefix_of_good _ Hp') as [Hbus Hlen]. apply Forall_app in Hbus as [_ Hbus].
    rewrite length_app in Hlen. destruct Hgood as [_ Hbound].
    assert (offer_ok (Z.of_nat (length log)) (env_offered e)) as Ho.
    { destruct Hp' as [k E0]. pose proof Hoffer as Ho. rewrite E0 in Ho.
      apply offer_ok_app in Ho as [Ho _]. by apply offer_ok_app in Ho as [_ Ho]. }
    destruct (fed_call n e f log pos Hf Ho Hbus) as [Hok Ha]; [lia|]. split; [done|].
    destruct (feed_pop_spec n e f log pos Hf Hok) as (pos' & Hf' & _). split; [by exists pos'|].
    destruct Ha as [->|[Ha Hrf]]; [by left|right]. split; [done|].
    etrans; [|exact Hp']. by apply prefix_app.
  - destruct (fed_refused n e f log pos Hf Hr) as (Hok & Ha & Hr').
    destruct (feed_pop_spec n e f log pos Hf Hok) as (pos' & Hf' & _). rewrite Ha, app_nil_r in *.
    split; [done|]. split; [by exists pos'|]. by right.
Qed.

Lemma fed_pops calls f log rest :
  fed f log (calls_offered calls ++ rest) →
  pops_ok calls f log ∧ fed (pops calls f).2 (log ++ pops_added calls f) rest.
Proof.
  revert f log. induction calls as [|[n e] calls IH]; intros f log Hfed.
  { simpl. rewrite app_nil_r. done. }
  change (calls_offered ((n, e) :: calls)) with (env_offered e ++ calls_offered calls) in Hfed.
  rewrite <- app_assoc in Hfed. destruct (fed_pop n e f log _ Hfed) as [Hok H1].
  destruct (IH _ _ H1) as [H2 H3]. rewrite pops_cons. cbn [pops_ok pops_added snd]. rewrite app_assoc. done.
Qed.

(** The feed after an iteration is the one its calls leave. *)
Lemma run_iter_feed t env s f log evs st s' f' ev :
  thread_inv t L s f log evs → run_iter env s f = Some (st, s', f', ev) →
  f' = (pops (iter_calls env s f) f).2.
Proof.
  intros Hinv Hr. unfold run_iter in Hr. unfold iter_calls.
  destruct (wait_for_client (i_wait env) s) as [[[b s1] ev1]|] eqn:Ew; [|done].
  destruct (wait_inv _ _ _ _ _ _ _ _ _ _ Hinv Ew) as [(_ & L1 & _) _]. destruct b; [|by simplify_eq].
  destruct (li_pending _ _ _ _ L1) as [Hp _]. rewrite Hp in Hr.
  destruct (serve env s1 f) as [[[[st2 s2] f2] ev2]|] eqn:Es; [|done]. injection Hr as <- <- <- <-.
  destruct (client_gone (i_gone_rc env) (i_gone_hup env) s1) eqn:Hg.
  - unfold serve in Es. rewrite Hg in Es. destruct (drop_client s1). by simplify_eq.
  - destruct (serve_eq env s1 f Hg) as (s3 & _ & E3). rewrite E3 in Es.
    destruct (popped env (tuning_ s1) f); [by simplify_eq|].
    destruct (send_batch env (_ :: _) s3) as [[s4 ev4]|]; by simplify_eq.
Qed.

(** Linked to a stream, a thread's assumptions on its producers hold, and what has been
    published to it is an initial part of the stream. *)
Lemma loop_fed envs t s f log evs :
  thread_inv t L s f log evs → fed f log (loop_offered envs s f) → Forall clocks_ok envs →
  loop_ok envs s f log ∧ loop_log envs s f log `prefix_of` L.
Proof.
  revert s f log evs. induction envs as [|env envs IH]; intros s f log evs Hinv Hfed Hcl.
  { split; [done|]. by eapply fed_prefix. }
  apply Forall_cons in Hcl as [[Hg He] Hcl]. cbn [loop_ok loop_log].
  unfold loop_offered, calls_offered in Hfed. cbn [loop_calls] in Hfed. rewrite map_app, concat_app in Hfed.
  destruct (fed_pops _ _ _ _ Hfed) as [Hok H1]. pose proof (fed_prefix _ _ _ H1) as Hp.
  destruct (run_iter env s f) as [[[[st s1] f1] ev1]|] eqn:Ei; [|done].
  pose proof (run_iter_feed t env s f log evs st s1 f1 ev1 Hinv Ei) as Ef. rewrite <- Ef in H1.
  pose proof (run_iter_inv env t L s f log evs st s1 f1 ev1 Hinv Hg He Hok Hp Ei) as Hinv1.
  destruct st; [|done]. destruct (IH s1 f1 _ _ Hinv1 H1 Hcl) as [H2 H3]. done.
Qed.

Lemma start_fed envs t f pos :
  1 <= max_frames t <= kMaxBatch → feed_at f [] pos → loop_offered envs (make_egress t) f `prefix_of` L →
  Forall clocks_ok envs →
  loop_ok envs (make_egress t) f [] ∧ loop_log envs (make_egress t) f [] `prefix_of` L.
Proof.
  intros Ht Hf Hp Hcl. apply (loop_fed envs t _ f [] []); [by apply (start_inv t L f [] pos)| |done].
  split; [by exists pos|by left].
Qed.
End Fed.

(** ** Which source a position came from *)

(** What was drained, batch by batch, with the source of each. *)
Definition Trace : Type := list (nat * list Frame).

Definition tagged (tr : Trace) : list (nat * Frame) := concat (map (λ c, map (pair c.1) c.2) tr).

(** The source of the frame at the position a record carries. *)
Definition origin (tr : Trace) (g : Frame) : option nat := fst <$> tagged tr !! Z.to_nat (f_seq g).

Lemma tagged_frames tr : map snd (tagged tr) = concat (map snd tr).
Proof.
  unfold tagged. induction tr as [|[i l] tr IH]; simpl; [done|]. rewrite map_app, map_map, IH. simpl.
  by rewrite map_id.
Qed.

Lemma tagged_by tr i : map snd (filter (λ x, x.1 = i) (tagged tr)) = published_by i tr.
Proof.
  unfold tagged, published_by. induction tr as [|[k l] tr IH]; [done|]. cbn [map concat fst snd].
  rewrite filter_app, map_app, IH, filter_cons. cbn [fst]. clear IH. case_decide as Hk; cbn [map concat snd].
  - f_equal. subst. induction l as [|f l IH]; [done|]. cbn [map]. rewrite filter_cons, decide_True by done.
    simpl. by rewrite IH.
  - assert (filter (λ x : nat * Frame, x.1 = i) (map (pair k) l) = []) as ->; [|done].
    induction l as [|f l IH]; [done|]. cbn [map]. by rewrite filter_cons, decide_False.
Qed.

(** Strictly increasing positions, from [lo] on. *)
Fixpoint ascends (lo : nat) (ps : list nat) : Prop :=
  match ps with
  | [] => True
  | p :: ps => (lo <= p)%nat ∧ ascends (S p) ps
  end.

(** What a list holds at increasing positions is a subsequence of it. *)
Lemma ascends_sublist {A} (l : list A) lo ps (xs : list A) :
  ascends lo ps → Forall2 (λ p x, l !! p = Some x) ps xs → xs `sublist_of` drop lo l.
Proof.
  intros Ha H. revert lo Ha. induction H as [|p x ps xs Hx _ IH]; intros lo Ha; [apply sublist_nil_l|].
  destruct Ha as [Hlo Ha]. specialize (IH _ Ha).
  replace (drop lo l) with (take (p - lo) (drop lo l) ++ drop p l).
  - apply sublist_inserts_l. rewrite (drop_S _ _ _ Hx). by apply sublist_skip.
  - rewrite <- (take_drop (p - lo) (drop lo l)) at 2. f_equal. rewrite drop_drop. f_equal. lia.
Qed.

Definition real (g : Frame) : Prop := is_control g = false.

Lemma forward_ascends e records :
  Forall frame_wf records → forward e records = true → (∀ n, e = Some n → 0 <= n) →
  Forall (λ g, real g → 0 <= f_seq g) records →
  ascends (Z.to_nat (default 0 e)) (map (λ g, Z.to_nat (f_seq g)) (filter real records)).
Proof.
  intros Hwf. revert e. induction Hwf as [|g l Hg Hwf IH]; intros e Hf He H0; [done|]. simpl in Hf.
  apply andb_true_iff in Hf as [Hc Hf]. apply Forall_cons in H0 as [Hg0 H0]. rewrite filter_cons.
  pose proof (gap_count_nonneg g Hg) as Hgap. unfold continues in Hc. unfold resume_at in Hf.
  pose proof (is_control_or g) as Hor. unfold real at 1 in Hg0. unfold real at 1.
  destruct (is_echo g); [rewrite orb_true_r in Hor; rewrite decide_False by congruence; by apply IH|].
  rewrite orb_false_r in Hor. simpl in Hc. apply andb_true_iff in Hc as [Hc Hb].
  destruct (is_gap g).
  - rewrite decide_False by congruence. apply Z.ltb_lt in Hb.
    assert (0 <= f_seq g) as Hs by (destruct Hg as [Hs _]; unfold fits in Hs; lia).
    specialize (IH _ Hf ltac:(intros n [= <-]; lia) H0). simpl in IH. clear -IH Hc Hs Hgap He.
    destruct e as [n|]; simpl in *; zbool; [subst|]; revert IH;
      destruct (map _ (filter real l)) as [|p ps]; simpl; try done; intros [? ?]; (split; [lia|done]).
  - rewrite decide_True by congruence. specialize (Hg0 ltac:(congruence)). cbn [map ascends].
    specialize (IH _ Hf ltac:(intros n [= <-]; lia) H0). simpl in IH.
    rewrite Z2Nat.inj_add in IH by lia. change (Z.to_nat 1) with 1%nat in IH. rewrite Nat.add_1_r in IH.
    split; [|done]. destruct e as [n|]; simpl in *; zbool; lia.
Qed.

(** The frames of one source, as a consumer sees them, are a subsequence of what the
    source was drained of. *)
Lemma per_source (tr : Trace) L records i :
  map (set_seq 0) L = map (set_seq 0) (concat (map snd tr)) →
  Forall frame_wf records → forward None records = true → Forall (λ g, real g → of_log L g) records →
  map (set_seq 0) (filter (λ g, real g ∧ origin tr g = Some i) records)
    `sublist_of` map (set_seq 0) (published_by i tr).
Proof.
  intros HL Hwf Hfw Hof.
  assert (ascends 0 (map (λ g, Z.to_nat (f_seq g)) (filter real records))) as Hasc.
  { apply (forward_ascends None); [done|done|done|]. eapply Forall_impl; [exact Hof|].
    intros g Hg Hr. destruct (Hg Hr). lia. }
  assert (Forall (of_log L) (filter real records)) as Hreal.
  { apply Forall_forall. intros g Hg. apply list_elem_of_filter in Hg as [Hr Hg].
    rewrite Forall_forall in Hof. by apply Hof. }
  replace (filter (λ g, real g ∧ origin tr g = Some i) records)
    with (filter (λ g, origin tr g = Some i) (filter real records))
    by (rewrite list_filter_filter; apply list_filter_iff; intros g; tauto).
  set (rs := filter real records) in *. clearbody rs.
  set (T := tagged tr).
  assert (∀ g, of_log L g → ∃ x, T !! Z.to_nat (f_seq g) = Some x ∧ set_seq 0 g = set_seq 0 x.2) as Hpick.
  { intros g [Hb Hg].
    assert (map (set_seq 0) L !! Z.to_nat (f_seq g) = Some (set_seq 0 g)) as Hl.
    { rewrite list_lookup_fmap, (list_lookup_lookup_total_lt L) by lia. simpl. f_equal. by rewrite Hg at 2. }
    rewrite HL, <- tagged_frames, map_map, list_lookup_fmap in Hl. fold T in Hl.
    destruct (T !! Z.to_nat (f_seq g)) as [x|]; [|done]. apply (inj Some) in Hl. exists x. split; [done|]. by rewrite <- Hl. }
  assert (∃ xs, Forall2 (λ p x, T !! p = Some x) (map (λ g, Z.to_nat (f_seq g)) rs) xs ∧
                map (set_seq 0) (filter (λ g, origin tr g = Some i) rs)
                = map (set_seq 0) (map snd (filter (λ x, x.1 = i) xs))) as (xs & H1 & H2).
  { clear Hasc. induction Hreal as [|g rs Hg _ IH]; [by exists []|].
    destruct IH as (xs & H1 & H2). destruct (Hpick g Hg) as (x & Hx & Hxg). exists (x :: xs).
    split; [by constructor|]. rewrite !filter_cons.
    assert (origin tr g = Some x.1) as Ho by (unfold origin; fold T; by rewrite Hx).
    destruct (decide (x.1 = i)) as [E|E].
    - rewrite decide_True by congruence. cbn [map]. by rewrite H2, Hxg.
    - rewrite decide_False by congruence. done. }
  rewrite H2, <- tagged_by. apply (fmap_sublist (set_seq 0)), (fmap_sublist snd), filter_sublist.
  fold T. change T with (drop 0 T). by eapply ascends_sublist.
Qed.

(** ** What the fan-out thread drains *)

Section FanTrace.
Context {S A : Type} `{!Source S A, !SourceSpec S A}.

Fixpoint ready_trace (i : nat) (ready : list (option (list (nat * SinkOp) * A))) (ss : list S) : Trace * list S :=
  match ready with
  | [] => ([], ss)
  | Some (_, a) :: ready =>
      match ss !! i with
      | Some s =>
          let '(out, s) := drain kDrainBatch a s in
          let '(tr, ss) := ready_trace (Datatypes.S i) ready (<[i := s]> ss) in ((i, out) :: tr, ss)
      | None => ready_trace (Datatypes.S i) ready ss
      end
  | None :: ready => ready_trace (Datatypes.S i) ready ss
  end.

Fixpoint fan_trace (polls : list (FanOut.PollAnswer A)) (ss : list S) : Trace :=
  match polls with
  | [] => []
  | FanOut.PollReady ready stop :: polls =>
      let '(tr, ss) := ready_trace 0 ready ss in tr ++ if stop then [] else fan_trace polls ss
  | _ :: polls => fan_trace polls ss
  end.

(** What source [i] is drained of, given the polls, whatever the other sources do. *)
Fixpoint fan_alone (i : nat) (polls : list (FanOut.PollAnswer A)) (s : S) : list Frame :=
  match polls with
  | [] => []
  | FanOut.PollReady ready stop :: polls =>
      let '(out, s) := match ready !! i with Some (Some (_, a)) => drain kDrainBatch a s | _ => ([], s) end in
      out ++ if stop then [] else fan_alone i polls s
  | _ :: polls => fan_alone i polls s
  end.

Lemma stamp_app base a b : stamp base (a ++ b) = stamp base a ++ stamp (u64 (base + Z.of_nat (length a))) b.
Proof.
  unfold stamp. rewrite imap_app. f_equal. apply imap_ext. intros k f _. simpl. f_equal.
  rewrite u64_add_l. f_equal. lia.
Qed.

Lemma stamp_0 base l : map (set_seq 0) (stamp base l) = map (set_seq 0) l.
Proof.
  unfold stamp. revert base. induction l as [|f l IH]; intros base; [done|]. cbn [imap map]. f_equal.
  rewrite <- (IH (base + 1)). f_equal. apply imap_ext. intros k g _. simpl. do 2 f_equal. lia.
Qed.

Lemma distribute_trace out (f : FanOut.t S) :
  u64 (FanOut.next_seq_ f) = FanOut.next_seq_ f →
  let r := FanOut.distribute out f in
  r.1 = stamp (FanOut.next_seq_ f) out ∧ FanOut.sources_ r.2 = FanOut.sources_ f ∧
  FanOut.next_seq_ r.2 = u64 (FanOut.next_seq_ f + Z.of_nat (length out)).
Proof. intros Hn. unfold FanOut.distribute. destruct out; simpl; [by rewrite Z.add_0_r|done]. Qed.

Lemma drain_ready_trace ready i (f : FanOut.t S) :
  u64 (FanOut.next_seq_ f) = FanOut.next_seq_ f →
  let r := FanOut.drain_ready i ready f in
  let tr := ready_trace i ready (FanOut.sources_ f) in
  r.1 = stamp (FanOut.next_seq_ f) (concat (map snd tr.1)) ∧ FanOut.sources_ r.2 = tr.2 ∧
  FanOut.next_seq_ r.2 = u64 (FanOut.next_seq_ f + Z.of_nat (length r.1)).
Proof.
  revert i f. induction ready as [|[[ops a]|] ready IH]; intros i f Hn; cbn [FanOut.drain_ready ready_trace];
    [simpl; by rewrite Z.add_0_r| |by apply IH].
  unfold FanOut.drain_source. set (f0 := FanOut.set_sinks _ f).
  change (FanOut.sources_ f0) with (FanOut.sources_ f).
  destruct (FanOut.sources_ f !! i) as [s|].
  2:{ pose proof (IH (Datatypes.S i) f0 Hn) as H. cbv zeta in H.
      by destruct (FanOut.drain_ready (Datatypes.S i) ready f0). }
  destruct (drain kDrainBatch a s) as [out s'].
  set (f1 := FanOut.set_sources (<[i := s']> (FanOut.sources_ f)) f0).
  destruct (distribute_trace out f1 Hn) as (Eo & Es & En).
  destruct (FanOut.distribute out f1) as [o f2]. simpl fst in *. simpl snd in *.
  assert (u64 (FanOut.next_seq_ f2) = FanOut.next_seq_ f2) as Hn2 by (rewrite En; apply u64_u64).
  specialize (IH (Datatypes.S i) f2 Hn2). cbv zeta in IH. rewrite Es in IH.
  change (FanOut.sources_ f1) with (<[i := s']> (FanOut.sources_ f)) in IH.
  destruct (FanOut.drain_ready (Datatypes.S i) ready f2) as [outs f3].
  destruct (ready_trace (Datatypes.S i) ready (<[i := s']> (FanOut.sources_ f))) as [tr ss].
  cbn [fst snd map concat] in *. destruct IH as (H1 & H2 & H3). rewrite En in H1, H3. split_and!.
  - by rewrite Eo, H1, stamp_app.
  - done.
  - rewrite H3, Eo, length_app, length_stamp, u64_add_l. f_equal. simpl. lia.
Qed.

(** The stream of a run is what was drained, in order, numbered from 0. *)
Lemma run_trace polls (f : FanOut.t S) :
  u64 (FanOut.next_seq_ f) = FanOut.next_seq_ f →
  (FanOut.run polls f).1 = stamp (FanOut.next_seq_ f) (concat (map snd (fan_trace polls (FanOut.sources_ f)))).
Proof.
  revert f. induction polls as [|p polls IH]; intros f Hn; [done|].
  destruct p as [eintr| |ready stop]; cbn [FanOut.run FanOut.run_once fan_trace].
  - destruct eintr; cbn [FanOut.run_once].
    + specialize (IH f Hn). destruct (FanOut.run polls f). done.
    + specialize (IH (FanOut.poll_error f) Hn). destruct (FanOut.run polls (FanOut.poll_error f)). done.
  - specialize (IH f Hn). destruct (FanOut.run polls f). done.
  - pose proof (drain_ready_trace ready 0 f Hn) as H. cbv zeta in H.
    destruct (FanOut.drain_ready 0 ready f) as [out f1], (ready_trace 0 ready (FanOut.sources_ f)) as [tr ss].
    cbn [fst snd] in *. destruct H as (H1 & H2 & H3). destruct stop; cbn [fst].
    + by rewrite app_nil_r.
    + specialize (IH f1 ltac:(rewrite H3; apply u64_u64)). destruct (FanOut.run polls f1) as [outs f2].
      cbn [fst] in *. rewrite IH, H2, map_app, concat_app, stamp_app, <- H1. f_equal.
      rewrite H3, H1, length_stamp. done.
Qed.

Lemma published_by_cons i k out (tr : Trace) :
  published_by i ((k, out) :: tr) = (if decide (k = i) then out else []) ++ published_by i tr.
Proof. unfold published_by. rewrite filter_cons. simpl. by case_decide. Qed.

Lemma published_by_app i (a b : Trace) : published_by i (a ++ b) = published_by i a ++ published_by i b.
Proof. unfold published_by. by rewrite filter_app, map_app, concat_app. Qed.

(** The rest of the loop leaves the sources before it alone. *)
Lemma ready_trace_past ready i k (ss : list S) :
  (i < k)%nat → published_by i (ready_trace k ready ss).1 = [] ∧ (ready_trace k ready ss).2 !! i = ss !! i.
Proof.
  revert k ss. induction ready as [|[[ops a]|] ready IH]; intros k ss Hk; cbn [ready_trace]; [done| |apply IH; lia].
  destruct (ss !! k) as [s|]; [|apply IH; lia]. destruct (drain kDrainBatch a s) as [out s'].
  specialize (IH (Datatypes.S k) (<[k := s']> ss) ltac:(lia)).
  destruct (ready_trace (Datatypes.S k) ready (<[k := s']> ss)) as [tr ss']. cbn [fst snd] in *.
  rewrite published_by_cons, decide_False by lia. rewrite list_lookup_insert_ne in IH by lia. done.
Qed.

Lemma ready_trace_source ready i k (ss : list S) s :
  ss !! (k + i)%nat = Some s →
  let tr := ready_trace k ready ss in
  let r := match ready !! i with Some (Some (_, a)) => drain kDrainBatch a s | _ => ([], s) end in
  published_by (k + i) tr.1 = r.1 ∧ tr.2 !! (k + i)%nat = Some r.2.
Proof.
  revert i k ss. induction ready as [|x ready IH]; intros i k ss Hi; cbn [ready_trace]; [done|].
  destruct i as [|i].
  - rewrite Nat.add_0_r in *. simpl lookup. destruct x as [[ops a]|].
    + rewrite Hi. destruct (drain kDrainBatch a s) as [out s'].
      destruct (ready_trace_past ready k (Datatypes.S k) (<[k := s']> ss) ltac:(lia)) as [H1 H2].
      destruct (ready_trace (Datatypes.S k) ready (<[k := s']> ss)) as [tr ss']. cbn [fst snd] in *.
      rewrite published_by_cons, decide_True, H1, app_nil_r by done. split; [done|].
      rewrite H2. apply list_lookup_insert_eq. by eapply lookup_lt_Some.
    + destruct (ready_trace_past ready k (Datatypes.S k) ss ltac:(lia)) as [H1 H2]. by rewrite H1, H2, Hi.
  - replace (k + Datatypes.S i)%nat with (Datatypes.S k + i)%nat in * by lia. simpl lookup.
    destruct x as [[ops a]|]; [|by apply IH]. destruct (ss !! k) as [s0|] eqn:Hk; [|by apply IH].
    destruct (drain kDrainBatch a s0) as [out s'].
    assert ((<[k := s']> ss) !! (Datatypes.S k + i)%nat = Some s) as Hi' by (by rewrite list_lookup_insert_ne by lia).
    specialize (IH i (Datatypes.S k) _ Hi'). cbv zeta in IH.
    destruct (ready_trace (Datatypes.S k) ready (<[k := s']> ss)) as [tr ss']. cbn [fst snd] in *.
    by rewrite published_by_cons, decide_False by lia.
Qed.

(** What the stream holds of a source does not depend on the other sources. *)
Lemma fan_trace_source polls i (ss : list S) s :
  ss !! i = Some s → published_by i (fan_trace polls ss) = fan_alone i polls s.
Proof.
  revert ss s. induction polls as [|p polls IH]; intros ss s Hi; [done|].
  destruct p as [eintr| |ready stop]; cbn [fan_trace fan_alone]; [by apply IH..|].
  destruct (ready_trace_source ready i 0 ss s Hi) as [H1 H2]. simpl Nat.add in *.
  destruct (ready_trace 0 ready ss) as [tr ss'].
  destruct (match ready !! i with Some (Some (_, a)) => drain kDrainBatch a s | _ => ([], s) end) as [out s'].
  cbn [fst snd] in *. rewrite published_by_app, H1. f_equal. destruct stop; [done|]. by apply IH.
Qed.
End FanTrace.

(** ** The consumer of a linked thread *)

Section Linked.
Context {F E : Type} `{!ConsumerFeed F E, !FeedSpec F E, !FedFeed F E}.

(** Every connection of a linked thread carries frames of the stream. *)
Lemma linked_streamed L (envs : list (IterEnv E)) t (f : F) pos st s' f' ev :
  good_log L → offer_ok 0 L → 1 <= max_frames t <= kMaxBatch → feed_at f [] pos → Forall clocks_ok envs →
  loop_offered envs (make_egress t) f `prefix_of` L →
  run_loop envs (make_egress t) f = Some (st, s', f', ev) →
  Forall (streamed (linger_us t = 0 ∧ contiguous_feed) (of_log L) (max_frames t)) (connections ev).
Proof.
  intros Hg Ho Ht Hf Hcl Hp Hr. destruct (start_fed L Hg Ho envs t f pos Ht Hf Hp Hcl) as [Hok Hlog].
  eapply Forall_impl; [by apply (run_streamed envs t f [] pos st s' f' ev)|].
  intros conn (bs & H1 & H2 & H3 & H4 & H5). exists bs. split_and!; try done.
  eapply Forall_impl; [exact H5|]. intros g Hg' Hreal. eapply of_log_prefix; [exact Hlog|by apply Hg'].
Qed.

Lemma linked_consumer (tr : Trace) L (envs : list (IterEnv E)) t (f : F) pos st s' f' ev
    conn got calls rs cs net :
  good_log L → offer_ok 0 L → map (set_seq 0) L = map (set_seq 0) (concat (map snd tr)) →
  1 <= max_frames t <= kMaxBatch → feed_at f [] pos → Forall clocks_ok envs →
  loop_offered envs (make_egress t) f `prefix_of` L →
  run_loop envs (make_egress t) f = Some (st, s', f', ev) →
  conn ∈ connections ev → got `prefix_of` conn → reads calls make_stream got = Some (rs, cs, net) →
  let records := consumer_records rs in
  Forall (λ r, r.1 ≠ Status.kProtocolError) rs ∧
  Forall (λ g, real g → of_log L g) records ∧
  (∀ i, map (set_seq 0) (filter (λ g, real g ∧ origin tr g = Some i) records)
          `sublist_of` map (set_seq 0) (published_by i tr)) ∧
  Forall frame_wf records ∧ forward None records = true ∧
  (linger_us t = 0 ∧ contiguous_feed → explained None records = true).
Proof.
  intros Hg Ho HL Ht Hf Hcl Hp Hr Hc Hgot Hrd records.
  destruct (start_fed L Hg Ho envs t f pos Ht Hf Hp Hcl) as [Hok Hlog].
  destruct (pipeline_stream envs t f [] pos st s' f' ev conn got calls rs cs net) as (H1 & H2 & H3 & H4 & H5); try done.
  fold records in H2, H3, H4, H5.
  assert (Forall (λ g, real g → of_log L g) records) as H6.
  { eapply Forall_impl; [exact H4|]. intros g Hg' Hreal. eapply of_log_prefix; [exact Hlog|by apply Hg']. }
  split_and!; try done. intros i. by apply (per_source tr L).
Qed.

(** A real record has a source. *)
Lemma origin_known (tr : Trace) L g :
  map (set_seq 0) L = map (set_seq 0) (concat (map snd tr)) → of_log L g → is_Some (origin tr g).
Proof.
  intros HL [Hb _]. apply (f_equal length) in HL. rewrite !length_map, <- tagged_frames, length_map in HL.
  unfold origin. apply fmap_is_Some, lookup_lt_is_Some_2. lia.
Qed.
End Linked.

Lemma fan_stream_good {S A} `{!Source S A, !SourceSpec S A} (ss : list S) caps
    (polls : list (FanOut.PollAnswer A)) :
  Forall source_wf ss → Forall (λ c, 0 <= c < capacity_limit) caps → Forall (poll_ok (S := S)) polls →
  let stream := (FanOut.run polls (FanOut.make ss (map make_queue caps))).1 in
  Z.of_nat (length stream) < log_bound →
  good_log stream ∧ stamped 0 stream ∧ stream = stamp 0 (concat (map snd (fan_trace polls ss))).
Proof.
  intros Hs Hc Hp stream Hb. destruct (run_ok polls _ [] (make_fan_ok ss caps Hs Hc) Hp Hb) as ([F1 F2 F3 F4 _] & _).
  split_and!; [|tauto|by apply run_trace]. tauto.
Qed.

(** In a log that is numbered, a frame of the log is the frame with its number. *)
Lemma stamped_of_log L g : stamped 0 L → of_log L g → L !! Z.to_nat (f_seq g) = Some g.
Proof.
  intros Hst [Hlt Hg]. destruct (lookup_lt_is_Some_2 L (Z.to_nat (f_seq g)) ltac:(lia)) as [h Hh]. rewrite Hh. f_equal.
  rewrite Hg. unfold log_frame. rewrite (list_lookup_total_correct _ _ _ Hh).
  pose proof (stamped_lookup _ _ _ _ Hst Hh). rewrite <- (set_seq_id h). f_equal; [|by rewrite set_seq_id]. lia.
Qed.

(** The two feeds at the start. *)
Lemma queue_feed_start cap : 0 <= cap < capacity_limit → feed_at (F := QueueFeed.t) (make_queue cap) [] 0.
Proof. intros Hc. split_and!; [by apply make_queue_wf|by split; [constructor|]|done|by exists []]. Qed.

Lemma ring_feed_start capacity r :
  0 <= capacity <= 2 ^ 63 → make_ring capacity = Some r → feed_at (F := RingFeed.t) (RingFeed.make r) [] 0.
Proof.
  intros Hc Hr. pose proof (make_ring_holds capacity r Hc Hr) as Hring. split_and!; try done. simpl.
  destruct Hring as (_ & Hw & _). unfold oldest. rewrite Hw. simpl.
  destruct (make_ring_shape capacity Hc) as (r0 & Er & Hsh & _). simplify_eq.
  pose proof (shape_bounds Hsh). rewrite Z.gtb_ltb. case_match; zbool; lia.
Qed.

(** What the ring's ingest threads publish. *)
Lemma ring_stream_good {S A} `{!Source S A, !SourceSpec S A} (ss : list S) capacity r
    (sched : list (nat * RingIngest.PollAnswer A)) tr x :
  Forall source_wf ss → 0 <= capacity <= 2 ^ 63 → make_ring capacity = Some r →
  Forall (turn_ok (S := S)) sched → 64 * Z.of_nat (length sched) < log_bound →
  RingIngest.turns sched (RingIngest.start (RingIngest.make ss r)) = Some (tr, x) →
  good_log (concat (map snd tr)) ∧
  ∀ i (s : S), ss !! i = Some s → published_by i tr = alone (polls_of i sched) true s.
Proof.
  intros Hs Hc Hr Hsch Hb Hturns. pose proof (make_ring_holds capacity r Hc Hr) as Hring.
  destruct (turns_ok sched _ [] (start_ok ss r Hs Hring) Hsch) as (tr' & x' & E1 & [_ _ Hg _ _] & Halone);
    [simpl; lia|]. simplify_eq. split; [done|]. intros i s Hi. by apply Halone, start_thread.
Qed.

(** ** Properties *)

(** C1. The queue topology, end to end. Any sources that meet their contract, any answers of
    the kernel, any speed of the other consumers: the records a consumer reads from any
    of the connections of its egress thread, cut anywhere, contain no protocol error; a frame
    it gets is the frame numbered so, and what it gets of one source is, in order, part of
    what that source was drained of; a tracker that starts with the connection accounts for
    every number from the first it sees to the last exactly once, as received, reported
    lost, absent or silently lost; and unless the egress lingers, none of those is silently
    lost. What a failed write loses lies between two connections and is outside of what
    either tracker counts ([Pipeline.failed_write_is_silent]). *)
Theorem queue_gateway_end_to_end {S A} `{!Source S A, !SourceSpec S A} (ss : list S) caps
    (polls : list (FanOut.PollAnswer A)) j cap (envs : list (IterEnv QueueFeed.Env)) t st s' q' ev
    conn got calls rs cs net n :
  Forall source_wf ss → Forall (λ c, 0 <= c < capacity_limit) caps → Forall (poll_ok (S := S)) polls →
  let stream := (FanOut.run polls (FanOut.make ss (map make_queue caps))).1 in
  Z.of_nat (length stream) < log_bound →
  caps !! j = Some cap → 1 <= max_frames t <= kMaxBatch → Forall clocks_ok envs →
  loop_offered envs (make_egress t) (make_queue cap) `prefix_of` stream →
  run_loop envs (make_egress t) (make_queue cap) = Some (st, s', q', ev) →
  conn ∈ connections ev → got `prefix_of` conn → reads calls make_stream got = Some (rs, cs, net) →
  let records := consumer_records rs in
  let stats := gt_s (observe_all tracker_init records) in
  resume_all None records = Some n →
  Forall (λ r, r.1 ≠ Status.kProtocolError) rs ∧
  Forall (λ g, real g → stream !! Z.to_nat (f_seq g) = Some g ∧ is_Some (origin (fan_trace polls ss) g)) records ∧
  (∀ i (s : S), ss !! i = Some s →
     map (set_seq 0) (filter (λ g, real g ∧ origin (fan_trace polls ss) g = Some i) records)
       `sublist_of` map (set_seq 0) (fan_alone i polls s)) ∧
  gs_frames stats + gs_reported_lost stats + gs_absent_frames stats + gs_silent_lost stats
  = n - first_seq records ∧
  (linger_us t = 0 → gs_silent_jumps stats = 0 ∧ gs_silent_lost stats = 0).
Proof.
  intros Hs Hc Hp stream Hb Hj Ht Hcl Hoff Hr Hconn Hgot Hrd records stats Hn.
  destruct (fan_stream_good ss caps polls Hs Hc Hp Hb) as (Hg & Hst & Hstream). fold stream in Hg, Hst, Hstream.
  assert (map (set_seq 0) stream = map (set_seq 0) (concat (map snd (fan_trace polls ss)))) as HL
    by (rewrite Hstream; apply stamp_0).
  pose proof (queue_feed_start cap (Forall_lookup_1 _ _ _ _ Hc Hj)) as Hf.
  destruct (linked_consumer (fan_trace polls ss) stream envs t (make_queue cap) 0 st s' q' ev conn got calls rs cs net)
    as (H1 & H2 & H3 & H4 & H5 & H6); try done.
  fold records in H2, H3, H4, H5, H6. split_and!; try done.
  - eapply Forall_impl; [exact H2|]. intros g Hg' Hreal. specialize (Hg' Hreal).
    split; [|by eapply origin_known]. by apply stamped_of_log.
  - intros i s Hi. rewrite <- (fan_trace_source polls i ss s Hi). apply H3.
  - by apply tracker_adds_up.
  - intros Hl. apply tracker_nothing_silent; [done..|]. apply H6. split; [done|].
    intros m e q lg p. apply QueueFeed.feed_contiguous.
Qed.

(** C2. The ring topology, end to end, for a ring whose publications and reads are atomic
    and sequentially consistent ([BroadcastRing.publish_batch], [BroadcastRing.try_read];
    what the source's memory orders leave of that is [RingWeak.ring_weak_reads]). Under any
    interleaving of the turns of the ingest threads, the records a consumer reads from any
    connection of an egress on the shared ring, cut anywhere, contain no protocol error; a
    frame it gets is the one published at the position that is its number, and what it gets
    of one source is, in order, part of what that source was drained of; and a tracker that
    starts with the connection accounts for every number from the first it sees to the last
    exactly once. Some of these can be silently lost: a lap in the middle of a batch is
    announced by no marker ([Pipeline.ring_lap_inside_batch_is_silent]). *)
Theorem ring_gateway_end_to_end {S A} `{!Source S A, !SourceSpec S A} (ss : list S) capacity r
    (sched : list (nat * RingIngest.PollAnswer A)) tr x
    (envs : list (IterEnv RingFeed.Env)) t st s' f' ev conn got calls rs cs net n :
  Forall source_wf ss → 0 <= capacity <= 2 ^ 63 → make_ring capacity = Some r →
  Forall (turn_ok (S := S)) sched → 64 * Z.of_nat (length sched) < log_bound →
  RingIngest.turns sched (RingIngest.start (RingIngest.make ss r)) = Some (tr, x) →
  let stream := concat (map snd tr) in
  1 <= max_frames t <= kMaxBatch → Forall clocks_ok envs →
  loop_offered envs (make_egress t) (RingFeed.make r) `prefix_of` stream →
  run_loop envs (make_egress t) (RingFeed.make r) = Some (st, s', f', ev) →
  conn ∈ connections ev → got `prefix_of` conn → reads calls make_stream got = Some (rs, cs, net) →
  let records := consumer_records rs in
  let stats := gt_s (observe_all tracker_init records) in
  resume_all None records = Some n →
  Forall (λ r, r.1 ≠ Status.kProtocolError) rs ∧
  Forall (λ g, real g → of_log stream g ∧ is_Some (origin tr g)) records ∧
  (∀ i (s : S), ss !! i = Some s →
     map (set_seq 0) (filter (λ g, real g ∧ origin tr g = Some i) records)
       `sublist_of` map (set_seq 0) (alone (polls_of i sched) true s)) ∧
  gs_frames stats + gs_reported_lost stats + gs_absent_frames stats + gs_silent_lost stats
  = n - first_seq records.
Proof.
  intros Hs Hc Hr Hsch Hb Hturns stream Ht Hcl Hoff Hrun Hconn Hgot Hrd records stats Hn.
  destruct (ring_stream_good ss capacity r sched tr x Hs Hc Hr Hsch Hb Hturns) as [Hg Halone]. fold stream in Hg.
  pose proof (ring_feed_start capacity r Hc Hr) as Hf.
  destruct (linked_consumer tr stream envs t (RingFeed.make r) 0 st s' f' ev conn got calls rs cs net)
    as (H1 & H2 & H3 & H4 & H5 & _); try done.
  fold records in H2, H3, H4, H5. split_and!; try done.
  - eapply Forall_impl; [exact H2|]. intros g Hg' Hreal. split; [auto|]. eapply (origin_known tr stream); auto.
  - intros i s Hi. rewrite <- (Halone i s Hi). apply H3.
  - by apply tracker_adds_up.
Qed.

(** ** Witnesses *)

Definition whole_socket : list (list ReadAnswer) := [replicate 4 (RdSome 100000); replicate 4 (RdSome 100000)].

(** A CAN bus and a synthetic source fill a queue of two; three frames are pushed before
    each pop, so each time the first is lost. *)
Definition fan_stream : list Frame := (FanOut.run demo_polls (FanOut.make demo_sources (map make_queue [2; 4]))).1.

Definition fan_envs : list (IterEnv QueueFeed.Env) :=
  [demo_iter demo_wait [OpPush (take 3 fan_stream)]; demo_iter [] [OpPush (take 3 (drop 3 fan_stream))]].

Lemma fan_demo :
  match run_loop fan_envs (make_egress demo_tuning) (make_queue 2) with
  | Some (_, _, _, ev) =>
      match reads whole_socket make_stream (conn_bytes ev) with
      | Some (rs, _, _) => resume_all None (consumer_records rs) = Some 6 ∧
                           map f_seq (consumer_records rs) = [1; 2; 1; 3; 4; 5]
      | None => False
      end
  | None => False
  end.
Proof. vm_compute. by split_and!. Qed.

Lemma demo_polls_ok : Forall (poll_ok (S := Can.t + Synth.t)) demo_polls.
Proof.
  repeat first [apply List.Forall_nil | apply List.Forall_cons | exact I | apply demo_answer_ok].
Qed.

Lemma queue_gateway_end_to_end_witness :
  ∃ st s' q' ev rs cs net,
    run_loop fan_envs (make_egress demo_tuning) (make_queue 2) = Some (st, s', q', ev) ∧
    reads whole_socket make_stream (conn_bytes ev) = Some (rs, cs, net) ∧
    Forall (λ g, real g → fan_stream !! Z.to_nat (f_seq g) = Some g) (consumer_records rs) ∧
    gs_silent_lost (gt_s (observe_all tracker_init (consumer_records rs))) = 0.
Proof.
  pose proof fan_demo as Hd.
  pose proof (λ st s' f' ev, queue_gateway_end_to_end demo_sources [2; 4] demo_polls 0%nat 2 fan_envs demo_tuning
    st s' f' ev (conn_bytes ev) (conn_bytes ev) whole_socket) as H.
  destruct (run_loop fan_envs (make_egress demo_tuning) (make_queue 2)) as [[[[st s'] f'] ev]|]; [|contradiction].
  specialize (H st s' f' ev).
  destruct (reads whole_socket make_stream (conn_bytes ev)) as [[[rs cs] net]|] eqn:Er; [|contradiction].
  exists st, s', f', ev, rs, cs, net. split; [exact eq_refl|]. split; [exact Er|].
  destruct (H rs cs net 6) as (_ & H2 & _ & _ & H5).
  - exact demo_sources_wf.
  - repeat constructor; unfold capacity_limit; lia.
  - exact demo_polls_ok.
  - vm_compute. reflexivity.
  - reflexivity.
  - exact demo_tuning_ok.
  - repeat constructor; vm_compute; congruence.
  - exists (drop 6 fan_stream). vm_compute. reflexivity.
  - reflexivity.
  - exact (current_connection ev).
  - reflexivity.
  - reflexivity.
  - exact (proj1 Hd).
  - split; [|exact (proj2 (H5 eq_refl))]. eapply Forall_impl; [exact H2|]. intros g Hg Hr. exact (proj1 (Hg Hr)).
Defined.

(** The same sources on a ring of two cells; the reader is lapped. *)
Definition ring_trace : Trace :=
  match RingIngest.turns demo_sched (RingIngest.start (RingIngest.make demo_sources demo_ring)) with
  | Some (tr, _) => tr
  | None => []
  end.

Definition ring_envs : list (IterEnv RingFeed.Env) :=
  let stream := concat (map snd ring_trace) in
  [ring_iter demo_wait (RingFeed.mkEnv [[RingFeed.ROpPublish (take 3 stream)]] [] []) fast_socket;
   ring_iter [] (RingFeed.mkEnv [[RingFeed.ROpPublish (take 2 (drop 3 stream))];
                                 [RingFeed.ROpPublish (take 6 (drop 5 stream))]] [] []) fast_socket].

Lemma ring_demo :
  match run_loop ring_envs (make_egress demo_tuning) (RingFeed.make demo_ring) with
  | Some (_, _, _, ev) =>
      match reads whole_socket make_stream (conn_bytes ev) with
      | Some (rs, _, _) => resume_all None (consumer_records rs) = Some 11 ∧
                           map f_seq (consumer_records rs) = [1; 2; 1; 3; 9; 10]
      | None => False
      end
  | None => False
  end.
Proof. vm_compute. by split_and!. Qed.

Lemma ring_gateway_end_to_end_witness :
  ∃ st s' f' ev rs cs net,
    run_loop ring_envs (make_egress demo_tuning) (RingFeed.make demo_ring) = Some (st, s', f', ev) ∧
    reads whole_socket make_stream (conn_bytes ev) = Some (rs, cs, net) ∧
    map (set_seq 0) (filter (λ g, real g ∧ origin ring_trace g = Some 1%nat) (consumer_records rs))
      `sublist_of` map (set_seq 0) (alone (polls_of 1 demo_sched) true (inr (Synth.make demo_config) : Can.t + Synth.t)).
Proof.
  pose proof ring_demo as Hd.
  pose proof (λ tr x st s' f' ev, ring_gateway_end_to_end demo_sources 2 demo_ring demo_sched tr x ring_envs demo_tuning
    st s' f' ev (conn_bytes ev) (conn_bytes ev) whole_socket) as H.
  destruct (run_loop ring_envs (make_egress demo_tuning) (RingFeed.make demo_ring)) as [[[[st s'] f'] ev]|];
    [|contradiction].
  destruct (RingIngest.turns demo_sched (RingIngest.start (RingIngest.make demo_sources demo_ring)))
    as [[tr x]|] eqn:Et; [|exfalso; vm_compute in Et; discriminate Et].
  specialize (H tr x st s' f' ev).
  destruct (reads whole_socket make_stream (conn_bytes ev)) as [[[rs cs] net]|] eqn:Er; [|contradiction].
  exists st, s', f', ev, rs, cs, net. split; [exact eq_refl|]. split; [exact Er|].
  assert (ring_trace = tr) as Etr by (unfold ring_trace; rewrite Et; reflexivity).
  destruct (H rs cs net 11) as (_ & _ & H3 & _).
  - exact demo_sources_wf.
  - lia.
  - reflexivity.
  - repeat first [apply List.Forall_nil | apply List.Forall_cons | exact I | apply demo_answer_ok].
  - vm_compute. reflexivity.
  - reflexivity.
  - exact demo_tuning_ok.
  - repeat constructor; vm_compute; congruence.
  - rewrite <- Etr. exists []. vm_compute. reflexivity.
  - reflexivity.
  - exact (current_connection ev).
  - reflexivity.
  - reflexivity.
  - exact (proj1 Hd).
  - rewrite Etr. exact (H3 1%nat _ eq_refl).
Defined.
