(* ===== verification/Cadence.v ===== *)
(** * Cadence: per-id inter-arrival checking (src/src/cadence.hpp)

    [observe] and [reset_all] are the operations of [CadenceMonitor]. [scan] is the
    reference: for one CAN id, the list of intervals between its consecutive frames, each
    marked measurable or not; the calibration samples, the expectation and every counter
    of the monitor are functions of that list. The factor is an IEEE double
    ([spec_float]); a product that does not fit the 64-bit cast is undefined in the
    source and [None] here. *)

From stdpp Require Import sorting gmap.
From Stdlib Require Import SpecFloat.
From S2P Require Import Prelude Frame Wire Doubles Samples.

(** ** The monitor *)

Record IdStats := mkIdStats {
  is_frames : Z;
  is_expected_ns : Z;
  is_anomalies : Z;
  is_suppressed : Z;
  is_worst_ns : Z
}.

Record State := mkState {
  last_ns : Z;
  have_last : bool;
  resync : bool;
  samples : list Z;
  id_stats : IdStats
}.

Definition state_zero : State := mkState 0 false false [] (mkIdStats 0 0 0 0 0).

Record CadenceMonitor := mkMonitor {
  calibrate_ : Z;
  factor_ : spec_float;
  gap_aware_ : bool;
  ids_ : gmap Z State;
  m_frames_ : Z;
  m_anomalies_ : Z;
  m_suppressed_ : Z;
  m_markers_ : Z;
  m_reported_lost_ : Z
}.

Definition double_lt (a b : spec_float) : bool := SFltb a b.

Definition make_monitor (calibration_samples : Z) (factor : spec_float) (gap_aware : bool)
  : CadenceMonitor :=
  mkMonitor (if calibration_samples <? 2 then 2 else calibration_samples)
    (if double_lt factor (double_of 1) then double_of 1 else factor)
    gap_aware ∅ 0 0 0 0 0.

(** [static_cast<std::uint64_t>(x)]: truncation, undefined outside the range. *)
Definition double_trunc (x : spec_float) : option Z :=
  match x with
  | S754_zero _ => Some 0
  | S754_finite s m e =>
      let z := if 0 <=? e then Z.pos m * 2 ^ e else Z.pos m / 2 ^ (- e) in
      let z := if s then - z else z in
      if (0 <=? z) && (z <? 2 ^ 64) then Some z else None
  | _ => None
  end.

Definition limit (factor : spec_float) (expected : Z) : option Z :=
  double_trunc (double_mul factor (double_of expected)).

(** [v[v.size() / 2]] of the sorted copy. *)
Definition median (samples : list Z) : Z :=
  let v := merge_sort Z.le samples in nth (length v / 2) v 0.

(** What the checks below [have_last] decide for one frame. *)
Inductive Verdict := VFirst | VSuppressed | VSampled | VOnTime | VAnomaly.

#[export] Instance Verdict_eq_dec : EqDecision Verdict.
Proof. solve_decision. Defined.

(** The per-id part of [observe], on the state [ids_[f.can_id]]. *)
Definition observe_id (cal : Z) (factor : spec_float) (now : Z) (s : State) : option (Verdict * State) :=
  let st := id_stats s in
  let st := mkIdStats (u64 (is_frames st + 1)) (is_expected_ns st) (is_anomalies st)
              (is_suppressed st) (is_worst_ns st) in
  if negb (have_last s) then Some (VFirst, mkState now true (resync s) (samples s) st)
  else
    let dt := if now >? last_ns s then now - last_ns s else 0 in
    if resync s then
      Some (VSuppressed,
            mkState now true false (samples s)
              (mkIdStats (is_frames st) (is_expected_ns st) (is_anomalies st)
                 (u64 (is_suppressed st + 1)) (is_worst_ns st)))
    else if Z.of_nat (length (samples s)) <? cal then
      let v := samples s ++ [dt] in
      let st := if Z.of_nat (length v) =? cal
                then mkIdStats (is_frames st) (median v) (is_anomalies st) (is_suppressed st)
                       (is_worst_ns st)
                else st in
      Some (VSampled, mkState now true false v st)
    else
      match limit factor (is_expected_ns st) with
      | None => None
      | Some l =>
          if dt >? l then
            Some (VAnomaly,
                  mkState now true false (samples s)
                    (mkIdStats (is_frames st) (is_expected_ns st) (u64 (is_anomalies st + 1))
                       (is_suppressed st) (Z.max (is_worst_ns st) dt)))
          else Some (VOnTime, mkState now true false (samples s) st)
      end.

Definition set_resync (s : State) : State :=
  mkState (last_ns s) (have_last s) true (samples s) (id_stats s).

Definition mark_all (ids : gmap Z State) : gmap Z State := set_resync <$> ids.

Definition verdict_count (v w : Verdict) : Z := if decide (v = w) then 1 else 0.

Definition observe (f : Frame) (m : CadenceMonitor) : option (bool * CadenceMonitor) :=
  if is_gap f then
    Some (false,
          mkMonitor (calibrate_ m) (factor_ m) (gap_aware_ m)
            (if gap_aware_ m then mark_all (ids_ m) else ids_ m)
            (m_frames_ m) (m_anomalies_ m) (m_suppressed_ m) (u64 (m_markers_ m + 1))
            (u64 (m_reported_lost_ m + gap_count f)))
  else
    match observe_id (calibrate_ m) (factor_ m) (f_t_ingest_ns f)
            (default state_zero (ids_ m !! f_can_id f)) with
    | None => None
    | Some (v, s) =>
        Some (bool_decide (v = VAnomaly),
              mkMonitor (calibrate_ m) (factor_ m) (gap_aware_ m) (<[f_can_id f := s]> (ids_ m))
                (u64 (m_frames_ m + 1)) (u64 (m_anomalies_ m + verdict_count v VAnomaly))
                (u64 (m_suppressed_ m + verdict_count v VSuppressed))
                (m_markers_ m) (m_reported_lost_ m))
    end.

Definition reset_all (m : CadenceMonitor) : CadenceMonitor :=
  mkMonitor (calibrate_ m) (factor_ m) (gap_aware_ m) (mark_all (ids_ m)) (m_frames_ m)
    (m_anomalies_ m) (m_suppressed_ m) (m_markers_ m) (m_reported_lost_ m).

Definition per_id (m : CadenceMonitor) : gmap Z IdStats := id_stats <$> ids_ m.

(** ** Histories *)

Inductive CEvent := CRec (f : Frame) | CReset.

Definition cadence_step (m : CadenceMonitor) (e : CEvent) : option (bool * CadenceMonitor) :=
  match e with CRec f => observe f m | CReset => Some (false, reset_all m) end.

(** The monitor after a history, with the answers of the calls. *)
Fixpoint cadence_run (h : list CEvent) (m : CadenceMonitor) : option (list bool * CadenceMonitor) :=
  match h with
  | [] => Some ([], m)
  | e :: h =>
      match cadence_step m e with
      | None => None
      | Some (b, m) =>
          match cadence_run h m with
          | None => None
          | Some (bs, m) => Some (b :: bs, m)
          end
      end
  end.

(** ** The reference *)

(** An interval between two consecutive frames of one id, and whether nothing between
    them makes it unmeasurable. *)
Record Interval := mkInterval { iv_dt : Z; iv_clean : bool }.

Record Scan := mkScan { sc_last : option Z; sc_clean : bool; sc_ivs : list Interval }.

(** Does this event make every interval around it unmeasurable? *)
Definition breaks (aware : bool) (e : CEvent) : bool :=
  match e with CRec f => is_gap f && aware | CReset => true end.

(** The ingest time of a frame of this id. *)
Definition frame_of_id (id : Z) (e : CEvent) : option Z :=
  match e with
  | CRec f => if negb (is_gap f) && (f_can_id f =? id) then Some (f_t_ingest_ns f) else None
  | CReset => None
  end.

Definition scan_step (aware : bool) (id : Z) (s : Scan) (e : CEvent) : Scan :=
  match frame_of_id id e with
  | Some now =>
      mkScan (Some now) true
        match sc_last s with
        | Some l => sc_ivs s ++ [mkInterval (Z.max 0 (now - l)) (sc_clean s)]
        | None => sc_ivs s
        end
  | None => mkScan (sc_last s) (sc_clean s && negb (breaks aware e)) (sc_ivs s)
  end.

Definition scan (aware : bool) (id : Z) (h : list CEvent) : Scan :=
  fold_left (scan_step aware id) h (mkScan None true []).

(** The measurable intervals, those calibration takes, those that are checked. *)
Definition clean_dts (ivs : list Interval) : list Z := map iv_dt (filter (λ i, iv_clean i = true) ivs).
Definition calibration (cal : Z) (ivs : list Interval) : list Z := take (Z.to_nat cal) (clean_dts ivs).
Definition checked (cal : Z) (ivs : list Interval) : list Z := drop (Z.to_nat cal) (clean_dts ivs).

Definition expectation (cal : Z) (ivs : list Interval) : Z :=
  if Z.of_nat (length (clean_dts ivs)) <? cal then 0 else median (calibration cal ivs).

Definition is_late (factor : spec_float) (expected dt : Z) : bool :=
  match limit factor expected with Some l => l <? dt | None => false end.

Definition late (cal : Z) (factor : spec_float) (ivs : list Interval) : list Z :=
  filter (λ dt, is_late factor (expectation cal ivs) dt = true) (checked cal ivs).

Definition unmeasured (ivs : list Interval) : list Interval := filter (λ i, iv_clean i = false) ivs.

(** The state of an id as a function of its intervals. *)
Definition ref_state (cal : Z) (factor : spec_float) (s : Scan) : option State :=
  let ivs := sc_ivs s in
  match sc_last s with
  | None => None
  | Some l =>
      Some (mkState l true (negb (sc_clean s)) (calibration cal ivs)
              (mkIdStats (u64 (Z.of_nat (length ivs) + 1)) (expectation cal ivs)
                 (u64 (Z.of_nat (length (late cal factor ivs))))
                 (u64 (Z.of_nat (length (unmeasured ivs))))
                 (fold_left Z.max (late cal factor ivs) 0)))
  end.

Definition ref_verdict (cal : Z) (factor : spec_float) (s : Scan) (now : Z) : Verdict :=
  match sc_last s with
  | None => VFirst
  | Some l =>
      if negb (sc_clean s) then VSuppressed
      else if Z.of_nat (length (clean_dts (sc_ivs s))) <? cal then VSampled
      else if is_late factor (expectation cal (sc_ivs s)) (Z.max 0 (now - l)) then VAnomaly
      else VOnTime
  end.

(** *** One frame of an id *)

Section PerId.
Context (cal : Z) (factor : spec_float).
Implicit Types (ivs : list Interval) (s : Scan).

Lemma clean_dts_snoc ivs i :
  clean_dts (ivs ++ [i]) = clean_dts ivs ++ (if iv_clean i then [iv_dt i] else []).
Proof.
  unfold clean_dts. rewrite filter_app, map_app. f_equal. rewrite filter_cons.
  destruct (iv_clean i); [by rewrite decide_True|by rewrite decide_False].
Qed.

Lemma clean_dts_app ivs ivs' : ∃ more, clean_dts (ivs ++ ivs') = clean_dts ivs ++ more.
Proof. unfold clean_dts. rewrite filter_app, map_app. by eexists. Qed.

(** Once calibrated, later intervals change neither the samples nor the expectation. *)
Lemma calibrated_stable ivs ivs' :
  cal <= Z.of_nat (length (clean_dts ivs)) →
  calibration cal (ivs ++ ivs') = calibration cal ivs ∧
  expectation cal (ivs ++ ivs') = expectation cal ivs ∧
  cal <= Z.of_nat (length (clean_dts (ivs ++ ivs'))).
Proof.
  intros H. destruct (clean_dts_app ivs ivs') as [more E].
  assert (calibration cal (ivs ++ ivs') = calibration cal ivs) as Ec.
  { unfold calibration. rewrite E. apply take_app_le. lia. }
  assert (cal <= Z.of_nat (length (clean_dts (ivs ++ ivs')))) by (rewrite E, length_app; lia).
  split; [done|]. split; [|done]. unfold expectation. rewrite Ec.
  destruct (Z.ltb_spec (Z.of_nat (length (clean_dts (ivs ++ ivs')))) cal); [lia|].
  destruct (Z.ltb_spec (Z.of_nat (length (clean_dts ivs))) cal); [lia|done].
Qed.

Lemma uncalibrated ivs :
  Z.of_nat (length (clean_dts ivs)) < cal →
  calibration cal ivs = clean_dts ivs ∧ expectation cal ivs = 0 ∧ late cal factor ivs = [].
Proof.
  intros H. unfold calibration, expectation, late, checked. rewrite take_ge, drop_ge by lia.
  by destruct (Z.ltb_spec (Z.of_nat (length (clean_dts ivs))) cal); [|lia].
Qed.

Lemma unmeasured_snoc ivs i :
  unmeasured (ivs ++ [i]) = unmeasured ivs ++ (if iv_clean i then [] else [i]).
Proof.
  unfold unmeasured. rewrite filter_app. f_equal. rewrite filter_cons.
  destruct (iv_clean i); [by rewrite decide_False|by rewrite decide_True].
Qed.

Lemma u64_count {A} (l k : list A) :
  u64 (u64 (Z.of_nat (length l)) + Z.of_nat (length k)) = u64 (Z.of_nat (length (l ++ k))).
Proof. rewrite u64_add_l, length_app, Nat2Z.inj_add. done. Qed.

Lemma dt_max now l : (if now >? l then now - l else 0) = Z.max 0 (now - l).
Proof. rewrite Z.gtb_ltb. destruct (Z.ltb_spec l now); lia. Qed.

Lemma same_calibration ivs i :
  iv_clean i = false →
  calibration cal (ivs ++ [i]) = calibration cal ivs ∧
  expectation cal (ivs ++ [i]) = expectation cal ivs ∧
  late cal factor (ivs ++ [i]) = late cal factor ivs.
Proof.
  intros H. unfold late, checked, expectation, calibration. by rewrite clean_dts_snoc, H, app_nil_r.
Qed.

Lemma late_snoc ivs i :
  iv_clean i = true → cal <= Z.of_nat (length (clean_dts ivs)) →
  late cal factor (ivs ++ [i])
  = late cal factor ivs ++ (if is_late factor (expectation cal ivs) (iv_dt i) then [iv_dt i] else []).
Proof.
  intros Hi Hc. destruct (calibrated_stable ivs [i] Hc) as (_ & He & _). unfold late. rewrite He.
  assert (checked cal (ivs ++ [i]) = checked cal ivs ++ [iv_dt i]) as ->.
  { unfold checked. rewrite clean_dts_snoc, Hi, drop_app_le by lia. done. }
  rewrite filter_app. f_equal. rewrite filter_cons.
  destruct (is_late _ _ _); [by rewrite decide_True|by rewrite decide_False].
Qed.

(** The per-id code computes the reference. *)
Lemma observe_id_ref s now :
  0 < cal → (sc_last s = None → sc_ivs s = []) →
  (cal <= Z.of_nat (length (clean_dts (sc_ivs s))) →
   is_Some (limit factor (expectation cal (sc_ivs s)))) →
  ∃ s' : State, ref_state cal factor (mkScan (Some now) true
          match sc_last s with
          | Some l => sc_ivs s ++ [mkInterval (Z.max 0 (now - l)) (sc_clean s)]
          | None => sc_ivs s
          end) = Some s' ∧
    observe_id cal factor now (default state_zero (ref_state cal factor s))
    = Some (ref_verdict cal factor s now, s').
Proof.
  intros Hc Hn Hl. unfold ref_state, ref_verdict. eexists. cbn [sc_last sc_clean sc_ivs]. split; [done|].
  destruct (sc_last s) as [l|] eqn:El.
  2:{ rewrite (Hn eq_refl). destruct (uncalibrated []) as (E1 & E2 & E3); [simpl; lia|].
      rewrite E1, E2, E3. done. }
  set (ivs := sc_ivs s) in *. set (i := mkInterval (Z.max 0 (now - l)) (sc_clean s)).
  cbn [from_option id id_stats is_frames is_expected_ns is_anomalies is_suppressed is_worst_ns].
  unfold observe_id. cbn [have_last last_ns resync samples id_stats is_frames is_expected_ns
    is_anomalies is_suppressed is_worst_ns negb]. rewrite dt_max.
  replace (u64 (u64 (Z.of_nat (length ivs) + 1) + 1)) with (u64 (Z.of_nat (length (ivs ++ [i])) + 1))
    by (rewrite u64_add_l, length_app; f_equal; simpl; lia).
  destruct (sc_clean s) eqn:Ec; cbn [negb].
  2:{ destruct (same_calibration ivs i eq_refl) as (-> & -> & ->). rewrite unmeasured_snoc. simpl iv_clean. cbv iota.
      by rewrite <- u64_count. }
  rewrite unmeasured_snoc. simpl iv_clean. cbv iota. rewrite app_nil_r.
  destruct (Z.ltb_spec (Z.of_nat (length (clean_dts ivs))) cal) as [Hlt|Hge].
  - destruct (uncalibrated ivs Hlt) as (E1 & E2 & E3). rewrite E1, E2, E3.
    destruct (Z.ltb_spec (Z.of_nat (length (clean_dts ivs))) cal); [|lia].
    assert (calibration cal (ivs ++ [i]) = clean_dts ivs ++ [Z.max 0 (now - l)] ∧
            late cal factor (ivs ++ [i]) = []) as [-> ->].
    { unfold calibration, late, checked. rewrite clean_dts_snoc. simpl iv_clean. cbv iota. simpl iv_dt.
      rewrite take_ge, drop_ge by (rewrite length_app; simpl; lia). done. }
    unfold expectation, calibration. rewrite clean_dts_snoc. simpl iv_clean. cbv iota. simpl iv_dt.
    destruct (Z.eqb_spec (Z.of_nat (length (clean_dts ivs ++ [Z.max 0 (now - l)]))) cal) as [He|He].
    + rewrite He, Z.ltb_irrefl, take_ge by lia. done.
    + destruct (Z.ltb_spec (Z.of_nat (length (clean_dts ivs ++ [Z.max 0 (now - l)]))) cal); [done|].
      rewrite length_app in *. simpl in *. lia.
  - destruct (calibrated_stable ivs [i] Hge) as (-> & -> & _). rewrite late_snoc by done.
    simpl iv_dt. unfold is_late. destruct (Hl Hge) as [lim ->].
    replace (Z.of_nat (length (calibration cal ivs)) <? cal) with false.
    2:{ symmetry. apply Z.ltb_ge. unfold calibration. rewrite length_take. lia. }
    rewrite Z.gtb_ltb. destruct (lim <? Z.max 0 (now - l)).
    + rewrite <- u64_count, fold_left_app. done.
    + by rewrite app_nil_r.
Qed.
End PerId.

(** *** Whole histories *)

Section History.
Context (aware : bool) (cal : Z) (factor : spec_float).
Implicit Types (past h : list CEvent) (m : CadenceMonitor).

(** The reference verdict on each event, [None] for markers and resets. *)
Definition verdict_on past (e : CEvent) : option Verdict :=
  match e with
  | CRec f => if is_gap f then None
              else Some (ref_verdict cal factor (scan aware (f_can_id f) past) (f_t_ingest_ns f))
  | CReset => None
  end.

Fixpoint verdicts past h : list (option Verdict) :=
  match h with
  | [] => []
  | e :: h => verdict_on past e :: verdicts (past ++ [e]) h
  end.

Definition count_of (v : option Verdict) (vs : list (option Verdict)) : Z :=
  Z.of_nat (length (filter (λ w, w = v) vs)).

Definition marker_counts h : list Z :=
  omap (λ e, match e with CRec f => if is_gap f then Some (gap_count f) else None | CReset => None end) h.

Definition sum_Z (l : list Z) : Z := fold_right Z.add 0 l.

(** The product of factor and expectation fits the cast, for every calibrated id. *)
Definition limits_defined h : Prop :=
  Forall (λ e, match e with
               | CRec f =>
                   let ivs := sc_ivs (scan aware (f_can_id f) h) in
                   cal <= Z.of_nat (length (clean_dts ivs)) →
                   is_Some (limit factor (expectation cal ivs))
               | CReset => True
               end) h.

#[global] Instance limits_defined_dec h : Decision (limits_defined h).
Proof. apply Forall_dec. intros []; cbv zeta; [apply impl_dec; apply _|apply _]. Defined.

Record monitor_ok m past (vs : list (option Verdict)) : Prop := {
  mo_cal : calibrate_ m = cal;
  mo_factor : factor_ m = factor;
  mo_aware : gap_aware_ m = aware;
  mo_ids id : ids_ m !! id = ref_state cal factor (scan aware id past);
  mo_frames : m_frames_ m = u64 (Z.of_nat (length (filter is_Some vs)));
  mo_anomalies : m_anomalies_ m = u64 (count_of (Some VAnomaly) vs);
  mo_suppressed : m_suppressed_ m = u64 (count_of (Some VSuppressed) vs);
  mo_markers : m_markers_ m = u64 (Z.of_nat (length (marker_counts past)));
  mo_lost : m_reported_lost_ m = u64 (sum_Z (marker_counts past))
}.

Lemma scan_snoc id past e : scan aware id (past ++ [e]) = scan_step aware id (scan aware id past) e.
Proof. unfold scan. by rewrite fold_left_app. Qed.

Lemma scan_step_grows id s e : ∃ more, sc_ivs (scan_step aware id s e) = sc_ivs s ++ more.
Proof.
  unfold scan_step. destruct (frame_of_id id e); simpl; [destruct (sc_last s)|];
    first [by eexists | by exists []; rewrite app_nil_r].
Qed.

Lemma scan_grows id past h : ∃ more, sc_ivs (scan aware id (past ++ h)) = sc_ivs (scan aware id past) ++ more.
Proof.
  induction h as [|e h IH] using rev_ind; [exists []; by rewrite !app_nil_r|].
  destruct IH as [more IH]. rewrite app_assoc, scan_snoc.
  destruct (scan_step_grows id (scan aware id (past ++ h)) e) as [x ->].
  rewrite IH, <- app_assoc. by eexists.
Qed.

Lemma scan_no_last id past : sc_last (scan aware id past) = None → sc_ivs (scan aware id past) = [].
Proof.
  induction past as [|e past IH] using rev_ind; [done|]. rewrite scan_snoc. unfold scan_step.
  destruct (frame_of_id id e); [done|]. exact IH.
Qed.

(** A marker or a reset leaves every id with the same intervals. *)
Lemma ref_state_break id past e :
  frame_of_id id e = None →
  ref_state cal factor (scan aware id (past ++ [e]))
  = (if breaks aware e then set_resync else λ s, s) <$> ref_state cal factor (scan aware id past).
Proof.
  intros H. rewrite scan_snoc. unfold scan_step. rewrite H. unfold ref_state. simpl.
  destruct (sc_last (scan aware id past)); [|by destruct (breaks aware e)]. simpl.
  destruct (breaks aware e); simpl; by rewrite ?andb_false_r, ?andb_true_r.
Qed.

Lemma count_of_snoc v vs w :
  u64 (u64 (count_of v vs) + (if decide (w = v) then 1 else 0)) = u64 (count_of v (vs ++ [w])).
Proof.
  unfold count_of. rewrite u64_add_l, filter_app, length_app, Nat2Z.inj_add. do 2 f_equal.
  rewrite filter_cons. by destruct (decide (w = v)).
Qed.

Lemma sum_Z_app l k : sum_Z (l ++ k) = sum_Z l + sum_Z k.
Proof. unfold sum_Z. induction l as [|x l IH]; simpl; lia. Qed.

Lemma marker_counts_app h h' : marker_counts (h ++ h') = marker_counts h ++ marker_counts h'.
Proof. apply omap_app. Qed.

Lemma frames_snoc (vs : list (option Verdict)) w :
  u64 (u64 (Z.of_nat (length (filter is_Some vs))) + (if decide (is_Some w) then 1 else 0))
  = u64 (Z.of_nat (length (filter is_Some (vs ++ [w])))).
Proof.
  rewrite u64_add_l, filter_app, length_app, Nat2Z.inj_add. do 2 f_equal.
  rewrite filter_cons. by destruct (decide (is_Some w)).
Qed.

(** Markers and resets. *)
Lemma break_step m past vs e :
  verdict_on past e = None → monitor_ok m past vs →
  ∃ m', cadence_step m e = Some (false, m') ∧ monitor_ok m' (past ++ [e]) (vs ++ [None]).
Proof.
  intros Hv [H1 H2 H3 H4 H5 H6 H7 H8 H9].
  assert (∀ id, frame_of_id id e = None) as Hf.
  { intros id. destruct e as [f|]; [|done]. simpl in *. by destruct (is_gap f). }
  assert (∀ n, u64 (n + 0) = u64 n) as Hz by (intros n; by rewrite Z.add_0_r).
  pose proof (count_of_snoc (Some VAnomaly) vs None) as C1. rewrite Hz, u64_u64 in C1.
  pose proof (count_of_snoc (Some VSuppressed) vs None) as C2. rewrite Hz, u64_u64 in C2.
  pose proof (frames_snoc vs None) as C3. rewrite decide_False, Hz, u64_u64 in C3 by (by intros []).
  destruct e as [f|]; simpl in Hv; cbn [cadence_step].
  - unfold observe. destruct (is_gap f) eqn:Eg; [|done]. eexists. split; [done|].
    constructor; simpl; try done; try congruence.
    + intros id. rewrite (ref_state_break id past (CRec f)) by done. simpl. rewrite Eg, <- H4, H3. simpl.
      unfold mark_all. destruct aware; [by rewrite lookup_fmap|]. by destruct (ids_ m !! id).
    + rewrite marker_counts_app, H8, u64_add_l, length_app, Nat2Z.inj_add. simpl. by rewrite Eg.
    + rewrite marker_counts_app, sum_Z_app, H9, u64_add_l. simpl. rewrite Eg. simpl. f_equal. lia.
  - eexists. split; [done|]. constructor; simpl; try done; try congruence.
    + intros id. rewrite (ref_state_break id past CReset) by done. rewrite <- H4. unfold mark_all. by rewrite lookup_fmap.
    + by rewrite marker_counts_app, app_nil_r.
    + by rewrite marker_counts_app, app_nil_r.
Qed.

Lemma frame_step m past vs f v :
  0 < cal → verdict_on past (CRec f) = Some v → monitor_ok m past vs →
  (let ivs := sc_ivs (scan aware (f_can_id f) past) in
   cal <= Z.of_nat (length (clean_dts ivs)) → is_Some (limit factor (expectation cal ivs))) →
  ∃ m', cadence_step m (CRec f) = Some (bool_decide (v = VAnomaly), m') ∧
        monitor_ok m' (past ++ [CRec f]) (vs ++ [Some v]).
Proof.
  intros Hc Hv [H1 H2 H3 H4 H5 H6 H7 H8 H9] Hl. simpl in Hv. destruct (is_gap f) eqn:Eg; [done|].
  injection Hv as Hv. cbn [cadence_step]. unfold observe. rewrite Eg, H1, H2, H4.
  destruct (observe_id_ref cal factor (scan aware (f_can_id f) past) (f_t_ingest_ns f) Hc
              (scan_no_last _ _) Hl) as (s' & Hs' & ->).
  rewrite Hv. eexists. split; [done|]. constructor; simpl; try done.
  - intros id. rewrite scan_snoc. unfold scan_step. simpl. rewrite Eg. simpl.
    destruct (Z.eqb_spec (f_can_id f) id) as [<-|Hne].
    + by rewrite lookup_insert_eq, Hs'.
    + rewrite lookup_insert_ne, H4 by done. by rewrite andb_true_r; destruct (scan aware id past).
  - rewrite <- frames_snoc, H5. by rewrite decide_True by done.
  - rewrite <- count_of_snoc, H6. unfold verdict_count. do 2 f_equal.
    destruct (decide (v = VAnomaly)), (decide (Some v = Some VAnomaly)); congruence.
  - rewrite <- count_of_snoc, H7. unfold verdict_count. do 2 f_equal.
    destruct (decide (v = VSuppressed)), (decide (Some v = Some VSuppressed)); congruence.
  - rewrite marker_counts_app. simpl. by rewrite Eg, app_nil_r.
  - rewrite marker_counts_app. simpl. by rewrite Eg, app_nil_r.
Qed.

Lemma run_ref h past m vs :
  0 < cal → monitor_ok m past vs → limits_defined (past ++ h) →
  ∃ m', cadence_run h m = Some (map (λ v, bool_decide (v = Some VAnomaly)) (verdicts past h), m') ∧
        monitor_ok m' (past ++ h) (vs ++ verdicts past h).
Proof.
  intros Hc. revert past m vs. induction h as [|e h IH]; intros past m vs Hm Hd.
  { exists m. by rewrite !app_nil_r. }
  cbn [cadence_run verdicts].
  assert (∃ m1, cadence_step m e = Some (bool_decide (verdict_on past e = Some VAnomaly), m1) ∧
                monitor_ok m1 (past ++ [e]) (vs ++ [verdict_on past e])) as (m1 & -> & Hm1).
  { destruct (verdict_on past e) as [v|] eqn:Ev; [|by apply break_step].
    destruct e as [f|]; [|done]. destruct (frame_step m past vs f v Hc Ev Hm) as (m1 & E & H).
    - intros ivs Hge. unfold limits_defined in Hd. apply Forall_app in Hd as [_ Hd].
      apply Forall_cons in Hd as [Hd _]. cbv zeta in Hd.
      destruct (scan_grows (f_can_id f) past (CRec f :: h)) as [more Em]. rewrite Em in Hd.
      fold ivs in Hd. destruct (calibrated_stable cal ivs more Hge) as (_ & E & Hge').
      rewrite E in Hd. exact (Hd Hge').
    - exists m1. split; [|done]. rewrite E. do 2 f_equal. apply bool_decide_ext. naive_solver. }
  destruct (IH (past ++ [e]) m1 (vs ++ [verdict_on past e]) Hm1) as (m2 & -> & Hm2);
    [by rewrite <- app_assoc|].
  exists m2. split; [done|]. by rewrite <- !app_assoc in Hm2.
Qed.

(** The last frame of an id, when nothing since makes its interval unmeasurable. *)
Lemma scan_clean_last id past l :
  sc_last (scan aware id past) = Some l → sc_clean (scan aware id past) = true →
  ∃ h1 g h2, past = h1 ++ CRec g :: h2 ∧ is_gap g = false ∧ f_can_id g = id ∧ f_t_ingest_ns g = l ∧
    Forall (λ e, breaks aware e = false ∧ frame_of_id id e = None) h2.
Proof.
  induction past as [|e past IH] using rev_ind; [done|]. rewrite scan_snoc. unfold scan_step.
  destruct (frame_of_id id e) as [now|] eqn:Ef; simpl; intros Hl Hc.
  - destruct e as [f|]; [|done]. simpl in Ef. destruct (is_gap f) eqn:Eg; [done|]. simpl in Ef.
    destruct (Z.eqb_spec (f_can_id f) id); [|done]. exists past, f, []. split_and!; try done. congruence.
  - apply andb_true_iff in Hc as [Hc Hb]. apply negb_true_iff in Hb.
    destruct (IH Hl Hc) as (h1 & g & h2 & -> & A1 & A2 & A3 & A4).
    exists h1, g, (h2 ++ [e]). rewrite <- app_assoc. split_and!; try done.
    apply Forall_app. split; [done|]. by constructor.
Qed.
End History.

Lemma verdicts_lookup aware cal factor past h n v :
  verdicts aware cal factor past h !! n = Some v →
  ∃ e, h !! n = Some e ∧ v = verdict_on aware cal factor (past ++ take n h) e.
Proof.
  revert past n. induction h as [|e h IH]; intros past [|n] H; simpl in *; try done.
  - injection H as <-. exists e. by rewrite app_nil_r.
  - destruct (IH _ _ H) as (e' & E & ->). exists e'. by rewrite <- app_assoc.
Qed.

Lemma make_monitor_ok n factor aware :
  let m := make_monitor n factor aware in monitor_ok aware (calibrate_ m) (factor_ m) m [] [].
Proof. by constructor. Qed.

Lemma make_monitor_cal n factor aware : 0 < calibrate_ (make_monitor n factor aware).
Proof. simpl. destruct (Z.ltb_spec n 2); lia. Qed.

(** ** Properties *)

(** C19. The monitor computes the reference on every history of records and reconnects:
    for each CAN id its samples are the first measurable intervals of that id, its
    expectation their median once there are enough, its anomalies and worst interval
    those of the later measurable intervals that exceed the factor, its suppressed count
    the unmeasurable intervals; a call answers true exactly on an anomaly; and the totals
    count the verdicts, the markers and the losses they report. The products cast to 64
    bits must fit. *)
Theorem cadence_reference (n : Z) (factor : spec_float) (aware : bool) (h : list CEvent) :
  let m0 := make_monitor n factor aware in
  let cal := calibrate_ m0 in
  let fac := factor_ m0 in
  limits_defined aware cal fac h →
  let vs := verdicts aware cal fac [] h in
  ∃ m, cadence_run h m0 = Some (map (λ v, bool_decide (v = Some VAnomaly)) vs, m) ∧
    (∀ id, per_id m !! id = id_stats <$> ref_state cal fac (scan aware id h)) ∧
    m_frames_ m = u64 (Z.of_nat (length (filter is_Some vs))) ∧
    m_anomalies_ m = u64 (count_of (Some VAnomaly) vs) ∧
    m_suppressed_ m = u64 (count_of (Some VSuppressed) vs) ∧
    m_markers_ m = u64 (Z.of_nat (length (marker_counts h))) ∧
    m_reported_lost_ m = u64 (sum_Z (marker_counts h)).
Proof.
  intros m0 cal fac Hd vs.
  destruct (run_ref aware cal fac h [] m0 [] (make_monitor_cal _ _ _) (make_monitor_ok n factor aware) Hd)
    as (m & E & []).
  exists m. split_and!; try done. intros id. unfold per_id. rewrite lookup_fmap. by f_equal.
Qed.

(** C20. A reported anomaly is a measured interval: when a call reports one, the interval it
    measured lies between two frames of that id with no other frame of the id and no
    reconnect between them, and it is longer than the factor times the expectation
    calibrated for that id. In gap-aware mode there is no loss marker between them either,
    so that it is no artefact of loss; a gap-blind monitor measures across markers. *)
Theorem cadence_anomaly_is_measured (n : Z) (factor : spec_float) (aware : bool) (h : list CEvent)
    (flags : list bool) (m : CadenceMonitor) (k : nat) :
  let m0 := make_monitor n factor aware in
  limits_defined aware (calibrate_ m0) (factor_ m0) h →
  cadence_run h m0 = Some (flags, m) → flags !! k = Some true →
  ∃ f h1 g h2 l,
    h !! k = Some (CRec f) ∧ take k h = h1 ++ CRec g :: h2 ∧
    is_gap f = false ∧ is_gap g = false ∧ f_can_id g = f_can_id f ∧
    Forall (λ e, breaks aware e = false ∧ frame_of_id (f_can_id f) e = None) h2 ∧
    limit (factor_ m0) (median (calibration (calibrate_ m0)
      (sc_ivs (scan aware (f_can_id f) (take k h))))) = Some l ∧
    l < Z.max 0 (f_t_ingest_ns f - f_t_ingest_ns g).
Proof.
  intros m0 Hd Hrun Hk.
  destruct (run_ref aware (calibrate_ m0) (factor_ m0) h [] m0 [] (make_monitor_cal _ _ _) (make_monitor_ok n factor aware) Hd)
    as (m' & E & _). rewrite Hrun in E. apply (inj Some), pair_equal_spec in E as [Efl _]. rewrite Efl in Hk.
  change (map ?g ?l) with (g <$> l) in Hk. apply list_lookup_fmap_Some in Hk as (v & Ev & Hv).
  destruct (verdicts_lookup _ _ _ _ _ _ _ Hv) as (e & He & ->). symmetry in Ev.
  apply bool_decide_eq_true in Ev. rewrite app_nil_l in Ev. unfold verdict_on in Ev.
  destruct e as [f|]; [|done]. destruct (is_gap f) eqn:Eg; [done|]. apply (inj Some) in Ev.
  unfold ref_verdict in Ev. set (s := scan aware (f_can_id f) (take k h)) in *.
  destruct (sc_last s) as [t|] eqn:El; [|discriminate Ev].
  destruct (sc_clean s) eqn:Ec; [|discriminate Ev]. cbn [negb] in Ev.
  destruct (scan_clean_last aware (f_can_id f) (take k h) t El Ec) as (h1 & g & h2 & E1 & E2 & E3 & E4 & E5).
  unfold is_late, expectation in Ev.
  destruct (Z.of_nat (length (clean_dts (sc_ivs s))) <? calibrate_ m0); [discriminate Ev|].
  destruct (limit _ _) as [l|] eqn:Elim; [|discriminate Ev].
  destruct (Z.ltb_spec l (Z.max 0 (f_t_ingest_ns f - t))); [|discriminate Ev].
  exists f, h1, g, h2, l. split_and!; try done. by rewrite E4.
Qed.

(** ** Witnesses *)

Definition beat (id t : Z) : CEvent := CRec (mkFrame 0 0 t id 1 8 0 0 (replicate 8 0)).

(** Two calibration intervals of 10, then 10 on time, then 100 late; a marker, then 200
    that is not measured. *)
Definition demo_history : list CEvent :=
  [beat 256 0; beat 256 10; beat 256 20; beat 256 30; beat 256 130;
   CRec (make_gap 7 3 kConsumerOverrun 140); beat 256 330; beat 512 340].

Lemma cadence_reference_witness :
  ∃ m, cadence_run demo_history (make_monitor 2 (double_of 4) true)
       = Some ([false; false; false; false; true; false; false; false], m) ∧
    per_id m !! 256 = Some (mkIdStats 6 10 1 1 100) ∧ m_frames_ m = 7 ∧ m_reported_lost_ m = 3.
Proof.
  destruct (cadence_reference 2 (double_of 4) true demo_history) as (m & E & H & H1 & _ & _ & _ & H2).
  - apply (bool_decide_unpack _). vm_compute. exact I.
  - exists m. split; [rewrite E; reflexivity|]. split; [rewrite H; reflexivity|].
    split; [rewrite H1; reflexivity|rewrite H2; reflexivity].
Defined.

Lemma cadence_anomaly_is_measured_witness :
  ∃ flags m f h1 g h2 l, cadence_run demo_history (make_monitor 2 (double_of 4) true) = Some (flags, m) ∧
    demo_history !! 4%nat = Some (CRec f) ∧ take 4 demo_history = h1 ++ CRec g :: h2 ∧
    l < Z.max 0 (f_t_ingest_ns f - f_t_ingest_ns g).
Proof.
  assert (∃ m, cadence_run demo_history (make_monitor 2 (double_of 4) true)
       = Some ([false; false; false; false; true; false; false; false], m)) as [m E]
    by (eexists; vm_compute; reflexivity).
  destruct (cadence_anomaly_is_measured 2 (double_of 4) true demo_history _ m 4
              ltac:(apply (bool_decide_unpack _); vm_compute; exact I) E eq_refl)
    as (f & h1 & g & h2 & l & H1 & H2 & _ & _ & _ & _ & _ & H3).
  exists [false; false; false; false; true; false; false; false], m, f, h1, g, h2, l.
  exact (conj E (conj H1 (conj H2 H3))).
Defined.
