(* ===== verification/Consumers.v ===== *)
(** * Consumers: the read loop of the consumer programs, the recorder, the probe and the
      cadence checker (src/src/record_main.cpp, src/src/probe_main.cpp,
      src/src/cadence_main.cpp)

    The programs share one loop: connect, read batches until the gateway closes or the
    bytes are not decodable, answer probes on the way, reconnect if asked to. [session]
    and [consume] are that loop, written against the class [Consumer] of what a program
    does with what it reads; the programs are its instances. What the sockets, the clock
    and the file answer are arguments. *)

From Stdlib Require Import SpecFloat.
From S2P Require Import Prelude Frame Wire Samples GapTracker Egress FrameStream Cadence.

#[export] Instance Status_eq_dec : EqDecision Status.t.
Proof. solve_decision. Defined.

(** The rest of a byte string after a batch. *)
Lemma parse_rest_bytes stream b rest :
  Forall is_byte stream → parse_one stream = Batch b rest → Forall is_byte rest.
Proof.
  intros Hb. unfold parse_one. destruct (_ <? _)%nat; [done|].
  destruct (decode_header _ _) as [[] h]; try done. destruct (_ <? _)%nat; [done|].
  destruct (decode_records _ _ _) as [[] fs]; try done. intros [= _ <-]. by do 2 apply Forall_drop.
Qed.

(** ** The loop *)

(** [H]: what one pass of a program's loop is told by the clock and the file. *)
Class Consumer (C H : Type) := {
  on_connect : Z → C → C;
  begin_read : H → Status.t → list Frame → C → C;
  take_frame : H → Frame → C → C;
  end_read : H → Status.t → list Frame → C → C;
  on_disconnect : C → C
}.

(** One pass: whether the loop condition held, the socket's answers to the read and to
    each probe reply, and the rest. *)
Record Step (H : Type) := mkStep {
  st_go : bool;
  st_read : list ReadAnswer;
  st_echo : list (list SendAnswer);
  st_env : H
}.
Arguments mkStep {H}.
Arguments st_go {H}.
Arguments st_read {H}.
Arguments st_echo {H}.
Arguments st_env {H}.

Section Loop.
Context {C H : Type} `{!Consumer C H}.

(** The loop over a batch: a probe is sent back, everything else is the program's. Also
    returns the bytes that went back to the gateway. *)
Fixpoint take_batch (h : H) (echo : list (list SendAnswer)) (frames : list Frame) (c : C)
    (s : FrameStream) : option (C * FrameStream * list Z) :=
  match frames with
  | [] => Some (c, s, [])
  | f :: frames =>
      if is_echo f then
        match echo with
        | [] => None
        | answers :: echo =>
            match send_back f answers s with
            | None => None
            | Some (_, bytes, s) =>
                match take_batch h echo frames c s with
                | Some (c, s, sent) => Some (c, s, bytes ++ sent)
                | None => None
                end
            end
        end
      else take_batch h echo frames (take_frame h f c) s
  end.

Definition after_read (h : H) (echo : list (list SendAnswer)) (st : Status.t) (batch : list Frame)
    (c : C) (s : FrameStream) : option (C * FrameStream * list Z) :=
  let c := begin_read h st batch c in
  match match st with
        | Status.kOk => take_batch h echo batch c s
        | _ => Some (c, s, [])
        end with
  | Some (c, s, sent) => Some (end_read h st batch c, s, sent)
  | None => None
  end.

(** One connection, up to its end or the end of the program. *)
Fixpoint session (steps : list (Step H)) (s : FrameStream) (net : list Z) (c : C)
  : option (C * list Z) :=
  match steps with
  | [] => None
  | p :: steps =>
      if negb (st_go p) then Some (c, [])
      else
        match read_batch (st_read p) s net with
        | None => None
        | Some (Status.kClosed, _, _, _) => Some (c, [])
        | Some (st, batch, s, net) =>
            match after_read (st_env p) (st_echo p) st batch c s with
            | None => None
            | Some (c, s, sent) =>
                if bool_decide (st = Status.kProtocolError) then Some (c, sent)
                else match session steps s net c with
                     | Some (c, sent') => Some (c, sent ++ sent')
                     | None => None
                     end
            end
        end
  end.

(** One attempt to connect: the loop condition, and the connection if it succeeds, with
    the time, the bytes the gateway sends and the passes of the loop. *)
Record Attempt := mkAttempt {
  at_go : bool;
  at_conn : option (Z * list Z * list (Step H))
}.

(** The outer loop; [true] when it ends with the immediate exit of a failed connect. *)
Fixpoint consume (reconnect : bool) (attempts : list Attempt) (c : C) : option (bool * C) :=
  match attempts with
  | [] => None
  | a :: attempts =>
      if negb (at_go a) then Some (false, c)
      else
        match at_conn a with
        | None => if reconnect then consume reconnect attempts c else Some (true, c)
        | Some (now, net, steps) =>
            match session steps make_stream net (on_connect now c) with
            | None => None
            | Some (c, _) =>
                let c := on_disconnect c in
                if reconnect then consume reconnect attempts c else Some (false, c)
            end
        end
  end.

(** The process's exit status: a connect that fails without --reconnect returns 1 at once;
    otherwise it is the program's own, of the state it ends in. *)
Definition process_status (status : C → Z) (r : bool * C) : Z := if r.1 then 1 else status r.2.

(** ** What a program hears *)

(** The passes that reached the program, with the status and the batch. *)
Definition Event : Type := H * (Status.t * list Frame).

(** What the connection gives the program, whatever it does with it: the answer of each
    [read_batch] up to the last one, which is the one that fails to decode, or the one
    before the end of the connection or of the loop. *)
Fixpoint passes (steps : list (Step H)) (s : FrameStream) (net : list Z) : list Event :=
  match steps with
  | [] => []
  | p :: steps =>
      if negb (st_go p) then []
      else
        match read_batch (st_read p) s net with
        | None | Some (Status.kClosed, _, _, _) => []
        | Some (st, b, s, net) =>
            (st_env p, (st, b)) :: if bool_decide (st = Status.kProtocolError) then [] else passes steps s net
        end
  end.

(** A connection as the program lives it: when it is made, and what it gives. *)
Definition Life : Type := Z * list Event.

(** The connections of a run: the attempts that succeed, all of them with --reconnect and
    otherwise at most the first, up to the end of the loop. *)
Fixpoint history (reconnect : bool) (attempts : list Attempt) : list Life :=
  match attempts with
  | [] => []
  | a :: attempts =>
      if negb (at_go a) then []
      else
        match at_conn a with
        | None => if reconnect then history reconnect attempts else []
        | Some (now, net, steps) =>
            (now, passes steps make_stream net) :: if reconnect then history reconnect attempts else []
        end
  end.

(** The events of a connection whose bytes are [stream], as the reference parser
    dictates: batches in order, timeouts anywhere, and nothing after an error. *)
Fixpoint heard (stream : list Z) (evs : list Event) : Prop :=
  match evs with
  | [] => True
  | (_, (Status.kOk, b)) :: evs => ∃ rest, parse_one stream = Batch b rest ∧ heard rest evs
  | (_, (Status.kTimeout, b)) :: evs => b = [] ∧ heard stream evs
  | (_, (Status.kProtocolError, _)) :: evs => (∃ e, parse_one stream = Bad e) ∧ evs = []
  | (_, (Status.kClosed, _)) :: _ => False
  end.

(** The program's reaction to an event, with the probes left out. *)
Definition hear (c : C) (ev : Event) : C :=
  let '(h, (st, b)) := ev in
  end_read h st b
    (if bool_decide (st = Status.kOk)
     then fold_left (λ c f, take_frame h f c) (filter (λ f, is_echo f = false) b) (begin_read h st b c)
     else begin_read h st b c).

(** The probes of a batch: each is answered with its own record, or given up on. *)
Fixpoint answered (probes : list Frame) (sent : list Z) : Prop :=
  match probes with
  | [] => sent = []
  | f :: probes => ∃ bytes rest sent', sent = bytes ++ sent' ∧ echo_message f = bytes ++ rest ∧
                                       answered probes sent'
  end.

Definition probes_of (evs : list Event) : list Frame :=
  concat (map (λ ev : Event, if bool_decide (ev.2.1 = Status.kOk)
                             then filter (λ f, is_echo f = true) ev.2.2 else []) evs).

Lemma answered_app p1 p2 s1 s2 : answered p1 s1 → answered p2 s2 → answered (p1 ++ p2) (s1 ++ s2).
Proof.
  revert s1. induction p1 as [|f p1 IH]; intros s1 H1 H2; simpl in *; [by rewrite H1|].
  destruct H1 as (b & r & s' & -> & E & H1). exists b, r, (s' ++ s2). rewrite <- app_assoc. auto.
Qed.

(** A stream whose replies went differently: only [echo_drops] differs. *)
Definition with_drops (d : Z) (s : FrameStream) : FrameStream :=
  mkStream (state_ s) (buf_ s) (got_ s) (need_ s) (records_ s) (last_error_ s) d.

Lemma with_drops_same s : with_drops (echo_drops_ s) s = s.
Proof. by destruct s. Qed.

(** Reading does not depend on it. *)
Lemma fill_loop_drops d need answers s net :
  fill_loop need answers (with_drops d s) net
  = match fill_loop need answers s net with
    | Some (st, s, net, rest) => Some (st, with_drops d s, net, rest)
    | None => None
    end.
Proof.
  revert s net. induction answers as [|a answers IH]; intros s net; cbn [fill_loop];
    change (got_ (with_drops d s)) with (got_ s); (destruct (negb (got_ s <? need)); [done|]); [done|].
  destruct a; try done; try apply IH.
  change (read_size n need net (with_drops d s)) with (read_size n need net s).
  by rewrite <- IH.
Qed.

Lemma fill_drops d need answers s net :
  fill need answers (with_drops d s) net
  = match fill need answers s net with
    | Some (st, s, net, rest) => Some (st, with_drops d s, net, rest)
    | None => None
    end.
Proof.
  unfold fill. change (buf_ (with_drops d s)) with (buf_ s). change (got_ (with_drops d s)) with (got_ s).
  destruct (_ <? need); [|apply fill_loop_drops].
  change (set_buf ?b ?g (with_drops d s)) with (with_drops d (set_buf b g s)). apply fill_loop_drops.
Qed.

Lemma read_payload_drops d answers s net :
  read_payload answers (with_drops d s) net
  = match read_payload answers s net with
    | Some (st, b, s, net) => Some (st, b, with_drops d s, net)
    | None => None
    end.
Proof.
  unfold read_payload. change (need_ (with_drops d s)) with (need_ s). rewrite fill_drops.
  destruct (fill (need_ s) answers s net) as [[[[st s1] net1] rest]|]; [|done]. destruct st; try done.
  change (records_ (with_drops d s1)) with (records_ s1). change (buf_ (with_drops d s1)) with (buf_ s1).
  by destruct (decode_records _ _ _) as [[] out].
Qed.

Lemma read_batch_drops d answers s net :
  read_batch answers (with_drops d s) net
  = match read_batch answers s net with
    | Some (st, b, s, net) => Some (st, b, with_drops d s, net)
    | None => None
    end.
Proof.
  unfold read_batch. change (state_ (with_drops d s)) with (state_ s).
  destruct (state_ s); [|apply read_payload_drops]. rewrite fill_drops.
  destruct (fill _ answers s net) as [[[[st s1] net1] rest]|]; [|done]. destruct st; try done.
  change (buf_ (with_drops d s1)) with (buf_ s1). destruct (decode_header _ _) as [[] h]; try done.
  destruct (h_payload_len h =? 0); [done|].
  exact (read_payload_drops d rest (mkStream kPayload (buf_ s1) 0 (h_payload_len h) (h_count h) kOk (echo_drops_ s1)) net1).
Qed.

Lemma passes_drops d steps s net : passes steps (with_drops d s) net = passes steps s net.
Proof.
  revert s net. induction steps as [|p steps IH]; intros s net; [done|]. cbn [passes]. rewrite read_batch_drops.
  destruct (negb (st_go p)); [done|]. destruct (read_batch (st_read p) s net) as [[[[st b] s1] net1]|]; [|done].
  destruct st; cbn; by rewrite ?IH.
Qed.

Lemma send_back_state f answers s ok bytes s' :
  send_back f answers s = Some (ok, bytes, s') →
  (∃ d, s' = with_drops d s) ∧ ∃ rest, echo_message f = bytes ++ rest.
Proof.
  unfold send_back. intros E. destruct (send_loop _ _) as [[[] b]|] eqn:El; [..|done];
    injection E as <- <- <-; apply send_loop_spec in El as (rest & El & _); (split; [|by exists rest]).
  - exists (echo_drops_ s). by rewrite with_drops_same.
  - by eexists.
Qed.

Lemma take_batch_spec h echo frames c s c' s' sent :
  take_batch h echo frames c s = Some (c', s', sent) →
  c' = fold_left (λ c f, take_frame h f c) (filter (λ f, is_echo f = false) frames) c ∧
  (∃ d, s' = with_drops d s) ∧ answered (filter (λ f, is_echo f = true) frames) sent.
Proof.
  revert echo c s c' s' sent.
  induction frames as [|f frames IH]; intros echo c s c' s' sent E; cbn [take_batch] in E.
  { injection E as <- <- <-. split; [done|]. split; [|done]. exists (echo_drops_ s). by rewrite with_drops_same. }
  rewrite !filter_cons. destruct (is_echo f).
  - rewrite decide_False, decide_True by done. destruct echo as [|ans echo]; [done|].
    destruct (send_back f ans s) as [[[ok bytes] s1]|] eqn:Es; [|done].
    destruct (take_batch h echo frames c s1) as [[[c2 s2] sent2]|] eqn:Et; [|done].
    injection E as <- <- <-. apply send_back_state in Es as ((d & ->) & rest & Em).
    destruct (IH _ _ _ _ _ _ Et) as (H1 & (d' & ->) & H3).
    split; [done|]. split; [by exists d'|]. by exists bytes, rest, sent2.
  - rewrite decide_True, decide_False by done. exact (IH _ _ _ _ _ _ E).
Qed.

(** What a pass does with the answer of [read_batch]. *)
Lemma after_read_spec h sends st b c s c' s' sent :
  after_read h sends st b c s = Some (c', s', sent) → st ≠ Status.kClosed →
  c' = hear c (h, (st, b)) ∧ (∃ d, s' = with_drops d s) ∧ answered (probes_of [(h, (st, b))]) sent.
Proof.
  intros Ea Hst. unfold after_read in Ea. unfold hear, probes_of. simpl. rewrite app_nil_r.
  assert (∃ d, s = with_drops d s) as Hs by (exists (echo_drops_ s); by rewrite with_drops_same).
  destruct st; simpl in *; try (injection Ea as <- <- <-; done).
  destruct (take_batch _ _ _ _ _) as [[[c3 s3] sent3]|] eqn:Et; [|done]. injection Ea as <- <- <-.
  by destruct (take_batch_spec _ _ _ _ _ _ _ _ Et) as (-> & H1 & H2).
Qed.

(** The loop does to the program what the passes dictate, and answers their probes. *)
Lemma session_spec steps s net c c' sent :
  session steps s net c = Some (c', sent) →
  c' = fold_left hear (passes steps s net) c ∧ answered (probes_of (passes steps s net)) sent.
Proof.
  revert s net c c' sent. induction steps as [|p steps IH]; intros s net c c' sent E; cbn [session passes] in *; [done|].
  destruct (st_go p); simpl negb in *; cbv iota in *; [|by injection E as <- <-].
  destruct (read_batch (st_read p) s net) as [[[[st b] s1] net1]|] eqn:Er; [|done].
  destruct (decide (st = Status.kClosed)) as [->|Hnc]; [by injection E as <- <-|].
  assert (match after_read (st_env p) (st_echo p) st b c s1 with
          | None => None
          | Some (c, s, sent) =>
              if bool_decide (st = Status.kProtocolError) then Some (c, sent)
              else match session steps s net1 c with
                   | Some (c, sent') => Some (c, sent ++ sent')
                   | None => None
                   end
          end = Some (c', sent)) as E' by (by destruct st). clear E.
  destruct (after_read (st_env p) (st_echo p) st b c s1) as [[[c2 s2] sent2]|] eqn:Ea; [|done].
  destruct (after_read_spec _ _ _ _ _ _ _ _ _ Ea Hnc) as (-> & (d & ->) & Hp2).
  replace (match st with Status.kClosed => _ | _ => _ end)
    with ((st_env p, (st, b)) :: if bool_decide (st = Status.kProtocolError) then [] else passes steps s1 net1)
    by (by destruct st).
  destruct (bool_decide (st = Status.kProtocolError)) eqn:Epe; [by injection E' as <- <-|].
  destruct (session steps _ net1 _) as [[c3 sent3]|] eqn:Es; [|done]. injection E' as <- <-.
  destruct (IH _ _ _ _ _ Es) as (-> & H2). rewrite passes_drops in H2 |- *. split; [done|].
  change (probes_of (?x :: ?evs)) with (probes_of ([x] ++ evs)). unfold probes_of in *.
  rewrite map_app, concat_app. by apply answered_app.
Qed.

(** The passes of a connection are the batches its bytes hold, as the reference parser
    finds them, whatever the segmentation. *)
Lemma passes_heard steps s net :
  stream_wf s → Forall is_byte (held s ++ net) →
  heard (held s ++ net) (passes steps s net) ∧
  Forall (λ ev : Event, ev.1 ∈ map st_env steps) (passes steps s net).
Proof.
  revert s net. induction steps as [|p steps IH]; intros s net Hwf Hb; cbn [passes]; [done|].
  destruct (negb (st_go p)); [done|].
  destruct (read_batch (st_read p) s net) as [[[[st b] s1] net1]|] eqn:Er; [|done].
  destruct (read_batch_refines _ _ _ _ _ _ _ Hwf Hb Er) as [Hwf1 Hr].
  assert (∀ evs : list Event, Forall (λ ev : Event, ev.1 ∈ map st_env steps) evs →
            Forall (λ ev : Event, ev.1 ∈ map st_env (p :: steps)) ((st_env p, (st, b)) :: evs)) as Hin.
  { intros evs He. constructor; [simpl; by left|]. eapply Forall_impl; [exact He|]. intros ev Hev. simpl. by right. }
  destruct st; cbn -[heard] in *; try done.
  - destruct (IH s1 net1 Hwf1 ltac:(by eapply parse_rest_bytes)) as [H1 H2]. split; [by eexists|by apply Hin].
  - destruct Hr as [Hr ->]. destruct (IH s1 net1 Hwf1 ltac:(by rewrite Hr)) as [H1 H2]. rewrite Hr in H1.
    split; [done|by apply Hin].
  - split; [cbn; destruct Hr as [Hr _]; eauto|by apply Hin].
Qed.

Definition live (c : C) (r : Life) : C := on_disconnect (fold_left hear r.2 (on_connect r.1 c)).

Definition conn_ok (a : Attempt) : Prop :=
  match at_conn a with Some (_, net, _) => Forall is_byte net | None => True end.

(** The connections the program had are the successful attempts, in order, as many as it
    made. *)
Fixpoint lived (attempts : list Attempt) (rs : list Life) : Prop :=
  match attempts, rs with
  | _, [] => True
  | [], _ :: _ => False
  | a :: attempts, (now, evs) :: rs' =>
      match at_conn a with
      | None => lived attempts rs
      | Some (now', net, steps) =>
          now = now' ∧ heard net evs ∧ Forall (λ ev : Event, ev.1 ∈ map st_env steps) evs ∧
          lived attempts rs'
      end
  end.

Lemma lived_nil attempts : lived attempts [].
Proof. by destruct attempts. Qed.

Lemma history_lived reconnect attempts : Forall conn_ok attempts → lived attempts (history reconnect attempts).
Proof.
  intros Ha. induction Ha as [|a attempts Ha _ IH]; [done|]. cbn [history].
  destruct (negb (at_go a)); [done|]. unfold conn_ok in Ha. destruct (at_conn a) as [[[now net] steps]|] eqn:Ec.
  - cbn [lived]. rewrite Ec. destruct (passes_heard steps make_stream net) as [H1 H2]; [done|done|].
    split_and!; try done. destruct reconnect; [done|apply lived_nil].
  - destruct reconnect; [|done]. revert IH. destruct (history true attempts) as [|[now evs] rs]; [done|].
    cbn [lived]. by rewrite Ec.
Qed.

(** The one way to end with a failed connect. *)
Definition refused (reconnect : bool) (attempts : list Attempt) : bool :=
  match attempts with
  | a :: _ => at_go a && negb reconnect && match at_conn a with None => true | Some _ => false end
  | [] => false
  end.

Lemma consume_failed reconnect attempts c failed c' :
  consume reconnect attempts c = Some (failed, c') → failed = refused reconnect attempts.
Proof.
  revert c. induction attempts as [|a attempts IH]; intros c E; cbn [consume refused] in *; [done|].
  destruct (at_go a); cbn [negb andb] in *; [|by injection E as <- _].
  assert (reconnect = true → ∀ l, refused reconnect l = false) as Hr
    by (intros -> [|b l]; cbn [refused negb]; [done|]; by rewrite andb_false_r).
  destruct (at_conn a) as [[[now net] steps]|].
  - rewrite andb_false_r. destruct (session _ _ _ _) as [[c1 sent]|]; [|done].
    destruct reconnect; [|by injection E as <- _]. rewrite <- (Hr eq_refl attempts). by eapply IH.
  - destruct reconnect; [|by injection E as <- _]. cbn. rewrite <- (Hr eq_refl attempts). by eapply IH.
Qed.

(** A run does to the program what its history dictates. *)
Lemma consume_spec reconnect attempts c failed c' :
  consume reconnect attempts c = Some (failed, c') → c' = fold_left live (history reconnect attempts) c.
Proof.
  revert c. induction attempts as [|a attempts IH]; intros c E; cbn [consume history] in *; [done|].
  destruct (negb (at_go a)); [by injection E as _ <-|].
  destruct (at_conn a) as [[[now net] steps]|].
  - destruct (session steps make_stream net (on_connect now c)) as [[c1 sent]|] eqn:Es; [|done].
    apply session_spec in Es as [-> _]. destruct reconnect; [by apply IH|by injection E as _ <-].
  - destruct reconnect; [by apply IH|by injection E as _ <-].
Qed.
End Loop.
Arguments mkAttempt {H}.
Arguments at_go {H}.
Arguments at_conn {H}.
Arguments Attempt : clear implicits.
Arguments Event : clear implicits.
Arguments Life : clear implicits.

#[export] Instance conn_ok_dec {H} (a : Attempt H) : Decision (conn_ok a).
Proof. unfold conn_ok. destruct (at_conn a) as [[[? ?] ?]|]; apply _. Defined.

(** ** Loss accounting and exit status *)

(** The two variables every program keeps. *)
Record Tally := mkTally { ty_gaps : GapTracker; ty_protocol_errs : Z }.

Definition tally_zero : Tally := mkTally tracker_init 0.

Definition tally_connect (t : Tally) : Tally := mkTally (tracker_reset (ty_gaps t)) (ty_protocol_errs t).

Definition tally_frame (f : Frame) (t : Tally) : Tally :=
  mkTally (GapTracker.observe (ty_gaps t) f).1 (ty_protocol_errs t).

Definition tally_end (st : Status.t) (t : Tally) : Tally :=
  match st with
  | Status.kProtocolError => mkTally (ty_gaps t) (u64 (ty_protocol_errs t + 1))
  | _ => t
  end.

(** The status the probe and the cadence checker exit with. *)
Definition exit_status (t : Tally) : Z :=
  if (ty_protocol_errs t >? 0) || (gs_silent_jumps (gt_s (ty_gaps t)) >? 0) then 1 else 0.

(** A program that keeps them as the sources do. *)
Class Tallied (C H : Type) `{!Consumer C H} := {
  tally_of : C → Tally;
  tally_of_connect now c : tally_of (on_connect now c) = tally_connect (tally_of c);
  tally_of_begin h st b c : tally_of (begin_read h st b c) = tally_of c;
  tally_of_frame h f c : tally_of (take_frame h f c) = tally_frame f (tally_of c);
  tally_of_end h st b c : tally_of (end_read h st b c) = tally_end st (tally_of c);
  tally_of_disconnect c : tally_of (on_disconnect c) = tally_of c
}.

(** A program whose exit status is the one of its tally. *)
Class Judge (C H : Type) `{!Consumer C H, !Tallied C H} := {
  verdict : C → Z;
  verdict_tally c : verdict c = exit_status (tally_of c)
}.

(** The frames and markers of a connection. *)
Definition records_of {H} (evs : list (Event H)) : list Frame :=
  concat (map (λ ev, if bool_decide (ev.2.1 = Status.kOk)
                     then filter (λ f, is_echo f = false) ev.2.2 else []) evs).

Definition ended_badly {H} (evs : list (Event H)) : bool :=
  existsb (λ ev, bool_decide (ev.2.1 = Status.kProtocolError)) evs.

(** Frames ahead of the position the records before them announced. *)
Fixpoint jump_count (e : option Z) (l : list Frame) : Z :=
  match l with
  | [] => 0
  | f :: l =>
      if is_echo f then jump_count e l
      else if is_gap f then jump_count (Some (u64 (f_seq f + gap_count f))) l
      else (match e with Some n => if f_seq f >? n then 1 else 0 | None => 0 end)
           + jump_count (Some (u64 (f_seq f + 1))) l
  end.

Definition expected_of (g : GapTracker) : option Z := if gt_have g then Some (gt_next g) else None.

Lemma observe_jumps g l :
  fits 64 (gs_silent_jumps (gt_s g)) →
  gs_silent_jumps (gt_s (observe_all g l))
  = u64 (gs_silent_jumps (gt_s g) + jump_count (expected_of g) l).
Proof.
  revert g. induction l as [|f l IH]; intros g Hf.
  { simpl. by rewrite Z.add_0_r, u64_small. }
  change (observe_all g (f :: l)) with (observe_all (GapTracker.observe g f).1 l).
  assert (∀ n r s, gs_silent_jumps (count_marker n r s) = gs_silent_jumps s) as Hm by (by intros ? []).
  unfold GapTracker.observe. cbn [jump_count]. destruct (is_echo f); [by rewrite IH|].
  destruct (is_gap f); [by rewrite IH; simpl; rewrite Hm|]. unfold expected_of at 1.
  destruct (gt_have g); simpl andb; cbv iota; [|by rewrite IH].
  destruct (f_seq f >? gt_next g); cbn [fst]; (rewrite IH; simpl; [|auto with etg]);
    unfold expected_of; simpl; rewrite ?u64_add_l; f_equal; lia.
Qed.

Section Tallied.
Context {C H : Type} `{!Consumer C H, !Tallied C H}.

Lemma tally_hear (evs : list (Event H)) (stream : list Z) (c : C) :
  heard stream evs →
  let t := tally_of (fold_left hear evs c) in
  ty_gaps t = observe_all (ty_gaps (tally_of c)) (records_of evs) ∧
  ty_protocol_errs t = if ended_badly evs then u64 (ty_protocol_errs (tally_of c) + 1)
                       else ty_protocol_errs (tally_of c).
Proof.
  revert stream c. induction evs as [|[h [st b]] evs IH]; intros stream c Hh; [done|].
  assert (tally_of (hear c (h, (st, b)))
          = tally_end st (if bool_decide (st = Status.kOk)
              then mkTally (observe_all (ty_gaps (tally_of c)) (filter (λ f, is_echo f = false) b))
                           (ty_protocol_errs (tally_of c)) else tally_of c)) as E.
  { unfold hear. rewrite tally_of_end. f_equal. destruct (bool_decide (st = Status.kOk)); [|apply tally_of_begin].
    rewrite <- (tally_of_begin h st b c). generalize (begin_read h st b c). intros c0. revert c0.
    induction (filter (λ f, is_echo f = false) b) as [|f l IHl]; intros c0; simpl.
    - by destruct (tally_of c0).
    - rewrite IHl, tally_of_frame. done. }
  change (fold_left hear ((h, (st, b)) :: evs) c) with (fold_left hear evs (hear c (h, (st, b)))).
  destruct st; simpl in Hh.
  - destruct Hh as (rest & _ & Hh). destruct (IH rest (hear c (h, (Status.kOk, b))) Hh) as [H1 H2].
    cbv zeta. rewrite H1, H2, E. simpl. unfold records_of. simpl. by rewrite observe_all_app.
  - destruct Hh as [-> Hh]. destruct (IH stream (hear c (h, (Status.kTimeout, []))) Hh) as [H1 H2].
    cbv zeta. rewrite H1, H2, E. done.
  - done.
  - destruct Hh as [_ ->]. cbn [fold_left]. cbv zeta. rewrite E. done.
Qed.

(** Sum over the connections of a program's life. *)
Definition total_jumps (rs : list (Life H)) : Z :=
  foldr (λ r n, jump_count None (records_of r.2) + n) 0 rs.
Definition total_errors (rs : list (Life H)) : Z :=
  foldr (λ r n, (if ended_badly r.2 then 1 else 0) + n) 0 rs.

Lemma tally_live (attempts : list (Attempt H)) (rs : list (Life H)) (c : C) :
  lived attempts rs → fits 64 (gs_silent_jumps (gt_s (ty_gaps (tally_of c)))) →
  fits 64 (ty_protocol_errs (tally_of c)) →
  let t := tally_of (fold_left live rs c) in
  gs_silent_jumps (gt_s (ty_gaps t))
  = u64 (gs_silent_jumps (gt_s (ty_gaps (tally_of c))) + total_jumps rs) ∧
  ty_protocol_errs t = u64 (ty_protocol_errs (tally_of c) + total_errors rs).
Proof.
  revert rs c. induction attempts as [|a attempts IH]; intros [|[now evs] rs] c Hl Hj He; cbv zeta;
    try done; try (simpl; rewrite !Z.add_0_r, !u64_small by done; done).
  simpl in Hl. destruct (at_conn a) as [[[now' net] steps]|]; [|by apply (IH ((now, evs) :: rs))].
  destruct Hl as (_ & Hh & _ & Hl).
  destruct (tally_hear evs net (on_connect now c) Hh) as [G1 G2].
  pose proof (tally_of_connect now c) as Ec. rewrite Ec in G1, G2. simpl in G1, G2.
  pose proof (observe_jumps (tracker_reset (ty_gaps (tally_of c))) (records_of evs) Hj) as G3.
  rewrite <- G1 in G3. simpl in G3.
  set (c1 := live c (now, evs)). assert (tally_of c1 = tally_of (fold_left hear evs (on_connect now c))) as E1.
  { unfold c1, live. simpl. apply tally_of_disconnect. }
  change (fold_left live ((now, evs) :: rs) c) with (fold_left live rs c1).
  destruct (IH rs c1 Hl) as [H1 H2]; rewrite ?E1, ?G3, ?G2;
    [auto with etg|destruct (ended_badly evs); auto with etg|].
  rewrite H1, H2, E1, G3, G2. simpl. unfold expected_of. simpl. rewrite u64_add_l. split; [f_equal; lia|].
  destruct (ended_badly evs); rewrite ?u64_add_l; f_equal; lia.
Qed.
End Tallied.
