(* ===== verification/Programs.v ===== *)
(** * Programs: the recorder, the latency probe and the cadence checker
      (src/src/record_main.cpp, src/src/probe_main.cpp, src/src/cadence_main.cpp)

    The three instances of [Consumer], with the theorems on what they leave behind: the
    recorder's file and the exit statuses. *)

From Stdlib Require Import SpecFloat.
From stdpp Require Import sorting.
From S2P Require Import Prelude Frame Wire Samples GapTracker Egress FrameStream Cadence Consumers.

(** ** The recorder *)

Module Recorder.
(** [file]: the bytes handed to stdio so far; [synced]: how many of them the last
    [fflush]/[fsync] covered. *)
Record t := mkRecorder {
  fsync_every : Z;
  file : list Z;
  synced : Z;
  encoded : list Z;
  frames : Z;
  batches : Z;
  bytes : Z;
  write_errors : Z;
  tally : Tally;
  write_ns : Samples;
  next_report : Z;
  last_frames : Z
}.

(** The clock readings of one pass, and how many bytes [fwrite] takes when it does not
    take all of them. *)
Record Env := mkEnv { t0 : Z; short_write : option Z; t1 : Z; now : Z }.

Definition make (fsync_every start : Z) : t :=
  mkRecorder fsync_every [] 0 [] 0 0 0 0 tally_zero (make_samples (2 ^ 20)) (u64 (start + 1000000000)) 0.

Definition set_tally (ty : Tally) (r : t) : t :=
  mkRecorder (fsync_every r) (file r) (synced r) (encoded r) (frames r) (batches r) (bytes r)
    (write_errors r) ty (write_ns r) (next_report r) (last_frames r).

(** [encoded.resize], [encode_header] and the [encode_frame] loop. *)
Definition encode (batch : list Frame) (buf : list Z) : list Z :=
  let buf := resize (kHeaderSize + length batch * kRecordSize) buf in
  let buf := encode_header (u32 (Z.of_nat (length batch))) (take kHeaderSize buf)
             ++ drop kHeaderSize buf in
  fold_left encode_record (combine (seq 0 (length batch)) batch) buf.

(** The write: what reaches the file, the sync, the duration sample and the counters. *)
Definition write_batch (h : Env) (batch : list Frame) (r : t) : t :=
  let buf := encode batch (encoded r) in
  let size := Z.of_nat (length buf) in
  let written := match short_write h with Some n => Z.max 0 (Z.min n (size - 1)) | None => size end in
  let out := file r ++ take (Z.to_nat written) buf in
  let batches := u64 (batches r + 1) in
  let synced := if negb (fsync_every r =? 0) && (batches mod fsync_every r =? 0)
                then Z.of_nat (length out) else synced r in
  let full := written =? size in
  mkRecorder (fsync_every r) out synced buf
    (if full then u64 (frames r + Z.of_nat (length batch)) else frames r) batches
    (if full then u64 (bytes r + size) else bytes r)
    (if full then write_errors r else u64 (write_errors r + 1)) (tally r)
    (add (write_ns r) (s64 (t1 h - t0 h))) (next_report r) (last_frames r).

(** The once-a-second progress line. *)
Definition report (now : Z) (r : t) : t :=
  if now >=? next_report r
  then mkRecorder (fsync_every r) (file r) (synced r) (encoded r) (frames r) (batches r) (bytes r)
         (write_errors r) (tally r) (write_ns r) (u64 (now + 1000000000)) (frames r)
  else r.

#[global] Instance consumer : Consumer t Env := {
  on_connect _ r := set_tally (tally_connect (tally r)) r;
  begin_read _ _ _ r := r;
  take_frame _ f r := set_tally (tally_frame f (tally r)) r;
  end_read h st b r :=
    let r := set_tally (tally_end st (tally r)) r in
    match st, b with
    | Status.kOk, _ :: _ => report (now h) (write_batch h b r)
    | _, _ => r
    end;
  on_disconnect r := r
}.

#[global] Instance tallied : Tallied t Env.
Proof.
  refine {| tally_of := tally |}; try done.
  intros h [] [|f b] r; simpl; try done. unfold report. by case_match.
Defined.

Definition exit_code (r : t) : Z :=
  if (ty_protocol_errs (tally r) >? 0) || (write_errors r >? 0) then 1 else 0.
End Recorder.

(** ** The probe *)

Module Probe.
Definition kLiveWindow : Z := 4096.

Record t := mkProbe {
  cross_machine : bool;
  measure_e2e : bool;
  measure_from : Z;
  frames : Z;
  batches : Z;
  connections : Z;
  tally : Tally;
  gw_latency : Samples;
  time_to_first_frame : Samples;
  e2e_latency : Samples;
  live_ : list Z;
  next_report : Z;
  last_frames : Z;
  warmup_discarded : Z;
  connected_at : Z;
  first_frame_seen : bool
}.

(** The clock readings of one pass: when the first frame is noticed, the one for the
    batch (of the clock [--cross] selects), and the one for the progress line. *)
Record Env := mkEnv { first_at : Z; batch_now : Z; report_now : Z }.

Definition make (cross e2e : bool) (measure_from next_report : Z) : t :=
  mkProbe cross e2e measure_from 0 0 0 tally_zero (make_samples (2 ^ 20)) (make_samples (2 ^ 12))
    (make_samples (2 ^ 20)) [] next_report 0 0 0 false.

Definition payload_timestamp (f : Frame) : Z := or_loop (λ i, f_data f !!! i) 8.

Definition set_tally (ty : Tally) (p : t) : t :=
  mkProbe (cross_machine p) (measure_e2e p) (measure_from p) (frames p) (batches p) (connections p) ty
    (gw_latency p) (time_to_first_frame p) (e2e_latency p) (live_ p) (next_report p) (last_frames p)
    (warmup_discarded p) (connected_at p) (first_frame_seen p).

Definition connect (now : Z) (p : t) : t :=
  mkProbe (cross_machine p) (measure_e2e p) (measure_from p) (frames p) (batches p)
    (u64 (connections p + 1)) (tally_connect (tally p)) (gw_latency p) (time_to_first_frame p)
    (e2e_latency p) (live_ p) (next_report p) (last_frames p) (warmup_discarded p) now false.

Definition first_frame (h : Env) (batch : list Frame) (p : t) : t :=
  match batch with
  | _ :: _ =>
      if first_frame_seen p then p
      else mkProbe (cross_machine p) (measure_e2e p) (measure_from p) (frames p) (batches p)
             (connections p) (tally p) (gw_latency p)
             (add (time_to_first_frame p) (s64 (first_at h - connected_at p))) (e2e_latency p)
             (live_ p) (next_report p) (last_frames p) (warmup_discarded p) (connected_at p) true
  | [] => p
  end.

Definition count_batch (p : t) : t :=
  mkProbe (cross_machine p) (measure_e2e p) (measure_from p) (frames p) (u64 (batches p + 1))
    (connections p) (tally p) (gw_latency p) (time_to_first_frame p) (e2e_latency p) (live_ p)
    (next_report p) (last_frames p) (warmup_discarded p) (connected_at p) (first_frame_seen p).

(** The delays of a real frame, outside the warm-up. *)
Definition measure (now : Z) (f : Frame) (p : t) : t :=
  let frames := u64 (frames p + 1) in
  if now <? measure_from p then
    mkProbe (cross_machine p) (measure_e2e p) (measure_from p) frames (batches p) (connections p)
      (tally p) (gw_latency p) (time_to_first_frame p) (e2e_latency p) (live_ p) (next_report p)
      (last_frames p) (u64 (warmup_discarded p + 1)) (connected_at p) (first_frame_seen p)
  else
    let stamp := if cross_machine p then f_t_kernel_ns f else f_t_ingest_ns f in
    let delay := s64 now - s64 stamp in
    mkProbe (cross_machine p) (measure_e2e p) (measure_from p) frames (batches p) (connections p)
      (tally p) (add (gw_latency p) delay) (time_to_first_frame p)
      (if measure_e2e p then add (e2e_latency p) (s64 now - s64 (payload_timestamp f)) else e2e_latency p)
      (if Z.of_nat (length (live_ p)) <? kLiveWindow then live_ p ++ [delay] else live_ p)
      (next_report p) (last_frames p) (warmup_discarded p) (connected_at p) (first_frame_seen p).

Definition take (now : Z) (f : Frame) (p : t) : t :=
  let real := (GapTracker.observe (ty_gaps (tally p)) f).2 in
  let p := set_tally (tally_frame f (tally p)) p in
  if real then measure now f p else p.

(** The median of the live window that the progress line prints. *)
Definition live_p50 (p : t) : Z :=
  match live_ p with
  | [] => 0
  | l => nth (length l / 2) (merge_sort Z.le l) 0
  end.

Definition report (now : Z) (p : t) : t :=
  if now >=? next_report p then
    mkProbe (cross_machine p) (measure_e2e p) (measure_from p) (frames p) (batches p) (connections p)
      (tally p) (gw_latency p) (time_to_first_frame p) (e2e_latency p) [] (u64 (now + 1000000000))
      (frames p) (warmup_discarded p) (connected_at p) (first_frame_seen p)
  else p.

#[global] Instance consumer : Consumer t Env := {
  on_connect := connect;
  begin_read h st b p :=
    match st with Status.kOk => count_batch (first_frame h b p) | _ => p end;
  take_frame h := take (batch_now h);
  end_read h st _ p :=
    let p := set_tally (tally_end st (tally p)) p in
    match st with Status.kProtocolError => p | _ => report (report_now h) p end;
  on_disconnect p := p
}.

#[global] Instance tallied : Tallied t Env.
Proof.
  refine {| tally_of := tally |}; try done.
  - intros h [] b p; simpl; try done. unfold first_frame. destruct b; [done|]. by destruct (first_frame_seen p).
  - intros h f p. simpl. unfold take. destruct (GapTracker.observe _ f).2; [|done].
    unfold measure. simpl. by destruct (batch_now h <? measure_from p).
  - intros h [] b p; simpl; try done; unfold report; by case_match.
Defined.

(** The status [main] returns at its end. *)
#[global] Program Instance judge : Judge t Env := { verdict p := exit_status (tally p) }.
Next Obligation. done. Qed.
End Probe.

(** ** The cadence checker *)

Module CadenceCheck.
(** [monitor] is [None] once a cast was undefined. *)
Record t := mkCheck { tally : Tally; monitor : option CadenceMonitor }.

Definition make (calibrate : Z) (factor : spec_float) (gap_blind : bool) : t :=
  mkCheck tally_zero (Some (make_monitor calibrate factor (negb gap_blind))).

#[global] Instance consumer : Consumer t unit := {
  on_connect _ c := mkCheck (tally_connect (tally c)) (reset_all <$> monitor c);
  begin_read _ _ _ c := c;
  take_frame _ f c :=
    mkCheck (tally_frame f (tally c)) (m ← monitor c; r ← Cadence.observe f m; Some r.2);
  end_read _ st _ c := mkCheck (tally_end st (tally c)) (monitor c);
  on_disconnect c := c
}.

#[global] Instance tallied : Tallied t unit.
Proof. by refine {| tally_of := tally |}. Defined.

#[global] Program Instance judge : Judge t unit := { verdict c := exit_status (tally c) }.
Next Obligation. done. Qed.
End CadenceCheck.

(** ** Lemmas: what the recorder writes *)

(** The batches with something in them that a program hears. *)
Definition nonempty_batch {H} (ev : Event H) : Prop := ev.2.1 = Status.kOk ∧ ev.2.2 ≠ [].

#[global] Instance nonempty_batch_dec {H} (ev : Event H) : Decision (nonempty_batch ev).
Proof. unfold nonempty_batch. apply _. Defined.

Definition capture_of {H} (evs : list (Event H)) : list (list Frame) :=
  map (λ ev, ev.2.2) (filter nonempty_batch evs).

Definition captured {H} (rs : list (Life H)) : list (list Frame) := concat (map (λ r, capture_of r.2) rs).

Record recorded (r : Recorder.t) (bs : list (list Frame)) : Prop := {
  rd_file : Recorder.file r = concat (map batch_bytes bs);
  rd_frames : Recorder.frames r = u64 (Z.of_nat (length (concat bs)));
  rd_batches : Recorder.batches r = u64 (Z.of_nat (length bs));
  rd_bytes : Recorder.bytes r = u64 (Z.of_nat (length (Recorder.file r)));
  rd_errors : Recorder.write_errors r = 0
}.

Lemma encode_bytes b buf : accepted_batch b → Recorder.encode b buf = batch_bytes b.
Proof.
  intros [Hs Hn].
  apply (encode_batch_bytes b (set_pending buf 0 (make_egress (mkTuning 1 0 0)))); [|done].
  eapply Forall_impl; [exact Hs|]. by intros f [].
Qed.

Lemma write_batch_recorded h b r bs :
  Recorder.short_write h = None → accepted_batch b → recorded r bs →
  recorded (Recorder.write_batch h b r) (bs ++ [b]).
Proof.
  intros Hw Hb [H1 H2 H3 H4 H5]. unfold Recorder.write_batch. rewrite Hw, encode_bytes, Z.eqb_refl by done.
  rewrite Nat2Z.id, firstn_all.
  constructor; cbn [Recorder.file Recorder.frames Recorder.batches Recorder.bytes Recorder.write_errors];
    rewrite ?map_app, ?concat_app, ?length_app.
  - rewrite H1. simpl. by rewrite app_nil_r.
  - rewrite H2, u64_add_l. simpl. rewrite app_nil_r. f_equal. lia.
  - rewrite H3, u64_add_l. simpl. f_equal. lia.
  - rewrite H4, u64_add_l. f_equal. lia.
  - done.
Qed.

Lemma report_recorded now r bs : recorded r bs → recorded (Recorder.report now r) bs.
Proof. intros []. unfold Recorder.report. by case_match. Qed.

Lemma set_tally_recorded ty r bs : recorded r bs → recorded (Recorder.set_tally ty r) bs.
Proof. by intros []. Qed.

Lemma frames_recorded (h : Recorder.Env) l (r : Recorder.t) bs :
  recorded r bs → recorded (fold_left (λ c f, take_frame h f c) l r) bs.
Proof.
  revert r. induction l as [|f l IH]; intros r Hr; [done|]. simpl. by apply IH, set_tally_recorded.
Qed.

Lemma hear_recorded (ev : Event Recorder.Env) (r : Recorder.t) bs :
  Recorder.short_write ev.1 = None → (ev.2.1 = Status.kOk → accepted_batch ev.2.2) → recorded r bs →
  recorded (hear r ev) (bs ++ capture_of [ev]).
Proof.
  destruct ev as [h [st b]]. simpl. intros Hw Hs Hr. unfold capture_of. rewrite filter_cons.
  destruct (decide (nonempty_batch (h, (st, b)))) as [[Hk Hne]|Hn].
  - simpl in Hk, Hne. subst st. simpl. destruct b as [|f b]; [done|].
    apply report_recorded, write_batch_recorded; [done|by apply Hs|].
    by apply set_tally_recorded, (frames_recorded h).
  - simpl. rewrite app_nil_r. destruct (bool_decide (st = Status.kOk)) eqn:Ek.
    + apply bool_decide_eq_true in Ek. subst st. destruct b as [|f b]; [|by destruct Hn].
      simpl. by apply set_tally_recorded.
    + destruct st; try done; destruct b; by apply set_tally_recorded.
Qed.

Lemma heard_accepted {H} stream (evs : list (Event H)) :
  Forall is_byte stream → heard stream evs →
  Forall (λ ev, ev.2.1 = Status.kOk → accepted_batch ev.2.2) evs.
Proof.
  revert stream. induction evs as [|[h [st b]] evs IH]; intros stream Hb Hh; [constructor|].
  destruct st; simpl in Hh.
  - destruct Hh as (rest & Hp & Hh). destruct (parse_batch_inv _ _ _ Hb Hp) as (H1 & H2 & _).
    constructor; [by split|]. eapply IH; [|exact Hh]. by eapply parse_rest_bytes.
  - destruct Hh as [_ Hh]. constructor; [done|]. by eapply IH.
  - done.
  - destruct Hh as [_ ->]. by constructor.
Qed.

Lemma hears_recorded (evs : list (Event Recorder.Env)) (r : Recorder.t) bs :
  Forall (λ ev, Recorder.short_write ev.1 = None) evs →
  Forall (λ ev, ev.2.1 = Status.kOk → accepted_batch ev.2.2) evs → recorded r bs →
  recorded (fold_left hear evs r) (bs ++ capture_of evs).
Proof.
  revert r bs. induction evs as [|ev evs IH]; intros r bs Hw Hs Hr; [by rewrite app_nil_r|].
  apply Forall_cons in Hw as [Hw1 Hw]. apply Forall_cons in Hs as [Hs1 Hs].
  pose proof (IH _ _ Hw Hs (hear_recorded ev r bs Hw1 Hs1 Hr)) as H. cbn [fold_left].
  replace (bs ++ capture_of (ev :: evs)) with ((bs ++ capture_of [ev]) ++ capture_of evs); [done|].
  rewrite <- app_assoc. f_equal. unfold capture_of. rewrite !filter_cons. by case_decide.
Qed.

(** No pass of the run ends in a short write. *)
Definition all_written (a : Attempt Recorder.Env) : Prop :=
  match at_conn a with
  | Some (_, _, steps) => Forall (λ p, Recorder.short_write (st_env p) = None) steps
  | None => True
  end.

#[global] Instance all_written_dec a : Decision (all_written a).
Proof. unfold all_written. destruct (at_conn a) as [[[? ?] ?]|]; apply _. Defined.

Lemma lives_recorded attempts (rs : list (Life Recorder.Env)) (r : Recorder.t) bs :
  Forall conn_ok attempts → Forall all_written attempts → lived attempts rs → recorded r bs →
  recorded (fold_left live rs r) (bs ++ captured rs) ∧ Forall accepted_batch (captured rs).
Proof.
  intros Hc Hw. revert rs r bs. induction attempts as [|a attempts IH]; intros [|[now evs] rs] r bs Hl Hr;
    try (unfold captured; simpl; rewrite app_nil_r; by split).
  { done. }
  apply Forall_cons in Hc as [Hc1 Hc]. apply Forall_cons in Hw as [Hw1 Hw]. simpl in Hl.
  unfold conn_ok, all_written in *. destruct (at_conn a) as [[[now' net] steps]|]; [|by apply (IH Hc Hw)].
  destruct Hl as (_ & Hh & He & Hl). pose proof (heard_accepted net evs Hc1 Hh) as Hs.
  assert (Forall (λ ev : Event Recorder.Env, Recorder.short_write ev.1 = None) evs) as Hwe.
  { eapply Forall_impl; [exact He|]. intros ev Hin. apply list_elem_of_In, in_map_iff in Hin as (p & <- & Hp).
    eapply Forall_forall in Hw1; [exact Hw1|]. by apply list_elem_of_In. }
  pose proof (hears_recorded evs (on_connect now r) bs Hwe Hs (set_tally_recorded _ r bs Hr)) as H1.
  destruct (IH Hc Hw rs _ (bs ++ capture_of evs) Hl H1) as [H2 H3].
  unfold captured. simpl. rewrite app_assoc. split; [exact H2|]. apply Forall_app. split; [|done].
  unfold capture_of. apply Forall_fmap. apply Forall_forall. intros ev Hev.
  apply list_elem_of_filter in Hev as [[Hk _] Hev]. eapply Forall_forall in Hs; [|exact Hev]. by apply Hs.
Qed.

Lemma make_recorded n start : recorded (Recorder.make n start) [].
Proof. by constructor. Qed.

(** A file of batches, read like a connection. *)
Lemma file_reads calls res s net bs :
  Forall accepted_batch bs → reads calls make_stream (concat (map batch_bytes bs)) = Some (res, s, net) →
  ∃ k, received res = take k bs ∧ Forall (λ x, x.1 ≠ Status.kProtocolError) res ∧
       held s ++ net = concat (map batch_bytes (drop k bs)).
Proof.
  intros Hs E. rewrite <- (app_nil_r (concat _)) in E.
  destruct (reads_batches calls make_stream (concat (map batch_bytes bs) ++ []) res s net bs [])
    as (k & K1 & K2 & K3); try done.
  exists k. by rewrite app_nil_r in K3.
Qed.

Lemma file_reads_all calls bs :
  Forall accepted_batch bs → length calls = length bs →
  Forall (λ answers, Forall keeps_going answers ∧
                     Z.of_nat (length (concat (map batch_bytes bs))) <= data_reads answers) calls →
  ∃ s net, reads calls make_stream (concat (map batch_bytes bs)) = Some (map (pair Status.kOk) bs, s, net).
Proof.
  intros Hs Hl Hc.
  destruct (reads_all calls make_stream (concat (map batch_bytes bs)) bs [] (Z.of_nat (length (concat (map batch_bytes bs)))))
    as (s & net & E & _); try done; [by rewrite app_nil_r|]. by exists s, net.
Qed.

Lemma jump_count_nonneg e l : 0 <= jump_count e l.
Proof.
  revert e. induction l as [|f l IH]; intros e; simpl; [lia|]. destruct (is_echo f); [done|].
  destruct (is_gap f); [done|]. pose proof (IH (Some (u64 (f_seq f + 1)))).
  destruct e as [n|]; [destruct (f_seq f >? n)|]; lia.
Qed.

(** A connection that ended without a protocol error and without a silent jump. *)
Definition clean_life {H} (r : Life H) : Prop :=
  ended_badly r.2 = false ∧ jump_count None (records_of r.2) = 0.

Lemma totals_zero {H} (rs : list (Life H)) :
  0 <= total_jumps rs ∧ 0 <= total_errors rs ∧
  (total_jumps rs = 0 ∧ total_errors rs = 0 ↔
   Forall clean_life rs).
Proof.
  unfold total_jumps, total_errors, clean_life. induction rs as [|r rs (H1 & H2 & IH)]; simpl; [done|].
  pose proof (jump_count_nonneg None (records_of r.2)). rewrite Forall_cons, <- IH.
  destruct (ended_badly r.2); split_and!; try lia; split; intros HH; repeat split; lia || naive_solver lia.
Qed.

(** ** Properties *)

(** C17. The recorder's file is a capture of the streams, byte for byte. For any
    connections, segmentations, timeouts and reconnects, when no [fwrite] is short and no
    probe is received: the file is the concatenation of the wire bytes of every non-empty
    batch that the connections gave, in order, loss markers included; the counts of
    batches and bytes are exact; a reader of the file gets those batches back, all of them
    when it goes on reading; and the process exits 0 exactly when no connect failed for
    good and no connection ended in undecodable bytes. *)
Theorem recorder_captures (fsync_every start : Z) (reconnect : bool)
    (attempts : list (Attempt Recorder.Env)) (failed : bool) (r : Recorder.t) :
  Forall conn_ok attempts → Forall all_written attempts →
  let rs := history reconnect attempts in
  let bs := captured rs in
  Forall (λ f, is_echo f = false) (concat bs) →
  consume reconnect attempts (Recorder.make fsync_every start) = Some (failed, r) →
  lived attempts rs ∧
  Recorder.file r = concat (map batch_bytes bs) ∧
  Recorder.batches r = u64 (Z.of_nat (length bs)) ∧
  Recorder.bytes r = u64 (Z.of_nat (length (Recorder.file r))) ∧
  process_status Recorder.exit_code (failed, r)
  = (if refused reconnect attempts || (u64 (total_errors rs) >? 0) then 1 else 0) ∧
  (∀ calls res s net, reads calls make_stream (Recorder.file r) = Some (res, s, net) →
     ∃ k, received res = take k bs ∧ Forall (λ x, x.1 ≠ Status.kProtocolError) res ∧
          held s ++ net = concat (map batch_bytes (drop k bs))) ∧
  (∀ calls, length calls = length bs →
     Forall (λ answers, Forall keeps_going answers ∧
                        Z.of_nat (length (Recorder.file r)) <= data_reads answers) calls →
     ∃ s net, reads calls make_stream (Recorder.file r) = Some (map (pair Status.kOk) bs, s, net)).
Proof.
  intros Hc Hw rs bs _ Hr. pose proof (history_lived reconnect attempts Hc) as Hl. fold rs in Hl.
  rewrite <- (consume_failed _ _ _ _ _ Hr). apply consume_spec in Hr as ->. fold rs.
  destruct (lives_recorded attempts rs _ [] Hc Hw Hl (make_recorded fsync_every start)) as [[] Hs].
  destruct (tally_live attempts rs (Recorder.make fsync_every start) Hl) as [_ He]; [done|done|].
  split; [done|]. split_and!; try done.
  - unfold process_status, Recorder.exit_code. cbn [fst snd]. rewrite rd_errors0, orb_false_r. cbv zeta in He.
    simpl in He. rewrite He. by destruct failed.
  - intros calls res s net E. rewrite rd_file0 in E. by apply (file_reads calls res s net).
  - intros calls Hn Hd. rewrite rd_file0 in Hd |- *. by apply file_reads_all.
Qed.

(** C18. The exit status is evidence. For the programs that exit with the status of their
    tally (the probe and the cadence checker), over any connections and reconnects: the
    connections of the run are those the kernel granted, heard as their bytes dictate; the
    count of silent jumps is the number of frames that arrived ahead of the position the
    records of their connection announced, the count of protocol errors the number of
    connections that ended in undecodable bytes; and the process exits 0 exactly when no
    connect failed for good and no connection has either. *)
Theorem consumer_exit_status {C H} `{!Consumer C H, !Tallied C H, !Judge C H} (reconnect : bool)
    (attempts : list (Attempt H)) (c c' : C) (failed : bool) :
  Forall conn_ok attempts → tally_of c = tally_zero →
  consume reconnect attempts c = Some (failed, c') →
  let rs := history reconnect attempts in
  lived attempts rs ∧
  gs_silent_jumps (gt_s (ty_gaps (tally_of c'))) = u64 (total_jumps rs) ∧
  ty_protocol_errs (tally_of c') = u64 (total_errors rs) ∧
  (total_jumps rs + total_errors rs < 2 ^ 64 →
   process_status verdict (failed, c') = 0 ↔ refused reconnect attempts = false ∧ Forall clean_life rs).
Proof.
  intros Hc Hz Hr rs. pose proof (history_lived reconnect attempts Hc) as Hl. fold rs in Hl.
  rewrite <- (consume_failed _ _ _ _ _ Hr). apply consume_spec in Hr as ->. fold rs.
  destruct (tally_live attempts rs c Hl) as [Hj He]; rewrite ?Hz; [done|done|].
  rewrite Hz in Hj, He. split; [done|]. split; [done|]. split; [done|]. intros Hb.
  destruct (totals_zero rs) as (T1 & T2 & <-). unfold process_status. cbn [fst snd]. rewrite verdict_tally. unfold exit_status.
  change (u64 (gs_silent_jumps (gt_s (ty_gaps tally_zero)) + total_jumps rs)) with (u64 (total_jumps rs)) in Hj.
  change (u64 (ty_protocol_errs tally_zero + total_errors rs)) with (u64 (total_errors rs)) in He.
  rewrite u64_small in Hj, He by (unfold fits; lia). rewrite Hj, He, !Z.gtb_ltb.
  destruct failed; [naive_solver lia|].
  destruct (Z.ltb_spec 0 (total_errors rs)), (Z.ltb_spec 0 (total_jumps rs)); simpl; naive_solver lia.
Qed.

(** ** Witnesses *)

Definition wire_frame (s : Z) : Frame := mkFrame s 5 6 256 1 8 0 0 [1; 2; 3; 4; 5; 6; 7; 8].

(** One connection: a batch with a probe in it, then an unannounced jump from 1 to 5. *)
Definition demo_stream : list (list Frame) := [[wire_frame 0; make_echo 9 1]; [wire_frame 5]].

Definition demo_step {H} (h : H) : Step H :=
  mkStep true [RdSome 7; RdIntr; RdSome 100; RdSome 100] [[mkSend 56 EAgain 0 false false]] h.

Definition demo_attempts {H} (h : H) : list (Attempt H) :=
  [mkAttempt true (Some (1, concat (map batch_bytes demo_stream),
     [demo_step h; mkStep true [RdAgainTimeout] [] h; demo_step h; mkStep false [] [] h]))].

(** The same without the probe. *)
Definition plain_attempts {H} (h : H) : list (Attempt H) :=
  [mkAttempt true (Some (1, concat (map batch_bytes [[wire_frame 0]; [wire_frame 5]]),
     [demo_step h; mkStep true [RdAgainTimeout] [] h; demo_step h; mkStep false [] [] h]))].

Lemma recorder_captures_witness :
  ∃ r, consume false (plain_attempts (Recorder.mkEnv 1 None 2 3)) (Recorder.make 0 0) = Some (false, r) ∧
    Recorder.file r = concat (map batch_bytes [[wire_frame 0]; [wire_frame 5]]).
Proof.
  assert (∃ r, consume false (plain_attempts (Recorder.mkEnv 1 None 2 3)) (Recorder.make 0 0)
               = Some (false, r)) as [r E] by (eexists; vm_compute; reflexivity).
  assert (captured (history false (plain_attempts (Recorder.mkEnv 1 None 2 3)))
          = [[wire_frame 0]; [wire_frame 5]]) as Eb by (vm_compute; reflexivity).
  pose proof (recorder_captures 0 0 false (plain_attempts (Recorder.mkEnv 1 None 2 3)) false r
                ltac:(apply (bool_decide_unpack _); vm_compute; exact I)
                ltac:(apply (bool_decide_unpack _); vm_compute; exact I)) as T.
  cbv zeta in T. rewrite Eb in T.
  destruct (T ltac:(repeat constructor) E) as (_ & H2 & _).
  exists r. split; [exact E|exact H2].
Defined.

Lemma consumer_exit_status_witness :
  ∃ c, consume false (demo_attempts (Probe.mkEnv 1 2 3)) (Probe.make false false 0 0) = Some (false, c) ∧
    total_jumps (history false (demo_attempts (Probe.mkEnv 1 2 3))) = 1 ∧
    process_status verdict (false, c) ≠ 0.
Proof.
  assert (∃ c, consume false (demo_attempts (Probe.mkEnv 1 2 3)) (Probe.make false false 0 0)
               = Some (false, c)) as (c & E) by (eexists; vm_compute; reflexivity).
  destruct (consumer_exit_status false (demo_attempts (Probe.mkEnv 1 2 3)) (Probe.make false false 0 0) c
              false ltac:(apply (bool_decide_unpack _); vm_compute; exact I) eq_refl E)
    as (_ & _ & _ & Hx).
  exists c. split; [exact E|]. split; [vm_compute; reflexivity|].
  rewrite (Hx ltac:(vm_compute; reflexivity)). intros [_ Hc].
  destruct (totals_zero (history false (demo_attempts (Probe.mkEnv 1 2 3)))) as (_ & _ & Ht).
  apply Ht in Hc as [Hj _]. revert Hj. vm_compute. discriminate.
Defined.

(** The recorder writes the probes it answers and counts them as frames: two bus frames
    were sent in [demo_stream], and three are reported. *)
Lemma recorder_counts_probes :
  ∃ r, consume false (demo_attempts (Recorder.mkEnv 1 None 2 3)) (Recorder.make 0 0) = Some (false, r) ∧
       Recorder.frames r = 3 ∧ gs_frames (gt_s (ty_gaps (Recorder.tally r))) = 2.
Proof. eexists. split; [vm_compute; reflexivity|]. split; reflexivity. Qed.
