(* ===== verification/View.v ===== *)
(** * View: the live viewer (src/src/view_main.cpp)

    The state behind the web page: the rolling latency window, the bounded table of CAN
    ids, the recent frames and the rate history, updated as one more [Consumer]; and the
    routes of its HTTP handler. The JSON text is in [StatsJson], the page in [Page]. *)

From stdpp Require Import gmap.
From Stdlib Require Import SpecFloat Ascii String.
From S2P Require Import Prelude Frame Wire Doubles Samples GapTracker Egress FrameStream Sources Consumers.
Open Scope Z_scope.

(** ** The rolling latency window *)

Module RollingLatency.
Definition kWindowNs : Z := 10000000000.
Definition kMaxSamples : Z := 65536.

(** The deque is a list, oldest first, of when each sample was taken and its value. The
    loop that drops the oldest samples: *)
Fixpoint trim (cutoff : Z) (l : list (Z * Z)) : list (Z * Z) :=
  match l with
  | [] => []
  | s :: rest =>
      if (s.1 <? cutoff) || (Z.of_nat (length l) >? kMaxSamples) then trim cutoff rest else l
  end.

Definition add (now v : Z) (l : list (Z * Z)) : list (Z * Z) :=
  let cutoff := if now >? kWindowNs then now - kWindowNs else 0 in
  trim cutoff (l ++ [(now, v)]).

Definition values (l : list (Z * Z)) : list Z := map snd l.

Definition span_s (l : list (Z * Z)) : spec_float :=
  match l with
  | first :: _ :: _ =>
      double_div (double_of (u64 ((List.last l first).1 - first.1))) (double_of 1000000000)
  | _ => double_of 0
  end.
End RollingLatency.

(** ** The state *)

Definition kRateWindow : nat := 60.
Definition kRecentFrames : nat := 40.
Definition kMaxIds : nat := 256.

Record IdStat := mkIdStat {
  id_count : Z;
  id_last_seen_ns : Z;
  id_src : Z;
  id_len : Z;
  id_data : list Z
}.

Record View := mkView {
  v_connected : bool;
  v_frames : Z;
  v_batches : Z;
  v_reconnects : Z;
  v_tally : Tally;
  v_first_seq : Z;
  v_last_seq : Z;
  v_have_seq : bool;
  v_ids : gmap Z IdStat;
  v_recent : list Frame;
  v_rate : list Z;
  v_rate_pos : Z;
  v_frames_at_tick : Z;
  v_latency : list (Z * Z);
  v_off_domain : Z;
  v_next_tick : Z
}.

Definition make_view (next_tick : Z) : View :=
  mkView false 0 0 0 tally_zero 0 0 false ∅ [] (replicate kRateWindow 0) 0 0 [] 0 next_tick.

Definition set_tally (ty : Tally) (v : View) : View :=
  mkView (v_connected v) (v_frames v) (v_batches v) (v_reconnects v) ty (v_first_seq v) (v_last_seq v)
    (v_have_seq v) (v_ids v) (v_recent v) (v_rate v) (v_rate_pos v) (v_frames_at_tick v) (v_latency v)
    (v_off_domain v) (v_next_tick v).

Definition set_connected (b : bool) (v : View) : View :=
  mkView b (v_frames v) (v_batches v) (v_reconnects v) (v_tally v) (v_first_seq v) (v_last_seq v)
    (v_have_seq v) (v_ids v) (v_recent v) (v_rate v) (v_rate_pos v) (v_frames_at_tick v) (v_latency v)
    (v_off_domain v) (v_next_tick v).

(** The block after a successful connect. *)
Definition view_connect (v : View) : View :=
  mkView true (v_frames v) (v_batches v) (u64 (v_reconnects v + 1)) (tally_connect (v_tally v))
    (v_first_seq v) (v_last_seq v) (v_have_seq v) (v_ids v) (v_recent v) (v_rate v) (v_rate_pos v)
    (v_frames_at_tick v) (v_latency v) (v_off_domain v) (v_next_tick v).

Definition count_batch (v : View) : View :=
  mkView (v_connected v) (v_frames v) (u64 (v_batches v + 1)) (v_reconnects v) (v_tally v)
    (v_first_seq v) (v_last_seq v) (v_have_seq v) (v_ids v) (v_recent v) (v_rate v) (v_rate_pos v)
    (v_frames_at_tick v) (v_latency v) (v_off_domain v) (v_next_tick v).

(** The table update: a new id is admitted only while there is room. *)
Definition update_ids (now : Z) (f : Frame) (ids : gmap Z IdStat) : gmap Z IdStat :=
  let ids := match ids !! f_can_id f with
             | None => if decide (size ids < kMaxIds)%nat
                       then <[f_can_id f := mkIdStat 0 0 0 0 (replicate 8 0)]> ids else ids
             | Some _ => ids
             end in
  match ids !! f_can_id f with
  | Some s => <[f_can_id f := mkIdStat (u64 (id_count s + 1)) now (f_src_id f) (f_len f) (f_data f)]> ids
  | None => ids
  end.

Definition push_recent (f : Frame) (l : list Frame) : list Frame :=
  let l := l ++ [f] in if (kRecentFrames <? length l)%nat then tail l else l.

(** The body of the frame loop for a real frame. *)
Definition take_real (now : Z) (f : Frame) (v : View) : View :=
  let delay := s64 now - s64 (f_t_ingest_ns f) in
  let same := same_clock_domain delay in
  mkView (v_connected v) (u64 (v_frames v + 1)) (v_batches v) (v_reconnects v) (v_tally v)
    (if v_have_seq v then v_first_seq v else f_seq f) (f_seq f) true (update_ids now f (v_ids v))
    (push_recent f (v_recent v)) (v_rate v) (v_rate_pos v) (v_frames_at_tick v)
    (if same then RollingLatency.add now delay (v_latency v) else v_latency v)
    (if same then v_off_domain v else u64 (v_off_domain v + 1)) (v_next_tick v).

Definition view_frame (now : Z) (f : Frame) (v : View) : View :=
  let real := (GapTracker.observe (ty_gaps (v_tally v)) f).2 in
  let v := set_tally (tally_frame f (v_tally v)) v in
  if real then take_real now f v else v.

(** The once-a-second rate history. *)
Definition tick (now : Z) (v : View) : View :=
  if now >=? v_next_tick v then
    mkView (v_connected v) (v_frames v) (v_batches v) (v_reconnects v) (v_tally v) (v_first_seq v)
      (v_last_seq v) (v_have_seq v) (v_ids v) (v_recent v)
      (<[Z.to_nat (v_rate_pos v) := u64 (v_frames v - v_frames_at_tick v)]> (v_rate v))
      ((v_rate_pos v + 1) mod Z.of_nat kRateWindow) (v_frames v) (v_latency v) (v_off_domain v)
      (u64 (now + 1000000000))
  else v.

(** [Z]: the reading of the clock after the read. *)
#[export] Instance view_consumer : Consumer View Z := {
  on_connect _ := view_connect;
  begin_read _ st b v := match st, b with Status.kOk, _ :: _ => count_batch v | _, _ => v end;
  take_frame := view_frame;
  end_read now st _ v := tick now (set_tally (tally_end st (v_tally v)) v);
  on_disconnect := set_connected false
}.

#[export] Instance view_tallied : Tallied View Z.
Proof.
  refine {| tally_of := v_tally |}; try done.
  - by intros h [] [|f b] v.
  - intros h f v. simpl. unfold view_frame. by destruct (GapTracker.observe _ f).2.
  - intros h st b v. simpl. unfold tick. by case_match.
Defined.

(** ** Text *)

Definition kHex : string := "0123456789ABCDEF"%string.

Definition hex_digit (n : Z) : ascii := default "0"%char (String.get (Z.to_nat n) kHex).

Definition hex_payload (f : Frame) : list ascii :=
  concat (map (λ b, [hex_digit (Z.shiftr b 4); hex_digit (Z.land b 15)])
              (take (Z.to_nat (f_len f)) (f_data f))).

(** ** Lemmas: the window *)

Section Window.
Import RollingLatency.

Lemma trim_suffix cutoff l : ∃ k, trim cutoff l = drop k l ∧ Z.of_nat (length (trim cutoff l)) <= kMaxSamples.
Proof.
  induction l as [|s l IH]; [by exists 0%nat|]. cbn [trim].
  destruct (_ || _) eqn:E.
  - destruct IH as (k & H1 & H2). exists (S k). done.
  - exists 0%nat. split; [done|]. apply orb_false_iff in E as [_ E]. rewrite Z.gtb_ltb in E.
    apply Z.ltb_ge in E. done.
Qed.

(** Samples in the order they were taken. *)
Fixpoint timed (n : Z) (l : list (Z * Z)) : Prop :=
  match l with [] => True | s :: l => n <= s.1 ∧ timed s.1 l end.

#[global] Instance timed_dec n l : Decision (timed n l).
Proof. revert n. induction l; intros n; simpl; apply _. Defined.

Lemma timed_le n m l : n <= m → timed m l → timed n l.
Proof. destruct l; simpl; [done|]. intuition lia. Qed.

Lemma timed_snoc n l x :
  timed n (l ++ [x]) ↔ timed n l ∧ n <= x.1 ∧ Forall (λ s, s.1 <= x.1) l.
Proof.
  revert n. induction l as [|s l IH]; intros n; simpl; [intuition constructor|].
  rewrite IH, Forall_cons. intuition lia.
Qed.

Lemma timed_filter n c l : timed n l → c <= n → filter (λ s, c <= s.1) l = l.
Proof.
  revert n. induction l as [|s l IH]; intros n; [done|]. intros [H1 H2] Hc.
  rewrite filter_cons_True by lia. f_equal. apply (IH s.1); [done|lia].
Qed.

(** On a window in order, dropping from the front keeps the newest samples that are
    young enough. *)
Lemma trim_timed n c l : timed n l → trim c l = lastn (Z.to_nat kMaxSamples) (filter (λ s, c <= s.1) l).
Proof.
  revert n. induction l as [|s l IH]; intros n Ht; [done|]. pose proof Ht as [H1 H2]. cbn [trim].
  destruct (Z.ltb_spec s.1 c) as [Hlt|Hge]; simpl orb; cbv iota.
  - rewrite filter_cons_False by lia. by apply (IH s.1).
  - rewrite (timed_filter s.1 c (s :: l)); [|simpl; split; [lia|done]|done]. rewrite Z.gtb_ltb.
    destruct (kMaxSamples <? _) eqn:Hl; [apply Z.ltb_lt in Hl|apply Z.ltb_ge in Hl].
    + rewrite (IH s.1), (timed_filter s.1 c l) by done. unfold lastn.
      cbn [length] in *. unfold kMaxSamples in *.
      replace (S (length l) - Z.to_nat 65536)%nat with (S (length l - Z.to_nat 65536)) by lia.
      reflexivity.
    + rewrite lastn_all; [done|]. cbn [length] in *. lia.
Qed.

Definition cutoff_of (now : Z) : Z := if now >? kWindowNs then now - kWindowNs else 0.

Lemma cutoff_mono a b : a <= b → cutoff_of a <= cutoff_of b.
Proof.
  intros. unfold cutoff_of. rewrite !Z.gtb_ltb.
  destruct (Z.ltb_spec kWindowNs a), (Z.ltb_spec kWindowNs b); unfold kWindowNs in *; lia.
Qed.

Lemma timed_drop n k l : timed n l → timed n (drop k l).
Proof.
  revert n k. induction l as [|s l IH]; intros n [|k] H; simpl in *; try done.
  apply IH. eapply timed_le; [|apply H]. lia.
Qed.

(** Filtering a suffix of an ordered window, when it is long enough to matter. *)
Lemma filter_lastn n c m l :
  timed n l → lastn m (filter (λ s, c <= s.1) (lastn m l)) = lastn m (filter (λ s, c <= s.1) l).
Proof.
  revert n. induction l as [|s l IH]; intros n Ht; [done|]. destruct Ht as [H1 H2].
  destruct (decide (S (length l) <= m)%nat) as [Hle|Hgt].
  { by rewrite (lastn_all m (s :: l)) by done. }
  assert (lastn m (s :: l) = lastn m l) as Es.
  { unfold lastn. simpl length. by replace (S (length l) - m)%nat with (S (length l - m)) by lia. }
  rewrite Es, (IH s.1 H2), filter_cons. destruct (decide (c <= s.1)) as [Hc|Hc]; [|done].
  rewrite (timed_filter s.1 c l) by done. by rewrite Es.
Qed.

Lemma filter_young c d (l : list (Z * Z)) :
  c <= d → filter (λ s, d <= s.1) (filter (λ s, c <= s.1) l) = filter (λ s, d <= s.1) l.
Proof.
  intros H. rewrite list_filter_filter. apply list_filter_iff. intros s. lia.
Qed.

Lemma timed_filter_pres n c l : timed n l → timed n (filter (λ s, c <= s.1) l).
Proof.
  revert n. induction l as [|s l IH]; intros n; [done|]. intros [H1 H2]. rewrite filter_cons.
  destruct (decide _); simpl; [split; [done|by apply IH]|]. apply IH. by eapply timed_le.
Qed.

(** Any sequence of additions in the order of the clock. *)
Definition adds (l : list (Z * Z)) : list (Z * Z) := fold_left (λ w s, add s.1 s.2 w) l [].

Lemma adds_spec l x :
  timed 0 (l ++ [x]) →
  adds (l ++ [x]) = lastn (Z.to_nat kMaxSamples) (filter (λ s, cutoff_of x.1 <= s.1) (l ++ [x])).
Proof.
  revert x. induction l as [|y l IH] using rev_ind; intros x Ht.
  { destruct x as [now v]. exact (trim_timed 0 (cutoff_of now) [(now, v)] Ht). }
  apply timed_snoc in Ht as (Ht & H0 & Hle). pose proof (IH y Ht) as E.
  unfold adds in *. rewrite fold_left_app. cbn [fold_left]. rewrite E.
  assert (y.1 <= x.1) as Hyx by (apply Forall_app in Hle as [_ Hle]; apply Forall_cons in Hle; apply Hle).
  set (w := filter (λ s, cutoff_of y.1 <= s.1) (l ++ [y])).
  assert (timed 0 (lastn (Z.to_nat kMaxSamples) w ++ [x])) as Htw.
  { apply timed_snoc. split; [by apply timed_drop, timed_filter_pres|]. split; [done|].
    apply Forall_drop, Forall_forall. intros s Hs. apply list_elem_of_filter in Hs as [_ Hs].
    by eapply Forall_forall in Hle. }
  unfold add. fold (cutoff_of x.1). replace (x.1, x.2) with x by (by destruct x).
  rewrite (trim_timed 0) by done. rewrite !filter_app, <- (lastn_app _ (filter _ (lastn _ w))).
  rewrite (filter_lastn 0) by (by apply timed_filter_pres). rewrite lastn_app. f_equal. f_equal.
  unfold w. rewrite filter_young by (by apply cutoff_mono). by rewrite filter_app.
Qed.
End Window.

(** ** Lemmas: the state *)

(** The real frames of a connection, each with the clock reading of its batch. *)
Definition taken_of (evs : list (Event Z)) : list (Z * Frame) :=
  concat (map (λ ev, if bool_decide (ev.2.1 = Status.kOk)
                     then map (λ f, (ev.1, f)) (filter (λ f, is_control f = false) ev.2.2) else []) evs).

Definition taken (rs : list (Life Z)) : list (Z * Frame) := concat (map (λ r, taken_of r.2) rs).

Definition seen_count (id : Z) (tk : list (Z * Frame)) : Z :=
  Z.of_nat (length (filter (λ x, f_can_id x.2 = id) tk)).

Definition delay_of (x : Z * Frame) : Z := s64 x.1 - s64 (f_t_ingest_ns x.2).

(** The latency samples of the frames whose time stamp is of this machine's clock. *)
Definition delays (tk : list (Z * Frame)) : list (Z * Z) :=
  map (λ x, (x.1, delay_of x)) (filter (λ x, same_clock_domain (delay_of x) = true) tk).

Record view_ok (v : View) (tk : list (Z * Frame)) : Prop := {
  vo_frames : v_frames v = u64 (Z.of_nat (length tk));
  vo_recent : v_recent v = lastn kRecentFrames (map snd tk);
  vo_seq : match tk with
           | [] => v_have_seq v = false
           | x :: _ => v_have_seq v = true ∧ v_first_seq v = f_seq x.2 ∧
                       v_last_seq v = f_seq (List.last tk x).2
           end;
  vo_size : (size (v_ids v) <= kMaxIds)%nat;
  vo_ids id s : v_ids v !! id = Some s → id_count s = u64 (seen_count id tk);
  vo_known : Forall (λ x, is_Some (v_ids v !! f_can_id x.2) ∨ size (v_ids v) = kMaxIds) tk;
  vo_latency : v_latency v = adds (delays tk);
  vo_off : v_off_domain v = u64 (Z.of_nat (length tk - length (delays tk)));
  vo_rate : length (v_rate v) = kRateWindow ∧ 0 <= v_rate_pos v < Z.of_nat kRateWindow
}.

Lemma seen_count_snoc id tk now f :
  seen_count id (tk ++ [(now, f)]) = seen_count id tk + (if decide (f_can_id f = id) then 1 else 0).
Proof.
  unfold seen_count. rewrite filter_app, length_app, filter_cons. simpl.
  destruct (decide (f_can_id f = id)); simpl; lia.
Qed.

Lemma seen_count_zero id tk (ids : gmap Z IdStat) :
  Forall (λ x, is_Some (ids !! f_can_id x.2) ∨ size ids = kMaxIds) tk →
  ids !! id = None → (size ids < kMaxIds)%nat → seen_count id tk = 0.
Proof.
  intros H Hn Hs. unfold seen_count. induction H as [|x l [[s Hx]|Hx] _ IH]; [done| |lia].
  rewrite filter_cons_False; [done|]. intros <-. by rewrite Hn in Hx.
Qed.

Lemma update_ids_spec now f tk ids :
  (size ids <= kMaxIds)%nat → (∀ id s, ids !! id = Some s → id_count s = u64 (seen_count id tk)) →
  Forall (λ x, is_Some (ids !! f_can_id x.2) ∨ size ids = kMaxIds) tk →
  let ids' := update_ids now f ids in
  (size ids' <= kMaxIds)%nat ∧
  (∀ id s, ids' !! id = Some s → id_count s = u64 (seen_count id (tk ++ [(now, f)]))) ∧
  Forall (λ x, is_Some (ids' !! f_can_id x.2) ∨ size ids' = kMaxIds) (tk ++ [(now, f)]).
Proof.
  intros Hsz Hc Hk. set (id := f_can_id f). unfold update_ids. fold id.
  assert (∀ (ids1 : gmap Z IdStat) s, (size ids1 <= kMaxIds)%nat → ids1 !! id = Some s → id_count s = u64 (seen_count id tk) →
    (∀ j, j ≠ id → ids1 !! j = ids !! j) → (size ids <= size ids1)%nat →
    let ids' := <[id := mkIdStat (u64 (id_count s + 1)) now (f_src_id f) (f_len f) (f_data f)]> ids1 in
    (size ids' <= kMaxIds)%nat ∧
    (∀ j s, ids' !! j = Some s → id_count s = u64 (seen_count j (tk ++ [(now, f)]))) ∧
    Forall (λ x, is_Some (ids' !! f_can_id x.2) ∨ size ids' = kMaxIds) (tk ++ [(now, f)])) as Hput.
  { intros ids1 s Hs1 Hid Hcs Hsame Hle. assert (size (<[id:=mkIdStat (u64 (id_count s + 1)) now (f_src_id f)
      (f_len f) (f_data f)]> ids1) = size ids1) as Esz by (by rewrite map_size_insert_Some).
    cbv zeta. rewrite Esz. split; [done|]. split.
    - intros j s' Hj. rewrite seen_count_snoc. fold id. destruct (decide (id = j)) as [<-|Hne].
      + rewrite lookup_insert_eq in Hj. injection Hj as <-. simpl. by rewrite Hcs, u64_add_l.
      + rewrite lookup_insert_ne, Hsame in Hj by done. rewrite Z.add_0_r. by apply Hc.
    - apply Forall_app. split.
      + eapply Forall_impl; [exact Hk|]. intros x [Hx|Hx]; [left|right; lia].
        destruct (decide (f_can_id x.2 = id)) as [E|E]; [rewrite E, lookup_insert_eq; done|].
        by rewrite lookup_insert_ne, Hsame by done.
      + constructor; [|done]. left. simpl. fold id. by rewrite lookup_insert_eq. }
  destruct (ids !! id) as [s|] eqn:Ei.
  { rewrite Ei. apply (Hput ids s); try done. by apply Hc. }
  destruct (decide (size ids < kMaxIds)%nat) as [Hlt|Hge].
  - rewrite lookup_insert_eq. apply Hput.
    + rewrite map_size_insert_None by done. lia.
    + apply lookup_insert_eq.
    + simpl. by rewrite (seen_count_zero id tk ids).
    + intros j Hj. by rewrite lookup_insert_ne.
    + rewrite map_size_insert_None by done. lia.
  - rewrite Ei. cbv zeta. split; [done|]. split.
    + intros j s Hj. rewrite seen_count_snoc. fold id. rewrite decide_False by congruence.
      rewrite Z.add_0_r. by apply Hc.
    + apply Forall_app. split; [done|]. constructor; [|done]. right. lia.
Qed.

Lemma push_recent_spec f l : push_recent f (lastn kRecentFrames l) = lastn kRecentFrames (l ++ [f]).
Proof.
  unfold push_recent. rewrite <- lastn_app. rewrite length_app, length_lastn. simpl length.
  destruct (Nat.ltb_spec kRecentFrames (Nat.min kRecentFrames (length l) + 1)) as [H|H].
  - unfold lastn at 2. rewrite length_app, length_lastn. simpl length.
    replace (Nat.min kRecentFrames (length l) + 1 - kRecentFrames)%nat with 1%nat by lia.
    by destruct (lastn kRecentFrames l ++ [f]).
  - rewrite (lastn_all kRecentFrames (_ ++ [f])); [done|].
    rewrite length_app, length_lastn. cbn [length]. lia.
Qed.

Lemma take_real_ok now f v tk : view_ok v tk → view_ok (take_real now f v) (tk ++ [(now, f)]).
Proof.
  intros [H1 H2 H3 H4 H5 H6 H7 H8 H9].
  destruct (update_ids_spec now f tk (v_ids v) H4 H5 H6) as (K1 & K2 & K3).
  assert (length (delays tk) <= length tk)%nat as Hdl.
  { unfold delays. rewrite length_map. apply length_filter. }
  assert (delays (tk ++ [(now, f)]) = delays tk ++
    (if same_clock_domain (s64 now - s64 (f_t_ingest_ns f)) then [(now, s64 now - s64 (f_t_ingest_ns f))] else []))
    as Ed.
  { unfold delays. rewrite filter_app, map_app. f_equal. rewrite filter_cons. unfold delay_of. simpl.
    destruct (same_clock_domain _); [by rewrite decide_True|by rewrite decide_False]. }
  constructor; cbn [take_real v_frames v_recent v_have_seq v_first_seq v_last_seq v_ids v_latency
    v_off_domain v_rate v_rate_pos]; try done.
  - rewrite H1, u64_add_l, length_app. f_equal. simpl. lia.
  - rewrite H2, map_app. apply push_recent_spec.
  - destruct tk as [|x tk]; simpl app.
    + rewrite H3. done.
    + destruct H3 as (-> & -> & _). split; [done|]. split; [done|].
      change (x :: tk ++ [(now, f)]) with ((x :: tk) ++ [(now, f)]). by rewrite List.last_last.
  - rewrite Ed, H7. unfold adds. rewrite fold_left_app. by destruct (same_clock_domain _).
  - rewrite Ed, H8, !length_app. destruct (same_clock_domain _); simpl length.
    + f_equal. lia.
    + rewrite u64_add_l. f_equal. lia.
Qed.

Lemma set_tally_ok ty v tk : view_ok v tk → view_ok (set_tally ty v) tk.
Proof. by intros []. Qed.

Lemma view_frame_ok now f v tk :
  is_echo f = false → view_ok v tk →
  view_ok (view_frame now f v) (tk ++ (if is_control f then [] else [(now, f)])).
Proof.
  intros He Hv. unfold view_frame, GapTracker.observe. rewrite is_control_or, He. simpl.
  destruct (is_gap f); simpl; [rewrite app_nil_r; by apply set_tally_ok|].
  by apply take_real_ok, set_tally_ok.
Qed.

Lemma view_frames_ok now l v tk :
  view_ok v tk →
  view_ok (fold_left (λ v f, view_frame now f v) (filter (λ f, is_echo f = false) l) v)
    (tk ++ map (λ f, (now, f)) (filter (λ f, is_control f = false) l)).
Proof.
  revert v tk. induction l as [|f l IH]; intros v tk Hv; [by rewrite app_nil_r|].
  rewrite !filter_cons. destruct (decide (is_echo f = false)) as [He|He].
  - pose proof (IH _ _ (view_frame_ok now f v tk He Hv)) as H. cbn [fold_left].
    destruct (is_control f) eqn:Ec.
    + rewrite decide_False by done. by rewrite app_nil_r in H.
    + rewrite decide_True by done. by rewrite <- app_assoc in H.
  - rewrite decide_False; [by apply IH|]. rewrite is_control_or. by destruct (is_echo f), (is_gap f).
Qed.

Lemma tick_ok now v tk : view_ok v tk → view_ok (tick now v) tk.
Proof.
  intros Hv. unfold tick. case_match; [|done]. destruct Hv as [H1 H2 H3 H4 H5 H6 H7 H8 [H9 H10]].
  constructor; try done. simpl. rewrite length_insert. split; [done|].
  pose proof (Z.mod_pos_bound (v_rate_pos v + 1) 60). unfold kRateWindow. lia.
Qed.

Lemma hear_ok (ev : Event Z) v tk : view_ok v tk → view_ok (hear v ev) (tk ++ taken_of [ev]).
Proof.
  destruct ev as [now [st b]]. intros Hv. unfold taken_of. simpl. rewrite app_nil_r.
  apply tick_ok, set_tally_ok.
  assert (view_ok match st, b with Status.kOk, _ :: _ => count_batch v | _, _ => v end tk) as Hb.
  { destruct st, b; try done. by destruct Hv. }
  destruct (bool_decide (st = Status.kOk)); [by apply view_frames_ok|by rewrite app_nil_r].
Qed.

Lemma hears_ok evs v tk : view_ok v tk → view_ok (fold_left hear evs v) (tk ++ taken_of evs).
Proof.
  revert v tk. induction evs as [|ev evs IH]; intros v tk Hv; [by rewrite app_nil_r|].
  pose proof (IH _ _ (hear_ok ev v tk Hv)) as H. rewrite <- app_assoc in H.
  unfold taken_of in *. cbn [fold_left]. simpl map in *. simpl concat in *. by rewrite app_nil_r in H.
Qed.

Lemma live_ok (rs : list (Life Z)) v tk : view_ok v tk → view_ok (fold_left live rs v) (tk ++ taken rs).
Proof.
  revert v tk. induction rs as [|[now evs] rs IH]; intros v tk Hv; [by rewrite app_nil_r|].
  assert (view_ok (view_connect v) tk) as H1 by (by destruct Hv).
  pose proof (hears_ok evs _ tk H1) as H2.
  assert (view_ok (live v (now, evs)) (tk ++ taken_of evs)) as H3 by (by destruct H2).
  pose proof (IH _ _ H3) as H. rewrite <- app_assoc in H. exact H.
Qed.

Lemma make_view_ok next_tick : view_ok (make_view next_tick) [].
Proof. constructor; try done. simpl. unfold kMaxIds. rewrite map_size_empty. lia. Qed.

(** ** Properties *)

(** C21. The viewer's state is bounded and exact. Over any connections, reconnects and
    batches, the connections being those the kernel granted, heard as their bytes dictate:
    it counts the real frames (no markers, no probes) of all of them; the recent list is
    the last 40 of those frames; the id table never exceeds 256 entries, the count of
    every id in it is the number of frames of that id, and every id received is in it
    unless it is full; and the latency window holds, when the clock does not go back,
    exactly the newest 65536 samples of the last ten seconds among the frames stamped by
    this machine's clock, the others being counted as off-domain. *)
Theorem view_bounded_exact (attempts : list (Attempt Z)) (next_tick : Z) (failed : bool) (v : View) :
  Forall conn_ok attempts → consume true attempts (make_view next_tick) = Some (failed, v) →
  let rs := history true attempts in
  let tk := taken rs in
  lived attempts rs ∧
  v_frames v = u64 (Z.of_nat (length tk)) ∧
  v_recent v = lastn kRecentFrames (map snd tk) ∧
  (size (v_ids v) <= kMaxIds)%nat ∧
  (∀ id s, v_ids v !! id = Some s → id_count s = u64 (seen_count id tk)) ∧
  Forall (λ x, is_Some (v_ids v !! f_can_id x.2) ∨ size (v_ids v) = kMaxIds) tk ∧
  v_off_domain v = u64 (Z.of_nat (length tk - length (delays tk))) ∧
  (∀ ds d, delays tk = ds ++ [d] → timed 0 (delays tk) →
     v_latency v = lastn (Z.to_nat RollingLatency.kMaxSamples)
                     (filter (λ s, cutoff_of d.1 <= s.1) (delays tk))).
Proof.
  intros Hc Hr rs tk. apply consume_spec in Hr as ->. fold rs.
  destruct (live_ok rs _ _ (make_view_ok next_tick)) as [H1 H2 _ H4 H5 H6 H7 H8 _].
  split; [by apply history_lived|]. split_and!; try done. intros ds d E Ht. simpl app in H7.
  fold tk in H7. rewrite H7, E. rewrite E in Ht. by apply adds_spec.
Qed.

(** ** Witnesses *)

Definition view_frame_at (s id t : Z) : Frame := mkFrame s 5 t id 1 2 0 0 [171; 1; 0; 0; 0; 0; 0; 0].

Definition view_attempts : list (Attempt Z) :=
  [mkAttempt true None;
   mkAttempt true (Some (1, concat (map batch_bytes
       [[view_frame_at 0 256 100; view_frame_at 1 512 99000000000]; [view_frame_at 2 256 200]]),
     [mkStep true [RdSome 1000; RdSome 1000] [] 150; mkStep true [RdSome 1000; RdSome 1000] [] 300;
      mkStep true [RdEof] [] 400]));
   mkAttempt false None].

Lemma view_bounded_exact_witness :
  ∃ v, consume true view_attempts (make_view 0) = Some (false, v) ∧
    v_frames v = 3 ∧ id_count <$> v_ids v !! 256 = Some 2 ∧
    u64 (seen_count 256 (taken (history true view_attempts))) = 2 ∧
    v_latency v = [(150, 50); (300, 100)] ∧ v_off_domain v = 1.
Proof.
  assert (∃ v, consume true view_attempts (make_view 0) = Some (false, v) ∧
      id_count <$> v_ids v !! 256 = Some 2 ∧ v_latency v = [(150, 50); (300, 100)] ∧ v_off_domain v = 1)
    as (v & E & H1 & H2 & H3)
    by (eexists; split; [vm_compute; reflexivity|]; split; [reflexivity|]; split; reflexivity).
  destruct (view_bounded_exact view_attempts 0 false v
              ltac:(apply (bool_decide_unpack _); vm_compute; exact I) E)
    as (_ & Hf & _ & _ & Hid & _).
  exists v. split; [exact E|]. split; [rewrite Hf; vm_compute; reflexivity|]. split; [exact H1|].
  split; [|exact (conj H2 H3)].
  destruct (v_ids v !! 256) as [s|] eqn:Es; [|discriminate H1].
  rewrite <- (Hid 256 s Es). injection H1 as H1. exact H1.
Defined.

Lemma hex_payload_example : hex_payload (view_frame_at 0 256 100) = list_ascii_of_string "AB01"%string.
Proof. reflexivity. Qed.
