(* ===== verification/Deployment.v ===== *)
(** * Deployment: a gateway and the processes that consume from it

    A consumer process (the recorder, the probe, the cadence checker or the viewer) against
    the egress thread of its gateway, whose queue is filled by the fan-out of the ingest
    thread. The process connects as often as it likes; each time it gets one of the
    connections the egress served, cut wherever the network or the end of the process cuts
    it. What it is left with at its exit follows from what the buses sent. *)

From S2P Require Import Prelude Frame Wire BoundedQueue BroadcastRing GapTracker Samples Feed Egress EgressStream FrameStream RingConc Pipeline Sources Ingest EndToEnd Cadence Consumers Programs View.

(** What the process was sent is an initial part of a connection the egress served. *)
Definition fed_by {H} (ev : list NetEvent) (a : Attempt H) : Prop :=
  match at_conn a with
  | Some (_, net, _) => ∃ conn, conn ∈ connections ev ∧ net `prefix_of` conn
  | None => True
  end.

(** The batches a program was handed on a connection. *)
Definition batches_of {H} (evs : list (Event H)) : list (list Frame) :=
  map (λ ev, ev.2.2) (filter (λ ev, ev.2.1 = Status.kOk) evs).

(** ** Lemmas: one connection *)

Lemma batches_of_cons {H} (h : H) st b (evs : list (Event H)) :
  batches_of (((h, (st, b)) : Event H) :: evs) = (if bool_decide (st = Status.kOk) then [b] else []) ++ batches_of evs.
Proof. unfold batches_of. rewrite filter_cons. simpl. case_decide; [by rewrite bool_decide_true|by rewrite bool_decide_false]. Qed.

Lemma records_of_batches {H} (evs : list (Event H)) :
  records_of evs = filter (λ f, is_echo f = false) (concat (batches_of evs)).
Proof.
  induction evs as [|[h [st b]] evs IH]; [done|]. rewrite batches_of_cons. unfold records_of in *. cbn [map concat fst snd].
  rewrite IH. destruct (bool_decide (st = Status.kOk)); [|done]. cbn [app concat]. by rewrite filter_app.
Qed.

(** A program that reads whole batches and then waits hears them in order and never hears
    an error. *)
Lemma heard_batches {H} bs tail (evs : list (Event H)) :
  Forall sendable_batch bs → parse_one tail = NeedMore →
  heard (concat (map batch_bytes bs) ++ tail) evs →
  ended_badly evs = false ∧ ∃ k, batches_of evs = take k bs.
Proof.
  intros Hs Ht. revert bs Hs. induction evs as [|[h [st b]] evs IH]; intros bs Hs Hh; [by split; [|exists 0%nat]|].
  assert (∀ r, parse_one (concat (map batch_bytes bs) ++ tail) = r →
    match bs with [] => r = NeedMore | b0 :: bs => r = Batch b0 (concat (map batch_bytes bs) ++ tail) end) as Hp.
  { intros r <-. destruct Hs as [|b0 bs [Hb Hn] Hs]; [done|]. cbn [map concat]. rewrite <- app_assoc.
    apply parse_batch; [|done]. eapply Forall_impl; [exact Hb|]. auto with etg. }
  rewrite batches_of_cons. destruct st; cbn [heard] in Hh.
  - destruct Hh as (rest & Hb & Hh). apply Hp in Hb. destruct bs as [|b0 bs]; [done|]. injection Hb as -> ->.
    apply Forall_cons in Hs as [_ Hs]. destruct (IH bs Hs Hh) as (H1 & k & H2). split; [done|]. exists (S k).
    rewrite bool_decide_true by done. simpl. by rewrite H2.
  - destruct Hh as [_ Hh]. by apply IH.
  - done.
  - destruct Hh as [[e Hb] _]. apply Hp in Hb. by destruct bs.
Qed.

(** Records that are explained do not count as jumps. *)
Lemma explained_no_jumps e l :
  Forall frame_wf l → explained e l = true → jump_count (u64 <$> e) (filter (λ f, is_echo f = false) l) = 0.
Proof.
  intros Hl. revert e. induction Hl as [|f l Hf _ IH]; intros e He; [done|]. cbn [explained] in He.
  apply andb_true_iff in He as [He Hr]. rewrite filter_cons. destruct (is_echo f) eqn:Ef.
  { rewrite decide_False by done. unfold resume_at in Hr. rewrite Ef in Hr. by apply IH. }
  rewrite decide_True by done. cbn [jump_count]. rewrite Ef. unfold resume_at in Hr. rewrite Ef in Hr.
  specialize (IH _ Hr). cbn in IH. destruct (is_gap f); [done|]. rewrite IH, Z.add_0_r.
  destruct e as [n|]; [|done]. cbn in *. apply Z.eqb_eq in He. subst n.
  rewrite u64_small by apply Hf. rewrite Z.gtb_ltb, Z.ltb_irrefl. done.
Qed.

(** What one connection leaves a program with. *)
Record clean_capture (real : Frame → Prop) (bs : list (list Frame)) : Prop := {
  cc_sendable : Forall sendable_batch bs;
  cc_forward : forward None (concat bs) = true;
  cc_real : Forall (λ g, is_control g = false → real g) (concat bs)
}.

Lemma heard_streamed {H} c real t conn net (evs : list (Event H)) :
  1 <= max_frames t <= kMaxBatch → streamed c real (max_frames t) conn → net `prefix_of` conn → heard net evs →
  ended_badly evs = false ∧ clean_capture real (batches_of evs) ∧ (c → jump_count None (records_of evs) = 0).
Proof.
  intros Ht Hst Hp Hh. destruct (streamed_cut c real t conn net Ht Hst Hp) as (bs & tail & -> & _ & Hpt & Hs & Hf & He & Hr).
  destruct (heard_batches bs tail evs Hs Hpt Hh) as (H1 & k & H2). split; [done|].
  rewrite (concat_prefix bs k), <- H2 in Hf, He, Hr.
  rewrite forward_app, andb_true_iff in Hf. rewrite explained_app, andb_true_iff in He. apply Forall_app in Hr as [Hr _].
  assert (Forall sendable_batch (batches_of evs)) as Hs' by (rewrite H2; by apply Forall_take).
  split; [by split; [|tauto|]|]. intros Hc. rewrite records_of_batches.
  apply (explained_no_jumps None); [|tauto]. apply Forall_concat. eapply Forall_impl; [exact Hs'|]. intros b [Hb _].
  eapply Forall_impl; [exact Hb|]. auto with etg.
Qed.

(** ** Lemmas: the life of a process *)

Section Lives.
Context {H : Type}.

Lemma fed_bytes c real t ev (attempts : list (Attempt H)) :
  1 <= max_frames t <= kMaxBatch → Forall (streamed c real (max_frames t)) (connections ev) →
  Forall (fed_by ev) attempts → Forall conn_ok attempts.
Proof.
  intros Ht Hst Hfed. eapply Forall_impl; [exact Hfed|]. intros a. unfold fed_by, conn_ok.
  destruct (at_conn a) as [[[now net] steps]|]; [|done]. intros (conn & Hc & Hp).
  rewrite Forall_forall in Hst. destruct (streamed_cut c real t conn net Ht (Hst _ Hc) Hp) as (bs & tail & -> & Hb & _ & Hs & _).
  apply Forall_app. split; [|done]. apply Forall_concat, Forall_map. eapply Forall_impl; [exact Hs|].
  intros b [Hb' _]. apply batch_bytes_bytes. eapply Forall_impl; [exact Hb'|]. auto with etg.
Qed.

(** Every connection of the process is clean. *)
Lemma lives_clean c real t ev (attempts : list (Attempt H)) rs :
  1 <= max_frames t <= kMaxBatch → Forall (streamed c real (max_frames t)) (connections ev) →
  Forall (fed_by ev) attempts → lived attempts rs →
  Forall (λ r, ended_badly r.2 = false ∧ clean_capture real (batches_of r.2) ∧
               (c → jump_count None (records_of r.2) = 0)) rs.
Proof.
  intros Ht Hst Hfed. revert rs. induction Hfed as [|a attempts Ha _ IH]; intros [|[now evs] rs] Hl; try done; cbn in Hl.
  unfold fed_by in Ha. destruct (at_conn a) as [[[now' net] steps]|]; [|by apply IH].
  destruct Hl as (_ & Hh & _ & Hl). destruct Ha as (conn & Hc & Hp). constructor; [|by apply IH].
  rewrite Forall_forall in Hst. by eapply heard_streamed; [|apply Hst| |].
Qed.

Lemma clean_totals c real (rs : list (Life H)) :
  Forall (λ r, ended_badly r.2 = false ∧ clean_capture real (batches_of r.2) ∧
               (c → jump_count None (records_of r.2) = 0)) rs →
  total_errors rs = 0 ∧ (c → total_jumps rs = 0).
Proof.
  intros Hrs. induction Hrs as [|r rs (H1 & _ & H3) _ [IH1 IH2]]; [done|]. unfold total_errors, total_jumps in *. cbn [foldr].
  rewrite H1, IH1. split; [done|]. intros Hc. rewrite H3, IH2 by done. done.
Qed.
End Lives.

(** What a process is left with after the connections [rs]: no protocol error, no silent
    jump where the feed's batches have no holes, and nothing but published frames. *)
Record leaves_clean {C H} `{!Consumer C H, !Tallied C H} (c : Prop) (real : Frame → Prop)
    (rs : list (Life H)) (p : C) : Prop := {
  lc_errors : ty_protocol_errs (tally_of p) = 0;
  lc_jumps : c → gs_silent_jumps (gt_s (ty_gaps (tally_of p))) = 0;
  lc_captured : Forall (λ r, clean_capture real (batches_of r.2)) rs;
  lc_explained : c → Forall (λ r, jump_count None (records_of r.2) = 0) rs
}.

Lemma process_clean {C H} `{!Consumer C H, !Tallied C H} c real t ev reconnect (attempts : list (Attempt H)) (p0 p : C) failed :
  1 <= max_frames t <= kMaxBatch → Forall (streamed c real (max_frames t)) (connections ev) →
  Forall (fed_by ev) attempts → tally_of p0 = tally_zero →
  consume reconnect attempts p0 = Some (failed, p) →
  lived attempts (history reconnect attempts) ∧ leaves_clean c real (history reconnect attempts) p.
Proof.
  intros Ht Hst Hfed Hz Hr.
  pose proof (history_lived reconnect attempts (fed_bytes _ _ _ _ _ Ht Hst Hfed)) as Hl.
  apply consume_spec in Hr as ->. set (rs := history reconnect attempts) in *.
  pose proof (lives_clean _ _ _ _ _ _ Ht Hst Hfed Hl) as Hclean.
  destruct (clean_totals _ _ _ Hclean) as [T1 T2].
  destruct (tally_live attempts rs p0 Hl) as [Hj He]; rewrite ?Hz; [done|done|]. rewrite Hz in Hj, He.
  split; [done|]. constructor; [by rewrite He, T1| | |].
  - intros Hc. by rewrite Hj, T2 by done.
  - eapply Forall_impl; [exact Hclean|]. tauto.
  - intros Hc. eapply Forall_impl; [exact Hclean|]. tauto.
Qed.

(** ** What a process captured of the buses *)

(** On one connection to a gateway that published [L]: frames as they were numbered, and of
    each source, in order, a part of what it was drained of ([alone]). *)
Record captures {S} (tr : Trace) (L : list Frame) (alone : nat → S → list Frame) (ss : list S)
    (bs : list (list Frame)) : Prop := {
  cp_frames : Forall (λ g, real g → of_log L g ∧ is_Some (origin tr g)) (concat bs);
  cp_sources i (s : S) : ss !! i = Some s →
    map (set_seq 0) (filter (λ g, real g ∧ origin tr g = Some i) (concat bs))
      `sublist_of` map (set_seq 0) (alone i s)
}.

Lemma clean_captures {S} (tr : Trace) L (alone : nat → S → list Frame) (ss : list S) bs :
  map (set_seq 0) L = map (set_seq 0) (concat (map snd tr)) →
  (∀ i s, ss !! i = Some s → published_by i tr = alone i s) →
  clean_capture (of_log L) bs → captures tr L alone ss bs.
Proof.
  intros HL Halone [Hs Hf Hr]. constructor.
  - eapply Forall_impl; [exact Hr|]. intros g Hg Hreal. specialize (Hg Hreal).
    split; [done|by eapply (origin_known tr L)].
  - intros i s Hi. rewrite <- (Halone i s Hi). eapply per_source; [exact HL| |done|done].
    apply Forall_concat. eapply Forall_impl; [exact Hs|]. intros b [Hb _]. eapply Forall_impl; [exact Hb|]. auto with etg.
Qed.

(** ** Properties *)

(** What the queue topology gives any of its consumers, with the trace of its ingest. *)
Lemma queue_process {S A} `{!Source S A, !SourceSpec S A} {C H} `{!Consumer C H, !Tallied C H}
    (ss : list S) caps (polls : list (FanOut.PollAnswer A)) j cap (envs : list (IterEnv QueueFeed.Env)) t st s' q' ev
    reconnect (attempts : list (Attempt H)) (p0 p : C) failed :
  Forall source_wf ss → Forall (λ c, 0 <= c < capacity_limit) caps → Forall (poll_ok (S := S)) polls →
  let stream := (FanOut.run polls (FanOut.make ss (map make_queue caps))).1 in
  Z.of_nat (length stream) < log_bound →
  caps !! j = Some cap → 1 <= max_frames t <= kMaxBatch → Forall clocks_ok envs →
  loop_offered envs (make_egress t) (make_queue cap) `prefix_of` stream →
  run_loop envs (make_egress t) (make_queue cap) = Some (st, s', q', ev) →
  Forall (fed_by ev) attempts → tally_of p0 = tally_zero → consume reconnect attempts p0 = Some (failed, p) →
  let rs := history reconnect attempts in
  Forall conn_ok attempts ∧ lived attempts rs ∧ leaves_clean (linger_us t = 0) (of_log stream) rs p ∧
  Forall (λ r, captures (fan_trace polls ss) stream (λ i, fan_alone i polls) ss (batches_of r.2)) rs.
Proof.
  intros Hs Hc Hp stream Hb Hj Ht Hcl Hoff Hr Hfed Hz Hrun rs.
  destruct (fan_stream_good ss caps polls Hs Hc Hp Hb) as (Hg & Hst & Hstream). fold stream in Hg, Hst, Hstream.
  pose proof (queue_feed_start cap (Forall_lookup_1 _ _ _ _ Hc Hj)) as Hf.
  pose proof (linked_streamed stream envs t (make_queue cap) 0 st s' q' ev Hg Hst Ht Hf Hcl Hoff Hr) as Hall.
  destruct (process_clean _ _ t ev reconnect attempts p0 p failed Ht Hall Hfed Hz Hrun) as (L1 & [L3 L4 L5 L6]).
  assert (linger_us t = 0 → linger_us t = 0 ∧ contiguous_feed (F := QueueFeed.t)) as Hq
    by (intros Hl; split; [done|]; intros m e q lg ps; apply QueueFeed.feed_contiguous).
  split; [by eapply fed_bytes|]. split; [done|]. split; [constructor; auto|].
  eapply Forall_impl; [exact L5|]. intros r Hcap. apply clean_captures; try done.
  - rewrite Hstream. apply stamp_0.
  - intros i s Hi. by apply fan_trace_source.
Qed.

(** C3. A gateway with queues and a consumer process. Any sources, any kernel answers, any
    number of connections and reconnects, each cut anywhere, to the egress thread of one
    consumer; any program that exits with the status of its tally (the probe or the cadence
    checker). The process hears no protocol error, and what it captured on each connection
    is frames as they were numbered, of each source in order a part of what it was drained
    of. Unless the egress lingers, it counts no silent jump, and the process exits 1 exactly
    when its one attempt to connect failed, otherwise 0. Frames that a broken connection
    loses between two connections are not announced and not counted. *)
Theorem queue_deployment {S A} `{!Source S A, !SourceSpec S A} {C H} `{!Consumer C H, !Tallied C H, !Judge C H}
    (ss : list S) caps (polls : list (FanOut.PollAnswer A)) j cap (envs : list (IterEnv QueueFeed.Env)) t st s' q' ev
    reconnect (attempts : list (Attempt H)) (p0 p : C) failed :
  Forall source_wf ss → Forall (λ c, 0 <= c < capacity_limit) caps → Forall (poll_ok (S := S)) polls →
  let stream := (FanOut.run polls (FanOut.make ss (map make_queue caps))).1 in
  Z.of_nat (length stream) < log_bound →
  caps !! j = Some cap → 1 <= max_frames t <= kMaxBatch → Forall clocks_ok envs →
  loop_offered envs (make_egress t) (make_queue cap) `prefix_of` stream →
  run_loop envs (make_egress t) (make_queue cap) = Some (st, s', q', ev) →
  Forall (fed_by ev) attempts → tally_of p0 = tally_zero → consume reconnect attempts p0 = Some (failed, p) →
  let rs := history reconnect attempts in
  lived attempts rs ∧ ty_protocol_errs (tally_of p) = 0 ∧
  (linger_us t = 0 →
     gs_silent_jumps (gt_s (ty_gaps (tally_of p))) = 0 ∧
     process_status verdict (failed, p) = if refused reconnect attempts then 1 else 0) ∧
  Forall (λ r, captures (fan_trace polls ss) stream (λ i, fan_alone i polls) ss (batches_of r.2)) rs.
Proof.
  intros Hs Hc Hp stream Hb Hj Ht Hcl Hoff Hr Hfed Hz Hrun rs.
  destruct (queue_process ss caps polls j cap envs t st s' q' ev reconnect attempts p0 p failed
              Hs Hc Hp Hb Hj Ht Hcl Hoff Hr Hfed Hz Hrun) as (_ & L1 & [L3 L4 _ _] & L5).
  split; [done|]. split; [done|]. split; [|done]. intros Hl. split; [by apply L4|].
  rewrite <- (consume_failed _ _ _ _ _ Hrun). unfold process_status. cbn [fst snd].
  rewrite verdict_tally. unfold exit_status. rewrite L3, (L4 Hl). by destruct failed.
Qed.

Lemma capture_of_batches {H} (evs : list (Event H)) : capture_of evs = filter (λ b, b ≠ []) (batches_of evs).
Proof.
  induction evs as [|[h [st b]] evs IH]; [done|]. rewrite batches_of_cons. unfold capture_of in *. rewrite filter_cons.
  rewrite filter_app, <- IH. destruct (bool_decide_reflect (st = Status.kOk)) as [->|Hst]; rewrite ?filter_cons, ?filter_nil.
  all: repeat case_decide; unfold nonempty_batch in *; cbn in *; tauto.
Qed.

Lemma captured_batches {H} (rs : list (Life H)) :
  captured rs = filter (λ b, b ≠ []) (concat (map (λ l, batches_of l.2) rs)).
Proof.
  unfold captured. induction rs as [|l rs IH]; [done|]. cbn [map concat].
  by rewrite filter_app, IH, capture_of_batches.
Qed.

(** C4. A gateway with queues and a recorder. Any sources, any kernel answers, any
    connections to the egress cut anywhere, no short write, and no probe among what is
    received: the recorder exits 1 exactly when its one attempt to connect failed,
    otherwise 0; its file is the bytes of every non-empty batch that the connections it was
    granted gave it, in order, and a reader that goes on gets all of them back; those hold,
    connection by connection, frames as they were numbered, of each source in order a part
    of what it was drained of; and unless the egress lingers, no record of a connection is
    ahead of the position that the ones before it announce. *)
Theorem queue_recording {S A} `{!Source S A, !SourceSpec S A} (ss : list S) caps
    (polls : list (FanOut.PollAnswer A)) j cap (envs : list (IterEnv QueueFeed.Env)) t st s' q' ev
    fsync_every start reconnect (attempts : list (Attempt Recorder.Env)) failed rec :
  Forall source_wf ss → Forall (λ c, 0 <= c < capacity_limit) caps → Forall (poll_ok (S := S)) polls →
  let stream := (FanOut.run polls (FanOut.make ss (map make_queue caps))).1 in
  Z.of_nat (length stream) < log_bound →
  caps !! j = Some cap → 1 <= max_frames t <= kMaxBatch → Forall clocks_ok envs →
  loop_offered envs (make_egress t) (make_queue cap) `prefix_of` stream →
  run_loop envs (make_egress t) (make_queue cap) = Some (st, s', q', ev) →
  Forall (fed_by ev) attempts → Forall all_written attempts →
  let rs := history reconnect attempts in
  let bs := filter (λ b, b ≠ []) (concat (map (λ l, batches_of l.2) rs)) in
  Forall (λ f, is_echo f = false) (concat bs) →
  consume reconnect attempts (Recorder.make fsync_every start) = Some (failed, rec) →
  lived attempts rs ∧
  process_status Recorder.exit_code (failed, rec) = (if refused reconnect attempts then 1 else 0) ∧
  Recorder.file rec = concat (map batch_bytes bs) ∧
  (∀ calls, length calls = length bs →
     Forall (λ answers, Forall keeps_going answers ∧
                        Z.of_nat (length (Recorder.file rec)) <= data_reads answers) calls →
     ∃ s net, reads calls make_stream (Recorder.file rec) = Some (map (pair Status.kOk) bs, s, net)) ∧
  Forall (λ l, captures (fan_trace polls ss) stream (λ i, fan_alone i polls) ss (batches_of l.2)) rs ∧
  (linger_us t = 0 → Forall (λ l, jump_count None (records_of l.2) = 0) rs).
Proof.
  intros Hs Hc Hp stream Hb Hj Ht Hcl Hoff Hr Hfed Hw rs bs _ Hrun.
  destruct (queue_process ss caps polls j cap envs t st s' q' ev reconnect attempts
              (Recorder.make fsync_every start) rec failed Hs Hc Hp Hb Hj Ht Hcl Hoff Hr Hfed ltac:(done) Hrun)
    as (Hok & L1 & [L3 _ _ L6] & L5). fold rs in L1, L5, L6.
  rewrite <- (consume_failed _ _ _ _ _ Hrun). pose proof (consume_spec _ _ _ _ _ Hrun) as E. fold rs in E.
  destruct (lives_recorded attempts rs _ [] Hok Hw L1 (make_recorded fsync_every start))
    as [[R1 _ _ _ R5] Hsend]. rewrite <- E in R1, R5. rewrite captured_batches in R1, Hsend. fold bs in R1, Hsend.
  split; [done|]. split; [|split; [done|split; [|done]]].
  - unfold process_status, Recorder.exit_code. cbn [fst snd]. change (Recorder.tally rec) with (tally_of rec).
    rewrite L3, R5. by destruct failed.
  - intros calls Hn Hd. rewrite R1 in Hd |- *. by apply file_reads_all.
Qed.

(** ** Witnesses *)

(** The bytes of the gateway's connection, for a tuning of its egress. *)
Definition served_conn (t : Tuning) : list Z :=
  match run_loop fan_envs (make_egress t) (make_queue 2) with
  | Some (_, _, _, ev) => conn_bytes ev
  | None => []
  end.

(** A probe that connects to the gateway of [fan_envs] twice: the first connection breaks
    off inside a batch, an attempt in between fails. *)
Definition probe_life {H} (h : H) : list (Attempt H) :=
  let pass := mkStep true [RdSome 16; RdSome 100000; RdSome 100000; RdAgainTimeout] [[mkSend 56 EOther 0 false false]] h in
  let over := mkStep true [RdEof] [] h in
  [mkAttempt true (Some (1, take 150 (served_conn demo_tuning), [pass; over])); mkAttempt true None;
   mkAttempt true (Some (2, served_conn demo_tuning, [pass; pass; over])); mkAttempt false None].

Lemma probe_life_fed {H} (h : H) st s q ev :
  run_loop fan_envs (make_egress demo_tuning) (make_queue 2) = Some (st, s, q, ev) → Forall (fed_by ev) (probe_life h).
Proof.
  intros E. assert (served_conn demo_tuning = conn_bytes ev) as Ec by (unfold served_conn; by rewrite E). clear E.
  unfold probe_life. rewrite Ec. clear Ec. rewrite !Forall_cons. split_and!; try done;
    exists (conn_bytes ev); (split; [apply current_connection|]); [|done]. exists (drop 150 (conn_bytes ev)). by rewrite take_drop.
Qed.

Lemma queue_deployment_witness :
  ∃ p, consume true (probe_life (Probe.mkEnv 1 2 3)) (Probe.make false false 0 0) = Some (false, p) ∧
       Probe.frames p = 6 ∧ process_status verdict (false, p) = 0.
Proof.
  assert (∃ p, consume true (probe_life (Probe.mkEnv 1 2 3)) (Probe.make false false 0 0) = Some (false, p) ∧
               Probe.frames p = 6) as (p & E & Hp) by (eexists; split; [vm_compute; reflexivity|reflexivity]).
  exists p. split; [exact E|]. split; [exact Hp|].
  pose proof (λ st s' q' ev, queue_deployment demo_sources [2; 4] demo_polls 0%nat 2 fan_envs demo_tuning st s' q' ev
    true (probe_life (Probe.mkEnv 1 2 3)) (Probe.make false false 0 0) p false) as Hd.
  pose proof (λ st s' q' ev, probe_life_fed (Probe.mkEnv 1 2 3) st s' q' ev) as Hfed. pose proof fan_demo as Hrun.
  destruct (run_loop fan_envs (make_egress demo_tuning) (make_queue 2)) as [[[[st s'] q'] ev]|]; [|contradiction].
  destruct (Hd st s' q' ev) as (_ & _ & Hl & _).
  - exact demo_sources_wf.
  - repeat constructor; unfold capacity_limit; lia.
  - exact demo_polls_ok.
  - vm_compute. reflexivity.
  - reflexivity.
  - exact demo_tuning_ok.
  - repeat constructor; vm_compute; congruence.
  - exists (drop 6 fan_stream). vm_compute. reflexivity.
  - reflexivity.
  - exact (Hfed st s' q' ev eq_refl).
  - reflexivity.
  - exact E.
  - exact (proj2 (Hl eq_refl)).
Defined.

(** A recorder of the same stream from an egress that does not probe. *)
Definition quiet_tuning : Tuning := mkTuning 256 0 0.

Definition recorder_life (t : Tuning) : list (Attempt Recorder.Env) :=
  let h := Recorder.mkEnv 1 None 2 3 in
  let pass := mkStep true [RdSome 16; RdSome 100000; RdSome 100000; RdAgainTimeout] [] h in
  [mkAttempt true (Some (1, served_conn t, [pass; pass; mkStep true [RdEof] [] h]))].

Lemma recorder_life_fed t st s q ev :
  run_loop fan_envs (make_egress t) (make_queue 2) = Some (st, s, q, ev) → Forall (fed_by ev) (recorder_life t).
Proof.
  intros E. unfold recorder_life, served_conn. rewrite E. constructor; [|constructor]. exists (conn_bytes ev). split; [apply current_connection|done].
Qed.

Lemma queue_recording_witness :
  ∃ rec, consume false (recorder_life quiet_tuning) (Recorder.make 0 0) = Some (false, rec) ∧
         Recorder.batches rec = 2 ∧ process_status Recorder.exit_code (false, rec) = 0.
Proof.
  assert (∃ rec, consume false (recorder_life quiet_tuning) (Recorder.make 0 0) = Some (false, rec) ∧
                 Recorder.batches rec = 2)
    as (rec & E & Hp) by (eexists; split; [vm_compute; reflexivity|reflexivity]).
  exists rec. split; [exact E|]. split; [exact Hp|].
  pose proof (λ st s' q' ev, queue_recording demo_sources [2; 4] demo_polls 0%nat 2 fan_envs quiet_tuning st s' q' ev
    0 0 false (recorder_life quiet_tuning) false rec) as Hd.
  pose proof (λ st s' q' ev, recorder_life_fed quiet_tuning st s' q' ev) as Hfed.
  destruct (run_loop fan_envs (make_egress quiet_tuning) (make_queue 2)) as [[[[st s'] q'] ev]|] eqn:Er;
    [|exfalso; revert Er; vm_compute; discriminate]. clear Er.
  refine (proj1 (proj2 (Hd st s' q' ev _ _ _ _ _ _ _ _ _ _ _ _ _))).
  - exact demo_sources_wf.
  - repeat constructor; unfold capacity_limit; lia.
  - exact demo_polls_ok.
  - vm_compute. reflexivity.
  - reflexivity.
  - unfold kMaxBatch, kMaxPayload, kRecordSize. vm_compute. split; discriminate.
  - repeat constructor; vm_compute; congruence.
  - exists (drop 6 fan_stream). vm_compute. reflexivity.
  - reflexivity.
  - exact (Hfed st s' q' ev eq_refl).
  - apply (bool_decide_unpack _). vm_compute. exact I.
  - apply (bool_decide_unpack _). vm_compute. exact I.
  - exact E.
Defined.
