(* ===== verification/StatsJson.v ===== *)
(** * StatsJson: the viewer's /stats.json (src/src/view_main.cpp)

    [json_stats] builds the text piece by piece, each piece through a 512-byte buffer, from
    two snapshots of the state. [stats_value] is what it should say, as a JSON value;
    the theorem is that the text parses to exactly that, so no piece is ever cut short and
    no number is misplaced. In the literals below ['] stands for the double quote. *)

From stdpp Require Import gmap sorting.
From Stdlib Require Import Ascii String SpecFloat.
From S2P Require Import Prelude Frame Wire Samples GapTracker Egress FrameStream Sources Consumers View Text Doubles Printf Json.
Open Scope Z_scope.

Definition json_text (s : string) : list ascii := map (λ c, if decide (c = "'"%char) then dq else c) (text s).

(** The comma of the three loops: before every element but the first. *)
Fixpoint joined (first : bool) (l : list (list ascii)) : list ascii :=
  match l with
  | [] => []
  | x :: l => (if first then [] else [","%char]) ++ x ++ joined false l
  end.

Definition bool_text (b : bool) : list ascii := text (if b then "true" else "false").

(** [char buf[512]]. *)
Definition kBuf : nat := 512.

Definition head_raw (port started now : Z) (v : View) : list ascii :=
  json_text "{'connected':" ++ bool_text (v_connected v)
  ++ json_text ",'port':" ++ to_string port
  ++ json_text ",'uptime_s':" ++ fixed 1 (ratio (u64 (now - started)) 1000000000)
  ++ json_text ",'frames':" ++ to_string (v_frames v)
  ++ json_text ",'batches':" ++ to_string (v_batches v)
  ++ json_text ",'markers':" ++ to_string (gs_markers (gt_s (ty_gaps (v_tally v))))
  ++ json_text ",'missing':" ++ to_string (total_lost (ty_gaps (v_tally v)))
  ++ json_text ",'silent':" ++ to_string (gs_silent_jumps (gt_s (ty_gaps (v_tally v))))
  ++ json_text ",'reconnects':" ++ to_string (v_reconnects v)
  ++ json_text ",'protocol_errs':" ++ to_string (ty_protocol_errs (v_tally v))
  ++ json_text ",'first_seq':" ++ to_string (v_first_seq v)
  ++ json_text ",'last_seq':" ++ to_string (v_last_seq v) ++ [","%char].

Definition head_text (port started now : Z) (v : View) : list ascii := snprintf kBuf (head_raw port started now v).

(** Whether the delays measured are on this machine's clock. *)
Definition shared_clock (v : View) : bool := negb (v_off_domain v >? v_frames v / 2).

Definition latency_raw (p : Percentiles) (span : spec_float) (v : View) : list ascii :=
  json_text "'latency':{'n':" ++ to_string (pc_count p)
  ++ json_text ",'off_domain':" ++ to_string (v_off_domain v)
  ++ json_text ",'shared_clock':" ++ bool_text (shared_clock v)
  ++ json_text ",'span_s':" ++ fixed 1 span
  ++ json_text ",'min':" ++ to_string (pc_min p)
  ++ json_text ",'p50':" ++ to_string (pc_p50 p)
  ++ json_text ",'p90':" ++ to_string (pc_p90 p)
  ++ json_text ",'p99':" ++ to_string (pc_p99 p)
  ++ json_text ",'p999':" ++ to_string (pc_p999 p)
  ++ json_text ",'max':" ++ to_string (pc_max p) ++ text "},".

Definition latency_text (p : Percentiles) (span : spec_float) (v : View) : list ascii := snprintf kBuf (latency_raw p span v).

(** The rate history, oldest first. *)
Definition rates (v : View) : list Z :=
  map (λ i, v_rate v !!! ((Z.to_nat (v_rate_pos v) + i) mod kRateWindow)%nat) (seq 0 kRateWindow).

(** [std::map] iterates in the order of its keys. *)
Definition key_le (a b : Z * IdStat) : Prop := a.1 <= b.1.

#[export] Instance key_le_dec : RelDecision key_le.
Proof. intros a b. unfold key_le. apply _. Defined.

Definition sorted_ids (v : View) : list (Z * IdStat) := merge_sort key_le (map_to_list (v_ids v)).

Definition hex_bytes (len : Z) (data : list Z) : list ascii :=
  concat (map (λ b, [hex_digit (Z.shiftr b 4); hex_digit (Z.land b 15)]) (take (Z.to_nat len) data)).

Definition id_raw (now : Z) (x : Z * IdStat) : list ascii :=
  let s := x.2 in
  json_text "{'id':" ++ to_string x.1 ++ json_text ",'count':" ++ to_string (id_count s)
  ++ json_text ",'src':" ++ to_string (id_src s) ++ json_text ",'len':" ++ to_string (id_len s)
  ++ json_text ",'age_ms':" ++ fixed 0 (ratio (u64 (now - id_last_seen_ns s)) 1000000)
  ++ json_text ",'data':'".

Definition id_text (now : Z) (x : Z * IdStat) : list ascii :=
  snprintf kBuf (id_raw now x) ++ hex_bytes (id_len x.2) (id_data x.2) ++ json_text "'}".

Definition recent_raw (f : Frame) : list ascii :=
  json_text "{'seq':" ++ to_string (f_seq f) ++ json_text ",'id':" ++ to_string (f_can_id f)
  ++ json_text ",'src':" ++ to_string (f_src_id f) ++ json_text ",'len':" ++ to_string (f_len f)
  ++ json_text ",'data':'" ++ hex_payload f ++ json_text "'}".

Definition recent_text (f : Frame) : list ascii := snprintf kBuf (recent_raw f).

(** [seen] is the state when the samples are copied, [v] when the rest is read. *)
Definition json_stats (port started now : Z) (seen v : View) : list ascii :=
  let p := (percentiles_of (RollingLatency.values (v_latency seen))).1 in
  head_text port started now v ++ latency_text p (RollingLatency.span_s (v_latency seen)) v
  ++ json_text "'rate':[" ++ joined true (map to_string (rates v))
  ++ json_text "],'ids':[" ++ joined true (map (id_text now) (sorted_ids v))
  ++ json_text "],'recent':[" ++ joined true (map recent_text (rev (v_recent v)))
  ++ json_text "]}".

(** ** What it says *)

Definition field (k : string) (j : json) : list ascii * json := (text k, j).

Definition id_value (now : Z) (x : Z * IdStat) : json :=
  let s := x.2 in
  JObj [field "id" (JInt x.1); field "count" (JInt (id_count s)); field "src" (JInt (id_src s));
        field "len" (JInt (id_len s));
        field "age_ms" (JInt (units 0 (ratio (u64 (now - id_last_seen_ns s)) 1000000)));
        field "data" (JStr (hex_bytes (id_len s) (id_data s)))].

Definition recent_value (f : Frame) : json :=
  JObj [field "seq" (JInt (f_seq f)); field "id" (JInt (f_can_id f)); field "src" (JInt (f_src_id f));
        field "len" (JInt (f_len f)); field "data" (JStr (hex_payload f))].

Definition latency_value (p : Percentiles) (span : spec_float) (v : View) : json :=
  JObj [field "n" (JInt (pc_count p)); field "off_domain" (JInt (v_off_domain v));
        field "shared_clock" (JBool (shared_clock v)); field "span_s" (JDec 1 (units 1 span));
        field "min" (JInt (pc_min p)); field "p50" (JInt (pc_p50 p)); field "p90" (JInt (pc_p90 p));
        field "p99" (JInt (pc_p99 p)); field "p999" (JInt (pc_p999 p)); field "max" (JInt (pc_max p))].

Definition head_fields (port started now : Z) (v : View) : list (list ascii * json) :=
  let g := ty_gaps (v_tally v) in
  [field "connected" (JBool (v_connected v)); field "port" (JInt port);
   field "uptime_s" (JDec 1 (units 1 (ratio (u64 (now - started)) 1000000000)));
   field "frames" (JInt (v_frames v)); field "batches" (JInt (v_batches v));
   field "markers" (JInt (gs_markers (gt_s g))); field "missing" (JInt (total_lost g));
   field "silent" (JInt (gs_silent_jumps (gt_s g))); field "reconnects" (JInt (v_reconnects v));
   field "protocol_errs" (JInt (ty_protocol_errs (v_tally v)));
   field "first_seq" (JInt (v_first_seq v)); field "last_seq" (JInt (v_last_seq v))].

Definition stats_value (port started now : Z) (seen v : View) : json :=
  let p := (percentiles_of (RollingLatency.values (v_latency seen))).1 in
  JObj (head_fields port started now v ++
        [field "latency" (latency_value p (RollingLatency.span_s (v_latency seen)) v);
         field "rate" (JArr (map JInt (rates v)));
         field "ids" (JArr (map (id_value now) (sorted_ids v)));
         field "recent" (JArr (map recent_value (rev (v_recent v))))]).

(** ** Lemmas: the text is the print of the value *)

Lemma joined_commas l : joined true l = commas l.
Proof.
  assert (∀ x l, joined false (x :: l) = ","%char :: commas (x :: l)) as H.
  { intros x l'. revert x. induction l' as [|y l' IH]; intros x; [by cbn; rewrite app_nil_r|].
    rewrite commas_cons, <- IH. done. }
  destruct l as [|x [|y l]]; [done|by cbn; rewrite app_nil_r|]. rewrite commas_cons, <- H. done.
Qed.

Lemma snprintf_fits s : (length s < kBuf)%nat → snprintf kBuf s = s.
Proof. intros H. unfold snprintf. apply take_ge. unfold kBuf in *. lia. Qed.

Lemma decimal_0 q : decimal 0 q = to_string q.
Proof. unfold decimal. change (10 ^ Z.of_nat 0) with 1. by rewrite Z.div_1_r, app_nil_r. Qed.

Lemma fixed_0_ratio u d :
  0 <= u < 2 ^ 64 → 0 < d < 2 ^ 53 → fixed 0 (ratio u d) = to_string (units 0 (ratio u d)).
Proof. intros Hu Hd. destruct (fixed_ratio 0 u d Hu Hd) as [-> _]. apply decimal_0. Qed.

Lemma u64_range z : 0 <= u64 z < 2 ^ 64.
Proof. apply u64_fits. Qed.

(** The span is a ratio of integers too. *)
Lemma span_ratio l : ∃ u, 0 <= u < 2 ^ 64 ∧ RollingLatency.span_s l = ratio u 1000000000.
Proof.
  unfold RollingLatency.span_s. destruct l as [|a [|b l]].
  - by exists 0.
  - by exists 0.
  - eexists. split; [apply u64_range|done].
Qed.

Lemma fixed_span l :
  fixed 1 (RollingLatency.span_s l) = decimal 1 (units 1 (RollingLatency.span_s l)) ∧
  (length (fixed 1 (RollingLatency.span_s l)) <= 22)%nat.
Proof.
  destruct (span_ratio l) as (u & Hu & ->). split; [by apply fixed_ratio|].
  apply (fixed_ratio_length 1); lia.
Qed.

(** Closed literals are evaluated, then both sides are flat lists of characters and
    printed numbers. *)
Ltac flat_text :=
  repeat match goal with
         | |- context [json_text ?s] => let t := eval vm_compute in (json_text s) in change (json_text s) with t
         end;
  repeat match goal with
         | |- context [text ?s] => let t := eval vm_compute in (text s) in change (text s) with t
         end;
  change dq with (Ascii false true false false false true false false);
  repeat first [rewrite <- app_assoc | progress cbn [app]].

Lemma id_text_print now x : (length (id_raw now x) < kBuf)%nat → id_text now x = print (id_value now x).
Proof.
  intros Hl. unfold id_text. rewrite snprintf_fits by done. unfold id_raw.
  rewrite fixed_0_ratio by (apply u64_range || lia).
  unfold id_value, field. cbn [print map commas fst snd]. unfold quoted. flat_text. reflexivity.
Qed.

Lemma recent_text_print f : (length (recent_raw f) < kBuf)%nat → recent_text f = print (recent_value f).
Proof.
  intros Hl. unfold recent_text. rewrite snprintf_fits by done. unfold recent_raw, recent_value, field.
  cbn [print map commas fst snd]. unfold quoted. flat_text. reflexivity.
Qed.

(** ** Lemmas: no piece fills the buffer *)

(** What the integers printed range over. *)
Definition prints_short (z : Z) : Prop := - 2 ^ 63 <= z < 2 ^ 64.

Lemma short_length z : prints_short z → (length (to_string z) <= 20)%nat.
Proof.
  intros Hz. unfold prints_short in Hz. destruct (Z.le_gt_cases 0 z) as [H|H].
  - apply (to_string_short 19). split; [done|]. etrans; [apply Hz|]. by vm_compute.
  - unfold to_string. rewrite (proj2 (Z.ltb_lt z 0)) by lia. cbn [length]. apply le_n_S.
    etrans; [apply (print_digits_length 10 ltac:(lia) 18)|simpl; lia].
    split; [lia|]. apply (Z.le_lt_trans _ (2 ^ 63)); [lia|by vm_compute].
Qed.

Lemma bool_text_length b : (length (bool_text b) <= 5)%nat.
Proof. destruct b; simpl; lia. Qed.

(** Sums up a text: literals are measured, numbers bounded. *)
Ltac text_length :=
  rewrite ?length_app;
  repeat match goal with
         | |- context [length (json_text ?s)] =>
             let n := eval vm_compute in (length (json_text s)) in change (length (json_text s)) with n
         | |- context [length (text ?s)] =>
             let n := eval vm_compute in (length (text s)) in change (length (text s)) with n
         | |- context [length (to_string ?z)] =>
             let H := fresh in assert (length (to_string z) <= 20)%nat as H by (apply short_length; assumption);
             revert H; generalize (length (to_string z)); intros ? ?
         | |- context [length (bool_text ?b)] =>
             let H := fresh in pose proof (bool_text_length b) as H;
             revert H; generalize (length (bool_text b)); intros ? ?
         end;
  unfold kBuf; cbn [length]; lia.

Lemma hex_bytes_length len data : (length (hex_bytes len data) <= 2 * Z.to_nat len)%nat.
Proof.
  unfold hex_bytes. generalize (Z.to_nat len) as k. intros k. revert k.
  induction data as [|b data IH]; intros [|k]; simpl; try lia. specialize (IH k). lia.
Qed.

(** A snapshot as the page can find it. *)
Definition id_ready (x : Z * IdStat) : Prop :=
  prints_short x.1 ∧ prints_short (id_count x.2) ∧ prints_short (id_src x.2) ∧ prints_short (id_len x.2).

Definition gap_counts (v : View) : list Z :=
  let g := ty_gaps (v_tally v) in
  [gs_markers (gt_s g); total_lost g; gs_silent_jumps (gt_s g); ty_protocol_errs (v_tally v)].

Record view_ready (v : View) : Prop := {
  rd_frames : prints_short (v_frames v);
  rd_batches : prints_short (v_batches v);
  rd_gaps : Forall prints_short (gap_counts v);
  rd_reconnects : prints_short (v_reconnects v);
  rd_first : prints_short (v_first_seq v);
  rd_last : prints_short (v_last_seq v);
  rd_off : prints_short (v_off_domain v);
  rd_ids : map_Forall (λ id s, id_ready (id, s)) (v_ids v);
  rd_recent : Forall frame_acceptable (v_recent v);
  rd_latency : Forall (λ x, prints_short x.2) (v_latency v) ∧ Z.of_nat (length (v_latency v)) < 2 ^ 63
}.

Lemma head_short port started now v :
  view_ready v → fits 16 port → (length (head_raw port started now v) < kBuf)%nat.
Proof.
  intros [H1 H2 H3 H4 H5 H6 H7 _ _ _] Hp. unfold gap_counts in H3.
  repeat (apply Forall_cons in H3 as [? H3]).
  assert (prints_short port) by (unfold prints_short, fits in *; pow_consts; lia).
  pose proof (fixed_ratio_length 1 (u64 (now - started)) 1000000000 (u64_range _) ltac:(lia) ltac:(lia)) as Hu.
  unfold head_raw. revert Hu. generalize (fixed 1 (ratio (u64 (now - started)) 1000000000)). intros up Hu.
  text_length.
Qed.

(** The percentiles are samples, or 0. *)
Lemma nearest_rank_in l p (Q : Z → Prop) : Forall Q l → Q 0 → Q (nearest_rank l p).
Proof.
  intros Hl H0. unfold nearest_rank. destruct l as [|x l]; [done|].
  set (i := Z.to_nat _). rewrite nth_lookup. destruct ((x :: l) !! i) as [y|] eqn:E; [|done].
  by eapply Forall_lookup_1 in Hl.
Qed.

Lemma percentiles_in l (Q : Z → Prop) :
  Forall Q l → Q 0 →
  let p := (percentiles_of l).1 in
  Q (pc_min p) ∧ Q (pc_max p) ∧ Q (pc_p50 p) ∧ Q (pc_p90 p) ∧ Q (pc_p99 p) ∧ Q (pc_p999 p).
Proof.
  intros Hl H0. unfold percentiles_of. destruct l as [|x l]; [done|]. cbn [fst].
  assert (Forall Q (merge_sort Z.le (x :: l))) as Hs by (by rewrite merge_sort_Permutation).
  generalize dependent (merge_sort Z.le (x :: l)). intros v Hv.
  cbn [pc_min pc_max pc_p50 pc_p90 pc_p99 pc_p999].
  split_and!; [| |by apply nearest_rank_in..].
  - destruct v as [|y v]; [done|]. by inversion Hv.
  - cbn [pc_max]. destruct (last v) as [y|] eqn:E; [|done]. apply last_Some in E as [v' ->].
    apply Forall_app in Hv as [_ Hv]. by inversion Hv.
Qed.

Lemma percentiles_count l : pc_count (percentiles_of l).1 = Z.of_nat (length l).
Proof.
  unfold percentiles_of. destruct l as [|x l]; [done|]. cbn [fst pc_count].
  by rewrite (merge_sort_Permutation Z.le (x :: l)).
Qed.

Lemma latency_short seen v :
  view_ready seen → view_ready v →
  let p := (percentiles_of (RollingLatency.values (v_latency seen))).1 in
  (length (latency_raw p (RollingLatency.span_s (v_latency seen)) v) < kBuf)%nat.
Proof.
  intros Hs Hv p. destruct (rd_latency _ Hs) as [Hl Hn]. pose proof (rd_off _ Hv) as Ho.
  destruct (percentiles_in (RollingLatency.values (v_latency seen)) prints_short)
    as (? & ? & ? & ? & ? & ?); [by apply Forall_fmap|done|]. fold p in H, H0, H1, H2, H3, H4.
  assert (prints_short (pc_count p)).
  { unfold p. rewrite percentiles_count. unfold RollingLatency.values, prints_short. rewrite length_map.
    pow_consts. lia. }
  destruct (fixed_span (v_latency seen)) as [_ Hsp]. unfold latency_raw. revert Hsp.
  generalize (fixed 1 (RollingLatency.span_s (v_latency seen))). intros sp Hsp. clearbody p. text_length.
Qed.

Lemma id_short now x : id_ready x → (length (id_raw now x) < kBuf)%nat.
Proof.
  intros (H1 & H2 & H3 & H4).
  pose proof (fixed_ratio_length 0 (u64 (now - id_last_seen_ns x.2)) 1000000 (u64_range _) ltac:(lia) ltac:(lia)) as Ha.
  unfold id_raw. revert Ha. generalize (fixed 0 (ratio (u64 (now - id_last_seen_ns x.2)) 1000000)). intros ag Ha.
  text_length.
Qed.

Lemma recent_short f : frame_acceptable f → (length (recent_raw f) < kBuf)%nat.
Proof.
  intros [(H1 & _ & _ & H2 & H3 & H4 & _) [_ H5]].
  assert (prints_short (f_seq f)) by (unfold prints_short, fits in *; lia).
  assert (prints_short (f_can_id f)) by (unfold prints_short, fits in *; pow_consts; lia).
  assert (prints_short (f_src_id f)) by (unfold prints_short, fits in *; pow_consts; lia).
  assert (prints_short (f_len f)) by (unfold prints_short, fits in *; pow_consts; lia).
  pose proof (hex_bytes_length (f_len f) (f_data f)) as Hh. change (hex_bytes (f_len f) (f_data f)) with (hex_payload f) in Hh.
  assert (length (hex_payload f) <= 16)%nat as Hh' by lia. clear Hh. unfold recent_raw.
  revert Hh'. generalize (hex_payload f). intros hp Hh'. text_length.
Qed.

Lemma print_map_ids now l :
  Forall id_ready l → map (id_text now) l = map print (map (id_value now) l).
Proof.
  intros H. rewrite map_map. induction H as [|x l Hx _ IH]; [done|]. cbn [map].
  rewrite IH, id_text_print; [done|by apply id_short].
Qed.

Lemma print_map_recent l :
  Forall frame_acceptable l → map recent_text l = map print (map recent_value l).
Proof.
  intros H. rewrite map_map. induction H as [|x l Hx _ IH]; [done|]. cbn [map].
  rewrite IH, recent_text_print; [done|by apply recent_short].
Qed.

Lemma sorted_ids_ready v : view_ready v → Forall id_ready (sorted_ids v).
Proof.
  intros Hv. unfold sorted_ids. rewrite merge_sort_Permutation. apply Forall_forall. intros [id s] Hin.
  apply elem_of_map_to_list in Hin. exact (rd_ids _ Hv id s Hin).
Qed.

Lemma commas_app l l' : l ≠ [] → l' ≠ [] → commas (l ++ l') = commas l ++ ","%char :: commas l'.
Proof.
  intros Hl Hl'. destruct l as [|x l]; [done|]. clear Hl. revert x.
  induction l as [|y l IH]; intros x; cbn [app].
  - by destruct l'.
  - rewrite !commas_cons. cbn [app] in IH. by rewrite IH, <- app_assoc.
Qed.

Lemma head_raw_print port started now v :
  head_raw port started now v
  = "{"%char :: commas (map print_member (head_fields port started now v)) ++ [","%char].
Proof.
  unfold head_raw, head_fields, field, print_member.
  rewrite (proj1 (fixed_ratio 1 (u64 (now - started)) 1000000000 (u64_range _) ltac:(lia))).
  cbn [print map commas fst snd]. unfold quoted, bool_text. flat_text. reflexivity.
Qed.

Lemma latency_raw_print p l v :
  latency_raw p (RollingLatency.span_s l) v
  = print_member (field "latency" (latency_value p (RollingLatency.span_s l) v)) ++ [","%char].
Proof.
  unfold latency_raw, latency_value, field, print_member. rewrite (proj1 (fixed_span l)).
  cbn [print map commas fst snd]. unfold quoted, bool_text. flat_text. reflexivity.
Qed.

Lemma json_stats_print port started now seen v :
  view_ready seen → view_ready v → fits 16 port →
  json_stats port started now seen v = print (stats_value port started now seen v).
Proof.
  intros Hs Hv Hp. unfold json_stats, stats_value. cbv zeta.
  unfold head_text. rewrite snprintf_fits by (by apply head_short).
  unfold latency_text. rewrite snprintf_fits by (by apply latency_short).
  rewrite !joined_commas. rewrite print_map_ids by (by apply sorted_ids_ready).
  rewrite print_map_recent by (apply Forall_rev, Hv).
  assert (map to_string (rates v) = map print (map JInt (rates v))) as -> by (by rewrite map_map).
  rewrite head_raw_print, latency_raw_print.
  set (p := (percentiles_of _).1). set (lat := field "latency" _). cbn [print].
  change (λ m, quoted m.1 ++ ":"%char :: print m.2) with print_member.
  rewrite map_app, commas_app by done. set (hd := commas (map print_member (head_fields port started now v))).
  cbn [map]. rewrite commas_cons. generalize (print_member lat). intros lt. unfold field, print_member.
  generalize (map JInt (rates v)), (map (id_value now) (sorted_ids v)), (map recent_value (rev (v_recent v))).
  intros l1 l2 l3. cbn [commas print fst snd]. unfold quoted. flat_text. reflexivity.
Qed.

(** ** Lemmas: the value is one the parser reads back *)

Lemma plain_text s : forallb plain (text s) = true → Forall (λ c, plain c = true) (text s).
Proof. intros H. apply Forall_forall. intros c Hc. eapply forallb_forall in H; [done|]. by apply list_elem_of_In. Qed.

Lemma hex_digit_plain n : plain (hex_digit n) = true.
Proof. unfold hex_digit. generalize (Z.to_nat n). intros k. do 16 (destruct k as [|k]; [done|]). by destruct k. Qed.

Lemma hex_bytes_plain len data : Forall (λ c, plain c = true) (hex_bytes len data).
Proof.
  unfold hex_bytes. generalize (take (Z.to_nat len) data). intros l.
  induction l as [|b l IH]; simpl; [constructor|]. repeat constructor; [apply hex_digit_plain..|exact IH].
Qed.

Lemma fields_ok (l : list (list ascii * json)) :
  Forall (λ m, forallb plain m.1 = true ∧ ok m.2) l → ok (JObj l).
Proof.
  intros H. apply ok_obj. eapply Forall_impl; [exact H|]. intros m [H1 H2]. split; [|done].
  apply Forall_forall. intros c Hc. eapply forallb_forall in H1; [done|]. by apply list_elem_of_In.
Qed.

Lemma arr_ok {A} (f : A → json) l : (∀ x, ok (f x)) → ok (JArr (map f l)).
Proof. intros H. apply ok_arr, Forall_fmap, Forall_forall. intros x _. apply H. Qed.

Ltac fields := apply fields_ok; repeat (apply Forall_cons; split; [split; [reflexivity|]|]); [..|apply Forall_nil; exact I].

Lemma id_value_ok now x : ok (id_value now x).
Proof. unfold id_value, field. fields; try exact I. apply hex_bytes_plain. Qed.

Lemma recent_value_ok f : ok (recent_value f).
Proof. unfold recent_value, field. fields; try exact I. apply (hex_bytes_plain (f_len f) (f_data f)). Qed.

Lemma stats_value_ok port started now seen v : ok (stats_value port started now seen v).
Proof.
  unfold stats_value, head_fields, field. cbv zeta. cbn [app]. fields; try exact I.
  - split; [done|apply units_nonneg].
  - unfold latency_value, field. fields; try exact I. split; [done|apply units_nonneg].
  - by apply arr_ok.
  - apply arr_ok, id_value_ok.
  - apply arr_ok, recent_value_ok.
Qed.

(** ** The state under the lock *)

(** The critical sections of the frame loop, one after the other: a connection made, a
    batch or timeout or protocol error handled, the connection lost. *)
Inductive served : View → Prop :=
  | served_start next_tick : served (make_view next_tick)
  | served_connect v : served v → served (view_connect v)
  | served_event v (ev : Event Z) :
      served v → (ev.2.1 = Status.kOk → Forall frame_acceptable ev.2.2) → served (hear v ev)
  | served_disconnect v : served v → served (set_connected false v).

Lemma u64_short z : prints_short (u64 z).
Proof. pose proof (u64_fits z). unfold prints_short, fits in *. pow_consts. lia. Qed.

Lemma fits_short k z : 0 <= k <= 64 → fits k z → prints_short z.
Proof.
  intros Hk [H1 H2]. pose proof (Z.pow_le_mono_r 2 k 64). unfold prints_short. lia.
Qed.

(** *** The invariant of the critical sections *)

Definition tally_ready (ty : Tally) : Prop :=
  prints_short (gs_markers (gt_s (ty_gaps ty))) ∧ prints_short (gs_silent_jumps (gt_s (ty_gaps ty))) ∧
  prints_short (ty_protocol_errs ty).

Lemma gaps_ready v : Forall prints_short (gap_counts v) ↔ tally_ready (v_tally v).
Proof.
  unfold gap_counts, tally_ready. rewrite !Forall_cons, Forall_nil.
  assert (prints_short (total_lost (ty_gaps (v_tally v)))) by apply u64_short. tauto.
Qed.

Lemma tally_frame_ready f ty : tally_ready ty → tally_ready (tally_frame f ty).
Proof.
  intros (H1 & H2 & H3). unfold tally_frame, GapTracker.observe.
  destruct (is_echo f); [done|]. destruct (is_gap f).
  - unfold tally_ready. destruct (gap_reason f); simpl; auto using u64_short.
  - destruct (gt_have _ && _); unfold tally_ready; simpl; auto using u64_short.
Qed.

Lemma tally_end_ready st ty : tally_ready ty → tally_ready (tally_end st ty).
Proof. intros (H1 & H2 & H3). destruct st; try done. unfold tally_ready. simpl. auto using u64_short. Qed.

Lemma set_tally_ready ty v : view_ready v → tally_ready ty → view_ready (set_tally ty v).
Proof. intros [] H. constructor; try done. by apply gaps_ready. Qed.

Lemma view_tally_ready v : view_ready v → tally_ready (v_tally v).
Proof. intros H. apply gaps_ready, H. Qed.

Lemma add_ready now d l :
  Forall (λ x : Z * Z, prints_short x.2) l → prints_short d →
  Forall (λ x : Z * Z, prints_short x.2) (RollingLatency.add now d l) ∧
  Z.of_nat (length (RollingLatency.add now d l)) < 2 ^ 63.
Proof.
  intros Hl Hd. unfold RollingLatency.add.
  destruct (trim_suffix (if now >? RollingLatency.kWindowNs then now - RollingLatency.kWindowNs else 0) (l ++ [(now, d)]))
    as (k & E & Hn). split; [|unfold RollingLatency.kMaxSamples in Hn; lia].
  rewrite E. apply Forall_drop, Forall_app. split; [done|]. by constructor.
Qed.

Lemma update_ids_ready now f ids :
  frame_acceptable f → map_Forall (λ id s, id_ready (id, s)) ids →
  map_Forall (λ id s, id_ready (id, s)) (update_ids now f ids).
Proof.
  intros [(_ & _ & _ & H2 & H3 & H4 & _) _] Hids. unfold update_ids.
  assert (prints_short (f_can_id f)) by (by apply (fits_short 32)).
  assert (∀ (m : gmap Z IdStat) c, map_Forall (λ id s, id_ready (id, s)) m →
    map_Forall (λ id s, id_ready (id, s)) (<[f_can_id f := mkIdStat (u64 c) now (f_src_id f) (f_len f) (f_data f)]> m)) as Hput.
  { intros m c Hm. apply map_Forall_insert_2; [|done]. unfold id_ready. simpl.
    split_and!; [done|apply u64_short|by apply (fits_short 8)|by apply (fits_short 8)]. }
  destruct (ids !! f_can_id f) as [s|] eqn:E; [rewrite E; by apply Hput|].
  case_decide; [|by rewrite E]. rewrite lookup_insert_eq. apply Hput. apply map_Forall_insert_2; [|done].
  unfold id_ready. simpl. by split_and!.
Qed.

Lemma push_recent_ready f l : frame_acceptable f → Forall frame_acceptable l → Forall frame_acceptable (push_recent f l).
Proof.
  intros Hf Hl. unfold push_recent. assert (Forall frame_acceptable (l ++ [f])) as H by (apply Forall_app; auto).
  case_match; [|done]. destruct (l ++ [f]); [done|]. by apply Forall_cons in H as [_ H].
Qed.

Lemma view_frame_ready now f v : frame_acceptable f → view_ready v → view_ready (view_frame now f v).
Proof.
  intros Hf Hv. unfold view_frame.
  pose proof (set_tally_ready _ v Hv (tally_frame_ready f _ (view_tally_ready v Hv))) as H.
  destruct (GapTracker.observe _ f).2; [|done]. revert H. generalize (set_tally (tally_frame f (v_tally v)) v).
  intros w [H1 H2 H3 H4 H5 H6 H7 H8 H9 [H10 H11]].
  assert (prints_short (f_seq f)) as Hs by (destruct Hf as [(Hs & _) _]; by apply (fits_short 64)).
  unfold take_real. set (d := s64 now - s64 (f_t_ingest_ns f)).
  constructor; cbn [v_frames v_batches v_reconnects v_first_seq v_last_seq v_off_domain v_ids v_recent v_latency];
    try done; try apply u64_short.
  - by destruct (v_have_seq w).
  - case_match; [done|apply u64_short].
  - by apply update_ids_ready.
  - by apply push_recent_ready.
  - destruct (same_clock_domain d) eqn:Ed; [|done]. apply add_ready; [done|].
    unfold same_clock_domain, kMaxPlausibleLatencyNs in Ed. apply andb_true_iff in Ed as [E1 E2].
    unfold prints_short. clearbody d. zbool. pow_consts. lia.
Qed.

Lemma hear_ready v (ev : Event Z) :
  view_ready v → (ev.2.1 = Status.kOk → Forall frame_acceptable ev.2.2) → view_ready (hear v ev).
Proof.
  destruct ev as [now [st b]]. cbn [fst snd]. intros Hv Hs. unfold hear. cbn [end_read begin_read take_frame view_consumer].
  assert (∀ w, view_ready w → view_ready (tick now (set_tally (tally_end st (v_tally w)) w))) as Hend.
  { intros w Hw. pose proof (set_tally_ready _ w Hw (tally_end_ready st _ (view_tally_ready w Hw))) as H.
    unfold tick. case_match; [|done]. by destruct H. }
  assert (view_ready match st, b with Status.kOk, _ :: _ => count_batch v | _, _ => v end) as Hb.
  { destruct st, b; try done. destruct Hv. constructor; try done. apply u64_short. }
  apply Hend. revert Hb. generalize match st, b with Status.kOk, _ :: _ => count_batch v | _, _ => v end.
  intros w Hw. case_bool_decide as Hok; [|done]. specialize (Hs Hok). revert w Hw.
  induction Hs as [|f b Hf _ IH]; intros w Hw; [done|]. rewrite filter_cons.
  case_decide; [|by apply IH]. cbn [fold_left]. by apply IH, view_frame_ready.
Qed.

Lemma served_ready v : served v → view_ready v.
Proof.
  induction 1 as [t|v _ IH|v ev _ IH Hs|v _ IH].
  - constructor; try done. by apply gaps_ready.
  - destruct IH. constructor; try done. apply u64_short.
  - by apply hear_ready.
  - by destruct IH.
Qed.

(** Every state the program's loop ends a pass in is one of these. *)
Lemma hears_served (evs : list (Event Z)) v :
  served v → Forall (λ ev, ev.2.1 = Status.kOk → Forall frame_acceptable ev.2.2) evs →
  served (fold_left hear evs v).
Proof. intros Hv H. revert v Hv. induction H as [|ev evs He _ IH]; intros v Hv; [done|]. by apply IH, served_event. Qed.

Lemma consume_served (attempts : list (Attempt Z)) reconnect failed v v' :
  Forall conn_ok attempts → served v → consume reconnect attempts v = Some (failed, v') → served v'.
Proof.
  intros Ha Hv Hc. pose proof (history_lived reconnect attempts Ha) as Hl. apply consume_spec in Hc as ->.
  generalize dependent (history reconnect attempts). intros rs Hl. revert v Hv rs Hl.
  induction Ha as [|a attempts Ha1 _ IH]; intros v Hv rs Hl.
  { destruct rs; [done|]. by destruct Hl. }
  destruct rs as [|[now evs] rs]; [done|]. simpl in Hl. unfold conn_ok in Ha1.
  destruct (at_conn a) as [[[now' net] steps]|]; [|by apply (IH v Hv ((now, evs) :: rs))].
  destruct Hl as (_ & Hh & _ & Hl). cbn [fold_left]. apply IH; [|done]. unfold live. cbn [fst snd].
  apply served_disconnect, hears_served; [by apply served_connect|].
  clear IH Hl. revert net Ha1 Hh. induction evs as [|[h [st b]] evs IHe]; intros net Hb Hh; [done|].
  destruct st; simpl in Hh.
  - destruct Hh as (rest & Hp & Hh). constructor.
    + intros _. by destruct (parse_batch_inv _ _ _ Hb Hp) as (H1 & _).
    + eapply IHe; [|exact Hh]. by eapply parse_rest_bytes.
  - destruct Hh as [_ Hh]. constructor; [done|]. by eapply IHe.
  - done.
  - destruct Hh as [_ ->]. by constructor.
Qed.

Lemma stats_parses port started now seen v :
  fits 16 port → served seen → served v →
  parse_json (json_stats port started now seen v) = Some (stats_value port started now seen v).
Proof.
  intros Hp Hs Hv. rewrite json_stats_print by (done || by apply served_ready). apply parse_print, stats_value_ok.
Qed.

(** C36. The page's data is exact JSON. Whatever the gateway sent, and at whatever moments
    the two snapshots are taken, the text of /stats.json parses, and parses to the value
    with every counter of the state in its field, the rates oldest first, the ids
    ascending with their counts and payloads, the recent frames newest first and the
    percentiles of the samples copied: no piece is ever cut by its 512-byte buffer. The
    uptime and the ages, computed in doubles, are off by at most half their last decimal
    and a relative 2^-50. *)
Theorem stats_json_exact port started now seen v :
  fits 16 port → served seen → served v →
  parse_json (json_stats port started now seen v) = Some (stats_value port started now seen v) ∧
  prints_near 1 (u64 (now - started)) 1000000000 ∧
  (∀ id s, v_ids v !! id = Some s → prints_near 0 (u64 (now - id_last_seen_ns s)) 1000000).
Proof.
  intros Hp Hs Hv. split; [by apply stats_parses|split; [|intros id s _]; apply fixed_ratio; apply u64_range || lia].
Qed.

Definition page_view : View :=
  match consume true view_attempts (make_view 0) with Some (_, v) => v | None => make_view 0 end.

Lemma page_view_served : served page_view.
Proof.
  assert (consume true view_attempts (make_view 0) = Some (false, page_view)) as E by (vm_compute; reflexivity).
  eapply consume_served; [|apply (served_start 0)|exact E].
  apply (bool_decide_unpack _). by vm_compute.
Qed.

Lemma stats_json_exact_witness :
  ∃ l, parse_json (json_stats 9003 0 2000000000 page_view page_view) = Some (JObj l) ∧
       lookup 3%nat l = Some (field "frames" (JInt 3)) ∧ lookup 2%nat l = Some (field "uptime_s" (JDec 1 20)).
Proof.
  destruct (stats_json_exact 9003 0 2000000000 page_view page_view) as [H _];
    [split; reflexivity || discriminate|exact page_view_served|exact page_view_served|].
  eexists. split; [exact H|]. split; vm_compute; reflexivity.
Defined.
