(* ===== verification/Http.v ===== *)
(** * Http: the page server of the viewer (src/src/http.hpp, src/src/http.cpp)

    The request reader, the path parser, the response writer and the accept loop. Text is
    a list of characters; what the client's socket and [poll] answer are arguments, and so
    is the handler. *)

From stdpp Require Import pretty.
From Stdlib Require Import Ascii String.
From S2P Require Import Prelude Samples Egress.

Definition text (s : string) : list ascii := list_ascii_of_string s.

Definition kMaxRequest : Z := 8192.
Definition kRecvBuffer : nat := 2048.

Definition space : ascii := " "%char.
Definition question : ascii := "?"%char.
Definition crlf : list ascii := ["013"; "010"]%char.

Record Response := mkResponse { r_status : Z; r_content_type : list ascii; r_body : list ascii }.

Definition reason (status : Z) : list ascii :=
  text (if status =? 200 then "OK"%string else if status =? 400 then "Bad Request"%string
        else if status =? 404 then "Not Found"%string
        else if status =? 413 then "Payload Too Large"%string else "Error"%string).

(** [std::string::find] of a character, from a position on. *)
Fixpoint find (c : ascii) (from : nat) (s : list ascii) : option nat :=
  match s with
  | [] => None
  | x :: s =>
      match from with
      | O => if decide (x = c) then Some O else S <$> find c O s
      | S from => S <$> find c from s
      end
  end.

Definition request_path (request : list ascii) : option (list ascii) :=
  match find space 0 request with
  | None => None
  | Some sp1 =>
      match find space (sp1 + 1) request with
      | None => None
      | Some sp2 =>
          let path := take (sp2 - sp1 - 1) (drop (sp1 + 1) request) in
          let path := match find question 0 path with Some q => take q path | None => path end in
          match path with [] => None | _ => Some path end
      end
  end.

(** [request.find] of the empty line that ends the headers. *)
Fixpoint has_end (s : list ascii) : bool :=
  match s with
  | [] => false
  | x :: rest => bool_decide (take 4 s = crlf ++ crlf) || has_end rest
  end.

(** One [recv] and, when it would block, whether the [poll] that follows reports data. *)
Inductive RecvAnswer :=
  | RcvSome (chunk : list ascii)
  | RcvEof
  | RcvIntr
  | RcvAgain (ready : bool)
  | RcvFail.

Inductive Request := Complete (request : list ascii) | TooLarge | Gone.

(** The read loop; [None] when the answers end first. *)
Fixpoint read_request (answers : list RecvAnswer) (request : list ascii) : option Request :=
  if has_end request then Some (Complete request)
  else if Z.of_nat (length request) >? kMaxRequest then Some TooLarge
  else
    match answers with
    | [] => None
    | RcvSome chunk :: answers => read_request answers (request ++ take kRecvBuffer chunk)
    | RcvEof :: _ => Some Gone
    | RcvIntr :: answers => read_request answers request
    | RcvAgain true :: answers => read_request answers request
    | RcvAgain false :: _ => Some Gone
    | RcvFail :: _ => Some Gone
    end.

Definition number (n : nat) : list ascii := text (pretty (N.of_nat n)).

Definition too_large : list ascii :=
  let body := text "request too large"%string in
  text "HTTP/1.1 413 Payload Too Large"%string ++ crlf ++ text "Content-Length: "%string
  ++ number (length body) ++ crlf ++ text "Connection: close"%string ++ crlf ++ crlf ++ body.

Definition header_text (res : Response) : list ascii :=
  text "HTTP/1.1 "%string ++ text (pretty (Z.to_N (r_status res))) ++ [space] ++ reason (r_status res)
  ++ crlf ++ text "Content-Type: "%string ++ r_content_type res
  ++ crlf ++ text "Content-Length: "%string ++ number (length (r_body res))
  ++ crlf ++ text "Cache-Control: no-store"%string ++ crlf ++ text "Connection: close"%string.

Definition render (res : Response) : list ascii := header_text res ++ crlf ++ crlf ++ r_body res.

(** The write loop: what the socket took. A [send] that would block is followed by a
    [poll]; any other failure, and a return of zero, end it. *)
Fixpoint write_response (out : list ascii) (answers : list SendAnswer) : option (list ascii) :=
  match out with
  | [] => Some []
  | _ =>
      match answers with
      | [] => None
      | a :: answers =>
          if sa_n a >? 0 then
            let k := Nat.min (Z.to_nat (sa_n a)) (length out) in
            (take k out ++.) <$> write_response (drop k out) answers
          else if sa_n a <? 0 then
            match sa_errno a with
            | EAgain => if sa_poll_rc a <=? 0 then Some [] else write_response out answers
            | EIntr => write_response out answers
            | EOther => Some []
            end
          else Some []
      end
  end.

Record Server := mkServer { srv_started : bool; srv_requests : Z }.

Definition respond (handler : list ascii → Response) (request : list ascii) : Response :=
  match request_path request with
  | None => mkResponse 400 (text "text/plain"%string) (text "malformed request"%string)
  | Some path => handler path
  end.

(** [serve_one]: the bytes sent to the client. The 413 answer is one unchecked [send]. *)
Definition serve_one (handler : list ascii → Response) (recvs : list RecvAnswer)
    (sends : list SendAnswer) (s : Server) : option (list ascii * Server) :=
  match read_request recvs [] with
  | None => None
  | Some Gone => Some ([], s)
  | Some TooLarge =>
      match sends with
      | [] => None
      | a :: _ => Some (take (Z.to_nat (sa_n a)) too_large, s)
      end
  | Some (Complete request) =>
      match write_response (render (respond handler request)) sends with
      | None => None
      | Some sent => Some (sent, mkServer (srv_started s) (u64 (srv_requests s + 1)))
      end
  end.

(** What one [poll] of the accept loop reports: an error, nothing, or whether the stop
    descriptor is readable and the connection [accept] yields. *)
Inductive ServePoll :=
  | SrvFail (eintr : bool)
  | SrvIdle
  | SrvReady (stop : bool) (conn : option (list RecvAnswer * list SendAnswer)).

(** [run]: the clients' bytes. A failed [poll] ends the thread. *)
Fixpoint run (handler : list ascii → Response) (polls : list ServePoll) (s : Server)
  : option (list (list ascii) * Server) :=
  match polls with
  | [] => None
  | SrvFail true :: polls => run handler polls s
  | SrvFail false :: _ => Some ([], s)
  | SrvIdle :: polls => run handler polls s
  | SrvReady true _ :: _ => Some ([], s)
  | SrvReady false None :: polls => run handler polls s
  | SrvReady false (Some (recvs, sends)) :: polls =>
      match serve_one handler recvs sends s with
      | None => None
      | Some (sent, s) =>
          match run handler polls s with
          | None => None
          | Some (outs, s) => Some (sent :: outs, s)
          end
      end
  end.

Definition start (s : Server) : Server := if srv_started s then s else mkServer true (srv_requests s).

(** The handler view_main.cpp installs, given the statistics and the page. *)
Definition routes (stats_json page : list ascii) (path : list ascii) : Response :=
  if decide (path = text "/stats.json"%string)
  then mkResponse 200 (text "application/json"%string) stats_json
  else if decide (path = text "/"%string ∨ path = text "/index.html"%string)
  then mkResponse 200 (text "text/html; charset=utf-8"%string) page
  else mkResponse 404 (text "text/plain"%string) (text "not found"%string).

(** ** Lemmas *)

Lemma find_skip c l r from :
  find c (length l + from) (l ++ r) = (λ n, length l + n)%nat <$> find c from r.
Proof.
  induction l as [|x l IH]; simpl; [by destruct (find c from r)|]. rewrite IH.
  by destruct (find c from r).
Qed.

Lemma find_first c l r : c ∉ l → find c 0 (l ++ c :: r) = Some (length l).
Proof.
  induction l as [|x l IH]; intros Hl; simpl; [by rewrite decide_True|].
  rewrite decide_False by set_solver. by rewrite IH by set_solver.
Qed.

Lemma find_none c l : c ∉ l → find c 0 l = None.
Proof.
  induction l as [|x l IH]; intros Hl; simpl; [done|]. rewrite decide_False by set_solver.
  by rewrite IH by set_solver.
Qed.

(** The query part of a target. *)
Definition query_text (q : option (list ascii)) : list ascii :=
  match q with Some q => question :: q | None => [] end.

(** A request as a client writes it. *)
Definition request_text (method path : list ascii) (q : option (list ascii)) (rest : list ascii) : list ascii :=
  method ++ space :: (path ++ query_text q) ++ space :: rest.

Lemma request_path_line method path q rest :
  space ∉ method → space ∉ path ++ query_text q → question ∉ path → path ≠ [] →
  request_path (request_text method path q rest) = Some path.
Proof.
  intros Hm Hs Hq Hp. unfold request_path, request_text. rewrite find_first by done.
  set (target := path ++ query_text q) in *.
  assert (find space (length method + 1) (method ++ space :: target ++ space :: rest)
          = Some (length method + S (length target))%nat) as ->.
  { rewrite find_skip. simpl. by rewrite find_first. }
  assert (drop (length method + 1) (method ++ space :: target ++ space :: rest) = target ++ space :: rest) as ->.
  { rewrite <- drop_drop, drop_app_length. done. }
  replace (length method + S (length target) - length method - 1)%nat with (length target) by lia.
  rewrite take_app_length. cbv zeta.
  assert (match find question 0 target with Some q => take q target | None => target end = path) as ->.
  { unfold target. destruct q as [q|]; simpl query_text.
    - by rewrite find_first, take_app_length.
    - rewrite app_nil_r. by rewrite find_none. }
  by destruct path.
Qed.

(** A client that keeps the request coming. *)
Definition coming (a : RecvAnswer) : Prop :=
  match a with
  | RcvSome chunk => (length chunk <= kRecvBuffer)%nat
  | RcvIntr | RcvAgain true => True
  | _ => False
  end.

#[global] Instance coming_dec a : Decision (coming a).
Proof. destruct a as [| | |[]|]; simpl; apply _. Defined.

Definition arriving (answers : list RecvAnswer) : list ascii :=
  concat (map (λ a, match a with RcvSome chunk => chunk | _ => [] end) answers).

Lemma read_request_complete answers request req :
  Forall coming answers → request ++ arriving answers = req → has_end req = true →
  (∀ k, (k < length req)%nat → has_end (take k req) = false) →
  Z.of_nat (length req) <= kMaxRequest →
  read_request answers request = Some (Complete req).
Proof.
  intros Ha Hreq He Hfirst Hlen. revert request Hreq. induction Ha as [|a answers Ha _ IH]; intros request Hreq.
  { unfold arriving in Hreq. simpl in Hreq. rewrite app_nil_r in Hreq. subst. simpl. by rewrite He. }
  cbn [read_request]. destruct (has_end request) eqn:Hr.
  - destruct (decide (length request < length req)%nat) as [Hlt|Hge].
    + specialize (Hfirst _ Hlt). rewrite <- Hreq, take_app_length in Hfirst. congruence.
    + do 2 f_equal. rewrite <- Hreq in *. rewrite length_app in Hge.
      rewrite (nil_length_inv (arriving (a :: answers))) by lia. by rewrite app_nil_r.
  - assert (length request <= length req)%nat as Hle by (rewrite <- Hreq, length_app; lia).
    rewrite Z.gtb_ltb. destruct (Z.ltb_spec kMaxRequest (Z.of_nat (length request))); [lia|].
    unfold arriving in *. simpl in Hreq.
    destruct a as [chunk| | |[]|]; simpl in Ha; try done; try (by apply IH).
    rewrite take_ge by done. apply IH. by rewrite <- app_assoc.
Qed.

(** A client that takes the response, in pieces of any size. *)
Definition taking (a : SendAnswer) : Prop :=
  0 < sa_n a ∨ (sa_n a < 0 ∧ (sa_errno a = EIntr ∨ sa_errno a = EAgain ∧ 0 < sa_poll_rc a)).

#[global] Instance SendErrno_eq_dec : EqDecision SendErrno.
Proof. solve_decision. Defined.

#[global] Instance taking_dec a : Decision (taking a).
Proof. unfold taking. apply _. Defined.

Lemma write_response_complete out answers :
  Forall taking answers → (length out <= length (filter (λ a, (0 < sa_n a)%Z) answers))%nat →
  write_response out answers = Some out.
Proof.
  intros Ha. revert out. induction Ha as [|a answers Ha _ IH]; intros out Hl.
  { destruct out; [done|]. simpl in Hl. lia. }
  destruct out as [|x out]; [done|]. cbn [write_response]. set (o := x :: out) in *.
  rewrite filter_cons in Hl. destruct Ha as [Hpos|[Hneg He]].
  - rewrite decide_True in Hl by done. rewrite Z.gtb_ltb. destruct (Z.ltb_spec 0 (sa_n a)); [|lia].
    set (k := Nat.min (Z.to_nat (sa_n a)) (length o)). assert (1 <= k)%nat by (unfold k, o; simpl; lia).
    rewrite IH; [simpl; by rewrite take_drop|]. rewrite length_drop. cbn [length] in Hl. lia.
  - rewrite decide_False in Hl by lia. rewrite Z.gtb_ltb.
    destruct (Z.ltb_spec 0 (sa_n a)); [lia|]. destruct (Z.ltb_spec (sa_n a) 0); [|lia].
    destruct He as [->|[-> Hp]]; [by apply IH|]. destruct (Z.leb_spec (sa_poll_rc a) 0); [lia|by apply IH].
Qed.

(** ** Properties *)

(** C22. A request is served whatever the segmentation. For any client whose request line
    is a method, a non-empty path, an optional query and a version, whose headers end
    within 8192 bytes, and whose request and response cross the socket in pieces of any
    size with any interruptions, the server sends exactly the response the handler gives
    for the path without the query, with the length of its body announced, and counts
    the request. *)
Theorem http_request_served (handler : list ascii → Response) (method path rest : list ascii)
    (q : option (list ascii)) (recvs : list RecvAnswer) (sends : list SendAnswer) (s : Server) :
  let req := request_text method path q rest in
  space ∉ method → space ∉ path ++ query_text q → question ∉ path → path ≠ [] →
  has_end req = true → (∀ k, (k < length req)%nat → has_end (take k req) = false) →
  Z.of_nat (length req) <= kMaxRequest →
  Forall coming recvs → arriving recvs = req →
  Forall taking sends →
  (length (render (handler path)) <= length (filter (λ a, (0 < sa_n a)%Z) sends))%nat →
  serve_one handler recvs sends s
  = Some (render (handler path), mkServer (srv_started s) (u64 (srv_requests s + 1))).
Proof.
  intros req Hm Hs Hq Hp He Hf Hl Hc Har Ht Hn. unfold serve_one.
  rewrite (read_request_complete recvs [] req) by done. unfold respond.
  unfold req. rewrite request_path_line by done. by rewrite write_response_complete.
Qed.

(** ** Witnesses *)

Definition demo_rest : list ascii := text "HTTP/1.1"%string ++ crlf ++ text "Host: gw"%string ++ crlf ++ crlf.

Definition demo_request : list ascii :=
  request_text (text "GET"%string) (text "/stats.json"%string) (Some (text "t=1"%string)) demo_rest.

Definition demo_recvs : list RecvAnswer :=
  [RcvAgain true; RcvSome (take 10 demo_request); RcvIntr; RcvSome (drop 10 demo_request)].

Definition demo_handler : list ascii → Response := routes (text "{}"%string) (text "<html>"%string).

Lemma http_request_served_witness :
  ∃ sent, serve_one demo_handler demo_recvs (replicate 200 (mkSend 3 EAgain 0 false false)) (mkServer true 4)
          = Some (sent, mkServer true 5) ∧ sent = render (demo_handler (text "/stats.json"%string)).
Proof.
  exists (render (demo_handler (text "/stats.json"%string))). split; [|reflexivity].
  refine (http_request_served demo_handler (text "GET"%string) (text "/stats.json"%string) demo_rest
            (Some (text "t=1"%string)) demo_recvs (replicate 200 (mkSend 3 EAgain 0 false false))
            (mkServer true 4) _ _ _ _ _ _ _ _ _ _ _).
  1-3: apply (bool_decide_unpack _); vm_compute; exact I.
  - discriminate.
  - vm_compute. reflexivity.
  - assert (Forall (λ k, has_end (take k demo_request) = false) (seq 0 (length demo_request))) as H
      by (apply (bool_decide_unpack _); vm_compute; exact I).
    intros k Hk. eapply Forall_forall in H; [exact H|]. apply list_elem_of_In, in_seq.
    split; [apply Nat.le_0_l|exact Hk].
  - vm_compute. discriminate.
  - apply (bool_decide_unpack _). vm_compute. exact I.
  - vm_compute. reflexivity.
  - apply (bool_decide_unpack _). vm_compute. exact I.
  - apply Nat.leb_le. vm_compute. reflexivity.
Defined.

(** A request line without a target is answered with 400. *)
Lemma malformed_request_answered : r_status (respond demo_handler (text "GET"%string)) = 400.
Proof. reflexivity. Qed.
