(* ===== verification/Page.v ===== *)
(** * Page: the viewer's web page and the data it asks for (src/src/view_main.cpp)

    The page is one constant text: a style sheet, a body whose elements have names, and a
    script that fetches the statistics every half second and writes them into the named
    elements. The script is another program written against the server's answers; here its
    text is searched for the paths it fetches, the elements it looks up and the fields it
    reads, and each is shown to exist on the other side. *)

From Stdlib Require Import Ascii String.
From S2P Require Import Prelude Text Doubles Printf Json Samples GapTracker Consumers Programs View StatsJson Http.

(** ** The text, by lines; a caret stands for a double quote *)

(** The head of the page. *)
Definition page_style : list string :=
  ["<!doctype html>";
   "<html lang=^en^><head><meta charset=^utf-8^>";
   "<meta name=^viewport^ content=^width=device-width,initial-scale=1^>";
   "<title>Edge Telemetry Gateway — live</title>";
   "<style>";
   ":root{";
   "  color-scheme: light;";
   "  --plane:#f9f9f7; --surface:#fcfcfb;";
   "  --ink:#0b0b0b; --ink-2:#52514e; --muted:#898781;";
   "  --grid:#e1e0d9; --axis:#c3c2b7; --ring:rgba(11,11,11,.10);";
   "  --series:#2a78d6; --series-soft:rgba(42,120,214,.14);";
   "  --good:#0ca30c; --critical:#d03b3b;";
   "}";
   "@media (prefers-color-scheme: dark){";
   "  :root:not([data-theme=^light^]){";
   "    color-scheme: dark;";
   "    --plane:#0d0d0d; --surface:#1a1a19;";
   "    --ink:#fff; --ink-2:#c3c2b7; --muted:#898781;";
   "    --grid:#2c2c2a; --axis:#383835; --ring:rgba(255,255,255,.10);";
   "    --series:#3987e5; --series-soft:rgba(57,135,229,.18);";
   "  }";
   "}";
   ":root[data-theme=^dark^]{";
   "  color-scheme: dark;";
   "  --plane:#0d0d0d; --surface:#1a1a19;";
   "  --ink:#fff; --ink-2:#c3c2b7; --muted:#898781;";
   "  --grid:#2c2c2a; --axis:#383835; --ring:rgba(255,255,255,.10);";
   "  --series:#3987e5; --series-soft:rgba(57,135,229,.18);";
   "}";
   "*{box-sizing:border-box}";
   "body{margin:0;background:var(--plane);color:var(--ink);";
   "  font:14px/1.5 system-ui,-apple-system,^Segoe UI^,sans-serif}";
   ".wrap{max-width:1180px;margin:0 auto;padding:24px 20px 64px}";
   "header{display:flex;align-items:baseline;gap:14px;flex-wrap:wrap;margin-bottom:22px}";
   "h1{font-size:19px;font-weight:650;margin:0;letter-spacing:-.01em}";
   ".sub{color:var(--muted);font-size:13px}";
   ".pill{display:inline-flex;align-items:center;gap:6px;font-size:12px;font-weight:600;";
   "  padding:3px 10px;border-radius:999px;border:1px solid var(--ring)}";
   ".dot{width:7px;height:7px;border-radius:50%;background:currentColor}";
   ".up{color:var(--good)} .down{color:var(--critical)}";
   ".card{background:var(--surface);border:1px solid var(--ring);border-radius:10px;padding:16px 18px}";
   ".grid{display:grid;gap:12px}";
   ".kpis{grid-template-columns:repeat(auto-fit,minmax(150px,1fr));margin-bottom:12px}";
   ".kpi .label{color:var(--muted);font-size:12px;text-transform:uppercase;letter-spacing:.05em}";
   ".kpi .value{font-size:27px;font-weight:640;letter-spacing:-.02em;margin-top:3px}";
   ".kpi .unit{font-size:14px;font-weight:450;color:var(--ink-2);margin-left:3px}";
   "h2{font-size:13px;font-weight:640;margin:0 0 12px;color:var(--ink-2)}";
   ".pcts{display:grid;grid-template-columns:repeat(auto-fit,minmax(96px,1fr));gap:10px}";
   ".pct .k{color:var(--muted);font-size:11px;font-variant-numeric:tabular-nums}";
   ".pct .v{font-size:17px;font-weight:600;font-variant-numeric:tabular-nums;margin-top:1px}";
   ".two{grid-template-columns:1fr 1fr;align-items:start}";
   "@media(max-width:860px){.two{grid-template-columns:1fr}}";
   "table{width:100%;border-collapse:collapse;font-variant-numeric:tabular-nums;font-size:13px}";
   "th{text-align:left;font-weight:600;color:var(--muted);font-size:11px;";
   "  text-transform:uppercase;letter-spacing:.05em;padding:0 8px 7px 0;border-bottom:1px solid var(--grid)}";
   "td{padding:6px 8px 6px 0;border-bottom:1px solid var(--grid);white-space:nowrap}";
   "tr:last-child td{border-bottom:none}";
   ".mono{font-family:ui-monospace,SFMono-Regular,Menlo,monospace;font-size:12px;color:var(--ink-2)}";
   ".num{text-align:right}";
   ".bar{height:6px;border-radius:3px;background:var(--series);min-width:2px;display:block}";
   ".barcell{width:120px}";
   ".scroll{max-height:340px;overflow-y:auto;overflow-x:auto}";
   ".empty{color:var(--muted);padding:20px 0;text-align:center}";
   "#tip{position:fixed;pointer-events:none;opacity:0;transition:opacity .1s;";
   "  background:var(--surface);border:1px solid var(--ring);border-radius:7px;";
   "  padding:7px 10px;font-size:12px;box-shadow:0 3px 12px rgba(0,0,0,.14);z-index:9}";
   "#tip .t{color:var(--muted);font-size:11px}";
   "#tip .b{font-weight:640;font-variant-numeric:tabular-nums}";
   "footer{margin-top:22px;color:var(--muted);font-size:12px}";
   ".note{margin:0;color:var(--ink-2);font-size:13px;max-width:62ch}";
   "</style></head><body>"]%string.

(** The elements. *)
Definition page_body : list string :=
  ["<div class=^wrap^>";
   "  <header>";
   "    <h1>Edge Telemetry Gateway</h1>";
   "    <span id=^conn^ class=^pill down^><span class=^dot^></span><span id=^connText^>connecting</span></span>";
   "    <span class=^sub^ id=^meta^></span>";
   "  </header>";
   EmptyString;
   "  <div class=^grid kpis^>";
   "    <div class=^card kpi^><div class=^label^>Rate</div>";
   "      <div class=^value^><span id=^k-rate^>–</span><span class=^unit^>frames/s</span></div></div>";
   "    <div class=^card kpi^><div class=^label^>Frames</div>";
   "      <div class=^value^ id=^k-frames^>–</div></div>";
   "    <div class=^card kpi^><div class=^label^>Loss markers</div>";
   "      <div class=^value^ id=^k-gaps^>–</div></div>";
   "    <div class=^card kpi^><div class=^label^>Missing</div>";
   "      <div class=^value^ id=^k-missing^>–</div></div>";
   "    <div class=^card kpi^><div class=^label^>CAN ids</div>";
   "      <div class=^value^ id=^k-ids^>–</div></div>";
   "  </div>";
   EmptyString;
   "  <div class=^card^ style=^margin-bottom:12px^>";
   "    <h2>Frames per second, last 60 s</h2>";
   "    <svg id=^chart^ width=^100%^ height=^150^ role=^img^";
   "         aria-label=^Frames received per second over the last 60 seconds^></svg>";
   "  </div>";
   EmptyString;
   "  <div class=^card^ style=^margin-bottom:12px^>";
   "    <h2>Consumer latency — ingest to here <span id=^l-window^ class=^sub^></span></h2>";
   "    <p id=^l-note^ class=^note^ hidden>Not measurable from here. The gateway is on";
   "      another machine, so its ingest timestamps and this clock count from different";
   "      boots and the difference between them is not a delay. Round-trip probes";
   "      measure the cross-machine path instead; see <span class=^mono^>--echo-ms</span>.</p>";
   "    <div class=^pcts^ id=^l-pcts^>";
   "      <div class=^pct^><div class=^k^>min</div><div class=^v^ id=^l-min^>–</div></div>";
   "      <div class=^pct^><div class=^k^>p50</div><div class=^v^ id=^l-p50^>–</div></div>";
   "      <div class=^pct^><div class=^k^>p90</div><div class=^v^ id=^l-p90^>–</div></div>";
   "      <div class=^pct^><div class=^k^>p99</div><div class=^v^ id=^l-p99^>–</div></div>";
   "      <div class=^pct^><div class=^k^>p99.9</div><div class=^v^ id=^l-p999^>–</div></div>";
   "      <div class=^pct^><div class=^k^>max</div><div class=^v^ id=^l-max^>–</div></div>";
   "    </div>";
   "  </div>";
   EmptyString;
   "  <div class=^grid two^>";
   "    <div class=^card^>";
   "      <h2>Traffic by CAN id</h2>";
   "      <div class=^scroll^><table>";
   "        <thead><tr><th>id</th><th>src</th><th class=^num^>frames</th>";
   "          <th class=^barcell^></th><th>payload</th><th class=^num^>age</th></tr></thead>";
   "        <tbody id=^ids^><tr><td colspan=^6^ class=^empty^>waiting for frames</td></tr></tbody>";
   "      </table></div>";
   "    </div>";
   "    <div class=^card^>";
   "      <h2>Most recent frames</h2>";
   "      <div class=^scroll^><table>";
   "        <thead><tr><th class=^num^>seq</th><th>id</th><th>src</th><th>payload</th></tr></thead>";
   "        <tbody id=^recent^><tr><td colspan=^4^ class=^empty^>waiting for frames</td></tr></tbody>";
   "      </table></div>";
   "    </div>";
   "  </div>";
   EmptyString;
   "  <footer>";
   "    Observed through the same protocol as any other consumer. Queue depth, drop counts and";
   "    back-pressure live in the gateway and are printed there — a consumer is not told about them.";
   "    Latency is a rolling window for watching, not a measurement: for numbers to publish,";
   "    run <span class=^mono^>etg-probe --warmup</span>.";
   "  </footer>";
   "</div>";
   "<div id=^tip^></div>";
   EmptyString]%string.

(** The script: formatting and the chart. *)
Definition page_draw : list string :=
  ["<script>";
   "const $ = id => document.getElementById(id);";
   "const nf = new Intl.NumberFormat();";
   "let rate = [];";
   EmptyString;
   "function ns(v){";
   "  if (v === 0) return ^0^;";
   "  if (Math.abs(v) < 1000) return v + ^ ns^;";
   "  if (Math.abs(v) < 1e6) return (v/1e3).toFixed(1) + ^ µs^;";
   "  return (v/1e6).toFixed(2) + ^ ms^;";
   "}";
   "function age(ms){";
   "  if (ms < 1000) return Math.round(ms) + ^ ms^;";
   "  if (ms < 60000) return (ms/1000).toFixed(1) + ^ s^;";
   "  return Math.round(ms/60000) + ^ m^;";
   "}";
   EmptyString;
   "function draw(){";
   "  const svg = $(^chart^), W = svg.clientWidth || 900, H = 150;";
   "  const padL = 46, padR = 8, padT = 10, padB = 20;";
   "  const w = W - padL - padR, h = H - padT - padB;";
   "  const peak = Math.max(1, ...rate);";
   "  // Round the ceiling up to something readable so the axis label is not 4173.";
   "  const mag = Math.pow(10, Math.floor(Math.log10(peak)));";
   "  const top = Math.ceil(peak / mag) * mag;";
   "  const x = i => padL + (rate.length < 2 ? 0 : (i / (rate.length - 1)) * w);";
   "  const y = v => padT + h - (v / top) * h;";
   EmptyString;
   "  let grid = ^^, ticks = ^^;";
   "  for (let g = 0; g <= 2; g++){";
   "    const v = (top / 2) * g, yy = y(v);";
   "    grid += `<line x1=^${padL}^ x2=^${W-padR}^ y1=^${yy}^ y2=^${yy}^ stroke=^var(--grid)^ stroke-width=^1^/>`;";
   "    ticks += `<text x=^${padL-8}^ y=^${yy+4}^ text-anchor=^end^ fill=^var(--muted)^ font-size=^11^>${nf.format(Math.round(v))}</text>`;";
   "  }";
   "  const line = rate.map((v,i) => `${i?^L^:^M^}${x(i).toFixed(1)},${y(v).toFixed(1)}`).join(^^);";
   "  const area = line + `L${x(rate.length-1).toFixed(1)},${padT+h}L${padL},${padT+h}Z`;";
   EmptyString;
   "  svg.setAttribute(^viewBox^, `0 0 ${W} ${H}`);";
   "  svg.innerHTML = grid +";
   "    `<path d=^${area}^ fill=^var(--series-soft)^/>` +";
   "    `<path d=^${line}^ fill=^none^ stroke=^var(--series)^ stroke-width=^2^";
   "       stroke-linejoin=^round^ stroke-linecap=^round^/>` +";
   "    `<line x1=^${padL}^ x2=^${W-padR}^ y1=^${padT+h}^ y2=^${padT+h}^ stroke=^var(--axis)^/>` +";
   "    ticks +";
   "    `<text x=^${padL}^ y=^${H-4}^ fill=^var(--muted)^ font-size=^11^>60 s ago</text>` +";
   "    `<text x=^${W-padR}^ y=^${H-4}^ text-anchor=^end^ fill=^var(--muted)^ font-size=^11^>now</text>` +";
   "    `<line id=^cross^ x1=^0^ x2=^0^ y1=^${padT}^ y2=^${padT+h}^ stroke=^var(--axis)^ stroke-width=^1^ opacity=^0^/>` +";
   "    `<circle id=^dot^ r=^4^ fill=^var(--series)^ stroke=^var(--surface)^ stroke-width=^2^ opacity=^0^/>`;";
   EmptyString;
   "  svg.onmousemove = e => {";
   "    const r = svg.getBoundingClientRect();";
   "    const px = (e.clientX - r.left) * (W / r.width);";
   "    let i = Math.round(((px - padL) / w) * (rate.length - 1));";
   "    i = Math.max(0, Math.min(rate.length - 1, i));";
   "    const cx = x(i), cy = y(rate[i]);";
   "    const cross = svg.querySelector(^#cross^), dot = svg.querySelector(^#dot^);";
   "    cross.setAttribute(^x1^, cx); cross.setAttribute(^x2^, cx); cross.setAttribute(^opacity^, ^1^);";
   "    dot.setAttribute(^cx^, cx); dot.setAttribute(^cy^, cy); dot.setAttribute(^opacity^, ^1^);";
   "    const tip = $(^tip^);";
   "    tip.innerHTML = `<div class=^t^>${rate.length-1-i} s ago</div>` +";
   "                    `<div class=^b^>${nf.format(rate[i])} frames/s</div>`;";
   "    tip.style.opacity = ^1^;";
   "    tip.style.left = Math.min(e.clientX + 14, window.innerWidth - 140) + ^px^;";
   "    tip.style.top = (e.clientY - 46) + ^px^;";
   "  };";
   "  svg.onmouseleave = () => {";
   "    $(^tip^).style.opacity = ^0^;";
   "    svg.querySelector(^#cross^).setAttribute(^opacity^, ^0^);";
   "    svg.querySelector(^#dot^).setAttribute(^opacity^, ^0^);";
   "  };";
   "}";
   EmptyString]%string.

(** The script: one refresh, and what starts it. *)
Definition page_tick : list string :=
  ["async function tick(){";
   "  let d;";
   "  try { d = await (await fetch(^/stats.json^, {cache:^no-store^})).json(); }";
   "  catch { $(^connText^).textContent = ^view unreachable^; return; }";
   EmptyString;
   "  const pill = $(^conn^);";
   "  pill.className = ^pill ^ + (d.connected ? ^up^ : ^down^);";
   "  $(^connText^).textContent = d.connected ? ^connected^ : ^waiting for gateway^;";
   "  $(^meta^).textContent =";
   "    `port ${d.port} · up ${Math.round(d.uptime_s)} s · ${nf.format(d.batches)} batches` +";
   "    (d.reconnects > 1 ? ` · ${d.reconnects} connections` : ^^) +";
   "    (d.protocol_errs ? ` · ${d.protocol_errs} protocol errors` : ^^) +";
   "    (d.silent ? ` · ${d.silent} unreported jumps` : ^^);";
   EmptyString;
   "  rate = d.rate;";
   "  $(^k-rate^).textContent   = nf.format(rate[rate.length - 2] || 0);";
   "  $(^k-frames^).textContent = nf.format(d.frames);";
   "  $(^k-gaps^).textContent   = nf.format(d.markers);";
   "  $(^k-missing^).textContent= nf.format(d.missing);";
   "  $(^k-ids^).textContent    = nf.format(d.ids.length);";
   EmptyString;
   "  const L = d.latency;";
   "  $(^l-window^).textContent = L.n && L.shared_clock";
   "    ? `· rolling ${L.span_s.toFixed(0)} s, ${nf.format(L.n)} frames`";
   "    : ^^;";
   "  const shared = L.shared_clock;";
   "  $(^l-pcts^).hidden = !shared;";
   "  $(^l-note^).hidden = shared;";
   "  if (shared) {";
   "    const set = (k,v) => $(k).textContent = L.n ? ns(v) : ^–^;";
   "    set(^l-min^,L.min); set(^l-p50^,L.p50); set(^l-p90^,L.p90);";
   "    set(^l-p99^,L.p99); set(^l-p999^,L.p999); set(^l-max^,L.max);";
   "  }";
   EmptyString;
   "  const ids = d.ids.slice().sort((a,b) => b.count - a.count);";
   "  const top = Math.max(1, ...ids.map(i => i.count));";
   "  $(^ids^).innerHTML = ids.length ? ids.map(i =>";
   "    `<tr><td class=^mono^>0x${i.id.toString(16).toUpperCase().padStart(3,^0^)}</td>` +";
   "    `<td>${i.src}</td><td class=^num^>${nf.format(i.count)}</td>` +";
   "    `<td class=^barcell^><span class=^bar^ style=^width:${Math.max(2,(i.count/top)*112)}px^></span></td>` +";
   "    `<td class=^mono^>${i.data || ^—^}</td>` +";
   "    `<td class=^num^>${age(i.age_ms)}</td></tr>`).join(^^)";
   "    : `<tr><td colspan=^6^ class=^empty^>waiting for frames</td></tr>`;";
   EmptyString;
   "  $(^recent^).innerHTML = d.recent.length ? d.recent.map(f =>";
   "    `<tr><td class=^num mono^>${f.seq}</td>` +";
   "    `<td class=^mono^>0x${f.id.toString(16).toUpperCase().padStart(3,^0^)}</td>` +";
   "    `<td>${f.src}</td><td class=^mono^>${f.data || ^—^}</td></tr>`).join(^^)";
   "    : `<tr><td colspan=^4^ class=^empty^>waiting for frames</td></tr>`;";
   EmptyString;
   "  draw();";
   "}";
   EmptyString;
   "tick();";
   "setInterval(tick, 500);";
   "addEventListener(^resize^, draw);";
   "</script></body></html>"]%string.

Definition unquote (c : ascii) : ascii := if decide (c = "^"%char) then dq else c.

Fixpoint join_lines (l : list (list ascii)) : list ascii :=
  match l with
  | [] => []
  | [x] => x
  | x :: l => x ++ "010"%char :: join_lines l
  end.

Definition page_text (lines : list string) : list ascii := map unquote (join_lines (map text lines)).

Definition kPage : list ascii := page_text (page_style ++ page_body ++ page_draw ++ page_tick).

Definition page_script : list ascii := page_text (page_draw ++ page_tick).

(** ** What a text mentions *)

(** The characters of a script identifier. *)
Definition ident_char (c : ascii) : bool :=
  let n := nat_of_ascii c in
  ((48 <=? n) && (n <=? 57) || (65 <=? n) && (n <=? 90) || (97 <=? n) && (n <=? 122) || (n =? 95))%nat.

Fixpoint take_while (keep : ascii → bool) (s : list ascii) : list ascii :=
  match s with
  | c :: s => if keep c then c :: take_while keep s else []
  | [] => []
  end.

(** What follows each occurrence of [p] that does not continue an identifier. *)
Fixpoint mentions (p : list ascii) (keep : ascii → bool) (prev : ascii) (s : list ascii) : list (list ascii) :=
  match s with
  | [] => []
  | c :: r =>
      (if negb (ident_char prev) && starts_with p s then [take_while keep (drop (length p) s)] else [])
      ++ mentions p keep c r
  end.

(** [p] followed by a quoted name. *)
Definition named (p : string) (s : list ascii) : list (list ascii) :=
  mentions (map unquote (text p)) (λ c, negb (bool_decide (c = dq))) " "%char s.

(** The properties read of the variable [x]. *)
Definition read_of (x : string) (s : list ascii) : list (list ascii) :=
  mentions (text x ++ ["."%char]) ident_char " "%char s.

Definition fetched (s : list ascii) : list (list ascii) := named "fetch(^" s.

Definition looked_up (s : list ascii) : list (list ascii) := named "$(^" s ++ named "set(^" s.

Definition selected (s : list ascii) : list (list ascii) := named "querySelector(^#" s.

Definition declared (s : list ascii) : list (list ascii) := named "id=^" s.

(** ** What the script needs of an answer *)

Definition member (k : list ascii) (j : json) : option json :=
  match j with
  | JObj l => snd <$> List.find (λ x, bool_decide (x.1 = k)) l
  | _ => None
  end.

Definition has (ks : list (list ascii)) (j : json) : Prop := Forall (λ k, is_Some (member k j)) ks.

Record answers (script : list ascii) (j : json) : Prop := {
  ans_top : has (read_of "d" script) j;
  ans_rate : ∃ r, member (text "rate") j = Some (JArr (map JInt r)) ∧ length r = kRateWindow;
  ans_latency : ∃ l, member (text "latency") j = Some l ∧ has (read_of "L" script) l;
  ans_ids : ∃ l, member (text "ids") j = Some (JArr l) ∧
    Forall (has (read_of "i" script ++ read_of "a" script ++ read_of "b" script)) l;
  ans_recent : ∃ l, member (text "recent") j = Some (JArr l) ∧ Forall (has (read_of "f" script)) l;
}.

(** The page [page] served beside the answer text [stats] works: both its addresses
    give it, every path it fetches gives an answer the script can read, and every element
    it asks for is there, once. *)
Record page_works (stats page body script : list ascii) : Prop := {
  pw_root : ∀ p, p = text "/" ∨ p = text "/index.html" →
    routes stats page p = mkResponse 200 (text "text/html; charset=utf-8") page;
  pw_fetch : fetched page = [text "/stats.json"] ∧
    Forall (λ p, ∃ j, let r := routes stats page p in
      r_status r = 200 ∧ r_content_type r = text "application/json" ∧ parse_json (r_body r) = Some j ∧
      answers script j) (fetched page);
  pw_elements : Forall (λ n, List.count_occ (λ a b, decide (a = b)) (declared body) n = 1%nat) (looked_up script);
  pw_drawn : Forall (λ n, List.count_occ (λ a b, decide (a = b)) (declared script) n = 1%nat) (selected script);
}.

(** ** What the page's script mentions *)

Example page_elements :
  remove_dups (looked_up page_script) =
  map text ["chart"; "tip"; "conn"; "connText"; "meta"; "k-rate"; "k-frames"; "k-gaps"; "k-missing"; "k-ids";
            "l-window"; "l-pcts"; "l-note"; "ids"; "recent"; "l-min"; "l-p50"; "l-p90"; "l-p99"; "l-p999"; "l-max"].
Proof. by vm_compute. Qed.

Example page_reads :
  map (λ x, remove_dups (read_of x page_script)) ["d"; "L"; "i"; "f"]%string =
  map (map text)
    [["connected"; "port"; "uptime_s"; "batches"; "reconnects"; "protocol_errs"; "silent"; "rate"; "frames";
      "markers"; "missing"; "latency"; "ids"; "recent"];
     ["span_s"; "shared_clock"; "n"; "min"; "p50"; "p90"; "p99"; "p999"; "max"];
     ["id"; "src"; "count"; "data"; "age_ms"]; ["seq"; "id"; "src"; "data"]].
Proof. by vm_compute. Qed.

(** ** Lemmas *)

(** An object has the keys asked for when they are among its keys. *)
Lemma has_keys ks l : Forall (λ k, k ∈ map fst l) ks → has ks (JObj l).
Proof.
  intros H. eapply Forall_impl; [exact H|]. clear H. intros k. simpl. induction l as [|[k' j] l IH]; cbn; [by intros ?%elem_of_nil|].
  case_bool_decide; [by eexists|]. intros [->|Hk]%elem_of_cons; [done|by apply IH].
Qed.

(** The keys of the four objects do not depend on what they hold. *)
Lemma stats_answers port started now seen v :
  length (rates v) = kRateWindow → answers page_script (stats_value port started now seen v).
Proof.
  intros Hr. constructor.
  - apply has_keys, (bool_decide_unpack _). by vm_compute.
  - by exists (rates v).
  - eexists. split; [done|]. apply has_keys, (bool_decide_unpack _). by vm_compute.
  - eexists. split; [done|]. apply Forall_map, Forall_true. intros x. apply has_keys, (bool_decide_unpack _). by vm_compute.
  - eexists. split; [done|]. apply Forall_map, Forall_true. intros x. apply has_keys, (bool_decide_unpack _). by vm_compute.
Qed.

(** The page and the server agree. For every state the viewer can be in, the page is
    what its two addresses give; each path its script fetches answers 200 with JSON
    that holds every property the script reads, of the answer itself, of its latency
    object, of each id and of each recent frame, with the rates of the last minute as an
    array of numbers; and each element the script looks up by name is declared exactly once,
    in the body or in the chart it draws. *)
Theorem page_wired port started now seen v :
  fits 16 port → served seen → served v →
  page_works (json_stats port started now seen v) kPage (page_text page_body) page_script.
Proof.
  intros Hp Hs Hv.
  assert (fetched kPage = [text "/stats.json"]) as Hf by by vm_compute.
  constructor.
  - by intros p [->| ->].
  - rewrite Hf. split; [done|]. apply Forall_singleton. eexists. split_and!; [done|done| |].
    + by apply stats_parses.
    + apply stats_answers. unfold rates. by rewrite length_map, length_seq.
  - apply (bool_decide_unpack _). by vm_compute.
  - apply (bool_decide_unpack _). by vm_compute.
Qed.

Lemma page_wired_witness :
  page_works (json_stats 9003 0 2000000000 page_view page_view) kPage (page_text page_body) page_script.
Proof.
  apply page_wired; [split; reflexivity || discriminate|exact page_view_served|exact page_view_served].
Defined.
