(* ===== verification/Options.v ===== *)
(** * Options: the command lines of the seven programs

    The argument loop the [main] functions of src/src share, and for each program its
    options, defaults and the checks that follow the loop. [Run] carries the configuration
    the program goes on with, [Exit] its exit status. *)

From Stdlib Require Import Ascii String Floats.SpecFloat.
From S2P Require Import Prelude Text Doubles Samples.

Inductive Outcome (C : Type) := Run (c : C) | Exit (status : Z).
Arguments Run {C} _.
Arguments Exit {C} _.

(** An option with a value, which can be refused, and one without. *)
Inductive Action (C : Type) :=
  | Value (f : list ascii → C → option C)
  | Flag (f : C → C).
Arguments Value {C} _.
Arguments Flag {C} _.

Definition Table (C : Type) : Type := list (string * Action C).

Fixpoint find_option {C} (name : list ascii) (t : Table C) : option (Action C) :=
  match t with
  | [] => None
  | (n, a) :: t => if decide (name = text n) then Some a else find_option name t
  end.

Definition is_help (arg : list ascii) : bool :=
  bool_decide (arg = text "--help") || bool_decide (arg = text "-h").

(** The loop over [argv]: an option that needs a value and is last is not recognised. *)
Fixpoint parse_args {C} (t : Table C) (args : list (list ascii)) (c : C) : Outcome C :=
  match args with
  | [] => Run c
  | arg :: rest =>
      let unknown := if is_help arg then Exit 0 else Exit 2 in
      match find_option arg t with
      | Some (Value f) =>
          match rest with
          | v :: rest' => match f v c with Some c' => parse_args t rest' c' | None => Exit 2 end
          | [] => unknown
          end
      | Some (Flag f) => parse_args t rest (f c)
      | None => unknown
      end
  end.

(** The checks after the loop. *)
Definition and_then {C} (o : Outcome C) (k : C → Outcome C) : Outcome C :=
  match o with Run c => k c | Exit n => Exit n end.

(** An option that is never refused. *)
Definition set {C} (f : list ascii → C → C) : Action C := Value (λ v c, Some (f v c)).

(** ** Lemmas on the loop *)

Section Loop.
Context {C : Type} (t : Table C).

Lemma parse_value name v rest c c' f :
  find_option name t = Some (Value f) → f v c = Some c' →
  parse_args t (name :: v :: rest) c = parse_args t rest c'.
Proof. intros H1 H2. cbn [parse_args]. by rewrite H1, H2. Qed.

Lemma parse_flag name (b : bool) rest c f :
  find_option name t = Some (Flag f) →
  parse_args t ((if b then [name] else []) ++ rest) c = parse_args t rest (if b then f c else c).
Proof. intros H. destruct b; [|done]. cbn [app parse_args]. by rewrite H. Qed.

(** One option given once per element of a list. *)
Lemma parse_repeat {A} name (arg : A → list ascii) (l : list A) rest (k : list A → C) f done_ :
  find_option name t = Some (Value f) →
  Forall (λ x, ∀ l0, f (arg x) (k l0) = Some (k (l0 ++ [x]))) l →
  parse_args t (concat (map (λ x, [name; arg x]) l) ++ rest) (k done_) = parse_args t rest (k (done_ ++ l)).
Proof.
  intros Hf. revert done_. induction l as [|x l IH]; intros done_ Hl; [by rewrite app_nil_r|].
  inversion_clear Hl as [|? ? Hx Hl']. cbn [map concat app].
  rewrite (parse_value _ _ _ _ (k (done_ ++ [x])) f) by done. rewrite IH by done.
  by rewrite <- app_assoc.
Qed.

(** What every action keeps, every accepted command line has. *)
Definition keeps (P : C → Prop) (a : Action C) : Prop :=
  match a with
  | Value f => ∀ v c c', P c → f v c = Some c' → P c'
  | Flag f => ∀ c, P c → P (f c)
  end.

Lemma find_option_elem name a : find_option name t = Some a → a ∈ t.*2.
Proof.
  induction t as [|[n b] t' IH]; cbn [find_option]; [done|].
  case_decide; [intros [= <-]; left|]. intros H1. right. by apply IH.
Qed.

Lemma parse_keeps P args c c' :
  Forall (keeps P) t.*2 → P c → parse_args t args c = Run c' → P c'.
Proof.
  intros Ht. revert c. induction args as [args IH] using (induction_ltof1 _ (@length _)).
  intros c Hc. destruct args as [|arg rest]; cbn [parse_args]; [by intros [= <-]|].
  destruct (find_option arg t) as [[f|f]|] eqn:Ef.
  - apply find_option_elem in Ef. rewrite Forall_forall in Ht. specialize (Ht _ Ef). simpl in Ht.
    destruct rest as [|v rest]; [by case_match|]. destruct (f v c) eqn:E; [|done].
    apply IH; [unfold ltof; simpl; lia|]. eauto.
  - apply find_option_elem in Ef. rewrite Forall_forall in Ht. specialize (Ht _ Ef). simpl in Ht.
    apply IH; [unfold ltof; simpl; lia|]. auto.
  - by case_match.
Qed.

(** The configurations a program runs with are exactly the well-formed ones: each can be
    asked for, and no command line gives another. *)
Definition exact (options : list (list ascii) → Outcome C) (render : C → list (list ascii))
    (wf : C → Prop) : Prop :=
  (∀ c, wf c → options (render c) = Run c) ∧ (∀ args c, options args = Run c → wf c).

Lemma options_exact (defaults : C) check render (ranges wf : C → Prop) :
  Forall (keeps ranges) t.*2 → ranges defaults →
  (∀ c c', ranges c → check c = Run c' → wf c') → (∀ c, wf c → ranges c ∧ check c = Run c) →
  (∀ c, ranges c → parse_args t (render c) defaults = Run c) →
  exact (λ args, and_then (parse_args t args defaults) check) render wf.
Proof.
  intros Hk Hd Hc Hw Hr. split.
  - intros c [H1 H2]%Hw. by rewrite Hr.
  - intros args c. destruct (parse_args t args defaults) as [c0|] eqn:E; [|done]. cbn [and_then].
    apply Hc. by eapply parse_keeps.
Qed.

(** A program that has no checks after the loop. *)
Lemma parse_exact (defaults : C) render (wf : C → Prop) :
  Forall (keeps wf) t.*2 → wf defaults → (∀ c, wf c → parse_args t (render c) defaults = Run c) →
  exact (λ args, parse_args t args defaults) render wf.
Proof. intros Hk Hd Hr. split; [done|]. intros args c. by eapply parse_keeps. Qed.

(** The loop itself stops the program only for help (0) or for an argument it refuses (2). *)
Lemma parse_exit args c n :
  parse_args t args c = Exit n → n = 2 ∨ n = 0 ∧ Exists (λ a, is_help a = true) args.
Proof.
  revert c. induction args as [args IH] using (induction_ltof1 _ (@length _)). intros c.
  destruct args as [|arg rest]; cbn [parse_args]; [done|].
  assert (∀ x, (if is_help arg then Exit 0 else Exit 2) = @Exit C x →
            x = 2 ∨ x = 0 ∧ Exists (λ a, is_help a = true) (arg :: rest)) as Hu.
  { intros x. destruct (is_help arg) eqn:E; intros [= <-]; [right; auto|by left]. }
  destruct (find_option arg t) as [[f|f]|]; [|intros H; apply IH in H; [|unfold ltof; simpl; lia]|by apply Hu].
  - destruct rest as [|v rest]; [by apply Hu|]. destruct (f v c); [|intros [= <-]; by left].
    intros H. apply IH in H; [|unfold ltof; simpl; lia]. destruct H as [|[-> H]]; auto.
  - destruct H as [|[-> H]]; auto.
Qed.
End Loop.

(** The decimal options: [static_cast<std::uint32_t>(std::strtoul(...))] and the like. *)
Definition arg_u64 (v : list ascii) : Z := strtoull v 10.
Definition arg_u32 (v : list ascii) : Z := u32 (strtoul v 10).
Definition arg_u16 (v : list ascii) : Z := u16 (strtoul v 10).

(** The range of an [int]. *)
Definition fits_int (z : Z) : Prop := - 2 ^ 31 <= z < 2 ^ 31.

#[export] Instance fits_int_dec z : Decision (fits_int z).
Proof. unfold fits_int. apply _. Defined.

Lemma arg_u64_fits v : fits 64 (arg_u64 v).
Proof. apply strtoull_fits. lia. Qed.

Lemma arg_u32_fits v : fits 32 (arg_u32 v).
Proof. apply u32_fits. Qed.

Lemma arg_u16_fits v : fits 16 (arg_u16 v).
Proof. unfold arg_u16, u16, fits. pow_consts. apply Z.mod_pos_bound. lia. Qed.

Lemma atoi_fits v : fits_int (atoi v).
Proof. apply atoi_range. Qed.

Lemma fits_64 w z : 0 <= w <= 64 → fits w z → fits 64 z.
Proof. unfold fits. intros Hw Hz. pose proof (Z.pow_le_mono_r 2 w 64). lia. Qed.

Lemma arg_u64_print n : fits 64 n → arg_u64 (to_string n) = n.
Proof. apply strtoull_to_string. Qed.

Lemma arg_u32_print n : fits 32 n → arg_u32 (to_string n) = n.
Proof.
  intros Hn. unfold arg_u32, strtoul. rewrite strtoull_to_string by (by apply (fits_64 32)).
  by apply u32_small.
Qed.

Lemma arg_u16_print n : fits 16 n → arg_u16 (to_string n) = n.
Proof.
  intros Hn. unfold arg_u16, strtoul. rewrite strtoull_to_string by (by apply (fits_64 16)).
  by apply u16_small.
Qed.

#[export] Hint Resolve arg_u64_fits arg_u32_fits arg_u16_fits atoi_fits : etg.
#[export] Hint Rewrite arg_u64_print arg_u32_print arg_u16_print atoi_to_string using assumption : etg.

(** ** etg-gateway (src/src/main.cpp) *)

Module Gateway.

Record ConsumerSpec := mkConsumer { c_name : list ascii; c_port : Z }.

(** [Egress::Tuning]. *)
Record Tuning := mkTuning { max_frames : Z; linger_us : Z; echo_ms : Z }.

Record Config := mkConfig {
  sources : list (list ascii);
  consumers : list ConsumerSpec;
  topology : list ascii;
  capacity : Z;
  tuning : Tuning;
  rate : Z;
  seconds : Z;
  tap : bool;
  mlock : bool
}.

Definition kDefaultBatch : Z := 256.

Definition defaults : Config :=
  mkConfig [] [] (text "ring") 8192 (mkTuning kDefaultBatch 0 0) 1000 0 false false.

Definition parse_consumer (spec : list ascii) : option ConsumerSpec :=
  match rfind ":"%char spec with
  | None => None
  | Some colon =>
      if (colon =? 0)%nat || (length spec <=? colon + 1)%nat then None
      else
        let port := strtol (drop (colon + 1) spec) 10 in
        if (port <=? 0) || (port >? 65535) then None
        else Some (mkConsumer (take colon spec) (u16 port))
  end.

Definition set_tuning (f : Tuning → Tuning) (c : Config) : Config :=
  mkConfig (sources c) (consumers c) (topology c) (capacity c) (f (tuning c)) (rate c) (seconds c)
    (tap c) (mlock c).

Definition set_capacity (v : list ascii) (c : Config) : Config :=
  mkConfig (sources c) (consumers c) (topology c) (arg_u64 v) (tuning c) (rate c) (seconds c)
    (tap c) (mlock c).

Definition table : Table Config := [
  ("--source", set (λ v c, mkConfig (sources c ++ [v]) (consumers c) (topology c) (capacity c)
     (tuning c) (rate c) (seconds c) (tap c) (mlock c)));
  ("--topology", set (λ v c, mkConfig (sources c) (consumers c) v (capacity c) (tuning c) (rate c)
     (seconds c) (tap c) (mlock c)));
  ("--consumer", Value (λ v c,
     match parse_consumer v with
     | None => None
     | Some s => Some (mkConfig (sources c) (consumers c ++ [s]) (topology c) (capacity c) (tuning c)
                         (rate c) (seconds c) (tap c) (mlock c))
     end));
  ("--capacity", set set_capacity);
  ("--queue", set set_capacity);
  ("--batch", set (λ v, set_tuning (λ t, mkTuning (arg_u64 v) (linger_us t) (echo_ms t))));
  ("--echo-ms", set (λ v, set_tuning (λ t, mkTuning (max_frames t) (linger_us t) (arg_u32 v))));
  ("--linger-us", set (λ v, set_tuning (λ t, mkTuning (max_frames t) (arg_u32 v) (echo_ms t))));
  ("--rate", set (λ v c, mkConfig (sources c) (consumers c) (topology c) (capacity c) (tuning c)
     (arg_u32 v) (seconds c) (tap c) (mlock c)));
  ("--seconds", set (λ v c, mkConfig (sources c) (consumers c) (topology c) (capacity c) (tuning c)
     (rate c) (atoi v) (tap c) (mlock c)));
  ("--mlock", Flag (λ c, mkConfig (sources c) (consumers c) (topology c) (capacity c) (tuning c)
     (rate c) (seconds c) (tap c) true));
  ("--tap", Flag (λ c, mkConfig (sources c) (consumers c) (topology c) (capacity c) (tuning c)
     (rate c) (seconds c) true (mlock c)))
]%string.

(** The checks after the loop. *)
Definition check (c : Config) : Outcome Config :=
  if negb (bool_decide (topology c = text "queue")) && negb (bool_decide (topology c = text "ring"))
  then Exit 2
  else if (capacity c =? 0) || (rate c =? 0) then Exit 2
  else
    let c := match sources c with
             | [] => mkConfig [text "synth"] (consumers c) (topology c) (capacity c) (tuning c)
                       (rate c) (seconds c) (tap c) (mlock c)
             | _ => c
             end in
    match consumers c with
    | [] => if tap c then Run c else Exit 2
    | _ => Run c
    end.

Definition options (args : list (list ascii)) : Outcome Config :=
  and_then (parse_args table args defaults) check.

(** *** What the loop keeps, what the program runs with, and how to ask for it *)

Definition consumer_wf (s : ConsumerSpec) : Prop := c_name s ≠ [] ∧ 1 <= c_port s <= 65535.

Record ranges (c : Config) : Prop := mkRanges {
  rg_consumers : Forall consumer_wf (consumers c);
  rg_capacity : fits 64 (capacity c);
  rg_max_frames : fits 64 (max_frames (tuning c));
  rg_linger : fits 32 (linger_us (tuning c));
  rg_echo : fits 32 (echo_ms (tuning c));
  rg_rate : fits 32 (rate c);
  rg_seconds : fits_int (seconds c)
}.

Record wf (c : Config) : Prop := mkWf {
  wf_ranges : ranges c;
  wf_topology : topology c = text "queue" ∨ topology c = text "ring";
  wf_capacity : capacity c ≠ 0;
  wf_rate : rate c ≠ 0;
  wf_sources : sources c ≠ [];
  wf_work : consumers c ≠ [] ∨ tap c = true
}.

Definition consumer_arg (s : ConsumerSpec) : list ascii := c_name s ++ ":"%char :: to_string (c_port s).

Definition render (c : Config) : list (list ascii) :=
  concat (map (λ s, [text "--source"; s]) (sources c))
  ++ concat (map (λ s, [text "--consumer"; consumer_arg s]) (consumers c))
  ++ [text "--topology"; topology c; text "--capacity"; to_string (capacity c);
      text "--batch"; to_string (max_frames (tuning c));
      text "--linger-us"; to_string (linger_us (tuning c));
      text "--echo-ms"; to_string (echo_ms (tuning c));
      text "--rate"; to_string (rate c); text "--seconds"; to_string (seconds c)]
  ++ (if tap c then [text "--tap"] else []) ++ (if mlock c then [text "--mlock"] else []).

Lemma parse_consumer_print s : consumer_wf s → parse_consumer (consumer_arg s) = Some s.
Proof.
  intros [Hn Hp]. unfold parse_consumer, consumer_arg.
  rewrite rfind_last by apply to_string_no_colon.
  destruct (to_base_head 10 ltac:(lia) (c_port s) ltac:(lia)) as (d & r & _ & E & _).
  assert (to_string (c_port s) = digit_char d :: r) as Es
    by (unfold to_string; rewrite (proj2 (Z.ltb_ge _ _)) by lia; done).
  assert ((length (c_name s) =? 0)%nat = false) as ->.
  { destruct (c_name s); done. }
  assert ((length (c_name s ++ ":"%char :: to_string (c_port s)) <=? length (c_name s) + 1)%nat = false) as ->.
  { rewrite Es, length_app. apply Nat.leb_gt. simpl. lia. }
  cbn [orb]. rewrite drop_app_ge by lia.
  replace (length (c_name s) + 1 - length (c_name s))%nat with 1%nat by lia. cbn [skipn]. rewrite drop_0.
  assert (strtol (to_string (c_port s)) 10 = c_port s) as ->.
  { rewrite <- (app_nil_r (to_string (c_port s))). apply strtol_to_string; [lia|done]. }
  rewrite take_app_length, u16_small by (unfold fits; pow_consts; lia).
  destruct s as [nm pt]. simpl in *. case_match; [zbool; lia|done].
Qed.

Lemma parse_consumer_wf v s : parse_consumer v = Some s → consumer_wf s.
Proof.
  unfold parse_consumer. destruct (rfind _ v) as [colon|] eqn:E; [|done].
  destruct ((colon =? 0)%nat || _) eqn:Ec; [done|]. apply orb_false_iff in Ec as [E1 E2].
  apply Nat.eqb_neq in E1. apply Nat.leb_gt in E2.
  destruct (_ || _) eqn:Ep; [done|]. zbool. intros [= <-]. split; cbn [c_name c_port].
  - destruct v; [done|]. destruct colon; [lia|done].
  - rewrite u16_small by (unfold fits; pow_consts; lia). lia.
Qed.

Lemma gateway_table_keeps : Forall (keeps ranges) table.*2.
Proof.
  repeat (apply Forall_cons; split); try apply Forall_nil; simpl; try exact I.
  all: try (intros v c c' [H1 H2 H3 H4 H5 H6 H7] [= <-]; constructor; simpl; auto with etg).
  all: try (intros c [H1 H2 H3 H4 H5 H6 H7]; constructor; simpl; done).
  intros v c c' [H1 H2 H3 H4 H5 H6 H7]. destruct (parse_consumer v) as [s|] eqn:E; [|done].
  intros [= <-]. constructor; simpl; try done.
  apply Forall_app. split; [done|]. constructor; [by eapply parse_consumer_wf|constructor].
Qed.

Lemma gateway_defaults_ranges : ranges defaults.
Proof. constructor; simpl; try (unfold fits, fits_int, kDefaultBatch; pow_consts; lia). constructor. Qed.

Lemma check_wf c c' : ranges c → check c = Run c' → wf c'.
Proof.
  intros Hr. unfold check. destruct (_ && _) eqn:Et; [done|]. destruct (_ || _) eqn:Ez; [done|].
  zbool. assert (topology c = text "queue" ∨ topology c = text "ring") as Htop.
  { apply andb_false_iff in Et as [Et|Et]; zbool; apply bool_decide_eq_true in Et; auto. }
  destruct c as [ss ks top cap tu ra sec tp ml]; simpl in *.
  assert (∀ ss', ranges (mkConfig ss' ks top cap tu ra sec tp ml)) as Hr' by (intros; destruct Hr; done).
  destruct ss as [|s0 ss]; simpl; (destruct ks as [|k ks]; [destruct tp; [|done]|]);
    intros [= <-]; constructor; simpl; auto; by left.
Qed.

Lemma check_id c : wf c → check c = Run c.
Proof.
  intros [Hr Ht Hc Hra Hs Hw]. unfold check.
  assert (negb (bool_decide (topology c = text "queue")) && negb (bool_decide (topology c = text "ring")) = false) as ->.
  { destruct Ht as [-> | ->]; done. }
  rewrite (proj2 (Z.eqb_neq _ _) Hc), (proj2 (Z.eqb_neq _ _) Hra). cbn [orb].
  destruct (sources c) eqn:Es; [done|].
  destruct (consumers c) eqn:Ek; [|done]. destruct Hw as [|Hw]; [done|]. by rewrite Hw.
Qed.

Lemma gateway_parse_render c : ranges c → parse_args table (render c) defaults = Run c.
Proof.
  intros [H1 H2 H3 H4 H5 H6 H7]. destruct c as [ss ks top cap [mf li ec] ra sec tp ml].
  unfold render. cbn [sources consumers topology capacity tuning rate seconds tap mlock
    max_frames linger_us echo_ms] in *.
  set (k1 := λ ss, mkConfig ss [] (text "ring") 8192 (mkTuning kDefaultBatch 0 0) 1000 0 false false).
  change defaults with (k1 []).
  rewrite (parse_repeat table (text "--source") (λ v, v) ss _ k1 _ [] eq_refl)
    by (apply Forall_forall; done).
  set (k2 := λ ks, mkConfig ss ks (text "ring") 8192 (mkTuning kDefaultBatch 0 0) 1000 0 false false).
  change (k1 ([] ++ ss)) with (k2 []).
  rewrite (parse_repeat table (text "--consumer") consumer_arg ks _ k2 _ [] eq_refl).
  2: { eapply Forall_impl; [exact H1|]. intros s Hs l0. simpl. by rewrite parse_consumer_print. }
  unfold k2. cbn [app].
  do 7 (erewrite parse_value; [|reflexivity|unfold set_capacity, set_tuning;
    cbn [sources consumers topology capacity tuning rate seconds tap mlock max_frames linger_us echo_ms];
    reflexivity]).
  rewrite (parse_flag table (text "--tap") tp _ _ _ eq_refl).
  rewrite <- (app_nil_r (if ml then _ else _)), (parse_flag table (text "--mlock") ml [] _ _ eq_refl).
  cbn [parse_args]. destruct tp, ml; cbn [sources consumers topology capacity tuning rate seconds tap mlock
    max_frames linger_us echo_ms]; by autorewrite with etg.
Qed.
Lemma gateway_exact_options : exact options render wf.
Proof.
  refine (options_exact _ _ _ _ _ _ gateway_table_keeps gateway_defaults_ranges check_wf _ gateway_parse_render).
  intros c Hw. split; [apply Hw|by apply check_id].
Qed.
End Gateway.

(** ** etg-gen (src/src/gen_main.cpp) *)

Module Gen.
Record Config := mkConfig {
  ifname : list ascii; csv_path : list ascii;
  rate : Z; seconds : Z; base_id : Z; id_count : Z
}.

Definition defaults : Config := mkConfig [] [] 1000 10 256 1.

Definition table : Table Config := [
  ("--interface", set (λ v c, mkConfig v (csv_path c) (rate c) (seconds c) (base_id c) (id_count c)));
  ("--rate", set (λ v c, mkConfig (ifname c) (csv_path c) (arg_u64 v) (seconds c) (base_id c) (id_count c)));
  ("--seconds", set (λ v c, mkConfig (ifname c) (csv_path c) (rate c) (arg_u64 v) (base_id c) (id_count c)));
  ("--id", set (λ v c, mkConfig (ifname c) (csv_path c) (rate c) (seconds c) (u32 (strtoul v 16)) (id_count c)));
  ("--ids", set (λ v c, mkConfig (ifname c) (csv_path c) (rate c) (seconds c) (base_id c) (arg_u32 v)));
  ("--csv", set (λ v c, mkConfig (ifname c) v (rate c) (seconds c) (base_id c) (id_count c)))
]%string.

Definition period_ns (c : Config) : Z := 1000000000 / rate c.

Definition check (c : Config) : Outcome Config :=
  if bool_decide (ifname c = []) || (rate c =? 0) || (seconds c =? 0) || (id_count c =? 0) then Exit 2
  else if period_ns c =? 0 then Exit 2 else Run c.

Definition options (args : list (list ascii)) : Outcome Config :=
  and_then (parse_args table args defaults) check.

Record ranges (c : Config) : Prop := mkRanges {
  rg_rate : fits 64 (rate c); rg_seconds : fits 64 (seconds c);
  rg_base : fits 32 (base_id c); rg_ids : fits 32 (id_count c)
}.

(** A rate above 10^9 has no period in nanoseconds. *)
Record wf (c : Config) : Prop := mkWf {
  wf_ranges : ranges c;
  wf_ifname : ifname c ≠ [];
  wf_rate : 1 <= rate c <= 1000000000;
  wf_seconds : seconds c ≠ 0;
  wf_ids : id_count c ≠ 0
}.

Definition render (c : Config) : list (list ascii) :=
  [text "--interface"; ifname c; text "--rate"; to_string (rate c); text "--seconds"; to_string (seconds c);
   text "--id"; to_base 16 (base_id c); text "--ids"; to_string (id_count c); text "--csv"; csv_path c].

Lemma gen_check_run c c' : ranges c → check c = Run c' ↔ c' = c ∧ wf c.
Proof.
  intros Hr. unfold check, period_ns. split.
  - destruct (_ || _) eqn:E; [done|]. apply orb_false_iff in E as [E E4]. apply orb_false_iff in E as [E E3].
    apply orb_false_iff in E as [E1 E2]. apply bool_decide_eq_false in E1. zbool.
    case_match eqn:Ep; [done|]. intros [= <-]. split; [done|]. constructor; try done. zbool.
    destruct Hr as [[H0 _] _ _ _]. split; [lia|].
    destruct (Z_lt_le_dec 1000000000 (rate c)); [|done]. exfalso. apply Ep. apply Z.div_small. lia.
  - intros [-> [_ H1 H2 H3 H4]]. rewrite bool_decide_eq_false_2 by done.
    rewrite (proj2 (Z.eqb_neq (rate c) 0)) by lia. rewrite (proj2 (Z.eqb_neq _ _) H3), (proj2 (Z.eqb_neq _ _) H4).
    cbn [orb]. case_match; [|done]. zbool.
    assert (1 <= 1000000000 / rate c); [|lia]. apply Z.div_le_lower_bound; lia.
Qed.

Lemma gen_table_keeps : Forall (keeps ranges) table.*2.
Proof.
  repeat (apply Forall_cons; split); try apply Forall_nil; simpl; try exact I;
    intros v c c' [H1 H2 H3 H4] [= <-]; constructor; simpl; auto with etg.
Qed.

Lemma gen_parse_render c : ranges c → parse_args table (render c) defaults = Run c.
Proof.
  intros [H1 H2 H3 H4]. destruct c as [i p r s b n].
  unfold render. cbn [ifname csv_path rate seconds base_id id_count] in *.
  do 6 (erewrite parse_value; [|reflexivity|simpl; reflexivity]). cbn [parse_args].
  autorewrite with etg. unfold strtoul. rewrite strtoull_print by (lia || by apply (fits_64 32)).
  by rewrite u32_small.
Qed.
Lemma gen_exact_options : exact options render wf.
Proof.
  refine (options_exact _ _ _ _ _ _ gen_table_keeps _ _ _ gen_parse_render).
  - constructor; unfold fits; pow_consts; simpl; lia.
  - by intros c c' Hr [-> H]%gen_check_run.
  - intros c Hw. pose proof (wf_ranges _ Hw). split; [done|]. by apply gen_check_run.
Qed.
End Gen.

(** ** etg-ringstress (src/src/ring_stress.cpp) *)

Module Stress.
Record Config := mkConfig { producers : Z; readers : Z; capacity : Z; seconds : Z }.

Definition defaults : Config := mkConfig 4 2 16 5.

Definition table : Table Config := [
  ("--producers", set (λ v c, mkConfig (arg_u32 v) (readers c) (capacity c) (seconds c)));
  ("--readers", set (λ v c, mkConfig (producers c) (arg_u32 v) (capacity c) (seconds c)));
  ("--capacity", set (λ v c, mkConfig (producers c) (readers c) (arg_u64 v) (seconds c)));
  ("--seconds", set (λ v c, mkConfig (producers c) (readers c) (capacity c) (atoi v)))
]%string.

Definition check (c : Config) : Outcome Config :=
  if (producers c =? 0) || (readers c =? 0) || (capacity c <? 2) || (seconds c <=? 0) then Exit 2 else Run c.

Definition options (args : list (list ascii)) : Outcome Config :=
  and_then (parse_args table args defaults) check.

Record ranges (c : Config) : Prop := mkRanges {
  rg_producers : fits 32 (producers c); rg_readers : fits 32 (readers c);
  rg_capacity : fits 64 (capacity c); rg_seconds : fits_int (seconds c)
}.

Record wf (c : Config) : Prop := mkWf {
  wf_ranges : ranges c;
  wf_producers : 1 <= producers c;
  wf_readers : 1 <= readers c;
  wf_capacity : 2 <= capacity c;
  wf_seconds : 0 < seconds c
}.

Definition render (c : Config) : list (list ascii) :=
  [text "--producers"; to_string (producers c); text "--readers"; to_string (readers c);
   text "--capacity"; to_string (capacity c); text "--seconds"; to_string (seconds c)].

Lemma stress_check_run c c' : ranges c → check c = Run c' ↔ c' = c ∧ wf c.
Proof.
  intros Hr. pose proof Hr as [[? _] [? _] _ _]. unfold check. split.
  - destruct (_ || _) eqn:E; [done|]. zbool. intros [= <-]. split; [done|]. constructor; try done; lia.
  - intros [-> [_ H1 H2 H3 H4]]. case_match eqn:E; [|done]. exfalso.
    apply orb_true_iff in E as [E|E]; zbool; [|lia]. apply orb_true_iff in E as [E|E]; zbool; [|lia].
    apply orb_true_iff in E as [E|E]; zbool; lia.
Qed.

Lemma stress_table_keeps : Forall (keeps ranges) table.*2.
Proof.
  repeat (apply Forall_cons; split); try apply Forall_nil; simpl; try exact I;
    intros v c c' [H1 H2 H3 H4] [= <-]; constructor; simpl; auto with etg.
Qed.

Lemma stress_parse_render c : ranges c → parse_args table (render c) defaults = Run c.
Proof.
  intros [H1 H2 H3 H4]. destruct c as [p r k s].
  unfold render. cbn [producers readers capacity seconds] in *.
  do 4 (erewrite parse_value; [|reflexivity|simpl; reflexivity]). cbn [parse_args].
  by autorewrite with etg.
Qed.
Lemma stress_exact_options : exact options render wf.
Proof.
  refine (options_exact _ _ _ _ _ _ stress_table_keeps _ _ _ stress_parse_render).
  - constructor; unfold fits, fits_int; pow_consts; simpl; lia.
  - by intros c c' Hr [-> H]%stress_check_run.
  - intros c Hw. pose proof (wf_ranges _ Hw). split; [done|]. by apply stress_check_run.
Qed.
End Stress.

(** ** Decimal and hexadecimal text to double: [strtod] *)

Definition lower (c : ascii) : Z := if (65 <=? code c) && (code c <=? 90) then code c + 32 else code c.

(** The same word up to case, at the head of a string. *)
Definition has_word (w : string) (s : list ascii) : bool :=
  bool_decide (map lower (take (String.length w) s) = map lower (text w)).

(** A run of digits: value on top of [acc], number of digits, what follows. *)
Fixpoint digit_run (base acc : Z) (n : nat) (s : list ascii) : Z * nat * list ascii :=
  match s with
  | c :: s' => if is_digit base c then digit_run base (base * acc + digit_value c) (S n) s' else (acc, n, s)
  | [] => (acc, n, [])
  end.

(** The exponent: none unless a digit follows its letter and sign. *)
Definition exponent (letter : ascii) (s : list ascii) : Z :=
  match s with
  | c :: s' =>
      if lower c =? code letter then
        let (neg, s'') := take_sign s' in
        match digit_run 10 0 0 s'' with
        | (_, O, _) => 0
        | (e, _, _) => if neg : bool then - e else e
        end
      else 0
  | [] => 0
  end.

(** The double nearest to [m * 2^e2 * 10^e10], ties to even. *)
Definition nearest_double (neg : bool) (m e2 e10 : Z) : spec_float :=
  match m with
  | Zpos p =>
      let num := Z.to_pos (Zpos p * (if 0 <=? e10 then 10 ^ e10 else 1)) in
      let den := Z.to_pos (if 0 <=? e10 then 1 else 10 ^ (- e10)) in
      let '(q, e, l) := SFdiv_core_binary 53 1024 (Zpos num) e2 (Zpos den) 0 in
      binary_round_aux 53 1024 neg q e l
  | _ => S754_zero neg
  end.

(** The number after the sign: [base], exponent letter, and how a digit and an exponent
    unit weigh. *)
Definition strtod_number (neg : bool) (base : Z) (letter : ascii) (s : list ascii) : spec_float :=
  let '(m, n, s) := digit_run base 0 0 s in
  let '(m, k, s) :=
    match s with
    | c :: s' => if decide (c = "."%char) then
                   let '(m', k, s'') := digit_run base m 0 s' in
                   if (n + k =? 0)%nat then (m, O, s) else (m', k, s'')
                 else (m, O, s)
    | [] => (m, O, [])
    end in
  let e := if (n + k =? 0)%nat then 0 else exponent letter s in
  if base =? 16 then nearest_double neg m (e - 4 * Z.of_nat k) 0
  else nearest_double neg m 0 (e - Z.of_nat k).

Definition is_hex_number (s : list ascii) : bool :=
  match drop 2 s with
  | d :: r => is_digit 16 d ||
              (bool_decide (d = "."%char) && match r with d' :: _ => is_digit 16 d' | [] => false end)
  | [] => false
  end.

Definition strtod (s : list ascii) : spec_float :=
  let (neg, s) := take_sign (skip_spaces s) in
  if has_word "inf" s then S754_infinity neg
  else if has_word "nan" s then S754_nan
  else if has_word "0x" s && is_hex_number s then strtod_number neg 16 "p" (drop 2 s)
  else strtod_number neg 10 "e" s.

(** ** etg-cadence (src/src/cadence_main.cpp) *)

Module CadenceOpt.
Record Config := mkConfig {
  host : list ascii; port : Z; seconds : Z; reconnect : bool; gap_blind : bool;
  calibrate : Z; factor : spec_float; stall_us : Z
}.

Definition defaults : Config :=
  mkConfig (text "127.0.0.1") 9004 0 false false 32 (double_of 4) 0.

Definition table : Table Config := [
  ("--host", set (λ v c, mkConfig v (port c) (seconds c) (reconnect c) (gap_blind c) (calibrate c) (factor c) (stall_us c)));
  ("--port", set (λ v c, mkConfig (host c) (arg_u16 v) (seconds c) (reconnect c) (gap_blind c) (calibrate c) (factor c) (stall_us c)));
  ("--seconds", set (λ v c, mkConfig (host c) (port c) (atoi v) (reconnect c) (gap_blind c) (calibrate c) (factor c) (stall_us c)));
  ("--calibrate", set (λ v c, mkConfig (host c) (port c) (seconds c) (reconnect c) (gap_blind c) (arg_u64 v) (factor c) (stall_us c)));
  ("--factor", set (λ v c, mkConfig (host c) (port c) (seconds c) (reconnect c) (gap_blind c) (calibrate c) (strtod v) (stall_us c)));
  ("--stall-us", set (λ v c, mkConfig (host c) (port c) (seconds c) (reconnect c) (gap_blind c) (calibrate c) (factor c) (atoi v)));
  ("--reconnect", Flag (λ c, mkConfig (host c) (port c) (seconds c) true (gap_blind c) (calibrate c) (factor c) (stall_us c)));
  ("--gap-blind", Flag (λ c, mkConfig (host c) (port c) (seconds c) (reconnect c) true (calibrate c) (factor c) (stall_us c)))
]%string.

Definition check (c : Config) : Outcome Config :=
  if (calibrate c <? 4) || SFleb (factor c) (double_of 1) then Exit 2 else Run c.

Definition options (args : list (list ascii)) : Outcome Config :=
  and_then (parse_args table args defaults) check.

(** The factors that have a text. *)
Definition readable (f : spec_float) : Prop := ∃ v, strtod v = f.

Record ranges (c : Config) : Prop := mkRanges {
  rg_port : fits 16 (port c); rg_seconds : fits_int (seconds c);
  rg_calibrate : fits 64 (calibrate c); rg_stall : fits_int (stall_us c); rg_factor : readable (factor c)
}.

Record wf (c : Config) : Prop := mkWf {
  wf_ranges : ranges c;
  wf_calibrate : 4 <= calibrate c;
  wf_factor : SFleb (factor c) (double_of 1) = false
}.

Lemma cadence_check_run c c' : check c = Run c' ↔ c' = c ∧ 4 <= calibrate c ∧ SFleb (factor c) (double_of 1) = false.
Proof.
  unfold check. split.
  - destruct (_ || _) eqn:E; [done|]. zbool. by intros [= <-].
  - intros (-> & H1 & H2). rewrite H2, orb_false_r. by rewrite (proj2 (Z.ltb_ge _ _) H1).
Qed.

Lemma cadence_table_keeps : Forall (keeps ranges) table.*2.
Proof.
  repeat (apply Forall_cons; split); try apply Forall_nil; simpl; try exact I;
    try (intros v c c' [H1 H2 H3 H4 H5] [= <-]; constructor; simpl; auto with etg; by eexists);
    intros c [H1 H2 H3 H4 H5]; done.
Qed.

Lemma cadence_defaults_ranges : ranges defaults.
Proof.
  constructor; simpl; try (unfold fits, fits_int; pow_consts; lia). by exists (text "4.0").
Qed.

(** The factor is given by some text that reads as it. *)
Definition render (fv : list ascii) (c : Config) : list (list ascii) :=
  [text "--host"; host c; text "--port"; to_string (port c); text "--seconds"; to_string (seconds c);
   text "--calibrate"; to_string (calibrate c); text "--factor"; fv; text "--stall-us"; to_string (stall_us c)]
  ++ (if reconnect c then [text "--reconnect"] else []) ++ (if gap_blind c then [text "--gap-blind"] else []).

Lemma cadence_parse_render fv c :
  ranges c → strtod fv = factor c → parse_args table (render fv c) defaults = Run c.
Proof.
  intros [H1 H2 H3 H4 _] Hf. destruct c as [h p s r g k f u].
  unfold render. cbn [host port seconds reconnect gap_blind calibrate factor stall_us app] in *.
  do 6 (erewrite parse_value; [|reflexivity|cbn [host port seconds reconnect gap_blind calibrate factor stall_us];
    reflexivity]).
  rewrite (parse_flag table (text "--reconnect") r _ _ _ eq_refl).
  rewrite <- (app_nil_r (if g then _ else _)), (parse_flag table (text "--gap-blind") g [] _ _ eq_refl).
  cbn [parse_args]. destruct r, g; cbn [host port seconds reconnect gap_blind calibrate factor stall_us];
    autorewrite with etg; by rewrite Hf.
Qed.
End CadenceOpt.

(** ** etg-probe (src/src/probe_main.cpp) *)

Module ProbeOpt.
Record Config := mkConfig {
  host : list ascii; csv_path : list ascii; mlock : bool; port : Z; seconds : Z;
  reconnect : bool; measure_e2e : bool; warmup : Z; stall_us : Z; cross_machine : bool
}.

Definition defaults : Config :=
  mkConfig (text "127.0.0.1") [] false 9001 0 false false 0 0 false.

Definition table : Table Config := [
  ("--host", set (λ v c, mkConfig v (csv_path c) (mlock c) (port c) (seconds c) (reconnect c) (measure_e2e c) (warmup c) (stall_us c) (cross_machine c)));
  ("--port", set (λ v c, mkConfig (host c) (csv_path c) (mlock c) (arg_u16 v) (seconds c) (reconnect c) (measure_e2e c) (warmup c) (stall_us c) (cross_machine c)));
  ("--seconds", set (λ v c, mkConfig (host c) (csv_path c) (mlock c) (port c) (atoi v) (reconnect c) (measure_e2e c) (warmup c) (stall_us c) (cross_machine c)));
  ("--warmup", set (λ v c, mkConfig (host c) (csv_path c) (mlock c) (port c) (seconds c) (reconnect c) (measure_e2e c) (atoi v) (stall_us c) (cross_machine c)));
  ("--stall-us", set (λ v c, mkConfig (host c) (csv_path c) (mlock c) (port c) (seconds c) (reconnect c) (measure_e2e c) (warmup c) (atoi v) (cross_machine c)));
  ("--mlock", Flag (λ c, mkConfig (host c) (csv_path c) true (port c) (seconds c) (reconnect c) (measure_e2e c) (warmup c) (stall_us c) (cross_machine c)));
  ("--csv", set (λ v c, mkConfig (host c) v (mlock c) (port c) (seconds c) (reconnect c) (measure_e2e c) (warmup c) (stall_us c) (cross_machine c)));
  ("--reconnect", Flag (λ c, mkConfig (host c) (csv_path c) (mlock c) (port c) (seconds c) true (measure_e2e c) (warmup c) (stall_us c) (cross_machine c)));
  ("--cross", Flag (λ c, mkConfig (host c) (csv_path c) (mlock c) (port c) (seconds c) (reconnect c) (measure_e2e c) (warmup c) (stall_us c) true));
  ("--e2e", Flag (λ c, mkConfig (host c) (csv_path c) (mlock c) (port c) (seconds c) (reconnect c) true (warmup c) (stall_us c) (cross_machine c)))
]%string.

Definition options (args : list (list ascii)) : Outcome Config := parse_args table args defaults.

Record wf (c : Config) : Prop := mkWf {
  wf_port : fits 16 (port c); wf_seconds : fits_int (seconds c);
  wf_warmup : fits_int (warmup c); wf_stall : fits_int (stall_us c)
}.

Definition render (c : Config) : list (list ascii) :=
  [text "--host"; host c; text "--csv"; csv_path c; text "--port"; to_string (port c);
   text "--seconds"; to_string (seconds c); text "--warmup"; to_string (warmup c);
   text "--stall-us"; to_string (stall_us c)]
  ++ (if mlock c then [text "--mlock"] else []) ++ (if reconnect c then [text "--reconnect"] else [])
  ++ (if cross_machine c then [text "--cross"] else []) ++ (if measure_e2e c then [text "--e2e"] else []).

Lemma probe_table_keeps : Forall (keeps wf) table.*2.
Proof.
  repeat (apply Forall_cons; split); try apply Forall_nil; simpl; try exact I;
    try (intros v c c' [H1 H2 H3 H4] [= <-]; constructor; simpl; auto with etg; fail);
    intros c [H1 H2 H3 H4]; done.
Qed.

Lemma probe_parse_render c : wf c → parse_args table (render c) defaults = Run c.
Proof.
  intros [H1 H2 H3 H4]. destruct c as [h v m p s r e w u x].
  unfold render. cbn [host csv_path mlock port seconds reconnect measure_e2e warmup stall_us cross_machine app] in *.
  do 6 (erewrite parse_value; [|reflexivity|
    cbn [host csv_path mlock port seconds reconnect measure_e2e warmup stall_us cross_machine]; reflexivity]).
  rewrite (parse_flag table (text "--mlock") m _ _ _ eq_refl),
    (parse_flag table (text "--reconnect") r _ _ _ eq_refl), (parse_flag table (text "--cross") x _ _ _ eq_refl).
  rewrite <- (app_nil_r (if e then _ else _)), (parse_flag table (text "--e2e") e [] _ _ eq_refl).
  cbn [parse_args]. destruct m, r, x, e;
    cbn [host csv_path mlock port seconds reconnect measure_e2e warmup stall_us cross_machine]; by autorewrite with etg.
Qed.
Lemma probe_exact_options : exact options render wf.
Proof.
  refine (parse_exact _ _ _ _ probe_table_keeps _ probe_parse_render).
  constructor; unfold fits, fits_int; pow_consts; simpl; lia.
Qed.
End ProbeOpt.

(** ** etg-record (src/src/record_main.cpp) *)

Module RecordOpt.
Record Config := mkConfig {
  out_path : list ascii; host : list ascii; csv_path : list ascii; port : Z; seconds : Z;
  reconnect : bool; fsync_every : Z
}.

Definition defaults : Config := mkConfig [] (text "127.0.0.1") [] 9002 0 false 0.

Definition table : Table Config := [
  ("--out", set (λ v c, mkConfig v (host c) (csv_path c) (port c) (seconds c) (reconnect c) (fsync_every c)));
  ("--host", set (λ v c, mkConfig (out_path c) v (csv_path c) (port c) (seconds c) (reconnect c) (fsync_every c)));
  ("--port", set (λ v c, mkConfig (out_path c) (host c) (csv_path c) (arg_u16 v) (seconds c) (reconnect c) (fsync_every c)));
  ("--seconds", set (λ v c, mkConfig (out_path c) (host c) (csv_path c) (port c) (atoi v) (reconnect c) (fsync_every c)));
  ("--fsync-every", set (λ v c, mkConfig (out_path c) (host c) (csv_path c) (port c) (seconds c) (reconnect c) (arg_u64 v)));
  ("--csv", set (λ v c, mkConfig (out_path c) (host c) v (port c) (seconds c) (reconnect c) (fsync_every c)));
  ("--reconnect", Flag (λ c, mkConfig (out_path c) (host c) (csv_path c) (port c) (seconds c) true (fsync_every c)))
]%string.

Definition check (c : Config) : Outcome Config := if bool_decide (out_path c = []) then Exit 2 else Run c.

Definition options (args : list (list ascii)) : Outcome Config :=
  and_then (parse_args table args defaults) check.

Record ranges (c : Config) : Prop := mkRanges {
  rg_port : fits 16 (port c); rg_seconds : fits_int (seconds c); rg_fsync : fits 64 (fsync_every c)
}.

Definition wf (c : Config) : Prop := ranges c ∧ out_path c ≠ [].

Definition render (c : Config) : list (list ascii) :=
  [text "--out"; out_path c; text "--host"; host c; text "--csv"; csv_path c; text "--port"; to_string (port c);
   text "--seconds"; to_string (seconds c); text "--fsync-every"; to_string (fsync_every c)]
  ++ (if reconnect c then [text "--reconnect"] else []).

Lemma record_table_keeps : Forall (keeps ranges) table.*2.
Proof.
  repeat (apply Forall_cons; split); try apply Forall_nil; simpl; try exact I;
    try (intros v c c' [H1 H2 H3] [= <-]; constructor; simpl; auto with etg; fail);
    intros c [H1 H2 H3]; done.
Qed.

Lemma record_parse_render c : ranges c → parse_args table (render c) defaults = Run c.
Proof.
  intros [H1 H2 H3]. destruct c as [o h v p s r f].
  unfold render. cbn [out_path host csv_path port seconds reconnect fsync_every app] in *.
  do 6 (erewrite parse_value; [|reflexivity|
    cbn [out_path host csv_path port seconds reconnect fsync_every]; reflexivity]).
  rewrite <- (app_nil_r (if r then _ else _)), (parse_flag table (text "--reconnect") r [] _ _ eq_refl).
  cbn [parse_args]. destruct r;
    cbn [out_path host csv_path port seconds reconnect fsync_every]; by autorewrite with etg.
Qed.
Lemma record_exact_options : exact options render wf.
Proof.
  refine (options_exact _ _ _ _ _ _ record_table_keeps _ _ _ record_parse_render).
  - constructor; unfold fits, fits_int; pow_consts; simpl; lia.
  - intros c c' Hr. unfold check. case_bool_decide; [done|]. by intros [= <-].
  - intros c [H1 H2]. split; [done|]. unfold check. by rewrite bool_decide_eq_false_2.
Qed.
End RecordOpt.

(** ** etg-view (src/src/view_main.cpp) *)

Module ViewOpt.
Record Config := mkConfig { host : list ascii; port : Z; http_port : Z; seconds : Z }.

Definition defaults : Config := mkConfig (text "127.0.0.1") 9003 8080 0.

Definition table : Table Config := [
  ("--host", set (λ v c, mkConfig v (port c) (http_port c) (seconds c)));
  ("--port", set (λ v c, mkConfig (host c) (arg_u16 v) (http_port c) (seconds c)));
  ("--http", set (λ v c, mkConfig (host c) (port c) (arg_u16 v) (seconds c)));
  ("--seconds", set (λ v c, mkConfig (host c) (port c) (http_port c) (atoi v)))
]%string.

Definition options (args : list (list ascii)) : Outcome Config := parse_args table args defaults.

Record wf (c : Config) : Prop := mkWf {
  wf_port : fits 16 (port c); wf_http : fits 16 (http_port c); wf_seconds : fits_int (seconds c)
}.

Definition render (c : Config) : list (list ascii) :=
  [text "--host"; host c; text "--port"; to_string (port c); text "--http"; to_string (http_port c);
   text "--seconds"; to_string (seconds c)].

Lemma view_table_keeps : Forall (keeps wf) table.*2.
Proof.
  repeat (apply Forall_cons; split); try apply Forall_nil; simpl; try exact I;
    intros v c c' [H1 H2 H3] [= <-]; constructor; simpl; auto with etg.
Qed.

Lemma view_parse_render c : wf c → parse_args table (render c) defaults = Run c.
Proof.
  intros [H1 H2 H3]. destruct c as [h p q s]. unfold render. cbn [host port http_port seconds] in *.
  do 4 (erewrite parse_value; [|reflexivity|cbn [host port http_port seconds]; reflexivity]).
  cbn [parse_args]. by autorewrite with etg.
Qed.
Lemma view_exact_options : exact options render wf.
Proof.
  refine (parse_exact _ _ _ _ view_table_keeps _ view_parse_render).
  constructor; unfold fits, fits_int; pow_consts; simpl; lia.
Qed.
End ViewOpt.

(** ** The theorem *)

(** C37. The configuration each of the seven programs runs with. Every well-formed
    configuration can be asked for: its command line, with numbers printed in decimal (the
    base id in hexadecimal) and an option repeated per source and consumer, is read back to
    exactly it. And whatever the arguments, a program that does not exit runs with a
    well-formed one: ports and counts within their integer types, consumer ports in
    1..65535 with a name, a known topology, something to serve, and the zero rates,
    durations and capacities each program refuses excluded. *)
Theorem command_lines_exact :
  exact Gateway.options Gateway.render Gateway.wf ∧
  exact Gen.options Gen.render Gen.wf ∧
  exact Stress.options Stress.render Stress.wf ∧
  exact ProbeOpt.options ProbeOpt.render ProbeOpt.wf ∧
  exact RecordOpt.options RecordOpt.render RecordOpt.wf ∧
  exact ViewOpt.options ViewOpt.render ViewOpt.wf ∧
  (∀ fv c, CadenceOpt.wf c → strtod fv = CadenceOpt.factor c →
           CadenceOpt.options (CadenceOpt.render fv c) = Run c) ∧
  (∀ args c, CadenceOpt.options args = Run c → CadenceOpt.wf c).
Proof.
  split_and!; [apply Gateway.gateway_exact_options|apply Gen.gen_exact_options|apply Stress.stress_exact_options
              |apply ProbeOpt.probe_exact_options|apply RecordOpt.record_exact_options|apply ViewOpt.view_exact_options| |].
  - intros fv c Hw Hf. unfold CadenceOpt.options. rewrite CadenceOpt.cadence_parse_render by (apply Hw || done).
    apply CadenceOpt.cadence_check_run. destruct Hw; auto.
  - intros args c. unfold CadenceOpt.options.
    destruct (parse_args _ args _) as [c0|] eqn:E; [|done]. cbn [and_then].
    intros (-> & H1 & H2)%CadenceOpt.cadence_check_run. constructor; [|done..].
    by eapply parse_keeps; [apply CadenceOpt.cadence_table_keeps|apply CadenceOpt.cadence_defaults_ranges|].
Qed.

(** ** What the parsers let through *)

(** The consumers' ports are truncated to 16 bits, not checked. *)
Lemma probe_port_truncated :
  ∃ c, ProbeOpt.options [text "--port"; text "74537"] = Run c ∧ ProbeOpt.port c = 9001.
Proof. eexists. by vm_compute. Qed.

(** A factor that is not a number passes the check that it exceeds 1. *)
Lemma nan_factor_accepted :
  ∃ c, CadenceOpt.options [text "--factor"; text "nan"] = Run c ∧ CadenceOpt.factor c = S754_nan.
Proof. eexists. by vm_compute. Qed.
