(* ===== verification/Usage.v ===== *)
(** * Usage: what the programs say about themselves is what they do

    The [usage] texts of the seven programs, read the way a person reads them: an indented
    option starts an entry, a word after a single space is its argument, and a
    parenthesised default is what the program uses without the option. Compared with the
    option tables of [Options]: every option is documented, every documented option
    exists, takes an argument exactly when the text shows one, and has the default the
    text states. *)

From Stdlib Require Import Ascii String Floats.SpecFloat.
From S2P Require Import Prelude Text Doubles Samples Options.

(** ** The texts *)

(** [usage] of main.cpp, by lines. *)
Definition gateway_usage (version : string) : list string :=
  [("etg-gateway " ++ version);
   EmptyString;
   "usage: etg-gateway [--source SPEC ...] [--consumer NAME:PORT ...]";
   EmptyString;
   "  --source can:vcan0     read a SocketCAN interface; repeatable";
   "  --source synth         generate frames in process; repeatable";
   "  --topology queue|ring  per-consumer mutex queues, or the shared";
   "                         lock-free broadcast ring (default: ring)";
   "  --consumer NAME:PORT   serve a consumer on PORT; repeatable";
   "  --capacity N           frames per queue, or ring cells (default 8192)";
   "  --batch N              max frames per wire batch (default 256)";
   "  --linger-us N          wait up to N microseconds to fill a batch.";
   "                         0 sends immediately: lowest latency, and one";
   "                         write syscall per frame at low rates";
   "  --echo-ms N            send a round-trip probe every N ms, 0 to";
   "                         disable. Timed by this machine alone, so";
   "                         it needs no clock agreement with the";
   "                         consumer - unlike one-way latency";
   "  --rate N               synthetic source rate in frames/s (default 1000)";
   "  --seconds N            run for N seconds (0 = until interrupted)";
   "  --tap                  print every frame; only useful at low rates";
   "  --mlock                lock the process into RAM. Priority decides";
   "                         who runs, not who is resident, and a page";
   "                         fault stalls an RT thread all the same"]%string.

(** [usage] of gen_main.cpp, by lines. *)
Definition gen_usage (version : string) : list string :=
  [("etg-gen " ++ version ++ " - paced CAN frame generator");
   EmptyString;
   "usage: etg-gen --interface vcan0 [options]";
   EmptyString;
   "  --interface NAME   CAN interface to write to (required)";
   "  --rate N           frames per second (default 1000)";
   "  --seconds N        run duration (default 10)";
   "  --id HEX           base CAN id (default 100)";
   "  --ids N            cycle through N consecutive ids (default 1)";
   "  --csv PATH         write every retained jitter sample, one per line"]%string.

(** [usage] of ring_stress.cpp, by lines. *)
Definition ringstress_usage : list string :=
  ["etg-ringstress - contention stress for the broadcast ring";
   EmptyString;
   "  --producers N   writer threads (default 4)";
   "  --readers N     reader threads (default 2)";
   "  --capacity N    ring cells, rounded up to a power of two (default 16)";
   "  --seconds N     run duration (default 5)";
   EmptyString;
   "A small capacity and more producers than cores is what makes cells";
   "collide; a large one makes the ring quiet. Exit status is non-zero if";
   "any frame was torn or read out of position."]%string.

(** [usage] of probe_main.cpp, by lines. *)
Definition probe_usage (version : string) : list string :=
  [("etg-probe " ++ version ++ " - gateway consumer");
   EmptyString;
   "usage: etg-probe [--host H] [--port P] [--seconds N]";
   EmptyString;
   "  --host HOST      gateway host (default 127.0.0.1)";
   "  --port PORT      gateway port (default 9001)";
   "  --seconds N      run for N seconds (0 = until interrupted)";
   "  --reconnect      keep reconnecting if the gateway goes away";
   "  --warmup N       discard the first N seconds of latency samples;";
   "                   without it the tail is the age of the backlog that";
   "                   was waiting when this consumer connected";
   "  --e2e            also measure end-to-end latency; requires frames";
   "                   produced by etg-gen, which puts its send timestamp";
   "                   in the payload";
   "  --stall-us N     sleep N microseconds per batch, to make this";
   "                   consumer deliberately too slow to keep up";
   "  --cross          measure against CLOCK_REALTIME instead, for a";
   "                   gateway on another machine. Check both hosts are";
   "                   disciplined first - chronyc sources, and look for";
   "                   a non-zero Reach - or this reports the offset";
   "                   between two clocks rather than a latency";
   "  --csv PATH       write every retained gateway-latency sample";
   "  --mlock          lock the process into RAM, so a page fault";
   "                   cannot stall the instrument itself"]%string.

(** [usage] of record_main.cpp, by lines. *)
Definition record_usage (version : string) : list string :=
  [("etg-record " ++ version ++ " - gateway consumer that appends to a file");
   EmptyString;
   "usage: etg-record --out PATH [--host H] [--port P] [--seconds N]";
   EmptyString;
   "  --out PATH       output file (required)";
   "  --host HOST      gateway host (default 127.0.0.1)";
   "  --port PORT      gateway port (default 9002)";
   "  --seconds N      run for N seconds (0 = until interrupted)";
   "  --reconnect      keep reconnecting if the gateway goes away";
   "  --fsync-every N  fsync after every N batches (0 = never)";
   "  --csv PATH       write every retained write-duration sample"]%string.

(** [usage] of cadence_main.cpp, by lines. *)
Definition cadence_usage (version : string) : list string :=
  [("etg-cadence " ++ version ++ " - per-id cadence monitor");
   EmptyString;
   "usage: etg-cadence [--host H] [--port P] [--seconds N]";
   EmptyString;
   "  --host HOST      gateway host (default 127.0.0.1)";
   "  --port PORT      gateway port (default 9004)";
   "  --seconds N      run for N seconds (0 = until interrupted)";
   "  --reconnect      keep reconnecting if the gateway goes away";
   "  --calibrate N    inter-arrivals to learn per id before checking";
   "                   (default 32)";
   "  --factor F       flag an interval longer than F times the learned";
   "                   period (default 4.0)";
   "  --gap-blind      ignore the gateway's loss markers, so loss looks";
   "                   like a bus that went quiet. The control arm of the";
   "                   argument for markers, not a usable mode";
   "  --stall-us N     sleep N microseconds per batch, to fall behind";
   "                   on purpose"]%string.

(** [usage] of view_main.cpp, by lines. *)
Definition view_usage (version : string) : list string :=
  [("etg-view " ++ version ++ " - gateway consumer with a live web view");
   EmptyString;
   "usage: etg-view [--host H] [--port P] [--http PORT]";
   EmptyString;
   "  --host HOST    gateway host (default 127.0.0.1)";
   "  --port PORT    gateway port to consume (default 9003)";
   "  --http PORT    port to serve the view on (default 8080)";
   "  --seconds N    run for N seconds (0 = until interrupted)"]%string.

(** ** Reading a text *)

(** What follows the first occurrence of [pat]. *)
Fixpoint after (pat l : list ascii) : option (list ascii) :=
  if decide (take (length pat) l = pat) then Some (drop (length pat) l)
  else match l with [] => None | _ :: l => after pat l end.

Fixpoint until (stop : ascii) (l : list ascii) : list ascii :=
  match l with
  | [] => []
  | c :: l => if decide (c = stop) then [] else c :: until stop l
  end.

(** An option as the text presents it. *)
Record Entry := mkEntry { e_name : list ascii; e_value : bool; e_default : option (list ascii) }.

(** The default stated in the text of an entry. *)
Definition stated_default (l : list ascii) : option (list ascii) :=
  match after (text "(default: ") l with
  | Some rest => Some (until ")" rest)
  | None => match after (text "(default ") l with Some rest => Some (until ")" rest) | None => None end
  end.

Definition entry_of (l : list ascii) : Entry :=
  let body := drop 2 l in
  let name := until " " body in
  let rest := drop (length name) body in
  mkEntry name (match rest with " "%char :: c :: _ => negb (bool_decide (c = " "%char)) | _ => false end)
    (stated_default l).

(** Lines that start an entry, and their continuation lines. *)
Definition starts_entry (l : list ascii) : bool := bool_decide (take 4 l = text "  --").
Definition continues_entry (l : list ascii) : bool := bool_decide (take 3 l = text "   ").

Fixpoint gather (current : option (list ascii)) (lines : list (list ascii)) : list (list ascii) :=
  let close := match current with Some e => [e] | None => [] end in
  match lines with
  | [] => close
  | l :: lines =>
      if starts_entry l then close ++ gather (Some l) lines
      else if continues_entry l then gather (option_map (λ e, e ++ l) current) lines
      else close ++ gather None lines
  end.

Definition entries (lines : list string) : list Entry := map entry_of (gather None (map text lines)).

(** ** Texts that tell the truth *)

Definition entry_true {C} (t : Table C) (defaults : C) (e : Entry) : Prop :=
  match find_option (e_name e) t with
  | Some (Value f) => e_value e = true ∧ match e_default e with Some d => f d defaults = Some defaults | None => True end
  | Some (Flag _) => e_value e = false ∧ e_default e = None
  | None => False
  end.

(** [aliases]: second names of options, for which the text only shows the first. *)
Definition truthful {C} (aliases : list (string * string)) (t : Table C) (defaults : C) (lines : list string) : Prop :=
  Forall (λ o, text o.1 ∈ map e_name (entries lines) ∨ o.1 ∈ map fst aliases) t ∧
  Forall (λ a, find_option (text a.1) t = find_option (text a.2) t ∧ text a.2 ∈ map e_name (entries lines)) aliases ∧
  Forall (entry_true t defaults) (entries lines).

(** Decides a closed text. *)
Ltac read_usage :=
  split; [apply (bool_decide_unpack _); vm_compute; exact I|];
  split; [repeat (apply Forall_cons; split; [split; [reflexivity|apply (bool_decide_unpack _); vm_compute; exact I]|]);
          apply Forall_nil; exact I|];
  match goal with
  | |- Forall _ ?l => let l' := eval vm_compute in l in change l with l'
  end;
  repeat (apply Forall_cons; split; [vm_compute; by split_and!|]); apply Forall_nil; exact I.

(** ** Properties *)

(** The usage texts are true. For each of the seven programs and whatever its version:
    the options its text lists are exactly the options it accepts (--queue of the gateway
    is a second name of --capacity), an option is shown with an argument exactly when it
    takes one, and giving it the default the text states changes nothing. *)
Theorem usages_truthful version :
  truthful [("--queue", "--capacity")]%string Gateway.table Gateway.defaults (gateway_usage version) ∧
  truthful [] Gen.table Gen.defaults (gen_usage version) ∧
  truthful [] Stress.table Stress.defaults ringstress_usage ∧
  truthful [] ProbeOpt.table ProbeOpt.defaults (probe_usage version) ∧
  truthful [] RecordOpt.table RecordOpt.defaults (record_usage version) ∧
  truthful [] CadenceOpt.table CadenceOpt.defaults (cadence_usage version) ∧
  truthful [] ViewOpt.table ViewOpt.defaults (view_usage version).
Proof.
  refine (conj _ (conj _ (conj _ (conj _ (conj _ (conj _ _)))))); read_usage.
Qed.
