(* ===== verification/Platform.v ===== *)
(** * Platform: system calls, descriptors and the functions that open them

    src/src/tcp.cpp, clock.cpp, rt.cpp and the [open], [create] and [connect] functions of
    the sources, the egress, the ingest and the page server. A function runs against the
    kernel's answers, in order, and the set of descriptors the process has open; it opens
    and closes them as the code does. The kernel chooses a new descriptor ([alloc], not one
    that is open) and the C library names an error ([strerror], [gai_strerror]). What the
    kernel was told about a descriptor (the port or interface it is bound to, the peer it is
    connected to), and the memory and threads it refused, is kept in a log.

    [holds D m D'] is the ownership triple: run from a state in which the function owns the
    descriptors [D] next to any others, [m] ends owning exactly [D' result], leaves the
    others alone and closes nothing that is not open. *)

From Stdlib Require Import Ascii String.
From S2P Require Import Prelude Text Printf Samples Egress.

(** What a system call answers: a value, or an error number. *)
Inductive Answer := Ok (n : Z) | Err (errno : Z).

(** What a socket is bound or connected to. *)
Inductive Endpoint := Port (port : Z) | Iface (name : list ascii) | Peer (host : list ascii) (port : Z).

Inductive Note := Bound (fd : Z) (e : Endpoint) | NoMemory | NoThread.

Record Os := mkOs {
  os_open : gset Z;
  os_stray : Z;              (* closes of descriptors that were not open *)
  os_errno : Z;
  os_answers : list Answer;
  os_log : list Note
}.

Definition Sys (A : Type) : Type := Os → A * Os.

#[export] Instance sys_ret : MRet Sys := λ A a s, (a, s).
#[export] Instance sys_bind : MBind Sys := λ A B k m s, let (a, s') := m s in k a s'.

Definition EIO : Z := 5.
Definition EPERM : Z := 1.
Definition EAGAIN : Z := 11.
Definition ENOMEM : Z := 12.

(** The next answer; an exhausted list answers with an error. *)
Definition answer : Sys Answer := λ s,
  match os_answers s with
  | [] => (Err EIO, s)
  | a :: l => (a, mkOs (os_open s) (os_stray s) (os_errno s) l (os_log s))
  end.

Definition set_errno (e : Z) : Sys unit := λ s, (tt, mkOs (os_open s) (os_stray s) e (os_answers s) (os_log s)).

Definition get_errno : Sys Z := λ s, (os_errno s, s).

(** A call that opens nothing: -1 on error. *)
Definition sys_call : Sys Z :=
  a ← answer; match a with Ok n => mret n | Err e => set_errno e ≫= λ _, mret (-1) end.

(** [close]. *)
Definition sys_close (fd : Z) : Sys unit := λ s,
  (tt, if decide (fd ∈ os_open s)
       then mkOs (os_open s ∖ {[fd]}) (os_stray s) (os_errno s) (os_answers s) (os_log s)
       else mkOs (os_open s) (os_stray s + 1) (os_errno s) (os_answers s) (os_log s)).

Definition add_open (fd : Z) : Sys unit := λ s,
  (tt, mkOs (os_open s ∪ {[fd]}) (os_stray s) (os_errno s) (os_answers s) (os_log s)).

Definition get_open : Sys (gset Z) := λ s, (os_open s, s).

Definition note (x : Note) : Sys unit := λ s,
  (tt, mkOs (os_open s) (os_stray s) (os_errno s) (os_answers s) (os_log s ++ [x])).

(** [bind] and [connect]: -1 on error. *)
Definition sys_bind_to (fd : Z) (e : Endpoint) : Sys Z :=
  rc ← sys_call; if rc <? 0 then mret rc else note (Bound fd e) ≫= λ _, mret rc.

Definition sys_connect (fd : Z) (e : Endpoint) : Sys Z :=
  rc ← sys_call; if rc =? 0 then note (Bound fd e) ≫= λ _, mret rc else mret rc.

(** [std::vector<T>(n)] with [sizeof(T) = size], and [std::thread]: false when an exception
    leaves the constructor. A vector of more than [PTRDIFF_MAX] bytes is a
    [std::length_error] before any memory is asked for. *)
Definition max_size (size : Z) : Z := (2 ^ 63 - 1) / size.

Definition sys_vector (n size : Z) : Sys bool :=
  if n >? max_size size then mret false else
  a ← answer; match a with Ok _ => mret true | Err _ => note NoMemory ≫= λ _, mret false end.

Definition sys_thread : Sys bool :=
  a ← answer; match a with Ok _ => mret true | Err _ => note NoThread ≫= λ _, mret false end.

Section Kernel.
Context (alloc : gset Z → Z) (strerror gai_strerror : Z → list ascii).

(** [socket], [accept], [eventfd], [timerfd_create]: a new descriptor, or -1. *)
Definition sys_open : Sys Z :=
  a ← answer;
  match a with
  | Ok _ => fds ← get_open; add_open (alloc fds) ≫= λ _, mret (alloc fds)
  | Err e => set_errno e ≫= λ _, mret (-1)
  end.

(** [what: strerror(errno)]. *)
Definition message (what : list ascii) : Sys (list ascii) :=
  e ← get_errno; mret (what ++ text ": " ++ strerror e).

(** The failure path of the constructors: the message, then [close]. *)
Definition fail_close {A} (fd : Z) (what : list ascii) : Sys (list ascii + A) :=
  m ← message what; sys_close fd ≫= λ _, mret (inl m).

Definition fail {A} (what : list ascii) : Sys (list ascii + A) := m ← message what; mret (inl m).

(** ** tcp.cpp *)

(** [None] is success, otherwise the error text. *)
Definition set_nodelay (fd : Z) : Sys (option (list ascii)) :=
  rc ← sys_call;
  if rc <? 0 then m ← message (text "setsockopt(TCP_NODELAY)"); mret (Some m) else mret None.

Definition set_nonblocking (fd : Z) : Sys (option (list ascii)) :=
  flags ← sys_call;
  rc ← (if flags <? 0 then mret (-1) else sys_call);
  if rc <? 0 then m ← message (text "fcntl(O_NONBLOCK)"); mret (Some m) else mret None.

Definition listen_on (port : Z) : Sys (list ascii + Z) :=
  fd ← sys_open;
  if fd <? 0 then fail (text "socket") else
  rc ← sys_call;
  if rc <? 0 then fail_close fd (text "setsockopt(SO_REUSEADDR)") else
  rc ← sys_bind_to fd (Port port);
  if rc <? 0 then fail_close fd (text "bind port " ++ to_string port) else
  rc ← sys_call;
  if rc <? 0 then fail_close fd (text "listen") else
  nb ← set_nonblocking fd;
  match nb with
  | Some e => sys_close fd ≫= λ _, mret (inl e)
  | None => mret (inr fd)
  end.

(** The port [getsockname] reports, 0 when it fails. *)
Definition local_port (fd : Z) : Sys Z :=
  rc ← sys_call; mret (if rc <? 0 then 0 else u16 rc).

Inductive Accept := Accepted (fd : Z) | WouldBlock | AcceptError (e : list ascii).

Definition accept_nonblocking (listen_fd : Z) : Sys Accept :=
  fd ← sys_open;
  if 0 <=? fd then
    nb ← set_nonblocking fd;
    match nb with
    | Some e => sys_close fd ≫= λ _, mret (AcceptError e)
    | None =>
        nd ← set_nodelay fd;
        match nd with
        | Some e => sys_close fd ≫= λ _, mret (AcceptError e)
        | None => mret (Accepted fd)
        end
    end
  else
    e ← get_errno;
    if e =? EAGAIN then mret WouldBlock
    else m ← message (text "accept"); mret (AcceptError m).

(** The walk over the addresses of a host: the first that connects, or -1. *)
Fixpoint try_addresses (host : list ascii) (port : Z) (n : nat) : Sys Z :=
  match n with
  | O => mret (-1)
  | S n =>
      fd ← sys_open;
      if fd <? 0 then try_addresses host port n else
      rc ← sys_connect fd (Peer host port);
      if rc =? 0 then mret fd else sys_close fd ≫= λ _, try_addresses host port n
  end.

(** [getaddrinfo] answers with the number of addresses it found. *)
Definition connect_to (host : list ascii) (port : Z) : Sys (list ascii + Z) :=
  found ← answer;
  match found with
  | Err rc => mret (inl (text "getaddrinfo " ++ host ++ text ": " ++ gai_strerror rc))
  | Ok n =>
      fd ← try_addresses host port (Z.to_nat n);
      if fd <? 0 then fail (text "connect " ++ host ++ text ":" ++ to_string port) else
      nd ← set_nodelay fd;
      match nd with
      | Some e => sys_close fd ≫= λ _, mret (inl e)
      | None => mret (inr fd)
      end
  end.

(** ** frame_stream.cpp: [FrameStream::connect] *)

Definition stream_connect (host : list ascii) (port : Z) : Sys (list ascii + Z) :=
  r ← connect_to host port;
  match r with
  | inl e => mret (inl e)
  | inr fd =>
      nb ← set_nonblocking fd;
      match nb with
      | Some e => sys_close fd ≫= λ _, mret (inl e)
      | None => mret (inr fd)
      end
  end.

(** ** rt.cpp *)

Definition lock_memory : Sys (option (list ascii)) :=
  rc ← sys_call;
  if negb (rc =? 0) then
    m ← message (text "mlockall"); e ← get_errno;
    mret (Some (if (e =? ENOMEM) || (e =? EPERM)
                then m ++ text " (needs CAP_IPC_LOCK or a raised RLIMIT_MEMLOCK)" else m))
  else mret None.

(** ** The sources *)

Definition IFNAMSIZ : nat := 16.

(** [CanSource::open] and, with the first two calls only, [open_can_writer]: the socket is
    bound to the index that the first of them answers for the name. *)
Definition bind_can (ifname : list ascii) : Sys (list ascii + Z) :=
  if (IFNAMSIZ <=? length ifname)%nat then mret (inl (text "interface name too long: " ++ ifname)) else
  fd ← sys_open;
  if fd <? 0 then fail (text "socket(PF_CAN)") else
  rc ← sys_call;
  if rc <? 0 then fail_close fd (text "ioctl(SIOCGIFINDEX) on " ++ ifname) else
  rc ← sys_bind_to fd (Iface ifname);
  if rc <? 0 then fail_close fd (text "bind " ++ ifname) else
  mret (inr fd).

Definition open_can_writer (ifname : list ascii) : Sys (list ascii + Z) := bind_can ifname.

Definition CanSource_open (ifname : list ascii) (receive_errors : bool) : Sys (list ascii + Z) :=
  r ← bind_can ifname;
  match r with
  | inl e => mret (inl e)
  | inr fd =>
      rc ← sys_call;
      if rc <? 0 then fail_close fd (text "setsockopt(SO_TIMESTAMPING)") else
      rc ← sys_call;
      if rc <? 0 then fail_close fd (text "setsockopt(SO_RXQ_OVFL)") else
      rc ← sys_call;
      if rc <? 0 then fail_close fd (text "setsockopt(CAN_RAW_RECV_OWN_MSGS)") else
      if receive_errors then
        rc ← sys_call;
        if rc <? 0 then fail_close fd (text "setsockopt(CAN_RAW_ERR_FILTER)") else mret (inr fd)
      else mret (inr fd)
  end.

Definition SyntheticSource_open (can_ids : list Z) (period_ns frames_per_tick : Z) : Sys (list ascii + Z) :=
  match can_ids with
  | [] => mret (inl (text "synthetic source needs at least one CAN id"))
  | _ =>
      if (period_ns =? 0) || (frames_per_tick =? 0)
      then mret (inl (text "synthetic source needs a non-zero period and frames_per_tick")) else
      fd ← sys_open;
      if fd <? 0 then fail (text "timerfd_create") else
      rc ← sys_call;
      if rc <? 0 then fail_close fd (text "timerfd_settime") else
      mret (inr fd)
  end.

(** ** samples.cpp: [Samples::write_csv] *)

Definition csv_lines (header : list ascii) (s : Samples) : list (list Item) :=
  [Lit header] :: map (λ v, [Dec v]) (values_ s).

(** The lines written, [None] when the file cannot be opened. *)
Definition write_csv (header : list ascii) (s : Samples) : Sys (option (list (list Item))) :=
  f ← sys_open;
  if f <? 0 then mret None else sys_close f ≫= λ _, mret (Some (csv_lines header s)).

(** What a program does with its [--csv] option; an empty path asks for nothing. *)
Definition save_csv (path header : list ascii) (s : Samples) : Sys (option (list (list Item))) :=
  match path with [] => mret None | _ => write_csv header s end.

(** ** The listeners: [Egress::create] and [http::Server::create] *)

Record Listener := mkListener { l_port : Z; l_listen_fd : Z; l_stop_fd : Z }.

Definition Server_create (port : Z) : Sys (list ascii + Listener) :=
  r ← listen_on port;
  match r with
  | inl e => mret (inl e)
  | inr listen_fd =>
      stop_fd ← sys_open;
      if stop_fd <? 0 then fail_close listen_fd (text "eventfd") else
      bound ← local_port listen_fd;
      mret (inr (mkListener (if bound =? 0 then port else bound) listen_fd stop_fd))
  end.

Definition Egress_create (port max_frames : Z) : Sys (list ascii + Listener) :=
  if (max_frames =? 0) || (max_frames >? kMaxBatch)
  then mret (inl (text "batch size must be between 1 and " ++ to_string kMaxBatch)) else
  r ← listen_on port;
  match r with
  | inl e => mret (inl e)
  | inr listen_fd =>
      stop_fd ← sys_open;
      if stop_fd <? 0 then fail_close listen_fd (text "eventfd") else
      bound ← local_port listen_fd;
      mret (inr (mkListener (if bound =? 0 then port else bound) listen_fd stop_fd))
  end.

(** The destructors close what is held. *)
Definition close_listener (l : Listener) : Sys unit :=
  sys_close (l_listen_fd l) ≫= λ _, sys_close (l_stop_fd l).

(** ** The ingest threads: [FanOut::create], [RingIngest::create] *)

Definition stop_event : Sys (list ascii + Z) :=
  fd ← sys_open; if fd <? 0 then fail (text "eventfd") else mret (inr fd).

Definition FanOut_create (sources sinks : nat) : Sys (list ascii + Z) :=
  if (sources =? 0)%nat then mret (inl (text "fan-out needs at least one source"))
  else if (sinks =? 0)%nat then mret (inl (text "fan-out needs at least one sink"))
  else stop_event.

Definition RingIngest_create (sources : nat) : Sys (list ascii + Z) :=
  if (sources =? 0)%nat then mret (inl (text "ring ingest needs at least one source"))
  else stop_event.
End Kernel.

(** ** clock.cpp *)

Definition now_ns (tv_sec tv_nsec : Z) : Z := u64 (u64 (u64 tv_sec * 1000000000) + u64 tv_nsec).

(** How every program computes the end of its run from [--seconds], and the condition of
    its loops: no signal yet, and the clock short of it.

    [seconds > 0 ? monotonic_ns() + seconds * 10^9 : UINT64_MAX] *)
Definition deadline_of (seconds now : Z) : Z :=
  if seconds >? 0 then u64 (now + u64 (u64 seconds * 1000000000)) else uint64_max.

Definition keep_going (deadline : Z) (stop : bool) (clock : Z) : bool := negb stop && (clock <? deadline).

Lemma deadline_exact seconds now :
  0 <= now → 0 < seconds < 2 ^ 31 → now + seconds * 1000000000 < 2 ^ 64 →
  deadline_of seconds now = now + seconds * 1000000000.
Proof.
  intros H0 Hs Hb. unfold deadline_of. rewrite Z.gtb_ltb, (proj2 (Z.ltb_lt 0 seconds)) by lia.
  change (2 ^ 31) with 2147483648 in Hs. pow_consts.
  rewrite (u64_small seconds), (u64_small (seconds * _)), u64_small; unfold fits; pow_consts; lia.
Qed.

(** ** Ownership triples *)

Definition holds {A} (D : gset Z) (m : Sys A) (Q : A → gset Z → Prop) : Prop :=
  ∀ F s, F ## D → os_open s = F ∪ D →
  ∃ D', Q (m s).1 D' ∧ F ## D' ∧ os_open (m s).2 = F ∪ D' ∧ os_stray (m s).2 = os_stray s.

(** A call that changes no ownership. *)
Definition same {A} (D : gset Z) (a : A) (D' : gset Z) : Prop := D' = D.

(** A raw descriptor or -1; a result that carries a descriptor, or an error. *)
Definition gives_fd (D : gset Z) (fd : Z) (D' : gset Z) : Prop :=
  if fd <? 0 then D' = D else fd ∉ D ∧ D' = D ∪ {[fd]}.

Definition gives (D : gset Z) (r : list ascii + Z) (D' : gset Z) : Prop :=
  match r with inl _ => D' = D | inr fd => fd ∉ D ∧ D' = D ∪ {[fd]} end.

Definition gives_listener (D : gset Z) (r : list ascii + Listener) (D' : gset Z) : Prop :=
  match r with
  | inl _ => D' = D
  | inr l => l_listen_fd l ∉ D ∧ l_stop_fd l ∉ D ∧ l_listen_fd l ≠ l_stop_fd l ∧
             D' = D ∪ {[l_listen_fd l; l_stop_fd l]}
  end.

Definition gives_accept (D : gset Z) (r : Accept) (D' : gset Z) : Prop :=
  match r with Accepted fd => fd ∉ D ∧ D' = D ∪ {[fd]} | _ => D' = D end.

Section Rules.
Context {A B : Type}.

Lemma holds_ret D (a : A) Q : Q a D → holds D (mret a) Q.
Proof. intros H F s Hd Ho. by exists D. Qed.

Lemma holds_bind D (m : Sys A) (k : A → Sys B) Q R :
  holds D m Q → (∀ a D1, Q a D1 → holds D1 (k a) R) → holds D (m ≫= k) R.
Proof.
  intros Hm Hk F s Hd Ho. destruct (Hm F s Hd Ho) as (D1 & HQ & Hd1 & Ho1 & Hs1).
  unfold mbind, sys_bind. destruct (m s) as [a s1]. simpl in *.
  destruct (Hk a D1 HQ F s1 Hd1 Ho1) as (D2 & HR & Hd2 & Ho2 & Hs2).
  exists D2. rewrite <- Hs1. done.
Qed.

Lemma holds_conseq D (m : Sys A) (Q Q' : A → gset Z → Prop) :
  holds D m Q → (∀ a D', Q a D' → Q' a D') → holds D m Q'.
Proof.
  intros Hm HQ F s Hd Ho. destruct (Hm F s Hd Ho) as (D' & H1 & H2). exists D'. split; [by apply HQ|done].
Qed.
End Rules.

Lemma holds_answer D : holds D answer (same D).
Proof. intros F s Hd Ho. exists D. unfold answer. by destruct (os_answers s). Qed.

Lemma holds_set_errno D e : holds D (set_errno e) (same D).
Proof. intros F s Hd Ho. by exists D. Qed.

Lemma holds_get_errno D : holds D get_errno (same D).
Proof. intros F s Hd Ho. by exists D. Qed.

Lemma holds_call D : holds D sys_call (same D).
Proof.
  eapply holds_bind; [apply holds_answer|]. intros [n|e] D1 ->; [by apply holds_ret|].
  eapply holds_bind; [apply holds_set_errno|]. intros [] D1 ->. by apply holds_ret.
Qed.

Lemma holds_close D fd : fd ∈ D → holds D (sys_close fd) (λ _ D', D' = D ∖ {[fd]}).
Proof.
  intros Hin F s Hd Ho. exists (D ∖ {[fd]}). unfold sys_close. simpl.
  rewrite decide_True by set_solver. simpl. split; [done|]. split; [set_solver|].
  split; [|done]. rewrite Ho. set_solver.
Qed.

Lemma holds_close_last D fd : fd ∉ D → holds (D ∪ {[fd]}) (sys_close fd) (same D).
Proof.
  intros Hn. eapply holds_conseq; [apply holds_close; set_solver|].
  intros [] D' ->. unfold same. set_solver.
Qed.

Lemma holds_note D x : holds D (note x) (same D).
Proof. intros F s Hd Ho. by exists D. Qed.

Create HintDb sys.
#[export] Hint Resolve holds_answer holds_set_errno holds_get_errno holds_call holds_note : sys.

(** The next call of a function, by its triple. *)
Ltac sys_step :=
  lazymatch goal with
  | |- holds _ (mret _) _ => apply holds_ret
  | |- holds _ (_ ≫= _) _ =>
      eapply holds_bind; [solve [eauto with sys]|]; cbv beta;
      let a := fresh "a" in let D' := fresh "D'" in let H := fresh "H" in
      intros a D' H; first [red in H; subst D' | simpl in H]
  | |- holds _ (if ?b then _ else _) _ => destruct b eqn:?
  | |- holds _ (match ?x with _ => _ end) _ => destruct x
  end.

Lemma holds_bind_to D fd e : holds D (sys_bind_to fd e) (same D).
Proof. unfold sys_bind_to. repeat sys_step; done. Qed.

Lemma holds_sys_connect D fd e : holds D (sys_connect fd e) (same D).
Proof. unfold sys_connect. repeat sys_step; done. Qed.

Lemma holds_vector D n size : holds D (sys_vector n size) (same D).
Proof. unfold sys_vector. repeat sys_step; done. Qed.

Lemma holds_thread D : holds D sys_thread (same D).
Proof. unfold sys_thread. repeat sys_step; done. Qed.
#[export] Hint Resolve holds_bind_to holds_sys_connect holds_vector holds_thread : sys.

Section Specs.
Context (alloc : gset Z → Z) (strerror gai_strerror : Z → list ascii).
Context (alloc_new : ∀ X, alloc X ∉ X ∧ 0 <= alloc X).

Lemma holds_open D : holds D (sys_open alloc) (gives_fd D).
Proof.
  unfold sys_open. sys_step. destruct a as [n|e].
  - intros F s Hd Ho. destruct (alloc_new (os_open s)) as [Hn H0].
    exists (D ∪ {[alloc (os_open s)]}). unfold mbind, sys_bind. simpl. unfold gives_fd.
    rewrite (proj2 (Z.ltb_ge _ _)) by lia. rewrite Ho in Hn |- *. clear - Hn Hd.
    split; [split; [set_solver|done]|]. split; [set_solver|]. split; [|done]. by rewrite union_assoc_L.
  - sys_step. sys_step. done.
Qed.
Hint Resolve holds_open : sys.

Lemma holds_message D what : holds D (message strerror what) (same D).
Proof. unfold message. repeat sys_step. done. Qed.
Hint Resolve holds_message : sys.

Lemma holds_fail {A} D what : holds D (fail strerror what : Sys (list ascii + A)) (λ r D', D' = D ∧ ∃ e, r = inl e).
Proof. unfold fail. repeat sys_step. eauto. Qed.

Lemma holds_fail_close {A} D fd what :
  fd ∉ D → holds (D ∪ {[fd]}) (fail_close strerror fd what : Sys (list ascii + A)) (λ r D', D' = D ∧ ∃ e, r = inl e).
Proof.
  intros Hn. unfold fail_close. sys_step. eapply holds_bind; [by apply holds_close_last|].
  intros [] D' ->. apply holds_ret. eauto.
Qed.

Lemma holds_set_nodelay D fd : holds D (set_nodelay strerror fd) (same D).
Proof. unfold set_nodelay. repeat sys_step; done. Qed.

Lemma holds_set_nonblocking D fd : holds D (set_nonblocking strerror fd) (same D).
Proof.
  unfold set_nonblocking. sys_step.
  eapply holds_bind; [instantiate (1 := same D); destruct (a <? 0); [by apply holds_ret|apply holds_call]|].
  intros rc D' ->. repeat sys_step; done.
Qed.
Hint Resolve holds_set_nodelay holds_set_nonblocking : sys.

(** The error branches of every constructor. *)
Lemma fail_gives {A} D what (Q : list ascii + A → gset Z → Prop) :
  (∀ e, Q (inl e) D) → holds D (fail strerror what) Q.
Proof. intros HQ. eapply holds_conseq; [apply holds_fail|]. intros r D' (-> & e & ->). apply HQ. Qed.

Lemma fail_close_gives {A} D fd what (Q : list ascii + A → gset Z → Prop) :
  fd ∉ D → (∀ e, Q (inl e) D) → holds (D ∪ {[fd]}) (fail_close strerror fd what) Q.
Proof. intros Hn HQ. eapply holds_conseq; [by apply holds_fail_close|]. intros r D' (-> & e & ->). apply HQ. Qed.

Lemma close_gives {A} D fd (r : A) (Q : A → gset Z → Prop) :
  fd ∉ D → Q r D → holds (D ∪ {[fd]}) (sys_close fd ≫= λ _, mret r) Q.
Proof.
  intros Hn HQ. eapply holds_bind; [by apply holds_close_last|]. intros [] D' ->. by apply holds_ret.
Qed.

(** A descriptor that was just opened: the two cases of its sign. *)
Lemma open_gives {A} D (k : Z → Sys A) Q :
  (∀ fd, fd < 0 → holds D (k fd) Q) →
  (∀ fd, 0 <= fd → fd ∉ D → holds (D ∪ {[fd]}) (k fd) Q) →
  holds D (sys_open alloc ≫= k) Q.
Proof.
  intros Hneg Hpos. eapply holds_bind; [apply holds_open|]. intros fd D' H. unfold gives_fd in H.
  destruct (fd <? 0) eqn:E; zbool; [subst; by apply Hneg|]. destruct H as [Hn ->]. by apply Hpos.
Qed.

(** One step of a constructor that owns at most one descriptor so far. *)
Ltac open_step :=
  lazymatch goal with
  | |- holds _ (sys_open _ ≫= _) _ => apply open_gives; intros; cbv beta
  | |- holds _ (if ?fd <? 0 then _ else _) _ =>
      first [ rewrite (proj2 (Z.ltb_lt fd 0)) by lia | rewrite (proj2 (Z.ltb_ge fd 0)) by lia
            | destruct (fd <? 0) ]
  | |- holds _ (if 0 <=? ?fd then _ else _) _ =>
      first [ rewrite (proj2 (Z.leb_gt 0 fd)) by lia | rewrite (proj2 (Z.leb_le 0 fd)) by lia ]
  | |- holds _ (fail _ _) _ => apply fail_gives; intros
  | |- holds _ (fail_close _ _ _) _ => apply fail_close_gives; [assumption|intros]
  | |- holds _ (sys_close _ ≫= λ _, mret _) _ => apply close_gives; [assumption|]
  | _ => sys_step
  end.

Lemma holds_listen_on D port : holds D (listen_on alloc strerror port) (gives D).
Proof. unfold listen_on. repeat open_step; done. Qed.

Lemma holds_local_port D fd : holds D (local_port fd) (same D).
Proof. unfold local_port. repeat sys_step. done. Qed.

Lemma holds_accept D fd : holds D (accept_nonblocking alloc strerror fd) (gives_accept D).
Proof. unfold accept_nonblocking. repeat open_step; done. Qed.

Lemma holds_try_addresses D host port n : holds D (try_addresses alloc host port n) (gives_fd D).
Proof.
  induction n as [|n IH]; cbn [try_addresses]; [by apply holds_ret|].
  apply open_gives; intros fd Hfd; cbv beta; [by rewrite (proj2 (Z.ltb_lt fd 0)) by lia|].
  intros Hn. rewrite (proj2 (Z.ltb_ge fd 0)) by lia. sys_step. destruct (a =? 0).
  - apply holds_ret. unfold gives_fd. by rewrite (proj2 (Z.ltb_ge fd 0)) by lia.
  - eapply holds_bind; [by apply holds_close_last|]. by intros [] D' ->.
Qed.

Lemma holds_connect_to D host port : holds D (connect_to alloc strerror gai_strerror host port) (gives D).
Proof.
  unfold connect_to. sys_step. destruct a as [n|rc]; [|by apply holds_ret].
  eapply holds_bind; [apply holds_try_addresses|]. intros fd D' H. unfold gives_fd in H.
  destruct (fd <? 0) eqn:E; [subst; by apply fail_gives|]. destruct H as [Hn ->].
  repeat open_step; done.
Qed.

Lemma holds_bind_can D ifname : holds D (bind_can alloc strerror ifname) (gives D).
Proof. unfold bind_can. repeat open_step; done. Qed.

(** A constructor that goes on with the descriptor another one opened. *)
Lemma gives_bind {A} D (m : Sys (list ascii + Z)) (k : list ascii + Z → Sys A) Q :
  holds D m (gives D) → (∀ e, holds D (k (inl e)) Q) →
  (∀ fd, fd ∉ D → holds (D ∪ {[fd]}) (k (inr fd)) Q) → holds D (m ≫= k) Q.
Proof.
  intros Hm He Hk. eapply holds_bind; [exact Hm|]. intros [e|fd] D' H; simpl in H; [by subst|].
  destruct H as [Hn ->]. by apply Hk.
Qed.

Lemma holds_stream_connect D host port : holds D (stream_connect alloc strerror gai_strerror host port) (gives D).
Proof.
  unfold stream_connect. apply gives_bind; [apply holds_connect_to|intros; by apply holds_ret|].
  intros fd Hn. repeat open_step; done.
Qed.

Lemma holds_save_csv D path header s : holds D (save_csv alloc path header s) (same D).
Proof. unfold save_csv, write_csv. destruct path; repeat open_step; done. Qed.

Lemma holds_CanSource_open D ifname errs : holds D (CanSource_open alloc strerror ifname errs) (gives D).
Proof.
  unfold CanSource_open. apply gives_bind; [apply holds_bind_can|intros; by apply holds_ret|].
  intros fd Hn. repeat open_step; done.
Qed.

Lemma holds_SyntheticSource_open D ids period fpt :
  holds D (SyntheticSource_open alloc strerror ids period fpt) (gives D).
Proof. unfold SyntheticSource_open. repeat open_step; done. Qed.

(** The end of the two listeners' constructors. *)
Lemma holds_listener D port :
  holds D (Server_create alloc strerror port) (gives_listener D).
Proof.
  unfold Server_create. apply gives_bind; [apply holds_listen_on|intros; by apply holds_ret|].
  intros lfd Hl. apply open_gives; intros sfd Hs; cbv beta.
  - rewrite (proj2 (Z.ltb_lt sfd 0)) by lia. by apply fail_close_gives.
  - intros Hn. rewrite (proj2 (Z.ltb_ge sfd 0)) by lia.
    eapply holds_bind; [apply holds_local_port|]. intros bound D' ->. apply holds_ret. simpl.
    clear alloc_new. set_solver.
Qed.

Lemma holds_Egress_create D port mf : holds D (Egress_create alloc strerror port mf) (gives_listener D).
Proof.
  unfold Egress_create. case_match; [by apply holds_ret|]. apply holds_listener.
Qed.

Lemma holds_stop_event D : holds D (stop_event alloc strerror) (gives D).
Proof. unfold stop_event. repeat open_step; done. Qed.

Lemma holds_FanOut_create D n k : holds D (FanOut_create alloc strerror n k) (gives D).
Proof. unfold FanOut_create. repeat case_match; try (by apply holds_ret). apply holds_stop_event. Qed.

Lemma holds_RingIngest_create D n : holds D (RingIngest_create alloc strerror n) (gives D).
Proof. unfold RingIngest_create. case_match; [by apply holds_ret|]. apply holds_stop_event. Qed.

Lemma holds_lock_memory D : holds D (lock_memory strerror) (same D).
Proof. unfold lock_memory. repeat sys_step; done. Qed.

Lemma holds_close_listener D l :
  l_listen_fd l ∉ D → l_stop_fd l ∉ D → l_listen_fd l ≠ l_stop_fd l →
  holds (D ∪ {[l_listen_fd l; l_stop_fd l]}) (close_listener l) (same D).
Proof.
  intros H1 H2 H3. unfold close_listener. eapply holds_bind; [apply holds_close; set_solver|].
  intros [] D' ->. eapply holds_conseq; [apply holds_close; set_solver|].
  intros [] D' ->. unfold same. clear alloc_new. set_solver.
Qed.
End Specs.

(** ** What the log gains *)

(** Whatever the kernel answers, [m] only adds to the log, and [P] holds of its result and
    of what it adds. *)
Definition logs {A} (m : Sys A) (P : A → list Note → Prop) : Prop :=
  ∀ s, ∃ l, os_log (m s).2 = os_log s ++ l ∧ P (m s).1 l.

Lemma logs_ret {A} (a : A) (P : A → list Note → Prop) : P a [] → logs (mret a) P.
Proof. intros H s. exists []. by rewrite app_nil_r. Qed.

Lemma logs_bind {A B} (m : Sys A) (k : A → Sys B) P R :
  logs m P → (∀ a l, P a l → logs (k a) (λ b l', R b (l ++ l'))) → logs (m ≫= k) R.
Proof.
  intros Hm Hk s. destruct (Hm s) as (l & E & H). unfold mbind, sys_bind. destruct (m s) as [a s1]. simpl in *.
  destruct (Hk a l H s1) as (l' & E' & H'). exists (l ++ l'). by rewrite E', E, app_assoc.
Qed.

Lemma logs_conseq {A} (m : Sys A) (P Q : A → list Note → Prop) : logs m P → (∀ a l, P a l → Q a l) → logs m Q.
Proof. intros Hm H s. destruct (Hm s) as (l & E & HP). exists l. auto. Qed.

(** A call that adds nothing. *)
Definition quiet {A} (a : A) (l : list Note) : Prop := l = [].

Lemma logs_answer : logs answer quiet.
Proof. intros s. exists []. unfold answer. destruct (os_answers s); simpl; by rewrite app_nil_r. Qed.

Lemma logs_set_errno e : logs (set_errno e) quiet.
Proof. intros s. exists []. simpl. by rewrite app_nil_r. Qed.

Lemma logs_get_errno : logs get_errno quiet.
Proof. intros s. exists []. simpl. by rewrite app_nil_r. Qed.

Lemma logs_get_open : logs get_open quiet.
Proof. intros s. exists []. simpl. by rewrite app_nil_r. Qed.

Lemma logs_add_open fd : logs (add_open fd) quiet.
Proof. intros s. exists []. simpl. by rewrite app_nil_r. Qed.

Lemma logs_close fd : logs (sys_close fd) quiet.
Proof. intros s. exists []. unfold sys_close. simpl. case_decide; simpl; by rewrite app_nil_r. Qed.

Lemma logs_note x : logs (note x) (λ _ l, l = [x]).
Proof. intros s. by exists [x]. Qed.

Create HintDb logs.
#[export] Hint Resolve logs_answer logs_set_errno logs_get_errno logs_get_open logs_add_open logs_close logs_note : logs.

(** The next call, by what it logs. *)
Ltac log_step :=
  lazymatch goal with
  | |- logs (mret _) _ => apply logs_ret
  | |- logs (_ ≫= _) _ =>
      eapply logs_bind; [solve [eauto with logs]|]; cbv beta;
      let a := fresh "a" in let l := fresh "l" in let H := fresh "H" in
      intros a l H; first [red in H; subst l | simpl in H]; cbn [app]
  | |- logs (if ?b then _ else _) _ => destruct b eqn:?
  | |- logs (match ?x with _ => _ end) _ => destruct x
  end.

Lemma logs_call : logs sys_call quiet.
Proof. unfold sys_call. repeat log_step; done. Qed.
#[export] Hint Resolve logs_call : logs.

Lemma logs_bind_to fd e : logs (sys_bind_to fd e) (λ rc l, l = if rc <? 0 then [] else [Bound fd e]).
Proof. unfold sys_bind_to. repeat log_step; subst; cbn [app]; by rewrite ?Heqb. Qed.

Lemma logs_connect fd e : logs (sys_connect fd e) (λ rc l, l = if rc =? 0 then [Bound fd e] else []).
Proof. unfold sys_connect. repeat log_step; subst; cbn [app]; by rewrite ?Heqb. Qed.

Lemma logs_vector n size :
  logs (sys_vector n size) (λ ok l, if ok : bool then n <= max_size size ∧ l = [] else n > max_size size ∨ NoMemory ∈ l).
Proof.
  unfold sys_vector. destruct (Z.gtb_spec n (max_size size)); [apply logs_ret; left; lia|].
  repeat log_step; [done|]. subst. right. set_solver.
Qed.

Lemma logs_thread : logs sys_thread (λ ok l, if ok : bool then l = [] else NoThread ∈ l).
Proof. unfold sys_thread. repeat log_step; [done|]. subst. set_solver. Qed.
#[export] Hint Resolve logs_bind_to logs_connect logs_vector logs_thread : logs.

(** A result that carries a descriptor, with what was logged of it; after a failure anything
    may have been. *)
Definition logs_fd (notes : Z → list Note) (r : list ascii + Z) (l : list Note) : Prop :=
  match r with inl _ => True | inr fd => l = notes fd end.

Section Logs.
Context (alloc : gset Z → Z) (strerror gai_strerror : Z → list ascii).

Lemma logs_open : logs (sys_open alloc) quiet.
Proof. unfold sys_open. repeat log_step; done. Qed.

Lemma logs_message what : logs (message strerror what) quiet.
Proof. unfold message. repeat log_step; done. Qed.
Hint Resolve logs_open logs_message : logs.

Lemma logs_fail {A} what : logs (fail strerror what : Sys (list ascii + A)) (λ r l, l = [] ∧ ∃ e, r = inl e).
Proof. unfold fail. repeat log_step; eauto. Qed.

Lemma logs_fail_close {A} fd what :
  logs (fail_close strerror fd what : Sys (list ascii + A)) (λ r l, l = [] ∧ ∃ e, r = inl e).
Proof. unfold fail_close. repeat log_step; eauto. Qed.

Lemma logs_nodelay fd : logs (set_nodelay strerror fd) quiet.
Proof. unfold set_nodelay. repeat log_step; done. Qed.

Lemma logs_nonblocking fd : logs (set_nonblocking strerror fd) quiet.
Proof.
  unfold set_nonblocking. log_step.
  eapply (logs_bind _ _ quiet); [destruct (a <? 0); [by apply logs_ret|apply logs_call]|].
  intros rc l ->. repeat log_step; done.
Qed.
Hint Resolve logs_nodelay logs_nonblocking : logs.

(** A step of a constructor, its failures included. *)
Ltac fd_step :=
  lazymatch goal with
  | |- logs (fail _ _) _ => eapply logs_conseq; [apply logs_fail|]; intros ? ? (-> & ? & ->)
  | |- logs (fail_close _ _ _) _ => eapply logs_conseq; [apply logs_fail_close|]; intros ? ? (-> & ? & ->)
  | _ => log_step
  end.

Lemma logs_listen_on port : logs (listen_on alloc strerror port) (logs_fd (λ fd, [Bound fd (Port port)])).
Proof. unfold listen_on. repeat fd_step; try done. simpl. repeat case_match; by simplify_eq. Qed.

Lemma logs_bind_can ifname : logs (bind_can alloc strerror ifname) (logs_fd (λ fd, [Bound fd (Iface ifname)])).
Proof. unfold bind_can. repeat fd_step; try done. simpl. repeat case_match; by simplify_eq. Qed.

Lemma logs_CanSource_open ifname errs :
  logs (CanSource_open alloc strerror ifname errs) (logs_fd (λ fd, [Bound fd (Iface ifname)])).
Proof.
  unfold CanSource_open. eapply logs_bind; [apply logs_bind_can|]. intros [e|fd] l Hl; [by apply logs_ret|].
  simpl in Hl. subst l. repeat fd_step; done.
Qed.

Lemma logs_SyntheticSource_open ids period fpt :
  logs (SyntheticSource_open alloc strerror ids period fpt) (logs_fd (λ _, [])).
Proof. unfold SyntheticSource_open. repeat fd_step; done. Qed.

Lemma logs_local_port fd : logs (local_port fd) quiet.
Proof. unfold local_port. repeat log_step. done. Qed.
Hint Resolve logs_local_port : logs.

Lemma logs_listener port :
  logs (Server_create alloc strerror port)
    (λ r l, match r with inl _ => True | inr x => l = [Bound (l_listen_fd x) (Port port)] end).
Proof.
  unfold Server_create. eapply logs_bind; [apply logs_listen_on|]. intros [e|fd] l Hl; [by apply logs_ret|].
  simpl in Hl. subst l. repeat fd_step; done.
Qed.

Lemma logs_listener_only port :
  logs (Server_create alloc strerror port) (λ _ l, Forall (λ x, ∃ fd, x = Bound fd (Port port)) l).
Proof.
  unfold Server_create. eapply (logs_bind _ _ (λ _ l, Forall (λ x, ∃ fd, x = Bound fd (Port port)) l)).
  - unfold listen_on. repeat fd_step; subst; try case_match; rewrite ?app_nil_r; cbn [app]; repeat constructor; eauto.
  - intros [e|fd] l Hl; repeat fd_step; by rewrite ?app_nil_r.
Qed.

Lemma logs_save_csv path header x : logs (save_csv alloc path header x) quiet.
Proof. unfold save_csv, write_csv. destruct path; repeat log_step; done. Qed.

Lemma logs_Egress_create port mf :
  logs (Egress_create alloc strerror port mf)
    (λ r l, match r with
            | inl _ => True
            | inr x => l = [Bound (l_listen_fd x) (Port port)] ∧ mf ≠ 0 ∧ mf <= kMaxBatch
            end).
Proof.
  unfold Egress_create. destruct (_ || _) eqn:E; [by apply logs_ret|]. apply orb_false_iff in E as [E1 E2]. zbool.
  eapply logs_conseq; [apply logs_listener|]. intros [e|x] l; [done|]. intros ->. split_and!; [done|done|lia].
Qed.

Lemma logs_accept fd : logs (accept_nonblocking alloc strerror fd) quiet.
Proof. unfold accept_nonblocking. repeat log_step; done. Qed.

Lemma logs_stop_event : logs (stop_event alloc strerror) quiet.
Proof. unfold stop_event. repeat fd_step; done. Qed.

Lemma logs_lock_memory : logs (lock_memory strerror) quiet.
Proof. unfold lock_memory. repeat log_step; done. Qed.

(** A connection is logged as one to the host and port asked for. *)
Lemma logs_try_addresses host port n :
  logs (try_addresses alloc host port n) (λ fd l, l = if fd <? 0 then [] else [Bound fd (Peer host port)]).
Proof.
  induction n as [|n IH]; cbn [try_addresses]; [by apply logs_ret|].
  log_step. log_step; [done|]. eapply logs_bind; [apply logs_connect|]. intros rc l ->.
  destruct (rc =? 0); cbn [app]; [apply logs_ret; by rewrite Heqb|]. log_step. done.
Qed.

Lemma logs_stream_connect host port :
  logs (stream_connect alloc strerror gai_strerror host port)
    (λ r l, Forall (λ x, ∃ fd, x = Bound fd (Peer host port)) l ∧
            match r with inl _ => True | inr fd => Bound fd (Peer host port) ∈ l end).
Proof.
  unfold stream_connect, connect_to. eapply (logs_bind _ _ (λ r l,
    Forall (λ x, ∃ fd, x = Bound fd (Peer host port)) l ∧
    match r with inl _ => True | inr fd => Bound fd (Peer host port) ∈ l end)).
  - log_step. destruct a as [n|rc]; [|by apply logs_ret]. eapply logs_bind; [apply logs_try_addresses|].
    intros fd l ->. destruct (fd <? 0).
    + eapply logs_conseq; [apply logs_fail|]. by intros ? ? (-> & e & ->).
    + repeat fd_step; cbn [app]; (split; [repeat constructor; eauto|]); [done|set_solver].
  - intros [e|fd] l Hl; [by apply logs_ret; rewrite app_nil_r|].
    repeat fd_step; rewrite app_nil_r; [by destruct Hl|done].
Qed.
End Logs.

(** ** A kernel to run against *)

(** A descriptor above all open ones. *)
Definition next_fd (X : gset Z) : Z := Z.of_nat (fresh (set_map Z.to_nat X : gset nat)).

Lemma next_fd_new X : next_fd X ∉ X ∧ 0 <= next_fd X.
Proof.
  unfold next_fd. split; [|lia]. intros Hin. apply (is_fresh (set_map Z.to_nat X : gset nat)).
  apply elem_of_map. eexists. split; [|exact Hin]. by rewrite Nat2Z.id.
Qed.
