(* ===== verification/Shutdown.v ===== *)
(** * Shutdown: the threads end when they are told to (Egress::stop, FanOut::stop,
      RingIngest::stop in src/src/egress.cpp, fanout.cpp, ring_ingest.cpp)

    [stop] makes the stop descriptor readable for good, an egress also closes its feed, and
    the caller joins the thread. With the producers quiet, the egress thread gets to its
    return in a bounded number of turns, whatever its client does; a client that stays
    connected first receives everything its feed still holds. *)

From S2P Require Import Prelude Frame Wire BoundedQueue BroadcastRing GapTracker Samples Feed Egress EgressStream Sources Ingest.

(** ** What a feed promises to a thread that is being stopped *)

Section Quiet.
Context {F E : Type} `{!ConsumerFeed F E, !FeedSpec F E}.

(** Nothing is published during the call. *)
Definition quiet (e : E) : Prop :=
  ∀ f log pos, feed_at f log pos → feed_env_ok e f log ∧ feed_added e f = [].
End Quiet.

(** Closing is final. [feed_rest] is what the feed still holds for its consumer: without
    publication a call hands over the front of it, and one that delivers nothing, with
    room, has found it empty and the feed at the end of its log. *)
Class FeedCloses (F E : Type) `{!ConsumerFeed F E, !FeedSpec F E} := {
  feed_close_closed (f : F) : feed_closed (feed_close f) = true;
  feed_pop_closed n (e : E) (f : F) : feed_closed f = true → feed_closed (feed_pop n e f).2 = true;
  feed_pop_empty n (e : E) (f : F) log pos :
    feed_at f log pos → quiet e → (0 < n)%nat → (feed_pop n e f).1 = [] →
    feed_at (feed_pop n e f).2 log (Z.of_nat (length log));
  feed_rest : F → list Frame → list Frame;
  feed_rest_close (f : F) log : feed_rest (feed_close f) log = feed_rest f log;
  feed_rest_pop n (e : E) (f : F) log pos :
    feed_at f log pos → quiet e → feed_rest f log = (feed_pop n e f).1 ++ feed_rest (feed_pop n e f).2 log;
  feed_rest_end n (e : E) (f : F) log pos :
    feed_at f log pos → quiet e → (0 < n)%nat → (feed_pop n e f).1 = [] → feed_rest f log = []
}.

Section Stop.
Context {F E : Type} `{!ConsumerFeed F E, !FeedSpec F E, !FeedCloses F E}.

(** What the kernel and the other threads do after [stop]: every [poll] on the stop
    descriptor that does not fail reports it, the signals that interrupt calls come to an
    end, a write is eventually answered, and nothing is published any more. *)
Record stopping (env : IterEnv E) : Prop := mkStopping {
  st_wait : Forall (λ a, 0 <= w_rc a → 0 < w_rc a ∧ w_stop a = true) (i_wait env);
  st_heard : Exists (λ a, 0 <= w_rc a ∨ w_eintr a = false) (i_wait env);
  st_flush : ∀ s, is_Some (flush_pending (i_flush env) s);
  st_flush_left : ∀ s, is_Some (flush_pending (i_flush_left env) s);
  st_pop : quiet (i_pop env);
  st_linger : Forall (λ t, quiet t.2) (i_linger env);
  st_clocks : fits 64 (i_gap_now env) ∧ fits 64 (i_echo_now env)
}.

(** [Egress::stop] of a thread that was started: the feed is closed, the thread runs on
    and is joined; [None] while it has not returned. *)
Definition egress_stop (started : bool) (envs : list (IterEnv E)) (s : Egress) (f : F)
  : option (Egress * F * list NetEvent) :=
  if started then
    match run_loop envs s (feed_close f) with
    | Some (Return, s, f, ev) => Some (s, f, ev)
    | _ => None
    end
  else Some (s, f, []).

(** ** Quiet calls *)

Lemma quiet_pops (calls : list (nat * E)) f log pos :
  Forall (λ c, quiet c.2) calls → feed_at f log pos →
  pops_ok calls f log ∧ pops_added calls f = [].
Proof.
  revert f pos. induction calls as [|[n e] calls IH]; intros f pos Hq Hf; [done|].
  inversion_clear Hq as [|? ? Hq1 Hq2]. simpl in Hq1. destruct (Hq1 f log pos Hf) as [Hok Ha].
  destruct (feed_pop_spec n e f log pos Hf Hok) as (pos' & H1 & _). rewrite Ha, app_nil_r in H1.
  destruct (IH _ _ Hq2 H1) as [H2 H3]. simpl. by rewrite Ha, H3, app_nil_r.
Qed.

Lemma linger_quiet deadline ticks maxf batch f :
  Forall (λ t, quiet t.2) ticks → Forall (λ c, quiet c.2) (linger_calls deadline ticks maxf batch f).
Proof.
  revert batch f. induction ticks as [|[now e] ticks IH]; intros batch f Hq; cbn [linger_calls].
  { by case_match. }
  inversion_clear Hq as [|? ? Hq1 Hq2]. do 2 (case_match; [constructor|]).
  constructor; [done|]. destruct (feed_pop _ e f) as [[|x more] f1]; [constructor|]. by apply IH.
Qed.

Lemma serve_quiet env t f : stopping env → Forall (λ c, quiet c.2) (serve_calls env t f).
Proof.
  intros Hs. unfold serve_calls. constructor; [apply Hs|].
  destruct (feed_pop _ _ f) as [[|x batch] f1]; [constructor|]. case_match; [constructor|].
  apply linger_quiet, Hs.
Qed.

Lemma pops_closed (calls : list (nat * E)) (f : F) : feed_closed f = true → feed_closed (pops calls f).2 = true.
Proof.
  revert f. induction calls as [|[n e] calls IH]; intros f Hc; [done|]. rewrite pops_cons. simpl.
  by apply IH, feed_pop_closed.
Qed.

(** What one turn pops: nothing is left, or the position moves. *)
Lemma popped_stop env t f log pos :
  stopping env → 1 <= max_frames t → feed_at f log pos → feed_closed f = true →
  feed_closed (popped_feed env t f) = true ∧
  (popped env t f = [] ∧ feed_at (popped_feed env t f) log (Z.of_nat (length log)) ∨
   popped env t f ≠ [] ∧ ∃ pos', feed_at (popped_feed env t f) log pos' ∧ pos < pos').
Proof.
  intros Hs Ht Hf Hc. split; [by apply pops_closed|].
  destruct (quiet_pops (serve_calls env t f) f log pos (serve_quiet env t f Hs) Hf) as [Hok Ha].
  destruct (pops_deliver _ f log pos Hf Hok) as (pos' & H1 & H2). rewrite Ha, app_nil_r in H1, H2.
  unfold popped, popped_feed in *. destruct (concat _) as [|x out] eqn:Ex.
  - left. split; [done|]. clear H1 H2. unfold serve_calls in *. rewrite pops_cons in Ex |- *.
    simpl in Ex |- *.
    destruct (app_eq_nil _ _ Ex) as [E0 _].
    pose proof (feed_pop_empty (Z.to_nat (max_frames t)) (i_pop env) f log pos Hf (st_pop _ Hs)
                  ltac:(lia) E0) as Hend.
    destruct (feed_pop (Z.to_nat (max_frames t)) (i_pop env) f) as [out f1]. simpl in *. by subst out.
  - right. split; [done|]. exists pos'. split; [done|]. destruct H2 as (H3 & _ & H4).
    apply delivers_pos in H4. lia.
Qed.

(** A thread without a client hears the stop. *)
Lemma wait_stopped env s :
  stopping env → client_fd_ s < 0 → wait_for_client (i_wait env) s = Some (false, s, []).
Proof.
  intros Hs Hc. pose proof (st_wait _ Hs) as Hw. pose proof (st_heard _ Hs) as He.
  induction He as [a l Ha|a l He IH]; inversion_clear Hw as [|? ? Hw1 Hw2];
    cbn [wait_for_client]; rewrite (proj2 (Z.ltb_lt _ _) Hc); cbn [negb].
  - destruct (Z.ltb_spec (w_rc a) 0) as [Hn|Hn].
    + destruct Ha as [Ha|Ha]; [lia|]. by rewrite Ha.
    + destruct (Hw1 Hn) as [H1 ->]. by rewrite Z.gtb_ltb, (proj2 (Z.ltb_lt _ _) H1).
  - destruct (Z.ltb_spec (w_rc a) 0) as [Hn|Hn].
    + destruct (w_eintr a); [|done]. by apply IH.
    + destruct (Hw1 Hn) as [H1 ->]. by rewrite Z.gtb_ltb, (proj2 (Z.ltb_lt _ _) H1).
Qed.

Lemma flush_tuning answers s ok s' bytes :
  flush_pending answers s = Some (ok, s', bytes) → tuning_ s' = tuning_ s ∧ client_fd_ s' = client_fd_ s.
Proof.
  revert s ok s' bytes. induction answers as [|a answers IH]; intros s ok s' bytes; cbn [flush_pending].
  all: case_match; [by intros [= <- <- <-]|]. 1: done.
  case_match.
  - destruct (flush_pending answers _) as [[[ok1 s1] more]|] eqn:Ef; [|done]. intros [= <- <- <-].
    apply IH in Ef. by case_match.
  - case_match; [|intros [= <- <- <-]; done]. destruct (sa_errno a).
    + do 2 (case_match; [by intros [= <- <- <-]|]). by intros Ef%IH.
    + apply IH.
    + intros [= <- <- <-]. done.
Qed.

Lemma drop_tuning s : tuning_ (drop_client s).1 = tuning_ s ∧ client_fd_ (drop_client s).1 < 0.
Proof. unfold drop_client. case_match; zbool; simpl; (split; [done|lia]). Qed.

(** Flushing keeps the client, or drops it. *)
Lemma flush_or_drop_tuning answers s :
  is_Some (flush_pending answers s) →
  ∃ ok s' ev, flush_or_drop answers s = Some (ok, s', ev) ∧ tuning_ s' = tuning_ s ∧
    (if ok : bool then client_fd_ s' = client_fd_ s else client_fd_ s' < 0).
Proof.
  intros [[[ok s1] bytes] Ef]. unfold flush_or_drop. rewrite Ef. apply flush_tuning in Ef as [E1 E2].
  destruct ok; [by eexists _, _, _|]. pose proof (drop_tuning s1) as [D1 D2].
  destruct (drop_client s1) as [s2 ev]. simpl in *. eexists _, _, _. split; [done|]. split; [congruence|done].
Qed.

Lemma prepare_tuning (env : IterEnv E) batch s :
  let s1 := maybe_send_echo (i_echo_now env) (note_gap batch (i_gap_now env) s) in
  let s2 := encode_batch (outgoing_ s1) s1 in
  tuning_ s2 = tuning_ s.
Proof.
  simpl. unfold maybe_send_echo, note_gap. destruct batch; repeat case_match; done.
Qed.

Lemma send_batch_tuning (env : IterEnv E) batch s :
  stopping env → ∃ s' ev, send_batch env batch s = Some (s', ev) ∧ tuning_ s' = tuning_ s.
Proof.
  intros Hs. unfold send_batch. pose proof (prepare_tuning env batch s) as Ht. cbv zeta in Ht |- *.
  set (s2 := encode_batch _ _) in *.
  destruct (flush_or_drop_tuning (i_flush env) s2 (st_flush _ Hs s2)) as (ok & s' & ev & -> & Et & _).
  destruct ok; eexists _, _; (split; [reflexivity|]); simpl; congruence.
Qed.

(** What a turn of a stopped thread ends with. *)
Definition turn_result (log : list Frame) (pos : Z) (s : Egress)
    (r : option (RunStatus * Egress * F * list NetEvent)) : Prop :=
  ∃ st s' f' ev, r = Some (st, s', f', ev) ∧ tuning_ s' = tuning_ s ∧
    match st with
    | Return => 0 <= client_fd_ s' → feed_at f' log (Z.of_nat (length log))
    | Continue => feed_closed f' = true ∧ ∃ pos', feed_at f' log pos' ∧
                  (client_fd_ s' < 0 ∧ pos <= pos' ∨ pos < pos')
    end.

Lemma serve_stop env s f log pos :
  stopping env → 1 <= max_frames (tuning_ s) → feed_at f log pos → feed_closed f = true →
  turn_result log pos s (serve env s f).
Proof.
  intros Hs Ht Hf Hc. destruct (client_gone (i_gone_rc env) (i_gone_hup env) s) eqn:Hg.
  { unfold serve. rewrite Hg. pose proof (drop_tuning s) as [D1 D2].
    destruct (drop_client s) as [s1 ev]. simpl in *. eexists _, _, _, _. split; [reflexivity|].
    split; [done|]. split; [done|]. exists pos. split; [done|left; split; [done|lia]]. }
  destruct (serve_eq env s f Hg) as (s2 & Hside & ->).
  destruct (popped_stop env (tuning_ s) f log pos Hs Ht Hf Hc) as [Hc' [[-> He]|[Hne (pos' & Hf' & Hlt)]]].
  - rewrite Hc'. eexists _, _, _, _. split; [reflexivity|]. split; [apply Hside|done].
  - destruct (popped env (tuning_ s) f) as [|x out]; [done|].
    destruct (send_batch_tuning env (x :: out) s2 Hs) as (s' & ev & -> & Et).
    eexists _, _, _, _. split; [reflexivity|]. split; [rewrite Et; apply Hside|].
    split; [done|]. exists pos'. auto.
Qed.

Lemma run_iter_stop env s f log pos :
  stopping env → 1 <= max_frames (tuning_ s) → feed_at f log pos → feed_closed f = true →
  turn_result log pos s (run_iter env s f).
Proof.
  intros Hs Ht Hf Hc. unfold run_iter. destruct (Z.ltb_spec (client_fd_ s) 0) as [Hcl|Hcl].
  { rewrite wait_stopped by done. eexists _, _, _, _. split; [reflexivity|]. split; [done|]. lia. }
  assert (wait_for_client (i_wait env) s = Some (true, s, [])) as ->.
  { destruct (i_wait env); cbn [wait_for_client]; by rewrite (proj2 (Z.ltb_ge _ _) Hcl). }
  assert (∀ s1 ev0, tuning_ s1 = tuning_ s →
    turn_result log pos s match serve env s1 f with None => None
                          | Some (st, s', f', ev) => Some (st, s', f', ev0 ++ ev) end) as Hserve.
  { intros s1 ev0 E1. destruct (serve_stop env s1 f log pos Hs ltac:(by rewrite E1) Hf Hc)
      as (st & s' & f' & ev & -> & Et & Hr).
    eexists _, _, _, _. split; [reflexivity|]. split; [congruence|done]. }
  destruct (pending_ s); [by apply Hserve|].
  destruct (flush_or_drop_tuning (i_flush_left env) s (st_flush_left _ Hs s)) as (ok & s1 & ev & -> & Et & Hok).
  destruct ok; simpl.
  - by apply (Hserve s1 ev).
  - eexists _, _, _, _. split; [reflexivity|]. split; [done|]. split; [done|].
    exists pos. split; [done|left; split; [done|lia]].
Qed.

Lemma run_loop_stop envs s f log pos :
  Forall stopping envs → 1 <= max_frames (tuning_ s) → feed_at f log pos → feed_closed f = true →
  Z.of_nat (length log) - pos + 2 <= Z.of_nat (length envs) + (if client_fd_ s <? 0 then 1 else 0) →
  (0 < length envs)%nat →
  ∃ s' f' ev, run_loop envs s f = Some (Return, s', f', ev) ∧
    (0 <= client_fd_ s' → feed_at f' log (Z.of_nat (length log))).
Proof.
  revert s f pos. induction envs as [|env envs IH]; intros s f pos Hs Ht Hf Hc Hlen Hpos; [simpl in Hpos; lia|].
  inversion_clear Hs as [|? ? Hs1 Hs2]. cbn [run_loop].
  destruct (feed_at_good _ _ _ Hf) as [_ Hp].
  destruct (run_iter_stop env s f log pos Hs1 Ht Hf Hc) as (st & s1 & f1 & ev & Er & Et & Hr).
  rewrite Er. destruct st; [|by eexists _, _, _].
  destruct Hr as (Hc1 & pos1 & Hf1 & Hprog). destruct (feed_at_good _ _ _ Hf1) as [_ Hp1].
  assert (¬ client_fd_ s < 0) as Hcl.
  { intros Hcl. unfold run_iter in Er. rewrite wait_stopped in Er by done. done. }
  rewrite (proj2 (Z.ltb_ge (client_fd_ s) 0)) in Hlen by lia. simpl in Hlen.
  destruct (IH s1 f1 pos1 Hs2 ltac:(by rewrite Et) Hf1 Hc1) as (s2 & f2 & ev2 & -> & H2).
  - destruct Hprog as [[H1 H2]|H1].
    + rewrite (proj2 (Z.ltb_lt _ _) H1). lia.
    + case_match; lia.
  - lia.
  - by eexists _, _, _.
Qed.

(** ** What a client that stays gets *)

Lemma quiet_rest (calls : list (nat * E)) f log pos :
  Forall (λ c, quiet c.2) calls → feed_at f log pos →
  feed_rest f log = concat (pops calls f).1 ++ feed_rest (pops calls f).2 log.
Proof.
  revert f pos. induction calls as [|[n e] calls IH]; intros f pos Hq Hf; [done|].
  inversion_clear Hq as [|? ? Hq1 Hq2]. simpl in Hq1. destruct (Hq1 f log pos Hf) as [Hok Ha].
  destruct (feed_pop_spec n e f log pos Hf Hok) as (pos' & H1 & _). rewrite Ha, app_nil_r in H1.
  rewrite pops_cons. cbn [fst snd concat]. rewrite <- app_assoc, <- (IH _ _ Hq2 H1).
  by apply (feed_rest_pop n e f log pos).
Qed.

(** A turn hands over the front of what the feed holds, all of it when nothing is popped. *)
Lemma popped_rest env t f log pos :
  stopping env → 1 <= max_frames t → feed_at f log pos →
  feed_rest f log = popped env t f ++ feed_rest (popped_feed env t f) log ∧
  (popped env t f = [] → feed_rest f log = []).
Proof.
  intros Hs Ht Hf. split; [by apply (quiet_rest _ _ _ pos); [apply serve_quiet|]|].
  unfold popped, serve_calls. rewrite pops_cons. simpl. intros Ex. destruct (app_eq_nil _ _ Ex) as [E0 _].
  by apply (feed_rest_end (Z.to_nat (max_frames t)) (i_pop env) f log pos Hf (st_pop _ Hs) ltac:(lia)).
Qed.

(** The bytes of events that neither open nor close a connection. *)
Fixpoint written (ev : list NetEvent) : option (list Z) :=
  match ev with
  | [] => Some []
  | NBytes bytes :: ev => match written ev with Some rest => Some (bytes ++ rest) | None => None end
  | _ => None
  end.

Lemma written_app a b x y : written a = Some x → written b = Some y → written (a ++ b) = Some (x ++ y).
Proof.
  revert x. induction a as [|[|bytes|] a IH]; intros x; simpl; try done; [by intros [= <-]|].
  destruct (written a) as [r|]; [|done]. intros [= <-] Hb. by rewrite (IH r eq_refl Hb), app_assoc.
Qed.

(** The socket took what was still unsent, then whole batches: the frames between the two
    states of the feed, in order, with markers and probes among them; nothing is left
    unsent. *)
Definition hands_over (log : list Frame) (s : Egress) (f : F) (s' : Egress) (f' : F) (ev : list NetEvent) : Prop :=
  ∃ bs, written ev = Some (unsent s ++ concat (map batch_bytes bs)) ∧
        feed_rest f log = filter (λ g, is_control g = false) (concat bs) ++ feed_rest f' log ∧
        unsent s' = [].

Lemma hands_over_app log s f s1 f1 s' f' ev ev' :
  hands_over log s f s1 f1 ev → hands_over log s1 f1 s' f' ev' → hands_over log s f s' f' (ev ++ ev').
Proof.
  intros (b1 & W1 & R1 & U1) (b2 & W2 & R2 & U2). exists (b1 ++ b2). rewrite U1 in W2.
  rewrite (written_app _ _ _ _ W1 W2), map_app, !concat_app, filter_app, R1, R2. cbn [app]. by rewrite <- !app_assoc.
Qed.

(** A thread that can be told to write. *)
Record writes (s : Egress) : Prop := {
  wr_tuning : 1 <= max_frames (tuning_ s) <= kMaxBatch;
  wr_pending : pending_wf s;
  wr_bytes : fits 64 (counters_ s bytes_sent_);
  wr_next : fits 64 (next_seq_ s)
}.

Lemma writes_side s s' : send_side s s' → writes s → writes s'.
Proof.
  intros [H1 H2 H3 H4 H5 H6 H7] [W1 W2 W3 W4]. unfold pending_wf in *.
  constructor; unfold pending_wf; rewrite ?H1, ?H3, ?H4, ?H5, ?H7 by done; done.
Qed.

Lemma flush_kept answers s ok s' ev :
  writes s → flush_or_drop answers s = Some (ok, s', ev) → 0 <= client_fd_ s' →
  ok = true ∧ writes s' ∧ written ev = Some (unsent s) ∧ unsent s' = [] ∧ client_fd_ s' = client_fd_ s.
Proof.
  intros [W1 W2 W3 W4] Heq Hc. unfold flush_or_drop in Heq.
  destruct (flush_pending answers s) as [[[ok1 s1] bytes]|] eqn:Ef; [|done].
  destruct (flush_spec _ _ _ _ _ W2 W3 Ef) as [(rest & F1 & F2) F3 F4 F5]. destruct ok1.
  - injection Heq as <- <- <-. destruct (F3 eq_refl) as [P1 P2]. subst rest. rewrite app_nil_r in F1.
    split; [done|]. split.
    { constructor; unfold pending_wf; rewrite ?P1, ?P2, ?(sb_tuning _ _ _ F5), ?(sb_next _ _ _ F5), ?F4; try done.
      apply u64_fits. }
    cbn. rewrite app_nil_r, F1. split; [done|]. split; [|apply F5]. unfold unsent. by rewrite P1, P2.
  - pose proof (drop_tuning s1) as [_ D]. destruct (drop_client s1) as [s2 ev2]. simpl in D.
    injection Heq as <- <- <-. lia.
Qed.

(** What goes into the buffer for a batch: the batch, a marker in front of it, a probe
    behind it. *)
Lemma stage_batch env batch s :
  stopping env → writes s → batch ≠ [] → Forall bus_frame batch →
  Z.of_nat (length batch) <= max_frames (tuning_ s) →
  let s1 := maybe_send_echo (i_echo_now env) (note_gap batch (i_gap_now env) s) in
  let s2 := encode_batch (outgoing_ s1) s1 in
  writes s2 ∧ unsent s2 = batch_bytes (outgoing_ s1) ∧
  filter (λ g, is_control g = false) (outgoing_ s1) = batch.
Proof.
  intros Hs [W1 W2 W3 W4] Hne Hb Hl. destruct (st_clocks _ Hs) as [Hg He].
  destruct (note_gap_fields batch (i_gap_now env) s Hne) as (M1 & M2 & _ & M4 & M5 & M6 & M7 & M8 & M9 & _).
  set (s0 := note_gap batch (i_gap_now env) s) in *.
  destruct (echo_fields (i_echo_now env) s0) as (E1 & E2 & E3 & E4 & E5 & E6 & E7). cbv zeta.
  set (s1 := maybe_send_echo (i_echo_now env) s0) in *.
  assert (filter (λ g, is_control g = false) (outgoing_ s0) = batch ∧ Forall frame_sendable (outgoing_ s0) ∧
          (length (outgoing_ s0) <= S (length batch))%nat) as (G1 & G2 & G3).
  { rewrite M1, filter_app, Forall_app, length_app. split_and!.
    - replace (filter _ (gap_of _ _ _)) with (@nil Frame); [|unfold gap_of; destruct batch; [done|]; case_match; [|done]; by rewrite filter_cons, decide_False].
      cbn [app]. clear -Hb. induction Hb as [|f l [_ Hf] _ IH]; [done|]. rewrite filter_cons, decide_True by done. by rewrite IH.
    - by apply gap_of_sendable.
    - eapply Forall_impl; [exact Hb|]. by intros f [].
    - unfold gap_of. destruct batch; [done|]. case_match; simpl; lia. }
  assert (filter (λ g, is_control g = false) (outgoing_ s1) = batch ∧ Forall frame_sendable (outgoing_ s1) ∧
          (length (outgoing_ s1) <= S (S (length batch)))%nat) as (K1 & K2 & K3).
  { destruct E1 as [->| ->]; [split_and!; try done; lia|]. rewrite filter_app, Forall_app, length_app, G1.
    split_and!; try done; [by rewrite app_nil_r| |simpl; lia].
    constructor; [|constructor]. apply make_echo_sendable; [apply u64_fits|done]. }
  assert (Forall frame_wf (outgoing_ s1)) as Hwf by (eapply Forall_impl; [exact K2|]; apply sendable_wf).
  unfold kMaxBatch in W1.
  destruct (encode_batch_bytes (outgoing_ s1) s1 Hwf) as [B1 B2]; [unfold kMaxCount; lia|].
  split; [|split; [|done]].
  - constructor.
    + simpl. rewrite E4, M5. done.
    + unfold pending_wf. rewrite B2, B1, length_batch_bytes by done. unfold kHeaderSize, kRecordSize. pow_consts. lia.
    + simpl. rewrite E7, M9 by done. done.
    + simpl. rewrite E3, M4. apply u64_fits.
  - unfold unsent. by rewrite B1, B2.
Qed.

Lemma send_batch_kept env batch s s' ev :
  stopping env → writes s → unsent s = [] → batch ≠ [] → Forall bus_frame batch →
  Z.of_nat (length batch) <= max_frames (tuning_ s) →
  send_batch env batch s = Some (s', ev) → 0 <= client_fd_ s' →
  writes s' ∧ unsent s' = [] ∧ client_fd_ s' = client_fd_ s ∧
  ∃ b, written ev = Some (batch_bytes b) ∧ filter (λ g, is_control g = false) b = batch.
Proof.
  intros Hs Hw Hu Hne Hb Hl. unfold send_batch.
  destruct (stage_batch env batch s Hs Hw Hne Hb Hl) as (S1 & S2 & S3).
  assert (∀ x, client_fd_ (maybe_send_echo (i_echo_now env) (note_gap batch (i_gap_now env) x)) = client_fd_ x) as Hc.
  { intros x. destruct (note_gap_fields batch (i_gap_now env) x Hne) as (_ & _ & _ & _ & _ & M6 & _).
    destruct (echo_fields (i_echo_now env) (note_gap batch (i_gap_now env) x)) as (_ & _ & _ & _ & E5 & _).
    by rewrite E5, M6. }
  specialize (Hc s). cbv zeta in S1, S2, S3 |- *.
  set (s1 := maybe_send_echo _ _) in *. set (s2 := encode_batch _ _) in *.
  destruct (flush_or_drop (i_flush env) s2) as [[[ok s3] ev3]|] eqn:Ef; [|done].
  destruct ok; intros [= <- <-] Hcl.
  - destruct (flush_kept _ _ _ _ _ S1 Ef Hcl) as (_ & K1 & K2 & K3 & K4).
    split; [by destruct K1|]. split; [done|]. split; [by simpl; rewrite K4|].
    exists (outgoing_ s1). by rewrite K2, S2.
  - destruct (flush_kept _ _ _ _ _ S1 Ef Hcl) as [? _]. done.
Qed.

Lemma serve_kept env s f log pos st s' f' ev :
  stopping env → writes s → unsent s = [] → feed_at f log pos → feed_closed f = true →
  serve env s f = Some (st, s', f', ev) → 0 <= client_fd_ s' →
  writes s' ∧ client_fd_ s' = client_fd_ s ∧ hands_over log s f s' f' ev ∧
  (st = Return → feed_rest f' log = []).
Proof.
  intros Hs Hw Hu Hf Hc Heq Hcl. pose proof (wr_tuning _ Hw) as Ht.
  destruct (client_gone (i_gone_rc env) (i_gone_hup env) s) eqn:Hg.
  { unfold serve in Heq. rewrite Hg in Heq. pose proof (drop_tuning s) as [_ D].
    destruct (drop_client s) as [s1 ev1]. simpl in D. injection Heq as <- <- <- <-. lia. }
  destruct (serve_eq env s f Hg) as (s2 & Hside & Eq). rewrite Eq in Heq. clear Eq.
  pose proof (writes_side _ _ Hside Hw) as Hw2.
  assert (unsent s2 = []) as Hu2 by (unfold unsent in *; by rewrite (ss_pending _ _ Hside), (ss_offset _ _ Hside)).
  destruct (popped_rest env (tuning_ s) f log pos Hs ltac:(lia) Hf) as [Hr Hr0].
  destruct (quiet_pops (serve_calls env (tuning_ s) f) f log pos (serve_quiet env (tuning_ s) f Hs) Hf) as [Hok Ha].
  destruct (popped_spec env (tuning_ s) f log pos ltac:(lia) Hf Hok) as (pos' & _ & P2 & _ & _ & _ & _ & P6 & _).
  destruct (popped env (tuning_ s) f) as [|x batch] eqn:Ep.
  - injection Heq as <- <- <- <-. split; [done|]. split; [apply Hside|]. cbn [app] in Hr. split.
    + exists []. rewrite Hu. by split_and!.
    + intros _. rewrite <- Hr. by apply Hr0.
  - destruct (send_batch env (x :: batch) s2) as [[s3 ev3]|] eqn:Es; [|done]. injection Heq as <- <- <- <-.
    destruct (send_batch_kept env (x :: batch) s2 s3 ev3 Hs Hw2 Hu2) as (K1 & K2 & K3 & b & K4 & K5); try done.
    { by rewrite (ss_tuning _ _ Hside). }
    split; [done|]. split; [rewrite K3; apply Hside|]. split; [|done].
    exists [b]. cbn [map concat]. by rewrite !app_nil_r, Hu, K5.
Qed.

Lemma run_iter_kept env s f log pos st s' f' ev :
  stopping env → writes s → feed_at f log pos → feed_closed f = true →
  run_iter env s f = Some (st, s', f', ev) → 0 <= client_fd_ s' →
  writes s' ∧ client_fd_ s' = client_fd_ s ∧ hands_over log s f s' f' ev ∧
  (st = Return → feed_rest f' log = []).
Proof.
  intros Hs Hw Hf Hc Heq Hcl. unfold run_iter in Heq. destruct (Z.ltb_spec (client_fd_ s) 0) as [Hn|Hn].
  { rewrite wait_stopped in Heq by done. injection Heq as <- <- <- <-. lia. }
  replace (wait_for_client (i_wait env) s) with (Some (true, s, @nil NetEvent)) in Heq
    by (destruct (i_wait env); cbn [wait_for_client]; by rewrite (proj2 (Z.ltb_ge _ _) Hn)).
  destruct (pending_ s) eqn:Ep.
  - destruct (serve env s f) as [[[[st1 s1] f1] ev1]|] eqn:Es; [|done]. injection Heq as <- <- <- <-.
    eapply (serve_kept env s f log pos); try done. unfold unsent. by rewrite Ep, drop_nil.
  - destruct (flush_or_drop (i_flush_left env) s) as [[[ok s1] ev1]|] eqn:Ef; [|done]. destruct ok.
    + destruct (serve env s1 f) as [[[[st2 s2] f2] ev2]|] eqn:Es; [|done]. injection Heq as <- <- <- <-. cbn [app].
      assert (0 <= client_fd_ s1) as Hc1.
      { unfold flush_or_drop in Ef. destruct (flush_pending _ s) as [[[ok s3] b]|] eqn:Eb; [|done].
        apply flush_tuning in Eb as [_ Eb]. destruct ok; [injection Ef as <- _; lia|]. by destruct (drop_client s3). }
      destruct (flush_kept _ _ _ _ _ Hw Ef Hc1) as (_ & F1 & F2 & F3 & F4).
      destruct (serve_kept env s1 f log pos _ _ _ _ Hs F1 F3 Hf Hc Es Hcl) as (K1 & K2 & K3 & K4).
      split; [done|]. split; [congruence|]. split; [|done]. eapply hands_over_app; [|exact K3].
      exists []. cbn. by rewrite F2, app_nil_r.
    + injection Heq as <- <- <- <-. by destruct (flush_kept _ _ _ _ _ Hw Ef Hcl) as [? _].
Qed.

Lemma run_loop_kept envs s f log pos s' f' ev :
  Forall stopping envs → writes s → feed_at f log pos → feed_closed f = true →
  run_loop envs s f = Some (Return, s', f', ev) → 0 <= client_fd_ s' →
  client_fd_ s' = client_fd_ s ∧ hands_over log s f s' f' ev ∧ feed_rest f' log = [].
Proof.
  revert s f pos ev. induction envs as [|env envs IH]; intros s f pos ev Hs Hw Hf Hc Heq Hcl; [done|].
  inversion_clear Hs as [|? ? Hs1 Hs2]. cbn [run_loop] in Heq.
  destruct (run_iter_stop env s f log pos Hs1 ltac:(apply Hw) Hf Hc) as (st & s1 & f1 & ev1 & Er & _ & Hr).
  rewrite Er in Heq. destruct st.
  - destruct (run_loop envs s1 f1) as [[[[st2 s2] f2] ev2]|] eqn:El; [|done]. injection Heq as -> <- <- <-.
    destruct Hr as (Hc1 & pos1 & Hf1 & _).
    assert (0 <= client_fd_ s1) as Hcl1.
    { destruct (Z.ltb_spec (client_fd_ s1) 0) as [Hn|]; [|done]. destruct envs as [|env' envs]; [done|].
      cbn [run_loop] in El. unfold run_iter in El. inversion_clear Hs2 as [|? ? Hs3 _].
      rewrite wait_stopped in El by done. injection El as <- _ _. done. }
    destruct (run_iter_kept env s f log pos _ _ _ _ Hs1 Hw Hf Hc Er Hcl1) as (K1 & K2 & K3 & _).
    destruct (IH s1 f1 pos1 ev2 Hs2 K1 Hf1 Hc1 El Hcl) as (J1 & J2 & J3).
    split; [congruence|]. split; [|done]. by eapply hands_over_app.
  - injection Heq as <- <- <-.
    destruct (run_iter_kept env s f log pos _ _ _ _ Hs1 Hw Hf Hc Er Hcl) as (K1 & K2 & K3 & K4). auto.
Qed.
End Stop.

(** ** The queue *)

Lemma op_closed (q : QueueFeed.t) op : closed_ q = true → closed_ (apply_op q op) = true.
Proof.
  intros Hc. destruct op as [items|]; [|done]. cbn [apply_op].
  unfold push_batch, push_locked. rewrite Hc. by destruct items.
Qed.

Lemma ops_closed ops (q : QueueFeed.t) : closed_ q = true → closed_ (fold_left apply_op ops q) = true.
Proof. revert q. induction ops as [|op ops IH]; intros q Hc; [done|]. by apply IH, op_closed. Qed.

Lemma queue_pop_closed n e (q : QueueFeed.t) :
  closed_ q = true → closed_ (QueueFeed.pop n e q).2 = true.
Proof.
  intros Hc. unfold QueueFeed.pop.
  pose proof (ops_closed (QueueFeed.before e) q Hc) as Hc1.
  set (q1 := fold_left apply_op (QueueFeed.before e) q) in *. clearbody q1.
  assert (pop_ready q1 = true) as Hr by (unfold pop_ready; by rewrite Hc1, orb_true_r).
  unfold pop_batch. rewrite Hr. destruct (Z.of_nat n =? 0); cbn [orb]; rewrite ?Hr; by apply ops_closed.
Qed.

Lemma ops_empty ops (q : QueueFeed.t) :
  queue_wf q → contents q = [] → QueueFeed.all_accepted ops q = [] →
  contents (fold_left apply_op ops q) = [].
Proof.
  revert q. induction ops as [|op ops IH]; intros q Hwf He Ha; [done|]. simpl in *.
  apply app_eq_nil in Ha as [Ha1 Ha2].
  apply IH; [by apply apply_op_refines| |done].
  destruct (QueueFeed.apply_op_contents op q Hwf) as [d Hd].
  rewrite He, Ha1 in Hd. symmetry in Hd. by apply app_eq_nil in Hd as [_ Hd].
Qed.

Lemma queue_pop_empty n e (q : QueueFeed.t) log pos :
  QueueFeed.holds q log pos → quiet e → (0 < n)%nat → (QueueFeed.pop n e q).1 = [] →
  QueueFeed.holds (QueueFeed.pop n e q).2 log (Z.of_nat (length log)).
Proof.
  intros Hh Hq Hn Ho. destruct (Hq q log pos Hh) as [Hok Ha].
  destruct (QueueFeed.pop_full n e q log pos Hh Hok) as (pos' & _ & Hh' & _).
  assert (QueueFeed.added e q = []) as Ha' by exact Ha.
  rewrite Ha', app_nil_r in Hh'. unfold QueueFeed.added in Ha'.
  rewrite QueueFeed.all_accepted_app in Ha'. apply app_eq_nil in Ha' as [Ha1 Ha2].
  apply QueueFeed.ops_ok_app in Hok as [Hok1 _].
  pose proof (QueueFeed.ops_hold _ _ _ _ Hh Hok1) as (Hwf1 & _).
  assert (contents (QueueFeed.pop n e q).2 = []) as Hc.
  { unfold QueueFeed.pop in *. set (q1 := fold_left apply_op (QueueFeed.before e) q) in *.
    pose proof (QueueFeed.pop_cases n (QueueFeed.during e) q1 Hwf1) as Hp. cbv zeta in Hp.
    destruct (pop_batch (Z.of_nat n) (QueueFeed.during e) q1) as [out q']. simpl in *. subst out.
    destruct Hp as (Hwf' & Ht & Hd & Hcl).
    assert (contents q' = []) as He'.
    { rewrite Hd. destruct (contents _) as [|x l]; [apply drop_nil|]. by destruct n; [lia|]. }
    destruct (_ || pop_ready q1); [|done]. apply ops_empty; [done|done|].
    destruct (QueueFeed.accepted_closed (QueueFeed.during e) q1 q' Hwf1 Hwf' (eq_sym Hcl)) as [<- _]. done. }
  destruct Hh' as (H1 & H2 & H3 & pre & E0 & H4). split; [done|]. split; [done|]. split; [done|].
  exists pre. split; [done|]. rewrite Hc, app_nil_r in E0. subst. lia.
Qed.

Lemma quiet_ops ops (q : QueueFeed.t) :
  queue_wf q → QueueFeed.all_accepted ops q = [] →
  queue_wf (fold_left apply_op ops q) ∧ contents (fold_left apply_op ops q) = contents q.
Proof.
  revert q. induction ops as [|op ops IH]; intros q Hwf Ha; [done|]. simpl in *.
  apply app_eq_nil in Ha as [Ha1 Ha2].
  assert (queue_wf (apply_op q op) ∧ contents (apply_op q op) = contents q) as [H1 <-].
  { split; [by apply apply_op_refines|]. destruct op as [items|]; [|done]. cbn [apply_op QueueFeed.accepted] in *.
    destruct (push_batch_refines items q Hwf) as [_ H].
    destruct (push_batch items q) as [q' d] eqn:Eq. unfold abs_push in H. simpl in *.
    destruct items as [|x items]; [by injection Eq as <- <-|].
    destruct (closed_ q); [|done]. rewrite bool_decide_false in H by done. simpl in H.
    by injection H as _ Hc _ _ _ _ _. }
  by apply IH.
Qed.

(** With the other threads quiet, a pop takes the oldest frames. *)
Lemma queue_pop_quiet n e (q : QueueFeed.t) log pos :
  QueueFeed.holds q log pos → quiet e →
  (QueueFeed.pop n e q).1 = take n (contents q) ∧ contents (QueueFeed.pop n e q).2 = drop n (contents q).
Proof.
  intros Hh Hq. destruct (Hq q log pos Hh) as [Hok Ha].
  assert (QueueFeed.added e q = []) as Ha' by exact Ha. unfold QueueFeed.added in Ha'.
  rewrite QueueFeed.all_accepted_app in Ha'. apply app_eq_nil in Ha' as [Ha1 Ha2]. destruct Hh as (Hwf & _).
  destruct (quiet_ops _ _ Hwf Ha1) as [Hwf1 Hc1]. unfold QueueFeed.pop.
  set (q1 := fold_left apply_op (QueueFeed.before e) q) in *.
  pose proof (QueueFeed.pop_cases n (QueueFeed.during e) q1 Hwf1) as Hp. cbv zeta in Hp.
  destruct (quiet_ops _ _ Hwf1 Ha2) as [Hwf2 Hc2].
  destruct (pop_batch (Z.of_nat n) (QueueFeed.during e) q1) as [out q']. simpl in *.
  rewrite <- Hc1. destruct (_ || pop_ready q1); destruct Hp as (Hwf' & -> & Ec & Ecl); [|by rewrite Ec, Hc2].
  split; [done|]. rewrite <- Ec. apply quiet_ops; [done|].
  destruct (QueueFeed.accepted_closed (QueueFeed.during e) q1 q' Hwf1 Hwf' (eq_sym Ecl)) as [<- _]. done.
Qed.

(** A queue still holds its contents. *)
#[export] Program Instance queue_closes : FeedCloses QueueFeed.t QueueFeed.Env := {
  feed_rest := λ q _, contents q
}.
Next Obligation. done. Qed.
Next Obligation. exact queue_pop_closed. Qed.
Next Obligation. intros n e q log pos. apply queue_pop_empty. Qed.
Next Obligation. done. Qed.
Next Obligation.
  intros n e q log pos Hf Hq.
  change (feed_pop n e q) with (QueueFeed.pop n e q).
  destruct (queue_pop_quiet n e q log pos Hf Hq) as [-> ->]. by rewrite take_drop. Qed.
Next Obligation. intros n e q log pos Hf Hq Hn. destruct (queue_pop_quiet n e q log pos Hf Hq) as [E _].
    change (feed_pop n e q) with (QueueFeed.pop n e q). rewrite E. destruct n; [lia|]. by destruct (contents q). Qed.

(** ** The ring *)

Lemma write_all_closed pos frames r r' : write_all pos frames r = Some r' → ring_closed_ r' = ring_closed_ r.
Proof.
  revert pos r. induction frames as [|f fs IH]; intros pos r; cbn [write_all]; [by intros [= <-]|].
  destruct (write_at pos f r) as [r1|] eqn:Ew; [|done]. intros H%IH. rewrite H.
  unfold write_at in Ew. by case_match; simplify_eq.
Qed.

Lemma rop_closed r op : ring_closed_ r = true → ring_closed_ (RingFeed.apply_rop r op) = true.
Proof.
  intros Hc. destruct op as [frames|]; [|done]. cbn [RingFeed.apply_rop]. unfold publish_batch.
  destruct frames; [done|]. destruct (write_all _ _ _) eqn:Ew; [|done]. apply write_all_closed in Ew.
  by rewrite Ew.
Qed.

Lemma rops_closed ops r : ring_closed_ r = true → ring_closed_ (fold_left RingFeed.apply_rop ops r) = true.
Proof. revert r. induction ops as [|op ops IH]; intros r Hc; [done|]. by apply IH, rop_closed. Qed.

Lemma try_read_closed r c : ring_closed_ (try_read r c).2 = ring_closed_ r.
Proof. unfold try_read. by repeat case_match. Qed.

Lemma read_loop_closed fuel room env r c out c' r' :
  ring_closed_ r = true → RingFeed.read_loop_env fuel room env r c = Some (out, c', r') →
  ring_closed_ r' = true.
Proof.
  revert room env r c out c' r'. induction fuel as [|fuel IH]; intros room env r c out c' r' Hc;
    (destruct room as [|room]; cbn [RingFeed.read_loop_env]; [intros [= <- <- <-]; by apply rops_closed|]);
    [done|].
  set (r1 := fold_left _ _ r). assert (ring_closed_ r1 = true) as Hc1 by by apply rops_closed.
  pose proof (try_read_closed r1 c) as Ht. destruct (try_read r1 c) as [[[st c1] fo] r2]. simpl in Ht.
  rewrite Hc1 in Ht. clearbody r1.
  assert (∀ fs, Some (@nil Frame, c, fold_left RingFeed.apply_rop fs r1) = Some (out, c', r') →
            ring_closed_ r' = true) as Hend by (intros fs [= <- <- <-]; by apply rops_closed).
  destruct st; [destruct fo as [f|]|..]; try (by apply Hend).
  - destruct (RingFeed.read_loop_env fuel room (tail env) r2 c1) as [[[fs c2] r3]|] eqn:Er; [|done].
    intros [= <- <- <-]. by eapply IH.
  - intros Er. by eapply IH.
Qed.

Lemma read_batch_closed room env r c :
  ring_closed_ r = true → ring_closed_ (RingFeed.read_batch_env room env r c).2 = true.
Proof.
  intros Hc. unfold RingFeed.read_batch_env.
  destruct (RingFeed.read_loop_env _ _ _ _ _) as [[[out c'] r']|] eqn:Er; simpl; [|done].
  by eapply read_loop_closed.
Qed.

Lemma ring_pop_closed n e (f : RingFeed.t) :
  ring_closed (RingFeed.ring_ f) = true → ring_closed (RingFeed.ring_ (RingFeed.pop n e f).2) = true.
Proof.
  unfold ring_closed. intros Hc. unfold RingFeed.pop.
  pose proof (read_batch_closed n (RingFeed.first_reads e) _ (RingFeed.cursor_ f) Hc) as Hr.
  destruct (RingFeed.read_batch_env n _ _ _) as [[out c] r]. simpl in Hr.
  destruct out; simpl; [unfold ring_closed; rewrite Hr; simpl|]; by apply rops_closed.
Qed.

(** A quiet read that delivers nothing has reached the write position. *)
Lemma read_loop_end fuel room env r c log c' r' :
  ring_holds r log → good_log log → RingFeed.all_published (concat env) = [] →
  0 <= next c <= Z.of_nat (length log) →
  RingFeed.read_loop_env fuel (S room) env r c = Some ([], c', r') → next c' = Z.of_nat (length log).
Proof.
  revert env r c. induction fuel as [|fuel IH]; intros env r c Hh Hg Hq Hc; cbn [RingFeed.read_loop_env]; [done|].
  assert (concat env = default [] (head env) ++ concat (tail env)) as Ee by by destruct env.
  rewrite Ee, RingFeed.all_published_app in Hq. apply app_eq_nil in Hq as [Hq1 Hq2].
  pose proof Hg as [_ Hb].
  destruct (RingFeed.rops_hold (default [] (head env)) r log Hh) as [Hh1 _]; [rewrite Hq1; simpl; lia|].
  rewrite Hq1, app_nil_r in Hh1. set (r1 := fold_left _ _ r) in *. clearbody r1.
  pose proof Hh1 as ([Hsh _ _] & _ & _). pose proof (shape_bounds Hsh) as Hcap.
  destruct (Z.lt_ge_cases (next c) (Z.of_nat (length log) - capacity_ r1)).
  - rewrite (try_read_lapped r1 log) by (done || lia). apply IH; [done|done|done|simpl; lia].
  - destruct (Z.eq_dec (next c) (Z.of_nat (length log))) as [He|He].
    + rewrite (try_read_empty r1 log) by done. by intros [= <- <-].
    + rewrite (try_read_ok r1 log) by (done || lia || by apply RingFeed.good_wf).
      by destruct (RingFeed.read_loop_env fuel room _ _ _) as [[[? ?] ?]|].
Qed.

Lemma read_batch_end room env r c log :
  ring_holds r log → good_log log → RingFeed.all_published (concat env) = [] →
  0 <= next c <= Z.of_nat (length log) →
  (RingFeed.read_batch_env (S room) env r c).1.1 = [] →
  next (RingFeed.read_batch_env (S room) env r c).1.2 = Z.of_nat (length log).
Proof.
  intros Hh Hg Hq Hc He. unfold RingFeed.read_batch_env in *.
  pose proof Hg as [_ Hb].
  destruct (RingFeed.read_loop_env_holds (RingFeed.read_fuel (S room) env) (S room) env r c log)
    as (out & c' & r' & E & _); try done.
  - rewrite Hq. constructor.
  - rewrite Hq. simpl. lia.
  - unfold RingFeed.enough, RingFeed.read_fuel. case_match; lia.
  - rewrite E in He |- *. change (out = []) in He. subst out. change (next c' = Z.of_nat (length log)).
    exact (read_loop_end _ _ _ _ _ log _ _ Hh Hg Hq Hc E).
Qed.

Lemma ring_pop_empty n e (f : RingFeed.t) log pos :
  RingFeed.holds f log pos → quiet e → (0 < n)%nat → (RingFeed.pop n e f).1 = [] →
  RingFeed.holds (RingFeed.pop n e f).2 log (Z.of_nat (length log)).
Proof.
  intros Hh Hq Hn Ho. destruct (Hq f log pos Hh) as [Hok Ha].
  destruct (RingFeed.pop_holds n e f log pos Hh Hok) as (pos' & Hh' & _).
  assert (RingFeed.added e f = []) as Ha' by exact Ha. rewrite Ha', app_nil_r in Hh'.
  unfold RingFeed.added in Ha'. apply app_eq_nil in Ha' as [Ha1 Ha2].
  rewrite RingFeed.all_published_app in Ha2. apply app_eq_nil in Ha2 as [Ha2 Ha3].
  destruct n as [|n]; [lia|]. destruct Hh as (Hr & Hg & <- & Hp). pose proof Hg as [_ Hb].
  assert (next (RingFeed.cursor_ (RingFeed.pop (S n) e f).2) = Z.of_nat (length log)) as Hend.
  { unfold RingFeed.pop in *.
    pose proof (read_batch_end n _ _ _ log Hr Hg Ha1 Hp) as He1.
    destruct (RingFeed.read_batch_env_holds (S n) (RingFeed.first_reads e) (RingFeed.ring_ f)
      (RingFeed.cursor_ f) log) as (out & c & r & E1 & H1 & _);
      [done|done|rewrite Ha1; constructor|rewrite Ha1; simpl; lia|done|].
    rewrite Ha1, app_nil_r in H1. rewrite E1 in Ho, He1 |- *. cbn [fst snd] in He1.
    destruct out as [|x out]; [|discriminate Ho]. cbn [RingFeed.ring_ RingFeed.cursor_] in *. destruct (ring_closed r); [by apply He1|].
    destruct (RingFeed.rops_hold (RingFeed.waiting e) r log H1) as [H2 _]; [rewrite Ha2; simpl; lia|].
    rewrite Ha2, app_nil_r in H2.
    pose proof (read_batch_end n (RingFeed.second_reads e) _ c log H2 Hg Ha3) as He2.
    destruct (RingFeed.read_batch_env (S n) (RingFeed.second_reads e) _ c) as [[out2 c2] r2].
    simpl in *. apply He2; [rewrite (He1 eq_refl); lia|done]. }
  destruct Hh' as (K1 & K2 & K3 & K4). split; [done|]. split; [done|]. split; [done|]. lia.
Qed.

(** What a ring of capacity [cap] still holds for a reader at [from]. *)
Definition ring_rest (cap from : Z) (log : list Frame) : list Frame :=
  let first := Z.max from (Z.of_nat (length log) - cap) in
  log_window log first (Z.to_nat (Z.of_nat (length log) - first)).

Lemma read_loop_rest fuel room env r c log out c' r' :
  ring_holds r log → good_log log → RingFeed.all_published (concat env) = [] →
  0 <= next c <= Z.of_nat (length log) →
  RingFeed.read_loop_env fuel room env r c = Some (out, c', r') →
  ring_rest (capacity_ r) (next c) log = out ++ ring_rest (capacity_ r') (next c') log.
Proof.
  revert room env r c out. induction fuel as [|fuel IH]; intros room env r c out Hh Hg Hq Hc;
    (destruct room as [|room]; cbn [RingFeed.read_loop_env]); try done.
  1,2: intros [= <- <- <-]; pose proof Hg as [_ Hb];
    destruct (RingFeed.rops_hold (concat env) r log Hh) as [_ ->]; [rewrite Hq; simpl; lia|done].
  assert (concat env = default [] (head env) ++ concat (tail env)) as Ee by by destruct env.
  rewrite Ee, RingFeed.all_published_app in Hq. apply app_eq_nil in Hq as [Hq1 Hq2].
  pose proof Hg as [_ Hb].
  destruct (RingFeed.rops_hold (default [] (head env)) r log Hh) as [Hh1 Hcap1]; [rewrite Hq1; simpl; lia|].
  rewrite Hq1, app_nil_r in Hh1. rewrite <- Hcap1. set (r1 := fold_left _ _ r) in *. clearbody r1. clear Hcap1.
  pose proof Hh1 as ([Hsh _ _] & _ & _). pose proof (shape_bounds Hsh) as Hcap.
  destruct (Z.lt_ge_cases (next c) (Z.of_nat (length log) - capacity_ r1)) as [Hlap|Hin].
  - rewrite (try_read_lapped r1 log) by (done || lia). intros E.
    apply IH in E; [|done|done|done|simpl; lia]. rewrite <- E. unfold ring_rest. simpl next.
    by rewrite Z.max_r, Z.max_id by lia.
  - destruct (Z.eq_dec (next c) (Z.of_nat (length log))) as [He|He].
    + rewrite (try_read_empty r1 log) by done. intros [= <- <- <-].
      destruct (RingFeed.rops_hold (concat (tail env)) r1 log Hh1) as [_ ->]; [rewrite Hq2; simpl; lia|done].
    + rewrite (try_read_ok r1 log) by (done || lia || by apply RingFeed.good_wf).
      destruct (RingFeed.read_loop_env fuel room _ _ _) as [[[fs c2] r2]|] eqn:E; [|done]. intros [= <- <- <-].
      apply IH in E; [|done|done|done|simpl; lia]. cbn [app]. rewrite <- E. unfold ring_rest. simpl next.
      rewrite !Z.max_l by lia.
      replace (Z.to_nat (Z.of_nat (length log) - next c)) with (S (Z.to_nat (Z.of_nat (length log) - (next c + 1)))) by lia.
      by rewrite log_window_S.
Qed.

Lemma read_batch_rest room env r c log :
  ring_holds r log → good_log log → RingFeed.all_published (concat env) = [] →
  0 <= next c <= Z.of_nat (length log) →
  let b := RingFeed.read_batch_env room env r c in
  ring_holds b.2 log ∧ 0 <= next b.1.2 <= Z.of_nat (length log) ∧
  ring_rest (capacity_ r) (next c) log = b.1.1 ++ ring_rest (capacity_ b.2) (next b.1.2) log.
Proof.
  intros Hh Hg Hq Hc. unfold RingFeed.read_batch_env. pose proof Hg as [_ Hb].
  destruct (RingFeed.read_loop_env_holds (RingFeed.read_fuel room env) room env r c log)
    as (out & c' & r' & E & H1 & _ & H2); try done.
  - rewrite Hq. constructor.
  - rewrite Hq. simpl. lia.
  - unfold RingFeed.enough, RingFeed.read_fuel. case_match; lia.
  - rewrite E. rewrite Hq, app_nil_r in H1, H2. apply delivers_pos in H2. cbn [default id fst snd].
    split; [done|]. split; [lia|]. by eapply read_loop_rest.
Qed.

Lemma ring_pop_quiet n e (f : RingFeed.t) log pos :
  RingFeed.holds f log pos → quiet e →
  let rest f := ring_rest (capacity_ (RingFeed.ring_ f)) (next (RingFeed.cursor_ f)) log in
  rest f = (RingFeed.pop n e f).1 ++ rest (RingFeed.pop n e f).2.
Proof.
  intros Hh Hq rest. destruct (Hq f log pos Hh) as [_ Ha]. assert (RingFeed.added e f = []) as Ha' by exact Ha.
  unfold RingFeed.added in Ha'. apply app_eq_nil in Ha' as [Ha1 Ha2]. pose proof Ha2 as Ha2'.
  rewrite RingFeed.all_published_app in Ha2. apply app_eq_nil in Ha2 as [Ha2 Ha3].
  destruct Hh as (Hr & Hg & <- & Hp). pose proof Hg as [_ Hb]. unfold RingFeed.pop.
  destruct (read_batch_rest n (RingFeed.first_reads e) _ _ log Hr Hg Ha1 Hp) as (H1 & H2 & H3). fold (rest f) in H3.
  destruct (RingFeed.read_batch_env n (RingFeed.first_reads e) _ _) as [[out c] r]. cbn [fst snd] in *.
  assert (∀ ops, RingFeed.all_published ops = [] →
            capacity_ (fold_left RingFeed.apply_rop ops r) = capacity_ r ∧
            ring_holds (fold_left RingFeed.apply_rop ops r) log) as Hops.
  { intros ops Ho. destruct (RingFeed.rops_hold ops r log H1) as [K1 K2]; [rewrite Ho; simpl; lia|].
    by rewrite Ho, app_nil_r in K1. }
  destruct (Hops _ Ha2') as [C1 _]. destruct (Hops _ Ha2) as [C2 Hw]. destruct out as [|x out].
  - cbn [RingFeed.ring_]. destruct (ring_closed r).
    { rewrite H3. unfold rest. cbn. by rewrite C1. }
    cbn [RingFeed.cursor_].
    destruct (read_batch_rest n (RingFeed.second_reads e) _ c log Hw Hg Ha3 H2) as (_ & _ & K3).
    rewrite C2 in K3. destruct (RingFeed.read_batch_env n (RingFeed.second_reads e) _ c) as [[out2 c2] r2].
    rewrite H3. exact K3.
  - rewrite H3. unfold rest. cbn. by rewrite C1.
Qed.

Lemma ring_rest_end cap log : 0 <= cap → ring_rest cap (Z.of_nat (length log)) log = [].
Proof. intros Hc. unfold ring_rest. rewrite Z.max_l by lia. by rewrite Z.sub_diag. Qed.

(** A ring still holds for its reader the frames from the cursor on that are not yet
    overwritten. *)
#[export] Program Instance ring_closes : FeedCloses RingFeed.t RingFeed.Env := {
  feed_rest := λ f log, ring_rest (capacity_ (RingFeed.ring_ f)) (next (RingFeed.cursor_ f)) log
}.
Next Obligation. done. Qed.
Next Obligation. exact ring_pop_closed. Qed.
Next Obligation. intros n e f log pos. apply ring_pop_empty. Qed.
Next Obligation. done. Qed.
Next Obligation. intros n e f log pos. apply ring_pop_quiet. Qed.
Next Obligation. intros n e f log pos Hf Hq Hn E. pose proof (ring_pop_quiet n e f log pos Hf Hq) as H. cbv zeta in H.
    change (feed_pop n e f) with (RingFeed.pop n e f) in E. rewrite E in H.
    etransitivity; [exact H|]. cbn [app].
    destruct (ring_pop_empty n e f log pos Hf Hq Hn E) as (([Hsh _ _] & _) & _ & -> & _).
    apply ring_rest_end. pose proof (shape_bounds Hsh). lia. Qed.

(** ** The ingest threads *)

(** A poll that does not fail. *)
Definition fan_heard {A} (p : FanOut.PollAnswer A) : bool :=
  match p with FanOut.PollFail _ => false | _ => true end.

Definition ring_heard {A} (p : RingIngest.PollAnswer A) : bool :=
  match p with RingIngest.PollFail _ => false | _ => true end.

Section IngestStop.
Context {S A : Type} `{!Source S A, !SourceSpec S A}.

(** After [stop] the fan-out thread drains once more and returns at its first poll that
    does not fail: nothing that comes later is seen. *)
Lemma fan_stop_returns (before after : list (FanOut.PollAnswer A)) p (f : FanOut.t S) :
  Forall (λ q, fan_heard q = false) before → fan_heard p = true →
  FanOut.run (map FanOut.request_stop (before ++ p :: after)) f
  = FanOut.run (map FanOut.request_stop (before ++ [p])) f.
Proof.
  intros Hb Hp. revert f. induction Hb as [|q before Hq _ IH]; intros f.
  - destruct p as [e| |ready stop]; [done|..]; cbn [app map FanOut.request_stop FanOut.run FanOut.run_once].
    + by destruct (FanOut.drain_ready 0 [] f).
    + by destruct (FanOut.drain_ready 0 ready f).
  - destruct q as [e| |ready stop]; try done. cbn [app map FanOut.request_stop FanOut.run].
    destruct (FanOut.run_once (FanOut.PollFail e) f) as [[out f1] st] eqn:Eo.
    destruct st; [done|]. by rewrite IH.
Qed.

Lemma turn_running i p (x : RingIngest.t S) out x' :
  RingIngest.turn i (RingIngest.request_stop (i, p)).2 x = Some (out, x') →
  RingIngest.running_ x' = RingIngest.running_ x ∨
  RingIngest.running_ x' = <[i := false]> (RingIngest.running_ x).
Proof.
  unfold RingIngest.turn. case_match; [intros [= <- <-]; by left|].
  assert (∀ a y r, RingIngest.drain_publish i a x = Some (y, r) →
            RingIngest.running_ r = RingIngest.running_ x) as Hd.
  { intros a y r. unfold RingIngest.drain_publish. repeat case_match; by intros [= <- <-]. }
  destruct p as [[]| |[a|] stop]; simpl; try (intros [= <- <-]; auto).
  destruct (RingIngest.drain_publish i a x) as [[y r]|] eqn:Ed; [|done]. intros [= <- <-].
  simpl. rewrite (Hd _ _ _ Ed). auto.
Qed.

Lemma turn_heard i p (x : RingIngest.t S) out x' :
  ring_heard p = true → (i < length (RingIngest.running_ x))%nat →
  RingIngest.turn i (RingIngest.request_stop (i, p)).2 x = Some (out, x') →
  RingIngest.running_ x' !! i = Some false.
Proof.
  intros Hp Hi. unfold RingIngest.turn.
  destruct (lookup_lt_is_Some_2 _ _ Hi) as [b Hb]. rewrite Hb. simpl.
  destruct b; simpl; [|intros [= <- <-]; done].
  assert (∀ a y r, RingIngest.drain_publish i a x = Some (y, r) →
            RingIngest.running_ r = RingIngest.running_ x) as Hd.
  { intros a y r. unfold RingIngest.drain_publish. repeat case_match; by intros [= <- <-]. }
  destruct p as [e| |[a|] stop]; [done|..]; simpl.
  1,3: intros [= <- <-]; by apply list_lookup_insert_eq.
  destruct (RingIngest.drain_publish i a x) as [[y r]|] eqn:Ed; [|done]. intros [= <- <-].
  simpl. rewrite (Hd _ _ _ Ed). by apply list_lookup_insert_eq.
Qed.

Lemma turns_joined sched (x : RingIngest.t S) outs x' :
  RingIngest.turns (map RingIngest.request_stop sched) x = Some (outs, x') →
  length (RingIngest.running_ x') = length (RingIngest.running_ x) ∧
  (∀ i, RingIngest.running_ x !! i = Some false → RingIngest.running_ x' !! i = Some false) ∧
  (∀ i p, (i, p) ∈ sched → ring_heard p = true → (i < length (RingIngest.running_ x))%nat →
          RingIngest.running_ x' !! i = Some false).
Proof.
  revert x outs. induction sched as [|[j q] sched IH]; intros x outs.
  { simpl. intros [= <- <-]. split; [done|]. split; [done|]. by intros i p ?%not_elem_of_nil. }
  cbn [map]. set (q' := (RingIngest.request_stop (j, q)).2).
  change (RingIngest.request_stop (j, q)) with (j, q'). cbn [RingIngest.turns].
  destruct (RingIngest.turn j q' x) as [[out x1]|] eqn:Et; [|done].
  destruct (RingIngest.turns _ x1) as [[log x2]|] eqn:Es; [|done]. intros [= _ <-].
  destruct (IH _ _ Es) as (I1 & I2 & I3).
  assert (length (RingIngest.running_ x1) = length (RingIngest.running_ x)) as El.
  { apply turn_running in Et as [-> | ->]; [done|apply length_insert]. }
  split; [congruence|]. split.
  - intros i Hi. apply I2. apply turn_running in Et as [-> | ->]; [done|].
    destruct (decide (j = i)) as [->|Hne].
    + apply list_lookup_insert_eq. by eapply lookup_lt_Some.
    + by rewrite list_lookup_insert_ne.
  - intros i p [[= -> ->]|Hin]%elem_of_cons Hp Hi.
    + apply I2. by eapply turn_heard.
    + eapply I3; [done|done|lia].
Qed.
End IngestStop.

(** ** Properties *)

(** C33. Stopping an egress ends its thread. From any state of the thread and of its feed,
    when [stop] has made the stop descriptor readable and closed the feed and nothing more
    is published: whatever the client, the sockets and the clock do, the thread returns,
    so the join succeeds, within two turns more than the frames its feed is behind; and a
    client that is still connected at the end was connected all along and has been sent,
    in order, the rest of the buffer it was being sent and then whole batches whose frames,
    markers and probes aside, are exactly what the feed held; nothing is left unsent. *)
Theorem egress_stop_returns {F E} `{!ConsumerFeed F E, !FeedSpec F E, !FeedCloses F E}
    (envs : list (IterEnv E)) (s : Egress) (f : F) (log : list Frame) (pos : Z) :
  Forall stopping envs → writes s → feed_at f log pos →
  Z.of_nat (length log) - pos + 2 <= Z.of_nat (length envs) →
  ∃ s' f' ev, egress_stop true envs s f = Some (s', f', ev) ∧
    (0 <= client_fd_ s' →
       client_fd_ s' = client_fd_ s ∧ feed_at f' log (Z.of_nat (length log)) ∧ unsent s' = [] ∧
       ∃ bs, written ev = Some (unsent s ++ concat (map batch_bytes bs)) ∧
             filter (λ g, is_control g = false) (concat bs) = feed_rest f log).
Proof.
  intros Hs Hw Hf Hl. destruct (feed_at_good _ _ _ Hf) as [_ Hp].
  pose proof (feed_close_spec f log pos Hf) as Hf1.
  destruct (run_loop_stop envs s (feed_close f) log pos) as (s' & f' & ev & Hr & He);
    [done|apply Hw|done|apply feed_close_closed|case_match; lia|lia|].
  exists s', f', ev. unfold egress_stop. rewrite Hr. split; [done|]. intros Hc.
  destruct (run_loop_kept envs s (feed_close f) log pos s' f' ev Hs Hw Hf1 (feed_close_closed f) Hr Hc)
    as (K1 & (bs & K2 & K3 & K4) & K5).
  split; [done|]. split; [auto|]. split; [done|]. exists bs. split; [done|].
  by rewrite feed_rest_close, K5, app_nil_r in K3.
Qed.

(** C34. Stopping the ring ingest ends all its threads. From any state its threads can be
    in, for sources that meet their contract and any interleaving of what the threads
    still do in which each gets one poll that does not fail, [stop] joins them all, and
    every frame drained meanwhile is in the ring. *)
Theorem ring_ingest_stop_joins {S A} `{!Source S A, !SourceSpec S A} (x : RingIngest.t S)
    (log : list Frame) (sched : list (nat * RingIngest.PollAnswer A)) :
  RingIngest.started_ x = true → ingest_ok x log →
  Forall (turn_ok (S := S)) sched → Z.of_nat (length log) + 64 * Z.of_nat (length sched) < log_bound →
  (∀ i, (i < length (RingIngest.sources_ x))%nat → ∃ p, (i, p) ∈ sched ∧ ring_heard p = true) →
  ∃ outs x', RingIngest.stop sched x = Some (outs, x') ∧
    RingIngest.started_ x' = false ∧ existsb id (RingIngest.running_ x') = false ∧
    ring_holds (RingIngest.ring_ x') (log ++ concat (map snd outs)).
Proof.
  intros Hst Hx Hok Hb Hall. unfold RingIngest.stop. rewrite Hst.
  destruct (turns_ok (map RingIngest.request_stop sched) x log Hx) as (outs & x1 & E & H1 & _).
  { apply Forall_map. eapply Forall_impl; [exact Hok|]. intros [i p]. unfold turn_ok. simpl.
    by destruct p as [[]| |[a|] stop]. }
  { by rewrite length_map. }
  rewrite E. destruct (turns_joined sched x outs x1 E) as (J1 & _ & J3).
  assert (existsb id (RingIngest.running_ x1) = false) as ->.
  { apply not_true_iff_false. intros (b & Hin & Hb')%existsb_exists.
    apply list_elem_of_In, list_elem_of_lookup in Hin as [i Hi].
    assert (i < length (RingIngest.running_ x))%nat as Hlt by (rewrite <- J1; by eapply lookup_lt_Some).
    rewrite (in_running _ _ Hx) in Hlt.
    destruct (Hall i Hlt) as (p & Hp & Hh). rewrite <- (in_running _ _ Hx) in Hlt.
    rewrite (J3 i p Hp Hh Hlt) in Hi. by simplify_eq. }
  eexists _, _. split; [reflexivity|]. split; [done|]. split; [|apply H1].
  simpl. apply not_true_iff_false. intros (b & Hin & Hb')%existsb_exists.
  apply list_elem_of_In, elem_of_replicate_inv in Hin. by subst.
Qed.

(** ** Witnesses *)

(** An answer after which a write loop of a stopped thread does not go on. *)
Definition decisive (a : SendAnswer) : Prop :=
  sa_n a = 0 ∨ sa_n a < 0 ∧ (sa_errno a = EOther ∨ sa_errno a = EAgain ∧ 0 < sa_poll_rc a ∧ sa_stop a = true).

Lemma flush_ends answers s : Exists decisive answers → is_Some (flush_pending answers s).
Proof.
  intros He. revert s. induction He as [a l Ha|a l He IH]; intros s; cbn [flush_pending];
    (destruct (Z.ltb_spec (pending_offset_ s) (Z.of_nat (length (pending_ s)))) as [Hlt|]; cbn [negb]; [|done]).
  - rewrite Z.gtb_ltb. destruct Ha as [Ha|[Hn Ha]].
    + rewrite Ha, Z.min_l by lia. done.
    + rewrite Z.min_l by lia. rewrite (proj2 (Z.ltb_ge 0 (sa_n a))) by lia.
      rewrite (proj2 (Z.ltb_lt (sa_n a) 0)) by lia. destruct Ha as [->|(-> & H1 & ->)]; [done|].
      case_match; [done|]. by rewrite Z.gtb_ltb, (proj2 (Z.ltb_lt 0 _) H1).
  - case_match.
    + match goal with |- is_Some (match flush_pending l ?s0 with _ => _ end) =>
        destruct (IH s0) as [[[ok s1] more] ->]; done end.
    + case_match; [|done]. destruct (sa_errno a); [|apply IH|done]. do 2 (case_match; [done|]). apply IH.
Qed.

(** A connected client and two frames in the ring. *)
Definition stop_frames : list Frame := map demo_frame [10; 11].

Definition stop_feed : RingFeed.t :=
  RingFeed.make (fold_left RingFeed.apply_rop [RingFeed.ROpPublish stop_frames] demo_ring).

Definition stop_thread : Egress := set_client 7 true (make_egress (mkTuning 1 0 0)).

Definition stop_env : IterEnv RingFeed.Env :=
  mkIter [mkWait (-1) true false false 0; mkWait 1 false true false 0] [mkSend 0 EOther 0 false false] 0 false [] 0
    (RingFeed.mkEnv [] [] []) 0 [] 0 0 [mkSend 4096 EOther 0 false false; mkSend (-1) EAgain 1 false true].

Lemma stop_feed_at : feed_at stop_feed stop_frames 0.
Proof.
  split; [|split; [|split; [by vm_compute|by vm_compute]]].
  - apply (RingFeed.rops_hold [RingFeed.ROpPublish stop_frames] demo_ring []); [apply demo_ring_holds|by vm_compute].
  - split; [apply (bool_decide_unpack _); by vm_compute|by vm_compute].
Qed.

Lemma stop_env_ok : stopping stop_env.
Proof.
  constructor; cbn [stop_env i_wait i_flush i_flush_left i_pop i_linger].
  - constructor; [simpl; lia|]. constructor; [simpl; by split|constructor].
  - right. left. left. simpl. lia.
  - intros s. apply flush_ends. right. left. right. simpl. split; [lia|]. right. split; [done|]. split; [lia|done].
  - intros s. apply flush_ends. left. by left.
  - intros f log pos (H1 & [H2 H3] & H4 & H5). split; [|done]. split; [constructor|].
    simpl. by rewrite Nat.add_0_r.
  - constructor.
  - by vm_compute.
Qed.

Lemma egress_stop_returns_witness :
  ∃ s' f' ev, egress_stop true (replicate 4 stop_env) stop_thread stop_feed = Some (s', f', ev) ∧
    (0 <= client_fd_ s' →
       ∃ bs, written ev = Some (concat (map batch_bytes bs)) ∧
             filter (λ g, is_control g = false) (concat bs) = [log_frame stop_frames 0; log_frame stop_frames 1]).
Proof.
  destruct (egress_stop_returns (replicate 4 stop_env) stop_thread stop_feed stop_frames 0) as (s' & f' & ev & E & H).
  - apply Forall_replicate, stop_env_ok.
  - constructor; vm_compute; split_and!; discriminate || reflexivity.
  - apply stop_feed_at.
  - vm_compute. discriminate.
  - exists s', f', ev. split; [exact E|]. intros Hc. exact (proj2 (proj2 (proj2 (H Hc)))).
Defined.

(** In that run the client keeps up, and both frames are sent before the thread returns. *)
Lemma stop_sends_backlog :
  match egress_stop true (replicate 4 stop_env) stop_thread stop_feed with
  | Some (s', _, _) => client_fd_ s' = 7 ∧ counters_ s' frames_sent_ = 2
  | None => False
  end.
Proof. by vm_compute. Qed.

Lemma ring_ingest_stop_joins_witness :
  ∃ outs x', RingIngest.stop demo_sched (RingIngest.start (RingIngest.make demo_sources demo_ring)) = Some (outs, x') ∧
    RingIngest.started_ x' = false ∧ ring_holds (RingIngest.ring_ x') (concat (map snd outs)).
Proof.
  destruct (ring_ingest_stop_joins (RingIngest.start (RingIngest.make demo_sources demo_ring)) [] demo_sched)
    as (outs & x' & H1 & H2 & _ & H3).
  - reflexivity.
  - apply start_ok; [exact demo_sources_wf|exact demo_ring_holds].
  - repeat first [apply List.Forall_nil | apply List.Forall_cons | exact I | apply demo_answer_ok].
  - vm_compute. reflexivity.
  - intros [|[|i]] Hi; [| |simpl in Hi; lia].
    + eexists. split; [right; left|reflexivity].
    + eexists. split; [left|reflexivity].
  - exists outs, x'. split; [exact H1|]. split; [exact H2|exact H3].
Defined.
