(* ===== verification/Lifecycle.v ===== *)
(** * Lifecycle: the owners of the threads, and the threads, side by side
      (src/src/fanout.cpp, ring_ingest.cpp, egress.cpp, http.cpp)

    Four classes own threads: the fan-out, the ring ingest (one per source), an egress and
    the page server. Each has [start], [stop] and a destructor that stops before it closes
    its descriptors. Here those functions are the list of things they do, in order, and the
    threads they start run between any two of them. What can go wrong is an outcome: a
    [std::thread] destroyed or assigned over while it can be joined, which ends the
    process; a join of a thread that cannot be joined; a descriptor used or closed when it
    is not open; a thread that uses an object that is gone. *)

From stdpp Require Import gmap.
From S2P Require Import Prelude.

(** ** What the functions do *)

(** A [std::thread]: of no thread, or of the thread [t]. *)
Inductive Handle := NoThread | Owns (t : nat).

Inductive Fault := Terminated | NotJoinable | BadDescriptor | Gone | NoHandler.

Inductive act :=
  | ReturnIf (b : bool)      (* if (started_ == b) return *)
  | SetHandler
  | SetStarted (b : bool)
  | Assign                   (* thread_ = std::thread(...) *)
  | Emplace                  (* threads_.emplace_back(...) *)
  | WriteStop
  | CloseFeed
  | JoinIf (i : nat)         (* if (t.joinable()) *)
  | Join (i : nat)
  | JoinFrom (i : nat)       (* the loop over threads_, from the i-th *)
  | Clear
  | DropClient
  | CloseListen
  | CloseStop
  | Release.                 (* the members are destroyed *)

(** A class: its three functions, the destructor after its [stop()], the handles it is
    constructed with, and what its threads may do: return of their own accord, accept a
    client they keep, call a handler. *)
Record Class := mkClass {
  c_start : list act;
  c_stop : list act;
  c_rest : list act;
  c_handles : list Handle;
  c_quits : bool;
  c_accepts : bool;
  c_handler : bool;
  c_listens : bool
}.

Definition fan_start : list act := [ReturnIf true; SetStarted true; Assign].

Definition fan_stop : list act := [ReturnIf false; WriteStop; JoinIf 0; SetStarted false].

Definition fan_rest : list act := [CloseStop; Release].

Definition ring_start (sources : nat) : list act := [ReturnIf true; SetStarted true] ++ replicate sources Emplace.

Definition ring_stop : list act := [ReturnIf false; WriteStop; JoinFrom 0; Clear; SetStarted false].

Definition ring_rest : list act := [CloseStop; Release].

Definition egress_start : list act := [ReturnIf true; SetStarted true; Assign].

Definition egress_halt : list act := [ReturnIf false; WriteStop; CloseFeed; JoinIf 0; SetStarted false].

Definition egress_rest : list act := [DropClient; CloseListen; CloseStop; Release].

Definition server_start : list act := [ReturnIf true; SetHandler; SetStarted true; Assign].

Definition server_stop : list act := [ReturnIf false; WriteStop; JoinIf 0; SetStarted false].

Definition server_rest : list act := [CloseListen; CloseStop; Release].

Inductive Kind := KFanOut | KRingIngest (sources : nat) | KEgress | KServer.

Definition class_of (k : Kind) : Class :=
  match k with
  | KFanOut => mkClass fan_start fan_stop fan_rest [NoThread] false false false false
  | KRingIngest n => mkClass (ring_start n) ring_stop ring_rest [] false false false false
  | KEgress => mkClass egress_start egress_halt egress_rest [NoThread] true true false true
  | KServer => mkClass server_start server_stop server_rest [NoThread] true false true true
  end.

(** ** The object, its threads and its descriptors *)

Record Obj := mkObj {
  o_alive : bool;
  o_started : bool;
  o_handler : bool;
  o_handles : list Handle;
  o_threads : list bool;     (* which of the threads ever started still run *)
  o_count : Z;               (* the stop descriptor's counter, which nobody reads *)
  o_stop_fd : Z;
  o_listen_fd : Z;
  o_client_fd : Z;
  o_open : gset Z;           (* the open descriptors of the process *)
  o_feed_closed : bool
}.

Inductive Effect (A : Type) := Disabled | Faulted (f : Fault) | Next (a : A).
Arguments Disabled {A}.
Arguments Faulted {A} f.
Arguments Next {A} a.

Definition no_thread (h : Handle) : bool := match h with NoThread => true | Owns _ => false end.

Definition set_handles (hs : list Handle) (o : Obj) : Obj :=
  mkObj (o_alive o) (o_started o) (o_handler o) hs (o_threads o) (o_count o) (o_stop_fd o) (o_listen_fd o)
    (o_client_fd o) (o_open o) (o_feed_closed o).

Definition set_threads (ts : list bool) (o : Obj) : Obj :=
  mkObj (o_alive o) (o_started o) (o_handler o) (o_handles o) ts (o_count o) (o_stop_fd o) (o_listen_fd o)
    (o_client_fd o) (o_open o) (o_feed_closed o).

Definition set_fds (client : Z) (fds : gset Z) (o : Obj) : Obj :=
  mkObj (o_alive o) (o_started o) (o_handler o) (o_handles o) (o_threads o) (o_count o) (o_stop_fd o)
    (o_listen_fd o) client fds (o_feed_closed o).

Definition set_flags (alive started handler closed : bool) (count : Z) (o : Obj) : Obj :=
  mkObj alive started handler (o_handles o) (o_threads o) count (o_stop_fd o) (o_listen_fd o)
    (o_client_fd o) (o_open o) closed.

(** [if (fd >= 0) ::close(fd)]. *)
Definition close_fd (fd client : Z) (o : Obj) : Effect Obj :=
  if fd <? 0 then Next o
  else if decide (fd ∈ o_open o) then Next (set_fds client (o_open o ∖ {[fd]}) o) else Faulted BadDescriptor.

(** A write to an eventfd: its counter stays below 2^64 - 1. *)
Definition eventfd_add (count : Z) : Z := if count + 1 <=? 2 ^ 64 - 2 then count + 1 else count.

(** One thing the owner does. The code is the rest of the functions it has called, one list
    each; [ok] is whether a thread could be created, an exception leaving [start] if
    not. *)
Definition owner_step (ok : bool) (code : list (list act)) (o : Obj) : Effect (Obj * list (list act)) :=
  match code with
  | [] => Disabled
  | [] :: fs => Next (o, fs)
  | (a :: c) :: fs =>
      if negb (o_alive o) then Faulted Gone else
      let flags alive started handler closed count :=
        Next (set_flags alive started handler closed count o, c :: fs) in
      let closing r := match r with Next o => Next (o, c :: fs) | Faulted f => Faulted f | Disabled => Disabled end in
      match a with
      | ReturnIf b => Next (o, if Bool.eqb (o_started o) b then fs else c :: fs)
      | SetHandler => flags true (o_started o) true (o_feed_closed o) (o_count o)
      | SetStarted b => flags true b (o_handler o) (o_feed_closed o) (o_count o)
      | Assign =>
          if ok then
            match o_handles o with
            | NoThread :: hs =>
                Next (set_threads (o_threads o ++ [true]) (set_handles (Owns (length (o_threads o)) :: hs) o), c :: fs)
            | _ => Faulted Terminated
            end
          else Next (o, fs)
      | Emplace =>
          if ok then
            Next (set_threads (o_threads o ++ [true]) (set_handles (o_handles o ++ [Owns (length (o_threads o))]) o),
                  c :: fs)
          else Next (o, fs)
      | WriteStop =>
          if decide (o_stop_fd o ∈ o_open o)
          then flags true (o_started o) (o_handler o) (o_feed_closed o) (eventfd_add (o_count o))
          else Faulted BadDescriptor
      | CloseFeed => flags true (o_started o) (o_handler o) true (o_count o)
      | JoinIf i =>
          Next (o, match o_handles o !! i with Some (Owns _) => Join i :: c | _ => c end :: fs)
      | Join i =>
          match o_handles o !! i with
          | Some (Owns t) =>
              match o_threads o !! t with
              | Some true => Disabled
              | _ => Next (set_handles (<[i := NoThread]> (o_handles o)) o, c :: fs)
              end
          | _ => Faulted NotJoinable
          end
      | JoinFrom i =>
          Next (o, (if decide (i < length (o_handles o))%nat then JoinIf i :: JoinFrom (S i) :: c else c) :: fs)
      | Clear => if forallb no_thread (o_handles o) then Next (set_handles [] o, c :: fs) else Faulted Terminated
      | DropClient => closing (close_fd (o_client_fd o) (-1) o)
      | CloseListen => closing (close_fd (o_listen_fd o) (o_client_fd o) o)
      | CloseStop => closing (close_fd (o_stop_fd o) (o_client_fd o) o)
      | Release =>
          if forallb no_thread (o_handles o)
          then flags false (o_started o) (o_handler o) (o_feed_closed o) (o_count o)
          else Faulted Terminated
      end
  end.

(** What a thread does, seen from its object: a turn of its loop, or a call cut short by a
    signal; the client it accepts; the client it drops; its return, when it has heard the
    stop or, in some classes, when a call fails. A thread that has been told to stop may
    still turn, and may still accept a client whose connection it had polled: an egress
    with a client does not poll the stop descriptor until its feed is drained or its
    socket blocks. *)
Inductive Work := Turn | Accept (fd : Z) | Drop | Return.

Definition work_step (cl : Class) (t : nat) (w : Work) (o : Obj) : Effect Obj :=
  match w with
  | Turn => Next o
  | Accept fd =>
      if c_accepts cl && (o_client_fd o <? 0) && (0 <=? fd) && negb (bool_decide (fd ∈ o_open o))
      then Next (set_fds fd ({[fd]} ∪ o_open o) o) else Disabled
  | Drop => if c_accepts cl && (0 <=? o_client_fd o) then close_fd (o_client_fd o) (-1) o else Disabled
  | Return => if (0 <? o_count o) || c_quits cl then Next (set_threads (<[t := false]> (o_threads o)) o) else Disabled
  end.

(** Whatever it does, a thread uses the object and polls its descriptors. *)
Definition thread_step (cl : Class) (t : nat) (w : Work) (o : Obj) : Effect Obj :=
  match o_threads o !! t with
  | Some true =>
      if negb (o_alive o) then Faulted Gone
      else if negb (bool_decide (o_stop_fd o ∈ o_open o)) then Faulted BadDescriptor
      else if c_listens cl && negb (bool_decide (o_listen_fd o ∈ o_open o)) then Faulted BadDescriptor
      else if c_handler cl && negb (o_handler o) then Faulted NoHandler
      else work_step cl t w o
  | _ => Disabled
  end.

(** The system: the object and what each of the threads that call its functions has left
    to do. *)
Inductive LifeEvent := ByOwner (k : nat) (ok : bool) | ByThread (t : nat) (w : Work).

Definition Life : Type := Obj * list (list (list act)).

Definition step (cl : Class) (e : LifeEvent) (s : Life) : Effect Life :=
  match e with
  | ByOwner k ok =>
      match s.2 !! k with
      | None => Disabled
      | Some code =>
          match owner_step ok code s.1 with
          | Next (o, code) => Next (o, <[k := code]> s.2)
          | Faulted f => Faulted f
          | Disabled => Disabled
          end
      end
  | ByThread t w =>
      match thread_step cl t w s.1 with
      | Next o => Next (o, s.2)
      | Faulted f => Faulted f
      | Disabled => Disabled
      end
  end.

Fixpoint run_life (cl : Class) (es : list LifeEvent) (s : Life) : Effect Life :=
  match es with
  | [] => Next s
  | e :: es => match step cl e s with Next s => run_life cl es s | Faulted f => Faulted f | Disabled => Disabled end
  end.

(** The calls a program makes before it destroys the object. *)
Inductive Call := CallStart | CallStop.

Definition call_code (cl : Class) (c : Call) : list act := match c with CallStart => c_start cl | CallStop => c_stop cl end.

Definition owner_code (cl : Class) (calls : list Call) : list (list act) :=
  map (call_code cl) calls ++ [c_stop cl; c_rest cl].

(** [create]: the descriptors of the object among the others of the process. *)
Definition make_obj (cl : Class) (stop_fd listen_fd : Z) (others : gset Z) : Obj :=
  mkObj true false false (c_handles cl) [] 0 stop_fd (if c_listens cl then listen_fd else -1) (-1)
    ({[stop_fd]} ∪ (if c_listens cl then {[listen_fd]} else ∅) ∪ others) false.

(** ** What a lone owner knows

    Only the owner writes these, so they stand still while the threads run. [k_quiet] is
    that no client is held and none will be. *)

Record Known := mkKnown {
  k_alive : bool;
  k_started : bool;
  k_handler : bool;
  k_handles : list Handle;
  k_signalled : bool;
  k_stop : bool;
  k_listen : bool;
  k_quiet : bool;
  k_spawned : nat
}.

(** The owner's step on what it knows; [None] where it could go wrong. A join is allowed
    only of a thread that has been told to stop. *)
Definition know (cl : Class) (ok : bool) (code : list (list act)) (k : Known) : option (Known * list (list act)) :=
  match code, k with
  | [], _ => None
  | [] :: fs, _ => Some (k, fs)
  | (a :: c) :: fs, mkKnown alive st h hs sg so li q n =>
      if negb alive then None else
      match a with
      | ReturnIf b => Some (k, if Bool.eqb st b then fs else c :: fs)
      | SetHandler => Some (mkKnown true st true hs sg so li q n, c :: fs)
      | SetStarted b => Some (mkKnown true b h hs sg so li q n, c :: fs)
      | Assign =>
          if negb ok then Some (k, fs)
          else match hs with
               | NoThread :: hs =>
                   if so && (negb (c_listens cl) || li) && (negb (c_handler cl) || h)
                   then Some (mkKnown true st h (Owns n :: hs) sg so li (q && negb (c_accepts cl)) (S n), c :: fs)
                   else None
               | _ => None
               end
      | Emplace =>
          if negb ok then Some (k, fs)
          else if so && (negb (c_listens cl) || li) && (negb (c_handler cl) || h)
          then Some (mkKnown true st h (hs ++ [Owns n]) sg so li (q && negb (c_accepts cl)) (S n), c :: fs)
          else None
      | WriteStop => if so then Some (mkKnown true st h hs true so li q n, c :: fs) else None
      | CloseFeed => Some (k, c :: fs)
      | JoinIf i => Some (k, match hs !! i with Some (Owns _) => Join i :: c | _ => c end :: fs)
      | Join i =>
          match hs !! i with
          | Some (Owns _) => if sg then Some (mkKnown true st h (<[i := NoThread]> hs) sg so li q n, c :: fs) else None
          | _ => None
          end
      | JoinFrom i =>
          Some (k, (if decide (i < length hs)%nat then JoinIf i :: JoinFrom (S i) :: c else c) :: fs)
      | Clear => if forallb no_thread hs then Some (mkKnown true st h [] sg so li q n, c :: fs) else None
      | DropClient =>
          if forallb no_thread hs then Some (mkKnown true st h hs sg so li true n, c :: fs) else None
      | CloseListen =>
          if li && forallb no_thread hs then Some (mkKnown true st h hs sg so false q n, c :: fs) else None
      | CloseStop =>
          if so && forallb no_thread hs then Some (mkKnown true st h hs sg false li q n, c :: fs) else None
      | Release => if forallb no_thread hs then Some (mkKnown false st h hs sg so li q n, c :: fs) else None
      end
  end.

(** The object is gone and nothing of it is left. *)
Definition all_gone (cl : Class) (k : Known) : Prop :=
  k_alive k = false ∧ k_stop k = false ∧ k_listen k = false ∧ k_quiet k = true ∧ forallb no_thread (k_handles k) = true.

(** From here the owner gets to the end of its code, whichever threads can be created. *)
Inductive gets_through (cl : Class) : list (list act) → Known → Prop :=
  | through_end k : all_gone cl k → gets_through cl [] k
  | through_step code k (r : bool → Known * list (list act)) :
      (∀ ok, know cl ok code k = Some (r ok)) →
      (∀ ok, gets_through cl (r ok).2 (r ok).1) →
      gets_through cl code k.

(** The object is as its owner knows it, among the descriptors [D] of others. *)
Record knows (cl : Class) (D : gset Z) (k : Known) (o : Obj) : Prop := mkKnows {
  kn_alive : o_alive o = k_alive k;
  kn_started : o_started o = k_started k;
  kn_handler : o_handler o = k_handler k;
  kn_handles : o_handles o = k_handles k;
  kn_spawned : length (o_threads o) = k_spawned k;
  kn_count : 0 <= o_count o ∧ (k_signalled k = true → 0 < o_count o);
  kn_stop : k_stop k = bool_decide (o_stop_fd o ∈ o_open o);
  kn_listen : k_listen k = bool_decide (o_listen_fd o ∈ o_open o);
  kn_owned t : o_threads o !! t = Some true → ∃ i, o_handles o !! i = Some (Owns t);
  kn_made i t : o_handles o !! i = Some (Owns t) → (t < length (o_threads o))%nat;
  kn_one i j t : o_handles o !! i = Some (Owns t) → o_handles o !! j = Some (Owns t) → i = j;
  kn_usable : forallb no_thread (k_handles k) = false →
    k_alive k = true ∧ k_stop k = true ∧ (c_listens cl = true → k_listen k = true) ∧
    (c_handler cl = true → k_handler k = true);
  kn_quiet : k_quiet k = true →
    o_client_fd o < 0 ∧ (c_accepts cl = true → forallb no_thread (k_handles k) = true);
  kn_client : 0 <= o_client_fd o →
    o_client_fd o ∈ o_open o ∧ o_client_fd o ≠ o_stop_fd o ∧ o_client_fd o ≠ o_listen_fd o ∧ o_client_fd o ∉ D;
  kn_own : o_stop_fd o ∉ D ∧ o_listen_fd o ∉ D ∧ o_stop_fd o ≠ o_listen_fd o ∧ 0 <= o_stop_fd o ∧
    (if c_listens cl then 0 <= o_listen_fd o else o_listen_fd o < 0);
  kn_nonneg fd : fd ∈ o_open o → 0 <= fd;
  kn_others fd : fd ≠ o_stop_fd o → fd ≠ o_listen_fd o → (0 <= o_client_fd o → fd ≠ o_client_fd o) →
    fd ∈ o_open o ↔ fd ∈ D
}.

(** *** The threads leave it as it is *)

Lemma running_owned cl D k o t :
  knows cl D k o → o_threads o !! t = Some true → forallb no_thread (k_handles k) = false.
Proof.
  intros H Ht. destruct (kn_owned _ _ _ _ H t Ht) as [i Hi]. rewrite (kn_handles _ _ _ _ H) in Hi.
  apply not_true_is_false. rewrite List.forallb_forall. intros Hn.
  apply list_elem_of_lookup_2, list_elem_of_In, Hn in Hi. done.
Qed.

(** A running thread finds its object, its descriptors and its handler in place. *)
Lemma running_usable cl D k o t :
  knows cl D k o → o_threads o !! t = Some true →
  o_alive o = true ∧ o_stop_fd o ∈ o_open o ∧ (c_listens cl = true → o_listen_fd o ∈ o_open o) ∧
  (c_handler cl = true → o_handler o = true).
Proof.
  intros H Ht. destruct (kn_usable _ _ _ _ H (running_owned _ _ _ _ _ H Ht)) as (Ha & Hs & Hl & Hh).
  rewrite (kn_alive _ _ _ _ H), (kn_handler _ _ _ _ H). rewrite (kn_stop _ _ _ _ H) in Hs. rewrite (kn_listen _ _ _ _ H) in Hl.
  split_and!; [done|by eapply bool_decide_eq_true|intros ?; by eapply bool_decide_eq_true, Hl|done].
Qed.

(** The flags and the counter change; only an idle object may go. *)
Lemma knows_flags cl D k o alive st h closed count sg :
  knows cl D k o → k_alive k = true → 0 <= count → (sg = true → 0 < count) →
  (alive = false → forallb no_thread (k_handles k) = true) → (k_handler k = true → h = true) →
  knows cl D (mkKnown alive st h (k_handles k) sg (k_stop k) (k_listen k) (k_quiet k) (k_spawned k))
    (set_flags alive st h closed count o).
Proof.
  intros [] Ha Hc Hsg Hal Hh. constructor; cbn; try done. intros Hn.
  destruct alive; [|by rewrite Hal in Hn by done]. naive_solver.
Qed.

Lemma knows_accept cl D k o t fd :
  knows cl D k o → o_threads o !! t = Some true → c_accepts cl = true →
  o_client_fd o < 0 → 0 <= fd → fd ∉ o_open o → knows cl D k (set_fds fd ({[fd]} ∪ o_open o) o).
Proof.
  intros H Ht Hc Hn Hfd Ho. pose proof (running_owned _ _ _ _ _ H Ht) as Hr.
  destruct (running_usable _ _ _ _ _ H Ht) as (_ & Hs & Hl & _).
  destruct H as [? ? ? ? ? ? Hks Hkl ? ? ? ? Hq ? (HsD & HlD & Hsl & Hs0 & Hl0) Hpos Hoth].
  assert (fd ≠ o_stop_fd o) as Hne by congruence.
  assert (fd ≠ o_listen_fd o) as Hnl by (destruct (c_listens cl); [specialize (Hl eq_refl); congruence|lia]).
  constructor; cbn; try done.
  - rewrite Hks. apply bool_decide_ext. set_solver.
  - rewrite Hkl. apply bool_decide_ext. set_solver.
  - intros Hk. destruct (Hq Hk) as [_ Hi]. rewrite (Hi Hc) in Hr. done.
  - intros _. split_and!; [set_solver|done..|]. rewrite <- (Hoth fd) by (done || lia). done.
  - intros fd' [->%elem_of_singleton|]%elem_of_union; [done|by apply Hpos].
  - intros fd' Hs' Hl' Hc'. specialize (Hc' Hfd). rewrite <- (Hoth fd') by (done || lia). set_solver.
Qed.

(** A client that is dropped is forgotten and its descriptor closed. *)
Lemma knows_drop cl D k o :
  knows cl D k o → ∃ o', close_fd (o_client_fd o) (-1) o = Next o' ∧ o_client_fd o' < 0 ∧ knows cl D k o'.
Proof.
  intros H. unfold close_fd. destruct (Z.ltb_spec (o_client_fd o) 0) as [Hlt|Hge]; [by exists o|].
  destruct (kn_client _ _ _ _ H Hge) as (Hin & Hs & Hl & HD). rewrite decide_True by done.
  eexists. split; [done|]. split; [done|].
  destruct H as [? ? ? ? ? ? Hks Hkl ? ? ? ? Hq ? ? Hpos Hoth]. constructor; cbn; try done.
  - rewrite Hks. apply bool_decide_ext. set_solver.
  - rewrite Hkl. apply bool_decide_ext. set_solver.
  - intros Hk. split; [done|]. by apply Hq.
  - intros fd Hfd. apply Hpos. set_solver.
  - intros fd Hfs Hfl _. destruct (decide (fd = o_client_fd o)) as [->|Hne]; [set_solver|].
    rewrite <- (Hoth fd) by done. set_solver.
Qed.

Lemma knows_return cl D k o t :
  knows cl D k o → knows cl D k (set_threads (<[t := false]> (o_threads o)) o).
Proof.
  intros [? ? ? ? ? ? ? ? Hown Hmade]. constructor; cbn; try done; [by rewrite length_insert| |].
  - intros t' Ht'. apply Hown. destruct (decide (t = t')) as [->|]; [|by rewrite list_lookup_insert_ne in Ht'].
    apply list_lookup_insert_Some in Ht' as [[_ [? _]]|[? _]]; done.
  - intros i t' Hi. rewrite length_insert. by eapply Hmade.
Qed.

Lemma thread_step_running cl D k o t w :
  knows cl D k o → o_threads o !! t = Some true → thread_step cl t w o = work_step cl t w o.
Proof.
  intros H Ht. unfold thread_step. rewrite Ht.
  destruct (running_usable _ _ _ _ _ H Ht) as (Ha & Hs & Hl & Hh). rewrite Ha, bool_decide_true by done. cbn.
  replace (c_listens cl && _) with false by (destruct (c_listens cl); [rewrite bool_decide_true by auto|]; done).
  by replace (c_handler cl && _) with false by (destruct (c_handler cl); [rewrite Hh|]; done).
Qed.

(** No step of a thread goes wrong, and none changes what the owner knows. *)
Lemma thread_knows cl D k o t w :
  knows cl D k o →
  thread_step cl t w o = Disabled ∨ ∃ o', thread_step cl t w o = Next o' ∧ knows cl D k o'.
Proof.
  intros H. destruct (o_threads o !! t) as [[]|] eqn:Ht; [|unfold thread_step; rewrite Ht; by left..].
  rewrite (thread_step_running _ _ _ _ _ _ H Ht). destruct w as [|fd| |]; cbn.
  - right. by exists o.
  - destruct (c_accepts cl) eqn:Hc; [|by left].
    destruct (Z.ltb_spec (o_client_fd o) 0); [|by left]. destruct (Z.leb_spec 0 fd); [|by left].
    case_bool_decide; [by left|right]. eexists. split; [done|]. by eapply knows_accept.
  - destruct (c_accepts cl && _); [right|by left]. destruct (knows_drop _ _ _ _ H) as (o' & E & _ & H'). by exists o'.
  - destruct (_ || _); [right|by left]. eexists. split; [done|]. by apply knows_return.
Qed.

(** A thread that has been told to stop can return. *)
Lemma told_thread_returns cl D k o t :
  knows cl D k o → k_signalled k = true → o_threads o !! t = Some true →
  thread_step cl t Return o = Next (set_threads (<[t := false]> (o_threads o)) o).
Proof.
  intros H Hsg Ht. rewrite (thread_step_running _ _ _ _ _ _ H Ht). cbn.
  destruct (kn_count _ _ _ _ H) as [_ Hc]. specialize (Hc Hsg).
  by replace (0 <? o_count o) with true by (symmetry; apply Z.ltb_lt; done).
Qed.

(** *** The owner's steps *)

Lemma idle_lookup hs i t : forallb no_thread hs = true → hs !! i ≠ Some (Owns t).
Proof. rewrite List.forallb_forall. intros H Hi%list_elem_of_lookup_2%list_elem_of_In%H. done. Qed.

(** With no handle of a thread, no thread runs. *)
Lemma idle_no_thread cl D k o t :
  knows cl D k o → forallb no_thread (k_handles k) = true → o_threads o !! t ≠ Some true.
Proof. intros H Hi Ht. by rewrite (running_owned _ _ _ _ _ H Ht) in Hi. Qed.

(** Handles are let go of: none is made, and those of running threads stay. *)
Lemma knows_handles cl D k o hs :
  knows cl D k o →
  (∀ i t, hs !! i = Some (Owns t) → o_handles o !! i = Some (Owns t)) →
  (∀ i t, o_handles o !! i = Some (Owns t) → o_threads o !! t = Some true → hs !! i = Some (Owns t)) →
  knows cl D (mkKnown (k_alive k) (k_started k) (k_handler k) hs (k_signalled k) (k_stop k) (k_listen k) (k_quiet k) (k_spawned k))
    (set_handles hs o).
Proof.
  intros [? ? ? Hhs ? ? ? ? Hown Hmade Hone Hus Hq] Hsub Hkeep.
  assert (forallb no_thread (k_handles k) = true → forallb no_thread hs = true) as Hidle.
  { intros Hi. apply List.forallb_forall. intros h [i Hh]%list_elem_of_In%list_elem_of_lookup_1.
    destruct h as [|t]; [done|]. apply Hsub in Hh. rewrite Hhs in Hh. by apply idle_lookup in Hh. }
  constructor; cbn; try done.
  - intros t Ht. destruct (Hown t Ht) as [i Hi]. exists i. by apply Hkeep.
  - intros i t Hi. by eapply Hmade, Hsub.
  - intros i j t Hi Hj. by eapply Hone; apply Hsub.
  - intros Hn. apply Hus. destruct (forallb no_thread (k_handles k)); [by rewrite Hidle in Hn|done].
  - intros Hk. destruct (Hq Hk) as [? Hi]. split; [done|]. intros Hc. by apply Hidle, Hi.
Qed.

(** A thread is started at the place [p], which had none. *)
Lemma knows_spawn cl D k o hs p :
  knows cl D k o → k_alive k = true → k_stop k = true → (c_listens cl = true → k_listen k = true) →
  (c_handler cl = true → k_handler k = true) →
  hs !! p = Some (Owns (length (o_threads o))) →
  (∀ i, i ≠ p → hs !! i = o_handles o !! i) → (∀ t, o_handles o !! p ≠ Some (Owns t)) →
  knows cl D (mkKnown true (k_started k) (k_handler k) hs (k_signalled k) (k_stop k) (k_listen k)
                (k_quiet k && negb (c_accepts cl)) (S (k_spawned k)))
    (set_threads (o_threads o ++ [true]) (set_handles hs o)).
Proof.
  intros [? ? ? Hhs Hn ? ? ? Hown Hmade Hone Hus Hq] Ha Hs Hl Hh Hp Hne Hfree.
  constructor; cbn; try done.
  - congruence.
  - rewrite length_app. cbn. lia.
  - intros t Ht. destruct (decide (t = length (o_threads o))) as [->|Hlt]; [by exists p|].
    apply lookup_app_Some in Ht as [Ht|[? Ht]].
    + destruct (Hown t Ht) as [i Hi]. exists i. rewrite Hne; [done|]. intros ->. by apply Hfree in Hi.
    + apply list_lookup_singleton_Some in Ht as [? _]. lia.
  - intros i t Hi. rewrite length_app. cbn. destruct (decide (i = p)) as [->|Hip].
    + assert (t = length (o_threads o)) as -> by congruence. lia.
    + rewrite Hne in Hi by done. apply Hmade in Hi. lia.
  - assert (∀ i t, i ≠ p → hs !! i = Some (Owns t) → (t < length (o_threads o))%nat) as Hold
      by (intros i t Hip Hi; rewrite Hne in Hi by done; by eapply Hmade).
    intros i j t Hi Hj. destruct (decide (i = p)) as [->|Hip], (decide (j = p)) as [->|Hjp]; [done|..].
    + apply Hold in Hj; [|done]. assert (t = length (o_threads o)) as -> by congruence. lia.
    + apply Hold in Hi; [|done]. assert (t = length (o_threads o)) as -> by congruence. lia.
    + rewrite Hne in Hi, Hj by done. by eapply Hone.
  - intros [Hk Hc%negb_true_iff]%andb_true_iff. destruct (Hq Hk) as [? _]. split; [done|congruence].
Qed.

(** An idle object closes one of its two descriptors. *)
Lemma knows_close cl D k o fd so li :
  knows cl D k o → fd ∈ o_open o → fd = o_stop_fd o ∨ fd = o_listen_fd o →
  forallb no_thread (k_handles k) = true →
  so = bool_decide (o_stop_fd o ∈ o_open o ∖ {[fd]}) → li = bool_decide (o_listen_fd o ∈ o_open o ∖ {[fd]}) →
  ∃ o', close_fd fd (o_client_fd o) o = Next o' ∧
    knows cl D (mkKnown (k_alive k) (k_started k) (k_handler k) (k_handles k) (k_signalled k) so li (k_quiet k) (k_spawned k)) o'.
Proof.
  intros [? ? ? ? ? ? Hks Hkl ? ? ? ? Hq Hcl ? Hpos Hoth] Hin Hfd Hidle -> ->.
  unfold close_fd. rewrite (proj2 (Z.ltb_ge _ _) (Hpos _ Hin)), decide_True by done. eexists. split; [done|].
  constructor; cbn; try done.
  - by rewrite Hidle.
  - intros Hc. destruct (Hcl Hc) as (? & ? & ? & ?). split_and!; [|done..].
    apply elem_of_difference. split; [done|]. intros E%elem_of_singleton. destruct Hfd; congruence.
  - intros fd' Hfd'. apply Hpos. set_solver.
  - intros fd' Hfs Hfl Hfc. rewrite <- (Hoth fd') by done. set_solver.
Qed.

Lemma eventfd_add_pos count : 0 <= count → 0 < eventfd_add count.
Proof. unfold eventfd_add. intros. case_match eqn:E; [lia|]. apply Z.leb_gt in E. lia. Qed.

(** The step the owner knows of is the step it makes, or it waits for a thread that has
    been told to stop and can make it once that thread has returned. *)
Definition follows (cl : Class) (D : gset Z) (ok : bool) (k : Known) (o : Obj) (code : list (list act)) : Prop :=
  ∀ k' code', know cl ok code k = Some (k', code') →
  (∃ o', owner_step ok code o = Next (o', code') ∧ knows cl D k' o') ∨
  owner_step ok code o = Disabled ∧ k_signalled k = true ∧
  ∃ t o', o_threads o !! t = Some true ∧
    owner_step ok code (set_threads (<[t := false]> (o_threads o)) o) = Next (o', code').

Section Acts.
Context (cl : Class) (D : gset Z) (ok st h sg so li q : bool) (hs : list Handle) (n : nat).
Context (o : Obj) (c : list act) (fs : list (list act)).
Let k : Known := mkKnown true st h hs sg so li q n.
Hypothesis H : knows cl D k o.

Let follow (a : act) : Prop := follows cl D ok k o ((a :: c) :: fs).

Ltac act_start :=
  unfold follow, follows, k; intros k' code'; cbn -[close_fd];
  rewrite (kn_alive _ _ _ _ H), ?(kn_started _ _ _ _ H), ?(kn_handler _ _ _ _ H), ?(kn_handles _ _ _ _ H); cbn -[close_fd].

Lemma follow_spawn a : a = Assign ∨ a = Emplace → follow a.
Proof using H.
  intros Ha.
  assert (so && (negb (c_listens cl) || li) && (negb (c_handler cl) || h) = true →
          so = true ∧ (c_listens cl = true → li = true) ∧ (c_handler cl = true → h = true)) as Hready.
  { destruct so, li, h, (c_listens cl), (c_handler cl); done. }
  destruct Ha as [->| ->]; act_start; (destruct ok; [|intros [= <- <-]; left; by eexists]); cbn.
  1: destruct hs as [|[|t] hs'] eqn:Ehs; [done| |done].
  all: destruct (so && _ && _); [|done]; destruct (Hready eq_refl) as (Hs & Hl & Hh); intros [= <- <-];
    left; eexists; (split; [done|]); rewrite (kn_spawned _ _ _ _ H).
  - by eapply (knows_spawn _ _ _ _ (_ :: _) 0 H); rewrite ?(kn_handles _ _ _ _ H), ?(kn_spawned _ _ _ _ H); try done; intros [|i].
  - eapply (knows_spawn _ _ _ _ _ (length hs) H); rewrite ?(kn_handles _ _ _ _ H), ?(kn_spawned _ _ _ _ H); try done; cbn.
    + by rewrite list_lookup_middle.
    + intros i Hi. destruct (decide (i < length hs)%nat); [by rewrite lookup_app_l|].
      rewrite !lookup_ge_None_2; [done|lia|rewrite length_app; cbn; lia].
    + intros t. by rewrite lookup_ge_None_2 by lia.
Qed.

Lemma follow_join i : follow (Join i).
Proof using H.
  act_start. destruct (hs !! i) as [[|t]|] eqn:Hi; [done| |done]. destruct sg eqn:Hsg; [|done]. intros [= <- <-].
  destruct (o_threads o !! t) as [[]|] eqn:Ht.
  { right. split_and!; [done..|]. eexists t, _. split; [done|].
    rewrite list_lookup_insert_eq by by eapply lookup_lt_Some. done. }
  all: left; eexists; (split; [done|]); eapply (knows_handles _ _ _ _ _ H); rewrite (kn_handles _ _ _ _ H); cbn.
  all: intros j t' Hj; destruct (decide (i = j)) as [<-|Hij].
  all: rewrite ?list_lookup_insert_ne in * by done; try done; try congruence.
  all: apply list_lookup_insert_Some in Hj as [[_ [? _]]|[? _]]; done.
Qed.

Lemma follow_close a : a = CloseListen ∨ a = CloseStop → follow a.
Proof using H.
  pose proof (kn_own _ _ _ _ H) as (_ & _ & Hne & _).
  pose proof (kn_stop _ _ _ _ H : so = _) as Hso. pose proof (kn_listen _ _ _ _ H : li = _) as Hli.
  intros [->| ->]; act_start; destruct (forallb no_thread hs) eqn:Hidle; rewrite ?andb_false_r, ?andb_true_r; try done.
  all: intros E; case_match; [|done]; injection E as <- <-; left.
  - destruct (knows_close cl D k o (o_listen_fd o) so false H) as (o' & -> & H'); [|by right|done|..].
    + by eapply bool_decide_eq_true.
    + rewrite Hso. apply bool_decide_ext. set_solver.
    + symmetry. apply bool_decide_eq_false. set_solver.
    + by eexists.
  - destruct (knows_close cl D k o (o_stop_fd o) false li H) as (o' & -> & H'); [|by left|done|..].
    + by eapply bool_decide_eq_true.
    + symmetry. apply bool_decide_eq_false. set_solver.
    + rewrite Hli. apply bool_decide_ext. set_solver.
    + by eexists.
Qed.

Lemma follow_flags a :
  match a with SetHandler | SetStarted _ | WriteStop | CloseFeed | Release => True | _ => False end → follow a.
Proof using H.
  destruct (kn_count _ _ _ _ H) as [Hc0 Hcs]. cbn in Hcs. pose proof (eventfd_add_pos _ Hc0).
  destruct a as [|  |b| | | | | | | | | | | |]; try done; intros _; act_start.
  - intros [= <- <-]. left. eexists. split; [done|]. by apply (knows_flags _ _ _ _ true st true _ _ sg H).
  - intros [= <- <-]. left. eexists. split; [done|]. by apply (knows_flags _ _ _ _ true b h _ _ sg H).
  - pose proof (kn_stop _ _ _ _ H : so = _) as Hso. destruct so; [|done]. intros [= <- <-]. left.
    rewrite decide_True by by eapply bool_decide_eq_true. eexists. split; [done|].
    by apply (knows_flags _ _ _ _ true st h _ _ true H); [|lia|..].
  - intros [= <- <-]. left. eexists. split; [done|]. by apply (knows_flags _ _ _ _ true st h _ _ sg H).
  - destruct (forallb no_thread hs) eqn:Hidle; [|done]. intros [= <- <-]. left. eexists. split; [done|].
    by apply (knows_flags _ _ _ _ false st h _ _ sg H).
Qed.

Lemma follow_clear : follow Clear.
Proof using H.
  act_start. destruct (forallb no_thread hs) eqn:Hidle; [|done]. intros [= <- <-]. left. eexists. split; [done|].
  eapply (knows_handles _ _ _ _ [] H); [done|]. rewrite (kn_handles _ _ _ _ H). intros i t Hi. by apply idle_lookup in Hi.
Qed.

Lemma follow_drop : follow DropClient.
Proof using H.
  act_start. destruct (forallb no_thread hs) eqn:Hidle; [|done]. intros [= <- <-]. left.
  destruct (knows_drop _ _ _ _ H) as (o' & -> & Hneg & H'). eexists. split; [done|]. destruct H'. by constructor.
Qed.

Lemma follow_act a : follow a.
Proof using H.
  destruct a; auto using follow_spawn, follow_join, follow_close, follow_clear, follow_drop.
  all: try (by apply follow_flags). all: act_start; intros [= <- <-]; left; by eexists.
Qed.
End Acts.

Lemma owner_knows cl D ok k o code : knows cl D k o → follows cl D ok k o code.
Proof.
  intros H. destruct code as [|[|a c] fs]; [done|intros k' code' [= <- <-]; left; by eexists|].
  destruct k as [[] st h hs sg so li q n]; [by apply follow_act|done].
Qed.

(** ** Every call gets through *)

Lemma through_one cl code k k' code' :
  (∀ ok, know cl ok code k = Some (k', code')) → gets_through cl code' k' → gets_through cl code k.
Proof. intros Hk Ht. by apply (through_step cl code k (λ _, (k', code'))). Qed.

(** A thread is created, or the call is left by an exception. *)
Lemma through_spawn cl code k k1 code1 code2 :
  know cl true code k = Some (k1, code1) → know cl false code k = Some (k, code2) →
  gets_through cl code1 k1 → gets_through cl code2 k → gets_through cl code k.
Proof.
  intros H1 H2 T1 T2. apply (through_step cl code k (λ ok, if ok then (k1, code1) else (k, code2))); by intros [].
Qed.

(** Between two calls. *)
Definition between (kd : Kind) (k : Known) : Prop :=
  let cl := class_of kd in
  k_alive k = true ∧ k_stop k = true ∧ k_listen k = c_listens cl ∧ (c_accepts cl = false → k_quiet k = true) ∧
  (k_started k = false → k_handles k = c_handles cl) ∧
  match kd with KRingIngest _ => True | _ => length (k_handles k) = 1%nat end.

Ltac one := eapply through_one; [intros ?; reflexivity|]; cbn.

(** The loop over the threads joins every one from the [i]-th. *)
Lemma through_joins cl st h so li q n c fs done_ hs :
  (∀ hs', length hs' = length (done_ ++ hs) → forallb no_thread hs' = forallb no_thread done_ →
     gets_through cl (c :: fs) (mkKnown true st h hs' true so li q n)) →
  gets_through cl ((JoinFrom (length done_) :: c) :: fs) (mkKnown true st h (done_ ++ hs) true so li q n).
Proof.
  revert done_. induction hs as [|x hs IH]; intros l Hrest; one.
  - rewrite decide_False by (rewrite app_nil_r; lia). apply Hrest; rewrite ?app_nil_r; done.
  - rewrite decide_True by (rewrite length_app; cbn; lia).
    assert (length (l ++ [NoThread]) = S (length l)) as El by (rewrite length_app; cbn; lia).
    specialize (IH (l ++ [NoThread])). rewrite El, <- app_assoc in IH. cbn in IH.
    assert (gets_through cl ((JoinFrom (S (length l)) :: c) :: fs) (mkKnown true st h (l ++ NoThread :: hs) true so li q n)) as IH'.
    { apply IH. intros hs' Hl Hi. apply Hrest; [rewrite Hl, !length_app; done|].
      rewrite Hi, List.forallb_app. cbn. by rewrite andb_true_r. }
    one. rewrite list_lookup_middle by done. destruct x as [|t]; [done|].
    eapply through_one; [intros ok; cbn; by rewrite list_lookup_middle|]. cbn.
    rewrite insert_app_r_alt, Nat.sub_diag by lia. exact IH'.
Qed.

(** [stop] leaves the object idle, wherever it was. *)
Lemma through_stop kd k fs :
  between kd k → (∀ k', between kd k' → k_started k' = false → gets_through (class_of kd) fs k') →
  gets_through (class_of kd) (c_stop (class_of kd) :: fs) k.
Proof.
  destruct k as [al st h hs sg so li q n]. intros (Ha & Hs & Hl & Hq & Hi & H1) Hrest. cbn in *. subst al so li.
  assert (st = false → gets_through (class_of kd) fs (mkKnown true st h hs sg true (c_listens (class_of kd)) q n)) as Hidle
    by (intros; by apply Hrest).
  assert (∀ hs', hs' = c_handles (class_of kd) →
    gets_through (class_of kd) fs (mkKnown true false h hs' true true (c_listens (class_of kd)) q n)) as Hjoined.
  { intros hs' ->. apply Hrest; [|done]. split_and!; try done. by destruct kd. }
  destruct kd as [|m| |]; cbn in *; one.
  all: destruct st; cbn; [|by apply Hidle].
  all: one.
  2: { apply (through_joins _ _ _ _ _ _ _ _ _ [] hs). intros hs' _ Hn.
       eapply through_one; [intros ok; cbn; by rewrite Hn|]. one. one. by apply Hjoined. }
  all: destruct hs as [|x [|? ?]]; try done; destruct x as [|t]; repeat one; by apply Hjoined.
Qed.

(** The threads of the ring ingest, one after the other, or those before an exception. *)
Lemma through_emplaces cl fs st h sg li q m hs n :
  c_listens cl = false → c_handler cl = false → c_accepts cl = false →
  (∀ hs' n', gets_through cl fs (mkKnown true st h hs' sg true li q n')) →
  gets_through cl (replicate m Emplace :: fs) (mkKnown true st h hs sg true li q n).
Proof.
  intros Hl Hh Ha Hrest. revert hs n. induction m as [|m IH]; intros hs n; cbn; [one; apply Hrest|].
  eapply through_spawn; [cbn; by rewrite Hl, Hh, Ha|reflexivity| |apply Hrest]. cbn. rewrite andb_true_r. apply IH.
Qed.

(** [start], whether or not the threads can be created. *)
Lemma through_start kd k fs :
  between kd k → (∀ k', between kd k' → gets_through (class_of kd) fs k') →
  gets_through (class_of kd) (c_start (class_of kd) :: fs) k.
Proof.
  destruct k as [al st h hs sg so li q n]. intros (Ha & Hs & Hl & Hq & Hi & H1) Hrest. cbn in *. subst al so li.
  destruct kd as [|m| |]; cbn in *; one.
  all: destruct st; cbn; [by apply Hrest|].
  all: specialize (Hi eq_refl); subst hs.
  2: { one. apply through_emplaces; try done. intros hs' n'. by apply Hrest; split_and!. }
  all: one; try one; eapply through_spawn; [reflexivity..|one|]; apply Hrest; split_and!; cbn; rewrite ?andb_true_r; done.
Qed.

(** The destructor after its [stop]. *)
Lemma through_rest kd k :
  between kd k → k_started k = false → gets_through (class_of kd) [c_rest (class_of kd)] k.
Proof.
  destruct k as [al st h hs sg so li q n]. intros (Ha & Hs & Hl & Hq & Hi & H1) Hst. cbn in *. subst al so li st.
  rewrite (Hi eq_refl). destruct kd; cbn in *; repeat one; by apply through_end; repeat split; auto.
Qed.

Lemma through_program kd calls k : between kd k → gets_through (class_of kd) (owner_code (class_of kd) calls) k.
Proof.
  unfold owner_code. revert k. induction calls as [|[] calls IH]; intros k Hk; cbn.
  - apply through_stop; [done|]. apply through_rest.
  - by apply through_start.
  - apply through_stop; [done|]. intros k' Hk' _. by apply IH.
Qed.

(** ** The whole life of an object *)

(** The descriptors [create] was given are its own. *)
Definition fresh (D : gset Z) (stop_fd listen_fd : Z) : Prop :=
  0 <= stop_fd ∧ 0 <= listen_fd ∧ stop_fd ≠ listen_fd ∧ stop_fd ∉ D ∧ listen_fd ∉ D ∧ (∀ fd, fd ∈ D → 0 <= fd).

Definition known_at_first (cl : Class) : Known := mkKnown true false false (c_handles cl) false true (c_listens cl) true 0.

Lemma make_obj_known kd D stop_fd listen_fd :
  let cl := class_of kd in
  fresh D stop_fd listen_fd → knows cl D (known_at_first cl) (make_obj cl stop_fd listen_fd D).
Proof.
  intros cl (Hs & Hl & Hne & HsD & HlD & HD). assert (-1 ∉ D) by (intros ?%HD; lia).
  assert (forallb no_thread (c_handles cl) = true) as Hidle by by destruct kd.
  constructor; cbn; try done.
  - symmetry. apply bool_decide_eq_true. set_solver.
  - symmetry. destruct (c_listens cl); [apply bool_decide_eq_true; set_solver|].
    apply bool_decide_eq_false. rewrite !elem_of_union, elem_of_singleton. set_solver by lia.
  - intros i t Hi. by apply idle_lookup in Hi.
  - intros i j t Hi. by apply idle_lookup in Hi.
  - by rewrite Hidle.
  - destruct (c_listens cl); split_and!; done || lia.
  - intros fd. destruct (c_listens cl); rewrite !elem_of_union, !elem_of_singleton; intros [[->|Hfd]|Hfd]; (by apply HD) || set_solver.
  - intros fd Hfs Hfl _. destruct (c_listens cl); set_solver.
Qed.

(** Along every run of a lone owner, the object is as the owner knows it. *)
Lemma run_known cl D es code k o :
  knows cl D k o → gets_through cl code k →
  (∀ f, run_life cl es (o, [code]) ≠ Faulted f) ∧
  ∀ s, run_life cl es (o, [code]) = Next s →
    ∃ o' code' k', s = (o', [code']) ∧ knows cl D k' o' ∧ gets_through cl code' k'.
Proof.
  revert code k o. induction es as [|e es IH]; intros code k o H Ht; cbn; [split; [done|intros s [= <-]; by eexists _, _, _]|].
  destruct e as [[|j] ok|t w]; cbn.
  - inversion Ht as [k0 Hg|code0 k0 r Hr Hrest]; subst; [done|].
    specialize (Hr ok). specialize (Hrest ok). destruct (r ok) as [k' code'].
    destruct (owner_knows _ _ ok _ _ _ H _ _ Hr) as [(o' & -> & H')|(-> & _)]; [|done]. by apply (IH _ k').
  - done.
  - destruct (thread_knows _ _ _ _ t w H) as [->|(o' & -> & H')]; [done|]. by apply (IH _ k).
Qed.

(** From wherever it is, the owner can come to its end. *)
Lemma owner_finishes cl D code k o :
  gets_through cl code k → knows cl D k o →
  ∃ es o' k', run_life cl es (o, [code]) = Next (o', [[]]) ∧ knows cl D k' o' ∧ all_gone cl k'.
Proof.
  intros Ht. revert o. induction Ht as [k Hg|code k r Hr _ IH]; intros o H; [by exists [], o, k|].
  specialize (Hr true). specialize (IH true). destruct (r true) as [k' code'].
  destruct (owner_knows _ _ true _ _ _ H _ _ Hr) as [(o' & E & H')|(_ & Hsg & t & o' & Hrun & E)].
  - destruct (IH o' H') as (es & o2 & k2 & E2 & ?). exists (ByOwner 0 true :: es), o2, k2.
    split; [|done]. cbn. by rewrite E.
  - pose proof (knows_return _ _ _ _ t H) as H1.
    destruct (owner_knows _ _ true _ _ _ H1 _ _ Hr) as [(o1 & E1 & H')|(E1 & _)]; [|congruence].
    destruct (IH o1 H') as (es & o2 & k2 & E2 & ?). exists (ByThread t Return :: ByOwner 0 true :: es), o2, k2.
    split; [|done]. cbn. rewrite (told_thread_returns _ _ _ _ _ H Hsg Hrun). cbn. by rewrite E1.
Qed.

(** At its end nothing is left. *)
Lemma all_gone_nothing_left cl D k o :
  knows cl D k o → all_gone cl k → o_alive o = false ∧ Forall (eq false) (o_threads o) ∧ o_open o = D.
Proof.
  intros H (Ha & Hs & Hl & Hq & Hi). split_and!.
  - by rewrite (kn_alive _ _ _ _ H).
  - apply Forall_lookup. intros t [] Ht; [|done]. by apply (idle_no_thread _ _ _ _ t H) in Hi.
  - rewrite (kn_stop _ _ _ _ H) in Hs. rewrite (kn_listen _ _ _ _ H) in Hl.
    apply bool_decide_eq_false in Hs, Hl. destruct (kn_quiet _ _ _ _ H Hq) as [Hc _].
    destruct (kn_own _ _ _ _ H) as (HsD & HlD & _). apply set_eq. intros fd.
    destruct (decide (fd = o_stop_fd o)) as [->|]; [done|]. destruct (decide (fd = o_listen_fd o)) as [->|]; [done|].
    apply (kn_others _ _ _ _ H); [done..|lia].
Qed.

Lemma others_open cl D k o : knows cl D k o → D ⊆ o_open o.
Proof.
  intros H fd Hfd. destruct (kn_own _ _ _ _ H) as (HsD & HlD & _).
  apply (kn_others _ _ _ _ H); [congruence..| |done]. intros Hc ->. by apply (kn_client _ _ _ _ H).
Qed.

(** C32. The owners and their threads never go wrong. Let a program call [start] and [stop]
    of a fan-out, a ring ingest, an egress or a page server in any order, any number of
    times, one call after the other, and then destroy it; let threads fail to be created
    wherever that can happen, and let those that run do so at any pace between any two of
    the owner's actions. No [std::thread] is assigned over or destroyed while it can be
    joined, none is joined twice, no descriptor is used or closed when it is not open, no
    thread uses an object that is gone or a handler that is not set, and no descriptor of
    others is closed. The owner can always come to its end, and at its end none of its
    threads runs and the open descriptors are those from before it was created. *)
Theorem lifecycle_sound kd calls D stop_fd listen_fd es :
  fresh D stop_fd listen_fd →
  let cl := class_of kd in
  let s := (make_obj cl stop_fd listen_fd D, [owner_code cl calls]) in
  (∀ f, run_life cl es s ≠ Faulted f) ∧
  ∀ o codes, run_life cl es s = Next (o, codes) →
    D ⊆ o_open o ∧
    (∃ es' o', run_life cl es' (o, codes) = Next (o', [[]])) ∧
    (codes = [[]] → o_alive o = false ∧ Forall (eq false) (o_threads o) ∧ o_open o = D).
Proof.
  intros HD cl s.
  destruct (run_known cl D es (owner_code cl calls) (known_at_first cl) (make_obj cl stop_fd listen_fd D)) as [Hf Hn].
  { by apply make_obj_known. }
  { apply through_program. by destruct kd. }
  split; [done|]. intros o codes (o' & code & k & [= <- ->] & H & Ht)%Hn. split_and!.
  - by eapply others_open.
  - destruct (owner_finishes _ _ _ _ _ Ht H) as (es' & o1 & _ & E & _). by exists es', o1.
  - intros [= ->]. inversion Ht as [k0 Hg|? ? r Hr]; subst; [by eapply all_gone_nothing_left|by specialize (Hr true)].
Qed.

(** An egress that is started, serves a client, is stopped, restarted and destroyed. *)
Definition demo_life : list LifeEvent :=
  replicate 4 (ByOwner 0 true) ++ [ByThread 0 Turn; ByThread 0 (Accept 9); ByThread 0 Turn]
  ++ replicate 4 (ByOwner 0 true) ++ [ByThread 0 Turn; ByThread 0 Drop; ByThread 0 (Accept 12); ByThread 0 Return] ++ replicate 3 (ByOwner 0 true)
  ++ replicate 4 (ByOwner 0 true) ++ replicate 4 (ByOwner 0 true) ++ [ByThread 1 Return]
  ++ replicate 8 (ByOwner 0 true).

Lemma lifecycle_sound_witness :
  ∃ o, run_life (class_of KEgress) demo_life
         (make_obj (class_of KEgress) 7 8 {[0; 1; 2]}, [owner_code (class_of KEgress) [CallStart; CallStop; CallStart]])
       = Next (o, [[]]) ∧ o_threads o = [false; false] ∧ o_open o = {[0; 1; 2]}.
Proof.
  eexists. split; [vm_compute; reflexivity|]. split; [done|].
  eapply (lifecycle_sound KEgress [CallStart; CallStop; CallStart] {[0; 1; 2]} 7 8 demo_life);
    [|vm_compute; reflexivity|done].
  split_and!; try done; try set_solver. intros fd. rewrite !elem_of_union, !elem_of_singleton. lia.
Defined.

(** Two threads that call [stop] of one fan-out at the same time: both find its thread
    joinable, and the second joins a thread that has been joined. *)
Definition two_stops : list LifeEvent :=
  [ByOwner 0 true; ByOwner 0 true; ByOwner 0 true;
   ByOwner 1 true; ByOwner 1 true; ByOwner 1 true;
   ByThread 0 Return; ByOwner 0 true; ByOwner 1 true].

Theorem overlapping_stops_fault :
  ∃ o, run_life (class_of KFanOut) (replicate 4 (ByOwner 0 true)) (make_obj (class_of KFanOut) 7 8 ∅, [[fan_start]])
       = Next (o, [[]]) ∧
       run_life (class_of KFanOut) two_stops (o, [[fan_stop]; [fan_stop]]) = Faulted NotJoinable.
Proof. eexists. split; [vm_compute; reflexivity|]. vm_compute. reflexivity. Qed.
