(* ===== verification/GatewayMain.v ===== *)
(** * GatewayMain: the gateway process (src/src/main.cpp)

    From the command line to the exit status: the sources are opened, the consumers'
    listeners created, the queues or the ring and the ingest wired between them; clients
    come and go; at the end, and on every failure on the way, the destructors run in the
    reverse order of construction. [main] has no exception handler: when the memory of the
    queues or of the ring, or a thread, cannot be had, the process is terminated. The kernel
    is that of [Platform]; what the threads do with the frames is the subject of the other
    files, and smaller allocations are taken to succeed. *)

From Stdlib Require Import Ascii String.
From S2P Require Import Prelude Text Options Platform Frame Wire BoundedQueue BroadcastRing Feed Egress EgressStream Sources Ingest.

(** An open source: its state and its descriptor. *)
Record OpenSource := mkOpen { o_state : Can.t + Synth.t; o_fd : Z }.

(** An egress: name, listener, thread state, and the descriptor of its client. *)
Record Server := mkServer { e_name : list ascii; e_listener : Listener; e_state : Egress; e_client : option Z }.

(** The ingest: queues under a fan-out, or the ring. *)
Inductive IngestSide :=
  | WithQueues (fan : FanOut.t (Can.t + Synth.t))
  | WithRing (ingest : RingIngest.t (Can.t + Synth.t)).

Record System := mkSystem {
  sy_sources : list OpenSource;
  sy_egresses : list Server;
  sy_ingest : IngestSide;
  sy_stop_fd : Z
}.

Definition egress_tuning (t : Gateway.Tuning) : Egress.Tuning :=
  mkTuning (Gateway.max_frames t) (Gateway.linger_us t) (Gateway.echo_ms t).

(** What each object closes when it is destroyed, in order. *)
Definition source_fds (ss : list OpenSource) : list Z := map o_fd ss.

Definition server_fds (e : Server) : list Z :=
  option_list (e_client e) ++ [l_listen_fd (e_listener e); l_stop_fd (e_listener e)].

Definition egress_fds (es : list Server) : list Z := concat (map server_fds es).

Fixpoint close_all (fds : list Z) : Sys unit :=
  match fds with
  | [] => mret tt
  | fd :: fds => sys_close fd ≫= λ _, close_all fds
  end.

(** The synthetic source's period: never 0. *)
Definition period_of (rate : Z) : Z :=
  let p := if rate =? 0 then 1000000 else 1000000000 / rate in
  if p =? 0 then 1 else p.

Definition synth_config (src_id rate : Z) : Synth.Config :=
  Synth.mkConfig src_id (period_of rate) 1 [256; 512; 768].

Section Main.
Context (alloc : gset Z → Z) (strerror : Z → list ascii).

Definition open_source (spec : list ascii) (src_id rate : Z) : Sys (list ascii + OpenSource) :=
  if starts_with (text "can:") spec then
    r ← CanSource_open alloc strerror (drop 4 spec) true;
    mret (match r with inl e => inl e | inr fd => inr (mkOpen (inl (Can.make src_id)) fd) end)
  else if bool_decide (spec = text "synth") then
    let cfg := synth_config src_id rate in
    r ← SyntheticSource_open alloc strerror (Synth.can_ids cfg) (Synth.period_ns cfg) (Synth.frames_per_tick cfg);
    mret (match r with inl e => inl e | inr fd => inr (mkOpen (inr (Synth.make cfg)) fd) end)
  else mret (inl (text "unknown source: " ++ spec)).

(** The loop over the source specifications; [None] is the exit with status 1, after the
    sources opened so far have been destroyed. *)
Fixpoint open_sources (opened : list OpenSource) (specs : list (list ascii)) (rate : Z)
  : Sys (option (list OpenSource)) :=
  match specs with
  | [] => mret (Some opened)
  | spec :: specs =>
      r ← open_source spec (u8 (Z.of_nat (length opened))) rate;
      match r with
      | inl _ => close_all (source_fds opened) ≫= λ _, mret None
      | inr s => open_sources (opened ++ [s]) specs rate
      end
  end.

Fixpoint create_egresses (created : list Server) (specs : list Gateway.ConsumerSpec) (t : Gateway.Tuning)
  : Sys (option (list Server)) :=
  match specs with
  | [] => mret (Some created)
  | c :: specs =>
      r ← Egress_create alloc strerror (Gateway.c_port c) (Gateway.max_frames t);
      match r with
      | inl _ => close_all (egress_fds created) ≫= λ _, mret None
      | inr l => create_egresses (created ++ [mkServer (Gateway.c_name c) l (make_egress (egress_tuning t)) None])
                   specs t
      end
  end.

(** The frame path between the sources and the egresses: one queue per consumer and one
    for the tap, or the ring. *)
Definition sink_count (c : Gateway.Config) : nat :=
  length (Gateway.consumers c) + (if Gateway.tap c then 1 else 0).

Definition uses_ring (c : Gateway.Config) : bool := bool_decide (Gateway.topology c = text "ring").

(** [sizeof(Frame)] and [sizeof(Cell)]. *)
Definition kFrameSize : Z := 40.
Definition kCellSize : Z := 64.

(** The constructors of the queues, one after the other. *)
Fixpoint make_queues (n : nat) (capacity : Z) : Sys bool :=
  match n with
  | O => mret true
  | S n =>
      ok ← sys_vector (if capacity =? 0 then 1 else capacity) kFrameSize;
      if ok : bool then make_queues n capacity else mret false
  end.

(** The ring's constructor may not return, and both may throw. *)
Inductive Path := Loops | Throws | Built (side : IngestSide).

Definition make_path (c : Gateway.Config) (ss : list OpenSource) : Sys Path :=
  if uses_ring c then
    match make_ring (Gateway.capacity c) with
    | None => mret Loops
    | Some r =>
        ok ← sys_vector (ring_capacity r) kCellSize;
        mret (if ok : bool then Built (WithRing (RingIngest.make (map o_state ss) r)) else Throws)
    end
  else
    ok ← make_queues (sink_count c) (Gateway.capacity c);
    mret (if ok : bool
          then Built (WithQueues (FanOut.make (map o_state ss)
                 (map make_queue (replicate (sink_count c) (Gateway.capacity c)))))
          else Throws).

Definition create_ingest (c : Gateway.Config) (sources : nat) : Sys (list ascii + Z) :=
  if uses_ring c then RingIngest_create alloc strerror sources
  else FanOut_create alloc strerror sources (sink_count c).

(** The [start] of every egress and of the ingest: one thread each, or one per source. *)
Definition thread_count (c : Gateway.Config) : nat :=
  length (Gateway.consumers c) + (if uses_ring c then length (Gateway.sources c) else 1).

Fixpoint start_threads (n : nat) : Sys bool :=
  match n with
  | O => mret true
  | S n => ok ← sys_thread; if ok : bool then start_threads n else mret false
  end.

(** How [main] got through its set-up: [Failed] is the exit with status 1, [Stuck] a
    constructor that does not return, [Died] an exception. *)
Inductive Started := Failed | Stuck | Died | Up (sy : System).

(** Everything up to the loop of [main]. *)
Definition setup (c : Gateway.Config) : Sys Started :=
  ss ← open_sources [] (Gateway.sources c) (Gateway.rate c);
  match ss with
  | None => mret Failed
  | Some ss =>
      path ← make_path c ss;
      match path with
      | Loops => mret Stuck
      | Throws => mret Died
      | Built side =>
          es ← create_egresses [] (Gateway.consumers c) (Gateway.tuning c);
          match es with
          | None => close_all (source_fds ss) ≫= λ _, mret Failed
          | Some es =>
              r ← create_ingest c (length ss);
              match r with
              | inl _ => close_all (egress_fds es) ≫= λ _, close_all (source_fds ss) ≫= λ _, mret Failed
              | inr stop_fd =>
                  ok ← start_threads (thread_count c);
                  mret (if ok : bool then Up (mkSystem ss es side stop_fd) else Died)
              end
          end
      end
  end.

(** One event of a consumer's connection: a waiting egress accepts (and asks for a
    smaller send buffer), one that has a client drops it. *)
Definition client_event (e : Server) : Sys Server :=
  match e_client e with
  | Some fd => sys_close fd ≫= λ _, mret (mkServer (e_name e) (e_listener e) (e_state e) None)
  | None =>
      r ← accept_nonblocking alloc strerror (l_listen_fd (e_listener e));
      match r with
      | Accepted fd => sys_call ≫= λ _, mret (mkServer (e_name e) (e_listener e) (e_state e) (Some fd))
      | _ => mret e
      end
  end.

Fixpoint serve_clients (events : list nat) (es : list Server) : Sys (list Server) :=
  match events with
  | [] => mret es
  | i :: events =>
      match es !! i with
      | None => serve_clients events es
      | Some e => e' ← client_event e; serve_clients events (<[i := e']> es)
      end
  end.

(** The end of [main]: the ingest, the egresses and the sources are destroyed. *)
Definition tear_down (sy : System) : Sys unit :=
  sys_close (sy_stop_fd sy) ≫= λ _,
  close_all (egress_fds (sy_egresses sy)) ≫= λ _,
  close_all (source_fds (sy_sources sy)).

(** How the process ends: with an exit status, never, or in [std::terminate]. *)
Inductive Ending := Exits (n : Z) | Hangs | Aborts.

Definition run_gateway (c : Gateway.Config) (events : list nat) : Sys Ending :=
  r ← setup c;
  match r with
  | Failed => mret (Exits 1)
  | Stuck => mret Hangs
  | Died => mret Aborts
  | Up sy =>
      es ← serve_clients events (sy_egresses sy);
      tear_down (mkSystem (sy_sources sy) es (sy_ingest sy) (sy_stop_fd sy)) ≫= λ _, mret (Exits 0)
  end.

Definition main (args : list (list ascii)) (events : list nat) : Sys Ending :=
  match Gateway.options args with
  | Exit n => mret (Exits n)
  | Run c =>
      if Gateway.mlock c then
        m ← lock_memory strerror;
        match m with Some _ => mret (Exits 1) | None => run_gateway c events end
      else run_gateway c events
  end.
End Main.

(** ** Lists of owned descriptors *)

(** [E] is [D] and the descriptors of [l], all different and none of them in [D]. *)
Definition owned (D : gset Z) (l : list Z) (E : gset Z) : Prop :=
  E = D ∪ list_to_set l ∧ NoDup l ∧ ∀ fd, fd ∈ l → fd ∉ D.

Lemma owned_nil D : owned D [] D.
Proof. split; [set_solver|]. split; [constructor|]. by intros fd ?%not_elem_of_nil. Qed.

Lemma owned_nil_inv D E : owned D [] E → E = D.
Proof. intros [-> _]. set_solver. Qed.

Lemma owned_perm D l l' E : l ≡ₚ l' → owned D l E → owned D l' E.
Proof.
  intros Hp (-> & H1 & H2). split; [by rewrite (list_to_set_perm_L _ _ Hp)|].
  split; [by rewrite <- Hp|]. intros fd. rewrite <- Hp. apply H2.
Qed.

Lemma owned_new D l E fd : owned D l E → fd ∉ E → owned D (fd :: l) (E ∪ {[fd]}).
Proof.
  intros (-> & H1 & H2) Hn. split; [set_solver|]. split; [constructor; set_solver|].
  intros fd' [->|Hin]%elem_of_cons; [set_solver|auto].
Qed.

Lemma owned_snoc D l E fd : owned D l E → fd ∉ E → owned D (l ++ [fd]) (E ∪ {[fd]}).
Proof. intros Ho Hn. apply (owned_perm _ (fd :: l)); [by rewrite Permutation_app_comm|by apply owned_new]. Qed.

Lemma owned_listener D fds E l E' :
  owned D fds E → gives_listener E (inr l) E' → owned D (fds ++ [l_listen_fd l; l_stop_fd l]) E'.
Proof.
  intros Ho (H1 & H2 & H3 & ->).
  assert (owned D ((fds ++ [l_listen_fd l]) ++ [l_stop_fd l]) (E ∪ {[l_listen_fd l]} ∪ {[l_stop_fd l]})) as H.
  { apply owned_snoc; [by apply owned_snoc|set_solver]. }
  rewrite <- app_assoc in H. by rewrite <- union_assoc_L in H.
Qed.

(** The part of a list, over the rest. *)
Lemma owned_app D l1 l2 E : owned D (l1 ++ l2) E → ∃ M, owned D l2 M ∧ owned M l1 E.
Proof.
  intros (-> & H1 & H2). apply NoDup_app in H1 as (N1 & N2 & N3). exists (D ∪ list_to_set l2).
  split; (split; [|split]); [done|done|set_solver|set_solver|done|set_solver].
Qed.

Lemma holds_close_owned D fd l E : owned D (fd :: l) E → holds E (sys_close fd) (λ _, owned D l).
Proof.
  intros (-> & H1 & H2). apply NoDup_cons in H1 as [N1 N2].
  eapply holds_conseq; [apply holds_close; set_solver|]. intros [] E' ->.
  split; [|split; [done|set_solver]].
  assert (fd ∉ D) by (apply H2; left). set_solver.
Qed.

Lemma holds_close_all D l E : owned D l E → holds E (close_all l) (same D).
Proof.
  revert E. induction l as [|fd l IH]; intros E Ho; cbn [close_all].
  - apply owned_nil_inv in Ho as ->. by apply holds_ret.
  - eapply holds_bind; [by apply holds_close_owned|]. intros [] E' Ho'. by apply IH.
Qed.

Lemma close_all_then {A} D l E (k : unit → Sys A) Q :
  owned D l E → holds D (k tt) Q → holds E (close_all l ≫= k) Q.
Proof. intros Ho Hk. eapply holds_bind; [by apply holds_close_all|]. by intros [] E' ->. Qed.

Lemma egress_fds_app es es' : egress_fds (es ++ es') = egress_fds es ++ egress_fds es'.
Proof. unfold egress_fds. by rewrite map_app, concat_app. Qed.

Lemma egress_fds_at es i e :
  es !! i = Some e →
  ∃ rest, egress_fds es ≡ₚ server_fds e ++ rest ∧
          ∀ e', egress_fds (<[i := e']> es) ≡ₚ server_fds e' ++ rest.
Proof.
  intros Hi. exists (egress_fds (take i es) ++ egress_fds (drop (S i) es)).
  assert (∀ x, egress_fds (take i es) ++ server_fds x ++ egress_fds (drop (S i) es)
               ≡ₚ server_fds x ++ egress_fds (take i es) ++ egress_fds (drop (S i) es)) as Hp.
  { intros x. rewrite !app_assoc. f_equiv. apply Permutation_app_comm. }
  split.
  - rewrite <- (take_drop_middle es i e Hi) at 1. rewrite egress_fds_app.
    change (e :: drop (S i) es) with ([e] ++ drop (S i) es). rewrite egress_fds_app.
    unfold egress_fds at 2. cbn [map concat]. rewrite app_nil_r. apply Hp.
  - intros e'. rewrite insert_take_drop by (by eapply lookup_lt_Some). rewrite egress_fds_app.
    change (e' :: drop (S i) es) with ([e'] ++ drop (S i) es). rewrite egress_fds_app.
    unfold egress_fds at 2. cbn [map concat]. rewrite app_nil_r. apply Hp.
Qed.

(** ** The triples of [main] *)

Definition all_fds (sy : System) : list Z :=
  sy_stop_fd sy :: egress_fds (sy_egresses sy) ++ source_fds (sy_sources sy).

Section Triples.
Context (alloc : gset Z → Z) (strerror : Z → list ascii).
Context (alloc_new : ∀ X, alloc X ∉ X ∧ 0 <= alloc X).

Lemma holds_open_source D spec id rate :
  holds D (open_source alloc strerror spec id rate)
    (λ r D', match r with inl _ => D' = D | inr s => o_fd s ∉ D ∧ D' = D ∪ {[o_fd s]} end).
Proof.
  unfold open_source. case_match; [|case_match; [|by apply holds_ret]].
  - eapply holds_bind; [by apply holds_CanSource_open|]. intros [e|fd] D' HD; by apply holds_ret.
  - eapply holds_bind; [by apply holds_SyntheticSource_open|]. intros [e|fd] D' HD; by apply holds_ret.
Qed.

Lemma holds_open_sources D E opened specs rate :
  owned D (source_fds opened) E →
  holds E (open_sources alloc strerror opened specs rate)
    (λ r E', match r with None => E' = D | Some ss => owned D (source_fds ss) E' end).
Proof.
  revert E opened. induction specs as [|spec specs IH]; intros E opened Ho; cbn [open_sources];
    [by apply holds_ret|].
  eapply holds_bind; [apply holds_open_source|]. intros [e|s] E' H.
  - subst E'. apply (close_all_then D); [done|]. by apply holds_ret.
  - destruct H as [Hn ->]. apply IH. unfold source_fds. rewrite map_app. by apply owned_snoc.
Qed.

Lemma holds_create_egresses D E created specs t :
  owned D (egress_fds created) E →
  holds E (create_egresses alloc strerror created specs t)
    (λ r E', match r with None => E' = D | Some es => owned D (egress_fds es) E' end).
Proof.
  revert E created. induction specs as [|c specs IH]; intros E created Ho; cbn [create_egresses];
    [by apply holds_ret|].
  eapply holds_bind; [by apply holds_Egress_create|]. intros [e|l] E' H.
  - simpl in H. subst E'. apply (close_all_then D); [done|]. by apply holds_ret.
  - apply IH. rewrite egress_fds_app. unfold egress_fds at 2. cbn [map concat]. rewrite app_nil_r.
    by apply (owned_listener _ _ E).
Qed.

Lemma holds_create_ingest D c n : holds D (create_ingest alloc strerror c n) (gives D).
Proof. unfold create_ingest. case_match; [by apply holds_RingIngest_create|by apply holds_FanOut_create]. Qed.

(** The one configuration whose set-up does not come back. *)
Definition capacity_hangs (c : Gateway.Config) : Prop := uses_ring c = true ∧ 2 ^ 63 < Gateway.capacity c.

Lemma make_ring_stuck c : 0 <= Gateway.capacity c → uses_ring c = true → make_ring (Gateway.capacity c) = None → capacity_hangs c.
Proof.
  intros Hc Hu H. split; [done|]. destruct (Z.le_gt_cases (Gateway.capacity c) (2 ^ 63)); [|lia].
  destruct (make_ring_shape (Gateway.capacity c)) as (r & Hr & _); [done|]. by rewrite Hr in H.
Qed.

Lemma holds_make_queues D n capacity : holds D (make_queues n capacity) (same D).
Proof. induction n as [|n IH]; cbn [make_queues]; [by apply holds_ret|]. repeat sys_step; done. Qed.

Lemma holds_start_threads D n : holds D (start_threads n) (same D).
Proof. induction n as [|n IH]; cbn [start_threads]; [by apply holds_ret|]. repeat sys_step; done. Qed.

Lemma holds_make_path D c ss :
  0 <= Gateway.capacity c →
  holds D (make_path c ss) (λ r E, E = D ∧ match r with Loops => capacity_hangs c | _ => True end).
Proof.
  intros Hc. unfold make_path. destruct (uses_ring c) eqn:Eu.
  - destruct (make_ring (Gateway.capacity c)) as [r|] eqn:Er; [|apply holds_ret; split; [done|by apply make_ring_stuck]].
    eapply holds_bind; [apply holds_vector|]. intros ok E ->. apply holds_ret. by destruct ok.
  - eapply holds_bind; [apply holds_make_queues|]. intros ok E ->. apply holds_ret. by destruct ok.
Qed.

Lemma holds_setup D c :
  0 <= Gateway.capacity c →
  holds D (setup alloc strerror c)
    (λ r E, match r with
            | Failed => E = D | Stuck => capacity_hangs c | Died => True
            | Up sy => owned D (all_fds sy) E
            end).
Proof.
  intros Hc. unfold setup.
  eapply holds_bind; [apply holds_open_sources, owned_nil|]. intros [ss|] E1 H1; [|by apply holds_ret].
  eapply holds_bind; [by apply holds_make_path|]. intros [| |side] E (-> & Hp); [by apply holds_ret..|].
  eapply holds_bind; [apply holds_create_egresses, owned_nil|]. intros [es|] E2 H2.
  2: { subst E2. apply (close_all_then D); [done|]. by apply holds_ret. }
  eapply holds_bind; [apply holds_create_ingest|]. intros [e|fd] E3 H3; simpl in H3.
  - subst E3. apply (close_all_then E1); [done|]. apply (close_all_then D); [done|]. by apply holds_ret.
  - destruct H3 as [Hn ->]. eapply holds_bind; [apply holds_start_threads|]. intros ok E ->.
    apply holds_ret. destruct ok; [|done]. unfold all_fds. cbn [sy_stop_fd sy_egresses sy_sources].
    apply owned_new; [|done]. destruct H1 as (-> & N1 & M1). destruct H2 as (-> & N2 & M2).
    split; [set_solver|]. split; [apply NoDup_app; set_solver|]. set_solver.
Qed.

Lemma holds_client_event D E e rest :
  owned D (server_fds e ++ rest) E →
  holds E (client_event alloc strerror e) (λ e' E', owned D (server_fds e' ++ rest) E').
Proof.
  intros Ho. unfold client_event. destruct e as [nm l st [fd|]]; cbn [e_client e_name e_listener e_state] in *.
  - eapply holds_bind; [apply holds_close_owned; exact Ho|]. intros [] E' H. by apply holds_ret.
  - eapply holds_bind; [by apply holds_accept|]. intros [fd| |err] E' H; simpl in H.
    + destruct H as [Hn ->]. eapply holds_bind; [apply holds_call|]. intros rc E' ->.
      apply holds_ret. by apply owned_new.
    + subst. by apply holds_ret.
    + subst. by apply holds_ret.
Qed.

Lemma holds_serve_clients D E events es rest :
  owned D (egress_fds es ++ rest) E →
  holds E (serve_clients alloc strerror events es) (λ es' E', owned D (egress_fds es' ++ rest) E').
Proof.
  revert E es. induction events as [|i events IH]; intros E es Ho; cbn [serve_clients]; [by apply holds_ret|].
  destruct (es !! i) as [e|] eqn:Hi; [|by apply IH].
  destruct (egress_fds_at es i e Hi) as (others & H1 & H2).
  eapply holds_bind.
  { apply (holds_client_event D _ e (others ++ rest)). eapply owned_perm; [|exact Ho].
    by rewrite H1, app_assoc. }
  intros e' E' Ho'. apply IH. eapply owned_perm; [|exact Ho']. by rewrite H2, app_assoc.
Qed.

Lemma holds_tear_down D E sy : owned D (all_fds sy) E → holds E (tear_down sy) (same D).
Proof.
  intros Ho. unfold tear_down. eapply holds_bind; [apply holds_close_owned; exact Ho|].
  intros [] E' (M & H1 & H2)%owned_app. apply (close_all_then M); [done|]. by apply holds_close_all.
Qed.

Lemma holds_run_gateway D c events :
  0 <= Gateway.capacity c →
  holds D (run_gateway alloc strerror c events)
    (λ r E, match r with Exits n => E = D ∧ (n = 0 ∨ n = 1) | Hangs => capacity_hangs c | Aborts => True end).
Proof.
  intros Hc. unfold run_gateway. eapply holds_bind; [by apply holds_setup|]. intros [| | |sy] E H.
  - apply holds_ret. auto.
  - by apply holds_ret.
  - by apply holds_ret.
  - eapply holds_bind.
    { apply (holds_serve_clients D _ events _ (source_fds (sy_sources sy) ++ [sy_stop_fd sy])).
      eapply owned_perm; [|exact H]. unfold all_fds.
      rewrite app_assoc, (Permutation_app_comm (_ ++ _)). done. }
    intros es E' H'. eapply holds_bind.
    { apply (holds_tear_down D). eapply owned_perm; [|exact H']. unfold all_fds. cbn [sy_stop_fd sy_egresses sy_sources].
      rewrite app_assoc, (Permutation_app_comm (_ ++ _)). done. }
    intros [] E'' ->. apply holds_ret. auto.
Qed.

(** What the process leaves: the descriptors it started with, and one of three exit
    statuses, unless it hangs in the set-up of a configuration that asks for it or is
    terminated. *)
Definition leaves (args : list (list ascii)) (D : gset Z) (r : Ending) (E : gset Z) : Prop :=
  match r with
  | Exits n => E = D ∧ (n = 0 ∨ n = 1 ∨ n = 2)
  | Hangs => ∃ c, Gateway.options args = Run c ∧ capacity_hangs c
  | Aborts => True
  end.

Lemma options_exit args n : Gateway.options args = Exit n → n = 0 ∨ n = 1 ∨ n = 2.
Proof.
  unfold Gateway.options, and_then. destruct (parse_args _ _ _) as [c|m] eqn:Ep.
  - unfold Gateway.check. intros H. repeat case_match; simplify_eq; auto.
  - intros [= <-]. apply parse_exit in Ep as [->|[-> _]]; auto.
Qed.

Lemma holds_main D args events : holds D (main alloc strerror args events) (leaves args D).
Proof.
  unfold main. destruct (Gateway.options args) as [c|n] eqn:Eo.
  2: { apply holds_ret. split; [done|]. by eapply options_exit. }
  assert (0 <= Gateway.capacity c) as Hc
    by (apply (proj2 Gateway.gateway_exact_options) in Eo; apply Eo).
  assert (holds D (run_gateway alloc strerror c events) (leaves args D)) as Hr.
  { eapply holds_conseq; [by apply holds_run_gateway|]. intros [n| |] E; [|by exists c|done].
    intros [-> [|]]; (split; [done|]); auto. }
  case_match; [|done]. eapply holds_bind; [apply holds_lock_memory|]. intros [e|] E ->; [|done].
  apply holds_ret. split; [done|auto].
Qed.
End Triples.

(** ** A kernel to run against *)

Definition demo_os (answers : list Answer) : Os := mkOs {[0; 1; 2]} 0 0 answers [].

Definition demo_args : list (list ascii) :=
  map text ["--consumer"; "log:9000"; "--consumer"; "view:9001"; "--source"; "synth"; "--source"; "can:vcan0";
            "--topology"; "queue"; "--capacity"; "64"; "--tap"]%string.

(** ** What the set-up builds *)

(** The source opened for the [i]-th specification. *)
Definition opened_for (rate : Z) (i : nat) (spec : list ascii) (x : Can.t + Synth.t) : Prop :=
  (∃ ifname, spec = text "can:" ++ ifname ∧ x = inl (Can.make (u8 (Z.of_nat i)))) ∨
  (spec = text "synth" ∧ x = inr (Synth.make (synth_config (u8 (Z.of_nat i)) rate))).

(** The egress created for a consumer: its name, the tuning, no client yet. *)
Definition created_for (t : Gateway.Tuning) (c : Gateway.ConsumerSpec) (e : Server) : Prop :=
  e_name e = Gateway.c_name c ∧ e_state e = make_egress (egress_tuning t) ∧ e_client e = None ∧
  1 <= Gateway.max_frames t <= kMaxBatch.

(** Between the two: queues or a ring, empty, in the state their theorems start from. *)
Definition path_ready (c : Gateway.Config) (ss : list (Can.t + Synth.t)) (side : IngestSide) : Prop :=
  match side with
  | WithQueues fan =>
      uses_ring c = false ∧ fan_ok fan [] ∧ FanOut.sources_ fan = ss ∧
      length (FanOut.sinks_ fan) = sink_count c ∧ sink_count c ≠ 0%nat ∧
      Forall (λ q, feed_at (F := QueueFeed.t) q [] 0 ∧ BoundedQueue.capacity_ q = Gateway.capacity c) (FanOut.sinks_ fan)
  | WithRing x =>
      uses_ring c = true ∧ ingest_ok (RingIngest.start x) [] ∧ RingIngest.sources_ x = ss ∧
      feed_at (F := RingFeed.t) (RingFeed.make (RingIngest.ring_ x)) [] 0 ∧
      Gateway.capacity c <= ring_capacity (RingIngest.ring_ x) < 2 * Z.max 2 (Gateway.capacity c)
  end.

Record wired (c : Gateway.Config) (sy : System) : Prop := mkWired {
  wd_sources : length (sy_sources sy) = length (Gateway.sources c);
  wd_opened i spec s : Gateway.sources c !! i = Some spec → sy_sources sy !! i = Some s →
    opened_for (Gateway.rate c) i spec (o_state s) ∧ source_wf (o_state s);
  wd_egresses : Forall2 (created_for (Gateway.tuning c)) (Gateway.consumers c) (sy_egresses sy);
  wd_path : path_ready c (map o_state (sy_sources sy)) (sy_ingest sy)
}.

Lemma period_of_pos rate : 0 <= rate → 1 <= period_of rate.
Proof.
  intros Hr. unfold period_of. destruct (Z.eqb_spec rate 0) as [->|Hn]; [done|].
  destruct (Z.eqb_spec (1000000000 / rate) 0); [lia|]. pose proof (Z.div_pos 1000000000 rate). lia.
Qed.

Lemma opened_for_wf rate i spec x : opened_for rate i spec x → source_wf x.
Proof.
  pose proof (u8_fits (Z.of_nat i)) as H8.
  intros [(n & _ & ->)|[_ ->]]; simpl.
  - unfold Can.can_wf. simpl. split_and!; done || (unfold fits; simpl; lia).
  - unfold Synth.synth_wf. simpl. split_and!; [done|done|by repeat constructor|done].
Qed.

Lemma starts_with_split p l : starts_with p l = true → l = p ++ drop (length p) l.
Proof. unfold starts_with. rewrite bool_decide_eq_true. intros H. rewrite <- H at 1. by rewrite take_drop. Qed.

Lemma sink_count_pos c : Gateway.wf c → sink_count c ≠ 0%nat.
Proof.
  intros Hw. unfold sink_count. destruct (Gateway.wf_work _ Hw) as [H| ->]; [|lia].
  destruct (Gateway.consumers c); [done|simpl; lia].
Qed.

(** What the kernel was told: the interface of each CAN source, the port of each consumer. *)
Definition source_notes (spec : list ascii) (s : OpenSource) : list Note :=
  if starts_with (text "can:") spec then [Bound (o_fd s) (Iface (drop 4 spec))] else [].

Definition consumer_note (c : Gateway.ConsumerSpec) (e : Server) : Note :=
  Bound (l_listen_fd (e_listener e)) (Port (Gateway.c_port c)).

Definition notes_of (c : Gateway.Config) (sy : System) : list Note :=
  concat (zip_with source_notes (Gateway.sources c) (sy_sources sy))
  ++ zip_with consumer_note (Gateway.consumers c) (sy_egresses sy).

(** The memory asked for is more than a vector can have. *)
Definition too_large (c : Gateway.Config) : Prop :=
  if uses_ring c then 2 ^ 56 < Gateway.capacity c else max_size kFrameSize < Gateway.capacity c.

Section Wiring.
Context (alloc : gset Z → Z) (strerror : Z → list ascii).

Lemma logs_close_all fds : logs (close_all fds) quiet.
Proof. induction fds as [|fd fds IH]; cbn [close_all]; [by apply logs_ret|]. log_step. exact IH. Qed.

Lemma logs_open_source spec i rate :
  logs (open_source alloc strerror spec (u8 (Z.of_nat i)) rate)
    (λ r l, match r with inl _ => True | inr s => opened_for rate i spec (o_state s) ∧ l = source_notes spec s end).
Proof.
  unfold open_source, source_notes. destruct (starts_with (text "can:") spec) eqn:E.
  - eapply logs_bind; [apply logs_CanSource_open|]. intros [e|fd] l Hl; apply logs_ret; [done|].
    rewrite app_nil_r. split; [|done]. left. exists (drop 4 spec). split; [|done]. by apply starts_with_split in E.
  - case_bool_decide; [|by apply logs_ret].
    eapply logs_bind; [apply logs_SyntheticSource_open|]. intros [e|fd] l Hl; apply logs_ret; [done|].
    rewrite app_nil_r. split; [by right|done].
Qed.

Lemma logs_open_sources rate specs opened :
  logs (open_sources alloc strerror opened specs rate)
    (λ r l, match r with
            | None => True
            | Some ss => ∃ new, ss = opened ++ new ∧ length new = length specs ∧
                l = concat (zip_with source_notes specs new) ∧
                ∀ i spec s, specs !! i = Some spec → new !! i = Some s →
                            opened_for rate (length opened + i) spec (o_state s)
            end).
Proof.
  revert opened. induction specs as [|spec specs IH]; intros opened; cbn [open_sources].
  { apply logs_ret. exists []. rewrite app_nil_r. by split_and!. }
  eapply logs_bind; [apply logs_open_source|]. intros [e|s] l Hs.
  - eapply logs_bind; [apply logs_close_all|]. intros [] l' ->. by apply logs_ret.
  - destruct Hs as [Hs ->]. eapply logs_conseq; [apply IH|]. intros [ss|] l; [|done].
    intros (new & -> & Hl & -> & Ho). exists (s :: new). rewrite <- app_assoc. split_and!; [done|simpl; lia|done|].
    intros [|i] x y Hx Hy; simpl in *; simplify_eq; [by rewrite Nat.add_0_r|].
    specialize (Ho i x y Hx Hy). rewrite length_app in Ho. simpl in Ho.
    by replace (length opened + S i)%nat with (length opened + 1 + i)%nat by lia.
Qed.

Lemma logs_create_egresses t specs created :
  0 <= Gateway.max_frames t →
  logs (create_egresses alloc strerror created specs t)
    (λ r l, match r with
            | None => True
            | Some es => ∃ new, es = created ++ new ∧ l = zip_with consumer_note specs new ∧
                                Forall2 (created_for t) specs new
            end).
Proof.
  intros Hm. revert created. induction specs as [|c specs IH]; intros created; cbn [create_egresses].
  { apply logs_ret. exists []. rewrite app_nil_r. by split_and!. }
  eapply logs_bind; [apply logs_Egress_create|]. intros [e|x] l Hx.
  - eapply logs_bind; [apply logs_close_all|]. intros [] l' ->. by apply logs_ret.
  - destruct Hx as (-> & H1 & H2). eapply logs_conseq; [apply IH|]. intros [es|] l; [|done].
    intros (new & -> & -> & Ho). eexists (_ :: new). rewrite <- app_assoc. split; [done|]. split; [done|].
    constructor; [|done]. unfold created_for. split_and!; try done; lia.
Qed.

Lemma logs_make_queues n capacity :
  logs (make_queues n capacity)
    (λ ok l, if ok : bool then l = [] ∧ (n ≠ 0%nat → (if capacity =? 0 then 1 else capacity) <= max_size kFrameSize)
             else max_size kFrameSize < (if capacity =? 0 then 1 else capacity) ∨ NoMemory ∈ l).
Proof.
  induction n as [|n IH]; cbn [make_queues]; [by apply logs_ret|].
  eapply logs_bind; [apply logs_vector|]. intros [] l.
  - intros [Hle ->]. eapply logs_conseq; [apply IH|]. intros [] l; [|done]. intros [-> _]. done.
  - intros [H|H]; apply logs_ret; rewrite app_nil_r; [left; lia|by right].
Qed.

Lemma logs_start_threads n : logs (start_threads n) (λ ok l, if ok : bool then l = [] else NoThread ∈ l).
Proof.
  induction n as [|n IH]; cbn [start_threads]; [by apply logs_ret|].
  eapply logs_bind; [apply logs_thread|]. intros [] l Hl; [subst l; exact IH|].
  apply logs_ret. by rewrite app_nil_r.
Qed.

Lemma logs_create_ingest c n : logs (create_ingest alloc strerror c n) quiet.
Proof.
  unfold create_ingest, RingIngest_create, FanOut_create. repeat case_match; try (by apply logs_ret); apply logs_stop_event.
Qed.

(** The rounded capacity fits a vector exactly when the capacity asked for is at most 2^56. *)
Lemma ring_vector c r :
  make_ring c = Some r → 0 <= c <= 2 ^ 63 → ring_capacity r <= max_size kCellSize ↔ c <= 2 ^ 56.
Proof.
  intros Hr Hc. destruct (make_ring_shape c) as (r' & Hr' & [(k & Hk & Ek) _ _] & Hlo & Hhi & _); [done|].
  rewrite Hr in Hr'. injection Hr' as <-. unfold ring_capacity. rewrite Ek in *.
  change (max_size kCellSize) with (2 ^ 57 - 1). split; intros H; [|pow_consts; lia].
  destruct (Z.le_gt_cases k 56) as [Hle|Hgt].
  - pose proof (Z.pow_le_mono_r 2 k 56 ltac:(lia) Hle). pow_consts. lia.
  - pose proof (Z.pow_le_mono_r 2 57 k ltac:(lia) ltac:(lia)). lia.
Qed.

(** Above 2^63 the loop never comes to its end: the powers of two wrap around to 0. *)
Lemma round_up_never fuel p v :
  2 ^ 63 < v → p = 0 ∨ (∃ k, 0 <= k <= 63 ∧ p = 2 ^ k) → round_up_loop fuel p v = None.
Proof.
  intros Hv. revert p. induction fuel as [|fuel IH]; intros p Hp; cbn [round_up_loop].
  all: assert (p <= 2 ^ 63) as Hle by (destruct Hp as [->|(k & Hk & ->)]; [lia|apply Z.pow_le_mono_r; lia]).
  all: rewrite (proj2 (Z.ltb_lt p v)) by lia.
  { done. }
  apply IH. destruct Hp as [->|(k & Hk & ->)]; [by left|]. rewrite Z.shiftl_mul_pow2 by lia.
  rewrite <- Z.pow_add_r by lia. destruct (Z.eq_dec k 63) as [->|Hne]; [by left|]. right. exists (k + 1).
  split; [lia|]. apply u64_small. split; [apply Z.pow_nonneg; lia|apply Z.pow_lt_mono_r; lia].
Qed.

Lemma make_ring_never c : 2 ^ 63 < c → make_ring c = None.
Proof.
  intros Hc. unfold make_ring, round_up_pow2. destruct (Z.ltb_spec c 2); [lia|].
  rewrite round_up_never; [done|done|]. right. by exists 0.
Qed.

Lemma ring_ready c r ss :
  Gateway.wf c → Forall source_wf ss → uses_ring c = true → make_ring (Gateway.capacity c) = Some r →
  Gateway.capacity c <= 2 ^ 56 → path_ready c ss (WithRing (RingIngest.make ss r)).
Proof.
  intros Hw Hs Eu Hr Hc. pose proof (Gateway.rg_capacity _ (Gateway.wf_ranges _ Hw)) as Hf. unfold fits in Hf.
  destruct (make_ring_shape (Gateway.capacity c)) as (r' & Hr' & _ & Hlo & Hhi & Hw0 & _); [pow_consts; lia|].
  rewrite Hr in Hr'. injection Hr' as <-.
  pose proof (make_ring_holds (Gateway.capacity c) r ltac:(pow_consts; lia) Hr) as Hh. simpl.
  split_and!; [done|by apply start_ok|done| |unfold ring_capacity; lia|unfold ring_capacity; lia].
  split; [exact Hh|]. split; [by split|]. split; [|done].
  simpl. rewrite Hw0. unfold oldest. destruct (Z.gtb_spec 0 (capacity_ r)); [lia|done].
Qed.

Lemma queues_ready c ss :
  Gateway.wf c → Forall source_wf ss → uses_ring c = false → Gateway.capacity c <= max_size kFrameSize →
  path_ready c ss (WithQueues (FanOut.make ss (map make_queue (replicate (sink_count c) (Gateway.capacity c))))).
Proof.
  intros Hw Hs Eu Hc. pose proof (Gateway.rg_capacity _ (Gateway.wf_ranges _ Hw)) as Hf.
  pose proof (Gateway.wf_capacity _ Hw) as H0. unfold fits in Hf.
  assert (Gateway.capacity c < capacity_limit) as Hl.
  { eapply Z.le_lt_trans; [exact Hc|]. by vm_compute. }
  simpl. split_and!; [done| |done| | |].
  - apply make_fan_ok; [done|]. apply Forall_replicate. lia.
  - by rewrite length_map, length_replicate.
  - by apply sink_count_pos.
  - apply Forall_fmap, Forall_replicate. simpl. split.
    + split_and!; [apply make_queue_wf; lia|done|done|]. by exists [].
    + unfold make_queue. rewrite (proj2 (Z.eqb_neq _ _) H0). done.
Qed.

Lemma logs_make_path c ss :
  Gateway.wf c → Forall source_wf (map o_state ss) →
  logs (make_path c ss)
    (λ p l, match p with
            | Loops => True
            | Throws => too_large c ∨ NoMemory ∈ l
            | Built side => l = [] ∧ path_ready c (map o_state ss) side
            end).
Proof.
  intros Hw Hs. pose proof (Gateway.rg_capacity _ (Gateway.wf_ranges _ Hw)) as Hf. unfold fits in Hf.
  unfold make_path, too_large. destruct (uses_ring c) eqn:Eu.
  - destruct (make_ring (Gateway.capacity c)) as [r|] eqn:Er; [|by apply logs_ret].
    eapply logs_bind; [apply logs_vector|]. intros [] l Hl; apply logs_ret; rewrite app_nil_r.
    + destruct Hl as [Hle ->]. split; [done|]. apply ring_ready; try done.
      destruct (Z.le_gt_cases (Gateway.capacity c) (2 ^ 63)) as [H63|H63].
      * by apply (ring_vector _ _ Er); [lia|].
      * by rewrite make_ring_never in Er.
    + destruct Hl as [Hl|Hl]; [left|by right].
      destruct (Z.le_gt_cases (Gateway.capacity c) (2 ^ 56)) as [H56|H56]; [|lia].
      apply (ring_vector _ _ Er) in H56; [lia|pow_consts; lia].
  - eapply logs_bind; [apply logs_make_queues|]. rewrite (proj2 (Z.eqb_neq _ _) (Gateway.wf_capacity _ Hw)).
    intros [] l Hl; apply logs_ret; rewrite app_nil_r; [|done].
    destruct Hl as [-> Hl]. split; [done|]. apply queues_ready; try done. by apply Hl, sink_count_pos.
Qed.

Lemma logs_setup c :
  Gateway.wf c →
  logs (setup alloc strerror c)
    (λ r l, match r with
            | Failed | Stuck => True
            | Died => too_large c ∨ NoMemory ∈ l ∨ NoThread ∈ l
            | Up sy => wired c sy ∧ l = notes_of c sy
            end).
Proof.
  intros Hw. pose proof (Gateway.wf_ranges _ Hw) as Hg. unfold setup.
  eapply logs_bind; [apply (logs_open_sources _ _ [])|]. simpl.
  intros [ss|] l1 Hss; [|by apply logs_ret]. destruct Hss as (new & -> & Hl & -> & Hss).
  assert (Forall source_wf (map o_state new)) as Hwf.
  { apply Forall_fmap, Forall_lookup. intros i s Hi. simpl.
    destruct (Gateway.sources c !! i) as [spec|] eqn:E; [by eapply opened_for_wf, Hss|].
    apply lookup_ge_None in E. apply lookup_lt_Some in Hi. lia. }
  eapply logs_bind; [by apply logs_make_path|]. intros [| |side] l2 Hp; [by apply logs_ret| |].
  { apply logs_ret. rewrite !app_nil_r. destruct Hp; [by left|right; left; set_solver]. }
  destruct Hp as [-> Hp].
  eapply logs_bind; [apply (logs_create_egresses _ _ []); apply Hg|]. simpl.
  intros [es|] l3 Hes.
  2: { eapply logs_bind; [apply logs_close_all|]. intros [] ? ->. by apply logs_ret. }
  destruct Hes as (es' & -> & -> & Hes). simpl.
  eapply logs_bind; [apply logs_create_ingest|]. intros [e|fd] ? ->.
  - do 2 (eapply logs_bind; [apply logs_close_all|]; intros [] ? ->). by apply logs_ret.
  - eapply logs_bind; [apply logs_start_threads|]. intros [] l4 Hl4; apply logs_ret.
    + subst l4. split; [|by rewrite !app_nil_r]. constructor; simpl; [done| |done|done].
      intros i spec s H1 H2. pose proof (Hss i spec s H1 H2). split; [done|by eapply opened_for_wf].
    + right. right. set_solver.
Qed.

Lemma logs_client_event e : logs (client_event alloc strerror e) quiet.
Proof.
  unfold client_event. destruct (e_client e) as [fd|]; [repeat log_step; done|].
  eapply logs_bind; [apply logs_accept|]. intros [fd| |err] l ->; repeat log_step; done.
Qed.

Lemma logs_serve_clients events es : logs (serve_clients alloc strerror events es) quiet.
Proof.
  revert es. induction events as [|i events IH]; intros es; cbn [serve_clients]; [by apply logs_ret|].
  destruct (es !! i) as [e|]; [|apply IH]. eapply logs_bind; [apply logs_client_event|]. intros e' l ->. apply IH.
Qed.

(** Only refused memory, a refused thread or a capacity beyond any memory terminates the
    process. *)
Lemma logs_main args events :
  logs (main alloc strerror args events)
    (λ r l, r = Aborts → ∃ c, Gateway.options args = Run c ∧ (too_large c ∨ NoMemory ∈ l ∨ NoThread ∈ l)).
Proof.
  unfold main. destruct (Gateway.options args) as [c|n] eqn:Eo; [|by apply logs_ret].
  assert (Gateway.wf c) as Hw by (by apply (proj2 Gateway.gateway_exact_options) in Eo).
  assert (logs (run_gateway alloc strerror c events)
            (λ r l, r = Aborts → ∃ c', Run c = Run c' ∧ (too_large c' ∨ NoMemory ∈ l ∨ NoThread ∈ l))) as Hr.
  { unfold run_gateway. eapply logs_bind; [by apply logs_setup|]. intros [| | |sy] l Hl; try (by apply logs_ret).
    - apply logs_ret. rewrite app_nil_r. eauto.
    - eapply logs_bind; [apply logs_serve_clients|]. intros es ? ->. unfold tear_down.
      eapply logs_bind; [eapply logs_bind; [apply logs_close|]; intros [] ? ->;
        eapply logs_bind; [apply logs_close_all|]; intros [] ? ->; apply logs_close_all|].
      intros [] ? ?. by apply logs_ret. }
  case_match; [|done]. eapply logs_bind; [apply logs_lock_memory|]. intros [e|] l ->; [by apply logs_ret|done].
Qed.
End Wiring.

(** ** A kernel that grants every call *)

Definition granted (a : Answer) : Prop := match a with Ok n => 0 <= n | Err _ => False end.

(** With at least [k] granted calls to come, [m] uses no more than [k] of them. *)
Definition succeeds {A} (k : nat) (m : Sys A) (P : A → Prop) : Prop :=
  ∀ s, Forall granted (os_answers s) → (k <= length (os_answers s))%nat →
  P (m s).1 ∧ Forall granted (os_answers (m s).2) ∧
  (length (os_answers s) <= k + length (os_answers (m s).2))%nat.

Lemma succeeds_ret {A} k (a : A) (P : A → Prop) : P a → succeeds k (mret a) P.
Proof. intros H s Hg Hl. split; [done|]. split; [done|]. simpl. lia. Qed.

Lemma succeeds_bind {A B} k k' (m : Sys A) (f : A → Sys B) P R :
  succeeds k m P → (∀ a, P a → succeeds k' (f a) R) → succeeds (k + k') (m ≫= f) R.
Proof.
  intros Hm Hf s Hg Hl. destruct (Hm s Hg) as (H1 & H2 & H3); [lia|].
  unfold mbind, sys_bind. destruct (m s) as [a s1]. simpl in *.
  destruct (Hf a H1 s1 H2) as (K1 & K2 & K3); [lia|]. split; [done|]. split; [done|]. lia.
Qed.

Lemma succeeds_call {B} k (f : Z → Sys B) R :
  (∀ rc, 0 <= rc → succeeds k (f rc) R) → succeeds (S k) (sys_call ≫= f) R.
Proof.
  intros Hf. apply (succeeds_bind 1 k _ _ (λ rc, 0 <= rc)); [|done].
  intros s Hg Hl. unfold sys_call, answer, mbind, sys_bind.
  destruct (os_answers s) as [|a l] eqn:E; simpl in Hl; [lia|].
  apply Forall_cons in Hg as [Ha Hg]. destruct a as [n|e]; [|done]. simpl. by auto.
Qed.

Lemma succeeds_bind_to {B} k fd e (f : Z → Sys B) R :
  (∀ rc, 0 <= rc → succeeds k (f rc) R) → succeeds (S k) (sys_bind_to fd e ≫= f) R.
Proof.
  intros Hf. apply (succeeds_bind 1 k _ _ (λ rc, 0 <= rc)); [|done].
  unfold sys_bind_to. apply succeeds_call. intros rc Hrc. rewrite (proj2 (Z.ltb_ge rc 0)) by lia.
  intros s Hg Hl. simpl. split; [done|]. split; [done|]. lia.
Qed.

Section Grants.
Context (alloc : gset Z → Z) (strerror : Z → list ascii).
Context (alloc_new : ∀ X, alloc X ∉ X ∧ 0 <= alloc X).

Lemma succeeds_open {B} k (f : Z → Sys B) R :
  (∀ fd, 0 <= fd → succeeds k (f fd) R) → succeeds (S k) (sys_open alloc ≫= f) R.
Proof.
  intros Hf. apply (succeeds_bind 1 k _ _ (λ fd, 0 <= fd)); [|done].
  intros s Hg Hl. unfold sys_open, answer, get_open, add_open, mbind, sys_bind.
  destruct (os_answers s) as [|a l] eqn:E; simpl in Hl; [lia|].
  apply Forall_cons in Hg as [Ha Hg]. destruct a as [n|e]; [|done]. simpl. split; [apply alloc_new|]. by auto.
Qed.

(** A granted call of a function, with the test that follows it. *)
Ltac granted_step :=
  lazymatch goal with
  | |- succeeds _ (mret _) _ => apply succeeds_ret
  | |- succeeds _ (sys_call ≫= _) _ => apply succeeds_call; intros ? ?; cbv beta
  | |- succeeds _ (sys_bind_to _ _ ≫= _) _ => apply succeeds_bind_to; intros ? ?; cbv beta
  | |- succeeds _ (sys_open _ ≫= _) _ => apply succeeds_open; intros ? ?; cbv beta
  | |- succeeds _ (if ?x <? 0 then _ else _) _ => rewrite (proj2 (Z.ltb_ge x 0)) by lia
  end.

Lemma succeeds_nonblocking fd : succeeds 2 (set_nonblocking strerror fd) (λ r, r = None).
Proof.
  unfold set_nonblocking. apply succeeds_call. intros a Ha. rewrite (proj2 (Z.ltb_ge a 0)) by lia.
  by repeat granted_step.
Qed.

Lemma succeeds_listen_on port : succeeds 6 (listen_on alloc strerror port) (λ r, ∃ fd, r = inr fd).
Proof.
  unfold listen_on. repeat granted_step. eapply (succeeds_bind 2 0); [apply succeeds_nonblocking|].
  intros r ->. granted_step. eauto.
Qed.

Lemma succeeds_Egress_create port mf :
  1 <= mf <= kMaxBatch → succeeds 8 (Egress_create alloc strerror port mf) (λ r, ∃ l, r = inr l).
Proof.
  intros Hm. unfold Egress_create. rewrite (proj2 (Z.eqb_neq mf 0)) by lia.
  destruct (Z.gtb_spec mf kMaxBatch); [lia|]. cbn [orb].
  eapply (succeeds_bind 6 2); [apply succeeds_listen_on|]. intros r (fd & ->). granted_step. granted_step.
  eapply (succeeds_bind 1 0 _ _ (λ _, True)); [unfold local_port; by repeat granted_step|]. intros b _.
  granted_step. eauto.
Qed.

(** A specification [open_source] knows. *)
Definition known_source (spec : list ascii) : Prop :=
  spec = text "synth" ∨ ∃ ifname, spec = text "can:" ++ ifname ∧ (length ifname < IFNAMSIZ)%nat.

Lemma succeeds_open_source spec i rate :
  known_source spec → 0 <= rate → succeeds 8 (open_source alloc strerror spec i rate) (λ r, ∃ s, r = inr s).
Proof.
  intros [->|(ifname & -> & Hl)] Hr; unfold open_source.
  - change (starts_with (text "can:") (text "synth")) with false. cbv iota.
    rewrite bool_decide_eq_true_2 by done. pose proof (period_of_pos rate Hr).
    eapply (succeeds_bind 2 6 _ _ (λ r, ∃ fd, r = inr fd)).
    + unfold SyntheticSource_open. simpl. rewrite (proj2 (Z.eqb_neq (period_of rate) 0)) by lia. simpl.
      repeat granted_step. eauto.
    + intros r (fd & ->). granted_step. eauto.
  - assert (starts_with (text "can:") (text "can:" ++ ifname) = true) as ->.
    { unfold starts_with. apply bool_decide_eq_true_2. by rewrite take_app_length. }
    change (drop 4 (text "can:" ++ ifname)) with ifname.
    eapply (succeeds_bind 7 1 _ _ (λ r, ∃ fd, r = inr fd)).
    + unfold CanSource_open. eapply (succeeds_bind 3 4 _ _ (λ r, ∃ fd, r = inr fd)).
      * unfold bind_can. rewrite (proj2 (Nat.leb_gt _ _)) by done. repeat granted_step. eauto.
      * intros r (fd & ->). repeat granted_step. eauto.
    + intros r (fd & ->). granted_step. eauto.
Qed.

Lemma succeeds_open_sources rate specs opened :
  0 <= rate → Forall known_source specs →
  succeeds (8 * length specs) (open_sources alloc strerror opened specs rate)
    (λ r, ∃ ss, r = Some ss ∧ length ss = (length opened + length specs)%nat).
Proof.
  intros Hr Hk. revert opened. induction Hk as [|spec specs Hs Hk IH]; intros opened; cbn [open_sources].
  { apply succeeds_ret. exists opened. split; [done|]. simpl. lia. }
  replace (8 * length (spec :: specs))%nat with (8 + 8 * length specs)%nat by (simpl; lia).
  eapply succeeds_bind; [by apply succeeds_open_source|]. intros r (s & ->).
  specialize (IH (opened ++ [s])). rewrite length_app in IH. simpl in IH |- *.
  by replace (length opened + S (length specs))%nat with (length opened + 1 + length specs)%nat by lia.
Qed.

Lemma succeeds_create_egresses t specs created :
  (specs ≠ [] → 1 <= Gateway.max_frames t <= kMaxBatch) →
  succeeds (8 * length specs) (create_egresses alloc strerror created specs t) (λ r, ∃ es, r = Some es).
Proof.
  revert created. induction specs as [|c specs IH]; intros created Hm; cbn [create_egresses].
  { apply succeeds_ret. eauto. }
  replace (8 * length (c :: specs))%nat with (8 + 8 * length specs)%nat by (simpl; lia).
  eapply succeeds_bind; [by apply succeeds_Egress_create, Hm|]. intros r (l & ->).
  apply IH. intros _. by apply Hm.
Qed.

Lemma succeeds_create_ingest c n :
  n ≠ 0%nat → sink_count c ≠ 0%nat → succeeds 1 (create_ingest alloc strerror c n) (λ r, ∃ fd, r = inr fd).
Proof.
  intros Hn Hk. unfold create_ingest, RingIngest_create, FanOut_create.
  rewrite !(proj2 (Nat.eqb_neq _ _)) by done.
  destruct (uses_ring c); unfold stop_event; repeat granted_step; eauto.
Qed.

Lemma succeeds_answer {B} k (f : Answer → Sys B) R :
  (∀ n, succeeds k (f (Ok n)) R) → succeeds (S k) (answer ≫= f) R.
Proof.
  intros Hf. apply (succeeds_bind 1 k _ _ (λ a, ∃ n, a = Ok n)); [|by intros ? (n & ->)].
  intros s Hg Hl. unfold answer. destruct (os_answers s) as [|a l] eqn:E; simpl in Hl; [lia|].
  apply Forall_cons in Hg as [Ha Hg]. destruct a as [n|e]; [|done]. simpl. eauto.
Qed.

Lemma succeeds_vector n size : n <= max_size size → succeeds 1 (sys_vector n size) (λ ok, ok = true).
Proof.
  intros Hn. unfold sys_vector. destruct (Z.gtb_spec n (max_size size)); [lia|].
  apply (succeeds_answer 0). intros m. by granted_step.
Qed.

Lemma succeeds_make_queues n capacity :
  (if capacity =? 0 then 1 else capacity) <= max_size kFrameSize →
  succeeds n (make_queues n capacity) (λ ok, ok = true).
Proof.
  intros Hc. induction n as [|n IH]; cbn [make_queues]; [by granted_step|].
  apply (succeeds_bind 1 n _ _ (λ ok, ok = true)); [by apply succeeds_vector|]. by intros ? ->.
Qed.

Lemma succeeds_start_threads n : succeeds n (start_threads n) (λ ok, ok = true).
Proof.
  induction n as [|n IH]; cbn [start_threads]; [by granted_step|].
  apply (succeeds_bind 1 n _ _ (λ ok, ok = true)); [|by intros ? ->].
  unfold sys_thread. apply (succeeds_answer 0). intros m. by granted_step.
Qed.

Lemma succeeds_make_path c ss :
  Gateway.wf c → ¬ too_large c → succeeds (1 + sink_count c) (make_path c ss) (λ p, ∃ side, p = Built side).
Proof.
  intros Hw Hl. pose proof (Gateway.rg_capacity _ (Gateway.wf_ranges _ Hw)) as Hf. unfold fits in Hf.
  unfold make_path, too_large in *. destruct (uses_ring c).
  - destruct (make_ring_shape (Gateway.capacity c)) as (r & Hr & _); [pow_consts; lia|]. rewrite Hr.
    eapply (succeeds_bind 1 (sink_count c)); [apply succeeds_vector|].
    + apply (ring_vector _ _ Hr); pow_consts; lia.
    + intros ? ->. granted_step. eauto.
  - rewrite Nat.add_comm. eapply (succeeds_bind (sink_count c) 1); [apply succeeds_make_queues|].
    + rewrite (proj2 (Z.eqb_neq _ _) (Gateway.wf_capacity _ Hw)). lia.
    + intros ? ->. granted_step. eauto.
Qed.

(** The calls of a set-up. *)
Definition setup_calls (c : Gateway.Config) : nat :=
  8 * length (Gateway.sources c) + (1 + sink_count c) + 8 * length (Gateway.consumers c) + 1 + thread_count c.

Lemma succeeds_setup c :
  Gateway.wf c → ¬ too_large c → Forall known_source (Gateway.sources c) →
  (Gateway.consumers c ≠ [] → 1 <= Gateway.max_frames (Gateway.tuning c) <= kMaxBatch) →
  succeeds (setup_calls c) (setup alloc strerror c) (λ r, ∃ sy, r = Up sy).
Proof.
  intros Hw Hc Hk Hm. pose proof (Gateway.wf_ranges _ Hw) as Hg. unfold setup, setup_calls. rewrite <- !Nat.add_assoc.
  eapply succeeds_bind; [apply succeeds_open_sources; [apply Hg|done]|]. intros r (ss & -> & Hl).
  rewrite Nat.add_assoc. eapply succeeds_bind; [by apply succeeds_make_path|]. intros p (side & ->).
  eapply succeeds_bind; [by apply succeeds_create_egresses|]. intros r (es & ->).
  eapply succeeds_bind; [apply succeeds_create_ingest|].
  - pose proof (Gateway.wf_sources _ Hw). rewrite Hl. by destruct (Gateway.sources c).
  - by apply sink_count_pos.
  - intros r (fd & ->).
    replace (thread_count c) with (thread_count c + 0)%nat at 1 by lia.
    eapply succeeds_bind; [apply succeeds_start_threads|]. intros ? ->. granted_step. eauto.
Qed.

Lemma succeeds_main args c events :
  Gateway.options args = Run c → ¬ too_large c → Forall known_source (Gateway.sources c) →
  (Gateway.consumers c ≠ [] → 1 <= Gateway.max_frames (Gateway.tuning c) <= kMaxBatch) →
  ∀ s, Forall granted (os_answers s) → Forall (λ a, a = Ok 0) (take 1 (os_answers s)) →
       (1 + setup_calls c <= length (os_answers s))%nat →
       (main alloc strerror args events s).1 = Exits 0.
Proof.
  intros Eo Hc Hk Hm s Hg H1 Hl. unfold main. rewrite Eo.
  assert (Gateway.wf c) as Hw by (by apply (proj2 Gateway.gateway_exact_options) in Eo).
  assert (∀ s, Forall granted (os_answers s) → (setup_calls c <= length (os_answers s))%nat →
            (run_gateway alloc strerror c events s).1 = Exits 0) as Hr.
  { intros s0 Hg0 Hl0. unfold run_gateway, mbind, sys_bind.
    destruct (succeeds_setup c Hw Hc Hk Hm s0 Hg0 Hl0) as ((sy & Eu) & _).
    destruct (setup alloc strerror c s0) as [r s1]. simpl in Eu. subst r.
    destruct (serve_clients alloc strerror events (sy_egresses sy) s1) as [es s2].
    by destruct (tear_down _ s2). }
  destruct (Gateway.mlock c); [|apply Hr; [done|lia]].
  unfold lock_memory, sys_call, answer, mbind, sys_bind. destruct (os_answers s) as [|a l] eqn:E; [simpl in Hl; lia|].
  apply Forall_cons in H1 as [-> _]. simpl. apply Hr; simpl; [by apply Forall_cons in Hg as [_ Hg]|simpl in Hl; lia].
Qed.
End Grants.

(** C30. The set-up of the gateway. For every configuration the command line accepts,
    whatever the kernel answers: when the set-up succeeds, there is one source per
    [--source] in order, of the kind asked for, numbered by its position (as one byte) and
    well formed; one egress per [--consumer] in order, idle, with the tuning asked for and a
    batch size in 1..4096; between them one empty queue per consumer and one for the tap
    under a fan-out, or one empty ring of at least the capacity asked for, in the state the
    theorems about them start from; each CAN source's descriptor was bound to the interface
    its [--source] names, each listener to the port its [--consumer] names, and nothing else
    was bound; all descriptors are different and none was open before. And it does succeed
    when every source is [synth] or a CAN interface of a legal name length, the batch size
    is in range, the capacity is one a vector can have and the kernel grants its calls,
    allocations and threads, of which a bound is given. *)
Theorem gateway_wired alloc strerror c s :
  (∀ X, alloc X ∉ X ∧ 0 <= alloc X) → Gateway.wf c →
  (∀ sy, (setup alloc strerror c s).1 = Up sy →
     wired c sy ∧ os_log (setup alloc strerror c s).2 = os_log s ++ notes_of c sy ∧
     NoDup (all_fds sy) ∧ ∀ fd, fd ∈ all_fds sy → fd ∉ os_open s) ∧
  (Forall known_source (Gateway.sources c) →
   (Gateway.consumers c ≠ [] → 1 <= Gateway.max_frames (Gateway.tuning c) <= kMaxBatch) →
   ¬ too_large c → Forall granted (os_answers s) → (setup_calls c <= length (os_answers s))%nat →
   ∃ sy, (setup alloc strerror c s).1 = Up sy).
Proof.
  intros Ha Hw. split.
  - intros sy Hu. destruct (logs_setup alloc strerror c Hw s) as (l & El & H). rewrite Hu in H. destruct H as [H ->].
    split; [done|]. split; [done|].
    destruct (holds_setup alloc strerror Ha ∅ c (proj1 (Gateway.rg_capacity _ (Gateway.wf_ranges _ Hw))) (os_open s) s)
      as (E & Ho & Hd & _); [set_solver|set_solver|].
    rewrite Hu in Ho. destruct Ho as (-> & Hn & _). split; [done|]. intros fd Hin. set_solver.
  - intros Hk Hm Hc Hg Hl. by destruct (succeeds_setup alloc strerror Ha c Hw Hc Hk Hm s Hg Hl).
Qed.

Definition demo_config : Gateway.Config :=
  Gateway.mkConfig [text "can:vcan0"; text "synth"] [Gateway.mkConsumer (text "log") 9000] (text "ring") 6
    (Gateway.mkTuning 256 0 0) 1000 0 true false.

Lemma demo_config_wf : Gateway.wf demo_config.
Proof.
  constructor; [|by right|done|done|done|by left].
  constructor; [|unfold fits, fits_int; simpl; lia..]. repeat constructor; simpl; (done || lia).
Qed.

Lemma gateway_wired_witness :
  ∃ sy, (setup next_fd (λ _, []) demo_config (demo_os (replicate 40 (Ok 0)))).1 = Up sy ∧ wired demo_config sy ∧
        all_fds sy = [7; 5; 6; 3; 4] ∧
        os_log (setup next_fd (λ _, []) demo_config (demo_os (replicate 40 (Ok 0)))).2
        = [Bound 3 (Iface (text "vcan0")); Bound 5 (Port 9000)].
Proof.
  destruct (gateway_wired next_fd (λ _, []) demo_config (demo_os (replicate 40 (Ok 0))) next_fd_new demo_config_wf)
    as [H1 H2].
  destruct H2 as [sy E].
  - constructor; [right; exists (text "vcan0"); split; [reflexivity|simpl; unfold IFNAMSIZ; lia]|].
    constructor; [left; reflexivity|constructor].
  - intros _. unfold kMaxBatch. simpl. lia.
  - vm_compute. discriminate.
  - by apply Forall_replicate.
  - vm_compute. lia.
  - exists sy. split; [exact E|]. destruct (H1 sy E) as (Hw & Hlog & _). split; [exact Hw|]. rewrite Hlog.
    clear - E. revert E. vm_compute. by intros [= <-].
Defined.

(** C31. How the process ends. For any arguments, any answers of the kernel and any clients
    coming and going: [main] never closes a descriptor that is not open. If it exits, on any
    early return, whichever call failed, or after a full run, it does so with 0, 1 or 2 and
    with exactly the descriptors open that it started with. It hangs only with the ring
    topology and a capacity above 2^63, which the ring's constructor never rounds up. It is
    terminated by an exception only when the kernel refused memory for a queue or the ring
    or refused a thread, or when the capacity asked for is more than any vector can have.
    And when the configuration asks for known sources, a batch size in range and a capacity
    a vector can have, and the kernel grants every call, it does exit with 0. *)
Theorem gateway_no_leak alloc strerror args events s :
  (∀ X, alloc X ∉ X ∧ 0 <= alloc X) →
  let r := main alloc strerror args events s in
  os_stray r.2 = os_stray s ∧
  (∃ l, os_log r.2 = os_log s ++ l ∧
   match r.1 with
   | Exits n => os_open r.2 = os_open s ∧ (n = 0 ∨ n = 1 ∨ n = 2)
   | Hangs => ∃ c, Gateway.options args = Run c ∧ capacity_hangs c
   | Aborts => ∃ c, Gateway.options args = Run c ∧ (too_large c ∨ NoMemory ∈ l ∨ NoThread ∈ l)
   end) ∧
  (∀ c, Gateway.options args = Run c → ¬ too_large c → Forall known_source (Gateway.sources c) →
     (Gateway.consumers c ≠ [] → 1 <= Gateway.max_frames (Gateway.tuning c) <= kMaxBatch) →
     Forall granted (os_answers s) → Forall (λ a, a = Ok 0) (take 1 (os_answers s)) →
     (1 + setup_calls c <= length (os_answers s))%nat → r.1 = Exits 0).
Proof.
  intros Ha r. destruct (holds_main alloc strerror Ha ∅ args events (os_open s) s) as (D & H & _ & Ho & Hs);
    [set_solver|set_solver|]. fold r in H, Ho, Hs. split; [done|]. split.
  - destruct (logs_main alloc strerror args events s) as (l & El & Hl). fold r in El, Hl.
    exists l. split; [done|]. destruct r.1 as [n| |]; [|done|by apply Hl].
    destruct H as [-> H]. split; [|done]. by rewrite Ho, union_empty_r_L.
  - intros c Ho' Hc Hk Hm Hg H1 Hn. by eapply succeeds_main.
Qed.

Lemma gateway_no_leak_witness :
  (main next_fd (λ _, []) demo_args [0%nat; 1%nat; 0%nat; 0%nat] (demo_os (replicate 80 (Ok 0)))).1 = Exits 0 ∧
  os_open (main next_fd (λ _, []) demo_args [0%nat; 1%nat; 0%nat; 0%nat] (demo_os (replicate 80 (Ok 0)))).2
  = {[0; 1; 2]}.
Proof.
  destruct (gateway_no_leak next_fd (λ _, []) demo_args [0%nat; 1%nat; 0%nat; 0%nat]
              (demo_os (replicate 80 (Ok 0))) next_fd_new) as (_ & (l & _ & H) & _).
  assert ((main next_fd (λ _, []) demo_args [0%nat; 1%nat; 0%nat; 0%nat] (demo_os (replicate 80 (Ok 0)))).1 = Exits 0)
    as E by (vm_compute; reflexivity).
  rewrite E in H. split; [exact E|]. exact (proj1 H).
Defined.

(** ** Boundary inputs *)

(** The 257th source is numbered like the first. *)
Lemma source_ids_wrap :
  match (open_sources next_fd (λ _, []) [] (replicate 257 (text "synth")) 1000 (demo_os (replicate 600 (Ok 0)))).1 with
  | Some ss => ∃ a b, ss !! 0%nat = Some (mkOpen (inr a) 3) ∧ ss !! 256%nat = Some (mkOpen (inr b) 259) ∧
                      Synth.cfg_src_id (Synth.cfg_ a) = Synth.cfg_src_id (Synth.cfg_ b)
  | None => False
  end.
Proof. vm_compute. by eexists _, _. Qed.

(** [--capacity -1] with the ring hangs in the set-up; with queues it ends the process, as
    does a thread that cannot be created. *)
Lemma capacity_wraps_and_hangs :
  (main next_fd (λ _, []) (map text ["--consumer"; "log:9000"; "--capacity"; "-1"]%string) []
     (demo_os (replicate 60 (Ok 0)))).1 = Hangs.
Proof. vm_compute. reflexivity. Qed.

Lemma capacity_throws :
  (main next_fd (λ _, [])
     (map text ["--consumer"; "log:9000"; "--topology"; "queue"; "--capacity"; "18446744073709551615"]%string) []
     (demo_os (replicate 60 (Ok 0)))).1 = Aborts.
Proof. vm_compute. reflexivity. Qed.

Lemma thread_refused :
  (main next_fd (λ _, []) (map text ["--consumer"; "log:9000"; "--capacity"; "2"]%string) []
     (demo_os (replicate 12 (Ok 0) ++ [Err EAGAIN]))).1 = Aborts.
Proof. vm_compute. reflexivity. Qed.
