(* ===== verification/GatewayLoop.v ===== *)
(** * GatewayLoop: the main thread of the gateway (src/src/main.cpp)

    What [main] does while the other threads work: it prints the tap's frames, reports
    once a second, and leaves on a signal or at the deadline; then the summary. The clock,
    the signal flag and the counters read from the other threads are arguments of each
    turn; a line is a list of [Printf.Item]s. *)

From Stdlib Require Import Ascii String SpecFloat.
From S2P Require Import Prelude Text Doubles Printf Frame Wire BoundedQueue BroadcastRing Samples Feed Egress Sources Ingest Options Platform.

(** ** Lines *)

(** What the main thread reads of one consumer: its name, the egress and the feed. *)
Record Row := mkRow { rw_name : list ascii; rw_stats : EgressStats; rw_feed : FeedStats }.

(** A report: when, the frames since the last one, the frames so far, the consumers. *)
Record Report := mkReport { rp_at : Z; rp_rate : Z; rp_total : Z; rp_rows : list Row }.

Definition tap_line (f : Frame) : list Item :=
  [Lit (text "seq="); Dec (f_seq f); Lit (text " src="); Dec (f_src_id f);
   Lit (text " id="); Hex 3 (f_can_id f); Lit (text " len="); Dec (f_len f)].

Definition row_items (r : Row) : list Item :=
  let c := es_counter (rw_stats r) in
  [Lit (text " | " ++ rw_name r ++ text " " ++ text (if es_connected (rw_stats r) then "up" else "--") ++ text " sent=");
   Dec (c frames_sent_); Lit (text " drop="); Dec (fs_dropped (rw_feed r));
   Lit (text " wblock="); Dec (c would_block_); Lit (text " lag="); Dec (fs_backlog (rw_feed r))].

Definition report_line (r : Report) : list Item :=
  [Lit (text "ingest "); Dec (rp_rate r); Lit (text "/s total="); Dec (rp_total r)]
  ++ concat (map row_items (rp_rows r)).

(** *** The summary after the threads have stopped *)

Definition source_line (name : list ascii) (ss : SourceStats) : list Item :=
  [Lit (text "source   " ++ pad_right 10 name ++ text " frames="); Dec (ss_frames ss);
   Lit (text " kernel_drops="); Dec (ss_kernel_drops ss); Lit (text " read_errors="); Dec (ss_read_errors ss)].

(** [RingIngest::stats] with the number of threads and the ring's retries, or
    [FanOut::stats]. *)
Definition ring_ingest_line (frames batches threads retries : Z) : list Item :=
  [Lit (text "ingest   frames="); Dec frames; Lit (text " batches="); Dec batches;
   Lit (text " threads="); Dec threads; Lit (text " claim_retries="); Dec retries].

Definition fan_out_line (frames batches : Z) : list Item :=
  [Lit (text "ingest   frames="); Dec frames; Lit (text " batches="); Dec batches; Lit (text " threads=1")].

Definition consumer_line (r : Row) : list Item :=
  let c := es_counter (rw_stats r) in
  [Lit (text "consumer " ++ pad_right 10 (rw_name r) ++ text " sent="); Dec (c frames_sent_);
   Lit (text " bytes="); Dec (c bytes_sent_); Lit (text " batches="); Dec (c batches_sent_);
   Lit (text " dropped="); Dec (fs_dropped (rw_feed r)); Lit (text " would_block="); Dec (c would_block_);
   Lit (text " partial="); Dec (c partial_writes_); Lit (text " connects="); Dec (c connects_);
   Lit (text " disconnects="); Dec (c disconnects_); Lit (text " gaps_sent="); Dec (c gaps_sent_);
   Lit (text " frames_lost="); Dec (c frames_lost_); Lit (text " lingered="); Dec (c lingered_)].

(** Only when probes were sent; the times in microseconds, the last one halved. *)
Definition rtt_lines (r : Row) : list (list Item) :=
  let st := rw_stats r in let c := es_counter st in
  if c echoes_sent_ >? 0 then
    [[Lit (text "         " ++ pad_right 10 (rw_name r) ++ text " rtt sent="); Dec (c echoes_sent_);
      Lit (text " returned="); Dec (c echoes_returned_); Lit (text " lost="); Dec (c echoes_lost_);
      Lit (text " | p50=" ++ fixed 1 (ratio (es_rtt_p50_ns st) 1000)
           ++ text "us p99=" ++ fixed 1 (ratio (es_rtt_p99_ns st) 1000)
           ++ text "us max=" ++ fixed 1 (ratio (es_rtt_max_ns st) 1000)
           ++ text "us | one-way p50 ~" ++ fixed 1 (ratio (es_rtt_p50_ns st) 2000) ++ text "us")]]
  else [].

Definition summary (topology : list ascii) (sources : list (list ascii * SourceStats)) (ingest : list Item)
    (rows : list Row) : list (list Item) :=
  [] :: [Lit (text "topology " ++ topology)]
  :: map (λ x, source_line x.1 x.2) sources
  ++ [ingest]
  ++ concat (map (λ r, consumer_line r :: rtt_lines r) rows).

(** ** The loop *)

Section Loop.
Context {F E : Type} `{!ConsumerFeed F E}.

(** One turn: the signal flag and the clock of the loop condition, what the other threads
    do to the tap's feed meanwhile, the second clock reading, and the counters a report
    reads. *)
Record Turn := mkTurn {
  tn_stop : bool;
  tn_clock : Z;
  tn_tap : E;
  tn_now : Z;
  tn_total : Z;
  tn_rows : list Row
}.

(** [lp_out]: the lines on stdout; [lp_reports]: the reports on stderr. *)
Record Loop := mkLoop {
  lp_tap : option F;
  lp_next_report : Z;
  lp_last_frames : Z;
  lp_out : list (list Item);
  lp_reports : list Report
}.

Definition loop_start (tap : option F) (now : Z) : Loop := mkLoop tap (u64 (now + 1000000000)) 0 [] [].

(** The tap's frames, or the sleep. *)
Definition print_tap (t : Turn) (s : Loop) : Loop :=
  match lp_tap s with
  | None => s
  | Some f =>
      let (batch, f) := feed_pop 256 (tn_tap t) f in
      mkLoop (Some f) (lp_next_report s) (lp_last_frames s) (lp_out s ++ map tap_line batch) (lp_reports s)
  end.

Definition make_report (t : Turn) (s : Loop) : Loop :=
  if tn_now t >=? lp_next_report s then
    mkLoop (lp_tap s) (u64 (tn_now t + 1000000000)) (tn_total t) (lp_out s)
      (lp_reports s ++ [mkReport (tn_now t) (u64 (tn_total t - lp_last_frames s)) (tn_total t) (tn_rows t)])
  else s.

(** The loop condition. *)
Definition stays (deadline : Z) (t : Turn) : bool := keep_going deadline (tn_stop t) (tn_clock t).

(** [None]: the loop has not left. *)
Fixpoint main_loop (deadline : Z) (turns : list Turn) (s : Loop) : option Loop :=
  match turns with
  | [] => None
  | t :: turns => if stays deadline t then main_loop deadline turns (make_report t (print_tap t s)) else Some s
  end.

(** ** Specification *)

Definition tap_calls (turns : list Turn) : list (nat * E) := map (λ t, (256%nat, tn_tap t)) turns.

(** A signal, or, when a duration was asked for, its end. *)
Definition leaves_at (seconds now : Z) (t : Turn) : bool :=
  tn_stop t || ((0 <? seconds) && (now + seconds * 1000000000 <=? tn_clock t)).

(** The turns before the first that sees a reason to leave. *)
Fixpoint until_leave (seconds now : Z) (turns : list Turn) : list Turn :=
  match turns with
  | [] => []
  | t :: turns => if leaves_at seconds now t then [] else t :: until_leave seconds now turns
  end.

(** The frames ingested never go down, and the clock is far from the end of its range. *)
Fixpoint readings_ok (total : Z) (turns : list Turn) : Prop :=
  match turns with
  | [] => True
  | t :: turns => 0 <= total <= tn_total t ∧ tn_total t < 2 ^ 64 ∧ tn_clock t < 2 ^ 63 ∧ 0 <= tn_now t < 2 ^ 63 ∧
                  readings_ok (tn_total t) turns
  end.

(** The reports due: one in each turn that finds the clock at [next] or later, which is then
    a second further on; its rate is what has come in since the one before. *)
Fixpoint due (next total : Z) (turns : list Turn) : list Report :=
  match turns with
  | [] => []
  | t :: turns =>
      if next <=? tn_now t
      then mkReport (tn_now t) (tn_total t - total) (tn_total t) (tn_rows t)
           :: due (tn_now t + 1000000000) (tn_total t) turns
      else due next total turns
  end.

Definition rates (rs : list Report) : Z := foldr (λ r n, rp_rate r + n) 0 rs.

(** At least a second apart. *)
Fixpoint spaced (first : Z) (rs : list Report) : Prop :=
  match rs with
  | [] => True
  | r :: rs => first <= rp_at r ∧ spaced (rp_at r + 1000000000) rs
  end.
End Loop.
Arguments Turn : clear implicits.
Arguments Loop : clear implicits.

(** ** Lemmas: the turns *)

Section LoopSpec.
Context {F E : Type} `{!ConsumerFeed F E}.
Implicit Types (t : Turn E) (s : Loop F).

Definition turn s t : Loop F := make_report t (print_tap t s).

Lemma leaves_not_stays seconds now t :
  0 <= now → seconds < 2 ^ 31 → now + Z.max 0 seconds * 1000000000 < 2 ^ 64 →
  leaves_at seconds now t = true → stays (deadline_of seconds now) t = false.
Proof.
  intros H0 Hi Hb [H|[H1%Z.ltb_lt H2%Z.leb_le]%andb_true_iff]%orb_true_iff; unfold stays, keep_going; [by rewrite H|].
  apply andb_false_intro2, Z.ltb_ge. rewrite deadline_exact; lia.
Qed.

Lemma not_leaves_stays seconds now t :
  0 <= now → seconds < 2 ^ 31 → now + Z.max 0 seconds * 1000000000 < 2 ^ 64 → tn_clock t < 2 ^ 63 →
  leaves_at seconds now t = false → stays (deadline_of seconds now) t = true.
Proof.
  intros H0 Hi Hb Hc [Hs Hd]%orb_false_iff. unfold stays, keep_going. rewrite Hs. apply Z.ltb_lt.
  destruct (Z.ltb_spec 0 seconds) as [Hp|Hp]; [rewrite deadline_exact by lia; apply Z.leb_gt in Hd; lia|].
  unfold deadline_of. rewrite Z.gtb_ltb, (proj2 (Z.ltb_ge 0 seconds)) by lia. unfold uint64_max. lia.
Qed.

(** The loop makes the turns before the first with a reason to leave, and only those. *)
Lemma main_loop_until seconds now total (turns : list (Turn E)) s :
  0 <= now → seconds < 2 ^ 31 → now + Z.max 0 seconds * 1000000000 < 2 ^ 64 →
  let made := until_leave seconds now turns in
  readings_ok total made →
  main_loop (deadline_of seconds now) made s = None ∧
  (existsb (leaves_at seconds now) turns = true →
   main_loop (deadline_of seconds now) turns s = Some (fold_left turn made s)).
Proof.
  intros H0 Hi Hb. revert total s. induction turns as [|t turns IH]; intros total s; cbn [until_leave existsb]; [done|].
  destruct (leaves_at seconds now t) eqn:El.
  - intros _. split; [done|]. intros _. cbn [main_loop]. by rewrite leaves_not_stays.
  - intros (_ & _ & Hc & _ & Hr). cbn [main_loop fold_left orb]. rewrite not_leaves_stays by done. by eapply IH.
Qed.

Lemma make_report_tap t s :
  lp_tap (make_report t s) = lp_tap s ∧ lp_out (make_report t s) = lp_out s.
Proof. unfold make_report. by case_match. Qed.

Lemma turns_tap l s f :
  lp_tap s = Some f →
  lp_out (fold_left turn l s) = lp_out s ++ map tap_line (concat (pops (tap_calls l) f).1).
Proof.
  revert s f. induction l as [|t l IH]; intros s f Hf; [by rewrite app_nil_r|]. cbn [fold_left tap_calls map].
  rewrite pops_cons. destruct (feed_pop 256 (tn_tap t) f) as [b f'] eqn:Ep.
  assert (lp_tap (turn s t) = Some f' ∧ lp_out (turn s t) = lp_out s ++ map tap_line b) as [H1 H2].
  { unfold turn. destruct (make_report_tap t (print_tap t s)) as [-> ->]. unfold print_tap. by rewrite Hf, Ep. }
  rewrite (IH _ _ H1), H2. cbn [fst snd concat]. by rewrite map_app, <- app_assoc.
Qed.

Lemma turns_no_tap l s : lp_tap s = None → lp_out (fold_left turn l s) = lp_out s.
Proof.
  revert s. induction l as [|t l IH]; intros s Hf; [done|]. cbn [fold_left].
  assert (lp_tap (turn s t) = None ∧ lp_out (turn s t) = lp_out s) as [H1 <-]; [|by apply IH].
  unfold turn. destruct (make_report_tap t (print_tap t s)) as [-> ->]. unfold print_tap. by rewrite Hf.
Qed.

Lemma print_tap_reports t s :
  lp_next_report (print_tap t s) = lp_next_report s ∧ lp_last_frames (print_tap t s) = lp_last_frames s ∧
  lp_reports (print_tap t s) = lp_reports s.
Proof. unfold print_tap. destruct (lp_tap s) as [f|]; [|done]. by destruct (feed_pop _ _ f). Qed.

Lemma turns_reports l s total :
  readings_ok total l → 0 <= lp_last_frames s <= total →
  lp_reports (fold_left turn l s) = lp_reports s ++ due (lp_next_report s) (lp_last_frames s) l.
Proof.
  revert s total. induction l as [|t l IH]; intros s total Hr Hl; [by rewrite app_nil_r|].
  destruct Hr as (H1 & H2 & _ & H3 & Hr). cbn [fold_left due].
  destruct (print_tap_reports t s) as (P1 & P2 & P3). unfold turn, make_report. rewrite P1, P2, P3.
  rewrite Z.geb_leb. destruct (Z.leb_spec (lp_next_report s) (tn_now t)) as [Hd|Hd].
  - rewrite (IH _ (tn_total t)) by (done || cbn [lp_last_frames]; lia). cbn [lp_reports lp_next_report lp_last_frames].
    rewrite !u64_small by (unfold fits; pow_consts; lia). by rewrite <- app_assoc.
  - rewrite (IH _ (tn_total t)) by (done || rewrite P2; lia). by rewrite P1, P2, P3.
Qed.
End LoopSpec.

Lemma due_spaced {E} next total (l : list (Turn E)) : spaced next (due next total l).
Proof.
  revert next total. induction l as [|t l IH]; intros next total; cbn [due]; [done|].
  destruct (Z.leb_spec next (tn_now t)); [|apply IH]. split; [done|apply IH].
Qed.

Lemma due_rates {E} next total (l : list (Turn E)) :
  rates (due next total l) = default total (rp_total <$> last (due next total l)) - total.
Proof.
  revert next total. induction l as [|t l IH]; intros next total; cbn [due]; [simpl; lia|].
  destruct (next <=? tn_now t); [|apply IH]. rewrite last_cons.
  change (rates (?r :: ?rs)) with (rp_rate r + rates rs). cbn [rp_rate]. rewrite IH.
  destruct (last (due _ _ l)); simpl; lia.
Qed.

(** ** Lemmas: the lines *)

Lemma tap_line_separated f : 0 <= f_can_id f → separated (tap_line f) = true.
Proof. intros H. cbn -[Z.leb]. rewrite (proj2 (Z.leb_le 0 _)) by done. done. Qed.

Lemma rows_separated rs : separated (concat (map row_items rs)) = true.
Proof. induction rs as [|r rs IH]; [done|]. cbn [map concat row_items app separated]. rewrite IH. by destruct rs. Qed.

Lemma report_line_separated r : separated (report_line r) = true.
Proof.
  unfold report_line. cbn [app separated]. rewrite rows_separated. by destruct (rp_rows r).
Qed.

Lemma summary_readable topology sources ingest rows :
  separated ingest = true → Forall readable (summary topology sources ingest rows).
Proof.
  intros Hi. constructor; [done|]. constructor; [by apply read_printed|]. rewrite !Forall_app. split; [|split].
  - apply Forall_fmap, Forall_true. intros [name ss]. by apply read_printed.
  - constructor; [by apply read_printed|constructor].
  - apply Forall_concat, Forall_fmap, Forall_true. intros r. constructor; [by apply read_printed|].
    unfold rtt_lines. case_match; [|constructor]. constructor; [by apply read_printed|constructor].
Qed.

Lemma taps_readable log pos out pos' :
  good_log log → 0 <= pos → delivers log pos out pos' → Forall readable (map tap_line out).
Proof.
  intros Hg Hp Hd. apply Forall_fmap. eapply Forall_impl; [by eapply delivers_bus|].
  intros f [[[(_ & _ & _ & [Hid _] & _) _] _] _]. by apply read_printed, tap_line_separated.
Qed.

(** ** Properties *)

(** C38. The main thread tells the truth and comes to an end, and no earlier. For a clock that
    stays below 2^63 and a total that never goes down, the loop goes on as long as no turn
    has seen the signal or, when a duration was asked for, a clock that many seconds past
    the first reading, and has left once a turn has. The turns made are then those before
    that one: the tap has printed exactly the frames its feed delivered in them, which are
    frames of the published log at strictly increasing positions, one line each (nothing
    without a tap); there has been a report in every turn that found the clock a second or
    more past the one before, and in no other, with the frames ingested since, so that the
    rates add up to the total of the last one; and the numbers of every line of the tap, of
    the reports and of the summary can be read back from its text. *)
Theorem gateway_loop_exact {F E} `{!ConsumerFeed F E, !FeedSpec F E} (tap : option F) (log : list Frame)
    (pos seconds now first : Z) (turns : list (Turn E)) :
  0 <= now → seconds < 2 ^ 31 → now + Z.max 0 seconds * 1000000000 < 2 ^ 64 → 0 <= first < 2 ^ 63 →
  let made := until_leave seconds now turns in
  readings_ok 0 made →
  (∀ f, tap = Some f → feed_at f log pos ∧ pops_ok (tap_calls made) f log) →
  main_loop (deadline_of seconds now) made (loop_start tap first) = None ∧
  (existsb (leaves_at seconds now) turns = true →
   ∃ s, main_loop (deadline_of seconds now) turns (loop_start tap first) = Some s ∧
    (∀ f, tap = Some f → ∃ pos',
       let out := concat (pops (tap_calls made) f).1 in
       lp_out s = map tap_line out ∧ delivers (log ++ pops_added (tap_calls made) f) pos out pos') ∧
    (tap = None → lp_out s = []) ∧
    lp_reports s = due (first + 1000000000) 0 made ∧
    spaced (first + 1000000000) (lp_reports s) ∧
    rates (lp_reports s) = default 0 (rp_total <$> last (lp_reports s)) ∧
    Forall readable (lp_out s) ∧ Forall readable (map report_line (lp_reports s)) ∧
    (∀ topology sources frames batches threads retries rows,
       Forall readable (summary topology sources (ring_ingest_line frames batches threads retries) rows) ∧
       Forall readable (summary topology sources (fan_out_line frames batches) rows))).
Proof.
  intros H0 Hs Hb Hf made Hr Ht.
  destruct (main_loop_until seconds now 0 turns (loop_start tap first) H0 Hs Hb Hr) as [Hno Hyes].
  split; [exact Hno|]. intros He. eexists. split; [by apply Hyes|]. clear Hno Hyes. fold made.
  pose proof (turns_reports made (loop_start tap first) 0 Hr) as E1.
  cbn [lp_reports loop_start app lp_next_report lp_last_frames] in E1.
  rewrite u64_small in E1 by (unfold fits; pow_consts; lia). rewrite (E1 ltac:(lia)).
  assert (∀ f, tap = Some f → ∃ pos',
            lp_out (fold_left turn made (loop_start tap first)) = map tap_line (concat (pops (tap_calls made) f).1) ∧
            good_log (log ++ pops_added (tap_calls made) f) ∧ 0 <= pos ∧
            delivers (log ++ pops_added (tap_calls made) f) pos (concat (pops (tap_calls made) f).1) pos') as Htap.
  { intros f Ef. destruct (Ht f Ef) as [Hat Hok]. destruct (pops_deliver _ _ _ _ Hat Hok) as (pos' & P1 & P2).
    exists pos'. rewrite (turns_tap made _ f) by (by subst tap).
    split; [done|]. split; [apply (feed_at_good _ _ _ P1)|]. split; [|done]. apply (feed_at_good _ _ _ Hat). }
  assert (tap = None → lp_out (fold_left turn made (loop_start tap first)) = []) as Hno
    by (intros ->; by apply turns_no_tap).
  split_and!; try done.
  - intros f Ef. destruct (Htap f Ef) as (pos' & P1 & _ & _ & P2). by exists pos'.
  - apply due_spaced.
  - rewrite due_rates. apply Z.sub_0_r.
  - destruct tap as [f|]; [|by rewrite Hno]. destruct (Htap f eq_refl) as (pos' & -> & P1 & P2 & P3).
    by eapply taps_readable.
  - apply Forall_fmap, Forall_true. intros r. apply read_printed, report_line_separated.
  - intros. split; by apply summary_readable.
Qed.

(** ** Witnesses *)

(** The tap of a gateway with a ring of two cells: the first turn pops a batch inside which
    the reader is lapped, and reports; the second sees the end of the second asked for. *)
Definition loop_turns : list (Turn RingFeed.Env) :=
  [mkTurn false 10 (RingFeed.mkEnv [[RingFeed.ROpPublish (map demo_frame [10; 11])];
                                    [RingFeed.ROpPublish (map demo_frame [12; 13; 14])]] [] [])
     1000000007 5 [];
   mkTurn false 1000000010 (RingFeed.mkEnv [] [] []) 0 0 []].

Lemma gateway_loop_exact_witness :
  ∃ s : Loop RingFeed.t,
    main_loop (deadline_of 1 9) loop_turns (loop_start (Some (RingFeed.make demo_ring)) 7) = Some s ∧
    map print_items (lp_out s) = map text ["seq=0 src=1 id=00A len=8"; "seq=3 src=1 id=00D len=8"; "seq=4 src=1 id=00E len=8"]%string ∧
    map print_items (map report_line (lp_reports s)) = [text "ingest 5/s total=5"] ∧
    rates (lp_reports s) = 5.
Proof.
  destruct (gateway_loop_exact (Some (RingFeed.make demo_ring)) [] 0 1 9 7 loop_turns) as (_ & H).
  - lia.
  - lia.
  - lia.
  - lia.
  - vm_compute. split_and!; discriminate || done.
  - intros f [= <-]. split.
    + split; [apply demo_ring_holds|]. split; [by split; [constructor|]|done].
    + split; [|done]. split; [apply (bool_decide_unpack _); by vm_compute|by vm_compute].
  - destruct (H ltac:(by vm_compute)) as (s & E & _). clear H. exists s. split; [exact E|]. vm_compute in E. injection E as <-. split_and!; vm_compute; reflexivity.
Defined.
