(* ===== verification/ConsumerMain.v ===== *)
(** * ConsumerMain: the consumer processes (the [main] functions of src/src/probe_main.cpp,
      src/src/record_main.cpp, src/src/cadence_main.cpp and src/src/view_main.cpp)

    From the command line to the exit status, on the kernel of [Platform]: [program] is the
    loop of [Consumers.consume] with the connections it opens and closes and the deadline
    it stops at, the four mains are what surrounds it. *)

From Stdlib Require Import Ascii String SpecFloat.
From S2P Require Import Prelude Text Doubles Printf Frame Wire Samples GapTracker Egress FrameStream Cadence Consumers Programs View Options Platform.

(** ** The loop with its connections *)

(** A pass of the inner loop: the signal flag and the clock of its condition, the answers
    of the socket, and what the program's own readings say. *)
Record RawStep (H : Type) := mkRawStep {
  w_stop : bool;
  w_clock : Z;
  w_read : list ReadAnswer;
  w_echo : list (list SendAnswer);
  w_env : H
}.
Arguments mkRawStep {H}.
Arguments w_stop {H}.
Arguments w_clock {H}.
Arguments w_read {H}.
Arguments w_echo {H}.
Arguments w_env {H}.

(** A pass of the outer loop: its condition, how often the process's other thread has run,
    and, for a connection that is made, when, what the gateway sends and the passes of
    the inner loop. *)
Record RawAttempt (H : Type) := mkRawAttempt {
  ra_stop : bool;
  ra_clock : Z;
  ra_others : nat;
  ra_now : Z;
  ra_net : list Z;
  ra_steps : list (RawStep H)
}.
Arguments mkRawAttempt {H}.
Arguments ra_stop {H}.
Arguments ra_clock {H}.
Arguments ra_others {H}.
Arguments ra_now {H}.
Arguments ra_net {H}.
Arguments ra_steps {H}.

Section Program.
Context (alloc : gset Z → Z) (strerror gai_strerror : Z → list ascii).
Context {C H : Type} `{!Consumer C H}.

Definition step_of (deadline : Z) (w : RawStep H) : Step H :=
  mkStep (keep_going deadline (w_stop w) (w_clock w)) (w_read w) (w_echo w) (w_env w).

(** [others n]: what the process's other thread does in [n] of its turns. [None]: still
    running; [true]: the exit of a failed connect. *)
Fixpoint program (others : nat → Sys unit) (deadline : Z) (reconnect : bool) (host : list ascii) (port : Z)
    (raws : list (RawAttempt H)) (c : C) : Sys (option (bool * C)) :=
  match raws with
  | [] => mret None
  | a :: raws =>
      if negb (keep_going deadline (ra_stop a) (ra_clock a)) then mret (Some (false, c)) else
      others (ra_others a) ≫= λ _,
      r ← stream_connect alloc strerror gai_strerror host port;
      match r with
      | inl _ => if reconnect then program others deadline reconnect host port raws c else mret (Some (true, c))
      | inr fd =>
          match session (map (step_of deadline) (ra_steps a)) make_stream (ra_net a) (on_connect (ra_now a) c) with
          | None => mret None
          | Some (c, _) =>
              sys_close fd ≫= λ _,
              if reconnect then program others deadline reconnect host port raws (on_disconnect c)
              else mret (Some (false, on_disconnect c))
          end
      end
  end.
End Program.

(** ** The mains *)

(** The clock readings outside the loops: for the deadline, for the first progress line,
    and the start. *)
Record Clocks := mkClocks { ck_deadline : Z; ck_report : Z; ck_start : Z }.

Definition alone (n : nat) : Sys unit := mret tt.

(** [start + max(warmup, 0) * 10^9] *)
Definition measure_from (warmup start : Z) : Z :=
  u64 (start + u64 (u64 (if warmup >? 0 then warmup else 0) * 1000000000)).

Section Mains.
Context (alloc : gset Z → Z) (strerror gai_strerror : Z → list ascii).

Definition probe_start (o : ProbeOpt.Config) (k : Clocks) : Probe.t :=
  Probe.make (ProbeOpt.cross_machine o) (ProbeOpt.measure_e2e o) (measure_from (ProbeOpt.warmup o) (ck_start k))
    (u64 (ck_report k + 1000000000)).

Definition probe_main (args : list (list ascii)) (k : Clocks) (raws : list (RawAttempt Probe.Env))
  : Sys (option (Z * option Probe.t)) :=
  match ProbeOpt.options args with
  | Exit n => mret (Some (n, None))
  | Run o =>
      locked ← (if ProbeOpt.mlock o then lock_memory strerror else mret None);
      match locked with
      | Some _ => mret (Some (1, None))
      | None =>
          r ← program alloc strerror gai_strerror alone (deadline_of (ProbeOpt.seconds o) (ck_deadline k))
                (ProbeOpt.reconnect o) (ProbeOpt.host o) (ProbeOpt.port o) raws (probe_start o k);
          match r with
          | None => mret None
          | Some (true, _) => mret (Some (1, None))
          | Some (false, p) =>
              save_csv alloc (ProbeOpt.csv_path o) (text "gateway_latency_ns") (Probe.gw_latency p) ≫= λ _,
              mret (Some (exit_status (Probe.tally p), Some p))
          end
      end
  end.

Definition record_main (args : list (list ascii)) (k : Clocks) (raws : list (RawAttempt Recorder.Env))
  : Sys (option (Z * option Recorder.t)) :=
  match RecordOpt.options args with
  | Exit n => mret (Some (n, None))
  | Run o =>
      out ← sys_open alloc;
      if out <? 0 then mret (Some (1, None)) else
      r ← program alloc strerror gai_strerror alone (deadline_of (RecordOpt.seconds o) (ck_deadline k))
            (RecordOpt.reconnect o) (RecordOpt.host o) (RecordOpt.port o) raws
            (Recorder.make (RecordOpt.fsync_every o) (ck_start k));
      match r with
      | None => mret None
      | Some (true, _) => sys_close out ≫= λ _, mret (Some (1, None))
      | Some (false, r) =>
          sys_close out ≫= λ _,
          save_csv alloc (RecordOpt.csv_path o) (text "write_duration_ns") (Recorder.write_ns r) ≫= λ _,
          mret (Some (Recorder.exit_code r, Some r))
      end
  end.

Definition cadence_main (args : list (list ascii)) (k : Clocks) (raws : list (RawAttempt unit))
  : Sys (option (Z * option CadenceCheck.t)) :=
  match CadenceOpt.options args with
  | Exit n => mret (Some (n, None))
  | Run o =>
      r ← program alloc strerror gai_strerror alone (deadline_of (CadenceOpt.seconds o) (ck_deadline k))
            (CadenceOpt.reconnect o) (CadenceOpt.host o) (CadenceOpt.port o) raws
            (CadenceCheck.make (CadenceOpt.calibrate o) (CadenceOpt.factor o) (CadenceOpt.gap_blind o));
      mret (match r with
            | None => None
            | Some (true, _) => Some (1, None)
            | Some (false, c) => Some (exit_status (CadenceCheck.tally c), Some c)
            end)
  end.

(** The HTTP thread: one accepted connection is served and closed before the next. *)
Fixpoint http_turns (l : Listener) (n : nat) : Sys unit :=
  match n with
  | O => mret tt
  | S n =>
      r ← accept_nonblocking alloc strerror (l_listen_fd l);
      match r with
      | Accepted fd => sys_close fd ≫= λ _, http_turns l n
      | _ => http_turns l n
      end
  end.

Definition view_main (args : list (list ascii)) (k : Clocks) (raws : list (RawAttempt Z))
  : Sys (option (Z * option View)) :=
  match ViewOpt.options args with
  | Exit n => mret (Some (n, None))
  | Run o =>
      server ← Server_create alloc strerror (ViewOpt.http_port o);
      match server with
      | inl _ => mret (Some (1, None))
      | inr l =>
          r ← program alloc strerror gai_strerror (http_turns l) (deadline_of (ViewOpt.seconds o) (ck_deadline k))
                true (ViewOpt.host o) (ViewOpt.port o) raws (make_view (u64 (ck_report k + 1000000000)));
          match r with
          | None => mret None
          | Some (_, v) => close_listener l ≫= λ _, mret (Some (0, Some v))
          end
      end
  end.
End Mains.

(** ** Specification *)

Section Spec.
Context {C H : Type} `{!Consumer C H}.

(** The attempt a pass of [program] makes, given whether the connection was made. *)
Definition attempt_of (deadline : Z) (a : RawAttempt H) (connected : bool) : Attempt H :=
  mkAttempt (keep_going deadline (ra_stop a) (ra_clock a))
    (if connected then Some (ra_now a, ra_net a, map (step_of deadline) (ra_steps a)) else None).

Definition attempts_of (deadline : Z) (raws : list (RawAttempt H)) (connected : list bool) : list (Attempt H) :=
  zip_with (attempt_of deadline) raws connected.

(** Answers after which a read, and a reply to a probe, have returned. *)
Definition read_ends (answers : list ReadAnswer) : bool :=
  existsb (λ a, match a with RdEof | RdAgainTimeout | RdFail => true | _ => false end) answers.

Definition send_ends (answers : list SendAnswer) : bool :=
  existsb (λ a, (56 <=? sa_n a) || (sa_n a =? 0)
                || ((sa_n a <? 0) && match sa_errno a with EIntr => false | _ => true end)) answers.

Definition answering (w : RawStep H) : Prop :=
  read_ends (w_read w) = true ∧ kMaxCount <= Z.of_nat (length (w_echo w)) ∧
  Forall (λ a, send_ends a = true) (w_echo w).

(** A connection that is over by its last pass, if it is made. *)
Definition completes (deadline : Z) (a : RawAttempt H) : Prop :=
  Forall is_byte (ra_net a) ∧ Forall answering (ra_steps a) ∧
  Exists (λ w, keep_going deadline (w_stop w) (w_clock w) = false) (ra_steps a).

(** The run is over by its last pass. *)
Definition finishes (deadline : Z) (raws : list (RawAttempt H)) : Prop :=
  Forall (completes deadline) raws ∧
  Exists (λ a, keep_going deadline (ra_stop a) (ra_clock a) = false) raws.

(** How a main ends when its loop ends as [r] does. *)
Definition finish (status : C → Z) (r : option (bool * C)) : option (Z * option C) :=
  match r with
  | None => None
  | Some (true, _) => Some (1, None)
  | Some (false, c) => Some (status c, Some c)
  end.
End Spec.

(** What the kernel grants, read off its answers alone. A call that succeeds; locked memory;
    a descriptor; a connection: an address of the host that takes it, then the three calls
    that set the socket up; a listening socket: five calls and a second descriptor. *)
Definition call_granted (a : Answer) : bool := match a with Ok n => 0 <=? n | Err _ => false end.

Definition calls_granted (k : nat) (l : list Answer) : bool :=
  (k <=? length l)%nat && forallb call_granted (take k l).

Definition memory_granted (l : list Answer) : bool := match l with Ok 0 :: _ => true | _ => false end.

Definition descriptor_granted (l : list Answer) : bool := match l with Ok _ :: _ => true | _ => false end.

Fixpoint address_granted (n : nat) (l : list Answer) : option (list Answer) :=
  match n with
  | O => None
  | S n =>
      match l with
      | Ok _ :: Ok 0 :: l => Some l
      | Ok _ :: _ :: l => address_granted n l
      | Ok _ :: [] => address_granted n []
      | Err _ :: l => address_granted n l
      | [] => address_granted n []
      end
  end.

Definition connection_granted (l : list Answer) : bool :=
  match l with
  | Ok n :: l => match address_granted (Z.to_nat n) l with Some l => calls_granted 3 l | None => false end
  | _ => false
  end.

Definition listener_granted (l : list Answer) : bool :=
  match l with
  | Ok _ :: l => calls_granted 5 l && descriptor_granted (drop 5 l)
  | _ => false
  end.

Section Runs.
Context (alloc : gset Z → Z) (strerror gai_strerror : Z → list ascii).
Context {C H : Type} `{!Consumer C H}.

Definition next_granted : Sys bool := λ s, (connection_granted (os_answers s), s).

(** Which attempts the kernel grants a connection, up to the end of the loop; each that is
    made is closed before the next. *)
Fixpoint grants (others : nat → Sys unit) (deadline : Z) (reconnect : bool) (host : list ascii) (port : Z)
    (raws : list (RawAttempt H)) : Sys (list bool) :=
  match raws with
  | [] => mret []
  | a :: raws =>
      if negb (keep_going deadline (ra_stop a) (ra_clock a)) then mret [false] else
      others (ra_others a) ≫= λ _,
      ok ← next_granted;
      r ← stream_connect alloc strerror gai_strerror host port;
      (match r with inr fd => sys_close fd | inl _ => mret tt end) ≫= λ _,
      if reconnect then oks ← grants others deadline reconnect host port raws; mret (ok :: oks) else mret [ok]
  end.

(** How a main ends once its arguments are accepted: with status 1 when what it needs before
    the loop is not granted ([up]); otherwise as [consume] does for the connections the
    kernel grants from then on. It does end when its run is over. *)
Definition runs_as (up : bool) (s1 : Os) (others : nat → Sys unit) (reconnect : bool) (deadline : Z)
    (host : list ascii) (port : Z) (raws : list (RawAttempt H)) (start : C) (status : C → Z)
    (r : option (Z * option C)) : Prop :=
  r = (if up
       then finish status (consume reconnect
              (attempts_of deadline raws (grants others deadline reconnect host port raws s1).1) start)
       else Some (1, None)) ∧
  (finishes deadline raws → r ≠ None).
End Runs.

(** ** Lemmas: every read and every reply returns *)

Lemma fill_loop_ends need answers s net :
  read_ends answers = true →
  ∃ st s' net' rest, fill_loop need answers s net = Some (st, s', net', rest) ∧
                     (st = Status.kOk → read_ends rest = true).
Proof.
  revert s net. induction answers as [|a answers IH]; intros s net He; [done|].
  cbn [fill_loop]. destruct (negb (got_ s <? need)); [by eexists _, _, _, _|].
  destruct a; simpl in He; try (by eexists _, _, _, _; split; [done|]; try done); by apply IH.
Qed.

Lemma fill_ends need answers s net :
  read_ends answers = true →
  ∃ st s' net' rest, fill need answers s net = Some (st, s', net', rest) ∧
                     (st = Status.kOk → read_ends rest = true).
Proof. intros He. unfold fill. by apply fill_loop_ends. Qed.

Lemma read_payload_ends answers s net : read_ends answers = true → is_Some (read_payload answers s net).
Proof.
  intros He. unfold read_payload. destruct (fill_ends (need_ s) answers s net He) as (st & s' & net' & rest & -> & _).
  destruct st; try (by eexists). destruct (decode_records _ _ _) as [[] out]; by eexists.
Qed.

Lemma read_batch_ends answers s net : read_ends answers = true → is_Some (read_batch answers s net).
Proof.
  intros He. unfold read_batch. destruct (state_ s); [|by apply read_payload_ends].
  destruct (fill_ends (Z.of_nat kHeaderSize) answers s net He) as (st & s' & net' & rest & -> & Hr).
  destruct st; try (by eexists). destruct (decode_header _ _) as [[] h]; try (by eexists).
  case_match; [by eexists|]. by apply read_payload_ends, Hr.
Qed.

Lemma send_loop_ends msg answers :
  (length msg <= 56)%nat → send_ends answers = true → is_Some (send_loop msg answers).
Proof.
  revert msg. induction answers as [|a answers IH]; intros msg Hm He; [done|].
  destruct msg as [|b msg]; [by eexists|]. unfold send_ends in He. cbn [existsb] in He. cbn [send_loop].
  destruct (sa_n a >? 0) eqn:E1.
  - destruct (56 <=? sa_n a) eqn:E2.
    + rewrite drop_ge by lia. destruct answers; by eexists.
    + rewrite (proj2 (Z.eqb_neq (sa_n a) 0)), (proj2 (Z.ltb_ge (sa_n a) 0)) in He by lia. simpl in He.
      edestruct (IH (drop (Nat.min (Z.to_nat (sa_n a)) (length (b :: msg))) (b :: msg))) as [[ok bs] E];
        [rewrite length_drop; lia|exact He|]. rewrite E. by eexists.
  - rewrite (proj2 (Z.leb_gt 56 (sa_n a))) in He by lia. destruct (sa_n a <? 0) eqn:E2; [|by eexists].
    rewrite (proj2 (Z.eqb_neq (sa_n a) 0)) in He by lia. simpl in He.
    destruct (sa_errno a); try (by eexists). by apply IH.
Qed.

Lemma send_back_ends f answers s : send_ends answers = true → is_Some (send_back f answers s).
Proof.
  intros He. unfold send_back.
  destruct (send_loop_ends (echo_message f) answers) as [[[] bs] ->]; [|done|by eexists|by eexists].
  unfold echo_message, encode_header, encode_frame, store_le. rewrite length_app, !length_store_bytes.
  by rewrite !length_replicate.
Qed.

Section Returns.
Context {C H : Type} `{!Consumer C H}.

Lemma take_batch_ends h echo frames (c : C) s :
  (length frames <= length echo)%nat → Forall (λ a, send_ends a = true) echo →
  is_Some (take_batch h echo frames c s).
Proof.
  revert echo c s. induction frames as [|f frames IH]; intros echo c s Hl He; [by eexists|]. cbn [take_batch].
  simpl in Hl. destruct echo as [|a echo]; [simpl in Hl; lia|]. apply Forall_cons in He as [Ha He].
  destruct (is_echo f).
  - destruct (send_back_ends f a s Ha) as [[[ok bytes] s'] ->].
    destruct (IH echo c s') as [[[c' s''] sent] ->]; [simpl in Hl; lia|done|by eexists].
  - apply IH; [simpl in *; lia|by constructor].
Qed.

Lemma session_returns deadline (ws : list (RawStep H)) s net (c : C) :
  stream_wf s → Forall is_byte (held s ++ net) → Forall answering ws →
  Exists (λ w, keep_going deadline (w_stop w) (w_clock w) = false) ws →
  is_Some (session (map (step_of deadline) ws) s net c).
Proof.
  intros Hwf Hb Ha. revert s net c Hwf Hb. induction Ha as [|w ws (Hr & Hn & He) Ha IH]; intros s net c Hwf Hb Hx;
    [by apply Exists_nil in Hx|]. cbn [map session step_of st_go st_read st_echo st_env].
  destruct (keep_going deadline (w_stop w) (w_clock w)) eqn:Ek; [|by eexists].
  assert (Exists (λ w, keep_going deadline (w_stop w) (w_clock w) = false) ws) as Hx'
    by (apply Exists_cons in Hx as [?|?]; [congruence|done]). cbn [negb].
  destruct (read_batch_ends (w_read w) s net Hr) as [[[[st b] s1] net1] Er]. rewrite Er.
  destruct (read_batch_refines _ _ _ _ _ _ _ Hwf Hb Er) as [Hwf1 Hp].
  assert (st = Status.kOk → Forall is_byte (held s1 ++ net1) ∧ (length b <= length (w_echo w))%nat) as Hok.
  { intros ->. simpl in Hp. split; [by eapply parse_rest_bytes|].
    destruct (parse_batch_inv _ _ _ Hb Hp) as (_ & Hl & _). lia. }
  destruct st; [|..|]; try (by eexists); unfold after_read.
  - destruct (Hok eq_refl) as [Hb1 Hl].
    destruct (take_batch (w_env w) (w_echo w) b (begin_read (w_env w) Status.kOk b c) s1)
      as [[[c2 s2] sent]|] eqn:Et; [|by destruct (take_batch_ends (w_env w) (w_echo w) b
        (begin_read (w_env w) Status.kOk b c) s1 Hl He) as [? E]; rewrite E in Et].
    destruct (take_batch_spec _ _ _ _ _ _ _ _ Et) as (_ & (d & ->) & _).
    rewrite bool_decide_eq_false_2 by done.
    destruct (IH (with_drops d s1) net1 (end_read (w_env w) Status.kOk b c2) ltac:(by destruct Hwf1) Hb1 Hx') as [[c3 sent3] ->]. by eexists.
  - simpl in Hp. destruct Hp as [Hp _]. rewrite bool_decide_eq_false_2 by done. rewrite <- Hp in Hb.
    edestruct (IH s1 net1) as [[c3 sent3] E]; [done|done|done|]. rewrite E. by eexists.
Qed.

Lemma program_returns alloc strerror gai_strerror others deadline reconnect host port (raws : list (RawAttempt H)) (c : C) s :
  finishes deadline raws →
  (program alloc strerror gai_strerror others deadline reconnect host port raws c s).1 ≠ None.
Proof.
  intros [Hc Hx]. revert c s Hx. induction Hc as [|a raws (Hb & Ha & Hs) Hc IH]; intros c s Hx;
    [by apply Exists_nil in Hx|]. cbn [program].
  destruct (keep_going deadline (ra_stop a) (ra_clock a)) eqn:Ek; [|done].
  assert (Exists (λ a, keep_going deadline (ra_stop a) (ra_clock a) = false) raws) as Hx'
    by (apply Exists_cons in Hx as [?|?]; [congruence|done]). cbn [negb].
  unfold mbind, sys_bind. destruct (others (ra_others a) s) as [[] s1].
  destruct (stream_connect _ _ _ host port s1) as [[e|fd] s2]; [destruct reconnect; [by apply IH|done]|].
  destruct (session_returns deadline (ra_steps a) make_stream (ra_net a) (on_connect (ra_now a) c))
    as [[c' sent] E]; [done|done|done|done|]. rewrite E. destruct (sys_close fd s2) as [[] s3].
  destruct reconnect; [by apply IH|done].
Qed.
End Returns.

(** ** The answers decide *)

Section Granted.
Context (alloc : gset Z → Z) (strerror gai_strerror : Z → list ascii).
Context (alloc_new : ∀ X, alloc X ∉ X ∧ 0 <= alloc X).

Lemma call_decides s :
  let r := sys_call s in
  (0 <=? r.1) = calls_granted 1 (os_answers s) ∧ os_answers r.2 = drop 1 (os_answers s).
Proof.
  unfold sys_call, answer, mbind, sys_bind, calls_granted.
  destruct (os_answers s) as [|[n|e] l] eqn:Eo; cbn; rewrite ?drop_0, ?andb_true_r; done.
Qed.

Lemma open_decides s :
  let r := sys_open alloc s in
  (0 <=? r.1) = descriptor_granted (os_answers s) ∧ os_answers r.2 = drop 1 (os_answers s).
Proof.
  unfold sys_open, get_open, add_open, answer, mbind, sys_bind. destruct (os_answers s) as [|[n|e] l] eqn:Eo; cbn; rewrite ?drop_0; try done.
  split; [|done]. apply Z.leb_le, alloc_new.
Qed.

Lemma calls_granted_S k l : calls_granted (S k) l = calls_granted 1 l && calls_granted k (drop 1 l).
Proof.
  unfold calls_granted. destruct l as [|a l]; [done|]. cbn. rewrite drop_0.
  by destruct (k <=? length l)%nat, (call_granted a), (forallb call_granted (take k l)).
Qed.

Lemma nonblocking_decides fd s :
  let r := set_nonblocking strerror fd s in
  match r.1 with None => true | Some _ => false end = calls_granted 2 (os_answers s) ∧
  (r.1 = None → os_answers r.2 = drop 2 (os_answers s)).
Proof.
  rewrite calls_granted_S. unfold set_nonblocking, mbind, sys_bind. destruct (call_decides s) as [E1 E2].
  destruct (sys_call s) as [flags s1]. cbn [fst snd] in *. rewrite <- E1.
  destruct (Z.ltb_spec flags 0); [by rewrite (proj2 (Z.leb_gt 0 flags)) by lia|].
  rewrite (proj2 (Z.leb_le 0 flags)), andb_true_l by lia.
  destruct (call_decides s1) as [E3 E4]. destruct (sys_call s1) as [rc s2]. cbn [fst snd] in *.
  rewrite <- E2, <- E3. destruct (Z.ltb_spec rc 0).
  - by rewrite (proj2 (Z.leb_gt 0 rc)) by lia.
  - rewrite (proj2 (Z.leb_le 0 rc)) by lia. split; [done|]. intros _. cbn. rewrite E4, E2, drop_drop. done.
Qed.

Lemma nodelay_decides fd s :
  let r := set_nodelay strerror fd s in
  match r.1 with None => true | Some _ => false end = calls_granted 1 (os_answers s) ∧
  (r.1 = None → os_answers r.2 = drop 1 (os_answers s)).
Proof.
  unfold set_nodelay, mbind, sys_bind. destruct (call_decides s) as [E1 E2].
  destruct (sys_call s) as [rc s1]. cbn [fst snd] in *. rewrite <- E1. destruct (Z.ltb_spec rc 0).
  - by rewrite (proj2 (Z.leb_gt 0 rc)) by lia.
  - by rewrite (proj2 (Z.leb_le 0 rc)) by lia.
Qed.

Lemma memory_decides s :
  match (lock_memory strerror s).1 with None => true | Some _ => false end = memory_granted (os_answers s).
Proof.
  unfold lock_memory, sys_call, answer, mbind, sys_bind. by destruct (os_answers s) as [|[[]|e] l].
Qed.

Lemma connect_decides fd e s :
  let r := sys_connect fd e s in
  (r.1 =? 0) = memory_granted (os_answers s) ∧ os_answers r.2 = drop 1 (os_answers s).
Proof.
  unfold sys_connect, sys_call, answer, mbind, sys_bind.
  destruct (os_answers s) as [|[[]|e'] l] eqn:Eo; cbn; rewrite ?drop_0; done.
Qed.

Lemma close_answers fd s : os_answers (sys_close fd s).2 = os_answers s.
Proof. unfold sys_close. simpl. by case_decide. Qed.

Lemma addresses_decide host port n s :
  let r := try_addresses alloc host port n s in
  match address_granted n (os_answers s) with
  | Some l => 0 <= r.1 ∧ os_answers r.2 = l
  | None => r.1 < 0
  end.
Proof.
  revert s. induction n as [|n IH]; intros s; cbn [try_addresses address_granted]; [done|].
  unfold mbind, sys_bind. destruct (open_decides s) as [E1 E2]. destruct (sys_open alloc s) as [fd s1].
  cbn [fst snd] in *. destruct (Z.ltb_spec fd 0) as [Hn|Hn].
  - rewrite (proj2 (Z.leb_gt 0 fd)) in E1 by lia. specialize (IH s1). rewrite E2 in IH.
    destruct (os_answers s) as [|[m|e] l]; [exact IH|done|exact IH].
  - rewrite (proj2 (Z.leb_le 0 fd)) in E1 by lia. destruct (os_answers s) as [|[m|e] l]; [done| |done].
    change (drop 1 (Ok m :: l)) with l in E2. destruct (connect_decides fd (Peer host port) s1) as [E3 E4].
    rewrite E2 in E3, E4. destruct (sys_connect fd (Peer host port) s1) as [rc s2]. cbn [fst snd] in *.
    destruct (rc =? 0).
    + by destruct l as [|[[]|e] l].
    + pose proof (close_answers fd s2) as Ec. destruct (sys_close fd s2) as [[] s3]. cbn [snd] in Ec.
      specialize (IH s3). rewrite Ec, E4 in IH. by destruct l as [|[[]|e] l].
Qed.

Lemma connection_decides host port s :
  match (stream_connect alloc strerror gai_strerror host port s).1 with inr _ => true | inl _ => false end
  = connection_granted (os_answers s).
Proof.
  unfold stream_connect, connect_to, connection_granted, mbind, sys_bind. unfold answer at 1.
  destruct (os_answers s) as [|[n|e] l]; [done| |done]. cbn [fst snd].
  set (s0 := mkOs _ _ _ l _). pose proof (addresses_decide host port (Z.to_nat n) s0) as Ha.
  change (os_answers s0) with l in Ha. cbv zeta in Ha.
  destruct (try_addresses alloc host port (Z.to_nat n) s0) as [fd s1]. cbn [fst snd] in Ha.
  destruct (address_granted (Z.to_nat n) l) as [l'|].
  2: { rewrite (proj2 (Z.ltb_lt fd 0)) by done. unfold fail, message, mbind, sys_bind. done. }
  destruct Ha as [Hfd Hl]. rewrite (proj2 (Z.ltb_ge fd 0)) by lia. rewrite calls_granted_S, <- Hl.
  destruct (nodelay_decides fd s1) as [E1 E2]. destruct (set_nodelay strerror fd s1) as [[e|] s2]; cbn [fst snd] in *;
    rewrite <- E1; [by destruct (sys_close fd s2)|]. rewrite andb_true_l, <- (E2 eq_refl). cbn [mret sys_ret].
  destruct (nonblocking_decides fd s2) as [E3 _]. destruct (set_nonblocking strerror fd s2) as [[e|] s3]; cbn [fst snd] in *;
    rewrite <- E3; [by destruct (sys_close fd s3)|done].
Qed.

Lemma bind_to_decides fd e s :
  let r := sys_bind_to fd e s in
  (0 <=? r.1) = calls_granted 1 (os_answers s) ∧ os_answers r.2 = drop 1 (os_answers s).
Proof.
  unfold sys_bind_to, mbind, sys_bind. destruct (call_decides s) as [E1 E2]. destruct (sys_call s) as [rc s1].
  cbn [fst snd] in *. by destruct (rc <? 0).
Qed.

Lemma listen_decides port s :
  let r := listen_on alloc strerror port s in
  match r.1 with inr _ => true | inl _ => false end
  = (descriptor_granted (os_answers s) && calls_granted 5 (drop 1 (os_answers s))) ∧
  ((∃ fd, r.1 = inr fd) → os_answers r.2 = drop 6 (os_answers s)).
Proof.
  cbv zeta. unfold listen_on, mbind, sys_bind. destruct (open_decides s) as [E1 E2]. destruct (sys_open alloc s) as [fd s1].
  cbn [fst snd] in *. rewrite <- E1, <- E2. destruct (Z.ltb_spec fd 0).
  { rewrite (proj2 (Z.leb_gt 0 fd)) by lia. split; [done|]. by intros (x & ?). }
  rewrite (proj2 (Z.leb_le 0 fd)), andb_true_l by lia. rewrite (calls_granted_S 4), (calls_granted_S 3), (calls_granted_S 2).
  destruct (call_decides s1) as [E3 E4]. destruct (sys_call s1) as [rc s2]. cbn [fst snd] in *. rewrite <- E3, <- E4.
  destruct (Z.ltb_spec rc 0).
  { rewrite (proj2 (Z.leb_gt 0 rc)) by lia. split; [done|]. by intros (x & ?). }
  rewrite (proj2 (Z.leb_le 0 rc)), andb_true_l by lia.
  destruct (bind_to_decides fd (Port port) s2) as [E5 E6]. destruct (sys_bind_to fd (Port port) s2) as [rc2 s3].
  cbn [fst snd] in *. rewrite <- E5, <- E6. destruct (Z.ltb_spec rc2 0).
  { rewrite (proj2 (Z.leb_gt 0 rc2)) by lia. split; [done|]. by intros (x & ?). }
  rewrite (proj2 (Z.leb_le 0 rc2)), andb_true_l by lia.
  destruct (call_decides s3) as [E7 E8]. destruct (sys_call s3) as [rc3 s4]. cbn [fst snd] in *. rewrite <- E7, <- E8.
  destruct (Z.ltb_spec rc3 0).
  { rewrite (proj2 (Z.leb_gt 0 rc3)) by lia. split; [done|]. by intros (x & ?). }
  rewrite (proj2 (Z.leb_le 0 rc3)), andb_true_l by lia.
  destruct (nonblocking_decides fd s4) as [E9 E10]. destruct (set_nonblocking strerror fd s4) as [[e|] s5];
    cbn [fst snd] in *; rewrite <- E9.
  - destruct (sys_close fd s5). split; [done|]. by intros (x & ?).
  - split; [done|]. intros _. cbn. rewrite (E10 eq_refl), E8, E6, E4, E2, !drop_drop. done.
Qed.

Lemma listener_decides port s :
  match (Server_create alloc strerror port s).1 with inr _ => true | inl _ => false end
  = listener_granted (os_answers s).
Proof.
  assert (listener_granted (os_answers s)
          = descriptor_granted (os_answers s) && calls_granted 5 (drop 1 (os_answers s))
            && descriptor_granted (drop 6 (os_answers s))) as ->.
  { destruct (os_answers s) as [|[n|e] l]; [done| |done]. done. }
  unfold Server_create, mbind, sys_bind. destruct (listen_decides port s) as [E1 E2].
  destruct (listen_on alloc strerror port s) as [[e|fd] s1]; cbn [fst snd] in *; rewrite <- E1; [done|].
  rewrite andb_true_l, <- (E2 ltac:(eauto)). destruct (open_decides s1) as [E3 _].
  destruct (sys_open alloc s1) as [sfd s2]. cbn [fst snd] in *. rewrite <- E3. destruct (Z.ltb_spec sfd 0).
  - by rewrite (proj2 (Z.leb_gt 0 sfd)) by lia.
  - rewrite (proj2 (Z.leb_le 0 sfd)) by lia. by destruct (local_port fd s2).
Qed.
End Granted.

(** ** The triples *)

Section Triples.
Context (alloc : gset Z → Z) (strerror gai_strerror : Z → list ascii).
Context (alloc_new : ∀ X, alloc X ∉ X ∧ 0 <= alloc X).

(** [program] is [consume] for the connections the kernel grants. *)
Lemma program_consumes {C H} `{!Consumer C H} others deadline reconnect host port (raws : list (RawAttempt H)) (c : C) s :
  (program alloc strerror gai_strerror others deadline reconnect host port raws c s).1
  = consume reconnect
      (attempts_of deadline raws (grants alloc strerror gai_strerror others deadline reconnect host port raws s).1) c.
Proof.
  revert c s. induction raws as [|a raws IH]; intros c s; cbn [program grants]; [done|].
  destruct (keep_going deadline (ra_stop a) (ra_clock a)) eqn:Ek; cbn [negb].
  2: { unfold attempts_of. cbn [fst mret sys_ret zip_with consume attempt_of at_go]. by rewrite Ek. }
  unfold mbind, sys_bind. destruct (others (ra_others a) s) as [[] s1]. cbn [next_granted fst snd].
  pose proof (connection_decides alloc strerror gai_strerror alloc_new host port s1) as Hg.
  destruct (stream_connect alloc strerror gai_strerror host port s1) as [r s2]. cbn [fst] in Hg. rewrite <- Hg. clear Hg.
  assert (∀ ok oks, consume reconnect (attempts_of deadline (a :: raws) (ok :: oks)) c =
    if ok then match session (map (step_of deadline) (ra_steps a)) make_stream (ra_net a) (on_connect (ra_now a) c) with
               | None => None
               | Some (c, _) => if reconnect then consume reconnect (attempts_of deadline raws oks) (on_disconnect c)
                                else Some (false, on_disconnect c)
               end
    else if reconnect then consume reconnect (attempts_of deadline raws oks) c else Some (true, c)) as Hcons.
  { intros [] oks; unfold attempts_of; cbn [zip_with consume attempt_of at_go at_conn]; by rewrite Ek. }
  destruct r as [e|fd].
  - cbn [mret sys_ret]. destruct reconnect; [|cbn [fst mret sys_ret]; by rewrite Hcons].
    specialize (IH c s2). destruct (grants _ _ _ _ _ _ _ _ _ s2) as [oks s3]. cbn [fst mret sys_ret] in *. by rewrite Hcons.
  - destruct (sys_close fd s2) as [[] s3] eqn:Ec.
    destruct (session _ _ _ _) as [[c' sent]|] eqn:Es.
    + rewrite Ec. destruct reconnect; [|cbn [fst mret sys_ret]; by rewrite Hcons].
      specialize (IH (on_disconnect c') s3). destruct (grants _ _ _ _ _ _ _ _ _ s3) as [oks s4].
      cbn [fst mret sys_ret] in *. by rewrite Hcons.
    + destruct reconnect; [|cbn [fst mret sys_ret]; by rewrite Hcons].
      destruct (grants _ _ _ _ _ _ _ _ _ s3) as [oks s4]. cbn [fst mret sys_ret]. by rewrite Hcons.
Qed.

(** It owns nothing at its end. *)
Lemma holds_program {C H} `{!Consumer C H} others D deadline reconnect host port (raws : list (RawAttempt H)) (c : C) :
  (∀ n E, holds E (others n) (same E)) →
  holds D (program alloc strerror gai_strerror others deadline reconnect host port raws c) (λ r E, r ≠ None → E = D).
Proof.
  intros Ho. revert c. induction raws as [|a raws IH]; intros c; cbn [program]; [by apply holds_ret|].
  destruct (negb _); [by apply holds_ret|]. eapply holds_bind; [apply Ho|]. intros [] D1 ->.
  apply gives_bind; [by apply holds_stream_connect|..]; cbv beta iota.
  { intros _. destruct reconnect; [apply IH|by apply holds_ret]. }
  intros fd Hfd. destruct (session _ _ _ _) as [[c' sent]|]; [|by apply holds_ret].
  eapply holds_bind; [by apply holds_close_last|]. intros [] D1 ->.
  destruct reconnect; [apply IH|by apply holds_ret].
Qed.

Definition peer_note (host : list ascii) (port : Z) (x : Note) : Prop := ∃ fd, x = Bound fd (Peer host port).

(** It connects to nobody else. *)
Lemma logs_program {C H} `{!Consumer C H} others deadline reconnect host port (raws : list (RawAttempt H)) (c : C) :
  (∀ n, logs (others n) quiet) →
  logs (program alloc strerror gai_strerror others deadline reconnect host port raws c) (λ _, Forall (peer_note host port)).
Proof.
  intros Ho. revert c. induction raws as [|a raws IH]; intros c; cbn [program]; [by apply logs_ret; constructor|].
  destruct (negb _); [by apply logs_ret; constructor|]. eapply logs_bind; [apply Ho|]. intros [] ? ->.
  eapply logs_bind; [apply logs_stream_connect|]. intros r l [Hl _].
  assert (∀ c, logs (program alloc strerror gai_strerror others deadline reconnect host port raws c)
                    (λ _ l', Forall (peer_note host port) (l ++ l'))) as Hrest.
  { intros c'. eapply logs_conseq; [apply IH|]. intros ? l' H'. by apply Forall_app. }
  destruct r as [e|fd].
  - destruct reconnect; [apply Hrest|]. apply logs_ret. by rewrite app_nil_r.
  - destruct (session _ _ _ _) as [[c' sent]|]; [|apply logs_ret; by rewrite app_nil_r].
    eapply logs_bind; [apply logs_close|]. intros [] ? ->. cbn [app].
    destruct reconnect; [apply Hrest|]. apply logs_ret. by rewrite app_nil_r.
Qed.

Lemma holds_http_turns l n D : holds D (http_turns alloc strerror l n) (same D).
Proof.
  induction n as [|n IH]; cbn [http_turns]; [by apply holds_ret|].
  eapply holds_bind; [by apply holds_accept|]. intros [fd| |e] E; simpl; [|by intros ->..].
  intros [Hn ->]. eapply holds_bind; [by apply holds_close_last|]. by intros [] E ->.
Qed.

Lemma logs_http_turns l n : logs (http_turns alloc strerror l n) quiet.
Proof.
  induction n as [|n IH]; cbn [http_turns]; [by apply logs_ret|].
  eapply (logs_bind _ _ quiet); [apply logs_accept|]. intros [fd| |e] ? ->; try exact IH. log_step. exact IH.
Qed.

(** The descriptors a main leaves, whatever its result. *)
Lemma holds_probe_main D args k raws :
  holds D (probe_main alloc strerror gai_strerror args k raws) (λ r E, r ≠ None → E = D).
Proof.
  unfold probe_main. destruct (ProbeOpt.options args) as [o|n]; [|by apply holds_ret].
  eapply holds_bind; [instantiate (1 := same D); destruct (ProbeOpt.mlock o); [apply holds_lock_memory|by apply holds_ret]|].
  intros [e|] E ->; [by apply holds_ret|]. eapply holds_bind; [apply holds_program; by intros; apply holds_ret|].
  intros [[[] p]|] E HE; [by apply holds_ret; rewrite HE| |by apply holds_ret]. rewrite HE by done.
  eapply holds_bind; [by apply holds_save_csv|]. intros csv E' ->. by apply holds_ret.
Qed.

Lemma holds_record_main D args k raws :
  holds D (record_main alloc strerror gai_strerror args k raws) (λ r E, r ≠ None → E = D).
Proof.
  unfold record_main. destruct (RecordOpt.options args) as [o|n]; [|by apply holds_ret].
  apply open_gives; [done|..]; intros out Hout; cbv beta;
    [rewrite (proj2 (Z.ltb_lt out 0)) by lia; by apply holds_ret|].
  intros Hn. rewrite (proj2 (Z.ltb_ge out 0)) by lia.
  eapply holds_bind; [apply holds_program; by intros; apply holds_ret|].
  intros [[b r]|] E HE; [|by apply holds_ret]. rewrite HE by done.
  destruct b; (eapply holds_bind; [by apply holds_close_last|]; intros [] E' ->); [by apply holds_ret|].
  eapply holds_bind; [by apply holds_save_csv|]. intros csv E' ->. by apply holds_ret.
Qed.

Lemma holds_cadence_main D args k raws :
  holds D (cadence_main alloc strerror gai_strerror args k raws) (λ r E, r ≠ None → E = D).
Proof.
  unfold cadence_main. destruct (CadenceOpt.options args) as [o|n]; [|by apply holds_ret].
  eapply holds_bind; [apply holds_program; by intros; apply holds_ret|].
  intros [[b c]|] E HE; apply holds_ret; [rewrite HE by done; by destruct b|done].
Qed.

Lemma holds_view_main D args k raws :
  holds D (view_main alloc strerror gai_strerror args k raws) (λ r E, r ≠ None → E = D).
Proof.
  unfold view_main. destruct (ViewOpt.options args) as [o|n]; [|by apply holds_ret].
  eapply holds_bind; [by apply holds_listener|]. intros [e|l] E; simpl; [intros ->; by apply holds_ret|].
  intros (H1 & H2 & H3 & ->). eapply holds_bind; [apply holds_program, holds_http_turns|].
  intros [[b v]|] E HE; [|by apply holds_ret]. rewrite HE by done.
  eapply holds_bind; [by apply (holds_close_listener alloc)|]. intros [] E' ->. by apply holds_ret.
Qed.

Lemma consume_retries {C H} `{!Consumer C H} (attempts : list (Attempt H)) (c c' : C) b :
  consume true attempts c = Some (b, c') → b = false.
Proof. intros E. apply consume_failed in E as ->. destruct attempts as [|a l]; [done|]. cbn. by rewrite andb_false_r. Qed.

(** The loop and what follows it. *)
Lemma run_consumes {C H} `{!Consumer C H} others deadline reconnect host port (raws : list (RawAttempt H))
    (start : C) status (k : option (bool * C) → Sys (option (Z * option C))) s :
  (∀ r s, (reconnect = true → ∀ c, r ≠ Some (true, c)) → (k r s).1 = finish status r) →
  runs_as alloc strerror gai_strerror true s others reconnect deadline host port raws start status
    ((program alloc strerror gai_strerror others deadline reconnect host port raws start ≫= k) s).1.
Proof.
  intros Hk. pose proof (program_consumes others deadline reconnect host port raws start s) as E.
  pose proof (program_returns alloc strerror gai_strerror others deadline reconnect host port raws start s) as Hr.
  unfold runs_as, mbind, sys_bind. destruct (program _ _ _ _ _ _ _ _ _ _ s) as [r s1]. cbn [fst] in *.
  rewrite Hk. 2: { intros -> c ->. symmetry in E. by apply consume_retries in E. }
  split; [by rewrite E|]. intros Hf. specialize (Hr Hf). by destruct r as [[[] c]|].
Qed.

(** *** Each main: where it connects, and how it ends *)

Lemma logs_probe_main args k raws o :
  ProbeOpt.options args = Run o →
  logs (probe_main alloc strerror gai_strerror args k raws) (λ _, Forall (peer_note (ProbeOpt.host o) (ProbeOpt.port o))).
Proof.
  intros Eo. unfold probe_main. rewrite Eo.
  eapply (logs_bind _ _ quiet); [destruct (ProbeOpt.mlock o); [apply logs_lock_memory|by apply logs_ret]|].
  intros [e|] l ->; [by apply logs_ret; constructor|]. eapply logs_bind; [apply logs_program; by intros; apply logs_ret|].
  intros [[[] p]|] l Hl; cbn [app]; [apply logs_ret; by rewrite app_nil_r| |apply logs_ret; by rewrite app_nil_r].
  eapply logs_bind; [apply logs_save_csv|]. intros csv l' ->. apply logs_ret. by rewrite !app_nil_r.
Qed.

Lemma logs_record_main args k raws o :
  RecordOpt.options args = Run o →
  logs (record_main alloc strerror gai_strerror args k raws) (λ _, Forall (peer_note (RecordOpt.host o) (RecordOpt.port o))).
Proof.
  intros Eo. unfold record_main. rewrite Eo. eapply logs_bind; [apply logs_open|]. intros out l ->.
  destruct (out <? 0); [by apply logs_ret; constructor|]. eapply logs_bind; [apply logs_program; by intros; apply logs_ret|].
  intros [[b r]|] l Hl; cbn [app]; [|apply logs_ret; by rewrite app_nil_r].
  destruct b; (eapply logs_bind; [apply logs_close|]; intros [] ? ->).
  - apply logs_ret. by rewrite !app_nil_r.
  - eapply logs_bind; [apply logs_save_csv|]. intros csv l' ->. apply logs_ret. by rewrite !app_nil_r.
Qed.

Lemma logs_cadence_main args k raws o :
  CadenceOpt.options args = Run o →
  logs (cadence_main alloc strerror gai_strerror args k raws) (λ _, Forall (peer_note (CadenceOpt.host o) (CadenceOpt.port o))).
Proof.
  intros Eo. unfold cadence_main. rewrite Eo. eapply logs_bind; [apply logs_program; by intros; apply logs_ret|].
  intros r l Hl. apply logs_ret. by rewrite app_nil_r.
Qed.

Lemma logs_view_main args k raws o :
  ViewOpt.options args = Run o →
  logs (view_main alloc strerror gai_strerror args k raws)
    (λ _, Forall (λ x, (∃ fd, x = Bound fd (Peer (ViewOpt.host o) (ViewOpt.port o))) ∨
                       ∃ fd, x = Bound fd (Port (ViewOpt.http_port o)))).
Proof.
  intros Eo. unfold view_main. rewrite Eo. eapply logs_bind; [apply logs_listener_only|]. intros r l Hl.
  assert (Forall (λ x, (∃ fd, x = Bound fd (Peer (ViewOpt.host o) (ViewOpt.port o))) ∨
                       ∃ fd, x = Bound fd (Port (ViewOpt.http_port o))) l) as Hl'
    by (eapply Forall_impl; [exact Hl|]; auto).
  destruct r as [e|x]; [apply logs_ret; by rewrite app_nil_r|].
  eapply logs_bind; [apply logs_program, logs_http_turns|]. intros r l2 Hl2.
  assert (Forall (λ x, (∃ fd, x = Bound fd (Peer (ViewOpt.host o) (ViewOpt.port o))) ∨
                       ∃ fd, x = Bound fd (Port (ViewOpt.http_port o))) (l ++ l2)) as Hl3
    by (apply Forall_app; split; [done|]; eapply Forall_impl; [exact Hl2|]; auto).
  destruct r as [[b v]|]; [|apply logs_ret; by rewrite app_nil_r].
  unfold close_listener. eapply logs_bind; [eapply logs_bind; [apply logs_close|]; intros [] ? ->; apply logs_close|].
  intros [] l' Hl4. simpl in Hl4. red in Hl4. apply logs_ret. rewrite Hl4, !app_nil_r. done.
Qed.

Lemma probe_runs args k raws o s :
  ProbeOpt.options args = Run o →
  runs_as alloc strerror gai_strerror (negb (ProbeOpt.mlock o) || memory_granted (os_answers s))
    (if ProbeOpt.mlock o then (answer s).2 else s) alone
    (ProbeOpt.reconnect o) (deadline_of (ProbeOpt.seconds o) (ck_deadline k)) (ProbeOpt.host o) (ProbeOpt.port o)
    raws (probe_start o k) (λ p, exit_status (Probe.tally p))
    (probe_main alloc strerror gai_strerror args k raws s).1.
Proof.
  intros Eo. unfold probe_main. rewrite Eo. set (m := if ProbeOpt.mlock o then lock_memory strerror else mret None).
  assert (match (m s).1 with None => true | Some _ => false end
          = (negb (ProbeOpt.mlock o) || memory_granted (os_answers s)) ∧
          ((m s).1 = None → (m s).2 = if ProbeOpt.mlock o then (answer s).2 else s)) as [E1 E2].
  { unfold m. destruct (ProbeOpt.mlock o); [|done]. split; [apply memory_decides|].
    unfold lock_memory, sys_call, mbind, sys_bind. destruct (answer s) as [[n|e] s1]; cbn; [by destruct (n =? 0)|done]. }
  change ((m ≫= ?f) s) with (let (a, s') := m s in f a s'). destruct (m s) as [[e|] s1]; cbn [fst snd] in *; rewrite <- E1.
  - split; [done|done].
  - rewrite <- E2 by done. apply run_consumes. intros [[[] p]|] s2 _; try done.
    unfold mbind, sys_bind. by destruct (save_csv _ _ _ _ s2).
Qed.

Lemma record_runs args k raws o s :
  RecordOpt.options args = Run o →
  runs_as alloc strerror gai_strerror (descriptor_granted (os_answers s)) (sys_open alloc s).2 alone
    (RecordOpt.reconnect o) (deadline_of (RecordOpt.seconds o) (ck_deadline k)) (RecordOpt.host o) (RecordOpt.port o)
    raws (Recorder.make (RecordOpt.fsync_every o) (ck_start k)) Recorder.exit_code
    (record_main alloc strerror gai_strerror args k raws s).1.
Proof.
  intros Eo. unfold record_main. rewrite Eo. destruct (open_decides alloc alloc_new s) as [E1 _].
  change ((sys_open alloc ≫= ?f) s) with (let (a, s') := sys_open alloc s in f a s').
  destruct (sys_open alloc s) as [out s1]; cbn [fst snd] in *. rewrite <- E1. destruct (Z.ltb_spec out 0).
  - rewrite (proj2 (Z.leb_gt 0 out)) by lia. split; [done|done].
  - rewrite (proj2 (Z.leb_le 0 out)) by lia. apply run_consumes. intros [[[] r]|] s2 _; try done.
    unfold mbind, sys_bind. destruct (sys_close out s2) as [[] s3]. by destruct (save_csv _ _ _ _ s3).
Qed.

Lemma cadence_runs args k raws o s :
  CadenceOpt.options args = Run o →
  runs_as alloc strerror gai_strerror true s alone
    (CadenceOpt.reconnect o) (deadline_of (CadenceOpt.seconds o) (ck_deadline k)) (CadenceOpt.host o) (CadenceOpt.port o)
    raws (CadenceCheck.make (CadenceOpt.calibrate o) (CadenceOpt.factor o) (CadenceOpt.gap_blind o))
    (λ c, exit_status (CadenceCheck.tally c)) (cadence_main alloc strerror gai_strerror args k raws s).1.
Proof.
  intros Eo. unfold cadence_main. rewrite Eo. apply run_consumes. by intros [[[] c]|] s2 _.
Qed.

Lemma view_runs args k raws o s :
  ViewOpt.options args = Run o →
  ∃ l, ((Server_create alloc strerror (ViewOpt.http_port o) s).1 = inr l ∨ listener_granted (os_answers s) = false) ∧
    runs_as alloc strerror gai_strerror (listener_granted (os_answers s))
      (Server_create alloc strerror (ViewOpt.http_port o) s).2 (http_turns alloc strerror l)
      true (deadline_of (ViewOpt.seconds o) (ck_deadline k)) (ViewOpt.host o) (ViewOpt.port o)
      raws (make_view (u64 (ck_report k + 1000000000))) (λ _, 0)
      (view_main alloc strerror gai_strerror args k raws s).1.
Proof.
  intros Eo. unfold view_main. rewrite Eo.
  pose proof (listener_decides alloc strerror alloc_new (ViewOpt.http_port o) s) as E.
  change ((Server_create ?a ?b ?c ≫= ?f) s) with (let (a, s') := Server_create a b c s in f a s').
  destruct (Server_create alloc strerror (ViewOpt.http_port o) s) as [[e|l] s1]; cbn [fst snd] in *; rewrite <- E.
  - exists (mkListener 0 0 0). split; [by right|]. split; [done|done].
  - exists l. split; [by left|]. apply run_consumes. intros [[[] v]|] s2 Hb; [|..|done].
    + by destruct (Hb eq_refl v).
    + unfold mbind, sys_bind. by destruct (close_listener l s2).
Qed.
End Triples.


(** ** Properties *)

(** What a process leaves behind: no descriptor closed that was not open and, once it has
    exited, the open ones it started with; sockets only to the endpoints in [contacts]. *)
Definition ended {C O} (s : Os) (o : Outcome O) (r : option (Z * option C) * Os)
    (contacts : O → Note → Prop) (runs : O → option (Z * option C) → Prop) : Prop :=
  os_stray r.2 = os_stray s ∧ (r.1 ≠ None → os_open r.2 = os_open s) ∧
  match o with
  | Exit n => r.1 = Some (n, None) ∧ os_log r.2 = os_log s
  | Run o => runs o r.1 ∧ ∃ l, os_log r.2 = os_log s ++ l ∧ Forall (contacts o) l
  end.

Lemma holds_ended {C O} (s : Os) (o : Outcome O) (m : Sys (option (Z * option C))) contacts runs :
  (∀ D, holds D m (λ r E, r ≠ None → E = D)) →
  match o with
  | Exit n => m = mret (Some (n, None))
  | Run o => logs m (λ _, Forall (contacts o)) ∧ runs o (m s).1
  end → ended s o (m s) contacts runs.
Proof.
  intros Hm Hr. destruct (Hm ∅ (os_open s) s) as (D & HQ & _ & Ho & Hs); [set_solver|set_solver|].
  split; [done|]. split; [intros Hn; by rewrite Ho, (HQ Hn), union_empty_r_L|].
  destruct o as [o|n]; [|by rewrite Hr]. destruct Hr as [Hl Hr]. split; [done|]. apply Hl.
Qed.


(** ** Witnesses *)

(** A probe that reads [demo_stream] on its only connection, from a kernel that grants
    everything: one address is found for the host. *)
Definition probe_args : list (list ascii) := map text ["--port"; "9002"; "--seconds"; "1"; "--csv"; "out.csv"]%string.

Definition probe_raws : list (RawAttempt Probe.Env) :=
  let h := Probe.mkEnv 1 2 3 in
  let reply := [[mkSend 56 EAgain 0 false false]] in
  [mkRawAttempt false 5 0 6 (concat (map batch_bytes demo_stream))
     [mkRawStep false 7 [RdSome 7; RdIntr; RdSome 100; RdSome 100] reply h;
      mkRawStep false 8 [RdAgainTimeout] [] h;
      mkRawStep false 9 [RdSome 100; RdSome 100] [] h;
      mkRawStep false 1000000001 [] [] h]].

Definition probe_os : Os := mkOs {[0; 1; 2]} 0 0 (Ok 1 :: replicate 20 (Ok 0)) [].

