(* ===== verification/Generator.v ===== *)
(** * Generator: the paced load generator (src/src/gen_main.cpp)

    [pace] is the loop over the timer: every expiration it reports is paid with one frame,
    until the number asked for is reached. What the timer and the socket answer, and the
    clock readings, are arguments. [gen_main] is the whole program on the kernel of
    [Platform]. *)

From Stdlib Require Import Ascii String SpecFloat.
From S2P Require Import Prelude Samples Frame Programs Text Doubles Printf Options Platform.

(** ** State *)

(** [struct can_frame]: identifier, length and payload. *)
Record CanFrame := mkCanFrame { cf_can_id : Z; cf_can_dlc : Z; cf_data : list Z }.

(** What [write] answers. *)
Inductive WriteAnswer := Written | NoBufs | WriteFailed.

#[export] Instance write_eq_dec : EqDecision WriteAnswer.
Proof. solve_decision. Defined.

(** What [read] of the timer answers: the expirations, with the clock reading and the
    answer of the socket for each frame sent for them, an interruption, or an error. *)
Inductive TimerAnswer :=
  | Expired (expirations : Z) (ticks : list (Z * WriteAnswer))
  | Interrupted
  | TimerFailed.

Record Pacer := mkPacer {
  g_k : Z;
  g_sent : Z;
  g_enobufs : Z;
  g_send_errors : Z;
  g_jitter : Samples;
  g_wire : list (CanFrame * WriteAnswer)   (* what was handed to the socket *)
}.

Definition make_pacer : Pacer := mkPacer 0 0 0 0 (make_samples (2 ^ 20)) [].

(** ** Operations *)

Section Pacing.
Context (c : Gen.Config) (start : Z).

(** [rate * seconds]. *)
Definition total : Z := u64 (Gen.rate c * Gen.seconds c).

Definition ideal (k : Z) : Z := u64 (start + k * Gen.period_ns c).

Definition gen_frame (k now : Z) : CanFrame :=
  mkCanFrame (u32 (Gen.base_id c + u32 (k mod Gen.id_count c))) 8
    (map (λ b, u8 (Z.land (Z.shiftr now (8 * Z.of_nat b)) 255)) (seq 0 8)).

(** The body of the inner loop, with its [++k]. *)
Definition send_tick (now : Z) (w : WriteAnswer) (p : Pacer) : Pacer :=
  let k := g_k p in
  let jitter := add (g_jitter p) (s64 now - s64 (ideal k)) in
  let wire := g_wire p ++ [(gen_frame k now, w)] in
  match w with
  | Written => mkPacer (u64 (k + 1)) (u64 (g_sent p + 1)) (g_enobufs p) (g_send_errors p) jitter wire
  | NoBufs => mkPacer (u64 (k + 1)) (g_sent p) (u64 (g_enobufs p + 1)) (g_send_errors p) jitter wire
  | WriteFailed => mkPacer (u64 (k + 1)) (g_sent p) (g_enobufs p) (u64 (g_send_errors p + 1)) jitter wire
  end.

(** The inner loop; [None] when no answer is given for a frame it sends. *)
Fixpoint burst (ticks : list (Z * WriteAnswer)) (e expirations : Z) (p : Pacer) : option Pacer :=
  if (e <? expirations) && (g_k p <? total) then
    match ticks with
    | [] => None
    | (now, w) :: ticks => burst ticks (e + 1) expirations (send_tick now w p)
    end
  else Some p.

(** The outer loop; [None]: it is still waiting for the timer. *)
Fixpoint pace (reads : list TimerAnswer) (p : Pacer) : option Pacer :=
  if g_k p <? total then
    match reads with
    | [] => None
    | Interrupted :: reads => pace reads p
    | TimerFailed :: _ => Some p
    | Expired n ticks :: reads => p ← burst ticks 0 n p; pace reads p
    end
  else Some p.
End Pacing.

(** ** The program *)

(** [100.0 * achieved / rate] and the figures before it. *)
Definition elapsed_s (elapsed : Z) : spec_float := ratio elapsed 1000000000.

Definition achieved (sent elapsed : Z) : spec_float :=
  if SFltb (double_of 0) (elapsed_s elapsed) then double_div (double_of sent) (elapsed_s elapsed) else double_of 0.

Definition percent_of_requested (sent elapsed rate : Z) : spec_float :=
  double_div (double_mul (double_of 100) (achieved sent elapsed)) (double_of rate).

Definition gen_report (c : Gen.Config) (elapsed : Z) (g : Pacer) : list (list Item) :=
  let p := compute (g_jitter g) in
  [[];
   [Lit (text "requested   "); Dec (total c); Lit (text " frames at "); Dec (Gen.rate c); Lit (text "/s")];
   [Lit (text "sent        "); Dec (g_sent g);
    Lit (text " in " ++ fixed 3 (elapsed_s elapsed) ++ text "s = " ++ fixed 1 (achieved (g_sent g) elapsed)
         ++ text "/s (" ++ fixed 2 (percent_of_requested (g_sent g) elapsed (Gen.rate c)) ++ text "% of requested)")];
   [Lit (text "enobufs     "); Dec (g_enobufs g)];
   [Lit (text "send_errors "); Dec (g_send_errors g)];
   [];
   [Lit (text "pacing error vs the absolute schedule, nanoseconds:")];
   [Lit (text "  samples "); Dec (pc_count p); Lit (text " (retained "); Dec (Z.of_nat (length (values_ (g_jitter g))));
    Lit (text ", stride "); Dec (stride_ (g_jitter g)); Lit (text ")")];
   [Lit (text "  min "); Dec (pc_min p); Lit (text "  p50 "); Dec (pc_p50 p); Lit (text "  p90 "); Dec (pc_p90 p);
    Lit (text "  p99 "); Dec (pc_p99 p); Lit (text "  p99.9 "); Dec (pc_p999 p); Lit (text "  max "); Dec (pc_max p);
    Lit (text "  mean " ++ fixed 0 (pc_mean p))]].

Section Main.
Context (alloc : gset Z → Z) (strerror : Z → list ascii).

(** [main] after the command line: the exit status and, for a run, what was counted.
    [armed] is the clock when the timer is armed; the status [None]: still pacing. *)
Definition gen_main (c : Gen.Config) (armed : Z) (reads : list TimerAnswer) : Sys (option (Z * option Pacer)) :=
  r ← open_can_writer alloc strerror (Gen.ifname c);
  match r with
  | inl _ => mret (Some (1, None))
  | inr can_fd =>
      timer_fd ← sys_open alloc;
      if timer_fd <? 0 then sys_close can_fd ≫= λ _, mret (Some (1, None)) else
      rc ← sys_call;
      if rc <? 0 then sys_close timer_fd ≫= λ _, sys_close can_fd ≫= λ _, mret (Some (1, None)) else
      match pace c (u64 (armed + 10000000)) reads make_pacer with
      | None => mret None
      | Some g =>
          save_csv alloc (Gen.csv_path c) (text "pacing_error_ns") (g_jitter g) ≫= λ _,
          sys_close timer_fd ≫= λ _, sys_close can_fd ≫= λ _, mret (Some (0, Some g))
      end
  end.
End Main.

(** ** Specification *)

(** The timer answers with as many clock readings and writes as expirations. *)
Definition answered (a : TimerAnswer) : Prop :=
  match a with Expired n ticks => Z.of_nat (length ticks) = n | _ => True end.

#[export] Instance answered_dec a : Decision (answered a).
Proof. destruct a; simpl; apply _. Defined.

(** What the timer reports before it fails, if it does. *)
Fixpoint offered (reads : list TimerAnswer) : list (Z * WriteAnswer) :=
  match reads with
  | Expired _ ticks :: reads => ticks ++ offered reads
  | Interrupted :: reads => offered reads
  | _ => []
  end.

Fixpoint timer_failed (reads : list TimerAnswer) : bool :=
  match reads with
  | [] => false
  | TimerFailed :: _ => true
  | _ :: reads => timer_failed reads
  end.

Section PacingSpec.
Context (c : Gen.Config) (start : Z).

(** One frame per expiration, up to the number asked for. *)
Definition paid (l : list (Z * WriteAnswer)) : list (Z * WriteAnswer) := take (Z.to_nat (total c)) l.

Definition after (l : list (Z * WriteAnswer)) : Pacer :=
  fold_left (λ p t, send_tick c start t.1 t.2 p) (paid l) make_pacer.

Definition answers_of (w : WriteAnswer) (l : list (Z * WriteAnswer)) : Z :=
  Z.of_nat (length (filter (λ t, t.2 = w) l)).


(** ** Lemmas *)

Record counts (l : list (Z * WriteAnswer)) (p : Pacer) : Prop := {
  ct_k : g_k p = Z.of_nat (length l);
  ct_sent : g_sent p = answers_of Written l;
  ct_enobufs : g_enobufs p = answers_of NoBufs l;
  ct_errors : g_send_errors p = answers_of WriteFailed l;
  ct_jitter : g_jitter p = fold_left add (imap (λ j t, s64 t.1 - s64 (ideal c start (Z.of_nat j))) l) (make_samples (2 ^ 20));
  ct_wire : g_wire p = imap (λ j t, (gen_frame c (Z.of_nat j) t.1, t.2)) l
}.

Lemma answers_of_snoc w l t :
  answers_of w (l ++ [t]) = answers_of w l + if decide (t.2 = w) then 1 else 0.
Proof. unfold answers_of. rewrite filter_app, length_app, filter_cons. case_decide; simpl; lia. Qed.

Lemma answers_of_le w l : 0 <= answers_of w l <= Z.of_nat (length l).
Proof. unfold answers_of. pose proof (length_filter (λ t : Z * WriteAnswer, t.2 = w) l). lia. Qed.

Lemma send_tick_counts l p now w :
  counts l p → Z.of_nat (length l) < 2 ^ 64 - 1 → counts (l ++ [(now, w)]) (send_tick c start now w p).
Proof.
  intros [H1 H2 H3 H4 H5 H6] Hb.
  assert (∀ x, 0 <= x <= Z.of_nat (length l) → u64 (x + 1) = x + 1) as Hu by (intros x Hx; apply u64_small; unfold fits; lia).
  pose proof (answers_of_le Written l). pose proof (answers_of_le NoBufs l). pose proof (answers_of_le WriteFailed l).
  assert (length (l ++ [(now, w)]) = S (length l)) as El by (rewrite length_app; simpl; lia).
  assert (fold_left add (imap (λ j t, s64 t.1 - s64 (ideal c start (Z.of_nat j))) (l ++ [(now, w)])) (make_samples (2 ^ 20))
          = add (g_jitter p) (s64 now - s64 (ideal c start (Z.of_nat (length l))))) as Ej.
  { rewrite imap_app, fold_left_app, <- H5. cbn [imap fold_left]. by rewrite Nat.add_0_r. }
  assert (imap (λ j t, (gen_frame c (Z.of_nat j) t.1, t.2)) (l ++ [(now, w)])
          = g_wire p ++ [(gen_frame c (Z.of_nat (length l)) now, w)]) as Ew.
  { rewrite imap_app, <- H6. cbn [imap]. by rewrite Nat.add_0_r. }
  unfold send_tick. rewrite H1. destruct w; constructor;
    cbn [g_k g_sent g_enobufs g_send_errors g_jitter g_wire]; rewrite ?answers_of_snoc; simpl snd;
    rewrite ?H2, ?H3, ?H4, ?decide_True, ?decide_False, ?Z.add_0_r by done; try done; try (rewrite El, Hu by lia; lia);
    try (apply Hu; lia).
Qed.

Definition sends (l : list (Z * WriteAnswer)) (p : Pacer) : Pacer :=
  fold_left (λ p t, send_tick c start t.1 t.2 p) l p.

Lemma total_fits : 0 <= total c < 2 ^ 64.
Proof. apply u64_fits. Qed.

Lemma sends_counts l hist p :
  counts hist p → (length hist + length l <= Z.to_nat (total c))%nat → counts (hist ++ l) (sends l p).
Proof.
  pose proof total_fits as Ht. revert hist p. induction l as [|[now w] l IH]; intros hist p Hc Hl; [by rewrite app_nil_r|].
  simpl length in Hl. replace (hist ++ (now, w) :: l) with ((hist ++ [(now, w)]) ++ l) by by rewrite <- app_assoc.
  apply IH; [|rewrite length_app; simpl; lia]. apply send_tick_counts; [done|lia].
Qed.

Lemma make_pacer_counts : counts [] make_pacer.
Proof. by constructor. Qed.

Lemma after_counts l : counts (paid l) (after l).
Proof.
  apply (sends_counts (paid l) []); [apply make_pacer_counts|]. unfold paid. rewrite length_take. simpl. lia.
Qed.

Lemma burst_sends ticks e n hist p :
  counts hist p → (length hist <= Z.to_nat (total c))%nat → Z.of_nat (length ticks) = n - e →
  burst c start ticks e n p = Some (sends (take (Z.to_nat (total c) - length hist) ticks) p).
Proof.
  pose proof total_fits as Ht. revert e hist p.
  induction ticks as [|[now w] ticks IH]; intros e hist p Hc Hl Hn; cbn [burst]; simpl length in Hn.
  { rewrite (proj2 (Z.ltb_ge e n)) by lia. cbn [andb]. by rewrite take_nil. }
  rewrite (proj2 (Z.ltb_lt e n)) by lia. cbn [andb]. rewrite (ct_k _ _ Hc).
  destruct (Z.ltb_spec (Z.of_nat (length hist)) (total c)) as [Hlt|Hge].
  - rewrite (IH (e + 1) (hist ++ [(now, w)])); [| |rewrite length_app; simpl; lia|lia].
    + rewrite length_app. simpl length. replace (Z.to_nat (total c) - length hist)%nat with (S (Z.to_nat (total c) - (length hist + 1))) by lia. done.
    + apply send_tick_counts; [done|lia].
  - by replace (Z.to_nat (total c) - length hist)%nat with 0%nat by lia.
Qed.

Lemma burst_after l ticks n :
  Z.of_nat (length ticks) = n → burst c start ticks 0 n (after l) = Some (after (l ++ ticks)).
Proof.
  intros Hn. rewrite (burst_sends ticks 0 n (paid l)).
  - f_equal. unfold after, sends, paid. rewrite take_app, fold_left_app, length_take.
    by replace (Z.to_nat (total c) - Nat.min (Z.to_nat (total c)) (length l))%nat with (Z.to_nat (total c) - length l)%nat by lia.
  - apply after_counts.
  - unfold paid. rewrite length_take. lia.
  - lia.
Qed.

(** The loop as a function of what the timer reports. *)
Lemma pace_after reads l :
  Forall answered reads →
  pace c start reads (after l)
  = if (Z.to_nat (total c) <=? length (l ++ offered reads))%nat || timer_failed reads
    then Some (after (l ++ offered reads)) else None.
Proof.
  pose proof total_fits as Ht. intros Ha. revert l.
  assert (∀ l more, (Z.to_nat (total c) <= length l)%nat → after (l ++ more) = after l) as Hfull.
  { intros l more Hl. unfold after, paid. rewrite take_app. by replace (Z.to_nat (total c) - length l)%nat with 0%nat by lia; rewrite app_nil_r. }
  assert (∀ l, (g_k (after l) <? total c) = negb (Z.to_nat (total c) <=? length l)%nat) as Hk.
  { intros l. rewrite (ct_k _ _ (after_counts l)). unfold paid. rewrite length_take.
    destruct (Nat.leb_spec (Z.to_nat (total c)) (length l)); cbn [negb]; [apply Z.ltb_ge|apply Z.ltb_lt]; lia. }
  induction Ha as [|a reads Ha _ IH]; intros l; cbn [pace]; rewrite Hk.
  - cbn [offered timer_failed]. rewrite app_nil_r, orb_false_r. by destruct (Z.to_nat (total c) <=? length l)%nat.
  - destruct (Nat.leb_spec (Z.to_nat (total c)) (length l)) as [Hge|Hlt]; cbn [negb].
    { rewrite length_app, (proj2 (Nat.leb_le _ _)) by lia. cbn [orb]. by rewrite Hfull. }
    destruct a as [n ticks| |]; cbn [offered timer_failed].
    + rewrite burst_after by done. cbn [mbind option_bind]. rewrite IH, <- app_assoc. done.
    + apply IH.
    + rewrite app_nil_r, orb_true_r. done.
Qed.
End PacingSpec.

Lemma answers_sum l : answers_of Written l + answers_of NoBufs l + answers_of WriteFailed l = Z.of_nat (length l).
Proof.
  unfold answers_of. induction l as [|[now w] l IH]; [done|]. rewrite !filter_cons. simpl.
  destruct w; repeat case_decide; simplify_eq; simpl; lia.
Qed.

(** The consumer reads back the time the frame was sent. *)
Lemma gen_payload c k now f :
  fits 64 now → f_data f = cf_data (gen_frame c k now) → Probe.payload_timestamp f = now.
Proof.
  intros Hn E. unfold Probe.payload_timestamp.
  assert (cf_data (gen_frame c k now) = le_bytes 8 now) as Ed.
  { unfold gen_frame, le_bytes. cbn [cf_data]. apply map_ext. intros i. apply u8_small. apply (byte_of_fits now i). }
  assert (∀ i, (i < 8)%nat → f_data f !!! i = byte_of now i) as Hi.
  { intros i Hi. rewrite E, Ed. unfold le_bytes. change (map (byte_of now) (seq 0 8)) with (byte_of now <$> seq 0 8).
    by rewrite list_lookup_total_alt, list_lookup_fmap, lookup_seq_lt. }
  rewrite or_loop_value by (intros i H; rewrite Hi by done; apply byte_of_fits).
  assert (map (λ i, f_data f !!! i) (seq 0 8) = le_bytes 8 now) as ->.
  { unfold le_bytes. apply map_ext_in. intros i H. apply in_seq in H. apply Hi. lia. }
  rewrite le_value_bytes. apply Z.mod_small. unfold fits in Hn. done.
Qed.

(** *** The descriptors *)

Section Descriptors.
Context (alloc : gset Z → Z) (strerror : Z → list ascii).
Context (alloc_new : ∀ X, alloc X ∉ X ∧ 0 <= alloc X).

(** Two descriptors, closed in the reverse order. *)
Lemma close_two {A} D a b (r : A) Q :
  a ∉ D → b ∉ D ∪ {[a]} → Q r D →
  holds (D ∪ {[a]} ∪ {[b]}) (sys_close b ≫= λ _, sys_close a ≫= λ _, mret r) Q.
Proof.
  intros Ha Hb HQ. eapply holds_bind; [by apply holds_close_last|]. intros [] D' ->.
  eapply holds_bind; [by apply holds_close_last|]. intros [] D' ->. by apply holds_ret.
Qed.

Lemma holds_gen_main D c armed reads :
  holds D (gen_main alloc strerror c armed reads)
    (λ r E, match r with
            | Some (st, g) => E = D ∧ (st = 1 ∧ g = None ∨
                st = 0 ∧ ∃ p, g = Some p ∧ pace c (u64 (armed + 10000000)) reads make_pacer = Some p)
            | None => pace c (u64 (armed + 10000000)) reads make_pacer = None
            end).
Proof.
  unfold gen_main. apply gives_bind; [by apply holds_bind_can|intros e; apply holds_ret; auto|].
  intros can Hcan. apply open_gives; [done|..]; intros tfd Htfd; cbv beta.
  - rewrite (proj2 (Z.ltb_lt tfd 0)) by lia. eapply holds_bind; [by apply holds_close_last|].
    intros [] D' ->. apply holds_ret. auto.
  - intros Hn. rewrite (proj2 (Z.ltb_ge tfd 0)) by lia. eapply holds_bind; [apply holds_call|].
    intros rc D' ->. destruct (rc <? 0); [apply close_two; auto|].
    destruct (pace _ _ _ _) as [p|] eqn:E; [|by apply holds_ret].
    eapply holds_bind; [by apply holds_save_csv|]. intros csv D' ->.
    apply close_two; [done|done|]. split; [done|]. right. eauto.
Qed.
End Descriptors.

(** C39. The load generator. Whatever the kernel answers, the program leaks no descriptor and
    closes none twice; it exits with 1 exactly when it could not set up, and otherwise
    paces: one frame per expiration the timer reports, in order, until the number asked
    for, and it is still waiting only when fewer were reported. At the end, frames sent,
    refused by a full queue and failed add up to the ticks paid, which is the number asked
    for unless the timer failed; frame [j] has the [j]-th identifier of the cycle, eight
    bytes from which a consumer reads back the time it was sent, and pacing error
    [now - (start + j * period)]. *)
Theorem generator_exact alloc strerror c armed reads s :
  (∀ X, alloc X ∉ X ∧ 0 <= alloc X) → Forall answered reads →
  let start := u64 (armed + 10000000) in
  let r := gen_main alloc strerror c armed reads s in
  os_stray r.2 = os_stray s ∧
  match r.1 with
  | None => Z.of_nat (length (offered reads)) < total c ∧ timer_failed reads = false
  | Some (st, g) =>
      os_open r.2 = os_open s ∧
      match g with
      | None => st = 1
      | Some p =>
          let l := paid c (offered reads) in
          st = 0 ∧ g_k p = Z.of_nat (length l) ∧ (timer_failed reads = false → g_k p = total c) ∧
          g_sent p + g_enobufs p + g_send_errors p = g_k p ∧
          g_jitter p = fold_left add (imap (λ j t, s64 t.1 - s64 (ideal c start (Z.of_nat j))) l) (make_samples (2 ^ 20)) ∧
          g_wire p = imap (λ j t, (gen_frame c (Z.of_nat j) t.1, t.2)) l ∧
          ∀ j now w f, l !! j = Some (now, w) → fits 64 now →
            f_data f = cf_data (gen_frame c (Z.of_nat j) now) → Probe.payload_timestamp f = now
      end
  end.
Proof.
  intros Ha Hans start r.
  destruct (holds_gen_main alloc strerror Ha ∅ c armed reads (os_open s) s) as (D & H & _ & Ho & Hs);
    [set_solver|set_solver|]. fold r in H, Ho, Hs. fold start in H. split; [done|].
  pose proof (pace_after c start reads [] Hans) as Hp. pose proof (total_fits c) as Ht.
  assert (after c start [] = make_pacer) as E0 by (unfold after, paid; by rewrite take_nil).
  rewrite E0 in Hp. simpl app in Hp.
  destruct r.1 as [[st g]|].
  - destruct H as [-> H]. split; [by rewrite Ho, union_empty_r_L|].
    destruct H as [[-> ->]|(-> & p & -> & E)]; [done|]. rewrite E in Hp.
    destruct (_ || _) eqn:Eb; [|done]. injection Hp as ->.
    destruct (after_counts c start (offered reads)) as [C1 C2 C3 C4 C5 C6].
    split_and!; try done.
    + intros Hf. rewrite Hf, orb_false_r in Eb. apply Nat.leb_le in Eb. rewrite C1. unfold paid.
      rewrite length_take. lia.
    + rewrite C1, C2, C3, C4. apply answers_sum.
    + intros j now w f _. apply gen_payload.
  - rewrite H in Hp. destruct (_ || _) eqn:Eb; [done|]. apply orb_false_iff in Eb as [E1 E2].
    apply Nat.leb_gt in E1. split; [lia|done].
Qed.

Definition demo_gen : Gen.Config := Gen.mkConfig (text "vcan0") [] 3 1 256 2.

Definition demo_reads : list TimerAnswer :=
  [Interrupted; Expired 2 [(1010, Written); (1020, NoBufs)]; Expired 2 [(1030, Written); (1040, Written)]].

(** The kernel that grants everything, for a process with its three standard streams. *)
Definition gen_os : Os := mkOs {[0; 1; 2]} 0 0 (replicate 10 (Ok 0)) [].

Lemma generator_exact_witness :
  ∃ p, (gen_main next_fd (λ _, []) demo_gen 0 demo_reads gen_os).1 = Some (0, Some p) ∧
       g_k p = 3 ∧ g_sent p + g_enobufs p + g_send_errors p = 3 ∧ map (λ x, cf_can_id x.1) (g_wire p) = [256; 257; 256].
Proof.
  destruct (generator_exact next_fd (λ _, []) demo_gen 0 demo_reads gen_os next_fd_new) as [_ H];
    [apply (bool_decide_unpack _); vm_compute; exact I|].
  destruct ((gen_main next_fd (λ _, []) demo_gen 0 demo_reads gen_os).1) as [[st [p|]]|] eqn:E.
  - destruct H as (_ & -> & Hk & Ht & Hs & _ & Hw & _). exists p. split; [done|].
    specialize (Ht eq_refl). change (total demo_gen) with 3 in Ht. split; [done|]. split; [by rewrite Hs|].
    rewrite Hw. vm_compute. reflexivity.
  - exfalso. revert E. vm_compute. discriminate.
  - exfalso. revert E. vm_compute. discriminate.
Defined.
