(* ===== verification/RingStress.v ===== *)
(** * RingStress: the contention test of the ring (src/src/ring_stress.cpp)

    Producers publish numbered frames whose fields repeat the number in three encodings;
    readers check what they get and that their sequence never goes back; the process exits
    with 1 when any check fired. The threads run on the interleaving model of the ring
    ([RingConc]): the test passes under every schedule, and what its check accepts is
    characterised. *)

From Stdlib Require Import Ascii String SpecFloat.
From S2P Require Import Prelude Frame BroadcastRing RingConc Text Doubles Printf Options.

(** ** The frames *)

Definition kTearKey : Z := 0x5A5AA5A5DEADBEEF.

Definition make_frame (producer counter : Z) : Frame :=
  mkFrame 0 (Z.lxor counter kTearKey) counter (u32 (Z.land counter 0x7FF)) producer 8 0 0
    (map (λ i, u8 (Z.land (Z.shiftr counter (8 * Z.of_nat i)) 255)) (seq 0 8)).

Definition intact (f : Frame) : bool :=
  let c := f_t_ingest_ns f in
  if negb (f_t_kernel_ns f =? Z.lxor c kTearKey) then false
  else if negb (f_can_id f =? u32 (Z.land c 0x7FF)) then false
  else forallb (λ i, nth i (f_data f) 0 =? u8 (Z.land (Z.shiftr c (8 * Z.of_nat i)) 255)) (seq 0 8).

(** ** The threads *)

(** The ring with its threads, and the next number of each producer. *)
Record StressState := mkStress { st_ring : RState; st_counters : list Z }.

(** A producer starts to publish its next frame, takes a step inside [publish], or a
    reader takes one inside [read_batch]. *)
Inductive StressEvent := StPublish (a : nat) | StProd (a : nat) | StRead (b : nat).

Definition stress_step (s : StressState) (e : StressEvent) : option StressState :=
  match e with
  | StPublish a =>
      match st_counters s !! a with
      | None => None
      | Some i =>
          r ← ring_step (st_ring s) (EvPublish a [make_frame (Z.land (Z.of_nat a) 255) i]);
          Some (mkStress r (<[a := u64 (i + 1)]> (st_counters s)))
      end
  | StProd a => r ← ring_step (st_ring s) (EvProd a); Some (mkStress r (st_counters s))
  | StRead b => r ← ring_step (st_ring s) (EvRead b); Some (mkStress r (st_counters s))
  end.

Definition stress_init (r : Ring) (producers readers : nat) : StressState :=
  mkStress (ring_init r producers readers) (replicate producers 0).

(** ** The checks *)

Record Checked := mkChecked { ck_recv : Z; ck_torn : Z; ck_regress : Z; ck_last : Z; ck_have : bool }.

(** The body of a reader's loop over the frames of a batch. *)
Definition check_frame (c : Checked) (f : Frame) : Checked :=
  mkChecked (u64 (ck_recv c + 1))
    (if negb (intact f) then u64 (ck_torn c + 1) else ck_torn c)
    (if ck_have c && (f_seq f <=? ck_last c) then u64 (ck_regress c + 1) else ck_regress c)
    (f_seq f) true.

Definition check_all (out : list Frame) : Checked := fold_left check_frame out (mkChecked 0 0 0 0 false).

(** The four totals: each reader adds its own with [fetch_add]. *)
Record Totals := mkTotals { t_received : Z; t_torn : Z; t_missed : Z; t_regressions : Z }.

Definition add_reader (t : Totals) (r : Reader) : Totals :=
  let c := check_all (r_out r) in
  mkTotals (u64 (t_received t + ck_recv c)) (u64 (t_torn t + ck_torn c))
    (u64 (t_missed t + missed (r_cursor r))) (u64 (t_regressions t + ck_regress c)).

Definition totals (s : RState) : Totals := fold_left add_reader (rs_readers s) (mkTotals 0 0 0 0).

Definition failed (s : RState) : bool :=
  negb (t_torn (totals s) =? 0) || negb (rs_incons s =? 0) || negb (t_regressions (totals s) =? 0).

Definition stress_exit (s : RState) : Z := if failed s then 1 else 0.

(** The report; [elapsed] in seconds. *)
Definition stress_report (c : Stress.Config) (elapsed : spec_float) (s : RState) : list (list Item) :=
  let t := totals s in
  [[Lit (text "producers="); Dec (Stress.producers c); Lit (text " readers="); Dec (Stress.readers c);
    Lit (text " capacity="); Dec (Stress.capacity c); Lit (text " seconds="); Dec (Stress.seconds c)];
   [];
   [Lit (text "published      "); Dec (rs_wpos s);
    Lit (text "  (" ++ fixed 0 (if SFltb (double_of 0) elapsed then double_div (double_of (rs_wpos s)) elapsed else double_of 0)
         ++ text "/s)")];
   [Lit (text "received       "); Dec (t_received t)];
   [Lit (text "missed         "); Dec (t_missed t)];
   [Lit (text "claim_retries  "); Dec (rs_retries s)];
   [];
   [Lit (text "torn           "); Dec (t_torn t); Lit (text "   (two producers in one cell)")];
   [Lit (text "inconsistent   "); Dec (rs_incons s); Lit (text "   (payload from the wrong position)")];
   [Lit (text "regressions    "); Dec (t_regressions t); Lit (text "   (a reader's sequence went backwards)")];
   [];
   [Lit (text (if failed s then "FAIL" else "OK"))]].

(** ** Lemmas: what the check accepts *)

Lemma byte_u8 c i : u8 (Z.land (Z.shiftr c (8 * Z.of_nat i)) 255) = byte_of c i.
Proof. unfold byte_of. apply u8_small. apply (byte_of_fits c i). Qed.

Lemma made_data c : map (λ i, u8 (Z.land (Z.shiftr c (8 * Z.of_nat i)) 255)) (seq 0 8) = le_bytes 8 c.
Proof. unfold le_bytes. apply map_ext. intros i. apply byte_u8. Qed.

(** The three encodings of the number agree. *)
Definition encodes (f : Frame) : Prop :=
  f_t_kernel_ns f = Z.lxor (f_t_ingest_ns f) kTearKey ∧
  f_can_id f = Z.land (f_t_ingest_ns f) 0x7FF ∧ f_data f = le_bytes 8 (f_t_ingest_ns f).

Lemma low_bits_u32 c : u32 (Z.land c 0x7FF) = Z.land c 0x7FF.
Proof.
  apply Z.mod_small. change 0x7FF with (Z.ones 11). rewrite Z.land_ones by lia.
  pose proof (Z.mod_pos_bound c (2 ^ 11)). lia.
Qed.

Lemma forallb_seq_nth (l : list Z) (g : nat → Z) n :
  length l = n → forallb (λ i, nth i l 0 =? g i) (seq 0 n) = true ↔ l = map g (seq 0 n).
Proof.
  intros Hl. rewrite forallb_forall. split.
  - intros H. apply list_eq_same_length with n; [by rewrite length_map, length_seq|done|].
    intros i x y Hi Hx Hy. specialize (H i ltac:(apply in_seq; lia)). zbool.
    rewrite nth_lookup, Hx in H. change (map g (seq 0 n)) with (g <$> seq 0 n) in Hy.
    rewrite list_lookup_fmap, lookup_seq_lt in Hy by done. injection Hy as <-. exact H.
  - intros E i Hi. apply in_seq in Hi. apply Z.eqb_eq. rewrite E, nth_lookup.
    change (map g (seq 0 n)) with (g <$> seq 0 n). by rewrite list_lookup_fmap, lookup_seq_lt by lia.
Qed.

Lemma intact_spec f : length (f_data f) = 8%nat → intact f = true ↔ encodes f.
Proof.
  intros Hl. unfold intact, encodes. rewrite low_bits_u32, <- made_data.
  destruct (Z.eqb_spec (f_t_kernel_ns f) (Z.lxor (f_t_ingest_ns f) kTearKey)) as [E1|E1]; cbn [negb]; [|split; [done|tauto]].
  destruct (Z.eqb_spec (f_can_id f) (Z.land (f_t_ingest_ns f) 0x7FF)) as [E2|E2]; cbn [negb]; [|split; [done|tauto]].
  rewrite (forallb_seq_nth (f_data f)) by done. tauto.
Qed.

(** Words of different frames do not pass: the time stamps and the payload carry the
    same number. *)
Lemma encodes_untorn f c1 c2 c3 :
  fits 64 c1 → fits 64 c2 → fits 64 c3 → encodes f →
  f_t_kernel_ns f = Z.lxor c1 kTearKey → f_t_ingest_ns f = c2 → f_data f = le_bytes 8 c3 → c1 = c2 ∧ c2 = c3.
Proof.
  intros H1 H2 H3 (E1 & _ & E3) K1 K2 K3. rewrite K2 in *. split.
  - rewrite K1 in E1. apply (f_equal (λ z, Z.lxor z kTearKey)) in E1.
    by rewrite !Z.lxor_assoc, Z.lxor_nilpotent, !Z.lxor_0_r in E1.
  - rewrite K3 in E3. apply (f_equal le_value) in E3. rewrite !le_value_bytes in E3.
    unfold fits in *. change (8 * Z.of_nat 8) with 64 in E3. rewrite !Z.mod_small in E3 by lia. done.
Qed.

Lemma make_frame_encodes p c q : encodes (set_seq q (make_frame p c)) ∧ length (f_data (set_seq q (make_frame p c))) = 8%nat.
Proof. split; [|done]. unfold encodes. cbn [set_seq make_frame f_t_kernel_ns f_t_ingest_ns f_can_id f_data].
  rewrite low_bits_u32, made_data. done.
Qed.

Lemma lxor_fits a b : fits 64 a → fits 64 b → fits 64 (Z.lxor a b).
Proof.
  unfold fits. intros Ha Hb. assert (0 <= Z.lxor a b) as H0 by (apply Z.lxor_nonneg; tauto). split; [done|].
  destruct (Z.eq_dec (Z.lxor a b) 0) as [->|Hn]; [done|]. apply Z.log2_lt_pow2; [lia|].
  pose proof (Z.log2_lxor a b (proj1 Ha) (proj1 Hb)) as Hl.
  assert (∀ x, 0 <= x < 2 ^ 64 → Z.log2 x < 64) as Hx.
  { intros x Hx. destruct (Z.eq_dec x 0) as [->|]; [done|]. apply Z.log2_lt_pow2; lia. }
  pose proof (Hx a Ha). pose proof (Hx b Hb). lia.
Qed.

Lemma make_frame_wf p c : fits 8 p → fits 64 c → frame_wf (make_frame p c).
Proof.
  intros Hp Hc. unfold frame_wf. cbn [make_frame f_seq f_t_kernel_ns f_t_ingest_ns f_can_id f_src_id f_len f_flags f_reserved f_data].
  rewrite made_data. split_and!; try done; try apply Hc; try apply Hp; auto with etg.
  apply lxor_fits; [done|by unfold fits, kTearKey].
Qed.

(** ** Lemmas: the readers' counters *)

(** The sequence numbers of what a reader returned never go back. *)
Fixpoint ascending (last : Z) (out : list Frame) : bool :=
  match out with
  | [] => true
  | f :: out => (last <? f_seq f) && ascending (f_seq f) out
  end.

Definition clean (out : list Frame) : bool :=
  forallb intact out && match out with [] => true | f :: out => ascending (f_seq f) out end.

(** The two counters, zero when nothing fired and in any case at most one per frame. *)
Lemma check_from out c :
  ck_have c = true → 0 <= ck_torn c → 0 <= ck_regress c →
  ck_torn c + Z.of_nat (length out) < 2 ^ 64 → ck_regress c + Z.of_nat (length out) < 2 ^ 64 →
  let r := fold_left check_frame out c in
  ck_torn c <= ck_torn r <= ck_torn c + Z.of_nat (length out) ∧
  ck_regress c <= ck_regress r <= ck_regress c + Z.of_nat (length out) ∧
  (ck_torn r = ck_torn c ∧ ck_regress r = ck_regress c ↔
   forallb intact out = true ∧ ascending (ck_last c) out = true).
Proof.
  revert c. induction out as [|f out IH]; intros c Hh H1 H2 H3 H4; cbn [fold_left].
  { simpl. split_and!; [lia..|]. by split. }
  simpl length in H3, H4. set (c' := check_frame c f).
  assert (ck_torn c' = ck_torn c + (if intact f then 0 else 1)) as T1.
  { unfold c'. simpl. destruct (intact f); simpl; [lia|]. rewrite u64_small; [lia|]. unfold fits. lia. }
  assert (ck_regress c' = ck_regress c + (if ck_last c <? f_seq f then 0 else 1)) as T2.
  { unfold c'. simpl. rewrite Hh. cbn [andb]. rewrite (Z.leb_antisym (ck_last c) (f_seq f)).
    destruct (ck_last c <? f_seq f); simpl; [lia|]. rewrite u64_small; [lia|]. unfold fits. lia. }
  destruct (IH c') as (I1 & I2 & I3); [done|destruct (intact f), (ck_last c <? f_seq f); lia..|].
  change (ck_last c') with (f_seq f) in I3. clearbody c'. cbn [forallb ascending length].
  rewrite !andb_true_iff. destruct (intact f), (ck_last c <? f_seq f).
  - split_and!; [lia..|]. rewrite Z.add_0_r in T1, T2. rewrite <- T1, <- T2. tauto.
  - split_and!; [lia..|]. split; [lia|]. intros (_ & [? _]). done.
  - split_and!; [lia..|]. split; [lia|]. intros ([? _] & _). done.
  - split_and!; [lia..|]. split; [lia|]. intros ([? _] & _). done.
Qed.

Lemma check_all_spec out :
  Z.of_nat (length out) < 2 ^ 64 →
  0 <= ck_torn (check_all out) <= Z.of_nat (length out) ∧
  0 <= ck_regress (check_all out) <= Z.of_nat (length out) ∧
  (ck_torn (check_all out) = 0 ∧ ck_regress (check_all out) = 0 ↔ clean out = true).
Proof.
  intros Hl. unfold check_all, clean. destruct out as [|f out]; [simpl; split_and!; [lia..|done]|]. cbn [fold_left].
  set (c := check_frame _ f). assert (ck_torn c = if intact f then 0 else 1) as T by (unfold c; simpl; by destruct (intact f)).
  assert (ck_regress c = 0) as T2 by done. simpl length in Hl.
  destruct (check_from out c) as (I1 & I2 & I3); [done|destruct (intact f); lia..|].
  change (ck_last c) with (f_seq f) in I3. clearbody c. cbn [forallb length]. rewrite !andb_true_iff.
  destruct (intact f).
  - split_and!; [lia..|]. rewrite T, T2 in I3. tauto.
  - split_and!; [lia..|]. split; [lia|]. intros [[? _] _]. done.
Qed.

(** The totals of all readers. *)
Definition returned (rs : list Reader) : Z := foldr (λ r n, Z.of_nat (length (r_out r)) + n) 0 rs.

Lemma totals_spec rs t :
  0 <= t_torn t → 0 <= t_regressions t →
  t_torn t + returned rs < 2 ^ 64 → t_regressions t + returned rs < 2 ^ 64 →
  let r := fold_left add_reader rs t in
  t_torn t <= t_torn r ∧ t_regressions t <= t_regressions r ∧
  (t_torn r = t_torn t ∧ t_regressions r = t_regressions t ↔ Forall (λ r, clean (r_out r) = true) rs).
Proof.
  revert t. induction rs as [|x rs IH]; intros t H1 H2 H3 H4; cbn [fold_left].
  { split_and!; [lia..|]. split; [constructor|done]. }
  assert (0 <= returned rs) as Hn by (clear; induction rs; simpl; lia). simpl returned in H3, H4.
  destruct (check_all_spec (r_out x)) as (C1 & C2 & C3); [lia|].
  set (t' := add_reader t x).
  assert (t_torn t' = t_torn t + ck_torn (check_all (r_out x))) as T1
    by (unfold t'; simpl; apply u64_small; unfold fits; lia).
  assert (t_regressions t' = t_regressions t + ck_regress (check_all (r_out x))) as T2
    by (unfold t'; simpl; apply u64_small; unfold fits; lia).
  destruct (IH t') as (I1 & I2 & I3); [lia..|]. clearbody t'. split_and!; [lia..|]. rewrite Forall_cons, <- C3, <- I3. lia.
Qed.

(** ** Lemmas: the reachable states *)

Definition stress_reachable (capacity : Z) (m n : nat) (s : StressState) : Prop :=
  ∃ r, make_ring capacity = Some r ∧ reachable stress_step (stress_init r m n) s.

Definition made (f : Frame) : Prop := ∃ p c, f = make_frame p c.

Lemma stress_on_ring capacity m n s :
  stress_reachable capacity m n s → ring_reachable capacity m n (st_ring s) ∧ Forall made (rs_log (st_ring s)).
Proof.
  intros (r & Hr & Hs). enough (reachable ring_step (ring_init r m n) (st_ring s) ∧ Forall made (rs_log (st_ring s)))
    as [H1 H2] by (split; [by exists r|done]).
  revert Hs. apply (reachable_invariant stress_step
    (λ s, reachable ring_step (ring_init r m n) (st_ring s) ∧ Forall made (rs_log (st_ring s)))).
  { split; [by exists []|constructor]. }
  intros s1 e s2 [[evs Hrun] Hm] Hstep.
  assert (∀ e x, ring_step (st_ring s1) e = Some x → reachable ring_step (ring_init r m n) x) as Hnext.
  { intros e' x Hx. exists (evs ++ [e']). rewrite run_app, Hrun. simpl. by rewrite Hx. }
  destruct e as [a|a|b]; unfold stress_step in Hstep.
  - destruct (st_counters s1 !! a) as [i|]; [|done]. destruct (ring_step (st_ring s1) _) as [x|] eqn:E; [|done].
    injection Hstep as <-. split; [by eapply Hnext|]. simpl in E |- *.
    destruct (rs_prods (st_ring s1) !! a) as [[| |]|]; try done. case_match; [|done]. injection E as <-. simpl.
    apply Forall_app. split; [done|]. constructor; [|done]. eexists _, _. done.
  - destruct (ring_step (st_ring s1) (EvProd a)) as [x|] eqn:E; [|done]. injection Hstep as <-.
    split; [by eapply Hnext|]. destruct (ring_step_log _ _ _ E) as [ext El]. simpl in *.
    destruct (rs_prods (st_ring s1) !! a) as [p|]; [|done]. unfold prod_step in E. repeat case_match; by simplify_eq.
  - destruct (ring_step (st_ring s1) (EvRead b)) as [x|] eqn:E; [|done]. injection Hstep as <-.
    split; [by eapply Hnext|]. simpl in *. destruct (rs_readers (st_ring s1) !! b) as [rd|]; [|done].
    injection E as <-. unfold read_step. by repeat case_match.
Qed.

Lemma ascending_of out last :
  (∀ f, head out = Some f → last < f_seq f) →
  (∀ i j f g, (i < j)%nat → out !! i = Some f → out !! j = Some g → f_seq f < f_seq g) →
  ascending last out = true.
Proof.
  revert last. induction out as [|f out IH]; intros last Hh Hlt; [done|]. cbn [ascending].
  rewrite (proj2 (Z.ltb_lt _ _) (Hh f eq_refl)). cbn [andb]. apply IH.
  - intros g Hg. apply (Hlt 0 1 f g)%nat; [lia|done|]. by destruct out.
  - intros i j g h Hij. apply (Hlt (S i) (S j)). lia.
Qed.

Lemma reader_clean s r : ring_inv s → Forall made (rs_log s) → reader_inv s r → clean (r_out r) = true.
Proof.
  intros Hinv Hm (_ & _ & _ & _ & H5 & _ & H7 & _). unfold clean. apply andb_true_iff. split.
  - apply forallb_forall. intros f Hf. apply list_elem_of_In in Hf. eapply Forall_forall in H5 as [Hr E]; [|exact Hf].
    assert (made (rs_log s !!! Z.to_nat (f_seq f))) as (p & c & Ec).
    { eapply Forall_forall; [exact Hm|]. apply list_elem_of_lookup_total_2. lia. }
    rewrite E, Ec. destruct (make_frame_encodes p c (f_seq f)) as [He Hl]. by apply intact_spec.
  - destruct (r_out r) as [|f out]; [done|]. apply ascending_of.
    + intros g Hg. apply (H7 0 1 f g)%nat; [lia|done|]. by destruct out.
    + intros i j g h Hij. apply (H7 (S i) (S j)). lia.
Qed.

(** C40. The stress test neither cries wolf nor sleeps. On the interleaving model, under
    every schedule of any number of producers and readers, it exits with 0; and it exits
    with 0 on a state only if the ring's own detector did not fire, every frame every
    reader got carries one number in all of its encodings (so no two of its time stamps
    and payload come from different frames) and no reader's sequence went back. *)
Theorem ring_stress_exact capacity m n :
  2 <= capacity <= 2 ^ 63 →
  (∀ s, stress_reachable capacity m n s → in_bound (st_ring s) →
     returned (rs_readers (st_ring s)) < 2 ^ 64 → stress_exit (st_ring s) = 0) ∧
  (∀ s, returned (rs_readers s) < 2 ^ 64 → stress_exit s = 0 →
     rs_incons s = 0 ∧
     ∀ r, r ∈ rs_readers s →
       match r_out r with [] => true | f :: out => ascending (f_seq f) out end = true ∧
       ∀ f c1 c2 c3, f ∈ r_out r → fits 64 c1 → fits 64 c2 → fits 64 c3 →
         f_t_kernel_ns f = Z.lxor c1 kTearKey → f_t_ingest_ns f = c2 → f_data f = le_bytes 8 c3 →
         c1 = c2 ∧ c2 = c3 ∧ f_can_id f = Z.land c2 0x7FF).
Proof.
  intros Hc. split.
  - intros s Hs Hb Hr. destruct (stress_on_ring _ _ _ _ Hs) as [Hreach Hm].
    pose proof (ring_reachable_inv capacity m n (st_ring s) ltac:(lia) Hreach Hb) as Hinv.
    destruct (totals_spec (rs_readers (st_ring s)) (mkTotals 0 0 0 0)) as (_ & _ & [_ Ht]); [simpl; lia..|].
    destruct Ht as [T1 T2].
    { apply Forall_lookup. intros b r Hb'. apply (reader_clean (st_ring s)); [done|done|].
      by apply (ri_readers _ Hinv b). }
    unfold stress_exit, failed, totals. rewrite T1, T2, (ri_incons _ Hinv). done.
  - intros s Hr He. unfold stress_exit, failed in He.
    destruct (totals_spec (rs_readers s) (mkTotals 0 0 0 0)) as (_ & _ & [Ht _]); [simpl; lia..|].
    fold (totals s) in Ht. destruct (_ || _) eqn:E; [done|]. clear He.
    apply orb_false_iff in E as [E E3]. apply orb_false_iff in E as [E1 E2].
    apply negb_false_iff in E1, E2, E3. zbool. split; [done|]. intros r Hin.
    specialize (Ht (conj E1 E3)). eapply Forall_forall in Ht; [|exact Hin]. unfold clean in Ht.
    apply andb_true_iff in Ht as [Hint Hasc]. split; [done|]. intros f c1 c2 c3 Hf F1 F2 F3 K1 K2 K3.
    eapply forallb_forall in Hint; [|apply list_elem_of_In, Hf].
    apply intact_spec in Hint; [|rewrite K3; apply length_le_bytes].
    destruct (encodes_untorn f c1 c2 c3) as [-> ->]; try done. split_and!; [done..|]. destruct Hint as (_ & -> & _). by rewrite K2.
Qed.

(** Two producers race for one cell of a two-cell ring while a reader copies. *)
Definition stress_events : list StressEvent :=
  [StPublish 0; StPublish 1] ++ repeat (StProd 0) 7 ++ [StRead 0; StRead 0; StProd 1] ++ repeat (StRead 0) 6
  ++ [StPublish 0] ++ repeat (StProd 1) 6 ++ [StProd 0] ++ repeat (StRead 0) 7.

Definition stress_state : StressState :=
  default (stress_init demo_ring 2 1) (run stress_step stress_events (stress_init demo_ring 2 1)).

Lemma ring_stress_exact_witness :
  stress_exit (st_ring stress_state) = 0 ∧
  map (λ r, map f_seq (r_out r)) (rs_readers (st_ring stress_state)) = [[0; 1]].
Proof.
  split; [|vm_compute; reflexivity].
  apply (proj1 (ring_stress_exact 2 2 1 ltac:(lia)) stress_state).
  - exists demo_ring. split; [reflexivity|]. exists stress_events. vm_compute. reflexivity.
  - unfold in_bound. vm_compute. reflexivity.
  - vm_compute. reflexivity.
Defined.
