(* ===== verification/Reports.v ===== *)
(** * Reports: what the programs print (src/src/probe_main.cpp, src/src/record_main.cpp,
      src/src/cadence_main.cpp, src/src/view_main.cpp)

    The progress lines and the summaries of the consumer programs, as lists of
    [Printf.Item]s, and that the integers of every line of every program can be read back
    from its text. *)

From Stdlib Require Import Ascii String SpecFloat.
From stdpp Require Import gmap sorting.
From S2P Require Import Prelude Text Doubles Printf Samples GapTracker Cadence Consumers Programs View Options RingConc Generator RingStress.
Open Scope Z_scope.

(** ** Figures *)

(** [elapsed > 0.0 ? n / elapsed : 0.0], with the elapsed time in nanoseconds. *)
Definition per_second (n elapsed : Z) : spec_float :=
  if SFltb (double_of 0) (ratio elapsed 1000000000)
  then double_div (double_of n) (ratio elapsed 1000000000) else double_of 0.

(** [batches > 0 ? frames / batches : 0.0] *)
Definition mean_batch (frames batches : Z) : spec_float :=
  if batches >? 0 then ratio frames batches else double_of 0.

(** The six percentiles, as every summary prints them. *)
Definition percentile_items (first : string) (p : Percentiles) : list Item :=
  [Lit (text first); Dec (pc_min p); Lit (text "  p50 "); Dec (pc_p50 p); Lit (text "  p90 "); Dec (pc_p90 p);
   Lit (text "  p99 "); Dec (pc_p99 p); Lit (text "  p99.9 "); Dec (pc_p999 p); Lit (text "  max "); Dec (pc_max p)].

Definition counts_line (label : string) (n : Z) (mid : string) (k : Z) (tail : string) : list Item :=
  [Lit (text label); Dec n; Lit (text mid); Dec k; Lit (text tail)].

Definition markers_line (s : TrackerStats) : list Item :=
  counts_line "markers       " (gs_markers s) "  (" (gs_reported_lost s) " frames, gateway-reported)".

Definition silent_line (s : TrackerStats) : list Item :=
  counts_line "silent jumps  " (gs_silent_jumps s) "  (" (gs_silent_lost s) " frames, no marker: a protocol fault)".

Definition frames_line (frames elapsed : Z) : list Item :=
  [Lit (text "frames        "); Dec frames;
   Lit (text " in " ++ fixed 3 (ratio elapsed 1000000000) ++ text "s = " ++ fixed 1 (per_second frames elapsed) ++ text "/s")].

Definition stats_of (ty : Tally) : TrackerStats := gt_s (ty_gaps ty).

(** ** The probe *)

(** [report] of the source, for one set of samples. *)
Definition samples_report (label : string) (s : Samples) : list (list Item) :=
  let p := compute s in
  if pc_count p =? 0 then [[Lit (pad_right 8 (text label) ++ text " no samples")]]
  else
    [[Lit (pad_right 8 (text label) ++ text " n="); Dec (pc_count p); Lit (text " (retained ");
      Dec (Z.of_nat (length (values_ s))); Lit (text ", stride "); Dec (stride_ s); Lit (text ")")];
     percentile_items "         min " p ++ [Lit (text "  mean " ++ fixed 0 (pc_mean p))]].

(** The line of [Probe.report], from the state before it. *)
Definition probe_progress (p : Probe.t) : list Item :=
  [Dec (u64 (Probe.frames p - Probe.last_frames p)); Lit (text "/s total="); Dec (Probe.frames p);
   Lit (text " lost="); Dec (total_lost (ty_gaps (Probe.tally p)));
   Lit (text " gw_p50="); Dec (Probe.live_p50 p); Lit (text "ns")].

Definition probe_summary (o : ProbeOpt.Config) (elapsed : Z) (p : Probe.t) : list (list Item) :=
  let s := stats_of (Probe.tally p) in
  [[];
   frames_line (Probe.frames p) elapsed;
   [Lit (text "batches       "); Dec (Probe.batches p);
    Lit (text " (mean " ++ fixed 1 (mean_batch (Probe.frames p) (Probe.batches p)) ++ text " frames/batch)")];
   markers_line s;
   counts_line "absent        " (gs_absent_markers s) "  (" (gs_absent_frames s) " frames passed while disconnected)";
   silent_line s;
   [Lit (text "connections   "); Dec (Probe.connections p)];
   [Lit (text "protocol_errs "); Dec (ty_protocol_errs (Probe.tally p))];
   counts_line "warmup        " (Probe.warmup_discarded p) " samples discarded (first " (ProbeOpt.warmup o) "s)";
   [];
   [Lit (text "latency, nanoseconds ("
         ++ text (if Probe.cross_machine p
                  then "CLOCK_REALTIME across hosts: accurate only to the clock discipline"
                  else "CLOCK_MONOTONIC, valid only within one machine") ++ text "):")]]
  ++ samples_report "gateway" (Probe.gw_latency p)
  ++ (if total_ (Probe.time_to_first_frame p) >? 0 then samples_report "connect" (Probe.time_to_first_frame p) else [])
  ++ (if Probe.measure_e2e p then samples_report "e2e" (Probe.e2e_latency p) else []).

(** ** The recorder *)

Definition record_progress (r : Recorder.t) : list Item :=
  [Dec (u64 (Recorder.frames r - Recorder.last_frames r)); Lit (text "/s total="); Dec (Recorder.frames r);
   Lit (text " bytes="); Dec (Recorder.bytes r); Lit (text " lost="); Dec (total_lost (ty_gaps (Recorder.tally r)))].

Definition record_summary (elapsed : Z) (r : Recorder.t) : list (list Item) :=
  let s := stats_of (Recorder.tally r) in let p := compute (Recorder.write_ns r) in
  [[];
   frames_line (Recorder.frames r) elapsed;
   [Lit (text "bytes         "); Dec (Recorder.bytes r)];
   [Lit (text "batches       "); Dec (Recorder.batches r)];
   markers_line s;
   silent_line s;
   [Lit (text "write_errors  "); Dec (Recorder.write_errors r)];
   [Lit (text "protocol_errs "); Dec (ty_protocol_errs (Recorder.tally r))];
   [];
   [Lit (text "write duration, nanoseconds:")];
   [Lit (text "  n="); Dec (pc_count p)] ++ percentile_items "  min " p].

(** ** The cadence checker *)

(** The table's rows, in the order of the map. *)
Definition id_le {A} (a b : Z * A) : Prop := a.1 <= b.1.

#[export] Instance id_le_dec {A} : RelDecision (@id_le A).
Proof. intros a b. unfold id_le. apply _. Defined.

Definition by_id {A} (m : gmap Z A) : list (Z * A) := merge_sort id_le (map_to_list m).

(** [%10llu] *)
Definition column (w : nat) (n : Z) : list Item := [Lit (replicate (w - length (to_string n)) " "%char); Dec n].

(** [%10.2fms], of nanoseconds. *)
Definition milliseconds (n : Z) : list ascii := pad_left 10 (fixed 2 (ratio n 1000000)) ++ text "ms".

Definition id_row (x : Z * IdStats) : list Item :=
  Lit (text "0x" ++ pad_right 6 (to_hex x.1) ++ text " ") :: column 10 (is_frames x.2)
  ++ Lit (text " " ++ milliseconds (is_expected_ns x.2) ++ text " ") :: column 10 (is_anomalies x.2)
  ++ [Lit (text " " ++ milliseconds (is_worst_ns x.2))].

Definition table_head : list ascii :=
  pad_right 8 (text "id") ++ text " " ++ pad_left 10 (text "frames") ++ text " " ++ pad_left 12 (text "period") ++ text " "
  ++ pad_left 10 (text "anomalies") ++ text " " ++ pad_left 12 (text "worst gap").

Definition cadence_summary (gap_blind : bool) (elapsed : Z) (ty : Tally) (m : CadenceMonitor) : list (list Item) :=
  [[];
   [Lit (text "mode          " ++ text (if gap_blind then "gap-blind (control arm)" else "gap-aware"))];
   [Lit (text "frames        "); Dec (m_frames_ m); Lit (text " in " ++ fixed 3 (ratio elapsed 1000000000) ++ text "s")];
   [Lit (text "ids           "); Dec (Z.of_nat (size (per_id m)))];
   counts_line "markers       " (m_markers_ m) "  (" (m_reported_lost_ m) " frames, gateway-reported)";
   silent_line (stats_of ty);
   [Lit (text "suppressed    "); Dec (m_suppressed_ m); Lit (text "  (interval checks skipped across known loss)")];
   [Lit (text "anomalies     "); Dec (m_anomalies_ m)];
   [Lit (text "protocol_errs "); Dec (ty_protocol_errs ty)]]
  ++ match by_id (per_id m) with
     | [] => []
     | rows => [] :: [Lit table_head] :: map id_row rows
     end.

(** ** The viewer *)

Definition view_summary (v : View) (requests : Z) : list Item :=
  let g := ty_gaps (v_tally v) in
  [Lit (text "etg-view: frames="); Dec (v_frames v); Lit (text " markers="); Dec (gs_markers (gt_s g));
   Lit (text " lost="); Dec (total_lost g); Lit (text " silent="); Dec (gs_silent_jumps (gt_s g));
   Lit (text " http_requests="); Dec requests].

(** ** Lemmas *)

Lemma samples_report_readable label s : Forall readable (samples_report label s).
Proof.
  unfold samples_report. case_match; repeat constructor; by apply read_printed.
Qed.

Lemma id_row_readable x : readable (id_row x).
Proof. by apply read_printed. Qed.

(** The rows of the table are every id once, ascending. *)
Lemma by_id_sorted {A} (m : gmap Z A) : Sorted Z.le (map fst (by_id m)) ∧ by_id m ≡ₚ map_to_list m.
Proof.
  split; [|apply merge_sort_Permutation]. assert (Sorted id_le (by_id m)) as H.
  { apply Sorted_merge_sort. intros a b. unfold id_le. lia. }
  induction H as [|x l _ IH Hx]; [constructor|]. cbn [map]. constructor; [done|].
  destruct Hx as [|y l Hxy]; simpl; constructor. exact Hxy.
Qed.

(** ** Properties *)

(** The reports say what was counted. For every state of every program, the integers
    of each line of its progress and of its summary (the probe, the recorder, the cadence
    checker, the viewer, the load generator and the ring stress test) are read back from
    the text of the line, so that no two counters can print the same line; the cadence
    table has one row for each identifier, ascending; and the elapsed seconds, computed in
    doubles from nanoseconds, are off by at most half the last of their three decimals and
    a relative 2^-50. *)
Theorem reports_readable :
  (∀ o elapsed p, Forall readable (probe_progress p :: probe_summary o elapsed p)) ∧
  (∀ elapsed r, Forall readable (record_progress r :: record_summary elapsed r)) ∧
  (∀ gap_blind elapsed ty m,
     Forall readable (cadence_summary gap_blind elapsed ty m) ∧
     Sorted Z.le (map fst (by_id (per_id m))) ∧ by_id (per_id m) ≡ₚ map_to_list (per_id m)) ∧
  (∀ v requests, readable (view_summary v requests)) ∧
  (∀ c elapsed g, Forall readable (gen_report c elapsed g)) ∧
  (∀ c elapsed s, Forall readable (stress_report c elapsed s)) ∧
  (∀ elapsed, fits 64 elapsed → prints_near 3 elapsed 1000000000).
Proof.
  split_and!.
  - intros o elapsed p. unfold probe_summary. constructor; [by apply read_printed|].
    rewrite !Forall_app. split_and!; try apply samples_report_readable;
      try (case_match; [apply samples_report_readable|constructor]).
    repeat constructor; by apply read_printed.
  - intros elapsed r. repeat constructor; by apply read_printed.
  - intros gap_blind elapsed ty m. split; [|apply by_id_sorted]. unfold cadence_summary. apply Forall_app. split.
    + repeat constructor; by apply read_printed.
    + destruct (by_id (per_id m)) as [|x rows]; [constructor|]. do 2 (constructor; [by apply read_printed|]).
      apply Forall_fmap, Forall_true. apply id_row_readable.
  - intros v requests. by apply read_printed.
  - intros c elapsed g. repeat constructor; by apply read_printed.
  - intros c elapsed s. repeat constructor; by apply read_printed.
  - intros elapsed [H0 H1]. apply fixed_ratio; [done|]. lia.
Qed.
